(* ===== verification/_CoqProject ===== *)
-Q . S2P
Prelude.v
GoStrings.v
GoFlag.v
ApiTypes.v
World.v
Process.v
Memory.v
ApiMemory.v
DeepCopy.v
Lo.v
Cluster.v
Trace.v
Store.v
ImageRefLib.v
Fixtures.v
Metrics.v
MetricRegistry.v
GoTime.v
Conditions.v
ImageName.v
SnapshotPodController.v
Runtime.v
TaskController.v
TaskSpec.v
TaskTheorems.v
Queue.v
Webhook.v
Collector.v
System.v
Main.v
