(* ===== verification/Prelude.v ===== *)
(** * kube-snapshot: a verification development

    kube-snapshot saves the containers of Kubernetes pods as images.  A user
    creates a SnapshotPod that names a target pod and raises its trigger round;
    the cluster-wide controller makes one SnapshotPodTask per container of the
    pod; the controller on the pod's node commits the container and pushes the
    image with the command-line client of the container engine; a webhook starts
    a round when a pod is deleted and puts the snapshots into a pod that is
    created again.  This library models these programs function by function and
    proves what they promise.

    ** The parts and their files

    - [Prelude]: scopes, hint databases, errors, machine integers, time, lists.
      [GoStrings]: package [strings] and [fmt] as far as they are used.
      [GoTime]: [time.ParseDuration].  [GoFlag]: packages [flag] and [path/filepath].
    - [ApiTypes]: the objects of [api/v1alpha1] with the source's fields, and the
      Kubernetes types they use.
    - [World]: the state monad [M E A] all functions live in, with Go panics, the
      trace of observable effects, and a small program logic ([wp], [wlp],
      [emits], [total]).  [Trace]: reasoning about the visible part of a trace
      ([does]).
    - [Process]: a Go process with its goroutines, executed by a schedule, and the
      logic of what it calls ([safe]) and of its progress ([ends]).
    - [Memory]: Go memory, addresses and references, and what a deep copy promises
      ([copied]).  [ApiMemory]: the structs of [api/v1alpha1] in that memory.
      [DeepCopy]: api/v1alpha1/zz_generated.deepcopy.go.
    - [Lo] (samber/lo), [Cluster] (the Kubernetes client and libraries),
      [ImageRefLib] (containers/image), and in [Runtime] the classes [Sys],
      [Semver] and [Engine]: code outside the repository, as type classes of
      operations with their documented laws.  Every theorem holds for all
      instances.  [Store] and [Fixtures] are concrete instances and objects; only
      the examples and the concrete runs use them.
    - [Metrics]: internal/metrics/metrics.go.  [MetricRegistry]: the declarations of
      the vectors there, and their registration.  [Collector]:
      internal/metrics/collector.go.
    - [Conditions]: the list of conditions both controllers keep.
    - [ImageName]: [renderNewImageName] and [withRandomTag] of
      internal/controller/snapshotpod_controller.go.  [SnapshotPodController]: the
      rest of that file, [getPod], [validate], [reconcileTasks],
      [reconcileTasksStatus], [Reconcile].
    - [Runtime]: internal/controller/runtime, both implementations of the
      interface [Runtime], which is a record of operations; [RuntimeOk] is what
      the task controller relies on, [docker_ok] and [containerd_ok] discharge it.
    - [TaskController]: internal/controller/snapshotpodtask_controller.go.
      [TaskSpec]: its specification as relations on the object and the visible
      events, and the refinement.  [TaskTheorems]: the consequences.  [Queue]: the
      calls of [Reconcile] for one task, one after the other, against the
      interface [TaskServer].
    - [Webhook]: internal/webhooks/pod.go.
    - [System]: the programs together, as histories of passes against one server.
    - [Main]: cmd/main.go with the three [SetupWithManager] functions: the flags, the
      registration of the metrics, the two roles of the binary, the goroutines, the
      handler of the signals, and every way the process ends.  controller-runtime and
      cert-controller are the class [Platform]; of the signals it has what their
      documentation says, that a second one ends the program with code 1.

    ** How the code is modelled

    A Go function that has effects is a function in [M E].  A pointer that Go
    mutates ([sp], [spt]) is threaded: a step takes the object and returns the
    changed one beside its error.  A Go [error] is [option GoError], a value and
    an error are a [result].  A run-time panic (an index out of range, a slice
    bound, [semver.MustParse]) is the outcome [Panic].  The [for] loops of the
    code are [Fixpoint]s on the list they walk over.  Objects are values; only
    [Memory] and the files on it have addresses, to state what the generated deep
    copies keep apart.  [int32] counters wrap
    around explicitly; float64 counts are kept with the rounding past 2^53.

    The outside is an abstract type [E] on which the classes' operations act.
    As even a read may change it, other actors may run between any two calls.
    The readings of the clock, the random identifiers, the order of a range loop
    over a map and the order of ties in [sort.Slice] come from arbitrary functions
    in the world, so a theorem over all worlds is a theorem over all of them.

    The trace holds the requests that write to the API server with the object
    sent and the answer, the calls through the runtime interface, the commands run
    with their environment, the changes to files and environment, and the
    measurements.  Log lines are not effects.

    ** What the theorems show

    - The system: in every history of passes of both controllers on any number of
      nodes and of webhook requests, with objects as stale as they may be, what
      a status calls done has been done: the container that a COMPLETED task names
      has been committed with the task's options and the image then pushed with its
      credentials ([completed_is_pushed]), and a run that SUCCEEDED stands for such
      a task ([succeeded_is_pushed]).  What a history asks of the server is
      [stored] and [serves]; [serves_std] shows it for the concrete one.
    - The SnapshotPod controller: one batch of tasks per round, in order, each
      created once ([reconcileTasks_creates], [reconcileTasks_settles]); results
      are copied from the tasks as [run_step] says and are final ([run_lifecycle],
      [reconcileTasksStatus_refines]); conditions tell what the steps returned
      ([Reconcile_conditions], over the steps that were [executed]); no panic, and
      nothing is written but for the object that was fetched ([Reconcile_safe]);
      bounded history, requeue exactly while work is open.
    - Image names: the expansion to the values of the documentation
      ([documented_value]) whatever the order of the map, and a suffix that is added
      once and is unique.
    - The task controller: a refinement of [reconcile_spec]; a push only after a
      recorded commit; finished steps are not repeated; honest phases; every pass
      without an API error uses up an attempt, hence an end after at most
      [attempts_left] passes; a pass without trouble completes the task; terminal
      and foreign tasks are left alone; against a server that refuses finitely
      many requests, or answers finitely many reads out of a stale cache, the
      queue of the controller brings every pending task to its end
      ([queue_drains]); the runtimes the program sets up are docker and nerdctl,
      each under its name, and are what the theorems ask for
      ([setup_runtimeMap_ok]).
    - The runtimes: commands with credentials are sessions that clean up on every
      path; argument vectors lose nothing; compression needs both versions, which
      are queried when the runtime is made ([NewContainerdCompatibleRuntime_spec]).
    - The webhook: the patches mean what [RecoveryRound] says, under a model of
      the JSON patch operations used; a deletion starts one round; nothing else
      is written and no decodable request is refused; it selects the pods that the
      controller selects, but in two cases ([targets_agree]).
    - The collector: gauges are exact counts.  In every history each measurement
      fits the declaration of its vector ([measurements_typed]); the declarations
      are accepted by the registry ([metrics_init_ok]).
    - Deep copies: each object type is copied to a separate object with the same
      content, but for one shared flag ([DeepCopyObject_copies]).
    - The process: in every interleaving of its goroutines each call comes after
      those it depends on, with the right options ([startup_order]); it ends only
      for a documented reason ([exit_explained]); without a failing call and a
      second signal it starts the manager ([start_completes]); flags can be rendered and parsed
      back ([flags_roundtrip]); HTTP/2 is off unless asked for ([http2_off]).

    Some examples ([container_lost], [image_mismatch], [failed_round_recovered],
    [docker_config_lost], ...) are runs in which the code does something its
    authors may not expect.

    ** Interleaving

    A history lists passes one after the other, each with a world of its own, by
    the time of the read its writes depend on: the fetch of the task, or the
    listing of the tasks.  Such a read may show any object the server has
    accepted by then, so concurrent passes have a history too; the events of
    passes that overlap appear in it pass by pass.  The assumptions are those
    of the custom resources: status is a subresource, so that an object is
    created without one and users do not write it, and the spec of a task is
    not edited.

    ** Fuel

    The only fuel is that of [GoTime.parse_numbers], the loop of
    [time.ParseDuration]; every iteration takes a byte, and [parse_numbers_enough]
    shows that the length of the text is enough.  A process runs as long as its
    schedule says; [start_completes] holds for every schedule that gives [main]
    twenty turns, its longest path.  [drive] calls [Reconcile] at most as often
    as it is told, and [queue_drains] names a number that is enough.

    ** What is not modelled

    The two print columns and validation markers of the API types;
    the decoding of raw pods (a parameter); what controller-runtime does between
    [mgr.Start] and a call of [Reconcile], whose passes are the histories of
    [System]; the text of log lines; and the tests.  In [Main] a step of a
    goroutine is one call, or the code between two calls, and a call of a library
    is one step, logged when it returns; the setup of the runtimes is one step.  How
    the system ends a process without its doing, by a signal that cannot be handled
    or one that comes before the handler is installed, is outside the model. *)

From stdpp Require Export base list strings gmap fin_maps sorting pretty.
From Stdlib Require Export ZArith Lia.

(** ** Scopes, hint databases, tactics *)

Declare Scope snap_scope.
Delimit Scope snap_scope with snap.
#[global] Open Scope Z_scope.
#[global] Open Scope string_scope.
#[global] Open Scope list_scope.

Create HintDb snap discriminated.
Create Rewrite HintDb snap.
Create Rewrite HintDb lo.

(** Split the next [match] or [if] of the goal, remembering the equation. *)
Ltac split_match :=
  match goal with
  | |- context [match ?x with _ => _ end] => destruct x eqn:?
  end.

(** The same on a hypothesis. *)
Ltac split_match_in H :=
  match type of H with
  | context [match ?x with _ => _ end] => destruct x eqn:?
  end.


(** ** Errors

    A Go [error] as the program uses one: the text [Error()] returns and the
    API reason that [errors.IsNotFound] and [errors.IsAlreadyExists] read. *)

Inductive Reason := NotFound | AlreadyExists | Conflict | OtherReason.

#[global] Instance Reason_eq_dec : EqDecision Reason.
Proof. solve_decision. Defined.

Record GoError := mkError { err_text : string; err_reason : Reason }.

#[global] Instance GoError_eq_dec : EqDecision GoError.
Proof. solve_decision. Defined.

(** [fmt.Errorf] without [%w]: a fresh error with no API reason. *)
Definition Errorf (msg : string) : GoError := mkError msg OtherReason.

(** [fmt.Errorf("prefix: %w", err)]: the reason of the wrapped error stays visible. *)
Definition Wrapf (pre : string) (e : GoError) : GoError :=
  mkError (pre +:+ err_text e) (err_reason e).

Definition IsNotFound (e : GoError) : bool := bool_decide (err_reason e = NotFound).
Definition IsAlreadyExists (e : GoError) : bool :=
  bool_decide (err_reason e = AlreadyExists).

(** A value or an error. *)
Definition result (A : Type) : Type := A + GoError.

Definition result_err {A} (r : result A) : option GoError :=
  match r with inl _ => None | inr e => Some e end.

(** ** Machine integers

    [int32] values are kept as [Z] in range; every arithmetic operation of the
    program on them wraps around explicitly. *)

Definition int32_min : Z := -2147483648.
Definition int32_max : Z := 2147483647.

Definition in_int32 (z : Z) : Prop := int32_min <= z <= int32_max.

#[global] Instance in_int32_dec z : Decision (in_int32 z).
Proof. unfold in_int32. apply _. Defined.

Definition int32_wrap (z : Z) : Z := (z + 2147483648) mod 4294967296 - 2147483648.

Lemma int32_wrap_range z : in_int32 (int32_wrap z).
Proof.
  unfold in_int32, int32_wrap, int32_min, int32_max.
  pose proof (Z.mod_pos_bound (z + 2147483648) 4294967296). lia.
Qed.

Lemma int32_wrap_id z : in_int32 z -> int32_wrap z = z.
Proof.
  unfold in_int32, int32_wrap, int32_min, int32_max. intros Hz.
  rewrite Z.mod_small by lia. lia.
Qed.

Definition int32_succ (z : Z) : Z := int32_wrap (z + 1).

Lemma int32_succ_lt z : in_int32 z -> z < int32_max -> int32_succ z = z + 1.
Proof.
  intros Hz Hlt. unfold int32_succ. apply int32_wrap_id.
  unfold in_int32, int32_min, int32_max in *. lia.
Qed.

Lemma int32_succ_max : int32_succ int32_max = int32_min.
Proof. reflexivity. Qed.

#[export] Hint Resolve int32_wrap_range : snap.

(** [int64] durations (nanoseconds). *)
Definition in_int64 (z : Z) : Prop := -9223372036854775808 <= z <= 9223372036854775807.
Definition int64_wrap (z : Z) : Z :=
  (z + 9223372036854775808) mod 18446744073709551616 - 9223372036854775808.

Lemma int64_wrap_id z : in_int64 z -> int64_wrap z = z.
Proof.
  unfold in_int64, int64_wrap. intros Hz. rewrite Z.mod_small by lia. lia.
Qed.

(** ** Time

    [time.Time] in nanoseconds since the zero time (January 1, year 1), so that
    [IsZero] is a comparison with 0; [time.Duration] in nanoseconds. *)

Abbreviation Time := Z (only parsing).
Abbreviation Duration := Z (only parsing).

Definition Second : Duration := 1000000000.
Definition Minute : Duration := 60 * Second.

Definition time_IsZero (t : Time) : bool := bool_decide (t = 0).

(** [IsZero] of a pointer to [metav1.Time]: a nil pointer is zero. *)
Definition timeptr_IsZero (t : option Time) : bool :=
  match t with None => true | Some t => time_IsZero t end.

Definition time_Add (t : Time) (d : Duration) : Time := t + d.
Definition time_Before (t u : Time) : bool := bool_decide (t < u).

(** [t.Sub(u)] saturates at the smallest and the largest duration. *)
Definition time_Sub (t u : Time) : Duration :=
  Z.max (-9223372036854775808) (Z.min 9223372036854775807 (t - u)).

(** [Time.Unix]: whole seconds since 1970, which is 62135596800 s after the zero time. *)
Definition time_Unix (t : Time) : Z := t / Second - 62135596800.

(** ** Lists *)

(** The order in which Go walks a map, and the order in which [sort.Slice]
    leaves elements that compare equal, are not specified.  [permute n l] is
    the permutation of [l] with index [n]; every permutation has an index. *)
Fixpoint permute {A} (n : nat) (l : list A) : list A :=
  match l with
  | [] => []
  | x :: xs =>
      let k := S (length xs) in
      let ys := permute (n / k)%nat xs in
      take (n mod k)%nat ys ++ x :: drop (n mod k)%nat ys
  end.

Lemma permute_Permutation {A} n (l : list A) : permute n l ≡ₚ l.
Proof.
  revert n. induction l as [|x l IH]; intros n; cbn [permute]; [done|].
  rewrite <- Permutation_middle, take_drop. by rewrite IH.
Qed.

Lemma permute_surjective {A} (l l' : list A) : l' ≡ₚ l -> exists n, permute n l = l'.
Proof.
  revert l'. induction l as [|x l IH]; intros l' Hp.
  { exists O. by apply Permutation_nil_r in Hp as ->. }
  assert (x ∈ l') as Hx by (rewrite Hp; apply list_elem_of_here).
  apply list_elem_of_split in Hx as (l1 & l2 & ->).
  rewrite <- Permutation_middle in Hp. apply Permutation_cons_inv in Hp.
  destruct (IH _ Hp) as [m Hm].
  exists (m * S (length l) + length l1)%nat. cbn [permute].
  assert (length l1 < S (length l))%nat as Hlt.
  { apply Permutation_length in Hp. rewrite length_app in Hp. lia. }
  rewrite Nat.div_add_l by lia. rewrite Nat.div_small, Nat.add_0_r, Hm by done.
  rewrite (Nat.add_comm (m * _)), Nat.Div0.mod_add, Nat.mod_small by done.
  by rewrite take_app_length, drop_app_length.
Qed.

#[export] Hint Resolve permute_Permutation : snap.

(** The index and value of the first element that satisfies [f]. *)
Fixpoint find_index {A} (f : A -> bool) (l : list A) : option nat :=
  match l with
  | [] => None
  | x :: xs => if f x then Some O else S <$> find_index f xs
  end.

Lemma find_index_Some {A} (f : A -> bool) l i :
  find_index f l = Some i ->
  exists x, l !! i = Some x /\ f x = true /\
    forall j y, (j < i)%nat -> l !! j = Some y -> f y = false.
Proof.
  revert i. induction l as [|x l IH]; intros i Hi; cbn in Hi; [done|].
  destruct (f x) eqn:Hx.
  { injection Hi as <-. exists x. split_and!; [done|done|lia]. }
  apply fmap_Some in Hi as (j & Hj & ->).
  destruct (IH _ Hj) as (y & ? & ? & Hmin). exists y. split_and!; [done|done|].
  intros [|k] z Hk Hz; cbn in Hz; [congruence|]. eapply Hmin; [|done]. lia.
Qed.

Lemma find_index_None {A} (f : A -> bool) l :
  find_index f l = None <-> forall x, x ∈ l -> f x = false.
Proof.
  induction l as [|x l IH]; cbn.
  { split; [|done]. intros _ y Hy. by apply not_elem_of_nil in Hy. }
  destruct (f x) eqn:Hx.
  - split; [done|]. intros H. specialize (H x (list_elem_of_here _ _)). congruence.
  - rewrite fmap_None, IH. split; intros H y Hy.
    + apply elem_of_cons in Hy as [->|]; auto.
    + apply H. by apply list_elem_of_further.
Qed.

(** Where an element of a concatenation stands. *)
Lemma app_split_r {A} (l1 l2 pre post : list A) x :
  l1 ++ l2 = pre ++ x :: post -> x ∉ l1 ->
  exists k, pre = l1 ++ k /\ l2 = k ++ x :: post.
Proof.
  intros H Hx. apply app_eq_inv in H as [(k & -> & H)|(k & -> & H)]; [|by exists k].
  destruct k as [|y k]; cbn in H.
  - exists []. by rewrite !app_nil_r.
  - injection H as -> _. destruct Hx. apply elem_of_app. right. apply list_elem_of_here.
Qed.

Lemma app_split_l {A} (l1 l2 pre post : list A) x :
  l1 ++ l2 = pre ++ x :: post -> x ∉ l2 ->
  exists k, l1 = pre ++ x :: k /\ post = k ++ l2.
Proof.
  intros H Hx. apply app_eq_inv in H as [(k & -> & H)|(k & -> & H)].
  - destruct k as [|y k]; cbn in H.
    + destruct Hx. rewrite <- H. apply list_elem_of_here.
    + injection H as -> ->. by exists k.
  - destruct Hx. rewrite H. apply elem_of_app. right. apply list_elem_of_here.
Qed.

(** [l[len(l)-n:]] for [n <= len l]. *)
Definition last_n {A} (n : nat) (l : list A) : list A := drop (length l - n) l.

Lemma length_last_n {A} n (l : list A) : (n <= length l)%nat -> length (last_n n l) = n.
Proof. intros Hn. unfold last_n. rewrite length_drop. lia. Qed.

Lemma last_n_suffix {A} n (l : list A) : last_n n l `suffix_of` l.
Proof. unfold last_n. exists (take (length l - n) l). by rewrite take_drop. Qed.

Lemma last_n_snoc {A} n (l : list A) x :
  (0 < n <= S (length l))%nat -> last_n n (l ++ [x]) = last_n (n - 1) l ++ [x].
Proof.
  intros Hn. unfold last_n. rewrite length_app. cbn.
  rewrite drop_app_le by lia. do 2 f_equal. lia.
Qed.

#[export] Hint Resolve last_n_suffix : snap.

(** ** Events and their past

    [along Q H es]: with [H] before them, every one of the events [es] satisfies
    [Q] together with what happened before it. *)

Fixpoint along {A} (Q : list A -> A -> Prop) (H es : list A) : Prop :=
  match es with
  | [] => True
  | e :: es' => Q H e /\ along Q (H ++ [e]) es'
  end.

Lemma along_app {A} (Q : list A -> A -> Prop) H es es' : along Q H (es ++ es') <-> along Q H es /\ along Q (H ++ es) es'.
Proof.
  revert H. induction es as [|e es IH]; intros H; cbn [along app].
  - rewrite app_nil_r. tauto.
  - rewrite IH, <- app_assoc. cbn [app]. tauto.
Qed.

Lemma along_at {A} (Q : list A -> A -> Prop) H pre e post : along Q H (pre ++ e :: post) -> Q (H ++ pre) e.
Proof. rewrite along_app. cbn [along]. tauto. Qed.

Lemma along_all {A} (Q : list A -> A -> Prop) H es :
  (forall k e, e ∈ es -> Q (H ++ k) e) -> along Q H es.
Proof.
  revert H. induction es as [|e es IH]; intros H HQ; cbn [along]; [done|].
  split; [rewrite <- (app_nil_r H); apply HQ, list_elem_of_here|].
  apply IH. intros k e' He'. rewrite <- app_assoc. by apply HQ, list_elem_of_further.
Qed.

Lemma along_in {A} (Q : list A -> A -> Prop) es e :
  along Q [] es -> e ∈ es -> exists pre post, es = pre ++ e :: post /\ Q pre e.
Proof.
  intros Hes (pre & post & ->)%list_elem_of_split. exists pre, post. split; [done|].
  by apply along_at in Hes.
Qed.

(** Two readings of the same past. *)
Lemma along_and {A} (Q Q' : list A -> A -> Prop) H es : along Q H es -> along Q' H es -> along (fun H e => Q H e /\ Q' H e) H es.
Proof.
  revert H. induction es as [|e es IH]; intros H; cbn [along]; [done|].
  intros [? ?] [? ?]. split; [done|]. by apply IH.
Qed.

Lemma along_impl {A} (Q Q' : list A -> A -> Prop) H es :
  (forall H' e, e ∈ es -> Q H' e -> Q' H' e) -> along Q H es -> along Q' H es.
Proof.
  revert H. induction es as [|e es IH]; intros H HQ; cbn [along]; [done|].
  intros [He Hes]. split; [apply HQ; [apply list_elem_of_here|done]|].
  apply IH; [|done]. intros H' e' He'. by apply HQ, list_elem_of_further.
Qed.
