(* ===== verification/GoStrings.v ===== *)
(** * The parts of Go's [strings], [strconv] and [fmt] that the program calls

    Go strings are byte sequences, modelled by [string] (a sequence of 8-bit
    [ascii]).  Each function is executable; the lemmas are the ones the
    components share: what [Contains] decides, that [Join] undoes [Split], and
    how [ReplaceAll] acts on text that does or does not contain the pattern. *)

From S2P Require Import Prelude.
From Stdlib Require Import Ascii.

#[global] Arguments Ascii.eqb : simpl never.

Implicit Types (s t p q old new sep : string) (c : ascii).

(** [strings.HasPrefix] *)
Fixpoint HasPrefix p s : bool :=
  match p, s with
  | EmptyString, _ => true
  | String a p', String b s' => Ascii.eqb a b && HasPrefix p' s'
  | String _ _, EmptyString => false
  end.

(** [s[n:]] for [n] at most the length. *)
Fixpoint drop_bytes (n : nat) s : string :=
  match n, s with
  | S n', String _ s' => drop_bytes n' s'
  | _, _ => s
  end.

(** [strings.TrimPrefix] *)
Definition TrimPrefix s p : string :=
  if HasPrefix p s then drop_bytes (String.length p) s else s.

(** [strings.Contains(s, p)] *)
Fixpoint Contains s p : bool :=
  HasPrefix p s ||
  match s with
  | EmptyString => false
  | String _ s' => Contains s' p
  end.

(** [strings.Split(s, sep)] for a non-empty [sep]: the piece that is being
    read and the pieces after it; [skip] counts the bytes of a separator that
    has been recognised and is being stepped over. *)
Fixpoint split_from sep (skip : nat) s : string * list string :=
  match s with
  | EmptyString => (EmptyString, [])
  | String c s' =>
      match skip with
      | S k => split_from sep k s'
      | O =>
          if HasPrefix sep s
          then let '(p, r) := split_from sep (String.length sep - 1) s' in
               (EmptyString, p :: r)
          else let '(p, r) := split_from sep O s' in (String c p, r)
      end
  end.

Definition Split s sep : list string :=
  let '(p, r) := split_from sep O s in p :: r.

(** [strings.Join] *)
Fixpoint Join (l : list string) sep : string :=
  match l with
  | [] => EmptyString
  | [x] => x
  | x :: xs => x +:+ sep +:+ Join xs sep
  end.

(** [strings.ReplaceAll(s, old, new)] for a non-empty [old]: matches are taken
    from the left and do not overlap. *)
Fixpoint replace_from old new (skip : nat) s : string :=
  match s with
  | EmptyString => EmptyString
  | String c s' =>
      match skip with
      | S k => replace_from old new k s'
      | O =>
          if HasPrefix old s
          then new +:+ replace_from old new (String.length old - 1) s'
          else String c (replace_from old new O s')
      end
  end.

Definition ReplaceAll s old new : string := replace_from old new O s.

(** [s[:n]]: [None] is the run-time panic of a slice out of range. *)
Fixpoint take_bytes (n : nat) s : option string :=
  match n, s with
  | O, _ => Some EmptyString
  | S n', String c s' => String c <$> take_bytes n' s'
  | S _, EmptyString => None
  end.

(** The bytes [unicode.IsSpace] accepts below 128. *)
Definition is_space c : bool :=
  match N_of_ascii c with
  | 9%N | 10%N | 11%N | 12%N | 13%N | 32%N => true
  | _ => false
  end.

Fixpoint trim_left s : string :=
  match s with
  | String c s' => if is_space c then trim_left s' else s
  | EmptyString => EmptyString
  end.

Fixpoint trim_right s : string :=
  match s with
  | EmptyString => EmptyString
  | String c s' =>
      match trim_right s' with
      | EmptyString => if is_space c then EmptyString else String c EmptyString
      | t => String c t
      end
  end.

(** [strings.TrimSpace] on ASCII text. *)
Definition TrimSpace s : string := trim_right (trim_left s).

(** [strconv.Itoa] and the verb [%d] *)
Definition Itoa (n : Z) : string := pretty n.

(** The verb [%v] of a [bool] and of a [[]string]. *)
Definition fmt_bool (b : bool) : string := if b then "true" else "false".
Definition fmt_strings (l : list string) : string := "[" +:+ Join l " " +:+ "]".

(** [fmt] prints the keys of a map in increasing byte order. *)
Definition string_leb s t : bool :=
  match String.compare s t with Gt => false | _ => true end.

Fixpoint insert_entry (e : string * string) (l : list (string * string)) :=
  match l with
  | [] => [e]
  | e' :: l' => if string_leb (fst e) (fst e') then e :: l else e' :: insert_entry e l'
  end.

(** The verb [%v] of a [map[string]string]. *)
Definition fmt_map (m : gmap string string) : string :=
  "map[" +:+
  Join (map (fun e => fst e +:+ ":" +:+ snd e)
            (foldr insert_entry [] (map_to_list m))) " " +:+ "]".

(** ** Lemmas *)

Lemma string_app_cons c s t : String c s +:+ t = String c (s +:+ t).
Proof. reflexivity. Qed.

Lemma string_nil_app s : "" +:+ s = s.
Proof. reflexivity. Qed.

(** [String.append] does not unfold under [cbn]: [sapp] is its computation. *)
Ltac sapp := cbn; rewrite ?string_app_cons, ?string_nil_app; cbn.
Tactic Notation "sapp" "in" hyp(H) :=
  cbn in H; rewrite ?string_app_cons, ?string_nil_app in H; cbn in H.

Lemma string_app_nil s : s +:+ "" = s.
Proof. induction s as [|c s IH]; sapp; [done|]. by rewrite IH. Qed.

Lemma string_app_assoc s t q : (s +:+ t) +:+ q = s +:+ t +:+ q.
Proof. induction s as [|c s IH]; sapp; [done|]. by rewrite IH. Qed.

Lemma string_length_app s t :
  String.length (s +:+ t) = (String.length s + String.length t)%nat.
Proof. induction s as [|c s IH]; sapp; [done|]. by rewrite IH. Qed.

Lemma string_app_inj_l s t q : s +:+ t = s +:+ q -> t = q.
Proof. induction s as [|c s IH]; sapp; [done|]. intros [= ?]. auto. Qed.

Lemma string_app_inj_r s t q : t +:+ s = q +:+ s -> t = q.
Proof.
  revert q. induction t as [|c t IH]; intros [|d q] H; sapp in H; [done| | |].
  1,2: exfalso; apply (f_equal String.length) in H; cbn in H;
       rewrite ?string_length_app in H; lia.
  injection H as -> H. f_equal. auto.
Qed.

(** Equal strings with ends of equal length have equal ends. *)
Lemma string_app_inj_len s s' t t' :
  String.length t = String.length t' -> s +:+ t = s' +:+ t' -> t = t'.
Proof.
  intros Hl H. assert (String.length s = String.length s') as Hs.
  { apply (f_equal String.length) in H. rewrite !string_length_app in H. lia. }
  clear Hl. revert s' Hs H. induction s as [|c s IH]; intros [|c' s'] Hs H; try done.
  sapp in H. injection H as -> H. eapply IH; [|done]. cbn in Hs. lia.
Qed.

#[export] Hint Rewrite string_app_cons string_nil_app string_app_nil string_app_assoc : snap.

Lemma HasPrefix_app p s : HasPrefix p (p +:+ s) = true.
Proof. induction p as [|c p IH]; sapp; [done|]. by rewrite Ascii.eqb_refl. Qed.

Lemma HasPrefix_spec p s : HasPrefix p s = true <-> exists r, s = p +:+ r.
Proof.
  split; [|intros [r ->]; apply HasPrefix_app].
  revert s. induction p as [|a p IH]; intros [|b s] H; cbn in H; eauto; [done|].
  apply andb_prop in H as [Hab H]. apply Ascii.eqb_eq in Hab as ->.
  destruct (IH _ H) as [r ->]. by exists r.
Qed.

Lemma Contains_spec s p : Contains s p = true <-> exists a b, s = a +:+ p +:+ b.
Proof.
  split.
  - induction s as [|c s IH]; cbn [Contains]; intros H; apply orb_prop in H as [H|H].
    + apply HasPrefix_spec in H as [r ->]. by exists "", r.
    + done.
    + apply HasPrefix_spec in H as [r ->]. by exists "", r.
    + destruct (IH H) as (a & b & ->). by exists (String c a), b.
  - intros (a & b & ->). induction a as [|c a IH].
    + rewrite string_nil_app. destruct (p +:+ b) eqn:E; cbn [Contains].
      all: rewrite <- E, HasPrefix_app; done.
    + rewrite string_app_cons. cbn [Contains]. rewrite IH. apply orb_true_r.
Qed.

Lemma Contains_app_r s t p : Contains t p = true -> Contains (s +:+ t) p = true.
Proof.
  rewrite !Contains_spec. intros (a & b & ->).
  exists (s +:+ a), b. by rewrite string_app_assoc.
Qed.

Lemma Contains_app_l s t p : Contains s p = true -> Contains (s +:+ t) p = true.
Proof.
  rewrite !Contains_spec. intros (a & b & ->).
  exists a, (b +:+ t). by rewrite !string_app_assoc.
Qed.

Lemma drop_bytes_app p s : drop_bytes (String.length p) (p +:+ s) = s.
Proof. induction p as [|c p IH]; sapp; [by destruct s|done]. Qed.

Lemma TrimPrefix_app p s : TrimPrefix (p +:+ s) p = s.
Proof. unfold TrimPrefix. by rewrite HasPrefix_app, drop_bytes_app. Qed.

Lemma TrimPrefix_no p s : HasPrefix p s = false -> TrimPrefix s p = s.
Proof. unfold TrimPrefix. by intros ->. Qed.

(** *** [Split] and [Join] *)

Lemma split_from_skip sep n s t :
  String.length s = n -> split_from sep n (s +:+ t) = split_from sep 0 t.
Proof.
  revert s. induction n as [|n IH]; intros [|c s] Hn; cbn in Hn; sapp; try done.
  apply IH. lia.
Qed.

Lemma split_from_sep sep t :
  sep <> "" ->
  split_from sep 0 (sep +:+ t) =
  let '(p, r) := split_from sep 0 t in ("", p :: r).
Proof.
  intros Hsep. destruct sep as [|c sep]; [done|].
  rewrite string_app_cons. cbn [split_from]. rewrite <- string_app_cons, HasPrefix_app.
  rewrite split_from_skip; [done|]. cbn. lia.
Qed.

Lemma Split_sep_app s t sep :
  sep <> "" -> Split s sep = [s] ->
  (forall a b, s = a +:+ b -> b <> "" -> HasPrefix sep (b +:+ sep +:+ t) = false) ->
  Split (s +:+ sep +:+ t) sep = s :: Split t sep.
Proof.
  intros Hsep _ Hno. unfold Split.
  assert (split_from sep 0 (s +:+ sep +:+ t) =
          let '(p, r) := split_from sep 0 t in (s, p :: r)) as ->.
  { induction s as [|c s IH].
    - rewrite string_nil_app. by apply split_from_sep.
    - rewrite string_app_cons. cbn [split_from].
      rewrite <- string_app_cons, (Hno "" (String c s)) by done.
      rewrite IH.
      + by destruct (split_from sep 0 t).
      + intros a b -> Hb. by apply (Hno (String c a)). }
  by destruct (split_from sep 0 t).
Qed.

Lemma Split_none s sep : Contains s sep = false -> Split s sep = [s].
Proof.
  intros H. unfold Split.
  assert (split_from sep 0 s = (s, [])) as ->; [|done].
  induction s as [|c s IH]; [done|]. cbn [Contains] in H.
  apply orb_false_elim in H as [Hp H]. cbn [split_from]. rewrite Hp.
  by rewrite IH.
Qed.

Lemma Join_Split s sep : sep <> "" -> Join (Split s sep) sep = s.
Proof.
  intros Hsep. unfold Split.
  assert (forall n s, (String.length s <= n)%nat ->
    let '(p, r) := split_from sep 0 s in Join (p :: r) sep = s) as H.
  { clear s. intros n. induction n as [|n IH]; intros s Hn.
    { destruct s; cbn in *; [done|lia]. }
    destruct s as [|c s]; [done|].
    destruct (HasPrefix sep (String c s)) eqn:Hp.
    - apply HasPrefix_spec in Hp as [r Hr]. rewrite Hr.
      rewrite split_from_sep by done.
      assert (String.length r <= n)%nat as Hlen.
      { apply (f_equal String.length) in Hr. rewrite string_length_app in Hr.
        destruct sep; [done|]. cbn in *. lia. }
      specialize (IH r Hlen). destruct (split_from sep 0 r) as [p l].
      cbn [Join] in *. by rewrite IH.
    - cbn [split_from]. rewrite Hp. cbn in Hn.
      specialize (IH s ltac:(lia)). destruct (split_from sep 0 s) as [p l].
      destruct l; cbn [Join] in *; by rewrite <- IH. }
  specialize (H _ s (le_n _)). by destruct (split_from sep 0 s).
Qed.

Lemma Split_head s sep : sep <> "" -> is_Some (Split s sep !! 0%nat).
Proof.
  intros Hs. destruct (Split s sep) as [|x l] eqn:H; [|by eexists].
  unfold Split in H. by destruct (split_from sep 0 s).
Qed.

(** The first piece is what stands before the first separator. *)
Lemma Split_head_tail s sep p r :
  sep <> "" -> Split s sep = p :: r ->
  (r = [] /\ s = p) \/ (exists q l, r = q :: l /\ s = p +:+ sep +:+ Join r sep).
Proof.
  intros Hsep Hs. pose proof (Join_Split s sep Hsep) as HJ. rewrite Hs in HJ.
  destruct r as [|q l]; cbn in HJ; [by left|]. right. exists q, l. split; [done|].
  by rewrite <- HJ.
Qed.

Lemma Split_single_iff s sep : sep <> "" -> (exists p, Split s sep = [p]) <-> Contains s sep = false.
Proof.
  intros Hsep. split; [|intros H; exists s; by apply Split_none].
  intros [p Hp]. destruct (Contains s sep) eqn:HC; [|done]. exfalso.
  unfold Split in Hp.
  assert (forall n s, (String.length s <= n)%nat -> Contains s sep = true ->
            snd (split_from sep 0 s) <> []) as H.
  { clear -Hsep. intros n. induction n as [|n IH]; intros [|c s] Hn HC;
      try (destruct sep; cbn in HC; done); [cbn in Hn; lia|].
    cbn [Contains] in HC. cbn [split_from].
    destruct (HasPrefix sep (String c s)) eqn:Hp.
    - destruct (split_from sep (String.length sep - 1) s); done.
    - cbn in HC, Hn. specialize (IH s ltac:(lia) HC).
      by destruct (split_from sep 0 s). }
  specialize (H _ s (le_n _) HC). destruct (split_from sep 0 s) as [a b].
  cbn in H. congruence.
Qed.

(** *** [ReplaceAll] *)

Lemma replace_from_skip old new n s t :
  String.length s = n ->
  replace_from old new n (s +:+ t) = replace_from old new 0 t.
Proof.
  revert s. induction n as [|n IH]; intros [|c s] Hn; cbn in Hn; sapp; try done.
  apply IH. lia.
Qed.

Lemma ReplaceAll_nil old new : ReplaceAll "" old new = "".
Proof. reflexivity. Qed.

(** At a match the pattern is replaced and the scan goes on behind it. *)
Lemma ReplaceAll_match old new t :
  old <> "" -> ReplaceAll (old +:+ t) old new = new +:+ ReplaceAll t old new.
Proof.
  intros Ho. destruct old as [|c old]; [done|]. unfold ReplaceAll.
  rewrite string_app_cons. cbn [replace_from]. rewrite <- string_app_cons, HasPrefix_app.
  rewrite replace_from_skip; [done|]. cbn. lia.
Qed.

(** Where the pattern does not start, one byte is copied. *)
Lemma ReplaceAll_cons old new c s :
  HasPrefix old (String c s) = false ->
  ReplaceAll (String c s) old new = String c (ReplaceAll s old new).
Proof. unfold ReplaceAll. cbn [replace_from]. by intros ->. Qed.

Lemma ReplaceAll_none s old new : Contains s old = false -> ReplaceAll s old new = s.
Proof.
  induction s as [|c s IH]; intros H; [done|]. cbn [Contains] in H.
  apply orb_false_elim in H as [Hp H]. rewrite ReplaceAll_cons by done. by rewrite IH.
Qed.

(** A byte that occurs in a string. *)
Fixpoint byte_in c s : bool :=
  match s with
  | EmptyString => false
  | String d s' => Ascii.eqb c d || byte_in c s'
  end.

Lemma byte_in_app c s t : byte_in c (s +:+ t) = byte_in c s || byte_in c t.
Proof. induction s as [|d s IH]; sapp; [done|]. by rewrite IH, orb_assoc. Qed.

(** Text without the byte [c] does not contain a pattern that starts with it, and
    ends where such a pattern begins. *)
Lemma byte_in_Contains c s t : byte_in c s = false -> Contains s (String c t) = false.
Proof.
  intros H. apply not_true_iff_false. rewrite Contains_spec. intros (a & b & ->).
  rewrite !byte_in_app in H. cbn [byte_in] in H. rewrite Ascii.eqb_refl in H.
  cbn in H. by rewrite orb_true_r in H.
Qed.

Lemma byte_in_prefix c sep name t a b :
  byte_in c name = false -> name = a +:+ b -> b <> "" ->
  HasPrefix (String c sep) (b +:+ t) = false.
Proof.
  intros Hn -> Hb. rewrite byte_in_app in Hn. apply orb_false_iff in Hn as [_ Hn].
  destruct b as [|d b]; [done|]. rewrite string_app_cons. cbn [HasPrefix].
  cbn [byte_in] in Hn. apply orb_false_iff in Hn as [Hc _]. by rewrite Hc.
Qed.

(** A pattern that starts with [c] leaves text without [c] as it is. *)
Lemma ReplaceAll_copy c old new s t :
  byte_in c s = false ->
  ReplaceAll (s +:+ t) (String c old) new = s +:+ ReplaceAll t (String c old) new.
Proof.
  induction s as [|d s IH]; intros H; [done|]. cbn in H.
  apply orb_false_elim in H as [Hd H]. rewrite string_app_cons.
  rewrite ReplaceAll_cons; [by rewrite IH|]. cbn. by rewrite Hd.
Qed.

Lemma take_bytes_app s t : take_bytes (String.length s) (s +:+ t) = Some s.
Proof. induction s as [|c s IH]; sapp; [done|]. by rewrite IH. Qed.

Lemma take_bytes_None n s : take_bytes n s = None <-> (String.length s < n)%nat.
Proof.
  revert s. induction n as [|n IH]; intros [|c s]; cbn; [split; [done|lia]..|split; [lia|done]|].
  rewrite fmap_None, IH. lia.
Qed.

Lemma take_bytes_Some n s p :
  take_bytes n s = Some p -> String.length p = n /\ exists t, s = p +:+ t.
Proof.
  revert s p. induction n as [|n IH]; intros s p H; cbn in H.
  { injection H as <-. split; [done|]. by exists s. }
  destruct s as [|c s]; [done|]. apply fmap_Some in H as (q & Hq & ->).
  destruct (IH _ _ Hq) as [Hl [t ->]]. split; [cbn; by rewrite Hl|]. by exists t.
Qed.

Lemma Itoa_inj n m : Itoa n = Itoa m -> n = m.
Proof. apply (inj pretty). Qed.

Lemma byte_in_Join c l sep :
  byte_in c (Join l sep) = false -> Forall (fun x => byte_in c x = false) l.
Proof.
  induction l as [|x l IH]; [constructor|]. destruct l as [|y l].
  - intros Hx. by repeat constructor.
  - change (Join (x :: y :: l) sep) with (x +:+ sep +:+ Join (y :: l) sep).
    rewrite !byte_in_app. intros H. apply orb_false_elim in H as [Hx H].
    apply orb_false_elim in H as [_ H]. constructor; [done|]. by apply IH.
Qed.

Lemma byte_in_Split c s sep :
  sep <> "" -> byte_in c s = false -> Forall (fun x => byte_in c x = false) (Split s sep).
Proof. intros Hsep Hs. apply (byte_in_Join c _ sep). by rewrite Join_Split. Qed.

#[global] Arguments ReplaceAll : simpl never.
#[global] Arguments Contains : simpl never.
#[global] Arguments Split : simpl never.
#[global] Arguments Join : simpl never.
#[global] Arguments TrimPrefix : simpl never.
#[global] Arguments TrimSpace : simpl never.
#[global] Arguments take_bytes : simpl never.
#[global] Arguments Itoa : simpl never.

(** ** Decimal numbers and separators *)

Lemma pretty_N_go_dash x s : byte_in "-" (pretty_N_go x s) = byte_in "-" s.
Proof.
  revert s. induction (N.lt_wf_0 x) as [x _ IH]; intros s.
  destruct (decide (x = 0)%N) as [->|Hx]; [by rewrite pretty_N_go_0|].
  rewrite pretty_N_go_step by lia. rewrite IH by (apply N.div_lt; lia). cbn [byte_in].
  unfold pretty_N_char. by repeat case_match.
Qed.

Lemma Itoa_no_dash n : 0 <= n -> byte_in "-" (Itoa n) = false.
Proof.
  intros Hn. unfold Itoa. destruct n as [|p|p]; [done| |lia].
  change (byte_in "-" (pretty (N.pos p)) = false). unfold pretty, pretty_N.
  destruct (decide _); [done|]. apply pretty_N_go_dash.
Qed.

(** The text before the first separator and the text behind it are determined. *)
Lemma separator_inj c s s' t t' :
  byte_in c s = false -> byte_in c s' = false ->
  s +:+ String c t = s' +:+ String c t' -> s = s' /\ t = t'.
Proof.
  revert s'. induction s as [|d s IH]; intros [|d' s'] Hs Hs' H; sapp in H.
  - by injection H as ->.
  - injection H as -> _. cbn in Hs'. by rewrite Ascii.eqb_refl in Hs'.
  - injection H as -> _. cbn in Hs. by rewrite Ascii.eqb_refl in Hs.
  - injection H as -> H. cbn in Hs, Hs'. apply orb_false_elim in Hs as [_ Hs], Hs' as [_ Hs'].
    destruct (IH s' Hs Hs' H) as [-> ->]. done.
Qed.
