(* ===== verification/GoFlag.v ===== *)
(** * Command lines and paths

    The parts of packages [flag] and [path/filepath] that the program uses: a
    set of flags over a state that their [Set] methods change, [Parse], and the
    lexical [Join] of paths.  The lemmas give [Parse] on one argument of each
    form. *)

From S2P Require Import Prelude GoStrings.
From Stdlib Require Import Ascii.

(** ** Flags *)

(** A flag of a flag set whose variables are a value of [F]. *)
Record Flag (F : Type) := mkFlag {
  flag_name : string;
  flag_IsBool : bool;
  flag_Set : string -> F -> result F
}.
Arguments mkFlag {F}. Arguments flag_name {F}. Arguments flag_IsBool {F}. Arguments flag_Set {F}.

(** [strconv.ParseBool] *)
Definition ParseBool (s : string) : option bool :=
  if bool_decide (s ∈ ["1"; "t"; "T"; "TRUE"; "true"; "True"]) then Some true
  else if bool_decide (s ∈ ["0"; "f"; "F"; "FALSE"; "false"; "False"]) then Some false
  else None.

Definition StringVar {F} (set : string -> F -> F) (name : string) : Flag F :=
  mkFlag name false (fun v f => inl (set v f)).
Definition BoolVar {F} (set : bool -> F -> F) (name : string) : Flag F :=
  mkFlag name true (fun v f => match ParseBool v with
                               | Some b => inl (set b f)
                               | None => inr (Errorf "parse error")
                               end).

(** A flag of a part of the state. *)
Definition lift_flag {F G} (get : G -> F) (put : F -> G -> G) (fl : Flag F) : Flag G :=
  mkFlag (flag_name fl) (flag_IsBool fl)
    (fun v g => match flag_Set fl v (get g) with inl f => inl (put f g) | inr e => inr e end).

(** What an argument is: the end of the flags, with or without an argument of
    its own, or a flag with its value after [=]. *)
Inductive word :=
| NotFlag
| Terminator
| BadSyntax
| FlagWord (name : string) (value : option string).

Fixpoint cut_eq (s : string) : string * option string :=
  match s with
  | EmptyString => ("", None)
  | String c s' =>
      if Ascii.eqb c "=" then ("", Some s')
      else let '(n, v) := cut_eq s' in (String c n, v)
  end.

Definition flag_body (name : string) : word :=
  match name with
  | EmptyString => BadSyntax
  | String c _ =>
      if Ascii.eqb c "-" || Ascii.eqb c "=" then BadSyntax
      else let '(n, v) := cut_eq name in FlagWord n v
  end.

Definition word_of (s : string) : word :=
  match s with
  | String c (String d s') =>
      if Ascii.eqb c "-" then
        if Ascii.eqb d "-" then
          match s' with EmptyString => Terminator | _ => flag_body s' end
        else flag_body (String d s')
      else NotFlag
  | _ => NotFlag
  end.

(** How [Parse] ends: with the arguments that are left, with a call for help, or
    with an error. *)
Inductive parsed (F : Type) :=
| Parsed (f : F) (args : list string)
| HelpRequested
| ParseError (err : GoError).
Arguments Parsed {F}. Arguments HelpRequested {F}. Arguments ParseError {F}.

Definition find_flag {F} (fs : list (Flag F)) (name : string) : option (Flag F) :=
  List.find (fun fl => bool_decide (flag_name fl = name)) fs.

Fixpoint Parse {F} (fs : list (Flag F)) (args : list string) (f : F) : parsed F :=
  match args with
  | [] => Parsed f []
  | s :: args' =>
      match word_of s with
      | NotFlag => Parsed f args
      | Terminator => Parsed f args'
      | BadSyntax => ParseError (Errorf ("bad flag syntax: " +:+ s))
      | FlagWord name value =>
          match find_flag fs name with
          | None =>
              if bool_decide (name ∈ ["help"; "h"]) then HelpRequested
              else ParseError (Errorf ("flag provided but not defined: -" +:+ name))
          | Some fl =>
              if flag_IsBool fl then
                match flag_Set fl (default "true" value) f with
                | inl f => Parse fs args' f
                | inr e => ParseError (Wrapf "invalid boolean value: " e)
                end
              else
                match value, args' with
                | Some v, _ =>
                    match flag_Set fl v f with
                    | inl f => Parse fs args' f
                    | inr e => ParseError (Wrapf "invalid value: " e)
                    end
                | None, v :: args'' =>
                    match flag_Set fl v f with
                    | inl f => Parse fs args'' f
                    | inr e => ParseError (Wrapf "invalid value: " e)
                    end
                | None, [] => ParseError (Errorf ("flag needs an argument: -" +:+ name))
                end
          end
      end
  end.

(** [--name=value], as a caller writes it. *)
Definition flag_arg (name value : string) : string := "--" +:+ name +:+ "=" +:+ value.

(** A name that [--name=value] can carry. *)
Definition flag_name_ok (name : string) : bool :=
  match name with
  | EmptyString => false
  | String c _ => negb (Ascii.eqb c "-") && negb (byte_in "=" name)
  end.

Lemma cut_eq_app name v : byte_in "=" name = false -> cut_eq (name +:+ "=" +:+ v) = (name, Some v).
Proof.
  induction name as [|c name IH]; [done|]. rewrite string_app_cons. cbn [byte_in cut_eq].
  intros [Hc Hn]%orb_false_iff. rewrite IH by done.
  by rewrite Ascii.eqb_sym in Hc; rewrite ?Hc; rewrite Ascii.eqb_sym in Hc; rewrite ?Hc.
Qed.

Lemma word_of_arg name v : flag_name_ok name = true -> word_of (flag_arg name v) = FlagWord name (Some v).
Proof.
  destruct name as [|c name]; [done|]. cbn [flag_name_ok].
  intros [Hd%negb_true_iff He%negb_true_iff]%andb_true_iff.
  unfold flag_arg. rewrite (string_app_cons c). cbn [word_of String.append].
  change (flag_body (String c (name +:+ "=" +:+ v)) = FlagWord (String c name) (Some v)).
  unfold flag_body. rewrite Hd. pose proof He as He'. cbn [byte_in] in He'.
  apply orb_false_iff in He' as [Hc _].
  assert (Ascii.eqb c "=" = false) as -> by (first [exact Hc|by rewrite Ascii.eqb_sym]).
  cbn [orb]. by rewrite <- string_app_cons, cut_eq_app.
Qed.

(** One argument with its value. *)
Lemma Parse_arg {F} (fs : list (Flag F)) fl name v f f' args :
  flag_name_ok name = true -> find_flag fs name = Some fl -> flag_Set fl v f = inl f' ->
  Parse fs (flag_arg name v :: args) f = Parse fs args f'.
Proof.
  intros Hn Hf Hs. cbn [Parse]. rewrite word_of_arg, Hf by done.
  destruct (flag_IsBool fl); cbn [from_option]; unfold id; by rewrite Hs.
Qed.

Lemma ParseBool_fmt b : ParseBool (fmt_bool b) = Some b.
Proof. by destruct b. Qed.

Lemma Parse_string {F} (fs : list (Flag F)) set name v f args :
  flag_name_ok name = true -> find_flag fs name = Some (StringVar set name) ->
  Parse fs (flag_arg name v :: args) f = Parse fs args (set v f).
Proof. intros Hn Hf. by eapply Parse_arg. Qed.

Lemma Parse_bool {F} (fs : list (Flag F)) set name b f args :
  flag_name_ok name = true -> find_flag fs name = Some (BoolVar set name) ->
  Parse fs (flag_arg name (fmt_bool b) :: args) f = Parse fs args (set b f).
Proof. intros Hn Hf. eapply Parse_arg; [done..|]. cbn. by rewrite ParseBool_fmt. Qed.

(** ** Paths *)

(** [filepath.Clean], lexically: empty elements and [.] go, [..] takes the element
    before it, and at the root it goes too. *)
Definition clean_elem (rooted : bool) (out : list string) (s : string) : list string :=
  if bool_decide (s = "") || bool_decide (s = ".") then out
  else if bool_decide (s = "..") then
    match last out with
    | Some t => if bool_decide (t = "..") then out ++ [s] else removelast out
    | None => if rooted then out else out ++ [s]
    end
  else out ++ [s].

Definition Clean (path : string) : string :=
  if bool_decide (path = "") then "."
  else
    let rooted := HasPrefix "/" path in
    let out := Join (foldl (clean_elem rooted) [] (Split path "/")) "/" in
    if rooted then "/" +:+ out else if bool_decide (out = "") then "." else out.

(** [filepath.Join]: the elements from the first that is not empty. *)
Fixpoint Join_path (elem : list string) : string :=
  match elem with
  | [] => ""
  | e :: elem' => if bool_decide (e = "") then Join_path elem' else Clean (Join elem "/")
  end.

Example Join_path_home : Join_path ["/root"; ".docker"; "config.json"] = "/root/.docker/config.json".
Proof. vm_compute. reflexivity. Qed.
Example Join_path_no_home : Join_path [""; ".docker"; "config.json"] = ".docker/config.json".
Proof. vm_compute. reflexivity. Qed.
Example Join_path_dots : Join_path ["/a//b/../"; ".docker"; "config.json"] = "/a/.docker/config.json".
Proof. vm_compute. reflexivity. Qed.
