(* ===== verification/ApiTypes.v ===== *)
(** * The API objects

    The custom resources of [api/v1alpha1] with the source's fields and
    constants, and of the Kubernetes types ([metav1], [corev1], [admissionv1])
    the fields the program reads or writes.

    Conventions: an [int32] is a [Z] in range; a pointer to an immutable value
    is an [option]; a Go map that is only read is a [gmap], wrapped in [option]
    where the code tells a nil map from an empty one; the string-typed enums
    stay strings, so that a value outside the declared constants is possible,
    as it is in the program. *)

From S2P Require Import Prelude.

(** ** metav1 and corev1 *)

Record GroupVersion := { gv_Group : string; gv_Version : string }.
Record GroupVersionKind := { gvk_Group : string; gvk_Version : string; gvk_Kind : string }.

Record OwnerReference := {
  or_APIVersion : string;
  or_Kind : string;
  or_Name : string;
  or_UID : string;
  or_Controller : bool;
  or_BlockOwnerDeletion : bool
}.

#[global] Instance OwnerReference_eq_dec : EqDecision OwnerReference.
Proof. solve_decision. Defined.

Record ObjectMeta := mkMeta {
  Name : string;
  Namespace : string;
  UID : string;
  ResourceVersion : string;
  Labels : option (gmap string string);
  OwnerReferences : list OwnerReference;
  CreationTimestamp : Time;
  DeletionTimestamp : option Time
}.

#[global] Instance ObjectMeta_eq_dec : EqDecision ObjectMeta.
Proof. solve_decision. Defined.

(** Reading a Go map, nil or not, gives the zero value for an absent key. *)
Definition map_get (m : option (gmap string string)) (k : string) : string :=
  match m with
  | Some m => default "" (m !! k)
  | None => ""
  end.

Definition key : Type := string * string.
Definition meta_key (m : ObjectMeta) : key := (Namespace m, Name m).

Definition ConditionTrue : string := "True".
Definition ConditionFalse : string := "False".
Definition ConditionUnknown : string := "Unknown".

Record Condition := mkCondition {
  c_Type : string;
  c_Status : string;
  c_LastTransitionTime : Time;
  c_Reason : string;
  c_Message : string
}.

#[global] Instance Condition_eq_dec : EqDecision Condition.
Proof. solve_decision. Defined.

Definition set_c_Status (v : string) (c : Condition) : Condition :=
  mkCondition (c_Type c) v (c_LastTransitionTime c) (c_Reason c) (c_Message c).
Definition set_c_Message (v : string) (c : Condition) : Condition :=
  mkCondition (c_Type c) (c_Status c) (c_LastTransitionTime c) (c_Reason c) v.
Definition set_c_LastTransitionTime (v : Time) (c : Condition) : Condition :=
  mkCondition (c_Type c) (c_Status c) v (c_Reason c) (c_Message c).

Definition PodRunning : string := "Running".

Record Container := { ctr_Name : string; ctr_Image : string }.
Record ContainerStatus := { cs_Name : string; cs_Image : string; cs_ContainerID : string }.

#[global] Instance Container_eq_dec : EqDecision Container.
Proof. solve_decision. Defined.

Record PodSpec := {
  pod_NodeName : string;
  pod_Containers : list Container;
  pod_ImagePullSecrets : list string   (* the [Name] of each [LocalObjectReference] *)
}.

Record Pod := {
  pod_meta : ObjectMeta;
  pod_Spec : PodSpec;
  pod_Phase : string;
  pod_ContainerStatuses : list ContainerStatus
}.

Definition empty_meta : ObjectMeta := mkMeta "" "" "" "" None [] 0 None.

(** The zero value [corev1.Pod{}]. *)
Definition empty_pod : Pod :=
  {| pod_meta := empty_meta;
     pod_Spec := {| pod_NodeName := ""; pod_Containers := []; pod_ImagePullSecrets := [] |};
     pod_Phase := ""; pod_ContainerStatuses := [] |}.

Record Secret := { sec_Data : gmap string string }.

(** ** SnapshotPod ([api/v1alpha1/snapshotpod_types.go]) *)

Record TargetPod := {
  tp_Name : string;
  tp_Selector : option (gmap string string);
  tp_Containers : list string
}.

Record CommitOptions := {
  co_PauseContainer : bool;
  co_Timeout : string;
  co_Message : string;
  co_Author : string
}.

#[global] Instance CommitOptions_eq_dec : EqDecision CommitOptions.
Proof. solve_decision. Defined.

Record ImageSaveOptions := {
  iso_ImageRefFormat : string;
  iso_RegistrySecretRef : string;
  iso_AppendSnappedSuffix : option bool;
  iso_MaxRetries : Z;
  iso_RetryDelaySeconds : Z
}.

Record AutoSaveOptions := {
  aso_AutoSaveOnTermination : bool;
  aso_Cron : string
}.

Record SnapshotPodSpec := mkSpSpec {
  sp_Target : TargetPod;
  sp_CommitOptions : CommitOptions;
  sp_ImageSaveOptions : ImageSaveOptions;
  sp_AutoSaveOptions : AutoSaveOptions;
  sp_TriggerRound : Z;
  sp_RecoveryRound : Z
}.

Definition set_TriggerRound (v : Z) (s : SnapshotPodSpec) : SnapshotPodSpec :=
  mkSpSpec (sp_Target s) (sp_CommitOptions s) (sp_ImageSaveOptions s)
           (sp_AutoSaveOptions s) v (sp_RecoveryRound s).

(** [SnapshotRunningResult] *)
Definition SnapshotRunningResultCreated : string := "CREATED".
Definition SnapshotRunningResultRunning : string := "RUNNING".
Definition SnapshotRunningResultFailed : string := "FAILED".
Definition SnapshotRunningResultSuccess : string := "SUCCEED".

Record SnapshotRunningStatus := mkRun {
  run_TriggerRound : Z;
  run_TriggerTime : Time;
  run_TaskName : string;
  run_ImageRef : string;
  run_ContainerName : string;
  run_Result : string;
  run_FailedReason : string;
  run_CompletedAt : option Time
}.

#[global] Instance SnapshotRunningStatus_eq_dec : EqDecision SnapshotRunningStatus.
Proof. solve_decision. Defined.

Definition set_run_Result (v : string) (s : SnapshotRunningStatus) : SnapshotRunningStatus :=
  mkRun (run_TriggerRound s) (run_TriggerTime s) (run_TaskName s) (run_ImageRef s)
        (run_ContainerName s) v (run_FailedReason s) (run_CompletedAt s).
Definition set_run_FailedReason (v : string) (s : SnapshotRunningStatus) : SnapshotRunningStatus :=
  mkRun (run_TriggerRound s) (run_TriggerTime s) (run_TaskName s) (run_ImageRef s)
        (run_ContainerName s) (run_Result s) v (run_CompletedAt s).
Definition set_run_CompletedAt (v : option Time) (s : SnapshotRunningStatus) : SnapshotRunningStatus :=
  mkRun (run_TriggerRound s) (run_TriggerTime s) (run_TaskName s) (run_ImageRef s)
        (run_ContainerName s) (run_Result s) (run_FailedReason s) v.

Record SnapshotPodStatus := mkSpStatus {
  sp_Snapshots : list SnapshotRunningStatus;
  sp_Conditions : list Condition;
  sp_LastTriggerRound : Z
}.

Record SnapshotPod := mkSp {
  sp_meta : ObjectMeta;
  sp_Spec : SnapshotPodSpec;
  sp_Status : SnapshotPodStatus
}.

Definition set_Snapshots (v : list SnapshotRunningStatus) (sp : SnapshotPod) : SnapshotPod :=
  mkSp (sp_meta sp) (sp_Spec sp)
       (mkSpStatus v (sp_Conditions (sp_Status sp)) (sp_LastTriggerRound (sp_Status sp))).
Definition set_Conditions (v : list Condition) (sp : SnapshotPod) : SnapshotPod :=
  mkSp (sp_meta sp) (sp_Spec sp)
       (mkSpStatus (sp_Snapshots (sp_Status sp)) v (sp_LastTriggerRound (sp_Status sp))).
Definition set_LastTriggerRound (v : Z) (sp : SnapshotPod) : SnapshotPod :=
  mkSp (sp_meta sp) (sp_Spec sp)
       (mkSpStatus (sp_Snapshots (sp_Status sp)) (sp_Conditions (sp_Status sp)) v).
Definition set_Spec (v : SnapshotPodSpec) (sp : SnapshotPod) : SnapshotPod :=
  mkSp (sp_meta sp) v (sp_Status sp).

(** ** SnapshotPodTask ([api/v1alpha1/snapshotpodtask_types.go]) *)

Record SnapshotPodTaskSpec := {
  ts_NodeName : string;
  ts_PodName : string;
  ts_ContainerID : string;
  ts_CommitOptions : CommitOptions;
  ts_OriginImage : string;
  ts_OriginRegistrySecretRef : string;
  ts_CommitImage : string;
  ts_RegistrySecretRef : string;
  ts_MaxRetries : Z;
  ts_RetryDelaySeconds : Z
}.

#[global] Instance SnapshotPodTaskSpec_eq_dec : EqDecision SnapshotPodTaskSpec.
Proof. solve_decision. Defined.

(** [SnapshotPodTaskPhase] *)
Definition SnapshotPodTaskPhaseCreated : string := "CREATED".
Definition SnapshotPodTaskPhaseFailed : string := "FAILED".
Definition SnapshotPodTaskPhaseCompleted : string := "COMPLETED".

Record SnapshotPodTaskStatus := mkTaskStatus {
  t_Conditions : list Condition;
  t_Phase : string;
  t_RetryCount : Z;
  t_LastRetryTime : option Time
}.

#[global] Instance SnapshotPodTaskStatus_eq_dec : EqDecision SnapshotPodTaskStatus.
Proof. solve_decision. Defined.

(** The zero value [SnapshotPodTaskStatus{}]. *)
Definition empty_task_status : SnapshotPodTaskStatus := mkTaskStatus [] "" 0 None.

Record SnapshotPodTask := mkTask {
  t_meta : ObjectMeta;
  t_Spec : SnapshotPodTaskSpec;
  t_Status : SnapshotPodTaskStatus
}.

#[global] Instance SnapshotPodTask_eq_dec : EqDecision SnapshotPodTask.
Proof. solve_decision. Defined.

Definition set_t_Status (v : SnapshotPodTaskStatus) (t : SnapshotPodTask) : SnapshotPodTask :=
  mkTask (t_meta t) (t_Spec t) v.
Definition set_t_Conditions (v : list Condition) (t : SnapshotPodTask) : SnapshotPodTask :=
  set_t_Status (mkTaskStatus v (t_Phase (t_Status t)) (t_RetryCount (t_Status t))
                             (t_LastRetryTime (t_Status t))) t.
Definition set_t_Phase (v : string) (t : SnapshotPodTask) : SnapshotPodTask :=
  set_t_Status (mkTaskStatus (t_Conditions (t_Status t)) v (t_RetryCount (t_Status t))
                             (t_LastRetryTime (t_Status t))) t.
Definition set_t_RetryCount (v : Z) (t : SnapshotPodTask) : SnapshotPodTask :=
  set_t_Status (mkTaskStatus (t_Conditions (t_Status t)) (t_Phase (t_Status t)) v
                             (t_LastRetryTime (t_Status t))) t.
Definition set_t_LastRetryTime (v : option Time) (t : SnapshotPodTask) : SnapshotPodTask :=
  set_t_Status (mkTaskStatus (t_Conditions (t_Status t)) (t_Phase (t_Status t))
                             (t_RetryCount (t_Status t)) v) t.

(** [pkg/apis/snapshotpod/v1alpha1/snapshot_labels.go] *)
Definition SnapshotNameLabel : string := "snapshot-pod.baizeai.io/name".

(** [api/v1alpha1/groupversion_info.go] *)
Definition ApiGroupVersion : GroupVersion :=
  {| gv_Group := "snapshot-pod.baizeai.io"; gv_Version := "v1alpha1" |}.
