(* ===== verification/World.v ===== *)
(** * The world the program runs in, and the monad its functions live in

    A function of the program is a value of [M E A]: it takes the world, and
    returns a value or a Go panic together with the new world.  A Go [error]
    is an ordinary part of the returned value, as it is in Go.

    - [w_ext : E] is everything outside the process (the API server, the
      container engine, the file system).  Its type is abstract: the classes of
      [Cluster] and [Runtime] say which operations act on it.  Even a read may
      change it, so other actors may run between two calls.
    - [w_clock], [w_uuid] and [w_seed] are the readings of [time.Now()], the
      results of [uuid.New()] and Go's choices of an unspecified order (map
      iteration, ties in [sort.Slice]), each with the index of the next one.
      They are arbitrary functions: a theorem about all worlds is a theorem
      about all readings and all choices.
    - [w_trace] is the sequence of observable effects so far, oldest first. *)

From S2P Require Import Prelude GoStrings ApiTypes.
From Stdlib Require Import Ascii Floats.SpecFloat.

(** ** Observable effects *)

(** The metric vectors declared in [internal/metrics/metrics.go]. *)
Inductive MetricVec :=
| SnapshotTaskMetrics_Total
| SnapshotTaskMetrics_Duration
| SnapshotTaskMetrics_Retries
| SnapshotTaskMetrics_Active
| SnapshotTaskMetrics_ByNode
| ControllerMetrics_ReconcileTotal
| ControllerMetrics_ReconcileDuration
| ControllerMetrics_ErrorsTotal
| ImageMetrics_PushTotal
| ImageMetrics_PushDuration
| SnapshotTaskFailed.

#[global] Instance MetricVec_eq_dec : EqDecision MetricVec.
Proof. solve_decision. Defined.

Inductive MetricOp :=
| Inc                          (* WithLabelValues(...).Inc() *)
| Observe (seconds : spec_float)
| SetTo (count : Z)            (* WithLabelValues(...).Set(count) *)
| ResetVec.                    (* Reset() *)

(** [runtime.Auth] *)
Record Auth := { Registry : string; ConfigJSON : string }.

(** Calls through the interface [runtime.Runtime]. *)
Inductive RtCall :=
| RtCommit (timeout : option Duration) (containerID image : string) (pause : bool)
           (message author : string)
| RtImageExists (image : string) (exists_ : bool)
| RtPull (image : string) (auth : option Auth) (args : list string)
| RtPush (image : string) (auth : option Auth).

Inductive FsOp :=
| FsMkdirTemp (path : string)
| FsWriteFile (path content : string)
| FsRemoveAll (path : string)
| FsSetenv (k v : string)
| FsUnsetenv (k : string).

Inductive Event :=
| EvTaskCreate (t : SnapshotPodTask) (r : option GoError)
| EvTaskStatus (t : SnapshotPodTask) (r : option GoError)
| EvSpStatus (sp : SnapshotPod) (r : option GoError)
| EvSpUpdate (sp : SnapshotPod) (r : option GoError)
| EvRuntime (c : RtCall) (r : option GoError)
| EvExec (cmd : string) (args : list string) (env : gmap string string) (r : option GoError)
| EvFs (o : FsOp)
| EvMetric (v : MetricVec) (labels : list string) (o : MetricOp).

(** ** The world *)

Record World (E : Type) := mkWorld {
  w_ext : E;
  w_env : gmap string string;
  w_clock : nat -> Time; w_clock_i : nat;
  w_uuid : nat -> string; w_uuid_i : nat;
  w_seed : nat -> nat; w_seed_i : nat;
  w_trace : list Event
}.
Arguments mkWorld {E}.
Arguments w_ext {E}. Arguments w_env {E}.
Arguments w_clock {E}. Arguments w_clock_i {E}.
Arguments w_uuid {E}. Arguments w_uuid_i {E}.
Arguments w_seed {E}. Arguments w_seed_i {E}.
Arguments w_trace {E}.

Inductive outcome (A : Type) :=
| Ret (a : A)
| Panic (msg : string).
Arguments Ret {A}. Arguments Panic {A}.

Definition M (E A : Type) : Type := World E -> outcome A * World E.

#[global] Instance M_ret E : MRet (M E) := fun A a w => (Ret a, w).
#[global] Instance M_bind E : MBind (M E) := fun A B f m w =>
  match m w with
  | (Ret a, w') => f a w'
  | (Panic s, w') => (Panic s, w')
  end.

(** A run-time panic, e.g. an index out of range. *)
Definition panic {E A} (msg : string) : M E A := fun w => (Panic msg, w).

Section World.
Context {E : Type}.

Definition emit (e : Event) : M E () := fun w =>
  (Ret tt, mkWorld (w_ext w) (w_env w) (w_clock w) (w_clock_i w) (w_uuid w) (w_uuid_i w)
                   (w_seed w) (w_seed_i w) (w_trace w ++ [e])).

(** An operation of the outside. *)
Definition external {A} (f : E -> A * E) : M E A := fun w =>
  let '(a, e) := f (w_ext w) in
  (Ret a, mkWorld e (w_env w) (w_clock w) (w_clock_i w) (w_uuid w) (w_uuid_i w)
                  (w_seed w) (w_seed_i w) (w_trace w)).

(** [time.Now()] *)
Definition now : M E Time := fun w =>
  (Ret (w_clock w (w_clock_i w)),
   mkWorld (w_ext w) (w_env w) (w_clock w) (S (w_clock_i w)) (w_uuid w) (w_uuid_i w)
           (w_seed w) (w_seed_i w) (w_trace w)).

(** [time.Since(t)] *)
Definition since (t : Time) : M E Duration := n ← now; mret (time_Sub n t).

(** [uuid.New().String()] *)
Definition uuid_New_String : M E string := fun w =>
  (Ret (w_uuid w (w_uuid_i w)),
   mkWorld (w_ext w) (w_env w) (w_clock w) (w_clock_i w) (w_uuid w) (S (w_uuid_i w))
           (w_seed w) (w_seed_i w) (w_trace w)).

Definition choose : M E nat := fun w =>
  (Ret (w_seed w (w_seed_i w)),
   mkWorld (w_ext w) (w_env w) (w_clock w) (w_clock_i w) (w_uuid w) (w_uuid_i w)
           (w_seed w) (S (w_seed_i w)) (w_trace w)).

Definition getenv : M E (gmap string string) := fun w => (Ret (w_env w), w).

Definition putenv (env : gmap string string) : M E () := fun w =>
  (Ret tt, mkWorld (w_ext w) env (w_clock w) (w_clock_i w) (w_uuid w) (w_uuid_i w)
                   (w_seed w) (w_seed_i w) (w_trace w)).

(** The entries of a map in the order of one [range] loop over it. *)
Definition range_map {V} (m : gmap string V) : M E (list (string * V)) :=
  n ← choose; mret (permute n (map_to_list m)).

(** [sort.Slice(l, less)]: sorted, with ties in an arbitrary order. *)
Definition sort_slice {A} (less : A -> A -> bool) (l : list A) : M E (list A) :=
  n ← choose;
  mret (foldr (fun x =>
          (fix ins (l : list A) := match l with
             | [] => [x]
             | y :: l' => if less y x then y :: ins l' else x :: l
             end)) [] (permute n l)).
End World.

(** ** A program logic

    [post m Q w]: the run of [m] from [w] ends in an outcome and a world that
    satisfy [Q].  [wp] asks for a regular return, [wlp] allows a panic. *)

Definition post {E A} (m : M E A) (Q : outcome A -> World E -> Prop) (w : World E) : Prop :=
  Q (fst (m w)) (snd (m w)).

Definition wp {E A} (m : M E A) (Q : A -> World E -> Prop) : World E -> Prop :=
  post m (fun o w' => match o with Ret a => Q a w' | Panic _ => False end).

Definition wlp {E A} (m : M E A) (Q : A -> World E -> Prop) : World E -> Prop :=
  post m (fun o w' => match o with Ret a => Q a w' | Panic _ => True end).

Section Logic.
Context {E : Type}.

Lemma post_bind {A B} (m : M E A) (f : A -> M E B) Q w :
  post (m ≫= f) Q w <->
  post m (fun o w' => match o with Ret a => post (f a) Q w' | Panic s => Q (Panic s) w' end) w.
Proof.
  unfold post, mbind, M_bind. destruct (m w) as [[a|s] w']; cbn; done.
Qed.

Lemma wp_bind {A B} (m : M E A) (f : A -> M E B) Q w :
  wp (m ≫= f) Q w <-> wp m (fun a => wp (f a) Q) w.
Proof.
  unfold wp, post, mbind, M_bind. destruct (m w) as [[a|s] w']; cbn; done.
Qed.

Lemma wlp_bind {A B} (m : M E A) (f : A -> M E B) Q w :
  wlp (m ≫= f) Q w <-> wlp m (fun a => wlp (f a) Q) w.
Proof.
  unfold wlp, post, mbind, M_bind. destruct (m w) as [[a|s] w']; cbn; done.
Qed.

Lemma wp_ret {A} (a : A) Q (w : World E) : wp (mret a) Q w <-> Q a w.
Proof. done. Qed.

Lemma wlp_ret {A} (a : A) Q (w : World E) : wlp (mret a) Q w <-> Q a w.
Proof. done. Qed.

Lemma wp_mono {A} (m : M E A) (Q Q' : A -> World E -> Prop) w :
  wp m Q w -> (forall a w', Q a w' -> Q' a w') -> wp m Q' w.
Proof. unfold wp, post. destruct (m w) as [[a|s] w']; cbn; auto. Qed.

Lemma wlp_mono {A} (m : M E A) (Q Q' : A -> World E -> Prop) w :
  wlp m Q w -> (forall a w', Q a w' -> Q' a w') -> wlp m Q' w.
Proof. unfold wlp, post. destruct (m w) as [[a|s] w']; cbn; auto. Qed.

Lemma wlp_and {A} (m : M E A) (Q Q' : A -> World E -> Prop) w :
  wlp m Q w -> wlp m Q' w -> wlp m (fun a w' => Q a w' /\ Q' a w') w.
Proof. unfold wlp, post. destruct (fst (m w)); auto. Qed.

Lemma wp_and_wlp {A} (m : M E A) (Q Q' : A -> World E -> Prop) w :
  wp m Q w -> wlp m Q' w -> wp m (fun a w' => Q a w' /\ Q' a w') w.
Proof. unfold wp, wlp, post. destruct (fst (m w)); auto. Qed.

Lemma wp_wlp {A} (m : M E A) Q w : wp m Q w -> wlp m Q w.
Proof. unfold wp, wlp, post. by destruct (fst (m w)). Qed.

Lemma wp_run {A} (m : M E A) Q w :
  wp m Q w <-> exists a w', m w = (Ret a, w') /\ Q a w'.
Proof.
  unfold wp, post. destruct (m w) as [[a|s] w']; cbn; split.
  - intros HQ. by exists a, w'.
  - by intros (? & ? & [= -> ->] & ?).
  - done.
  - by intros (? & ? & ? & ?).
Qed.

(** Reading the clock. *)
Lemma wp_now (Q : Time -> World E -> Prop) w :
  (forall w', w_ext w' = w_ext w -> w_env w' = w_env w -> w_uuid w' = w_uuid w ->
     w_trace w' = w_trace w -> Q (w_clock w (w_clock_i w)) w') ->
  wp now Q w.
Proof. intros HQ. unfold wp, post. cbn. by apply HQ. Qed.

(** A loop over a map sees some order of its entries. *)
Lemma wp_range_map {V} (m : gmap string V) Q (w : World E) :
  (forall n w', w_ext w' = w_ext w -> w_env w' = w_env w -> w_uuid w' = w_uuid w ->
     w_trace w' = w_trace w -> Q (permute n (map_to_list m)) w') ->
  wp (range_map m) Q w.
Proof. intros HQ. unfold wp, post. cbn. by apply HQ. Qed.

Lemma run_pair {A} (m : M E A) w o : fst (m w) = o -> m w = (o, snd (m w)).
Proof. intros <-. apply surjective_pairing. Qed.

Lemma bind_run {A B} (m : M E A) (f : A -> M E B) w a w' :
  m w = (Ret a, w') -> (m ≫= f) w = f a w'.
Proof. unfold mbind, M_bind. by intros ->. Qed.
End Logic.

#[global] Arguments wp : simpl never.
#[global] Arguments wlp : simpl never.
#[global] Arguments post : simpl never.

#[global] Instance wlp_proper {E A} (m : M E A) :
  Proper (pointwise_relation A (pointwise_relation (World E) impl) ==>
          pointwise_relation (World E) impl) (wlp m).
Proof. intros Q Q' HQ w H. eapply wlp_mono; [done|]. intros a w'. apply HQ. Qed.

(** ** Effects

    [emits P m]: whatever the world, the run of [m] keeps the oracle of
    identifiers and leaves the trace as it is but for new events at its end,
    each of which satisfies [P]. *)

Definition emits {E A} (P : Event -> Prop) (m : M E A) : Prop :=
  forall w, w_uuid (snd (m w)) = w_uuid w /\
    exists es, w_trace (snd (m w)) = w_trace w ++ es /\ Forall P es.

Create HintDb effects discriminated.

Section Effects.
Context {E : Type}.
Implicit Types P : Event -> Prop.

Lemma emits_silent {A} P (m : M E A) :
  (forall w, w_uuid (snd (m w)) = w_uuid w /\ w_trace (snd (m w)) = w_trace w) -> emits P m.
Proof.
  intros H w. destruct (H w) as [Hu Ht]. split; [done|].
  exists []. rewrite app_nil_r. by split.
Qed.

Lemma emits_ret {A} P (a : A) : emits (E := E) P (mret a).
Proof. by apply emits_silent. Qed.

Lemma emits_panic {A} P s : emits (E := E) (A := A) P (panic s).
Proof. by apply emits_silent. Qed.

Lemma emits_bind {A B} P (m : M E A) (f : A -> M E B) :
  emits P m -> (forall a, emits P (f a)) -> emits P (m ≫= f).
Proof.
  intros Hm Hf w. destruct (Hm w) as (Hu & es & Hes & HP).
  unfold mbind, M_bind. destruct (m w) as [[a|s] w']; cbn in *.
  2: { split; [done|]. by exists es. }
  destruct (Hf a w') as (Hu' & es' & Hes' & HP'). split; [congruence|].
  exists (es ++ es'). rewrite Hes', Hes, app_assoc. split; [done|]. by apply Forall_app.
Qed.

Lemma emits_emit P e : P e -> emits (E := E) P (emit e).
Proof. intros HP w. split; [done|]. exists [e]. by repeat constructor. Qed.

Lemma emits_external {A} P (f : E -> A * E) : emits P (external f).
Proof. apply emits_silent. intros w. unfold external. by destruct (f (w_ext w)). Qed.

Lemma emits_mono {A} P (P' : Event -> Prop) (m : M E A) :
  emits P m -> (forall e, P e -> P' e) -> emits P' m.
Proof.
  intros H HP w. destruct (H w) as (Hu & es & ? & ?). split; [done|].
  exists es. split; [done|]. by eapply Forall_impl.
Qed.

Lemma emits_now P : emits (E := E) P now.
Proof. by apply emits_silent. Qed.
Lemma emits_since P t : emits (E := E) P (since t).
Proof. by apply emits_silent. Qed.
Lemma emits_uuid P : emits (E := E) P uuid_New_String.
Proof. by apply emits_silent. Qed.
Lemma emits_choose P : emits (E := E) P choose.
Proof. by apply emits_silent. Qed.
Lemma emits_getenv P : emits (E := E) P getenv.
Proof. by apply emits_silent. Qed.
Lemma emits_putenv P env : emits (E := E) P (putenv env).
Proof. by apply emits_silent. Qed.
Lemma emits_range_map {V} P (m : gmap string V) : emits (E := E) P (range_map m).
Proof. by apply emits_silent. Qed.
Lemma emits_sort_slice {A} P less (l : list A) : emits (E := E) P (sort_slice less l).
Proof. by apply emits_silent. Qed.
End Effects.

(** From an effect to a postcondition. *)
Lemma emits_wlp {E A} P (m : M E A) w :
  emits P m ->
  wlp m (fun _ w' => w_uuid w' = w_uuid w /\
    exists es, w_trace w' = w_trace w ++ es /\ Forall P es) w.
Proof.
  intros H. destruct (H w) as (Hu & es & He & HP). unfold wlp, post.
  destruct (fst (m w)); [|done]. split; [done|]. by exists es.
Qed.

Lemma silent_wlp {E A} (m : M E A) w :
  emits (fun _ => False) m -> wlp m (fun _ w' => w_trace w' = w_trace w) w.
Proof.
  intros H. eapply wlp_mono; [by apply emits_wlp|]. intros a w' (_ & es & -> & HF).
  destruct es as [|e es]; [by rewrite app_nil_r|]. by apply Forall_inv in HF.
Qed.

#[export] Hint Resolve emits_ret emits_panic emits_emit emits_external emits_now emits_since
  emits_uuid emits_choose emits_getenv emits_putenv emits_range_map emits_sort_slice : effects.

(** Prove [emits P m] by following the structure of [m]. *)
Ltac emits_step :=
  match goal with
  | |- emits _ (_ ≫= _) => apply emits_bind; [|intros ?]
  | |- emits _ (match ?x with _ => _ end) => destruct x
  | |- emits _ _ => solve [eauto with effects]
  end.
Ltac emits := repeat (cbn beta zeta; emits_step).

(** ** Invariants of the outside

    [keeps P m]: whatever the run of [m] does to the outside, [P] holds of it
    afterwards if it held before. *)

Definition keeps {E A} (P : E -> Prop) (m : M E A) : Prop :=
  forall w, P (w_ext w) -> P (w_ext (snd (m w))).

Create HintDb keeps discriminated.

Section Keeps.
Context {E : Type}.
Implicit Types P : E -> Prop.

Lemma keeps_same {A} P (m : M E A) : (forall w, w_ext (snd (m w)) = w_ext w) -> keeps P m.
Proof. intros H w. by rewrite H. Qed.

Lemma keeps_ret {A} P (a : A) : keeps P (mret a).
Proof. by apply keeps_same. Qed.
Lemma keeps_panic {A} P s : keeps (A := A) P (panic s).
Proof. by apply keeps_same. Qed.
Lemma keeps_emit P e : keeps P (emit e).
Proof. by apply keeps_same. Qed.
Lemma keeps_now P : keeps P now.
Proof. by apply keeps_same. Qed.
Lemma keeps_uuid P : keeps P uuid_New_String.
Proof. by apply keeps_same. Qed.
Lemma keeps_since P t : keeps P (since t).
Proof. by apply keeps_same. Qed.
Lemma keeps_choose P : keeps P choose.
Proof. by apply keeps_same. Qed.
Lemma keeps_getenv P : keeps P getenv.
Proof. by apply keeps_same. Qed.
Lemma keeps_putenv P env : keeps P (putenv env).
Proof. by apply keeps_same. Qed.
Lemma keeps_range_map {V} P (m : gmap string V) : keeps P (range_map m).
Proof. by apply keeps_same. Qed.

Lemma keeps_external {A} P (f : E -> A * E) : (forall e, P e -> P (snd (f e))) -> keeps P (external f).
Proof.
  intros Hf w Hw. specialize (Hf _ Hw). unfold external. by destruct (f (w_ext w)).
Qed.

Lemma keeps_bind {A B} P (m : M E A) (f : A -> M E B) :
  keeps P m -> (forall a, keeps P (f a)) -> keeps P (m ≫= f).
Proof.
  intros Hm Hf w Hw. specialize (Hm w Hw). unfold mbind, M_bind.
  destruct (m w) as [[a|s] w']; [by apply Hf|done].
Qed.

Lemma keeps_wlp {A} P (m : M E A) w :
  keeps P m -> P (w_ext w) -> wlp m (fun _ w' => P (w_ext w')) w.
Proof. intros Hm Hw. specialize (Hm w Hw). unfold wlp, post. by destruct (fst (m w)). Qed.
End Keeps.

#[export] Hint Resolve keeps_ret keeps_panic keeps_emit keeps_now keeps_since keeps_uuid keeps_choose
  keeps_getenv keeps_putenv keeps_range_map : keeps.

(** Prove [keeps P m] by following the structure of [m]. *)
Ltac keeps_step :=
  match goal with
  | |- keeps _ (_ ≫= _) => apply keeps_bind; [|intros ?]
  | |- keeps _ (match ?x with _ => _ end) => destruct x
  | |- keeps _ _ => solve [eauto with keeps]
  end.
Ltac keeps := repeat (cbn beta zeta; keeps_step).

(** ** Code that leaves its process alone

    [tame Q m]: [m] leaves the environment and the oracle of identifiers as they
    are, and panics only with a message in [Q]. *)

Definition tame {E A} (Q : string -> Prop) (m : M E A) : Prop :=
  forall w, post m (fun o w' => w_env w' = w_env w /\ w_uuid w' = w_uuid w /\
    match o with Ret _ => True | Panic s => Q s end) w.

Create HintDb tame discriminated.

Section Tame.
Context {E : Type}.
Implicit Types Q : string -> Prop.

Lemma tame_ret {A} Q (a : A) : tame (E := E) Q (mret a).
Proof. done. Qed.
Lemma tame_panic {A} Q s : Q s -> tame (E := E) (A := A) Q (panic s).
Proof. done. Qed.
Lemma tame_emit Q e : tame (E := E) Q (emit e).
Proof. done. Qed.
Lemma tame_now Q : tame (E := E) Q now.
Proof. done. Qed.
Lemma tame_getenv Q : tame (E := E) Q getenv.
Proof. done. Qed.
Lemma tame_range_map {V} Q (m : gmap string V) : tame (E := E) Q (range_map m).
Proof. done. Qed.
Lemma tame_external {A} Q (f : E -> A * E) : tame Q (external f).
Proof. intros w. unfold post, external. by destruct (f (w_ext w)). Qed.
Lemma tame_bind {A B} Q (m : M E A) (f : A -> M E B) :
  tame Q m -> (forall a, tame Q (f a)) -> tame Q (m ≫= f).
Proof.
  intros Hm Hf w. apply post_bind. specialize (Hm w). unfold post in *.
  destruct (m w) as [[a|s] w']; cbn in *; [|done]. destruct Hm as (He & Hu & _).
  destruct (Hf a w') as (He' & Hu' & HQ). split_and!; [congruence..|done].
Qed.
End Tame.

#[export] Hint Resolve tame_ret tame_panic tame_emit tame_now tame_getenv tame_range_map
  tame_external : tame.

(** Prove [tame Q m] by following the structure of [m]. *)
Ltac tame_step :=
  match goal with
  | |- tame _ (_ ≫= _) => apply tame_bind; [|intros ?]
  | |- tame _ (match ?x with _ => _ end) => destruct x
  | |- tame _ _ => solve [eauto with tame]
  end.
Ltac tame := repeat (cbn beta zeta; tame_step).

(** Steps of the program logic on the structure of a program. *)
Ltac wlp_step :=
  match goal with
  | |- wlp (_ ≫= _) _ _ => apply wlp_bind
  | |- wlp (mret _) _ _ => apply wlp_ret
  | |- wlp (match ?x with _ => _ end) _ _ => destruct x eqn:?
  end.

Ltac wlp_go := repeat first [wlp_step | apply wp_wlp, wp_now; intros ? ? ? ? ?].

(** ** Absence of panics

    What the code relies on of [uuid.New().String()]: eight bytes without a
    dash stand before the first dash.  [total m]: with such identifiers, [m]
    returns. *)

Definition uuid_form (u : string) : Prop :=
  exists a r, u = a +:+ "-" +:+ r /\ String.length a = 8%nat /\ byte_in "-" a = false.

Definition uuid_ok {E} (w : World E) : Prop := forall n, uuid_form (w_uuid w n).

Definition total {E A} (m : M E A) : Prop :=
  forall w, uuid_ok w -> wp m (fun _ w' => w_uuid w' = w_uuid w) w.

Lemma total_wlp_wp {E A} (m : M E A) Q w : total m -> uuid_ok w -> wlp m Q w -> wp m Q w.
Proof.
  intros Ht Hw HQ. specialize (Ht w Hw). unfold wp, wlp, post in *. by destruct (fst (m w)).
Qed.

Section Total.
Context {E : Type}.

Lemma total_ret {A} (a : A) : total (E := E) (mret a).
Proof. done. Qed.

Lemma total_bind {A B} (m : M E A) (f : A -> M E B) :
  total m -> (forall a, total (f a)) -> total (m ≫= f).
Proof.
  intros Hm Hf w Hw. apply wp_bind. eapply wp_mono; [by apply Hm|].
  intros a w' Hu. eapply wp_mono.
  - apply Hf. intros n. rewrite Hu. apply Hw.
  - cbn. by intros _ ? ->.
Qed.

Lemma total_emit e : total (E := E) (emit e).
Proof. done. Qed.
Lemma total_external {A} (f : E -> A * E) : total (external f).
Proof. intros w _. unfold wp, post, external. by destruct (f (w_ext w)). Qed.
Lemma total_now : total (E := E) now.
Proof. done. Qed.
Lemma total_since t : total (E := E) (since t).
Proof. done. Qed.
Lemma total_getenv : total (E := E) getenv.
Proof. done. Qed.
Lemma total_putenv env : total (E := E) (putenv env).
Proof. done. Qed.
Lemma total_range_map {V} (m : gmap string V) : total (E := E) (range_map m).
Proof. done. Qed.
Lemma total_sort_slice {A} less (l : list A) : total (E := E) (sort_slice less l).
Proof. done. Qed.

Lemma total_run {A} (m : M E A) w :
  total m -> uuid_ok w -> exists a w', m w = (Ret a, w').
Proof. intros H Hw. apply H, wp_run in Hw as (a & w' & ? & _). eauto. Qed.
End Total.

Create HintDb total discriminated.
#[export] Hint Resolve total_ret total_emit total_external total_now total_since total_getenv
  total_putenv total_range_map total_sort_slice : total.

Ltac total_step :=
  match goal with
  | |- total (_ ≫= _) => apply total_bind; [|intros ?]
  | |- total (match ?x with _ => _ end) => destruct x
  | |- total _ => solve [eauto with total]
  end.
Ltac total := repeat (cbn beta zeta; total_step).
