(* ===== verification/Process.v ===== *)
(** * Processes

    A Go program as a whole: [main] and the goroutines it starts, in one memory.
    A goroutine is a tree of steps; [P A] is the monad to write one.  A step runs
    code of the program in the monad of [World], calls into the framework and
    logs the call, starts a goroutine, repeats a loop body or ends the process.
    [run] executes a schedule, a list of the goroutines that step.

    [safe] is the logic: it follows one goroutine and says of each call that
    it is guarded by calls that came before, and of each way the process can end
    that it has a reason.  [safe_run] carries this to every interleaving. *)

From S2P Require Import Prelude World.

(** How a process ends. *)
Inductive ending := Exited (code : Z) | Crashed (msg : string).

Declare Scope proc_scope.
Delimit Scope proc_scope with proc.

Section Process.
Context {E Action : Type}.

(** A call as it is logged: what was called, and the error it returned. *)
Record entry := mkEntry { action : Action; failure : option GoError }.

Inductive proc :=
| PDone                                                    (* the function returns *)
| PExit (code : Z)                                         (* [os.Exit] *)
| PPanic (msg : string)
| PRun {X : Type} (m : M E X) (k : X -> proc)
| PCall {X : Type} (a : Action) (err : X -> option GoError) (m : M E X) (k : X -> proc)
| PGo (g : proc) (k : proc)                                (* [go g()] *)
| PLoop (body : M E bool) (k : proc).                      (* again, while it gives true *)

Definition P (A : Type) : Type := (A -> proc) -> proc.

Definition pret {A} (a : A) : P A := fun k => k a.
Definition pbind {A B} (m : P A) (f : A -> P B) : P B := fun k => m (fun a => f a k).

Definition exit {A} (code : Z) : P A := fun _ => PExit code.
Definition go_panic {A} (msg : string) : P A := fun _ => PPanic msg.
Definition code {A} (m : M E A) : P A := fun k => PRun m k.
Definition call (a : Action) (m : M E (option GoError)) : P (option GoError) :=
  fun k => PCall a (fun err => err) m k.
Definition call_result {A} (a : Action) (m : M E (result A)) : P (result A) :=
  fun k => PCall a result_err m k.
Definition spawn (g : P ()) : P () := fun k => PGo (g (fun _ => PDone)) (k tt).
Definition loop (body : M E bool) : P () := fun k => PLoop body (k tt).

(** [<-ch]: wait until [ready]. *)
Definition receive (ready : M E bool) : P () := loop (b ← ready; mret (negb b)).

(** ** Execution *)

(** The goroutines, [main] first, and the log, with the number of the caller. *)
Record process := mkProcess {
  p_world : World E;
  p_threads : list proc;
  p_log : list (nat * entry);
  p_end : option ending
}.

Definition start (main : P ()) (w : World E) : process :=
  mkProcess w [main (fun _ => PDone)] [] None.

Definition ended (e : ending) (s : process) : process :=
  mkProcess (p_world s) (p_threads s) (p_log s) (Some e).

(** The goroutines by number. *)
Fixpoint thread (ts : list proc) (i : nat) : option proc :=
  match ts, i with
  | [], _ => None
  | p :: _, O => Some p
  | _ :: ts', S i' => thread ts' i'
  end.

Fixpoint set_thread (i : nat) (p : proc) (ts : list proc) : list proc :=
  match ts, i with
  | [], _ => []
  | _ :: ts', O => p :: ts'
  | q :: ts', S i' => q :: set_thread i' p ts'
  end.

Fixpoint add_thread (p : proc) (ts : list proc) : list proc :=
  match ts with
  | [] => [p]
  | q :: ts' => q :: add_thread p ts'
  end.

(** One step of goroutine [i]. *)
Definition step (i : nat) (s : process) : process :=
  match p_end s, thread (p_threads s) i with
  | None, Some p =>
      match p with
      | PDone => if bool_decide (i = O) then ended (Exited 0) s else s
      | PExit c => ended (Exited c) s
      | PPanic msg => ended (Crashed msg) s
      | PRun m k =>
          match m (p_world s) with
          | (Ret x, w) => mkProcess w (set_thread i (k x) (p_threads s)) (p_log s) None
          | (Panic msg, w) => mkProcess w (p_threads s) (p_log s) (Some (Crashed msg))
          end
      | PCall a err m k =>
          match m (p_world s) with
          | (Ret x, w) => mkProcess w (set_thread i (k x) (p_threads s))
                                    (p_log s ++ [(i, mkEntry a (err x))]) None
          | (Panic msg, w) => mkProcess w (p_threads s) (p_log s) (Some (Crashed msg))
          end
      | PGo g k => mkProcess (p_world s) (add_thread g (set_thread i k (p_threads s))) (p_log s) None
      | PLoop body k =>
          match body (p_world s) with
          | (Ret true, w) => mkProcess w (p_threads s) (p_log s) None
          | (Ret false, w) => mkProcess w (set_thread i k (p_threads s)) (p_log s) None
          | (Panic msg, w) => mkProcess w (p_threads s) (p_log s) (Some (Crashed msg))
          end
      end
  | _, _ => s
  end.

Fixpoint run (schedule : list nat) (s : process) : process :=
  match schedule with
  | [] => s
  | i :: schedule' => run schedule' (step i s)
  end.

Lemma run_app l l' s : run (l ++ l') s = run l' (run l s).
Proof using Type. revert s. induction l as [|i l IH]; intros s; [done|]. apply IH. Qed.

(** The order of the calls. *)
Definition calls (s : process) : list entry := map snd (p_log s).

(** ** The logic *)

Section Safe.

(** [I] is kept by every step.  [G H a]: [a] may be called after the calls [H].
    [X H e]: after the calls [H] the process may end as [e]. *)
Variable I : World E -> Prop.
Variable G : list entry -> Action -> Prop.
Variable X : list entry -> ending -> Prop.

(** [H] lists calls that have been made.  [main] ends the process when it
    returns, another goroutine does not. *)
Fixpoint safe (main : bool) (H : list entry) (p : proc) : Prop :=
  match p with
  | PDone => if main then X H (Exited 0) else True
  | PExit c => X H (Exited c)
  | PPanic msg => X H (Crashed msg)
  | PRun m k => forall w, I w -> post m (fun o w' => match o with
                  | Ret x => I w' /\ safe main H (k x)
                  | Panic msg => X H (Crashed msg)
                  end) w
  | PCall a err m k => G H a /\ forall w, I w -> post m (fun o w' => match o with
                         | Ret x => I w' /\ safe main (H ++ [mkEntry a (err x)]) (k x)
                         | Panic msg => X H (Crashed msg)
                         end) w
  | PGo g k => safe false H g /\ safe main H k
  | PLoop body k => (forall w, I w -> post body (fun o w' => match o with
                      | Ret _ => I w'
                      | Panic msg => X H (Crashed msg)
                      end) w) /\ safe main H k
  end.

(** Guards and reasons speak about calls that were made, whatever else was. *)
Hypothesis G_mono : forall H H' a, H ⊆ H' -> G H a -> G H' a.
Hypothesis X_mono : forall H H' e, H ⊆ H' -> X H e -> X H' e.

(** Every call so far was guarded by what came before it. *)
Definition guarded (s : process) : Prop := along (fun H e => G H (action e)) [] (calls s).

(** What holds in every state of a safe process. *)
Definition safe_state (s : process) : Prop :=
  guarded s /\ match p_end s with
  | Some e => X (calls s) e
  | None => I (p_world s) /\ forall i p, thread (p_threads s) i = Some p ->
              exists H, H ⊆ calls s /\ safe (bool_decide (i = O)) H p
  end.

Lemma guarded_snoc s i e w ts o :
  guarded s -> G (calls s) (action e) -> guarded (mkProcess w ts (p_log s ++ [(i, e)]) o).
Proof using Type.
  intros Hg He. unfold guarded, calls in *. cbn [p_log]. rewrite map_app, along_app. by split.
Qed.

Lemma thread_set ts i p j q :
  thread (set_thread i p ts) j = Some q -> (j = i /\ q = p) \/ (j <> i /\ thread ts j = Some q).
Proof using Type.
  revert i j. induction ts as [|t ts IH]; intros i j; [by destruct i, j|].
  destruct i as [|i], j as [|j]; cbn.
  - intros [= <-]. by left.
  - by right.
  - by right.
  - intros Hj. destruct (IH _ _ Hj) as [[-> ->]|[Hne Ht]]; [by left|].
    right. split; [congruence|done].
Qed.

Lemma thread_add ts p j q :
  thread (add_thread p ts) j = Some q -> (j = length ts /\ q = p) \/ thread ts j = Some q.
Proof using Type.
  revert j. induction ts as [|t ts IH]; intros [|j]; cbn.
  - intros [= <-]. by left.
  - done.
  - by right.
  - intros Hj. destruct (IH _ Hj) as [[-> ->]|Ht]; [by left|by right].
Qed.

(** The other goroutines, when goroutine [i] has moved on. *)
Lemma threads_set (ts : list proc) i p' (K K' : list entry) :
  (forall j p, thread ts j = Some p -> exists H, H ⊆ K /\ safe (bool_decide (j = O)) H p) ->
  K ⊆ K' -> (exists H, H ⊆ K' /\ safe (bool_decide (i = O)) H p') ->
  forall j p, thread (set_thread i p' ts) j = Some p ->
    exists H, H ⊆ K' /\ safe (bool_decide (j = O)) H p.
Proof using Type.
  intros Hts HK Hp' j p [[-> ->]|[_ Hj]]%thread_set; [done|].
  destruct (Hts _ _ Hj) as (H & HH & Hs). exists H. split; [by etrans|done].
Qed.

Lemma step_safe i s : safe_state s -> safe_state (step i s).
Proof using G_mono X_mono.
  intros [Hg Hs]. unfold step. destruct (p_end s) as [e|] eqn:He; [by split; [|rewrite He]|].
  destruct (thread (p_threads s) i) as [p|] eqn:Hp; [|by split; [|rewrite He]].
  destruct Hs as [Hw Hts]. destruct (Hts _ _ Hp) as (H & HH & Hsafe).
  destruct p as [|c|msg|Y m k|Y a err m k|g k|body k]; cbn [safe] in Hsafe.
  - case_bool_decide as Hi; [|split; [done|by rewrite He]]. split; [done|]. by eapply X_mono.
  - split; [done|]. by eapply X_mono.
  - split; [done|]. by eapply X_mono.
  - specialize (Hsafe _ Hw). unfold post in Hsafe. destruct (m (p_world s)) as [[x|msg] w'].
    + destruct Hsafe as [Hw' Hk]. split; [done|]. split; [done|].
      eapply threads_set; [exact Hts|done|by exists H].
    + split; [done|]. by eapply X_mono.
  - destruct Hsafe as [Ha Hsafe]. specialize (Hsafe _ Hw). unfold post in Hsafe.
    destruct (m (p_world s)) as [[x|msg] w'].
    + destruct Hsafe as [Hw' Hk]. split; [apply guarded_snoc; [done|by eapply G_mono]|].
      split; [done|]. unfold calls. cbn [p_log p_threads]. rewrite map_app.
      eapply threads_set; [exact Hts|by apply list_subseteq_app_l|].
      eexists. split; [|exact Hk]. by apply list_subseteq_app_iff_l; split;
        [apply list_subseteq_app_l|apply list_subseteq_app_r].
    + split; [done|]. by eapply X_mono.
  - destruct Hsafe as [Hgo Hk]. split; [done|]. split; [done|]. cbn [p_threads]. intros j q Hj.
    apply thread_add in Hj as [[-> ->]|Hj].
    + exists H. split; [done|]. rewrite bool_decide_false; [done|].
      intros Hl. by destruct (p_threads s) as [|t ts], i.
    + eapply threads_set; [exact Hts|done|by exists H|exact Hj].
  - destruct Hsafe as [Hb Hk]. specialize (Hb _ Hw). unfold post in Hb.
    destruct (body (p_world s)) as [[[|]|msg] w'].
    + by split.
    + split; [done|]. split; [done|]. eapply threads_set; [exact Hts|done|by exists H].
    + split; [done|]. by eapply X_mono.
Qed.

(** Every interleaving of a safe program. *)
Lemma safe_run main w schedule :
  I w -> safe true [] (main (fun _ => PDone)) -> safe_state (run schedule (start main w)).
Proof using G_mono X_mono.
  intros Hw Hm. assert (safe_state (start main w)) as Hs.
  { split; [done|]. split; [done|]. intros [|[|i]] p; cbn; [|done..]. intros [= <-].
    by exists []. }
  revert Hs. generalize (start main w). induction schedule as [|i l IH]; intros s Hs; [done|].
  by apply IH, step_safe.
Qed.
End Safe.

(** ** Progress

    [ends n p]: a goroutine that returns within [n] of its steps, whatever the
    other goroutines do between them, as long as they keep [I].  [harmless p]: a
    goroutine that never ends the process, be it that it waits for ever. *)

Section Progress.
Variable I : World E -> Prop.

Fixpoint harmless (p : proc) : Prop :=
  match p with
  | PDone => True
  | PExit _ | PPanic _ => False
  | PRun m k => forall w, I w -> wp m (fun x w' => I w' /\ harmless (k x)) w
  | PCall a err m k => forall w, I w -> wp m (fun x w' => I w' /\ harmless (k x)) w
  | PGo g k => harmless g /\ harmless k
  | PLoop body k => forall w, I w -> wp body (fun b w' => I w' /\ (b = false -> harmless k)) w
  end.

Fixpoint ends (n : nat) (p : proc) : Prop :=
  match n, p with
  | S n', PDone => True
  | S n', PRun m k => forall w, I w -> wp m (fun x w' => I w' /\ ends n' (k x)) w
  | S n', PCall a err m k => forall w, I w -> wp m (fun x w' => I w' /\ ends n' (k x)) w
  | S n', PGo g k => harmless g /\ ends n' k
  | _, _ => False
  end.

Lemma ends_mono n m p : ends n p -> (n <= m)%nat -> ends m p.
Proof using Type.
  revert m p. induction n as [|n IH]; intros m p Hp Hm; [by destruct p|].
  destruct m as [|m]; [lia|]. assert (n <= m)%nat as Hnm by lia.
  destruct p as [|c|msg|Y f k|Y a err f k|g k|body k]; cbn [ends] in *; try done.
  - intros w Hw. eapply wp_mono; [by apply Hp|]. intros x w' [Hw' Hk]. split; [done|].
    by apply IH.
  - intros w Hw. eapply wp_mono; [by apply Hp|]. intros x w' [Hw' Hk]. split; [done|].
    by apply IH.
  - destruct Hp as [Hg Hk]. split; [done|]. by apply IH.
Qed.

(** The process is running and [main] ends within [n] steps, or it has ended well. *)
Definition progress (n : nat) (s : process) : Prop :=
  match p_end s with
  | Some e => e = Exited 0
  | None => I (p_world s) /\
      (exists p, thread (p_threads s) O = Some p /\ ends n p) /\
      forall i p, thread (p_threads s) (S i) = Some p -> harmless p
  end.

(** How often [main] has its turn. *)
Fixpoint turns (schedule : list nat) : nat :=
  match schedule with
  | [] => O
  | O :: l => S (turns l)
  | S _ :: l => turns l
  end.

Lemma thread_set_O ts p q : thread ts O = Some q -> thread (set_thread O p ts) O = Some p.
Proof using Type. by destruct ts. Qed.
Lemma thread_set_S ts i p q :
  thread ts O = Some q -> thread (set_thread (S i) p ts) O = Some q.
Proof using Type. by destruct ts. Qed.
Lemma thread_add_O ts p q : thread ts O = Some q -> thread (add_thread p ts) O = Some q.
Proof using Type. by destruct ts. Qed.

Lemma harmless_set ts i p' :
  (forall j p, thread ts (S j) = Some p -> harmless p) -> (i = O \/ harmless p') ->
  forall j p, thread (set_thread i p' ts) (S j) = Some p -> harmless p.
Proof using Type.
  intros Hts Hp' j p [[<- ->]|[_ Hj]]%thread_set; [by destruct Hp' as [?|?]|by eapply Hts].
Qed.

Lemma harmless_add ts p' :
  (forall j p, thread ts (S j) = Some p -> harmless p) -> harmless p' ->
  forall j p, thread (add_thread p' ts) (S j) = Some p -> harmless p.
Proof using Type. intros Hts Hp' j p [[_ ->]|Hj]%thread_add; [done|by eapply Hts]. Qed.

Lemma step_main n s : progress (S n) s -> progress n (step O s).
Proof using Type.
  unfold progress, step. destruct (p_end s) as [e|] eqn:He; [by rewrite He|].
  intros (Hw & (p & Hp & Hn) & Hts). rewrite Hp.
  destruct p as [|c|msg|Y m k|Y a err m k|g k|body k]; try done; cbn [ends] in Hn.
  - specialize (Hn _ Hw). apply wp_run in Hn as (x & w' & -> & Hw' & Hk). cbn [p_end p_world p_threads].
    split; [done|]. split; [by eexists; split; [by eapply thread_set_O|]|].
    apply harmless_set; [done|by left].
  - specialize (Hn _ Hw). apply wp_run in Hn as (x & w' & -> & Hw' & Hk). cbn [p_end p_world p_threads].
    split; [done|]. split; [by eexists; split; [by eapply thread_set_O|]|].
    apply harmless_set; [done|by left].
  - destruct Hn as [Hg Hk]. cbn [p_end p_world p_threads]. split; [done|]. split.
    + eexists. split; [by eapply thread_add_O, thread_set_O|done].
    + apply harmless_add; [|done]. apply harmless_set; [done|by left].
Qed.

Lemma step_other n i s : progress n s -> progress n (step (S i) s).
Proof using Type.
  unfold progress, step. destruct (p_end s) as [e|] eqn:He; [by rewrite He|].
  intros (Hw & (q & Hq & Hn) & Hts). destruct (thread (p_threads s) (S i)) as [p|] eqn:Hp.
  2: { rewrite He. split_and!; [done|by exists q|done]. }
  pose proof (Hts _ _ Hp) as Hh.
  destruct p as [|c|msg|Y m k|Y a err m k|g k|body k]; try done; cbn [harmless] in Hh.
  - rewrite bool_decide_false by done. rewrite He. split_and!; [done|by exists q|done].
  - specialize (Hh _ Hw). apply wp_run in Hh as (x & w' & -> & Hw' & Hk). cbn [p_end p_world p_threads].
    split; [done|]. split; [by exists q; split; [apply thread_set_S|]|].
    apply harmless_set; [done|by right].
  - specialize (Hh _ Hw). apply wp_run in Hh as (x & w' & -> & Hw' & Hk). cbn [p_end p_world p_threads].
    split; [done|]. split; [by exists q; split; [apply thread_set_S|]|].
    apply harmless_set; [done|by right].
  - destruct Hh as [Hg Hk]. cbn [p_end p_world p_threads]. split; [done|]. split.
    + exists q. split; [by apply thread_add_O, thread_set_S|done].
    + apply harmless_add; [|done]. apply harmless_set; [done|by right].
  - specialize (Hh _ Hw). apply wp_run in Hh as ([|] & w' & -> & Hw' & Hk); cbn [p_end p_world p_threads].
    + split_and!; [done|by exists q|done].
    + split; [done|]. split; [by exists q; split; [apply thread_set_S|]|].
      apply harmless_set; [done|right; by apply Hk].
Qed.

(** When [main] has had [n] turns, the process has ended, and well. *)
Lemma ends_run main n w schedule :
  I w -> ends n (main (fun _ => PDone)) -> (n <= turns schedule)%nat ->
  p_end (run schedule (start main w)) = Some (Exited 0).
Proof using Type.
  intros Hw Hm. assert (progress n (start main w)) as Hs.
  { split; [done|]. split; [by eexists|]. by intros [|i] p. }
  revert Hs. generalize (start main w). revert n Hm. intros n _.
  revert n. induction schedule as [|[|i] l IH]; intros n s Hs Hn; cbn [turns run] in *.
  - unfold progress in Hs. destruct (p_end s) as [e|]; [by rewrite Hs|].
    destruct Hs as (_ & (p & _ & Hp) & _). destruct n; [done|lia].
  - destruct n as [|n].
    + apply (IH O); [|lia]. unfold progress in Hs. destruct (p_end s) as [e|] eqn:He.
      * unfold step, progress. by rewrite He, He.
      * by destruct Hs as (_ & (p & _ & []) & _).
    + apply (IH n); [by apply step_main|lia].
  - apply (IH n); [by apply step_other|done].
Qed.
End Progress.
End Process.

Notation "x ⇐ m ; f" := (pbind m (fun x => f%proc))
  (at level 20, m at level 100, f at level 200, right associativity) : proc_scope.
Notation "m ;+ f" := (pbind m (fun _ => f%proc)) (at level 100, f at level 200, right associativity)
  : proc_scope.
