(* ===== verification/Memory.v ===== *)
(** * Go memory

    Variables with addresses: a heap of cells, references that are nil or an
    address, and reads and writes in the monad of [World], with the heap as the
    outside.  The class [Struct] says what a value with references means:
    [deep] follows all of them, [owned] and [shared] list the addresses that are
    met.  [copied] is what a deep copy promises, and the lemmas show it for the
    ways Go code copies: [make] and a loop, [make] and [copy], a loop over a
    map, [new] and [DeepCopyInto]. *)

From S2P Require Import Prelude World.

Definition loc : Type := positive.

(** A pointer to an [A], a slice or a map, nil or not. *)
Record Ref (A : Type) := mkRef { addr : option loc }.
Arguments mkRef {A}. Arguments addr {A}.

Definition nil_ref {A} : Ref A := mkRef None.
Definition is_nil {A} (r : Ref A) : bool := bool_decide (addr r = None).

(** ** The heap *)

(** What an address can hold. *)
Class Cells := { cell : Type }.

Abbreviation heap := (gmap loc cell).

Section Access.
Context {ct : Cells}.

(** The types a cell can hold. *)
Class Cell (A : Type) := {
  to_cell : A -> cell;
  of_cell : cell -> option A;
  of_to_cell a : of_cell (to_cell a) = Some a
}.

Definition get_cell {A} `{Cell A} (h : heap) (l : loc) : option A := h !! l ≫= of_cell.

(** A new variable, a read and a write.  A nil or dangling address panics. *)
Definition alloc {A} `{Cell A} (a : A) : M heap loc :=
  external (fun h => let l := fresh (dom h) in (l, <[l := to_cell a]> h)).

Definition load {A} `{Cell A} (l : loc) : M heap A :=
  c ← external (fun h => (get_cell h l, h));
  match c with
  | Some a => mret a
  | None => panic "invalid memory address or nil pointer dereference"
  end.

Definition store {A} `{Cell A} (l : loc) (a : A) : M heap () :=
  external (fun h => (tt, <[l := to_cell a]> h)).

(** [p[i]] as a value and as an assignment target. *)
Definition load_at {A} `{Cell (list A)} (l : loc) (i : nat) : M heap A :=
  a ← load l;
  match a !! i with
  | Some x => mret x
  | None => panic "index out of range"
  end.

Definition store_at {A} `{Cell (list A)} (l : loc) (i : nat) (x : A) : M heap () :=
  a ← load l;
  if bool_decide (i < length a)%nat then store l (<[i := x]> a)
  else panic "index out of range".

End Access.

(** ** Structs and what they reach *)

(** [deep h s] is the tree of [s] in the heap [h], if every reference leads to a
    cell of its type.  [owned h s] and [shared h s] are the addresses on the way:
    those a deep copy must not have in common with its original, and those
    it may.  The two laws: what is met is allocated, and only what is met
    matters. *)
Class Struct {ct : Cells} (S D : Type) := {
  deep : heap -> S -> option D;
  owned : heap -> S -> list loc;
  shared : heap -> S -> list loc;
  reached_dom h s d l : deep h s = Some d -> l ∈ owned h s ++ shared h s -> is_Some (h !! l);
  reached_only h h' s d :
    deep h s = Some d -> (forall l, l ∈ owned h s ++ shared h s -> h' !! l = h !! l) ->
    deep h' s = Some d /\ owned h' s = owned h s /\ shared h' s = shared h s
}.

Section Structs.
Context {ct : Cells}.

(** A struct without references is its own tree. *)
#[program] Definition struct_leaf (A : Type) : Struct A A :=
  {| deep _ a := Some a; owned _ _ := []; shared _ _ := [] |}.
Next Obligation. cbn. by intros A h s d l _ ?%not_elem_of_nil. Qed.
Next Obligation. done. Qed.

#[program] Definition struct_pair {A A' B B'} {SA : Struct A A'} {SB : Struct B B'} : Struct (A * B) (A' * B') :=
  {| deep h s := a ← deep h (fst s); b ← deep h (snd s); Some (a, b);
     owned h s := owned h (fst s) ++ owned h (snd s);
     shared h s := shared h (fst s) ++ shared h (snd s) |}.
Next Obligation.
  cbn. intros A A' B B' SA SB h [a b] d l Hd Hl.
  apply bind_Some in Hd as (a' & Ha & (b' & Hb & _)%bind_Some). cbn in *.
  rewrite !elem_of_app in Hl.
  destruct Hl as [[?|?]|[?|?]];
    first [eapply (reached_dom h a); [done|apply elem_of_app; tauto]
          |eapply (reached_dom h b); [done|apply elem_of_app; tauto]].
Qed.
Next Obligation.
  cbn. intros A A' B B' SA SB h h' [a b] d Hd Hl.
  apply bind_Some in Hd as (a' & Ha & (b' & Hb & Heq)%bind_Some). cbn in *.
  setoid_rewrite elem_of_app in Hl. setoid_rewrite elem_of_app in Hl.
  destruct (reached_only h h' a a' Ha) as (-> & -> & ->).
  { intros l [?|?]%elem_of_app; apply Hl; tauto. }
  destruct (reached_only h h' b b' Hb) as (-> & -> & ->).
  { intros l [?|?]%elem_of_app; apply Hl; tauto. }
  by rewrite <- Heq.
Qed.

(** A struct is the tuple of its fields. *)
#[program] Definition struct_fields {S D T U} {St : Struct T U} (fields : S -> T) (build : U -> D)
    : Struct S D :=
  {| deep h s := build <$> deep h (fields s);
     owned h s := owned h (fields s); shared h s := shared h (fields s) |}.
Next Obligation.
  cbn. intros S D T U St fields build h s d l (u & Hu & _)%fmap_Some. by eapply reached_dom.
Qed.
Next Obligation.
  cbn. intros S D T U St fields build h h' s d (u & Hu & ->)%fmap_Some Hl.
  by destruct (reached_only h h' _ _ Hu Hl) as (-> & -> & ->).
Qed.

(** An array is the list of its elements. *)
#[program] Definition struct_list {A B} {SA : Struct A B} : Struct (list A) (list B) :=
  {| deep h l := mapM (deep h) l; owned h l := flat_map (owned h) l;
     shared h l := flat_map (shared h) l |}.
Next Obligation.
  cbn. intros A B SA h s. induction s as [|a s IH]; intros d l; cbn.
  - intros _ Hl. by apply not_elem_of_nil in Hl.
  - intros (b & Hb & (d' & Hd & _)%bind_Some)%bind_Some. rewrite !elem_of_app.
    intros [[?|?]|[?|?]]; first [eapply (reached_dom h a); [done|apply elem_of_app; tauto]
      |eapply IH; [done|apply elem_of_app; tauto]].
Qed.
Next Obligation.
  cbn. intros A B SA h h' s. induction s as [|a s IH]; intros d; cbn; [done|].
  intros (b & Hb & (d' & Hd & [= <-])%bind_Some)%bind_Some Hl.
  setoid_rewrite elem_of_app in Hl. setoid_rewrite elem_of_app in Hl.
  destruct (reached_only h h' a b Hb) as (-> & -> & ->).
  { intros l [?|?]%elem_of_app; apply Hl; tauto. }
  destruct (IH d' Hd) as (Hd' & Ho & Hs).
  { intros l [?|?]%elem_of_app; apply Hl; tauto. }
  by rewrite Hd', Ho, Hs.
Qed.

(** A reference owns its cell and what the cell holds. *)
#[program] Definition struct_ref {A B} {CA : Cell A} {SA : Struct A B} : Struct (Ref A) (option B) :=
  {| deep h r := match addr r with
                 | None => Some None
                 | Some l => a ← get_cell h l; Some <$> deep h a
                 end;
     owned h r := match addr r with
                  | None => []
                  | Some l => l :: match get_cell h l with Some a => owned h a | None => [] end
                  end;
     shared h r := match addr r with
                   | None => []
                   | Some l => match get_cell h l with Some a => shared h a | None => [] end
                   end |}.
Next Obligation.
  cbn. intros A B CA SA h [[l|]] d k; cbn; [|by intros _ ?%not_elem_of_nil].
  destruct (get_cell h l) as [a|] eqn:Hc; cbn; [|done].
  intros (b & Hb & _)%fmap_Some. rewrite elem_of_cons. intros [->|Hk]; [|by eapply reached_dom].
  unfold get_cell in Hc. destruct (h !! l) eqn:Hl; [by eexists|done].
Qed.
Next Obligation.
  cbn. intros A B CA SA h h' [[l|]] d; cbn; [|done].
  destruct (get_cell h l) as [a|] eqn:Hc; cbn; [|done]. intros (b & Hb & ->)%fmap_Some Hk.
  assert (get_cell h' l = Some a) as ->.
  { unfold get_cell in *. rewrite Hk; [done|apply list_elem_of_here]. }
  destruct (reached_only h h' a b Hb) as (Hd & -> & ->); [|cbn; by rewrite Hd].
  intros k Hin. apply Hk. by apply list_elem_of_further.
Qed.
End Structs.

(** A reference that a copy has in common with its original. *)
Record SharedRef (A : Type) := mkShared { the_ref : Ref A }.
Arguments mkShared {A}. Arguments the_ref {A}.

#[program] Definition struct_shared {ct : Cells} {A B} {CA : Cell A} {SA : Struct A B}
    : Struct (SharedRef A) (option B) :=
  {| deep h r := @deep _ _ _ struct_ref h (the_ref r);
     owned _ _ := [];
     shared h r := @owned _ _ _ struct_ref h (the_ref r) ++ @shared _ _ _ struct_ref h (the_ref r) |}.
Next Obligation.
  intros ct A B CA SA h [r] d l Hd Hl. exact (@reached_dom _ _ _ struct_ref h r d l Hd Hl).
Qed.
Next Obligation.
  intros ct A B CA SA h h' [r] d Hd Hl.
  destruct (@reached_only _ _ _ struct_ref h h' r d Hd Hl) as (H1 & H2 & H3).
  split_and!; [exact H1|done|]. cbn [the_ref]. by rewrite H2, H3.
Qed.

#[export] Existing Instances struct_pair struct_list struct_ref struct_shared.

(** ** Deep copies

    [copied h0 h s s']: in the heap [h], which extends [h0], [s'] is a deep copy of
    what [s] is in [h0].  It leads to the same tree, all that it owns is new and
    occurs once in it, and it shares what may be shared.  [copies m s]: from any
    heap in which [s] is well typed, [m] returns such a copy, and the visible
    world stays as it is. *)

Section Copied.
Context {ct : Cells}.

Definition copied {S D} {SS : Struct S D} (h0 h : heap) (s s' : S) : Prop :=
  h0 ⊆ h /\ is_Some (deep h0 s) /\ deep h s' = deep h0 s /\
  (forall l, l ∈ owned h s' -> h0 !! l = None) /\ NoDup (owned h s') /\
  shared h s' = shared h0 s.

Definition copies {S D} {SS : Struct S D} (m : M heap S) (s : S) : Prop :=
  forall w, is_Some (deep (w_ext w) s) ->
    wp m (fun s' w' => copied (w_ext w) (w_ext w') s s' /\ w_trace w' = w_trace w) w.

Lemma deep_mono {S D} {SS : Struct S D} h h' s d :
  deep h s = Some d -> h ⊆ h' ->
  deep h' s = Some d /\ owned h' s = owned h s /\ shared h' s = shared h s.
Proof.
  intros Hd Hh. apply reached_only; [done|]. intros l Hl.
  destruct (reached_dom _ _ _ _ Hd Hl) as [c Hc]. rewrite Hc. by eapply lookup_weaken.
Qed.

Lemma deep_is_Some_mono {S D} {SS : Struct S D} h h' s :
  is_Some (deep h s) -> h ⊆ h' -> is_Some (deep h' s).
Proof. intros [d Hd] Hh. by destruct (deep_mono _ _ _ _ Hd Hh) as (-> & _). Qed.

(** A write to a cell that is not met. *)
Lemma deep_store {S D} {SS : Struct S D} h s d l c :
  deep h s = Some d -> l ∉ owned h s ++ shared h s ->
  deep (<[l := c]> h) s = Some d /\ owned (<[l := c]> h) s = owned h s /\
  shared (<[l := c]> h) s = shared h s.
Proof.
  intros Hd Hl. apply reached_only; [done|]. intros k Hk.
  apply lookup_insert_ne. by intros ->.
Qed.

(** Nothing to own, nothing to copy. *)
Lemma copied_same {S D} {SS : Struct S D} h s :
  is_Some (deep h s) -> owned h s = [] -> copied h h s s.
Proof.
  intros Hd Ho. split_and!; try done; rewrite Ho; [by intros l ?%not_elem_of_nil|constructor].
Qed.

Lemma copied_pair {A A' B B'} {SA : Struct A A'} {SB : Struct B B'} h0 h1 h2 (a a' : A) (b b' : B) :
  copied h0 h1 a a' -> copied h1 h2 b b' -> is_Some (deep h0 b) ->
  copied (SS := struct_pair) h0 h2 (a, b) (a', b').
Proof.
  intros (H01 & [da Hda] & Hd & Hf & Hn & Hs) (H12 & _ & Hd' & Hf' & Hn' & Hs') [db Hdb].
  destruct (deep_mono _ _ _ _ Hdb H01) as (Hb1 & _ & Hb3).
  rewrite Hda in Hd. destruct (deep_mono _ _ _ _ Hd H12) as (Ha1 & Ha2 & Ha3).
  unfold copied. cbn. rewrite Hda, Hdb, Ha1, Ha2, Ha3, Hd', Hb1, Hs, Hs', Hb3. split_and!.
  - by etrans.
  - by eexists.
  - done.
  - intros l [Hl|Hl]%elem_of_app; [by apply Hf|].
    destruct (h0 !! l) eqn:Hl0; [|done]. eapply lookup_weaken in Hl0; [|exact H01].
    by rewrite (Hf' _ Hl) in Hl0.
  - apply NoDup_app. split_and!; [done| |done]. intros l Hl Hl'.
    destruct (reached_dom _ _ _ l Hd) as [c Hc]; [apply elem_of_app; by left|].
    by rewrite (Hf' _ Hl') in Hc.
  - done.
Qed.

Lemma copied_fields {S D T U} {St : Struct T U} (fields : S -> T) (build : U -> D) h0 h s s' :
  copied h0 h (fields s) (fields s') -> copied (SS := struct_fields fields build) h0 h s s'.
Proof.
  intros (Hh & [d Hd] & Hd' & Hf & Hn & Hs). unfold copied. cbn. rewrite Hd', Hd.
  by split_and!.
Qed.

(** The heap may grow before a copy is made. *)
Lemma copied_later {S D} {SS : Struct S D} h0 h1 h2 s s' :
  is_Some (deep h0 s) -> h0 ⊆ h1 -> copied h1 h2 s s' -> copied h0 h2 s s'.
Proof.
  intros [d Hd] H01 (Hh & _ & Hd' & Hf & Hn & Hs).
  destruct (deep_mono _ _ _ _ Hd H01) as (H1 & _ & H3).
  rewrite H1 in Hd'. rewrite H3 in Hs. unfold copied. rewrite Hd. split_and!; try done.
  - by etrans.
  - intros l Hl. destruct (h0 !! l) eqn:Hl0; [|done]. eapply lookup_weaken in Hl0; [|exact H01].
    by rewrite (Hf _ Hl) in Hl0.
Qed.

(** And after it was made. *)
Lemma copied_mono {S D} {SS : Struct S D} h0 h1 h2 s s' :
  copied h0 h1 s s' -> h1 ⊆ h2 -> copied h0 h2 s s'.
Proof.
  intros (Hh & [d Hd] & Hd' & Hf & Hn & Hs) H12. rewrite Hd in Hd'.
  destruct (deep_mono _ _ _ _ Hd' H12) as (H1 & H2 & H3). unfold copied.
  rewrite Hd, H1, H2, H3. split_and!; try done. by etrans.
Qed.

(** What a copy meets is new or was there for the original. *)
Lemma copied_reached {S D} {SS : Struct S D} h0 h s s' l :
  copied h0 h s s' -> l ∈ owned h s' ++ shared h s' -> h0 !! l = None \/ l ∈ shared h0 s.
Proof.
  intros (_ & _ & _ & Hf & _ & Hs) [Hl|Hl]%elem_of_app; [left; by apply Hf|right].
  by rewrite <- Hs.
Qed.

(** A write to a new cell that is not part of the copy. *)
Lemma copied_store {S D} {SS : Struct S D} h0 h s s' l c :
  copied h0 h s s' -> h0 !! l = None -> l ∉ owned h s' -> copied h0 (<[l := c]> h) s s'.
Proof.
  intros (Hh & [d Hd] & Hd' & Hf & Hn & Hs) Hl Hlo. rewrite Hd in Hd'.
  destruct (deep_store h s' d l c Hd') as (H1 & H2 & H3).
  { intros [?|Hin]%elem_of_app; [done|]. rewrite Hs in Hin.
    destruct (reached_dom h0 s d l Hd) as [x Hx]; [|congruence]. apply elem_of_app. by right. }
  unfold copied. rewrite Hd, H1, H2, H3. split_and!; try done.
  by apply insert_subseteq_r.
Qed.

Lemma deep_pair_is_Some {A A' B B'} {SA : Struct A A'} {SB : Struct B B'} h (a : A) (b : B) :
  is_Some (@deep _ _ _ struct_pair h (a, b)) -> is_Some (deep h a) /\ is_Some (deep h b).
Proof.
  cbn. intros [d (x & Hx & (y & Hy & _)%bind_Some)%bind_Some]. split; by eexists.
Qed.

Lemma deep_pair_is_Some_2 {A A' B B'} {SA : Struct A A'} {SB : Struct B B'} h (a : A) (b : B) :
  is_Some (deep h a) -> is_Some (deep h b) -> is_Some (@deep _ _ _ struct_pair h (a, b)).
Proof. cbn. intros [x ->] [y ->]. by eexists. Qed.

Lemma deep_fields_is_Some {S D T U} {St : Struct T U} (fields : S -> T) (build : U -> D) h s :
  is_Some (@deep _ _ _ (struct_fields fields build) h s) -> is_Some (deep h (fields s)).
Proof. cbn. intros [d (u & Hu & _)%fmap_Some]. by eexists. Qed.

(** Fields that are assigned, before and after a copied one. *)
Lemma copied_pair_same {A A' B B'} {SA : Struct A A'} {SB : Struct B B'} h0 h (a : A) (b b' : B) :
  is_Some (deep h0 a) -> owned h0 a = [] -> copied h0 h b b' ->
  copied (SS := struct_pair) h0 h (a, b) (a, b').
Proof. intros Ha Ho Hc. eapply copied_pair; [by apply copied_same|done|apply Hc]. Qed.

Lemma copied_same_pair {A A' B B'} {SA : Struct A A'} {SB : Struct B B'} h0 h (a a' : A) (b : B) :
  copied h0 h a a' -> is_Some (deep h0 b) -> owned h b = [] ->
  copied (SS := struct_pair) h0 h (a, b) (a', b).
Proof.
  intros Ha Hb Ho. eapply copied_pair; [done|apply copied_same|done]; [|done].
  eapply deep_is_Some_mono; [done|apply Ha].
Qed.

(** Independence: whatever is written to what the copy owns, the original keeps
    its tree, and whatever is written to what was there before and is not in
    [exempt], the copy does. *)
Definition independent {S D} {SS : Struct S D} (h0 h : heap) (s s' : S) (exempt : list loc) : Prop :=
  (forall h2, (forall l, l ∉ owned h s' -> h2 !! l = h !! l) -> deep h2 s = deep h0 s) /\
  (forall h2, (forall l, h0 !! l = None \/ l ∈ exempt -> h2 !! l = h !! l) ->
     deep h2 s' = deep h0 s).

Lemma copied_independent {S D} {SS : Struct S D} h0 h s s' :
  copied h0 h s s' -> independent h0 h s s' (shared h0 s).
Proof.
  intros Hc. pose proof Hc as (Hh & [d Hd] & Hd' & Hf & _). rewrite Hd in *.
  split; intros h2 Hw; rewrite Hd.
  - apply (reached_only h0); [done|]. intros k Hk.
    destruct (reached_dom _ _ _ _ Hd Hk) as [x Hx]. rewrite Hw, Hx; [by eapply lookup_weaken|].
    intros Hin. by rewrite (Hf _ Hin) in Hx.
  - apply (reached_only h); [done|]. intros k Hk. apply Hw. by eapply copied_reached.
Qed.
End Copied.

(** ** Copying through the heap *)

Section Programs.
Context {ct : Cells}.

(** [len(r)] *)
Definition slice_len {A} {CA : Cell (list A)} (r : Ref (list A)) : M heap nat :=
  match addr r with
  | None => mret O
  | Some l => a ← load l; mret (length a)
  end.

(** [for i := range *in { ( *in)[i].DeepCopyInto(&( *out)[i]) }] *)
Fixpoint copy_each {A} {CA : Cell (list A)} (into : A -> M heap A) (inp out : loc) (js : list nat)
    : M heap () :=
  match js with
  | [] => mret tt
  | i :: js' =>
      x ← load_at inp i;
      y ← into x;
      store_at out i y ;;
      copy_each into inp out js'
  end.

(** A slice of structs: [make], then the loop. *)
Definition copy_slice {A} {CA : Cell (list A)} (zero : A) (into : A -> M heap A)
    (r : Ref (list A)) : M heap (Ref (list A)) :=
  n ← slice_len r;
  out ← alloc (replicate n zero);
  match addr r with
  | Some inp => copy_each into inp out (seq 0 n)
  | None => mret tt
  end ;;
  mret (mkRef (Some out)).

(** A slice of strings: [make], then the built-in [copy]. *)
Definition copy_strings {CA : Cell (list string)} (r : Ref (list string))
    : M heap (Ref (list string)) :=
  n ← slice_len r;
  out ← alloc (replicate n "");
  match addr r with
  | Some inp =>
      a ← load inp;
      b ← load out;
      store out (firstn (length b) a ++ skipn (length a) b)
  | None => mret tt
  end ;;
  mret (mkRef (Some out)).

(** The loop over a map, in the order of one [range]. *)
Fixpoint copy_entries {CA : Cell (gmap string string)} (out : loc) (l : list (string * string))
    : M heap () :=
  match l with
  | [] => mret tt
  | (key, val) :: l' =>
      m ← load out;
      store out (<[key := val]> m) ;;
      copy_entries out l'
  end.

Definition copy_map {CA : Cell (gmap string string)} (r : Ref (gmap string string))
    : M heap (Ref (gmap string string)) :=
  out ← alloc (∅ : gmap string string);
  m ← match addr r with Some inp => load inp | None => mret ∅ end;
  entries ← range_map m;
  copy_entries out entries ;;
  mret (mkRef (Some out)).

(** [DeepCopy]: nil for nil, else a new variable and [DeepCopyInto]. *)
Definition deep_copy {A} {CA : Cell A} (zero : A) (into : A -> M heap A) (inp : Ref A)
    : M heap (Ref A) :=
  match addr inp with
  | None => mret nil_ref
  | Some l =>
      out ← alloc zero;
      x ← load l;
      y ← into x;
      store out y ;;
      mret (mkRef (Some out))
  end.

(** ** The programs in the logic *)

Lemma get_to_cell {A} {CA : Cell A} (h : heap) l a : get_cell (<[l := to_cell a]> h) l = Some a.
Proof. unfold get_cell. rewrite lookup_insert_eq. apply of_to_cell. Qed.

Lemma get_cell_mono {A} {CA : Cell A} (h h' : heap) l a :
  get_cell h l = Some a -> h ⊆ h' -> get_cell h' l = Some a.
Proof.
  unfold get_cell. intros (c & Hc & Ha)%bind_Some Hh. by rewrite (lookup_weaken _ _ _ _ Hc Hh).
Qed.

Lemma get_cell_is_Some {A} {CA : Cell A} (h : heap) l (a : A) :
  get_cell h l = Some a -> is_Some (h !! l).
Proof. unfold get_cell. intros (c & -> & _)%bind_Some. by eexists. Qed.

Lemma wp_alloc {A} {CA : Cell A} (a : A) (Q : loc -> World heap -> Prop) w :
  (forall l w', w_ext w !! l = None -> w_ext w' = <[l := to_cell a]> (w_ext w) ->
     w_trace w' = w_trace w -> Q l w') ->
  wp (alloc a) Q w.
Proof.
  intros HQ. unfold alloc, external, wp, post. cbn. apply HQ; [|done..].
  apply not_elem_of_dom, is_fresh.
Qed.

Lemma wp_load {A} {CA : Cell A} l (a : A) (Q : A -> World heap -> Prop) w :
  get_cell (w_ext w) l = Some a ->
  (forall w', w_ext w' = w_ext w -> w_trace w' = w_trace w -> Q a w') -> wp (load l) Q w.
Proof.
  intros Ha HQ. unfold load. apply wp_bind. unfold external, wp at 1, post. cbn. rewrite Ha.
  by apply wp_ret, HQ.
Qed.

Lemma wp_store {A} {CA : Cell A} l (a : A) (Q : () -> World heap -> Prop) w :
  (forall w', w_ext w' = <[l := to_cell a]> (w_ext w) -> w_trace w' = w_trace w -> Q tt w') ->
  wp (store l a) Q w.
Proof. intros HQ. unfold store, external, wp, post. cbn. by apply HQ. Qed.

Lemma wp_load_at {A} {CA : Cell (list A)} l (a : list A) i x (Q : A -> World heap -> Prop) w :
  get_cell (w_ext w) l = Some a -> a !! i = Some x ->
  (forall w', w_ext w' = w_ext w -> w_trace w' = w_trace w -> Q x w') -> wp (load_at l i) Q w.
Proof.
  intros Ha Hx HQ. unfold load_at. apply wp_bind. eapply wp_load; [done|].
  intros w' He Ht. rewrite Hx. by apply wp_ret, HQ.
Qed.

Lemma wp_store_at {A} {CA : Cell (list A)} l (a : list A) i x (Q : () -> World heap -> Prop) w :
  get_cell (w_ext w) l = Some a -> (i < length a)%nat ->
  (forall w', w_ext w' = <[l := to_cell (<[i := x]> a)]> (w_ext w) -> w_trace w' = w_trace w ->
     Q tt w') -> wp (store_at l i x) Q w.
Proof.
  intros Ha Hi HQ. unfold store_at. apply wp_bind. eapply wp_load; [done|].
  intros w' He Ht. rewrite bool_decide_true by done. apply wp_store.
  intros w2 He2 Ht2. apply HQ; congruence.
Qed.

(** ** Each of them makes copies *)

(** The new reference is a copy when its content is. *)
Lemma copied_ref {A B} {CA : Cell A} {SA : Struct A B} h0 h l out (x y : A) :
  get_cell h0 l = Some x -> get_cell h out = Some y -> h0 !! out = None -> out ∉ owned h y ->
  copied h0 h x y -> copied (SS := struct_ref) h0 h (mkRef (Some l)) (mkRef (Some out)).
Proof.
  intros Hl Hout Hnew Hno (Hh & [d Hd] & Hd' & Hf & Hn & Hs). unfold copied. cbn.
  rewrite Hl, Hout. cbn. rewrite Hd', Hd. split_and!; try done.
  - intros k [->|Hk]%elem_of_cons; [done|by apply Hf].
  - by constructor.
Qed.

Lemma copied_nil {A B} {CA : Cell A} {SA : Struct A B} (h : heap) :
  copied (SS := struct_ref) h h nil_ref nil_ref.
Proof. by apply copied_same. Qed.

Lemma struct_ref_load {A B} {CA : Cell A} {SA : Struct A B} (h : heap) l :
  is_Some (@deep _ _ _ struct_ref h (mkRef (Some l))) ->
  exists x, get_cell h l = Some x /\ is_Some (deep h x).
Proof.
  cbn. intros [d (x & Hx & (t & Ht & _)%fmap_Some)%bind_Some]. exists x. split; [done|]. by eexists.
Qed.

Lemma struct_ref_deep {A B} {CA : Cell A} {SA : Struct A B} (h : heap) l (x : A) :
  get_cell h l = Some x -> is_Some (deep h x) ->
  is_Some (@deep _ _ _ struct_ref h (mkRef (Some l))).
Proof. cbn. intros -> [d Hd]. cbn. rewrite Hd. by eexists. Qed.

Lemma copies_deep_copy {A B} {CA : Cell A} {SA : Struct A B} zero into (r : Ref A) :
  (forall x, copies (into x) x) -> copies (SS := struct_ref) (deep_copy zero into r) r.
Proof.
  intros Hinto w Hd. unfold deep_copy. destruct r as [[l|]]; cbn [addr].
  2: { apply wp_ret. split; [apply copied_nil|done]. }
  destruct (struct_ref_load _ _ Hd) as (x & Hx & Hdx).
  apply wp_bind, wp_alloc. intros out w1 Hnew He1 Ht1.
  assert (w_ext w ⊆ w_ext w1) as H01 by (rewrite He1; by apply insert_subseteq).
  apply wp_bind. eapply wp_load; [by eapply get_cell_mono|]. intros w2 He2 Ht2.
  apply wp_bind. eapply wp_mono; [apply Hinto; rewrite He2; by eapply deep_is_Some_mono|].
  intros y w3 [Hc Ht3]. rewrite He2 in Hc. apply wp_bind, wp_store. intros w4 He4 Ht4.
  apply wp_ret. split; [|congruence]. rewrite He4.
  assert (out ∉ owned (w_ext w3) y) as Hno.
  { intros Hin. destruct Hc as (_ & _ & _ & Hf & _). specialize (Hf _ Hin).
    by rewrite He1, lookup_insert_eq in Hf. }
  pose proof (copied_later _ _ _ _ _ Hdx H01 Hc) as Hc0.
  eapply copied_ref; [done|apply get_to_cell|done| |by apply copied_store].
  destruct Hc0 as (_ & [d Hdx'] & Hdy & _ & _ & Hs). rewrite Hdx' in Hdy.
  destruct (deep_store _ y d out (to_cell y) Hdy) as (_ & -> & _); [|done].
  intros [?|Hin]%elem_of_app; [done|]. rewrite Hs in Hin.
  destruct (reached_dom _ _ _ out Hdx'); [apply elem_of_app; by right|congruence].
Qed.

Lemma copied_elem_fresh {A B} {SA : Struct A B} h0 h (x y : A) l :
  copied h0 h x y -> is_Some (h0 !! l) -> l ∉ owned h y.
Proof. intros (_ & _ & _ & Hf & _) [c Hc] Hin. by rewrite (Hf _ Hin) in Hc. Qed.

Lemma copied_owned_store {S D} {SS : Struct S D} h0 h s s' l c :
  copied h0 h s s' -> h0 !! l = None -> l ∉ owned h s' -> owned (<[l := c]> h) s' = owned h s'.
Proof.
  intros Hc Hl Hno. pose proof Hc as (_ & [d Hd] & Hd' & _). rewrite Hd in Hd'.
  apply (deep_store h s' d l c Hd'). intros Hin. pose proof Hin as Hin'.
  apply elem_of_app in Hin as [?|Hin]; [done|]. destruct Hc as (_ & _ & _ & _ & _ & Hs).
  rewrite Hs in Hin. destruct (reached_dom h0 s d l Hd); [apply elem_of_app; by right|congruence].
Qed.

Lemma deep_list_snoc {A B} {SA : Struct A B} h (xs : list A) x :
  mapM (deep h) (xs ++ [x]) = (ds ← mapM (deep h) xs; d ← deep h x; Some (ds ++ [d])).
Proof.
  induction xs as [|a xs IH]; cbn.
  - by destruct (deep h x).
  - rewrite IH. destruct (deep h a); cbn; [|done]. destruct (mapM (deep h) xs); cbn; [|done].
    by destruct (deep h x).
Qed.

Lemma copied_list_nil {A B} {SA : Struct A B} (h : heap) :
  copied (SS := struct_list (SA := SA)) h h [] [].
Proof. by apply copied_same. Qed.

Lemma copied_snoc {A B} {SA : Struct A B} h0 h1 h2 xs ys (x y : A) :
  copied (SS := struct_list) h0 h1 xs ys -> copied h1 h2 x y -> is_Some (deep h0 x) ->
  copied (SS := struct_list) h0 h2 (xs ++ [x]) (ys ++ [y]).
Proof.
  intros Hxs Hx Hd. pose proof (copied_pair _ _ _ _ _ _ _ Hxs Hx Hd) as Hp.
  destruct Hp as (Hh & Hd0 & Hd' & Hf & Hn & Hs). cbn in Hd0, Hd', Hf, Hn, Hs.
  unfold copied. cbn. rewrite !deep_list_snoc, !flat_map_app. cbn. rewrite !app_nil_r.
  split_and!; try done.
  - destruct Hd0 as [d (a & -> & (b & -> & _)%bind_Some)%bind_Some]. by eexists.
  - destruct Hd0 as [d (a & Ha & (b & Hb & _)%bind_Some)%bind_Some]. rewrite Ha, Hb in Hd' |- *.
    apply bind_Some in Hd' as (a' & -> & (b' & -> & [= -> ->])%bind_Some). done.
Qed.

Lemma deep_list_lookup {A B} {SA : Struct A B} h (xs : list A) i x :
  is_Some (mapM (deep h) xs) -> xs !! i = Some x -> is_Some (deep h x).
Proof.
  intros [ds Hds] Hx. apply mapM_Some in Hds.
  destruct (Forall2_lookup_l _ _ _ _ _ Hds Hx) as (d & _ & Hd). by exists d.
Qed.

(** The loop over a slice, from element [i] on: the first [i] are copied. *)
Lemma wp_copy_each {A B} {CA : Cell (list A)} {SA : Struct A B} zero into h0 inp out (xs : list A)
    n (Q : () -> World heap -> Prop) :
  (forall x, copies (into x) x) -> get_cell h0 inp = Some xs -> is_Some (mapM (deep h0) xs) ->
  h0 !! out = None ->
  forall i ys (w : World heap), (i + n = length xs)%nat -> length ys = i ->
  get_cell (w_ext w) out = Some (ys ++ replicate n zero) -> out ∉ flat_map (owned (w_ext w)) ys ->
  copied (SS := struct_list) h0 (w_ext w) (take i xs) ys ->
  (forall ys w', get_cell (w_ext w') out = Some ys -> out ∉ flat_map (owned (w_ext w')) ys ->
     copied (SS := struct_list) h0 (w_ext w') xs ys -> w_trace w' = w_trace w -> Q tt w') ->
  wp (copy_each into inp out (seq i n)) Q w.
Proof.
  intros Hinto Hin Hds Hnew. induction n as [|n IH]; intros i ys w Hi Hys Hout Hno Hc HQ.
  { cbn. apply wp_ret. rewrite app_nil_r in Hout. rewrite take_ge in Hc by lia. by eapply HQ. }
  cbn [seq copy_each]. destruct (lookup_lt_is_Some_2 xs i) as [x Hx]; [lia|].
  pose proof Hc as (H0 & _). apply wp_bind. eapply wp_load_at; [by eapply get_cell_mono|done|].
  intros w1 He1 Ht1. apply wp_bind.
  pose proof (deep_list_lookup _ _ _ _ Hds Hx) as Hdx.
  eapply wp_mono; [apply Hinto; rewrite He1; by eapply deep_is_Some_mono|].
  intros y w2 [Hy Ht2]. rewrite He1 in Hy. pose proof Hy as (H12 & _).
  pose proof (get_cell_mono _ _ _ _ Hout H12) as Hout2.
  apply wp_bind. eapply wp_store_at; [done| |].
  { rewrite length_app, length_replicate. lia. }
  intros w3 He3 Ht3.
  assert (<[i := y]> (ys ++ replicate (S n) zero) = (ys ++ [y]) ++ replicate n zero) as Hupd.
  { rewrite <- Hys, insert_app_r_alt by lia. by rewrite Nat.sub_diag, <- app_assoc. }
  rewrite Hupd in He3. pose proof (copied_snoc _ _ _ _ _ _ _ Hc Hy Hdx) as Hcs.
  assert (out ∉ flat_map (owned (w_ext w2)) (ys ++ [y])) as Hno2.
  { rewrite flat_map_app. cbn. rewrite app_nil_r. intros [Hl|Hl]%elem_of_app.
    - destruct Hc as (_ & [d Hd] & Hd' & _). rewrite Hd in Hd'.
      destruct (deep_mono (SS := struct_list) _ _ _ _ Hd' H12) as (_ & Ho & _). cbn in Ho.
      by rewrite Ho in Hl.
    - revert Hl. eapply copied_elem_fresh; [done|]. by eapply get_cell_is_Some. }
  apply (IH (S i) (ys ++ [y])); rewrite ?He3.
  - lia.
  - rewrite length_app. cbn. lia.
  - apply get_to_cell.
  - pose proof (copied_owned_store (SS := struct_list) _ _ _ _ out
      (to_cell ((ys ++ [y]) ++ replicate n zero)) Hcs Hnew Hno2) as Ho. cbn in Ho. by rewrite Ho.
  - rewrite (take_S_r _ _ _ Hx). by apply copied_store.
  - intros ys' w' ? ? ? Ht. eapply HQ; [done..|congruence].
Qed.

Lemma copies_copy_slice {A B} {CA : Cell (list A)} {SA : Struct A B} (zero : A) into (r : Ref (list A)) :
  (forall x, copies (into x) x) -> is_nil r = false ->
  copies (SS := struct_ref (SA := struct_list)) (copy_slice zero into r) r.
Proof.
  intros Hinto Hnil w Hd. destruct r as [[l|]]; [|done]. unfold copy_slice. cbn [addr slice_len].
  destruct (struct_ref_load (SA := struct_list) _ _ Hd) as (xs & Hx & Hdx).
  apply wp_bind. unfold slice_len. cbn [addr]. apply wp_bind. eapply wp_load; [done|].
  intros w1 He1 Ht1. apply wp_ret. apply wp_bind, wp_alloc. intros out w2 Hnew He2 Ht2.
  rewrite He1 in Hnew, He2.
  assert (w_ext w ⊆ w_ext w2) as H02 by (rewrite He2; by apply insert_subseteq).
  apply wp_bind. eapply (wp_copy_each zero into (w_ext w) l out xs (length xs)) with (i := O) (ys := []);
    [done..| |by intros ?%not_elem_of_nil| |].
  - rewrite He2. apply get_to_cell.
  - eapply copied_mono; [apply copied_list_nil|done].
  - intros ys w' Hout Hno Hc Ht. apply wp_ret. split; [|congruence]. by eapply copied_ref.
Qed.

(** A reference to a cell without references of its own. *)
Lemma copied_leaf_ref {A} {CA : Cell A} (h0 h : heap) l out (a : A) :
  get_cell h0 l = Some a -> get_cell h out = Some a -> h0 !! out = None -> h0 ⊆ h ->
  copied (SS := struct_ref (SA := struct_leaf A)) h0 h (mkRef (Some l)) (mkRef (Some out)).
Proof.
  intros Hl Hout Hnew Hh. eapply copied_ref; [done..|by intros ?%not_elem_of_nil|].
  eapply copied_mono; [by apply copied_same|done].
Qed.

Lemma copies_copy_strings {CA : Cell (list string)} r :
  is_nil r = false -> copies (SS := struct_ref (SA := struct_leaf _)) (copy_strings r) r.
Proof.
  intros Hnil w Hd. destruct r as [[l|]]; [|done].
  destruct (struct_ref_load (SA := struct_leaf _) _ _ Hd) as (a & Ha & _).
  unfold copy_strings, slice_len. cbn [addr]. apply wp_bind, wp_bind. eapply wp_load; [done|].
  intros w1 He1 Ht1. apply wp_ret. apply wp_bind, wp_alloc. intros out w2 Hnew He2 Ht2.
  rewrite He1 in Hnew, He2.
  assert (w_ext w ⊆ w_ext w2) as H02 by (rewrite He2; by apply insert_subseteq).
  apply wp_bind, wp_bind. eapply wp_load; [by eapply get_cell_mono|]. intros w3 He3 Ht3.
  apply wp_bind. eapply wp_load; [rewrite He3, He2; apply get_to_cell|]. intros w4 He4 Ht4.
  rewrite length_replicate, firstn_all, skipn_all2 by (rewrite length_replicate; done).
  rewrite app_nil_r. apply wp_store. intros w5 He5 Ht5. apply wp_ret. split; [|congruence].
  eapply copied_leaf_ref; [done|rewrite He5; apply get_to_cell|done|].
  rewrite He5, He4, He3. by apply insert_subseteq_r.
Qed.

Lemma get_cell_at {A} {CA : Cell A} (h : heap) l (a : A) :
  h !! l = Some (to_cell a) -> get_cell h l = Some a.
Proof. unfold get_cell. intros ->. apply of_to_cell. Qed.

Lemma wp_copy_entries {CA : Cell (gmap string string)} out l m (Q : () -> World heap -> Prop) w :
  w_ext w !! out = Some (to_cell m) ->
  (forall w', w_ext w' = <[out := to_cell (foldl (fun m '(k, v) => <[k := v]> m) m l)]> (w_ext w) ->
     w_trace w' = w_trace w -> Q tt w') ->
  wp (copy_entries out l) Q w.
Proof.
  revert m w. induction l as [|[k v] l IH]; intros m w Hm HQ; cbn [copy_entries foldl].
  { apply wp_ret. apply HQ; [|done]. cbn. by rewrite insert_id. }
  apply wp_bind. eapply wp_load; [by apply get_cell_at|]. intros w1 He1 Ht1.
  apply wp_bind, wp_store. intros w2 He2 Ht2. apply (IH (<[k := v]> m)); rewrite ?He2.
  - apply lookup_insert_eq.
  - intros w' He Ht. apply HQ; [|congruence]. by rewrite He, He1, insert_insert_eq.
Qed.

(** Whatever the order, the entries of a map make the map. *)
Lemma foldl_insert_entries (m : gmap string string) l :
  l ≡ₚ map_to_list m -> foldl (fun m '(k, v) => <[k := v]> m) ∅ l = m.
Proof.
  intros Hl. rewrite <- (list_to_map_to_list m) at 1.
  assert (NoDup (rev l).*1) as Hnd.
  { rewrite <- (Permutation_rev l), Hl. apply NoDup_fst_map_to_list. }
  rewrite <- (list_to_map_proper (M := gmap string) (rev l)); [|done|by rewrite <- Permutation_rev].
  clear Hl Hnd. rewrite <- (rev_involutive l) at 1. generalize (rev l) as k. clear l.
  induction k as [|[a b] k IH]; [done|]. cbn [rev list_to_map foldr].
  rewrite foldl_app, IH. done.
Qed.

Lemma copies_copy_map {CA : Cell (gmap string string)} r :
  is_nil r = false -> copies (SS := struct_ref (SA := struct_leaf _)) (copy_map r) r.
Proof.
  intros Hnil w Hd. destruct r as [[l|]]; [|done].
  destruct (struct_ref_load (SA := struct_leaf _) _ _ Hd) as (m & Hm & _).
  unfold copy_map. cbn [addr]. apply wp_bind, wp_alloc. intros out w1 Hnew He1 Ht1.
  assert (w_ext w ⊆ w_ext w1) as H01 by (rewrite He1; by apply insert_subseteq).
  apply wp_bind. eapply wp_load; [by eapply get_cell_mono|]. intros w2 He2 Ht2.
  apply wp_bind, wp_range_map. intros n w3 He3 _ _ Ht3. apply wp_bind.
  assert (w_ext w3 = <[out := to_cell (∅ : gmap string string)]> (w_ext w)) as He by congruence.
  eapply wp_copy_entries; [rewrite He; apply lookup_insert_eq|].
  intros w4 He4 Ht4. rewrite (foldl_insert_entries m) in He4 by apply permute_Permutation.
  rewrite He, insert_insert_eq in He4. apply wp_ret. split; [|congruence].
  eapply copied_leaf_ref; [done|rewrite He4; apply get_to_cell|done|].
  rewrite He4. by apply insert_subseteq.
Qed.

(** A field that holds a reference, copied unless it is nil. *)
Lemma wp_copy_field {A B C} {CA : Cell A} {SA : Struct A B} (m : M heap (Ref A)) (a : Ref A)
    (set : Ref A -> C) (out : C) (Q : C -> World heap -> Prop) w :
  (is_nil a = false -> copies (SS := struct_ref) m a) ->
  is_Some (@deep _ _ _ struct_ref (w_ext w) a) -> set a = out ->
  (forall a' w', copied (SS := struct_ref) (w_ext w) (w_ext w') a a' -> w_trace w' = w_trace w ->
     Q (set a') w') ->
  wp (if is_nil a then mret out else a' ← m; mret (set a')) Q w.
Proof.
  intros Hm Hd <- HQ. destruct (is_nil a) eqn:Hnil.
  - apply wp_ret, HQ; [|done]. apply copied_same; [done|].
    by destruct a as [[l|]].
  - apply wp_bind. eapply wp_mono; [by apply Hm|]. intros a' w' [Hc Ht]. by apply wp_ret, HQ.
Qed.
End Programs.
