(* ===== verification/ApiMemory.v ===== *)
(** * The API objects in memory

    The other files give an API object as a value.  This one gives it as the
    memory it occupies.  Every struct of [api/v1alpha1] with slices, maps or
    pointers is declared once, over a [Reading] of its references: [mem] reads
    them as addresses, [tree] as what they lead to. *)

From S2P Require Import Prelude ApiTypes World Memory.

(** What stands for a reference, and for the metadata of Kubernetes, whose
    layout is not the program's. *)
Record Reading := {
  ref : Type -> Type;
  meta : Type;
  list_meta : Type
}.

(** ** The structs of [api/v1alpha1] that hold references *)

Record TypeMeta := { tm_Kind : string; tm_APIVersion : string }.

Record TargetPodR (R : Reading) := mkTarget {
  m_Name : string;
  m_Selector : ref R (gmap string string);
  m_Containers : ref R (list string)
}.

Record ImageSaveOptionsR (R : Reading) := mkOptions {
  m_ImageRefFormat : string;
  m_RegistrySecretRef : string;
  m_AppendSnappedSuffix : ref R bool;
  m_MaxRetries : Z;
  m_RetryDelaySeconds : Z
}.

Record SnapshotPodSpecR (R : Reading) := mkSpecR {
  m_Target : TargetPodR R;
  m_CommitOptions : CommitOptions;
  m_ImageSaveOptions : ImageSaveOptionsR R;
  m_AutoSaveOptions : AutoSaveOptions;
  m_TriggerRound : Z;
  m_RecoveryRound : Z
}.

Record SnapshotRunningStatusR (R : Reading) := mkRunR {
  m_run_TriggerRound : Z;
  m_TriggerTime : Time;
  m_TaskName : string;
  m_ImageRef : string;
  m_ContainerName : string;
  m_Result : string;
  m_FailedReason : string;
  m_CompletedAt : ref R Time
}.

Record SnapshotPodStatusR (R : Reading) := mkStatusR {
  m_Snapshots : ref R (list (SnapshotRunningStatusR R));
  m_Conditions : ref R (list Condition);
  m_LastTriggerRound : Z
}.

Record SnapshotPodR (R : Reading) := mkSpR {
  m_TypeMeta : TypeMeta;
  m_ObjectMeta : meta R;
  m_Spec : SnapshotPodSpecR R;
  m_Status : SnapshotPodStatusR R
}.

Record SnapshotPodListR (R : Reading) := mkSpListR {
  m_list_TypeMeta : TypeMeta;
  m_ListMeta : list_meta R;
  m_Items : ref R (list (SnapshotPodR R))
}.

Record SnapshotPodTaskStatusR (R : Reading) := mkTaskStatusR {
  m_task_Conditions : ref R (list Condition);
  m_Phase : string;
  m_RetryCount : Z;
  m_LastRetryTime : ref R Time
}.

Record SnapshotPodTaskR (R : Reading) := mkTaskR {
  m_task_TypeMeta : TypeMeta;
  m_task_ObjectMeta : meta R;
  m_task_Spec : SnapshotPodTaskSpec;
  m_task_Status : SnapshotPodTaskStatusR R
}.

Record SnapshotPodTaskListR (R : Reading) := mkTaskListR {
  m_task_list_TypeMeta : TypeMeta;
  m_task_ListMeta : list_meta R;
  m_task_Items : ref R (list (SnapshotPodTaskR R))
}.

Arguments mkTarget {R}. Arguments m_Name {R}. Arguments m_Selector {R}. Arguments m_Containers {R}.
Arguments mkOptions {R}. Arguments m_ImageRefFormat {R}. Arguments m_RegistrySecretRef {R}.
Arguments m_AppendSnappedSuffix {R}. Arguments m_MaxRetries {R}. Arguments m_RetryDelaySeconds {R}.
Arguments mkSpecR {R}. Arguments m_Target {R}. Arguments m_CommitOptions {R}.
Arguments m_ImageSaveOptions {R}. Arguments m_AutoSaveOptions {R}. Arguments m_TriggerRound {R}.
Arguments m_RecoveryRound {R}.
Arguments mkRunR {R}. Arguments m_run_TriggerRound {R}. Arguments m_TriggerTime {R}.
Arguments m_TaskName {R}. Arguments m_ImageRef {R}. Arguments m_ContainerName {R}.
Arguments m_Result {R}. Arguments m_FailedReason {R}. Arguments m_CompletedAt {R}.
Arguments mkStatusR {R}. Arguments m_Snapshots {R}. Arguments m_Conditions {R}.
Arguments m_LastTriggerRound {R}.
Arguments mkSpR {R}. Arguments m_TypeMeta {R}. Arguments m_ObjectMeta {R}. Arguments m_Spec {R}.
Arguments m_Status {R}.
Arguments mkSpListR {R}. Arguments m_list_TypeMeta {R}. Arguments m_ListMeta {R}.
Arguments m_Items {R}.
Arguments mkTaskStatusR {R}. Arguments m_task_Conditions {R}. Arguments m_Phase {R}.
Arguments m_RetryCount {R}. Arguments m_LastRetryTime {R}.
Arguments mkTaskR {R}. Arguments m_task_TypeMeta {R}. Arguments m_task_ObjectMeta {R}.
Arguments m_task_Spec {R}. Arguments m_task_Status {R}.
Arguments mkTaskListR {R}. Arguments m_task_list_TypeMeta {R}. Arguments m_task_ListMeta {R}.
Arguments m_task_Items {R}.

(** ** What an address can hold *)

(** Types of [metav1]: the metadata structs in memory and as trees, and the cells
    only they use. *)
Class MetaTypes := {
  ObjectMetaM : Type; ObjectMetaT : Type;
  ListMetaM : Type; ListMetaT : Type;
  Foreign : Type
}.

Section Heap.
Context {mt : MetaTypes}.

Definition mem : Reading := {| ref := Ref; meta := ObjectMetaM; list_meta := ListMetaM |}.
Definition tree : Reading := {| ref := option; meta := ObjectMetaT; list_meta := ListMetaT |}.

(** What an address can hold: a variable of one of the types of the program, the
    array behind a slice, or the table behind a map. *)
Inductive api_cell :=
| CBool (b : bool)
| CTime (t : Time)
| CMap (m : gmap string string)
| CStrings (l : list string)
| CConditions (l : list Condition)
| CRuns (l : list (SnapshotRunningStatusR mem))
| CSnapshotPods (l : list (SnapshotPodR mem))
| CTasks (l : list (SnapshotPodTaskR mem))
| CAutoSaveOptions (s : AutoSaveOptions)
| CCommitOptions (s : CommitOptions)
| CImageSaveOptions (s : ImageSaveOptionsR mem)
| CTargetPod (s : TargetPodR mem)
| CSnapshotPodSpec (s : SnapshotPodSpecR mem)
| CSnapshotRunningStatus (s : SnapshotRunningStatusR mem)
| CSnapshotPodStatus (s : SnapshotPodStatusR mem)
| CSnapshotPod (s : SnapshotPodR mem)
| CSnapshotPodList (s : SnapshotPodListR mem)
| CTaskSpec (s : SnapshotPodTaskSpec)
| CTaskStatus (s : SnapshotPodTaskStatusR mem)
| CTask (s : SnapshotPodTaskR mem)
| CTaskList (s : SnapshotPodTaskListR mem)
| CForeign (x : Foreign).

#[export] Instance api_cells : Cells := {| cell := api_cell |}.
End Heap.

(** ** Which cells hold what *)

Section Cells.
Context {mt : MetaTypes}.

#[export, program] Instance cell_bool : Cell bool :=
  {| to_cell := CBool; of_cell c := match c with CBool b => Some b | _ => None end |}.
#[export, program] Instance cell_time : Cell Time :=
  {| to_cell := CTime; of_cell c := match c with CTime b => Some b | _ => None end |}.
#[export, program] Instance cell_map : Cell (gmap string string) :=
  {| to_cell := CMap; of_cell c := match c with CMap b => Some b | _ => None end |}.
#[export, program] Instance cell_strings : Cell (list string) :=
  {| to_cell := CStrings; of_cell c := match c with CStrings b => Some b | _ => None end |}.
#[export, program] Instance cell_conditions : Cell (list Condition) :=
  {| to_cell := CConditions; of_cell c := match c with CConditions b => Some b | _ => None end |}.
#[export, program] Instance cell_runs : Cell (list (SnapshotRunningStatusR mem)) :=
  {| to_cell := CRuns; of_cell c := match c with CRuns b => Some b | _ => None end |}.
#[export, program] Instance cell_sps : Cell (list (SnapshotPodR mem)) :=
  {| to_cell := CSnapshotPods; of_cell c := match c with CSnapshotPods b => Some b | _ => None end |}.
#[export, program] Instance cell_tasks : Cell (list (SnapshotPodTaskR mem)) :=
  {| to_cell := CTasks; of_cell c := match c with CTasks b => Some b | _ => None end |}.
#[export, program] Instance cell_auto : Cell AutoSaveOptions :=
  {| to_cell := CAutoSaveOptions;
     of_cell c := match c with CAutoSaveOptions b => Some b | _ => None end |}.
#[export, program] Instance cell_commit : Cell CommitOptions :=
  {| to_cell := CCommitOptions;
     of_cell c := match c with CCommitOptions b => Some b | _ => None end |}.
#[export, program] Instance cell_save : Cell (ImageSaveOptionsR mem) :=
  {| to_cell := CImageSaveOptions;
     of_cell c := match c with CImageSaveOptions b => Some b | _ => None end |}.
#[export, program] Instance cell_target : Cell (TargetPodR mem) :=
  {| to_cell := CTargetPod; of_cell c := match c with CTargetPod b => Some b | _ => None end |}.
#[export, program] Instance cell_spec : Cell (SnapshotPodSpecR mem) :=
  {| to_cell := CSnapshotPodSpec;
     of_cell c := match c with CSnapshotPodSpec b => Some b | _ => None end |}.
#[export, program] Instance cell_run : Cell (SnapshotRunningStatusR mem) :=
  {| to_cell := CSnapshotRunningStatus;
     of_cell c := match c with CSnapshotRunningStatus b => Some b | _ => None end |}.
#[export, program] Instance cell_status : Cell (SnapshotPodStatusR mem) :=
  {| to_cell := CSnapshotPodStatus;
     of_cell c := match c with CSnapshotPodStatus b => Some b | _ => None end |}.
#[export, program] Instance cell_sp : Cell (SnapshotPodR mem) :=
  {| to_cell := CSnapshotPod; of_cell c := match c with CSnapshotPod b => Some b | _ => None end |}.
#[export, program] Instance cell_sp_list : Cell (SnapshotPodListR mem) :=
  {| to_cell := CSnapshotPodList;
     of_cell c := match c with CSnapshotPodList b => Some b | _ => None end |}.
#[export, program] Instance cell_task_spec : Cell SnapshotPodTaskSpec :=
  {| to_cell := CTaskSpec; of_cell c := match c with CTaskSpec b => Some b | _ => None end |}.
#[export, program] Instance cell_task_status : Cell (SnapshotPodTaskStatusR mem) :=
  {| to_cell := CTaskStatus; of_cell c := match c with CTaskStatus b => Some b | _ => None end |}.
#[export, program] Instance cell_task : Cell (SnapshotPodTaskR mem) :=
  {| to_cell := CTask; of_cell c := match c with CTask b => Some b | _ => None end |}.
#[export, program] Instance cell_task_list : Cell (SnapshotPodTaskListR mem) :=
  {| to_cell := CTaskList; of_cell c := match c with CTaskList b => Some b | _ => None end |}.
Solve All Obligations with done.
End Cells.

(** ** Assignments to fields *)

Section Setters.
Context {mt : MetaTypes}.

Definition set_m_Selector v (t : TargetPodR mem) : TargetPodR mem :=
  @mkTarget mem (m_Name t) v (m_Containers t).
Definition set_m_Containers v (t : TargetPodR mem) : TargetPodR mem :=
  @mkTarget mem (m_Name t) (m_Selector t) v.
Definition set_m_Target v (s : SnapshotPodSpecR mem) : SnapshotPodSpecR mem :=
  @mkSpecR mem v (m_CommitOptions s) (m_ImageSaveOptions s) (m_AutoSaveOptions s)
           (m_TriggerRound s) (m_RecoveryRound s).
Definition set_m_CommitOptions v (s : SnapshotPodSpecR mem) : SnapshotPodSpecR mem :=
  @mkSpecR mem (m_Target s) v (m_ImageSaveOptions s) (m_AutoSaveOptions s)
           (m_TriggerRound s) (m_RecoveryRound s).
Definition set_m_ImageSaveOptions v (s : SnapshotPodSpecR mem) : SnapshotPodSpecR mem :=
  @mkSpecR mem (m_Target s) (m_CommitOptions s) v (m_AutoSaveOptions s)
           (m_TriggerRound s) (m_RecoveryRound s).
Definition set_m_AutoSaveOptions v (s : SnapshotPodSpecR mem) : SnapshotPodSpecR mem :=
  @mkSpecR mem (m_Target s) (m_CommitOptions s) (m_ImageSaveOptions s) v
           (m_TriggerRound s) (m_RecoveryRound s).
Definition set_m_TriggerTime v (s : SnapshotRunningStatusR mem) : SnapshotRunningStatusR mem :=
  @mkRunR mem (m_run_TriggerRound s) v (m_TaskName s) (m_ImageRef s) (m_ContainerName s)
          (m_Result s) (m_FailedReason s) (m_CompletedAt s).
Definition set_m_CompletedAt v (s : SnapshotRunningStatusR mem) : SnapshotRunningStatusR mem :=
  @mkRunR mem (m_run_TriggerRound s) (m_TriggerTime s) (m_TaskName s) (m_ImageRef s)
          (m_ContainerName s) (m_Result s) (m_FailedReason s) v.
Definition set_m_Snapshots v (s : SnapshotPodStatusR mem) : SnapshotPodStatusR mem :=
  @mkStatusR mem v (m_Conditions s) (m_LastTriggerRound s).
Definition set_m_Conditions v (s : SnapshotPodStatusR mem) : SnapshotPodStatusR mem :=
  @mkStatusR mem (m_Snapshots s) v (m_LastTriggerRound s).
Definition set_m_TypeMeta v (s : SnapshotPodR mem) : SnapshotPodR mem :=
  @mkSpR mem v (m_ObjectMeta s) (m_Spec s) (m_Status s).
Definition set_m_ObjectMeta v (s : SnapshotPodR mem) : SnapshotPodR mem :=
  @mkSpR mem (m_TypeMeta s) v (m_Spec s) (m_Status s).
Definition set_m_Spec v (s : SnapshotPodR mem) : SnapshotPodR mem :=
  @mkSpR mem (m_TypeMeta s) (m_ObjectMeta s) v (m_Status s).
Definition set_m_Status v (s : SnapshotPodR mem) : SnapshotPodR mem :=
  @mkSpR mem (m_TypeMeta s) (m_ObjectMeta s) (m_Spec s) v.
Definition set_m_list_TypeMeta v (s : SnapshotPodListR mem) : SnapshotPodListR mem :=
  @mkSpListR mem v (m_ListMeta s) (m_Items s).
Definition set_m_ListMeta v (s : SnapshotPodListR mem) : SnapshotPodListR mem :=
  @mkSpListR mem (m_list_TypeMeta s) v (m_Items s).
Definition set_m_Items v (s : SnapshotPodListR mem) : SnapshotPodListR mem :=
  @mkSpListR mem (m_list_TypeMeta s) (m_ListMeta s) v.
Definition set_ts_CommitOptions v (s : SnapshotPodTaskSpec) : SnapshotPodTaskSpec :=
  Build_SnapshotPodTaskSpec (ts_NodeName s) (ts_PodName s) (ts_ContainerID s) v (ts_OriginImage s)
    (ts_OriginRegistrySecretRef s) (ts_CommitImage s) (ts_RegistrySecretRef s)
    (ts_MaxRetries s) (ts_RetryDelaySeconds s).
Definition set_m_task_Conditions v (s : SnapshotPodTaskStatusR mem) : SnapshotPodTaskStatusR mem :=
  @mkTaskStatusR mem v (m_Phase s) (m_RetryCount s) (m_LastRetryTime s).
Definition set_m_LastRetryTime v (s : SnapshotPodTaskStatusR mem) : SnapshotPodTaskStatusR mem :=
  @mkTaskStatusR mem (m_task_Conditions s) (m_Phase s) (m_RetryCount s) v.
Definition set_m_task_TypeMeta v (s : SnapshotPodTaskR mem) : SnapshotPodTaskR mem :=
  @mkTaskR mem v (m_task_ObjectMeta s) (m_task_Spec s) (m_task_Status s).
Definition set_m_task_ObjectMeta v (s : SnapshotPodTaskR mem) : SnapshotPodTaskR mem :=
  @mkTaskR mem (m_task_TypeMeta s) v (m_task_Spec s) (m_task_Status s).
Definition set_m_task_Spec v (s : SnapshotPodTaskR mem) : SnapshotPodTaskR mem :=
  @mkTaskR mem (m_task_TypeMeta s) (m_task_ObjectMeta s) v (m_task_Status s).
Definition set_m_task_Status v (s : SnapshotPodTaskR mem) : SnapshotPodTaskR mem :=
  @mkTaskR mem (m_task_TypeMeta s) (m_task_ObjectMeta s) (m_task_Spec s) v.
Definition set_m_task_list_TypeMeta v (s : SnapshotPodTaskListR mem) : SnapshotPodTaskListR mem :=
  @mkTaskListR mem v (m_task_ListMeta s) (m_task_Items s).
Definition set_m_task_ListMeta v (s : SnapshotPodTaskListR mem) : SnapshotPodTaskListR mem :=
  @mkTaskListR mem (m_task_list_TypeMeta s) v (m_task_Items s).
Definition set_m_task_Items v (s : SnapshotPodTaskListR mem) : SnapshotPodTaskListR mem :=
  @mkTaskListR mem (m_task_list_TypeMeta s) (m_task_ListMeta s) v.
End Setters.
