(* ===== verification/DeepCopy.v ===== *)
(** * Deep copies ([api/v1alpha1/zz_generated.deepcopy.go])

    The generated [DeepCopyInto], [DeepCopy] and [DeepCopyObject] on the memory of
    [ApiMemory].  [DeepCopyInto] takes the struct behind [in] and returns the struct
    that it leaves behind [out], which is new wherever the generated code calls
    it.  The copies of Kubernetes' own types are parameters with the documented
    behaviour.

    The theorems: a copy is well typed, leads to the same tree, and has nothing
    in common with its original, but for the flag [AppendSnappedSuffix], which
    the generated code shares. *)

From S2P Require Import Prelude ApiTypes World Memory ApiMemory.

(** ** Kubernetes' own types *)

(** [DeepCopyInto] and [DeepCopy] of [metav1], and zero values. *)
Class MetaV1 {mt : MetaTypes} := {
  ObjectMeta_DeepCopyInto : ObjectMetaM -> M heap ObjectMetaM;
  ListMeta_DeepCopyInto : ListMetaM -> M heap ListMetaM;
  Condition_DeepCopyInto : Condition -> M heap Condition;
  Time_DeepCopyInto : Time -> M heap Time;
  Time_DeepCopy : Ref Time -> M heap (Ref Time);
  zero_ObjectMeta : ObjectMetaM;
  zero_ListMeta : ListMetaM
}.

Section Zeros.
Context {mt : MetaTypes} {mv : MetaV1}.

(** Zero values, for [new] and [make]. *)
Definition zero_Condition : Condition := mkCondition "" "" 0 "" "".
Definition zero_CommitOptions : CommitOptions :=
  {| co_PauseContainer := false; co_Timeout := ""; co_Message := ""; co_Author := "" |}.
Definition zero_AutoSaveOptions : AutoSaveOptions :=
  {| aso_AutoSaveOnTermination := false; aso_Cron := "" |}.
Definition zero_TypeMeta : TypeMeta := {| tm_Kind := ""; tm_APIVersion := "" |}.
Definition zero_TargetPod : TargetPodR mem := @mkTarget mem "" nil_ref nil_ref.
Definition zero_ImageSaveOptions : ImageSaveOptionsR mem := @mkOptions mem "" "" nil_ref 0 0.
Definition zero_SnapshotPodSpec : SnapshotPodSpecR mem :=
  @mkSpecR mem zero_TargetPod zero_CommitOptions zero_ImageSaveOptions zero_AutoSaveOptions 0 0.
Definition zero_SnapshotRunningStatus : SnapshotRunningStatusR mem :=
  @mkRunR mem 0 0 "" "" "" "" "" nil_ref.
Definition zero_SnapshotPodStatus : SnapshotPodStatusR mem := @mkStatusR mem nil_ref nil_ref 0.
Definition zero_SnapshotPod : SnapshotPodR mem :=
  @mkSpR mem zero_TypeMeta zero_ObjectMeta zero_SnapshotPodSpec zero_SnapshotPodStatus.
Definition zero_SnapshotPodList : SnapshotPodListR mem :=
  @mkSpListR mem zero_TypeMeta zero_ListMeta nil_ref.
Definition zero_SnapshotPodTaskSpec : SnapshotPodTaskSpec :=
  {| ts_NodeName := ""; ts_PodName := ""; ts_ContainerID := "";
     ts_CommitOptions := zero_CommitOptions; ts_OriginImage := "";
     ts_OriginRegistrySecretRef := ""; ts_CommitImage := ""; ts_RegistrySecretRef := "";
     ts_MaxRetries := 0; ts_RetryDelaySeconds := 0 |}.
Definition zero_SnapshotPodTaskStatus : SnapshotPodTaskStatusR mem :=
  @mkTaskStatusR mem nil_ref "" 0 nil_ref.
Definition zero_SnapshotPodTask : SnapshotPodTaskR mem :=
  @mkTaskR mem zero_TypeMeta zero_ObjectMeta zero_SnapshotPodTaskSpec zero_SnapshotPodTaskStatus.
Definition zero_SnapshotPodTaskList : SnapshotPodTaskListR mem :=
  @mkTaskListR mem zero_TypeMeta zero_ListMeta nil_ref.
End Zeros.


(** ** The generated functions *)

Section DeepCopy.
Context {mt : MetaTypes} {mv : MetaV1}.

Definition AutoSaveOptions_DeepCopyInto (inp : AutoSaveOptions) : M heap AutoSaveOptions :=
  mret inp.
Definition AutoSaveOptions_DeepCopy : Ref AutoSaveOptions -> M heap (Ref AutoSaveOptions) :=
  deep_copy zero_AutoSaveOptions AutoSaveOptions_DeepCopyInto.

Definition CommitOptions_DeepCopyInto (inp : CommitOptions) : M heap CommitOptions := mret inp.
Definition CommitOptions_DeepCopy : Ref CommitOptions -> M heap (Ref CommitOptions) :=
  deep_copy zero_CommitOptions CommitOptions_DeepCopyInto.

(** Although the struct has a pointer. *)
Definition ImageSaveOptions_DeepCopyInto (inp : ImageSaveOptionsR mem)
    : M heap (ImageSaveOptionsR mem) := mret inp.
Definition ImageSaveOptions_DeepCopy
    : Ref (ImageSaveOptionsR mem) -> M heap (Ref (ImageSaveOptionsR mem)) :=
  deep_copy zero_ImageSaveOptions ImageSaveOptions_DeepCopyInto.

Definition TargetPod_DeepCopyInto (inp : TargetPodR mem) : M heap (TargetPodR mem) :=
  let out := inp in
  out ← (if is_nil (m_Selector inp) then mret out
         else r ← copy_map (m_Selector inp); mret (set_m_Selector r out));
  if is_nil (m_Containers inp) then mret out
  else r ← copy_strings (m_Containers inp); mret (set_m_Containers r out).
Definition TargetPod_DeepCopy : Ref (TargetPodR mem) -> M heap (Ref (TargetPodR mem)) :=
  deep_copy zero_TargetPod TargetPod_DeepCopyInto.

Definition SnapshotPodSpec_DeepCopyInto (inp : SnapshotPodSpecR mem)
    : M heap (SnapshotPodSpecR mem) :=
  let out := inp in
  t ← TargetPod_DeepCopyInto (m_Target inp);
  let out := set_m_Target t out in
  let out := set_m_CommitOptions (m_CommitOptions inp) out in
  let out := set_m_ImageSaveOptions (m_ImageSaveOptions inp) out in
  let out := set_m_AutoSaveOptions (m_AutoSaveOptions inp) out in
  mret out.
Definition SnapshotPodSpec_DeepCopy
    : Ref (SnapshotPodSpecR mem) -> M heap (Ref (SnapshotPodSpecR mem)) :=
  deep_copy zero_SnapshotPodSpec SnapshotPodSpec_DeepCopyInto.

Definition SnapshotRunningStatus_DeepCopyInto (inp : SnapshotRunningStatusR mem)
    : M heap (SnapshotRunningStatusR mem) :=
  let out := inp in
  t ← Time_DeepCopyInto (m_TriggerTime inp);
  let out := set_m_TriggerTime t out in
  if is_nil (m_CompletedAt inp) then mret out
  else r ← Time_DeepCopy (m_CompletedAt inp); mret (set_m_CompletedAt r out).
Definition SnapshotRunningStatus_DeepCopy
    : Ref (SnapshotRunningStatusR mem) -> M heap (Ref (SnapshotRunningStatusR mem)) :=
  deep_copy zero_SnapshotRunningStatus SnapshotRunningStatus_DeepCopyInto.

Definition SnapshotPodStatus_DeepCopyInto (inp : SnapshotPodStatusR mem)
    : M heap (SnapshotPodStatusR mem) :=
  let out := inp in
  out ← (if is_nil (m_Snapshots inp) then mret out
         else r ← copy_slice zero_SnapshotRunningStatus SnapshotRunningStatus_DeepCopyInto
                    (m_Snapshots inp);
              mret (set_m_Snapshots r out));
  if is_nil (m_Conditions inp) then mret out
  else r ← copy_slice zero_Condition Condition_DeepCopyInto (m_Conditions inp);
       mret (set_m_Conditions r out).
Definition SnapshotPodStatus_DeepCopy
    : Ref (SnapshotPodStatusR mem) -> M heap (Ref (SnapshotPodStatusR mem)) :=
  deep_copy zero_SnapshotPodStatus SnapshotPodStatus_DeepCopyInto.

Definition SnapshotPod_DeepCopyInto (inp : SnapshotPodR mem) : M heap (SnapshotPodR mem) :=
  let out := inp in
  let out := set_m_TypeMeta (m_TypeMeta inp) out in
  m ← ObjectMeta_DeepCopyInto (m_ObjectMeta inp);
  let out := set_m_ObjectMeta m out in
  s ← SnapshotPodSpec_DeepCopyInto (m_Spec inp);
  let out := set_m_Spec s out in
  s ← SnapshotPodStatus_DeepCopyInto (m_Status inp);
  mret (set_m_Status s out).
Definition SnapshotPod_DeepCopy : Ref (SnapshotPodR mem) -> M heap (Ref (SnapshotPodR mem)) :=
  deep_copy zero_SnapshotPod SnapshotPod_DeepCopyInto.

Definition SnapshotPodList_DeepCopyInto (inp : SnapshotPodListR mem)
    : M heap (SnapshotPodListR mem) :=
  let out := inp in
  let out := set_m_list_TypeMeta (m_list_TypeMeta inp) out in
  m ← ListMeta_DeepCopyInto (m_ListMeta inp);
  let out := set_m_ListMeta m out in
  if is_nil (m_Items inp) then mret out
  else r ← copy_slice zero_SnapshotPod SnapshotPod_DeepCopyInto (m_Items inp);
       mret (set_m_Items r out).
Definition SnapshotPodList_DeepCopy
    : Ref (SnapshotPodListR mem) -> M heap (Ref (SnapshotPodListR mem)) :=
  deep_copy zero_SnapshotPodList SnapshotPodList_DeepCopyInto.

Definition SnapshotPodTaskSpec_DeepCopyInto (inp : SnapshotPodTaskSpec)
    : M heap SnapshotPodTaskSpec :=
  let out := inp in
  let out := set_ts_CommitOptions (ts_CommitOptions inp) out in
  mret out.
Definition SnapshotPodTaskSpec_DeepCopy
    : Ref SnapshotPodTaskSpec -> M heap (Ref SnapshotPodTaskSpec) :=
  deep_copy zero_SnapshotPodTaskSpec SnapshotPodTaskSpec_DeepCopyInto.

Definition SnapshotPodTaskStatus_DeepCopyInto (inp : SnapshotPodTaskStatusR mem)
    : M heap (SnapshotPodTaskStatusR mem) :=
  let out := inp in
  out ← (if is_nil (m_task_Conditions inp) then mret out
         else r ← copy_slice zero_Condition Condition_DeepCopyInto (m_task_Conditions inp);
              mret (set_m_task_Conditions r out));
  if is_nil (m_LastRetryTime inp) then mret out
  else r ← Time_DeepCopy (m_LastRetryTime inp); mret (set_m_LastRetryTime r out).
Definition SnapshotPodTaskStatus_DeepCopy
    : Ref (SnapshotPodTaskStatusR mem) -> M heap (Ref (SnapshotPodTaskStatusR mem)) :=
  deep_copy zero_SnapshotPodTaskStatus SnapshotPodTaskStatus_DeepCopyInto.

Definition SnapshotPodTask_DeepCopyInto (inp : SnapshotPodTaskR mem)
    : M heap (SnapshotPodTaskR mem) :=
  let out := inp in
  let out := set_m_task_TypeMeta (m_task_TypeMeta inp) out in
  m ← ObjectMeta_DeepCopyInto (m_task_ObjectMeta inp);
  let out := set_m_task_ObjectMeta m out in
  let out := set_m_task_Spec (m_task_Spec inp) out in
  s ← SnapshotPodTaskStatus_DeepCopyInto (m_task_Status inp);
  mret (set_m_task_Status s out).
Definition SnapshotPodTask_DeepCopy
    : Ref (SnapshotPodTaskR mem) -> M heap (Ref (SnapshotPodTaskR mem)) :=
  deep_copy zero_SnapshotPodTask SnapshotPodTask_DeepCopyInto.

Definition SnapshotPodTaskList_DeepCopyInto (inp : SnapshotPodTaskListR mem)
    : M heap (SnapshotPodTaskListR mem) :=
  let out := inp in
  let out := set_m_task_list_TypeMeta (m_task_list_TypeMeta inp) out in
  m ← ListMeta_DeepCopyInto (m_task_ListMeta inp);
  let out := set_m_task_ListMeta m out in
  if is_nil (m_task_Items inp) then mret out
  else r ← copy_slice zero_SnapshotPodTask SnapshotPodTask_DeepCopyInto (m_task_Items inp);
       mret (set_m_task_Items r out).
Definition SnapshotPodTaskList_DeepCopy
    : Ref (SnapshotPodTaskListR mem) -> M heap (Ref (SnapshotPodTaskListR mem)) :=
  deep_copy zero_SnapshotPodTaskList SnapshotPodTaskList_DeepCopyInto.

(** A value of the interface [runtime.Object]: nil, or a pointer with its type. *)
Inductive Object :=
| ObjSnapshotPod (p : Ref (SnapshotPodR mem))
| ObjSnapshotPodList (p : Ref (SnapshotPodListR mem))
| ObjSnapshotPodTask (p : Ref (SnapshotPodTaskR mem))
| ObjSnapshotPodTaskList (p : Ref (SnapshotPodTaskListR mem)).

(** [if c := in.DeepCopy(); c != nil { return c }; return nil] *)
Definition copy_object {A} (DeepCopy : Ref A -> M heap (Ref A)) (obj : Ref A -> Object) (inp : Ref A)
    : M heap (option Object) :=
  c ← DeepCopy inp;
  if negb (is_nil c) then mret (Some (obj c)) else mret None.

Definition SnapshotPod_DeepCopyObject := copy_object SnapshotPod_DeepCopy ObjSnapshotPod.
Definition SnapshotPodList_DeepCopyObject :=
  copy_object SnapshotPodList_DeepCopy ObjSnapshotPodList.
Definition SnapshotPodTask_DeepCopyObject :=
  copy_object SnapshotPodTask_DeepCopy ObjSnapshotPodTask.
Definition SnapshotPodTaskList_DeepCopyObject :=
  copy_object SnapshotPodTaskList_DeepCopy ObjSnapshotPodTaskList.
End DeepCopy.

(** ** The meaning of the structs *)

#[export] Instance leaf_string {mt : MetaTypes} : Struct string string := struct_leaf _.
#[export] Instance leaf_Z {mt : MetaTypes} : Struct Z Z := struct_leaf _.
#[export] Instance leaf_bool {mt : MetaTypes} : Struct bool bool := struct_leaf _.
#[export] Instance leaf_map {mt : MetaTypes} : Struct (gmap string string) (gmap string string) :=
  struct_leaf _.
#[export] Instance leaf_strings {mt : MetaTypes} : Struct (list string) (list string) | 0 :=
  struct_leaf _.
#[export] Instance leaf_Condition {mt : MetaTypes} : Struct Condition Condition := struct_leaf _.
#[export] Instance leaf_CommitOptions {mt : MetaTypes} : Struct CommitOptions CommitOptions :=
  struct_leaf _.
#[export] Instance leaf_AutoSaveOptions {mt : MetaTypes} : Struct AutoSaveOptions AutoSaveOptions :=
  struct_leaf _.
#[export] Instance leaf_TaskSpec {mt : MetaTypes} : Struct SnapshotPodTaskSpec SnapshotPodTaskSpec :=
  struct_leaf _.
#[export] Instance leaf_TypeMeta {mt : MetaTypes} : Struct TypeMeta TypeMeta := struct_leaf _.

(** What the program relies on of Kubernetes' deep copies. *)
Class MetaV1Laws {mt : MetaTypes} {mv : MetaV1} := {
  struct_ObjectMeta :: Struct ObjectMetaM ObjectMetaT;
  struct_ListMeta :: Struct ListMetaM ListMetaT;
  ObjectMeta_copies (m : ObjectMetaM) : copies (ObjectMeta_DeepCopyInto m) m;
  ListMeta_copies (m : ListMetaM) : copies (ListMeta_DeepCopyInto m) m;
  ObjectMeta_unshared h (m : ObjectMetaM) : shared h m = [];
  ListMeta_unshared h (m : ListMetaM) : shared h m = [];
  Condition_copies (c : Condition) : copies (Condition_DeepCopyInto c) c;
  Time_copies (t : Time) : copies (Time_DeepCopyInto t) t;
  Time_pointer_copies (r : Ref Time) : copies (Time_DeepCopy r) r
}.

Section Meaning.
Context {mt : MetaTypes} {mv : MetaV1} {laws : MetaV1Laws}.

(** The fields in the order in which they are copied. *)
#[export] Instance struct_TargetPod : Struct (TargetPodR mem) (TargetPodR tree) :=
  struct_fields
    (fun t : TargetPodR mem =>
       (m_Name t, (m_Selector t : Ref _, m_Containers t : Ref (list string))))
    (fun '(n, (s, c)) => @mkTarget tree n s c).

(** The pointer in the options is shared. *)
#[export] Instance struct_ImageSaveOptions : Struct (ImageSaveOptionsR mem) (ImageSaveOptionsR tree) :=
  struct_fields
    (fun o : ImageSaveOptionsR mem =>
       (m_ImageRefFormat o, (m_RegistrySecretRef o,
         (mkShared (m_AppendSnappedSuffix o : Ref bool),
           (m_MaxRetries o, m_RetryDelaySeconds o)))))
    (fun '(f, (s, (a, (n, d)))) => @mkOptions tree f s a n d).

#[export] Instance struct_SnapshotPodSpec : Struct (SnapshotPodSpecR mem) (SnapshotPodSpecR tree) :=
  struct_fields
    (fun s : SnapshotPodSpecR mem =>
       (m_Target s, (m_CommitOptions s, (m_ImageSaveOptions s, (m_AutoSaveOptions s,
         (m_TriggerRound s, m_RecoveryRound s))))))
    (fun '(t, (c, (i, (a, (n, r))))) => @mkSpecR tree t c i a n r).

#[export] Instance struct_SnapshotRunningStatus
    : Struct (SnapshotRunningStatusR mem) (SnapshotRunningStatusR tree) :=
  struct_fields
    (fun s : SnapshotRunningStatusR mem =>
       (m_run_TriggerRound s, (m_TriggerTime s, (m_TaskName s, (m_ImageRef s, (m_ContainerName s,
         (m_Result s, (m_FailedReason s, m_CompletedAt s : Ref Time))))))))
    (fun '(n, (t, (k, (i, (c, (r, (f, d))))))) => @mkRunR tree n t k i c r f d).

#[export] Instance struct_SnapshotPodStatus
    : Struct (SnapshotPodStatusR mem) (SnapshotPodStatusR tree) :=
  struct_fields
    (fun s : SnapshotPodStatusR mem =>
       (m_Snapshots s : Ref (list (SnapshotRunningStatusR mem)),
         (m_Conditions s : Ref (list Condition), m_LastTriggerRound s)))
    (fun '(r, (c, n)) => @mkStatusR tree r c n).

#[export] Instance struct_SnapshotPod : Struct (SnapshotPodR mem) (SnapshotPodR tree) :=
  struct_fields
    (fun s : SnapshotPodR mem =>
       (m_TypeMeta s, (m_ObjectMeta s : ObjectMetaM, (m_Spec s, m_Status s))))
    (fun '(t, (m, (s, u))) => @mkSpR tree t m s u).

#[export] Instance struct_SnapshotPodList : Struct (SnapshotPodListR mem) (SnapshotPodListR tree) :=
  struct_fields
    (fun s : SnapshotPodListR mem =>
       (m_list_TypeMeta s, (m_ListMeta s : ListMetaM, m_Items s : Ref (list (SnapshotPodR mem)))))
    (fun '(t, (m, i)) => @mkSpListR tree t m i).

#[export] Instance struct_SnapshotPodTaskStatus
    : Struct (SnapshotPodTaskStatusR mem) (SnapshotPodTaskStatusR tree) :=
  struct_fields
    (fun s : SnapshotPodTaskStatusR mem =>
       (m_task_Conditions s : Ref (list Condition), (m_Phase s, (m_RetryCount s,
         m_LastRetryTime s : Ref Time))))
    (fun '(c, (p, (n, t))) => @mkTaskStatusR tree c p n t).

#[export] Instance struct_SnapshotPodTask : Struct (SnapshotPodTaskR mem) (SnapshotPodTaskR tree) :=
  struct_fields
    (fun s : SnapshotPodTaskR mem =>
       (m_task_TypeMeta s, (m_task_ObjectMeta s : ObjectMetaM, (m_task_Spec s, m_task_Status s))))
    (fun '(t, (m, (s, u))) => @mkTaskR tree t m s u).

#[export] Instance struct_SnapshotPodTaskList
    : Struct (SnapshotPodTaskListR mem) (SnapshotPodTaskListR tree) :=
  struct_fields
    (fun s : SnapshotPodTaskListR mem =>
       (m_task_list_TypeMeta s, (m_task_ListMeta s : ListMetaM,
         m_task_Items s : Ref (list (SnapshotPodTaskR mem)))))
    (fun '(t, (m, i)) => @mkTaskListR tree t m i).

(** ** Each function makes copies *)

Lemma AutoSaveOptions_copies s : copies (AutoSaveOptions_DeepCopyInto s) s.
Proof. intros w Hd. apply wp_ret. split; [by apply copied_same|done]. Qed.
Lemma CommitOptions_copies s : copies (CommitOptions_DeepCopyInto s) s.
Proof. intros w Hd. apply wp_ret. split; [by apply copied_same|done]. Qed.
Lemma ImageSaveOptions_copies s : copies (ImageSaveOptions_DeepCopyInto s) s.
Proof. intros w Hd. apply wp_ret. split; [by apply copied_same|done]. Qed.
Lemma TaskSpec_copies s : copies (SnapshotPodTaskSpec_DeepCopyInto s) s.
Proof. intros w Hd. apply wp_ret. split; [destruct s; by apply copied_same|done]. Qed.

Lemma TargetPod_copies t : copies (TargetPod_DeepCopyInto t) t.
Proof.
  intros w [_ [Hs Hc]%deep_pair_is_Some]%deep_fields_is_Some%deep_pair_is_Some.
  unfold TargetPod_DeepCopyInto. apply wp_bind.
  apply (wp_copy_field (copy_map (m_Selector t)) (m_Selector t) (fun r => set_m_Selector r t));
    [apply copies_copy_map|done|by destruct t|]. intros s' w1 Hs' Ht1.
  apply (wp_copy_field (copy_strings (m_Containers t)) (m_Containers t)
           (fun r => set_m_Containers r (set_m_Selector s' t)));
    [apply copies_copy_strings|by eapply deep_is_Some_mono, Hs'|by destruct t|].
  intros c' w2 Hc' Ht2. split; [|etrans; [exact Ht2|exact Ht1]].
  apply copied_fields, copied_pair_same; [done..|]. by eapply copied_pair.
Qed.

Lemma SnapshotPodSpec_copies s : copies (SnapshotPodSpec_DeepCopyInto s) s.
Proof.
  intros w [Ht Hr]%deep_fields_is_Some%deep_pair_is_Some.
  unfold SnapshotPodSpec_DeepCopyInto. apply wp_bind.
  eapply wp_mono; [by apply TargetPod_copies|]. intros t' w1 [Ht' Ht1].
  apply wp_ret. split; [|done]. by apply copied_fields, copied_same_pair.
Qed.

Lemma SnapshotRunningStatus_copies s : copies (SnapshotRunningStatus_DeepCopyInto s) s.
Proof.
  intros w [_ [_ Hr]%deep_pair_is_Some]%deep_fields_is_Some%deep_pair_is_Some.
  pose proof Hr as Hc. do 5 apply deep_pair_is_Some, proj2 in Hc.
  unfold SnapshotRunningStatus_DeepCopyInto. apply wp_bind.
  eapply wp_mono; [by apply Time_copies|]. intros t' w1 [Ht' Ht1].
  apply (wp_copy_field (Time_DeepCopy (m_CompletedAt s)) (m_CompletedAt s)
           (fun r => set_m_CompletedAt r (set_m_TriggerTime t' s)));
    [intros _; apply Time_pointer_copies|by eapply deep_is_Some_mono, Ht'|by destruct s|].
  intros c' w2 Hc' Ht2. split; [|etrans; [exact Ht2|exact Ht1]].
  apply copied_fields, copied_pair_same; [done..|]. eapply copied_pair; [done| |done].
  do 5 (apply copied_pair_same; [done..|]). done.
Qed.

Lemma SnapshotPodStatus_copies s : copies (SnapshotPodStatus_DeepCopyInto s) s.
Proof.
  intros w [Hs [Hc Hn]%deep_pair_is_Some]%deep_fields_is_Some%deep_pair_is_Some.
  unfold SnapshotPodStatus_DeepCopyInto. apply wp_bind.
  apply (wp_copy_field (copy_slice zero_SnapshotRunningStatus SnapshotRunningStatus_DeepCopyInto
           (m_Snapshots s)) (m_Snapshots s) (fun r => set_m_Snapshots r s));
    [apply copies_copy_slice, SnapshotRunningStatus_copies|done|by destruct s|].
  intros s' w1 Hs' Ht1.
  apply (wp_copy_field (copy_slice zero_Condition Condition_DeepCopyInto (m_Conditions s))
           (m_Conditions s) (fun r => set_m_Conditions r (set_m_Snapshots s' s)));
    [apply copies_copy_slice, Condition_copies|by eapply deep_is_Some_mono, Hs'|by destruct s|].
  intros c' w2 Hc' Ht2. split; [|etrans; [exact Ht2|exact Ht1]].
  apply copied_fields. eapply copied_pair; [done|by apply copied_same_pair|].
  by eapply deep_pair_is_Some_2.
Qed.

Lemma SnapshotPod_copies s : copies (SnapshotPod_DeepCopyInto s) s.
Proof.
  intros w [_ [Hm [Hs Hu]%deep_pair_is_Some]%deep_pair_is_Some]%deep_fields_is_Some%deep_pair_is_Some.
  unfold SnapshotPod_DeepCopyInto. apply wp_bind.
  eapply wp_mono; [by apply ObjectMeta_copies|]. intros m' w1 [Hm' Ht1]. apply wp_bind.
  eapply wp_mono; [apply SnapshotPodSpec_copies; by eapply deep_is_Some_mono, Hm'|].
  intros s' w2 [Hs' Ht2]. apply wp_bind.
  eapply wp_mono; [apply SnapshotPodStatus_copies; eapply deep_is_Some_mono, Hs';
    by eapply deep_is_Some_mono, Hm'|].
  intros u' w3 [Hu' Ht3]. apply wp_ret. split; [|etrans; [exact Ht3|etrans; [exact Ht2|exact Ht1]]].
  apply copied_fields, copied_pair_same; [done..|]. eapply copied_pair; [done| |].
  - eapply copied_pair; [done..|]. by eapply deep_is_Some_mono, Hm'.
  - by eapply deep_pair_is_Some_2.
Qed.

Lemma SnapshotPodList_copies s : copies (SnapshotPodList_DeepCopyInto s) s.
Proof.
  intros w [_ [Hm Hi]%deep_pair_is_Some]%deep_fields_is_Some%deep_pair_is_Some.
  unfold SnapshotPodList_DeepCopyInto. apply wp_bind.
  eapply wp_mono; [by apply ListMeta_copies|]. intros m' w1 [Hm' Ht1].
  apply (wp_copy_field (copy_slice zero_SnapshotPod SnapshotPod_DeepCopyInto (m_Items s)) (m_Items s)
           (fun r => set_m_Items r (set_m_ListMeta m' (set_m_list_TypeMeta (m_list_TypeMeta s) s))));
    [apply copies_copy_slice, SnapshotPod_copies|by eapply deep_is_Some_mono, Hm'|by destruct s|].
  intros i' w2 Hi' Ht2. split; [|etrans; [exact Ht2|exact Ht1]].
  apply copied_fields, copied_pair_same; [done..|]. by eapply copied_pair.
Qed.

Lemma SnapshotPodTaskStatus_copies s : copies (SnapshotPodTaskStatus_DeepCopyInto s) s.
Proof.
  intros w [Hc Hr]%deep_fields_is_Some%deep_pair_is_Some.
  pose proof Hr as Hl. do 2 apply deep_pair_is_Some, proj2 in Hl.
  unfold SnapshotPodTaskStatus_DeepCopyInto. apply wp_bind.
  apply (wp_copy_field (copy_slice zero_Condition Condition_DeepCopyInto (m_task_Conditions s))
           (m_task_Conditions s) (fun r => set_m_task_Conditions r s));
    [apply copies_copy_slice, Condition_copies|done|by destruct s|].
  intros c' w1 Hc' Ht1.
  apply (wp_copy_field (Time_DeepCopy (m_LastRetryTime s)) (m_LastRetryTime s)
           (fun r => set_m_LastRetryTime r (set_m_task_Conditions c' s)));
    [intros _; apply Time_pointer_copies|by eapply deep_is_Some_mono, Hc'|by destruct s|].
  intros l' w2 Hl' Ht2. split; [|etrans; [exact Ht2|exact Ht1]].
  apply copied_fields. eapply copied_pair; [done| |done].
  do 2 (apply copied_pair_same; [done..|]). done.
Qed.

Lemma SnapshotPodTask_copies s : copies (SnapshotPodTask_DeepCopyInto s) s.
Proof.
  intros w [_ [Hm Hr]%deep_pair_is_Some]%deep_fields_is_Some%deep_pair_is_Some.
  pose proof Hr as [_ Hu]%deep_pair_is_Some.
  unfold SnapshotPodTask_DeepCopyInto. apply wp_bind.
  eapply wp_mono; [by apply ObjectMeta_copies|]. intros m' w1 [Hm' Ht1]. apply wp_bind.
  eapply wp_mono; [apply SnapshotPodTaskStatus_copies; by eapply deep_is_Some_mono, Hm'|].
  intros u' w2 [Hu' Ht2]. apply wp_ret. split; [|etrans; [exact Ht2|exact Ht1]].
  apply copied_fields, copied_pair_same; [done..|]. eapply copied_pair; [done| |done].
  by apply copied_pair_same.
Qed.

Lemma SnapshotPodTaskList_copies s : copies (SnapshotPodTaskList_DeepCopyInto s) s.
Proof.
  intros w [_ [Hm Hi]%deep_pair_is_Some]%deep_fields_is_Some%deep_pair_is_Some.
  unfold SnapshotPodTaskList_DeepCopyInto. apply wp_bind.
  eapply wp_mono; [by apply ListMeta_copies|]. intros m' w1 [Hm' Ht1].
  apply (wp_copy_field (copy_slice zero_SnapshotPodTask SnapshotPodTask_DeepCopyInto (m_task_Items s))
           (m_task_Items s)
           (fun r => set_m_task_Items r
              (set_m_task_ListMeta m' (set_m_task_list_TypeMeta (m_task_list_TypeMeta s) s))));
    [apply copies_copy_slice, SnapshotPodTask_copies|by eapply deep_is_Some_mono, Hm'|by destruct s|].
  intros i' w2 Hi' Ht2. split; [|etrans; [exact Ht2|exact Ht1]].
  apply copied_fields, copied_pair_same; [done..|]. by eapply copied_pair.
Qed.

(** ** What is shared *)

(** The address in [AppendSnappedSuffix]. *)
Definition suffix_ref (s : SnapshotPodR mem) : list loc :=
  option_list (addr (m_AppendSnappedSuffix (m_ImageSaveOptions (m_Spec s)) : Ref bool)).

Lemma flat_map_nil {A B} (f : A -> list B) l : (forall a, f a = []) -> flat_map f l = [].
Proof. intros Hf. induction l as [|a l IH]; [done|]. cbn. by rewrite Hf, IH. Qed.

(** A pointer to a struct without references shares nothing. *)
Lemma shared_ref {A B} {CA : Cell A} {SA : Struct A B} (h : heap) (r : Ref A) :
  (forall a, shared h a = []) -> @shared _ _ _ struct_ref h r = [].
Proof. intros Hs. destruct r as [[l|]]; [|done]. cbn. by destruct (get_cell h l). Qed.

Lemma shared_TargetPod h (t : TargetPodR mem) : shared h t = [].
Proof.
  change (@shared _ _ _ struct_ref h (m_Selector t : Ref (gmap string string)) ++
          @shared _ _ _ struct_ref h (m_Containers t : Ref (list string)) = []).
  by rewrite !shared_ref.
Qed.

Lemma shared_SnapshotPodStatus h (s : SnapshotPodStatusR mem) : shared h s = [].
Proof.
  change (@shared _ _ _ struct_ref h (m_Snapshots s : Ref (list (SnapshotRunningStatusR mem))) ++
          @shared _ _ _ struct_ref h (m_Conditions s : Ref (list Condition)) ++ [] = []).
  rewrite !shared_ref; [done|intros l; by apply flat_map_nil..|].
  intros l. apply flat_map_nil. intros r.
  exact (shared_ref h (m_CompletedAt r : Ref Time) (fun _ => eq_refl)).
Qed.

Lemma shared_SnapshotPod h (s : SnapshotPodR mem) : shared h s = suffix_ref s.
Proof.
  change (shared h (m_ObjectMeta s : ObjectMetaM) ++ (shared h (m_Target (m_Spec s)) ++
            ((@owned _ _ _ struct_ref h
               (m_AppendSnappedSuffix (m_ImageSaveOptions (m_Spec s)) : Ref bool) ++
              @shared _ _ _ struct_ref h
               (m_AppendSnappedSuffix (m_ImageSaveOptions (m_Spec s)) : Ref bool)) ++ []) ++ []) ++
          shared h (m_Status s) = suffix_ref s).
  rewrite ObjectMeta_unshared, shared_TargetPod, shared_SnapshotPodStatus, shared_ref by done.
  rewrite !app_nil_r. cbn. unfold suffix_ref.
  destruct (m_AppendSnappedSuffix _) as [[l|]]; [|done]. cbn. by destruct (get_cell h l).
Qed.

Lemma shared_SnapshotPodTask h (s : SnapshotPodTaskR mem) : shared h s = [].
Proof.
  change (shared h (m_task_ObjectMeta s : ObjectMetaM) ++
    @shared _ _ _ struct_ref h (m_task_Conditions (m_task_Status s) : Ref (list Condition)) ++
    @shared _ _ _ struct_ref h (m_LastRetryTime (m_task_Status s) : Ref Time) = []).
  rewrite ObjectMeta_unshared, !shared_ref; [done..|]. intros l. by apply flat_map_nil.
Qed.

Definition pointee {A} {CA : Cell A} (h : heap) (r : Ref A) : option A :=
  l ← addr r; get_cell h l.

(** The addresses of the flags of an object, and of all the items of a list. *)
Definition object_suffixes (h : heap) (p : Ref (SnapshotPodR mem)) : list loc :=
  from_option suffix_ref [] (pointee h p).
Definition list_suffixes (h : heap) (p : Ref (SnapshotPodListR mem)) : list loc :=
  from_option (fun l : SnapshotPodListR mem => from_option (flat_map suffix_ref) []
                          (pointee h (m_Items l : Ref (list (SnapshotPodR mem))))) []
    (pointee h p).

Lemma shared_pointee {A B} {CA : Cell A} {SA : Struct A B} (h : heap) (r : Ref A) :
  @shared _ _ _ struct_ref h r = from_option (shared h) [] (pointee h r).
Proof. destruct r as [[l|]]; [|done]. cbn. by destruct (get_cell h l). Qed.

Lemma shared_object h p : @shared _ _ _ struct_ref h p = object_suffixes h p.
Proof.
  rewrite shared_pointee. unfold object_suffixes. destruct (pointee h p) as [s|]; [|done].
  apply shared_SnapshotPod.
Qed.

Lemma shared_object_list h p : @shared _ _ _ struct_ref h p = list_suffixes h p.
Proof.
  rewrite shared_pointee. unfold list_suffixes. destruct (pointee h p) as [l|]; [|done].
  cbn [from_option]. change (shared h (m_ListMeta l : ListMetaM) ++
    @shared _ _ _ struct_ref h (m_Items l : Ref (list (SnapshotPodR mem))) = from_option
      (flat_map suffix_ref) [] (pointee h (m_Items l : Ref (list (SnapshotPodR mem))))).
  rewrite ListMeta_unshared, shared_pointee.
  destruct (pointee h (m_Items l : Ref (list (SnapshotPodR mem)))) as [xs|]; [|done].
  cbn. apply flat_map_ext. apply shared_SnapshotPod.
Qed.

Lemma shared_task h (p : Ref (SnapshotPodTaskR mem)) : @shared _ _ _ struct_ref h p = [].
Proof. apply shared_ref. intros s. apply shared_SnapshotPodTask. Qed.

Lemma shared_task_list h (p : Ref (SnapshotPodTaskListR mem)) : @shared _ _ _ struct_ref h p = [].
Proof.
  apply shared_ref. intros l. change (shared h (m_task_ListMeta l : ListMetaM) ++
    @shared _ _ _ struct_ref h (m_task_Items l : Ref (list (SnapshotPodTaskR mem))) = []).
  rewrite ListMeta_unshared, shared_ref; [done|]. intros xs. apply flat_map_nil.
  apply shared_SnapshotPodTask.
Qed.

(** ** [DeepCopyObject]

    What it promises for a type: the nil interface for a nil pointer, and else a
    new pointer of the type, the copy, with the addresses that are shared. *)
Definition object_copied {A D} {CA : Cell A} {SA : Struct A D} (obj : Ref A -> Object)
    (sharing : list loc) (p : Ref A) (h0 : heap) (o : option Object) (h : heap) : Prop :=
  match addr p with
  | None => o = None /\ h = h0
  | Some _ =>
      exists q, o = Some (obj q) /\ is_nil q = false /\ copied (SS := struct_ref) h0 h p q /\
        @shared _ _ _ struct_ref h q = sharing /\ independent (SS := struct_ref) h0 h p q sharing
  end.

Lemma wp_copy_object {A D} {CA : Cell A} {SA : Struct A D} zero into obj (p : Ref A) w :
  (forall s, copies (into s) s) -> is_Some (@deep _ _ _ struct_ref (w_ext w) p) ->
  wp (copy_object (deep_copy zero into) obj p)
     (fun o w' => object_copied obj (@shared _ _ _ struct_ref (w_ext w) p) p (w_ext w) o (w_ext w') /\
        w_trace w' = w_trace w) w.
Proof.
  intros Hinto Hd. unfold copy_object, object_copied. destruct (addr p) as [l|] eqn:Hp.
  - apply wp_bind. eapply wp_mono; [by apply copies_deep_copy|]. intros q w' [Hc Ht].
    destruct (is_nil q) eqn:Hq.
    + exfalso. destruct Hc as (_ & _ & Hdq & _). destruct q as [[k|]]; [done|]. cbn in Hdq.
      rewrite Hp in Hdq. destruct Hd as [d Hd]. cbn in Hd. rewrite Hp in Hd.
      rewrite Hd in Hdq. injection Hdq as <-.
      apply bind_Some in Hd as (a & _ & (b & _ & [=])%fmap_Some).
    + apply wp_ret. split; [|done]. exists q. split_and!; [done..|apply Hc|].
      by apply copied_independent.
  - unfold deep_copy. rewrite Hp. apply wp_bind, wp_ret. by apply wp_ret.
Qed.

(** [C11] [DeepCopyObject] of a well-typed object of each of the four types returns a
    pointer of the same type to a separate object with the same content:
    everything it owns is new, the original is as it was, and no later write to
    one is seen in the other.  The exception is the flag [AppendSnappedSuffix],
    whose address a SnapshotPod and its copy share.  The copy of a nil pointer is
    a nil interface, and nothing else is done. *)
Theorem DeepCopyObject_copies w :
  (forall p, is_Some (deep (w_ext w) p) ->
     wp (SnapshotPod_DeepCopyObject p) (fun o w' =>
       object_copied ObjSnapshotPod (object_suffixes (w_ext w) p) p (w_ext w) o (w_ext w') /\
       w_trace w' = w_trace w) w) /\
  (forall p, is_Some (deep (w_ext w) p) ->
     wp (SnapshotPodList_DeepCopyObject p) (fun o w' =>
       object_copied ObjSnapshotPodList (list_suffixes (w_ext w) p) p (w_ext w) o (w_ext w') /\
       w_trace w' = w_trace w) w) /\
  (forall p, is_Some (deep (w_ext w) p) ->
     wp (SnapshotPodTask_DeepCopyObject p) (fun o w' =>
       object_copied ObjSnapshotPodTask [] p (w_ext w) o (w_ext w') /\ w_trace w' = w_trace w) w) /\
  (forall p, is_Some (deep (w_ext w) p) ->
     wp (SnapshotPodTaskList_DeepCopyObject p) (fun o w' =>
       object_copied ObjSnapshotPodTaskList [] p (w_ext w) o (w_ext w') /\
       w_trace w' = w_trace w) w).
Proof.
  split_and!; intros p Hd.
  - rewrite <- shared_object. apply wp_copy_object; [apply SnapshotPod_copies|done].
  - rewrite <- shared_object_list. apply wp_copy_object; [apply SnapshotPodList_copies|done].
  - rewrite <- (shared_task (w_ext w) p). apply wp_copy_object; [apply SnapshotPodTask_copies|done].
  - rewrite <- (shared_task_list (w_ext w) p).
    apply wp_copy_object; [apply SnapshotPodTaskList_copies|done].
Qed.

(** A write through the flag of a copy is seen in the original.  [a] is the address
    of an object and [l] that of its flag. *)
Lemma SnapshotPod_DeepCopy_shares_suffix w a l s (b : bool) :
  get_cell (w_ext w) a = Some s -> suffix_ref s = [l] -> is_Some (deep (w_ext w) s) ->
  wp (SnapshotPod_DeepCopy (mkRef (Some a))) (fun q w' =>
    exists s', pointee (w_ext w') q = Some s' /\ suffix_ref s' = [l]) w.
Proof.
  intros Ha Hl Hd. pose proof (struct_ref_deep _ _ _ Ha Hd) as Hda.
  eapply wp_mono; [by apply copies_deep_copy; [apply SnapshotPod_copies|]|].
  intros q w' [(_ & _ & _ & _ & _ & Hs) _].
  rewrite !shared_object in Hs. unfold object_suffixes in Hs.
  assert (pointee (w_ext w) (mkRef (Some a)) = Some s) as He by exact Ha. rewrite He in Hs.
  cbn [from_option] in Hs. rewrite Hl in Hs.
  destruct (pointee (w_ext w') q) as [s'|]; [|done]. by exists s'.
Qed.
End Meaning.

(** ** A metadata struct with labels *)

Module DeepCopyWitnesses.

Record SmallMeta := mkMeta { sm_Name : string; sm_Labels : Ref (gmap string string) }.
Record SmallMetaT := mkMetaT { smt_Name : string; smt_Labels : option (gmap string string) }.

#[export] Instance small_types : MetaTypes :=
  {| ObjectMetaM := SmallMeta; ObjectMetaT := SmallMetaT; ListMetaM := string; ListMetaT := string;
     Foreign := Empty_set |}.

Definition small_DeepCopyInto (m : SmallMeta) : M heap SmallMeta :=
  if is_nil (sm_Labels m) then mret m
  else r ← copy_map (sm_Labels m); mret (mkMeta (sm_Name m) r).

#[export] Instance small_meta : MetaV1 :=
  {| ObjectMeta_DeepCopyInto := small_DeepCopyInto;
     ListMeta_DeepCopyInto := mret;
     Condition_DeepCopyInto := mret;
     Time_DeepCopyInto := mret;
     Time_DeepCopy := deep_copy 0 mret;
     zero_ObjectMeta := mkMeta "" nil_ref;
     zero_ListMeta := "" |}.

Lemma copies_mret {S D} {SS : Struct S D} (s : S) :
  (forall h, owned h s = []) -> copies (mret s) s.
Proof. intros Ho w Hd. apply wp_ret. split; [by apply copied_same|done]. Qed.

#[export] Instance struct_small : Struct SmallMeta SmallMetaT :=
  struct_fields (fun m => (sm_Name m, sm_Labels m)) (fun '(n, l) => mkMetaT n l).

Lemma small_copies m : copies (small_DeepCopyInto m) m.
Proof.
  intros w [_ Hl]%deep_fields_is_Some%deep_pair_is_Some.
  apply (wp_copy_field (copy_map (sm_Labels m)) (sm_Labels m) (mkMeta (sm_Name m)));
    [apply copies_copy_map|done|by destruct m|].
  intros r w' Hc Ht. split; [|done]. apply copied_fields. by apply copied_pair_same.
Qed.

#[export, program] Instance small_laws : MetaV1Laws :=
  {| struct_ObjectMeta := struct_small; struct_ListMeta := leaf_string |}.
Next Obligation. apply small_copies. Qed.
Next Obligation. by intros m; apply copies_mret. Qed.
Next Obligation. intros h m. exact (shared_ref h (sm_Labels m) (fun _ => eq_refl)). Qed.
Next Obligation. done. Qed.
Next Obligation. by intros c; apply copies_mret. Qed.
Next Obligation. by intros t; apply copies_mret. Qed.
Next Obligation. intros r. apply copies_deep_copy. intros t. by apply copies_mret. Qed.

(** An object at address 1 with labels, a selector, a flag and one finished run. *)
Definition run : SnapshotRunningStatusR mem :=
  @mkRunR mem 1 170 "task" "reg/img:v1" "main" "Succeeded" "" (mkRef (Some 6%positive)).
Definition object : SnapshotPodR mem :=
  @mkSpR mem {| tm_Kind := "SnapshotPod"; tm_APIVersion := "v1" |}
    (mkMeta "sp" (mkRef (Some 2%positive)))
    (@mkSpecR mem (@mkTarget mem "" (mkRef (Some 3%positive)) nil_ref) zero_CommitOptions
       (@mkOptions mem "{name}" "secret" (mkRef (Some 4%positive)) 3 10) zero_AutoSaveOptions 1 0)
    (@mkStatusR mem (mkRef (Some 5%positive)) nil_ref 1).
Definition labels : gmap string string := {["app" := "notebook"]}.
Definition memory : heap :=
  <[1%positive := to_cell object]> (<[2%positive := to_cell labels]> (<[3%positive := to_cell labels]>
    (<[4%positive := to_cell true]> (<[5%positive := to_cell [run]]>
      (<[6%positive := to_cell (180 : Time)]> ∅))))).
Definition world : World heap :=
  mkWorld memory ∅ (fun _ => 0) O (fun _ => "") O (fun _ => O) O [].
Definition pointer : Ref (SnapshotPodR mem) := mkRef (Some 1%positive).

Lemma pointer_ok : is_Some (deep (w_ext world) pointer).
Proof. eexists. vm_compute. reflexivity. Defined.

(** The flag of the tree behind a pointer. *)
Definition flag (h : heap) (p : Ref (SnapshotPodR mem)) : option bool :=
  match (deep h p : option (option (SnapshotPodR tree))) with
  | Some (Some s) => m_AppendSnappedSuffix (m_ImageSaveOptions (m_Spec s))
  | _ => None
  end.

(** [( *c.Spec.ImageSaveOptions.AppendSnappedSuffix) = false] on a copy [c] of the
    object changes the object. *)
Lemma shared_flag_example :
  flag memory pointer = Some true /\
  fst ((c ← SnapshotPod_DeepCopy pointer;
        store 4%positive false ;;
        external (fun h => ((flag h pointer, flag h c), h))) world)
  = Ret (Some false, Some false).
Proof. split; vm_compute; reflexivity. Qed.

Lemma DeepCopyObject_copies_witness :
  is_Some (deep (w_ext world) pointer) /\ object_suffixes memory pointer = [4%positive] /\
  wp (SnapshotPod_DeepCopyObject pointer) (fun o w' =>
    object_copied ObjSnapshotPod (object_suffixes (w_ext world) pointer) pointer (w_ext world) o
      (w_ext w') /\ w_trace w' = w_trace world) world.
Proof.
  split; [exact pointer_ok|]. split; [vm_compute; reflexivity|].
  exact (proj1 (DeepCopyObject_copies world) pointer pointer_ok).
Defined.
End DeepCopyWitnesses.
