(* ===== verification/Lo.v ===== *)
(** * The library [github.com/samber/lo]

    The generic slice and map helpers the program calls are third-party code:
    the class [Lo] has one operation per helper and, as its laws, what the
    library's documentation says of it.  Every definition and theorem of the
    development is generic in the instance; [lo_std] is one instance, used by
    the concrete runs.

    The callbacks are Go closures.  Those the program passes are pure, except
    the predicate given to [SomeBy], which reads the clock: [lo_SomeBy] takes
    a closure in the monad and its law says that the closure is called on the
    elements from the left, up to the first for which it returns true. *)

From S2P Require Import Prelude World.

Fixpoint some_by {E A} (l : list A) (f : A -> M E bool) : M E bool :=
  match l with
  | [] => mret false
  | x :: xs => b ← f x; if (b : bool) then mret true else some_by xs f
  end.

Class Lo := {
  lo_Map {A B : Type} : list A -> (A -> nat -> B) -> list B;
  lo_Filter {A : Type} : list A -> (A -> nat -> bool) -> list A;
  lo_Find {A : Type} : list A -> (A -> bool) -> option A;
  lo_FindIndexOf {A : Type} : list A -> (A -> bool) -> option nat;
  lo_ContainsBy {A : Type} : list A -> (A -> bool) -> bool;
  lo_Contains : list string -> string -> bool;
  lo_Without : list string -> list string -> list string;
  lo_EveryBy {A : Type} : list A -> (A -> bool) -> bool;
  lo_SomeBy {E A : Type} : list A -> (A -> M E bool) -> M E bool;
  lo_SliceToMap {A B : Type} : list A -> (A -> string * B) -> gmap string B;
  lo_Last : list string -> string;
  lo_Keys {A : Type} : gmap string A -> list string;
  lo_Entries {A : Type} : gmap string A -> list (string * A);
  (* the closure changes a variable of type [S] of its environment *)
  lo_ForEach {A S : Type} : list A -> (S -> A -> S) -> S -> S;

  lo_Map_law {A B : Type} (l : list A) (f : A -> B) : lo_Map l (fun x _ => f x) = map f l;
  lo_Filter_law {A : Type} (l : list A) (f : A -> bool) :
    lo_Filter l (fun x _ => f x) = List.filter f l;
  lo_Find_law {A : Type} (l : list A) (f : A -> bool) : lo_Find l f = List.find f l;
  lo_FindIndexOf_law {A : Type} (l : list A) (f : A -> bool) :
    lo_FindIndexOf l f = find_index f l;
  lo_ContainsBy_law {A : Type} (l : list A) (f : A -> bool) : lo_ContainsBy l f = existsb f l;
  lo_Contains_law (l : list string) (x : string) : lo_Contains l x = bool_decide (x ∈ l);
  lo_Without_law (l ex : list string) :
    lo_Without l ex = List.filter (fun x => negb (bool_decide (x ∈ ex))) l;
  lo_EveryBy_law {A : Type} (l : list A) (f : A -> bool) : lo_EveryBy l f = forallb f l;
  lo_SomeBy_law {E A : Type} (l : list A) (f : A -> M E bool) (w : World E) :
    lo_SomeBy l f w = some_by l f w;
  (* later entries overwrite earlier ones *)
  lo_SliceToMap_law {A B : Type} (l : list A) (f : A -> string * B) :
    lo_SliceToMap l f = foldl (fun m x => <[fst (f x) := snd (f x)]> m) ∅ l;
  lo_Last_law (l : list string) : lo_Last l = default "" (last l);
  lo_Keys_law {A : Type} (m : gmap string A) : lo_Keys m ≡ₚ map fst (map_to_list m);
  lo_Entries_law {A : Type} (m : gmap string A) : lo_Entries m ≡ₚ map_to_list m;
  lo_ForEach_law {A S : Type} (l : list A) (f : S -> A -> S) (s : S) :
    lo_ForEach l f s = foldl f s l
}.

#[export] Hint Rewrite @lo_Map_law @lo_Filter_law @lo_Find_law @lo_FindIndexOf_law
  @lo_ContainsBy_law @lo_Contains_law @lo_Without_law @lo_EveryBy_law @lo_SliceToMap_law
  @lo_Last_law @lo_ForEach_law : lo.

#[program] Definition lo_std : Lo := {|
  lo_Map _ _ l f := imap (fun i x => f x i) l;
  lo_Filter _ l f := map snd (List.filter (fun p => f (snd p) (fst p)) (imap pair l));
  lo_Find _ l f := List.find f l;
  lo_FindIndexOf _ l f := find_index f l;
  lo_ContainsBy _ l f := existsb f l;
  lo_Contains l x := bool_decide (x ∈ l);
  lo_Without l ex := List.filter (fun x => negb (bool_decide (x ∈ ex))) l;
  lo_EveryBy _ l f := forallb f l;
  lo_SomeBy _ _ l f := some_by l f;
  lo_SliceToMap _ _ l f := foldl (fun m x => <[fst (f x) := snd (f x)]> m) ∅ l;
  lo_Last l := default "" (last l);
  lo_Keys _ m := map fst (map_to_list m);
  lo_Entries _ m := map_to_list m;
  lo_ForEach _ _ l f s := foldl f s l
|}.
Next Obligation. intros. induction l as [|x l IH]; cbn; [done|]. by rewrite <- IH. Qed.
Next Obligation.
  intros A l f. enough (forall (k : nat -> nat), map snd (List.filter (fun p => f (snd p))
    (imap (fun i x => (k i, x)) l)) = List.filter f l) as H by exact (H id).
  induction l as [|x l IH]; intros k; cbn; [done|].
  destruct (f x); cbn; [f_equal|]; apply (IH (k ∘ S)).
Qed.
Solve All Obligations with done.

(** ** Consequences of the laws *)

Section Laws.
Context {lib : Lo}.

Lemma lo_EveryBy_true {A} (l : list A) f :
  lo_EveryBy l f = true <-> forall x, x ∈ l -> f x = true.
Proof.
  rewrite lo_EveryBy_law, forallb_forall. setoid_rewrite list_elem_of_In. done.
Qed.

Lemma lo_ContainsBy_true {A} (l : list A) f :
  lo_ContainsBy l f = true <-> exists x, x ∈ l /\ f x = true.
Proof.
  rewrite lo_ContainsBy_law, existsb_exists. setoid_rewrite list_elem_of_In. done.
Qed.

Lemma lo_ContainsBy_false {A} (l : list A) f :
  lo_ContainsBy l f = false <-> forall x, x ∈ l -> f x = false.
Proof.
  rewrite <- not_true_iff_false, lo_ContainsBy_true. split.
  - intros H x Hx. destruct (f x) eqn:E; [|done]. destruct H. eauto.
  - intros H (x & Hx & Hf). rewrite H in Hf; done.
Qed.

Lemma lo_Find_Some {A} (l : list A) f x :
  lo_Find l f = Some x -> x ∈ l /\ f x = true.
Proof. rewrite lo_Find_law, list_elem_of_In. apply find_some. Qed.

Lemma lo_Find_None {A} (l : list A) f :
  lo_Find l f = None <-> forall x, x ∈ l -> f x = false.
Proof.
  rewrite lo_Find_law. split.
  - intros H x Hx. apply list_elem_of_In in Hx. by eapply find_none.
  - intros H. destruct (List.find f l) eqn:E; [|done].
    apply find_some in E as [Hin Hf]. apply list_elem_of_In in Hin.
    by rewrite H in Hf.
Qed.

(** [EveryBy] over the entries of a map does not depend on their order. *)
Lemma lo_EveryBy_Entries {A} (m : gmap string A) f :
  lo_EveryBy (lo_Entries m) f = true <-> map_Forall (fun k v => f (k, v) = true) m.
Proof.
  rewrite lo_EveryBy_true. setoid_rewrite lo_Entries_law. split.
  - intros H k v Hk. apply H. by apply elem_of_map_to_list.
  - intros H [k v] Hk. apply H. by apply elem_of_map_to_list.
Qed.

(** What [SliceToMap] finds under a key is the last element with that key. *)
Lemma lo_SliceToMap_lookup {A B} (l : list A) (f : A -> string * B) k :
  lo_SliceToMap l f !! k =
  (snd ∘ f) <$> List.find (fun x => bool_decide (fst (f x) = k)) (rev l).
Proof.
  rewrite lo_SliceToMap_law. induction l as [|x l IH] using rev_ind; [done|].
  rewrite foldl_app, rev_app_distr. cbn [foldl rev app List.find].
  case_bool_decide as Hk.
  - cbn. rewrite <- Hk. by rewrite lookup_insert_eq.
  - by rewrite lookup_insert_ne by done.
Qed.

Lemma lo_SliceToMap_None {A B} (l : list A) (f : A -> string * B) k :
  lo_SliceToMap l f !! k = None <-> forall x, x ∈ l -> fst (f x) <> k.
Proof.
  rewrite lo_SliceToMap_lookup, fmap_None, <- lo_Find_law, lo_Find_None.
  setoid_rewrite list_elem_of_In. setoid_rewrite <- in_rev.
  setoid_rewrite bool_decide_eq_false. done.
Qed.
End Laws.
