(* ===== verification/Cluster.v ===== *)
(** * The Kubernetes client and libraries

    The API server and the client library are outside the program.  [KubeLib]
    has the pure helpers of [k8s.io/apimachinery] the program calls;
    [KubeClient E] has one operation per request the program sends, each a
    function of the outside state [E]; [KubeClientLaws] states the documented
    behaviour some theorems rely on.  The definitions of the last part are the
    calls as the components make them: they run the request, record writes in
    the trace, and store the server's response in the object, as
    controller-runtime's typed client does. *)

From S2P Require Import Prelude ApiTypes World.

(** ** [k8s.io/apimachinery] *)

Class KubeLib := {
  Selector : Type;
  Matches : Selector -> gmap string string -> bool;
  SelectorFromSet : option (gmap string string) -> Selector;
  LabelSelectorAsSelector : gmap string string -> option Selector * option GoError;
  NewControllerRef : ObjectMeta -> GroupVersionKind -> OwnerReference;
  WithKind : GroupVersion -> string -> GroupVersionKind;

  (* "SelectorFromSet returns a Selector which will match exactly the given Set.
     A nil and empty Sets are considered equivalent to Everything()." *)
  SelectorFromSet_law (m : option (gmap string string)) (l : gmap string string) :
    Matches (SelectorFromSet m) l = true <->
    map_Forall (fun k v => l !! k = Some v) (default ∅ m);
  (* "MatchLabels is a map of {key,value} pairs", each an equality requirement; a
     requirement that is invalid, such as a value of more than 63 characters, gives
     an error, and then the selector is nil *)
  LabelSelectorAsSelector_law (m l : gmap string string) sel :
    fst (LabelSelectorAsSelector m) = Some sel ->
    Matches sel l = true <-> map_Forall (fun k v => l !! k = Some v) m;
  LabelSelectorAsSelector_error (m : gmap string string) :
    fst (LabelSelectorAsSelector m) = None <-> snd (LabelSelectorAsSelector m) <> None;
  NewControllerRef_law (o : ObjectMeta) (g : GroupVersionKind) :
    or_Name (NewControllerRef o g) = Name o /\ or_UID (NewControllerRef o g) = UID o /\
    or_Kind (NewControllerRef o g) = gvk_Kind g /\ or_Controller (NewControllerRef o g) = true;
  WithKind_law (g : GroupVersion) (k : string) : gvk_Kind (WithKind g k) = k
}.

(** ** The client *)

Class KubeClient `{!KubeLib} (E : Type) := {
  kc_Get_SnapshotPod : key -> E -> result SnapshotPod * E;
  kc_Get_Task : key -> E -> result SnapshotPodTask * E;
  kc_Get_Pod : key -> E -> result Pod * E;
  kc_Get_Secret : key -> E -> result Secret * E;
  (* the empty namespace lists every namespace, no selector every object *)
  kc_List_Pods : option Selector -> string -> E -> result (list Pod) * E;
  kc_List_Tasks : option Selector -> string -> E -> result (list SnapshotPodTask) * E;
  kc_List_SnapshotPods : option Selector -> string -> E -> result (list SnapshotPod) * E;
  kc_Create_Task : SnapshotPodTask -> E -> result SnapshotPodTask * E;
  kc_Update_SnapshotPod : SnapshotPod -> E -> result SnapshotPod * E;
  kc_StatusUpdate_SnapshotPod : SnapshotPod -> E -> result SnapshotPod * E;
  kc_StatusUpdate_Task : SnapshotPodTask -> E -> result SnapshotPodTask * E
}.

(** ** Equality up to times

    The server keeps times with a precision of one second, so the status in a
    response equals the status that was sent except for its times. *)

#[global] Instance Condition_equiv : Equiv Condition := fun c d =>
  c_Type c = c_Type d /\ c_Status c = c_Status d /\
  c_Reason c = c_Reason d /\ c_Message c = c_Message d.

#[global] Instance Condition_equivalence : Equivalence (≡@{Condition}).
Proof.
  split; unfold equiv, Condition_equiv.
  - done.
  - by intros c d (-> & -> & -> & ->).
  - by intros c d e (-> & -> & -> & ->).
Qed.

#[global] Instance TaskStatus_equiv : Equiv SnapshotPodTaskStatus := fun s t =>
  t_Conditions s ≡ t_Conditions t /\ t_Phase s = t_Phase t /\
  t_RetryCount s = t_RetryCount t.

#[global] Instance TaskStatus_equivalence : Equivalence (≡@{SnapshotPodTaskStatus}).
Proof.
  split; unfold equiv, TaskStatus_equiv.
  - intros s. by split_and!.
  - intros s t (? & ? & ?). by split_and!.
  - intros s t u (? & ? & ?) (? & ? & ?). split_and!; [by etrans|congruence..].
Qed.

#[global] Instance c_Status_proper : Proper ((≡) ==> (=)) c_Status.
Proof. by intros c d (_ & ? & _). Qed.
#[global] Instance c_Type_proper : Proper ((≡) ==> (=)) c_Type.
Proof. by intros c d (? & _). Qed.
#[global] Instance c_Message_proper : Proper ((≡) ==> (=)) c_Message.
Proof. by intros c d (_ & _ & _ & ?). Qed.
#[global] Instance t_Conditions_proper : Proper ((≡) ==> (≡)) t_Conditions.
Proof. by intros s t (? & _). Qed.
#[global] Instance t_Phase_proper : Proper ((≡) ==> (=)) t_Phase.
Proof. by intros s t (_ & ? & _). Qed.
#[global] Instance t_RetryCount_proper : Proper ((≡) ==> (=)) t_RetryCount.
Proof. by intros s t (_ & _ & ?). Qed.

(** A test on every element that ignores times gives the same answer on both. *)
Lemma forallb_equiv (f : Condition -> bool) (l k : list Condition) :
  Proper ((≡) ==> (=)) f -> l ≡ k -> forallb f l = forallb f k.
Proof. intros Hf. induction 1 as [|c d l k Hc _ IH]; cbn; [done|]. by rewrite Hc, IH. Qed.

Lemma find_index_equiv (f : Condition -> bool) (l k : list Condition) :
  Proper ((≡) ==> (=)) f -> l ≡ k -> find_index f l = find_index f k.
Proof. intros Hf. induction 1 as [|c d l k Hc _ IH]; cbn; [done|]. by rewrite Hc, IH. Qed.

(** ** Documented behaviour of the server *)

Class KubeClientLaws (E : Type) `{KubeClient E} : Prop := {
  (* a status update that succeeds returns the object that was sent, with a new
     resource version and times cut to the second *)
  kc_StatusUpdate_Task_law t t' e e' :
    kc_StatusUpdate_Task t e = (inl t', e') ->
    meta_key (t_meta t') = meta_key (t_meta t) /\
    Labels (t_meta t') = Labels (t_meta t) /\
    t_Spec t' = t_Spec t /\ t_Status t' ≡ t_Status t;
  (* an object that is created keeps its name and its image reference; other
     fields may be defaulted *)
  kc_Create_Task_law t t' e e' :
    kc_Create_Task t e = (inl t', e') ->
    meta_key (t_meta t') = meta_key (t_meta t) /\
    ts_CommitImage (t_Spec t') = ts_CommitImage (t_Spec t);
  kc_StatusUpdate_SnapshotPod_law sp sp' e e' :
    kc_StatusUpdate_SnapshotPod sp e = (inl sp', e') ->
    meta_key (sp_meta sp') = meta_key (sp_meta sp) /\
    sp_Spec sp' = sp_Spec sp /\
    sp_LastTriggerRound (sp_Status sp') = sp_LastTriggerRound (sp_Status sp) /\
    sp_Conditions (sp_Status sp') ≡ sp_Conditions (sp_Status sp) /\
    map run_TaskName (sp_Snapshots (sp_Status sp')) =
      map run_TaskName (sp_Snapshots (sp_Status sp)) /\
    map run_Result (sp_Snapshots (sp_Status sp')) =
      map run_Result (sp_Snapshots (sp_Status sp))
}.

(** ** The calls the components make *)

Section Calls.
Context {E : Type} {kl : KubeLib} {kc : KubeClient E}.

Definition Get_SnapshotPod (k : key) : M E (result SnapshotPod) :=
  external (kc_Get_SnapshotPod k).
Definition Get_Task (k : key) : M E (result SnapshotPodTask) := external (kc_Get_Task k).
Definition Get_Pod (k : key) : M E (result Pod) := external (kc_Get_Pod k).
Definition Get_Secret (k : key) : M E (result Secret) := external (kc_Get_Secret k).
Definition List_Pods (s : option Selector) (ns : string) : M E (result (list Pod)) :=
  external (kc_List_Pods s ns).
Definition List_Tasks (s : option Selector) (ns : string) : M E (result (list SnapshotPodTask)) :=
  external (kc_List_Tasks s ns).
Definition List_SnapshotPods (s : option Selector) (ns : string) :
    M E (result (list SnapshotPod)) :=
  external (kc_List_SnapshotPods s ns).

(** A write: the response replaces the object when there is no error. *)
Definition write {A} (f : A -> E -> result A * E) (ev : A -> option GoError -> Event) (a : A) :
    M E (A * option GoError) :=
  r ← external (f a);
  emit (ev a (result_err r)) ;;
  mret (match r with inl a' => (a', None) | inr err => (a, Some err) end).

Definition Create_Task := write kc_Create_Task EvTaskCreate.
Definition Update_SnapshotPod := write kc_Update_SnapshotPod EvSpUpdate.
Definition StatusUpdate_SnapshotPod := write kc_StatusUpdate_SnapshotPod EvSpStatus.
Definition StatusUpdate_Task := write kc_StatusUpdate_Task EvTaskStatus.

Lemma emits_write {A} (P : Event -> Prop) (f : A -> E -> result A * E) ev a :
  (forall r, P (ev a r)) -> emits P (write f ev a).
Proof. intros HP. unfold write. emits. Qed.

Lemma total_write {A} (f : A -> E -> result A * E) ev a : total (write f ev a).
Proof. unfold write. total. Qed.

(** A read in the program logic. *)
Lemma wlp_external {A} (f : E -> A * E) (Q : A -> World E -> Prop) w :
  (forall a w', (a, w_ext w') = f (w_ext w) -> w_uuid w' = w_uuid w ->
     w_trace w' = w_trace w -> Q a w') ->
  wlp (external f) Q w.
Proof.
  intros HQ. unfold wlp, post, external. destruct (f (w_ext w)) as [a e] eqn:Hf.
  cbn. by apply HQ.
Qed.

(** A write in the program logic: one event, and the law of the request. *)
Lemma wp_write {A} (f : A -> E -> result A * E) ev a (Q : A * option GoError -> World E -> Prop) w :
  (forall r e' w', f a (w_ext w) = (r, e') ->
     w_ext w' = e' -> w_env w' = w_env w ->
     w_trace w' = w_trace w ++ [ev a (result_err r)] ->
     Q (match r with inl a' => (a', None) | inr err => (a, Some err) end) w') ->
  wp (write f ev a) Q w.
Proof.
  intros HQ. unfold write, wp, post, mbind, M_bind, external.
  destruct (f a (w_ext w)) as [r e'] eqn:Hf. cbn. by apply (HQ r e').
Qed.
End Calls.

#[export] Hint Extern 1 (emits _ (Get_SnapshotPod _)) => apply emits_external : effects.
#[export] Hint Extern 1 (emits _ (Get_Task _)) => apply emits_external : effects.
#[export] Hint Extern 1 (emits _ (Get_Pod _)) => apply emits_external : effects.
#[export] Hint Extern 1 (emits _ (Get_Secret _)) => apply emits_external : effects.
#[export] Hint Extern 1 (emits _ (List_Pods _ _)) => apply emits_external : effects.
#[export] Hint Extern 1 (emits _ (List_Tasks _ _)) => apply emits_external : effects.
#[export] Hint Extern 1 (emits _ (List_SnapshotPods _ _)) => apply emits_external : effects.
#[export] Hint Extern 1 (emits _ (Create_Task _)) => apply emits_write : effects.
#[export] Hint Extern 1 (emits _ (Update_SnapshotPod _)) => apply emits_write : effects.
#[export] Hint Extern 1 (emits _ (StatusUpdate_SnapshotPod _)) => apply emits_write : effects.
#[export] Hint Extern 1 (emits _ (StatusUpdate_Task _)) => apply emits_write : effects.
#[export] Hint Extern 1 (total (Get_SnapshotPod _)) => apply total_external : total.
#[export] Hint Extern 1 (total (Get_Task _)) => apply total_external : total.
#[export] Hint Extern 1 (total (Get_Pod _)) => apply total_external : total.
#[export] Hint Extern 1 (total (Get_Secret _)) => apply total_external : total.
#[export] Hint Extern 1 (total (List_Pods _ _)) => apply total_external : total.
#[export] Hint Extern 1 (total (List_Tasks _ _)) => apply total_external : total.
#[export] Hint Extern 1 (total (List_SnapshotPods _ _)) => apply total_external : total.
#[export] Hint Extern 1 (total (Create_Task _)) => apply total_write : total.
#[export] Hint Extern 1 (total (Update_SnapshotPod _)) => apply total_write : total.
#[export] Hint Extern 1 (total (StatusUpdate_SnapshotPod _)) => apply total_write : total.
#[export] Hint Extern 1 (total (StatusUpdate_Task _)) => apply total_write : total.
