(* ===== verification/Trace.v ===== *)
(** * Reasoning about what is visible in a run

    A program runs commands of the container engine and makes calls that the
    specifications speak about: calls through the runtime interface, writes to
    the API server, measurements.  [visible] drops the former from a trace.
    [does m S w]: from the world [w], [m] returns, and its result and the
    visible events it added satisfy [S]. *)

From S2P Require Import Prelude World Cluster.

(** Commands and the preparation of their environment. *)
Definition engine_eventb (e : Event) : bool :=
  match e with EvExec _ _ _ _ | EvFs _ => true | _ => false end.
Definition engine_event (e : Event) : Prop := Is_true (engine_eventb e).

#[export] Hint Extern 1 (engine_event _) => exact I : effects.

Definition visible (es : list Event) : list Event :=
  List.filter (fun e => negb (engine_eventb e)) es.

Lemma visible_app es es' : visible (es ++ es') = visible es ++ visible es'.
Proof. apply List.filter_app. Qed.

Lemma visible_engine es : Forall engine_event es -> visible es = [].
Proof.
  induction 1 as [|e es He _ IH]; [done|]. unfold engine_event in He.
  unfold visible. cbn. apply Is_true_true in He as ->. exact IH.
Qed.

Definition does {E A} (m : M E A) (S : A -> list Event -> Prop) (w : World E) : Prop :=
  wp m (fun a w' => w_uuid w' = w_uuid w /\
    exists es, w_trace w' = w_trace w ++ es /\ S a (visible es)) w.

#[global] Arguments does : simpl never.

Section Does.
Context {E : Type}.

Lemma does_bind {A B} (m : M E A) (f : A -> M E B) S1 S2 w :
  does m S1 w ->
  (forall a es w', S1 a es -> w_uuid w' = w_uuid w ->
     does (f a) (fun b es' => S2 b (es ++ es')) w') ->
  does (m ≫= f) S2 w.
Proof.
  intros Hm Hf. unfold does. apply wp_bind. eapply wp_mono; [exact Hm|].
  intros a w1 (Hu & es & Ht & HS). eapply wp_mono; [exact (Hf _ _ w1 HS Hu)|].
  intros b w2 (Hu' & es' & Ht' & HS'). split; [congruence|].
  exists (es ++ es'). rewrite Ht', Ht, app_assoc, visible_app. by split.
Qed.

Lemma does_mono {A} (m : M E A) (S S' : A -> list Event -> Prop) w :
  does m S w -> (forall a es, S a es -> S' a es) -> does m S' w.
Proof.
  intros H HS. eapply wp_mono; [exact H|]. intros a w' (Hu & es & Ht & Hes).
  split; [done|]. exists es. split; [done|]. by apply HS.
Qed.

Lemma does_ret {A} (a : A) (S : A -> list Event -> Prop) (w : World E) :
  S a [] -> does (mret a) S w.
Proof. intros HS. apply wp_ret. split; [done|]. exists []. by rewrite app_nil_r. Qed.

Lemma does_emit e (S : () -> list Event -> Prop) (w : World E) :
  engine_eventb e = false -> S tt [e] -> does (emit e) S w.
Proof.
  intros He HS. unfold does, wp, post. cbn. split; [done|]. exists [e]. cbn.
  unfold visible. cbn. by rewrite He.
Qed.

Lemma does_event e (w : World E) :
  engine_eventb e = false -> does (emit e) (fun _ es => es = [e]) w.
Proof. intros He. by apply does_emit. Qed.

(** What only the engine sees. *)
Lemma does_engine {A} (m : M E A) (S : A -> list Event -> Prop) (w : World E) :
  total m -> emits engine_event m -> uuid_ok w -> (forall a, S a []) -> does m S w.
Proof.
  intros Ht He Hw HS. specialize (Ht w Hw). apply wp_run in Ht as (a & w' & Hrun & Hu).
  destruct (He w) as (_ & es & Hes & HP). unfold does, wp, post. rewrite Hrun in *. cbn in *.
  split; [done|]. exists es. split; [done|]. by rewrite (visible_engine es HP).
Qed.

Lemma does_silent {A} (m : M E A) (S : A -> list Event -> Prop) (w : World E) :
  total m -> emits (fun _ => False) m -> uuid_ok w -> (forall a, S a []) -> does m S w.
Proof.
  intros Ht He Hw HS. apply does_engine; try done. by eapply emits_mono.
Qed.

Lemma does_now (S : Time -> list Event -> Prop) (w : World E) :
  (forall t, S t []) -> does now S w.
Proof.
  intros HS. apply wp_now. intros w' _ _ Hu Ht. split; [done|].
  exists []. rewrite app_nil_r. by split.
Qed.

Lemma does_since (S : Duration -> list Event -> Prop) t (w : World E) :
  (forall d, S d []) -> does (since t) S w.
Proof.
  intros HS. unfold since. eapply does_bind; [apply (does_now (fun _ es => es = [])); done|].
  intros n es w' -> _. by apply does_ret.
Qed.

Lemma does_external {A} (f : E -> A * E) (S : A -> list Event -> Prop) (w : World E) :
  (forall a, S a []) -> does (external f) S w.
Proof.
  intros HS. unfold does, wp, post, external. destruct (f (w_ext w)) as [a e]. cbn.
  split; [done|]. exists []. rewrite app_nil_r. by split.
Qed.

Lemma does_choose (S : nat -> list Event -> Prop) (w : World E) :
  (forall n, S n []) -> does choose S w.
Proof. intros HS. split; [done|]. exists []. rewrite app_nil_r. by split. Qed.

(** A write: one event, and what the request says of its response. *)
Lemma does_write {A} (f : A -> E -> result A * E) ev a
    (S : A * option GoError -> list Event -> Prop) w :
  (forall r, engine_eventb (ev a r) = false) ->
  (forall r e', f a (w_ext w) = (r, e') ->
     S (match r with inl a' => (a', None) | inr err => (a, Some err) end)
       [ev a (result_err r)]) ->
  does (write f ev a) S w.
Proof.
  intros Hev HS. unfold does, write, wp, post, mbind, M_bind, external.
  destruct (f a (w_ext w)) as [r e'] eqn:Hf. cbn. split; [done|].
  exists [ev a (result_err r)]. split; [done|]. unfold visible. cbn. rewrite Hev. by apply (HS r e').
Qed.

(** The first read of a handler, in the state it starts from. *)
Lemma does_now_bind {B} (f : Time -> M E B) S (w : World E) :
  (forall t w', w_ext w' = w_ext w -> w_uuid w' = w_uuid w -> does (f t) S w') ->
  does (t ← now; f t) S w.
Proof.
  intros H. unfold does. apply wp_bind, wp_now. intros w' He _ Hu Ht.
  rewrite <- Hu, <- Ht. by apply H.
Qed.

Lemma does_external_bind {A B} (g : E -> A * E) (f : A -> M E B) S (w : World E) :
  (forall w', w_uuid w' = w_uuid w -> does (f (fst (g (w_ext w)))) S w') ->
  does (a ← external g; f a) S w.
Proof.
  intros H. unfold does, wp, post, mbind, M_bind, external.
  destruct (g (w_ext w)) as [a e]. cbn in *.
  set (w1 := mkWorld e _ _ _ _ _ _ _ _).
  change (w_uuid w) with (w_uuid w1). change (w_trace w) with (w_trace w1). by apply H.
Qed.

Lemma does_wlp {A} (m : M E A) (S : A -> list Event -> Prop) w :
  does m S w ->
  wlp m (fun a w' => exists es, w_trace w' = w_trace w ++ es /\ S a (visible es)) w.
Proof.
  intros H. apply wp_wlp. eapply wp_mono; [exact H|]. by intros a w' (_ & ?).
Qed.

Lemma uuid_ok_eq (w w' : World E) : w_uuid w' = w_uuid w -> uuid_ok w -> uuid_ok w'.
Proof. intros Hu Hw n. rewrite Hu. apply Hw. Qed.
End Does.

(** Sequencing under [does], for an operation that shows nothing. *)
Tactic Notation "does_quiet" uconstr(lem) :=
  eapply does_bind;
  [ apply (lem (fun _ es => es = [])); done | intros ? ? ? -> ?; cbn [app] ].
