(* ===== verification/Store.v ===== *)
(** * A concrete cluster

    An instance of [KubeLib] and of [KubeClient]: an API server that keeps its
    objects in maps, checks resource versions on updates, refuses to create an
    object twice, and answers with a scripted error when the script says so.
    The theorems do not depend on it; the concrete runs (witnesses and
    examples) evaluate on it. *)

From S2P Require Import Prelude ApiTypes World Cluster.

#[program] Definition kube_std : KubeLib := {|
  Selector := gmap string string;
  Matches s l := bool_decide (map_Forall (fun k v => l !! k = Some v) s);
  SelectorFromSet m := default ∅ m;
  LabelSelectorAsSelector m :=
    if bool_decide (map_Forall (fun _ v => (String.length v <= 63)%nat) m) then (Some m, None)
    else (None, Some (Errorf "must be no more than 63 characters"));
  NewControllerRef o g :=
    {| or_APIVersion := gvk_Group g +:+ "/" +:+ gvk_Version g; or_Kind := gvk_Kind g;
       or_Name := Name o; or_UID := UID o; or_Controller := true;
       or_BlockOwnerDeletion := true |};
  WithKind g k := {| gvk_Group := gv_Group g; gvk_Version := gv_Version g; gvk_Kind := k |}
|}.
Next Obligation. intros m l. cbn. apply bool_decide_eq_true. Qed.
Next Obligation.
  intros m l sel. cbn. case_bool_decide; [|done]. intros [= <-]. apply bool_decide_eq_true.
Qed.
Next Obligation. intros m. cbn. by case_bool_decide. Qed.
Solve All Obligations with done.

#[local] Existing Instance kube_std.

Record Store := mkStore {
  st_sps : gmap key SnapshotPod;
  st_tasks : gmap key SnapshotPodTask;
  st_pods : list Pod;
  st_secrets : gmap key Secret;
  st_rv : Z;
  st_faults : list (option GoError)   (* the fate of the next requests *)
}.

Definition with_faults (f : list (option GoError)) (s : Store) : Store :=
  mkStore (st_sps s) (st_tasks s) (st_pods s) (st_secrets s) (st_rv s) f.

(** The next request fails when the script says so. *)
Definition request {A} (f : Store -> result A * Store) (s : Store) : result A * Store :=
  match st_faults s with
  | Some e :: fs => (inr e, with_faults fs s)
  | None :: fs => f (with_faults fs s)
  | [] => f s
  end.

Definition not_found : GoError := mkError "not found" NotFound.
Definition conflict : GoError := mkError "the object has been modified" Conflict.
Definition already_exists : GoError := mkError "already exists" AlreadyExists.

Definition lookup_or_404 {A} (m : gmap key A) (k : key) : result A :=
  match m !! k with Some a => inl a | None => inr not_found end.

Definition in_ns (ns : string) (m : ObjectMeta) : bool :=
  bool_decide (ns = "") || bool_decide (Namespace m = ns).

Definition selected (s : option (gmap string string)) (m : ObjectMeta) : bool :=
  match s with
  | None => true
  | Some s => bool_decide (map_Forall (fun k v => default ∅ (Labels m) !! k = Some v) s)
  end.

Definition set_rv (rv : Z) (m : ObjectMeta) : ObjectMeta :=
  mkMeta (Name m) (Namespace m) (UID m) ("rv" +:+ pretty rv) (Labels m) (OwnerReferences m)
         (CreationTimestamp m) (DeletionTimestamp m).

Definition store_create_task (t : SnapshotPodTask) (s : Store) : result SnapshotPodTask * Store :=
  match st_tasks s !! meta_key (t_meta t) with
  | Some _ => (inr already_exists, s)
  | None =>
      let t' := mkTask (set_rv (st_rv s) (t_meta t)) (t_Spec t) empty_task_status in
      (inl t', mkStore (st_sps s) (<[meta_key (t_meta t) := t']> (st_tasks s)) (st_pods s)
                       (st_secrets s) (st_rv s + 1) (st_faults s))
  end.

Definition store_status_task (t : SnapshotPodTask) (s : Store) : result SnapshotPodTask * Store :=
  match st_tasks s !! meta_key (t_meta t) with
  | None => (inr not_found, s)
  | Some old =>
      if bool_decide (t_meta old = t_meta t) && bool_decide (t_Spec old = t_Spec t) then
        let t' := mkTask (set_rv (st_rv s) (t_meta t)) (t_Spec t) (t_Status t) in
        (inl t', mkStore (st_sps s) (<[meta_key (t_meta t) := t']> (st_tasks s)) (st_pods s)
                         (st_secrets s) (st_rv s + 1) (st_faults s))
      else (inr conflict, s)
  end.

Definition store_update_sp (status : bool) (sp : SnapshotPod) (s : Store) :
    result SnapshotPod * Store :=
  match st_sps s !! meta_key (sp_meta sp) with
  | None => (inr not_found, s)
  | Some old =>
      if bool_decide (sp_meta old = sp_meta sp) then
        let sp' := mkSp (set_rv (st_rv s) (sp_meta sp)) (sp_Spec sp)
                        (if status then sp_Status sp else sp_Status old) in
        (inl sp', mkStore (<[meta_key (sp_meta sp) := sp']> (st_sps s)) (st_tasks s) (st_pods s)
                          (st_secrets s) (st_rv s + 1) (st_faults s))
      else (inr conflict, s)
  end.

Definition find_pod (k : key) (l : list Pod) : result Pod :=
  match List.find (fun p => bool_decide (meta_key (pod_meta p) = k)) l with
  | Some p => inl p
  | None => inr not_found
  end.

Definition client_std : KubeClient Store := {|
  kc_Get_SnapshotPod k := request (fun s => (lookup_or_404 (st_sps s) k, s));
  kc_Get_Task k := request (fun s => (lookup_or_404 (st_tasks s) k, s));
  kc_Get_Pod k := request (fun s => (find_pod k (st_pods s), s));
  kc_Get_Secret k := request (fun s => (lookup_or_404 (st_secrets s) k, s));
  kc_List_Pods sel ns := request (fun s =>
    (inl (List.filter (fun p => in_ns ns (pod_meta p) && selected sel (pod_meta p))
                      (st_pods s)), s));
  kc_List_Tasks sel ns := request (fun s =>
    (inl (List.filter (fun t => in_ns ns (t_meta t) && selected sel (t_meta t))
                      (map snd (map_to_list (st_tasks s)))), s));
  kc_List_SnapshotPods sel ns := request (fun s =>
    (inl (List.filter (fun p => in_ns ns (sp_meta p) && selected sel (sp_meta p))
                      (map snd (map_to_list (st_sps s)))), s));
  kc_Create_Task t := request (store_create_task t);
  kc_Update_SnapshotPod sp := request (store_update_sp false sp);
  kc_StatusUpdate_SnapshotPod sp := request (store_update_sp true sp);
  kc_StatusUpdate_Task t := request (store_status_task t)
|}.

Lemma request_inl {A} (f : Store -> result A * Store) s a s' :
  request f s = (inl a, s') -> exists s0, f s0 = (inl a, s').
Proof. unfold request. destruct (st_faults s) as [|[e|] fs]; naive_solver. Qed.

Lemma client_std_laws : @KubeClientLaws Store kube_std client_std.
Proof.
  split.
  - intros t t' e e' H. apply request_inl in H as [s H]. unfold store_status_task in H.
    destruct (_ !! _); [|done]. destruct (_ && _); [|done].
    injection H as <- _. by split_and!.
  - intros t t' e e' H. apply request_inl in H as [s H]. unfold store_create_task in H.
    destruct (_ !! _); [done|]. injection H as <- _. by split_and!.
  - intros sp sp' e e' H. apply request_inl in H as [s H]. unfold store_update_sp in H.
    destruct (_ !! _); [|done]. case_bool_decide; [|done].
    injection H as <- _. by split_and!.
Qed.

(** A world around a store: the clock ticks once a second from [t0], the
    identifiers are numbered, and every unspecified order is the first one. *)
Definition std_uuid (n : nat) : string :=
  String.substring 0 8 ("0000000" +:+ pretty n) +:+ "-0000-4000-8000-000000000000".

Definition std_world (t0 : Time) (s : Store) : World Store :=
  mkWorld s ∅ (fun n => t0 + Z.of_nat n * Second) O std_uuid O (fun _ => O) O [].
