(* ===== verification/ImageRefLib.v ===== *)
(** * The library [github.com/containers/image] (reference parsing)

    Image references are parsed, taken apart and printed by third-party code:
    the class [ImageRef] has the operations the program calls and, as its laws,
    the documented behaviour the theorems use.  [ref_std] is an instance with a
    plain grammar ([domain/path:tag], [domain/path@alg:hex] or
    [domain/path@@unknown-digest@@], the domain defaulting to docker.io), used by
    the concrete runs. *)

From S2P Require Import Prelude GoStrings ApiTypes World Cluster.
From Stdlib Require Import Ascii.

(** [docker.UnknownDigestSuffix]: "the suffix that is used to represent a reference
    with an unknown digest". *)
Definition UnknownDigestSuffix : string := "@@unknown-digest@@".

Class ImageRef := {
  Named : Type;                                 (* reference.Named *)
  ParseReference : string -> result Named;      (* docker.ParseReference(s).DockerReference() *)
  Domain : Named -> string;                     (* reference.Domain *)
  Path : Named -> string;                       (* reference.Path *)
  Tagged : Named -> option string;              (* v.(reference.NamedTagged), v.Tag() *)
  CanonicalHex : Named -> option string;        (* v.(reference.Canonical), v.Digest().Hex() *)
  WithTag : Named -> string -> result Named;    (* reference.WithTag *)
  RefString : Named -> string;                  (* v.String() *)

  (* a name without tag and digest gets the tag "latest", a name with both is refused *)
  ParseReference_form s r :
    Contains s UnknownDigestSuffix = false ->
    ParseReference s = inl r -> (is_Some (Tagged r) <-> CanonicalHex r = None);
  (* a name with the suffix has neither *)
  ParseReference_unknown s r :
    ParseReference (s +:+ UnknownDigestSuffix) = inl r ->
    Tagged r = None /\ CanonicalHex r = None;
  (* the characters of the reference grammar *)
  ParseReference_chars s r :
    ParseReference s = inl r ->
    byte_in "{" (Domain r) = false /\ byte_in "{" (Path r) = false /\
    (forall t, Tagged r = Some t -> byte_in "{" t = false) /\
    (forall h, CanonicalHex r = Some h -> byte_in "{" h = false);
  WithTag_law r t v :
    WithTag r t = inl v -> Tagged v = Some t /\ Domain v = Domain r /\ Path v = Path r;
  RefString_law v t :
    Tagged v = Some t -> CanonicalHex v = None ->
    RefString v = Domain v +:+ "/" +:+ Path v +:+ ":" +:+ t
}.

(** ** An instance *)

Record std_ref := mkStdRef {
  sr_domain : string;
  sr_path : string;
  sr_tag : string + string   (* a tag, or the hex part of a digest, empty if unknown *)
}.

Definition std_invalid (s : string) : GoError :=
  Errorf ("invalid reference format: " +:+ s).

(** [domain] and path components of the part before the tag or digest. *)
Definition std_domain (comps : list string) : string * list string :=
  match comps with
  | c :: ((_ :: _) as rest) =>
      if Contains c "." || Contains c ":" || bool_decide (c = "localhost")
      then (c, rest) else ("docker.io", comps)
  | [c] => ("docker.io", ["library"; c])
  | [] => ("docker.io", [])
  end.

Definition std_parse (s : string) : result std_ref :=
  if negb (HasPrefix "//" s) || byte_in "{" s || byte_in "}" s then inr (std_invalid s)
  else if Contains s UnknownDigestSuffix then
    match Split (TrimPrefix s "//") UnknownDigestSuffix with
    | [n; ""] =>
        let '(dom, path) := std_domain (Split n "/") in
        if Contains (Join path "/") ":" then inr (std_invalid s)
        else inl (mkStdRef dom (Join path "/") (inr ""))
    | _ => inr (std_invalid s)
    end
  else
    match Split (TrimPrefix s "//") "@" with
    | [n; d] =>
        match Split d ":" with
        | [_; h] =>
            let '(dom, path) := std_domain (Split n "/") in
            if Contains (Join path "/") ":" || bool_decide (h = "") then inr (std_invalid s)
            else inl (mkStdRef dom (Join path "/") (inr h))
        | _ => inr (std_invalid s)
        end
    | [n] =>
        let '(dom, path) := std_domain (Split n "/") in
        match Split (Join path "/") ":" with
        | [p] => if bool_decide (p = "") then inr (std_invalid s)
                 else inl (mkStdRef dom p (inl "latest"))
        | [p; t] => if bool_decide (p = "") || bool_decide (t = "") then inr (std_invalid s)
                    else inl (mkStdRef dom p (inl t))
        | _ => inr (std_invalid s)
        end
    | _ => inr (std_invalid s)
    end.

Definition std_tagged (r : std_ref) : option string :=
  match sr_tag r with inl t => Some t | inr _ => None end.
Definition std_hex (r : std_ref) : option string :=
  match sr_tag r with inl _ | inr "" => None | inr h => Some h end.

Definition std_with_tag (r : std_ref) (t : string) : result std_ref :=
  if bool_decide (t = "") then inr (Errorf "invalid tag format")
  else inl (mkStdRef (sr_domain r) (sr_path r) (inl t)).

Definition std_string (r : std_ref) : string :=
  sr_domain r +:+ "/" +:+ sr_path r +:+
  match sr_tag r with inl t => ":" +:+ t | inr "" => "" | inr h => "@sha256:" +:+ h end.

Lemma byte_in_Join_false c l sep :
  byte_in c sep = false -> Forall (fun x => byte_in c x = false) l ->
  byte_in c (Join l sep) = false.
Proof.
  intros Hs. induction 1 as [|x l Hx Hl IH]; [done|]. destruct l as [|y l]; [done|].
  change (Join (x :: y :: l) sep) with (x +:+ sep +:+ Join (y :: l) sep).
  by rewrite !byte_in_app, Hx, Hs, IH.
Qed.

Lemma std_domain_chars comps :
  Forall (fun x => byte_in "{" x = false) comps ->
  byte_in "{" (fst (std_domain comps)) = false /\
  byte_in "{" (Join (snd (std_domain comps)) "/") = false.
Proof.
  intros H. destruct comps as [|c [|c' l]]; [done|..]; cbn [std_domain].
  - apply Forall_inv in H. split; [done|]. by apply byte_in_Join_false; repeat constructor.
  - destruct (_ || _); cbn [fst snd]; split; try done.
    + by apply Forall_inv in H.
    + apply byte_in_Join_false; [done|]. by apply Forall_inv_tail in H.
    + by apply byte_in_Join_false.
Qed.

Lemma std_parse_chars s r :
  std_parse s = inl r ->
  byte_in "{" (sr_domain r) = false /\ byte_in "{" (sr_path r) = false /\
  match sr_tag r with inl t => byte_in "{" t = false | inr h => byte_in "{" h = false end.
Proof.
  unfold std_parse.
  destruct (HasPrefix "//" s) eqn:Hp; [|done]. apply HasPrefix_spec in Hp as [q ->].
  destruct (byte_in "{" _) eqn:Hb; [done|]. destruct (byte_in "}" _); [done|].
  rewrite TrimPrefix_app. cbn [negb orb]. rewrite byte_in_app in Hb.
  apply orb_false_elim in Hb as [_ Hq].
  destruct (Contains _ _).
  { pose proof (byte_in_Split _ _ UnknownDigestSuffix ltac:(done) Hq) as Hs.
    destruct (Split q UnknownDigestSuffix) as [|n [|[] [|]]]; try done. apply Forall_inv in Hs.
    pose proof (std_domain_chars _ (byte_in_Split _ _ "/" ltac:(done) Hs)) as [Hd Hpa].
    destruct (std_domain _) as [dom path]. cbn [fst snd] in *.
    destruct (Contains _ _); [done|]. by intros [= <-]. }
  pose proof (byte_in_Split _ _ "@" ltac:(done) Hq) as Hs.
  destruct (Split q "@") as [|n [|d [|]]]; try done.
  - apply Forall_inv in Hs.
    pose proof (std_domain_chars _ (byte_in_Split _ _ "/" ltac:(done) Hs)) as [Hd Hpa].
    destruct (std_domain _) as [dom path]. cbn [fst snd] in *.
    pose proof (byte_in_Split _ _ ":" ltac:(done) Hpa) as Ht.
    destruct (Split (Join path "/") ":") as [|p [|t [|]]]; try done.
    + apply Forall_inv in Ht. case_bool_decide; [done|]. by intros [= <-].
    + apply Forall_cons in Ht as [Hp' Ht]. apply Forall_inv in Ht.
      destruct (_ || _); [done|]. by intros [= <-].
  - apply Forall_cons in Hs as [Hn Hd']. apply Forall_inv in Hd'.
    pose proof (byte_in_Split _ _ ":" ltac:(done) Hd') as Hh.
    destruct (Split d ":") as [|x [|h [|]]]; try done.
    apply Forall_cons in Hh as [_ Hh]. apply Forall_inv in Hh.
    pose proof (std_domain_chars _ (byte_in_Split _ _ "/" ltac:(done) Hn)) as [Hd Hpa].
    destruct (std_domain _) as [dom path]. cbn [fst snd] in *.
    destruct (_ || _); [done|]. by intros [= <-].
Qed.

Lemma std_parse_form s r :
  std_parse s = inl r ->
  if Contains s UnknownDigestSuffix then sr_tag r = inr ""
  else match sr_tag r with inl _ => True | inr h => h <> "" end.
Proof.
  unfold std_parse. destruct (_ || _); [done|]. destruct (Contains s _).
  - destruct (Split _ _) as [|n [|[] [|]]]; try done. destruct (std_domain _) as [dom path].
    destruct (Contains _ _); [done|]. by intros [= <-].
  - destruct (Split _ "@") as [|n [|d [|]]]; try done.
    + destruct (std_domain _) as [dom path]. destruct (Split _ ":") as [|p [|t [|]]]; try done.
      * case_bool_decide; [done|]. by intros [= <-].
      * destruct (_ || _); [done|]. by intros [= <-].
    + destruct (Split d ":") as [|x [|h [|]]]; try done. destruct (std_domain _) as [dom path].
      case_bool_decide as Hh; [by rewrite orb_true_r|]. rewrite orb_false_r.
      destruct (Contains _ _); [done|]. by intros [= <-].
Qed.

#[program] Definition ref_std : ImageRef := {|
  Named := std_ref;
  ParseReference := std_parse;
  Domain := sr_domain;
  Path := sr_path;
  Tagged := std_tagged;
  CanonicalHex := std_hex;
  WithTag := std_with_tag;
  RefString := std_string
|}.
Next Obligation.
  intros s r Hs Hr%std_parse_form. rewrite Hs in Hr. unfold std_tagged, std_hex.
  destruct (sr_tag r) as [|[|]]; split; done.
Qed.
Next Obligation.
  intros s r Hr%std_parse_form. unfold std_tagged, std_hex.
  rewrite (proj2 (Contains_spec _ _)) in Hr by (exists s, ""; by rewrite string_app_nil).
  by rewrite Hr.
Qed.
Next Obligation.
  intros s r Hr. apply std_parse_chars in Hr as (Hd & Hp & Ht).
  unfold std_tagged, std_hex. split_and!; [done..| |]; destruct (sr_tag r) as [|[|]]; naive_solver.
Qed.
Next Obligation.
  intros r t v. unfold std_with_tag. case_bool_decide; [done|]. by intros [= <-].
Qed.
Next Obligation.
  intros v t. unfold std_tagged, std_hex, std_string. destruct (sr_tag v); [|done].
  by intros [= ->].
Qed.

(** The grammar on references of the usual shapes. *)
Example std_parse_short :
  std_parse "//nginx" = inl (mkStdRef "docker.io" "library/nginx" (inl "latest")).
Proof. reflexivity. Qed.
Example std_parse_full :
  std_parse "//release.daocloud.io:8443/test/nb:v1" =
  inl (mkStdRef "release.daocloud.io:8443" "test/nb" (inl "v1")).
Proof. reflexivity. Qed.
Example std_parse_unknown :
  std_parse "//nginx@@unknown-digest@@" = inl (mkStdRef "docker.io" "library/nginx" (inr "")).
Proof. reflexivity. Qed.
Example std_parse_digest :
  std_parse "//nginx@sha256:abcdef" = inl (mkStdRef "docker.io" "library/nginx" (inr "abcdef")).
Proof. reflexivity. Qed.
