(* ===== verification/Fixtures.v ===== *)
(** * Concrete objects for the witnesses

    The instances of the outside ([lo_std], [kube_std], [client_std],
    [ref_std]) made available for instance search in the files that import
    [Fixtures.Std], and a small cluster: one SnapshotPod that targets a pod with
    two containers. *)

From S2P Require Import Prelude GoStrings ApiTypes World Lo Cluster Store ImageRefLib.

Module Std.
#[export] Existing Instance lo_std.
#[export] Existing Instance kube_std.
#[export] Existing Instance client_std.
#[export] Existing Instance client_std_laws.
#[export] Existing Instance ref_std.
End Std.

Definition fx_meta (ns n : string) : ObjectMeta := mkMeta n ns "uid-1" "rv0" None [] 0 None.

(** Noon of January 1, 2024 UTC. *)
Definition fx_now : Time := 63839707200 * Second.

Definition fx_pod_with (statuses : list ContainerStatus) : Pod :=
  {| pod_meta := fx_meta "ns" "nb";
     pod_Spec := {| pod_NodeName := "node-1";
                    pod_Containers := [ {| ctr_Name := "main"; ctr_Image := "jupyter:v1" |};
                                        {| ctr_Name := "side"; ctr_Image := "nginx" |} ];
                    pod_ImagePullSecrets := [] |};
     pod_Phase := PodRunning;
     pod_ContainerStatuses := statuses |}.

Definition fx_main : ContainerStatus :=
  {| cs_Name := "main"; cs_Image := "jupyter:v1"; cs_ContainerID := "containerd://c1" |}.
Definition fx_side : ContainerStatus :=
  {| cs_Name := "side"; cs_Image := "nginx"; cs_ContainerID := "containerd://c2" |}.
Definition fx_side_waiting : ContainerStatus :=
  {| cs_Name := "side"; cs_Image := "nginx"; cs_ContainerID := "" |}.

Definition fx_pod : Pod := fx_pod_with [fx_main; fx_side].

Definition fx_target (n : string) (containers : list string) : TargetPod :=
  {| tp_Name := n; tp_Selector := None; tp_Containers := containers |}.

Definition fx_spec (target : TargetPod) (round recovery : Z) : SnapshotPodSpec :=
  mkSpSpec target
    {| co_PauseContainer := false; co_Timeout := ""; co_Message := "auto save"; co_Author := "" |}
    {| iso_ImageRefFormat := "reg.io/test/{last_repository}:{tag}";
       iso_RegistrySecretRef := "registry-secret"; iso_AppendSnappedSuffix := None;
       iso_MaxRetries := 3; iso_RetryDelaySeconds := 30 |}
    {| aso_AutoSaveOnTermination := true; aso_Cron := "" |} round recovery.

Definition fx_sp : SnapshotPod :=
  mkSp (fx_meta "ns" "snap") (fx_spec (fx_target "nb" []) 1 0) (mkSpStatus [] [] 0).

Definition fx_key : key := ("ns", "snap").

Definition fx_store (pods : list Pod) (faults : list (option GoError)) : Store :=
  mkStore {[ fx_key := fx_sp ]} ∅ pods ∅ 1 faults.

Definition fx_world (pods : list Pod) (faults : list (option GoError)) : World Store :=
  std_world fx_now (fx_store pods faults).

(** The same world with another outside state. *)
Definition set_ext {E} (f : E -> E) (w : World E) : World E :=
  mkWorld (f (w_ext w)) (w_env w) (w_clock w) (w_clock_i w) (w_uuid w) (w_uuid_i w)
          (w_seed w) (w_seed_i w) (w_trace w).

Definition set_pods (pods : list Pod) (s : Store) : Store :=
  mkStore (st_sps s) (st_tasks s) pods (st_secrets s) (st_rv s) (st_faults s).

(** The numbered identifiers have the form the program relies on. *)
Lemma fx_uuid_0 : uuid_form (std_uuid 0).
Proof. by exists "00000000", "0000-4000-8000-000000000000". Qed.
