(* ===== verification/Metrics.v ===== *)
(** * Metrics ([internal/metrics/metrics.go])

    The label values and the functions that record a measurement.  A
    measurement on a Prometheus vector is an event of the trace: the vector,
    the label values in the declared order, and the operation. *)

From S2P Require Import Prelude World.
From Stdlib Require Import Floats.SpecFloat.

(** [SnapshotTaskStatus] *)
Definition SnapshotTaskStatusCreated : string := "created".
Definition SnapshotTaskStatusRunning : string := "running".
Definition SnapshotTaskStatusSuccess : string := "success".
Definition SnapshotTaskStatusFailed : string := "failed".
Definition SnapshotTaskStatusRetrying : string := "retrying".

(** [ControllerResult] *)
Definition ControllerResultSuccess : string := "success".
Definition ControllerResultError : string := "error".
Definition ControllerResultRequeue : string := "requeue".

(** [ImagePushResult] *)
Definition ImagePushResultSuccess : string := "success".
Definition ImagePushResultFailed : string := "failed".

(** The label names each vector is declared with. *)
Definition label_names (v : MetricVec) : list string :=
  match v with
  | SnapshotTaskMetrics_Total => ["status"; "namespace"; "snapshot_name"]
  | SnapshotTaskMetrics_Duration => ["status"; "namespace"; "snapshot_name"]
  | SnapshotTaskMetrics_Retries => ["namespace"; "snapshot_name"; "task_name"]
  | SnapshotTaskMetrics_Active => ["namespace"; "snapshot_name"]
  | SnapshotTaskMetrics_ByNode => ["node_name"; "status"]
  | ControllerMetrics_ReconcileTotal => ["controller"; "result"]
  | ControllerMetrics_ReconcileDuration => ["controller"]
  | ControllerMetrics_ErrorsTotal => ["controller"; "error_type"]
  | ImageMetrics_PushTotal => ["result"; "registry"; "namespace"; "snapshot_name"]
  | ImageMetrics_PushDuration => ["registry"; "namespace"; "snapshot_name"]
  | SnapshotTaskFailed => ["namespace"; "snapshot_name"; "task_name"]
  end.

(** The type each vector is declared with. *)
Inductive VecType := CounterVec | HistogramVec | GaugeVec.

Definition vec_type (v : MetricVec) : VecType :=
  match v with
  | SnapshotTaskMetrics_Total | SnapshotTaskMetrics_Retries => CounterVec
  | SnapshotTaskMetrics_Duration => HistogramVec
  | SnapshotTaskMetrics_Active | SnapshotTaskMetrics_ByNode => GaugeVec
  | ControllerMetrics_ReconcileTotal | ControllerMetrics_ErrorsTotal => CounterVec
  | ControllerMetrics_ReconcileDuration => HistogramVec
  | ImageMetrics_PushTotal => CounterVec
  | ImageMetrics_PushDuration => HistogramVec
  | SnapshotTaskFailed => CounterVec
  end.

(** The methods the types have, among those of [MetricOp]: a counter cannot be
    set, only a histogram observes, and every vector can be reset. *)
Definition has_method (t : VecType) (o : MetricOp) : bool :=
  match o, t with
  | Inc, (CounterVec | GaugeVec) | Observe _, HistogramVec | SetTo _, GaugeVec | ResetVec, _ => true
  | _, _ => false
  end.

(** [Duration.Seconds]: the whole seconds plus the nanoseconds over 1e9, in
    IEEE binary64 arithmetic. *)
Definition float64 (z : Z) : spec_float := binary_normalize 53 1024 z 0 false.
Definition Seconds (d : Duration) : spec_float :=
  SFadd 53 1024 (float64 (Z.quot d Second))
                (SFdiv 53 1024 (float64 (Z.rem d Second)) (float64 1000000000)).

Section Metrics.
Context {E : Type}.

(** [vec.WithLabelValues(labels...)] followed by one operation. *)
Definition with_labels (v : MetricVec) (labels : list string) (o : MetricOp) : M E () :=
  emit (EvMetric v labels o).

Definition RecordSnapshotTask (status namespace snapshotName : string) (duration : Duration)
    : M E () :=
  with_labels SnapshotTaskMetrics_Total [status; namespace; snapshotName] Inc ;;
  with_labels SnapshotTaskMetrics_Duration [status; namespace; snapshotName]
    (Observe (Seconds duration)).

Definition RecordSnapshotTaskRetry (namespace snapshotName taskName : string) : M E () :=
  with_labels SnapshotTaskMetrics_Retries [namespace; snapshotName; taskName] Inc.

Definition SetActiveSnapshotTasks (namespace snapshotName : string) (count : Z) : M E () :=
  with_labels SnapshotTaskMetrics_Active [namespace; snapshotName] (SetTo count).

Definition SetSnapshotTasksByNode (nodeName status : string) (count : Z) : M E () :=
  with_labels SnapshotTaskMetrics_ByNode [nodeName; status] (SetTo count).

Definition RecordControllerReconcile (controller result : string) (duration : Duration)
    : M E () :=
  with_labels ControllerMetrics_ReconcileTotal [controller; result] Inc ;;
  with_labels ControllerMetrics_ReconcileDuration [controller] (Observe (Seconds duration)).

Definition RecordControllerError (controller errorType : string) : M E () :=
  with_labels ControllerMetrics_ErrorsTotal [controller; errorType] Inc.

Definition RecordImagePush (result registry namespace snapshotName : string)
    (duration : Duration) : M E () :=
  with_labels ImageMetrics_PushTotal [result; registry; namespace; snapshotName] Inc ;;
  with_labels ImageMetrics_PushDuration [registry; namespace; snapshotName]
    (Observe (Seconds duration)).

Definition RecordTaskFailed (namespace snapshotName taskName : string) : M E () :=
  with_labels SnapshotTaskFailed [namespace; snapshotName; taskName] Inc.

(** A measurement that fits the declaration of its vector: the vector has the
    method, and there are as many label values as labels.  With another number
    [WithLabelValues] panics. *)
Definition metric_ok (e : Event) : Prop :=
  match e with
  | EvMetric v labels o =>
      has_method (vec_type v) o = true /\
      length labels = match o with ResetVec => O | _ => length (label_names v) end
  | _ => False
  end.

Lemma emits_with_labels P v l o : P (EvMetric v l o) -> emits P (with_labels v l o).
Proof. apply emits_emit. Qed.
End Metrics.

#[export] Hint Resolve emits_with_labels : effects.
#[export] Hint Extern 1 (metric_ok _) => split; reflexivity : effects.

(** Every recording function gives each vector as many values as it has labels. *)
Ltac metric_emits := intros; unfold RecordSnapshotTask, RecordSnapshotTaskRetry,
  SetActiveSnapshotTasks, SetSnapshotTasksByNode, RecordControllerReconcile,
  RecordControllerError, RecordImagePush, RecordTaskFailed; emits.

Section MetricLemmas.
Context {E : Type}.

Lemma RecordSnapshotTask_ok s n m d : emits (E := E) metric_ok (RecordSnapshotTask s n m d).
Proof. metric_emits. Qed.
Lemma RecordSnapshotTaskRetry_ok n m t :
  emits (E := E) metric_ok (RecordSnapshotTaskRetry n m t).
Proof. metric_emits. Qed.
Lemma RecordControllerReconcile_ok c r d :
  emits (E := E) metric_ok (RecordControllerReconcile c r d).
Proof. metric_emits. Qed.
Lemma RecordControllerError_ok c r : emits (E := E) metric_ok (RecordControllerError c r).
Proof. metric_emits. Qed.
Lemma RecordImagePush_ok r g n m d : emits (E := E) metric_ok (RecordImagePush r g n m d).
Proof. metric_emits. Qed.
Lemma RecordTaskFailed_ok n m t : emits (E := E) metric_ok (RecordTaskFailed n m t).
Proof. metric_emits. Qed.

Lemma RecordSnapshotTask_total s n m d : total (E := E) (RecordSnapshotTask s n m d).
Proof. unfold RecordSnapshotTask, with_labels. total. Qed.
Lemma RecordSnapshotTaskRetry_total n m t : total (E := E) (RecordSnapshotTaskRetry n m t).
Proof. unfold RecordSnapshotTaskRetry, with_labels. total. Qed.
Lemma RecordControllerReconcile_total c r d :
  total (E := E) (RecordControllerReconcile c r d).
Proof. unfold RecordControllerReconcile, with_labels. total. Qed.
Lemma RecordControllerError_total c r : total (E := E) (RecordControllerError c r).
Proof. unfold RecordControllerError, with_labels. total. Qed.
Lemma RecordImagePush_total r g n m d : total (E := E) (RecordImagePush r g n m d).
Proof. unfold RecordImagePush, with_labels. total. Qed.
Lemma RecordTaskFailed_total n m t : total (E := E) (RecordTaskFailed n m t).
Proof. unfold RecordTaskFailed, with_labels. total. Qed.

(** Recording a measurement never panics and changes nothing but the trace. *)
Lemma emit_wp e (Q : () -> World E -> Prop) w :
  (forall w', w_ext w' = w_ext w -> w_env w' = w_env w ->
    w_trace w' = w_trace w ++ [e] -> Q tt w') ->
  wp (emit e) Q w.
Proof. intros HQ. unfold wp, post. cbn. by apply HQ. Qed.
End MetricLemmas.

#[export] Hint Resolve RecordSnapshotTask_ok RecordSnapshotTaskRetry_ok
  RecordControllerReconcile_ok RecordControllerError_ok RecordImagePush_ok
  RecordTaskFailed_ok : effects.

#[export] Hint Resolve RecordSnapshotTask_total RecordSnapshotTaskRetry_total
  RecordControllerReconcile_total RecordControllerError_total RecordImagePush_total
  RecordTaskFailed_total : total.
