(* ===== verification/MetricRegistry.v ===== *)
(** * The registration of the metrics ([internal/metrics/metrics.go])

    The vectors are package variables: they are made, and registered with the
    registry of controller-runtime, before [main] starts, in the order of the
    declaration.  The Prometheus client is the class [Promauto]; a registration
    it refuses is a panic with its error.  The theorem is that the program gets
    past its package variables. *)

From S2P Require Import Prelude GoStrings World Metrics.
From Stdlib Require Import Ascii Floats.SpecFloat.

(** [prometheus.CounterOpts], [GaugeOpts] and [HistogramOpts], as far as they are set. *)
Record VecOpts := mkOpts { vo_Name : string; vo_Help : string; vo_Buckets : list spec_float }.

(** ** Names the client accepts *)

(** "[a-zA-Z_:][a-zA-Z0-9_:]*" for metrics, without the colon for labels; labels
    that begin with two underscores are for internal use. *)
Definition name_byte (first colon : bool) (a : ascii) : bool :=
  let n := N_of_ascii a in
  ((97 <=? n) && (n <=? 122) || (65 <=? n) && (n <=? 90) || (n =? 95) ||
   colon && (n =? 58) || negb first && (48 <=? n) && (n <=? 57))%N.

Definition valid_name (colon : bool) (s : string) : bool :=
  match String.list_ascii_of_string s with
  | [] => false
  | a :: l => name_byte true colon a && forallb (name_byte false colon) l
  end.

Definition valid_label (s : string) : bool := valid_name false s && negb (String.prefix "__" s).

Fixpoint increasing (l : list spec_float) : bool :=
  match l with
  | x :: (y :: _) as l' => SFltb x y && increasing l'
  | _ => true
  end.

(** What the client asks of a declaration: "le" is the label of the buckets. *)
Definition well_declared (ty : VecType) (o : VecOpts) (labels : list string) : bool :=
  valid_name true (vo_Name o) && forallb valid_label labels && bool_decide (NoDup labels) &&
  match ty with
  | HistogramVec => negb (bool_decide ("le" ∈ labels)) && increasing (vo_Buckets o)
  | _ => true
  end.

(** [count] bounds, each [factor] times the one before. *)
Fixpoint bounds (start factor : spec_float) (count : nat) : list spec_float :=
  match count with
  | O => []
  | S n => start :: bounds (SFmul 53 1024 start factor) factor n
  end.

(** [prometheus] and [promauto]. *)
Class Promauto := {
  Registry : Type;
  reg_names : Registry -> list string;
  ExponentialBuckets : spec_float -> spec_float -> nat -> list spec_float;
  NewVec : VecType -> VecOpts -> list string -> Registry -> result Registry;

  (* "ExponentialBuckets creates 'count' regular buckets, where the lowest bucket
     has an upper bound of 'start' and each following bucket's upper bound is
     'factor' times the previous bucket's upper bound." *)
  ExponentialBuckets_law start factor n :
    SFltb (float64 0) start = true -> SFltb (float64 1) factor = true ->
    ExponentialBuckets start factor (S n) = bounds start factor (S n);
  (* a valid descriptor with a new name is registered *)
  NewVec_law ty o labels r :
    well_declared ty o labels = true -> vo_Name o ∉ reg_names r ->
    exists r', NewVec ty o labels r = inl r' /\ reg_names r' ≡ₚ vo_Name o :: reg_names r
}.

Section Registration.
Context {pa : Promauto}.

Definition counter (name help : string) : VecOpts := mkOpts name help [].

Definition vec_opts (v : MetricVec) : VecOpts :=
  match v with
  | SnapshotTaskMetrics_Total => counter "snapshot_tasks_total" "Total number of snapshot tasks"
  | SnapshotTaskMetrics_Duration =>
      mkOpts "snapshot_task_duration_seconds" "Duration of snapshot tasks in seconds"
             (ExponentialBuckets (float64 1) (float64 2) 10)
  | SnapshotTaskMetrics_Retries =>
      counter "snapshot_task_retries_total" "Total number of snapshot task retries"
  | SnapshotTaskMetrics_Active => counter "snapshot_active_tasks" "Number of active snapshot tasks"
  | SnapshotTaskMetrics_ByNode =>
      counter "snapshot_tasks_by_node" "Number of snapshot tasks by node"
  | ControllerMetrics_ReconcileTotal =>
      counter "snapshot_controller_reconcile_total" "Total number of controller reconciles"
  | ControllerMetrics_ReconcileDuration =>
      mkOpts "snapshot_controller_reconcile_duration_seconds"
             "Duration of controller reconciles in seconds"
             (ExponentialBuckets (SFdiv 53 1024 (float64 1) (float64 1000)) (float64 2) 15)
  | ControllerMetrics_ErrorsTotal =>
      counter "snapshot_controller_errors_total" "Total number of controller errors"
  | ImageMetrics_PushTotal =>
      counter "snapshot_image_push_total" "Total number of image push operations"
  | ImageMetrics_PushDuration =>
      mkOpts "snapshot_image_push_duration_seconds" "Duration of image push operations in seconds"
             (ExponentialBuckets (float64 1) (float64 2) 12)
  | SnapshotTaskFailed => counter "snapshot_task_failed_total" "Total number of failed snapshot tasks"
  end.

(** The order of the declaration. *)
Definition metric_vecs : list MetricVec :=
  [SnapshotTaskMetrics_Total; SnapshotTaskMetrics_Duration; SnapshotTaskMetrics_Retries;
   SnapshotTaskMetrics_Active; SnapshotTaskMetrics_ByNode; ControllerMetrics_ReconcileTotal;
   ControllerMetrics_ReconcileDuration; ControllerMetrics_ErrorsTotal; ImageMetrics_PushTotal;
   ImageMetrics_PushDuration; SnapshotTaskFailed].

Fixpoint register_all (l : list MetricVec) (r : Registry) : result Registry :=
  match l with
  | [] => inl r
  | v :: l =>
      match NewVec (vec_type v) (vec_opts v) (label_names v) r with
      | inl r => register_all l r
      | inr err => inr err
      end
  end.

(** The package variables of [metrics], on [crmetrics.Registry]. *)
Definition metrics_init : Registry -> result Registry := register_all metric_vecs.

(** ** They are registered *)

Definition vec_name (v : MetricVec) : string := vo_Name (vec_opts v).

Lemma metric_vecs_complete v : v ∈ metric_vecs.
Proof using Type. destruct v; unfold metric_vecs; rewrite !elem_of_cons; tauto. Qed.

Lemma vec_names_distinct : NoDup (map vec_name metric_vecs).
Proof using Type. apply (bool_decide_unpack _). vm_compute. exact I. Qed.

Lemma vec_well_declared v : well_declared (vec_type v) (vec_opts v) (label_names v) = true.
Proof using Type.
  destruct v; unfold vec_opts; try (vm_compute; reflexivity);
    rewrite ExponentialBuckets_law by (vm_compute; reflexivity); vm_compute; reflexivity.
Qed.

Lemma register_all_ok l r :
  NoDup (map vec_name l) -> (forall v, v ∈ l -> vec_name v ∉ reg_names r) ->
  exists r', register_all l r = inl r' /\ reg_names r' ≡ₚ map vec_name l ++ reg_names r.
Proof using Type.
  revert r. induction l as [|v l IH]; intros r Hnd Hr; [by exists r|].
  cbn in Hnd. apply NoDup_cons in Hnd as [Hv Hnd].
  destruct (NewVec_law _ _ _ r (vec_well_declared v)) as (r1 & Hr1 & Hn1).
  { apply (Hr v), list_elem_of_here. }
  destruct (IH r1 Hnd) as (r' & Hr' & Hn').
  { intros u Hu. rewrite Hn1, elem_of_cons. intros [Heq|Hin].
    - apply Hv. change (vo_Name (vec_opts v)) with (vec_name v) in Heq. rewrite <- Heq.
      apply list_elem_of_fmap. by exists u.
    - revert Hin. by apply Hr, list_elem_of_further. }
  exists r'. cbn. rewrite Hr1. split; [done|]. rewrite Hn', Hn1. by rewrite Permutation_middle.
Qed.

(** The package variables are made without a panic: in a registry without their
    names, each vector is registered, once. *)
Theorem metrics_init_ok r :
  (forall v, vec_name v ∉ reg_names r) ->
  exists r', metrics_init r = inl r' /\ reg_names r' ≡ₚ map vec_name metric_vecs ++ reg_names r.
Proof using Type.
  intros Hr. apply register_all_ok; [apply vec_names_distinct|]. intros v _. apply Hr.
Qed.

(** The last bounds of the histograms: 512 s, 16.384 s and 2048 s.  The comments on
    the last two say about 32 s and about one hour. *)
Theorem last_bounds :
  last (vo_Buckets (vec_opts SnapshotTaskMetrics_Duration)) = Some (float64 512) /\
  last (vo_Buckets (vec_opts ControllerMetrics_ReconcileDuration)) =
    Some (SFdiv 53 1024 (float64 16384) (float64 1000)) /\
  last (vo_Buckets (vec_opts ImageMetrics_PushDuration)) = Some (float64 2048).
Proof using Type.
  unfold vec_opts; cbn [vo_Buckets]. rewrite !ExponentialBuckets_law by (vm_compute; reflexivity).
  vm_compute. by split_and!.
Qed.
End Registration.

(** ** A concrete registry *)

Definition new_vec_std (ty : VecType) (o : VecOpts) (labels : list string) (r : list string)
    : result (list string) :=
  if negb (well_declared ty o labels) then inr (Errorf "invalid descriptor")
  else if bool_decide (vo_Name o ∈ r)
  then inr (Errorf "duplicate metrics collector registration attempted")
  else inl (vo_Name o :: r).

#[program] Definition promauto_std : Promauto :=
  {| Registry := list string; reg_names r := r; ExponentialBuckets := bounds;
     NewVec := new_vec_std |}.
Next Obligation. done. Qed.
Next Obligation.
  intros ty o labels r Hw Hn. exists (vo_Name o :: r). split; [|done].
  unfold new_vec_std. rewrite Hw, bool_decide_false by done. done.
Qed.

(** A second registration of the same vectors panics. *)
Example registered_once :
  match @metrics_init promauto_std ["go_goroutines"] with
  | inl r => length r = 12%nat /\ result_err (@metrics_init promauto_std r) <> None
  | inr _ => False
  end.
Proof. vm_compute. by split. Qed.
