(* ===== verification/GoTime.v ===== *)
(** * [time.ParseDuration]

    The parser of Go's standard library, byte by byte: an optional sign, then
    decimal numbers with an optional fraction, each with a unit.  The integer
    part is an unsigned 64-bit number whose overflow is an error; the fraction
    is scaled in binary64 arithmetic, as the library does.  The loop over the
    numbers runs on fuel, and [parse_numbers_enough] shows that the length of
    the text is enough. *)

From S2P Require Import Prelude GoStrings ApiTypes World Cluster Metrics.
From Stdlib Require Import Ascii Floats.SpecFloat.

Definition two63 : Z := 9223372036854775808.

Definition is_digit (c : ascii) : bool :=
  Nat.leb 48 (nat_of_ascii c) && Nat.leb (nat_of_ascii c) 57.
Definition digit_val (c : ascii) : Z := Z.of_nat (nat_of_ascii c) - 48.

(** [leadingInt]: the digits in front, [None] when they exceed 2^63. *)
Fixpoint leadingInt (x : Z) (s : string) : option (Z * string) :=
  match s with
  | String c s' =>
      if is_digit c then
        if bool_decide (x > two63 / 10) then None
        else
          let y := x * 10 + digit_val c in
          if bool_decide (y > two63) then None else leadingInt y s'
      else Some (x, s)
  | EmptyString => Some (x, s)
  end.

(** [leadingFraction]: the digits in front and their scale; digits beyond the
    precision of 63 bits are skipped. *)
Fixpoint leadingFraction (x : Z) (scale : spec_float) (overflow : bool) (s : string)
    : Z * spec_float * string :=
  match s with
  | String c s' =>
      if is_digit c then
        if overflow then leadingFraction x scale true s'
        else if bool_decide (x > (two63 - 1) / 10) then leadingFraction x scale true s'
        else
          let y := x * 10 + digit_val c in
          if bool_decide (y > two63) then leadingFraction x scale true s'
          else leadingFraction y (SFmul 53 1024 scale (float64 10)) false s'
      else (x, scale, s)
  | EmptyString => (x, scale, s)
  end.

(** The unit: everything up to the next digit or period. *)
Fixpoint leadingUnit (s : string) : string * string :=
  match s with
  | String c s' =>
      if Ascii.eqb c "."%char || is_digit c then ("", s)
      else let '(u, r) := leadingUnit s' in (String c u, r)
  | EmptyString => ("", "")
  end.

Definition micro_sign : string := String (ascii_of_nat 194) (String (ascii_of_nat 181) "s").
Definition greek_mu : string := String (ascii_of_nat 206) (String (ascii_of_nat 188) "s").

Definition unitMap (u : string) : option Z :=
  if bool_decide (u = "ns") then Some 1
  else if bool_decide (u = "us") || bool_decide (u = micro_sign) || bool_decide (u = greek_mu)
  then Some 1000
  else if bool_decide (u = "ms") then Some 1000000
  else if bool_decide (u = "s") then Some Second
  else if bool_decide (u = "m") then Some Minute
  else if bool_decide (u = "h") then Some (60 * Minute)
  else None.

(** [uint64(f)] of a non-negative float: truncation. *)
Definition float_trunc (f : spec_float) : Z :=
  match f with
  | S754_finite false m e => Z.shiftl (Zpos m) e
  | _ => 0
  end.

(** [quote] of package [time]. *)
Definition hex_digit (n : nat) : ascii :=
  ascii_of_nat (if Nat.ltb n 10 then 48 + n else 87 + n)%nat.

Fixpoint quote_bytes (s : string) : string :=
  match s with
  | EmptyString => String (ascii_of_nat 34) ""
  | String c s' =>
      let n := nat_of_ascii c in
      if Nat.leb 128 n || Nat.ltb n 32
      then String (ascii_of_nat 92) (String "x" (String (hex_digit (n / 16)%nat)
             (String (hex_digit (n mod 16)%nat) (quote_bytes s'))))
      else if Nat.eqb n 34 || Nat.eqb n 92
      then String (ascii_of_nat 92) (String c (quote_bytes s'))
      else String c (quote_bytes s')
  end.
Definition quote (s : string) : string := String (ascii_of_nat 34) (quote_bytes s).

Definition invalid_duration (orig : string) : GoError :=
  Errorf ("time: invalid duration " +:+ quote orig).

Definition has_period (s : string) : bool :=
  match s with String c _ => Ascii.eqb c "."%char | EmptyString => false end.
Definition tail_of (s : string) : string :=
  match s with String _ s' => s' | EmptyString => "" end.

(** One number with its unit: its value in nanoseconds and the rest. *)
Definition parse_number (orig s : string) : result (Z * string) :=
  match s with
  | EmptyString => inr (invalid_duration orig)
  | String c _ =>
      if negb (Ascii.eqb c "."%char || is_digit c) then inr (invalid_duration orig)
      else
        match leadingInt 0 s with
        | None => inr (invalid_duration orig)
        | Some (v, s1) =>
            let pre := negb (Nat.eqb (String.length s) (String.length s1)) in
            let '(f, scale, s2, post) :=
              if has_period s1 then
                let '(f, scale, s2) := leadingFraction 0 (float64 1) false (tail_of s1) in
                (f, scale, s2,
                 negb (Nat.eqb (String.length (tail_of s1)) (String.length s2)))
              else (0, float64 1, s1, false) in
            if negb pre && negb post then inr (invalid_duration orig)
            else
              let '(u, s3) := leadingUnit s2 in
              if bool_decide (u = "")
              then inr (Errorf ("time: missing unit in duration " +:+ quote orig))
              else
                match unitMap u with
                | None => inr (Errorf ("time: unknown unit " +:+ quote u +:+ " in duration " +:+
                                       quote orig))
                | Some unit =>
                    if bool_decide (v > two63 / unit) then inr (invalid_duration orig)
                    else
                      let v1 := v * unit in
                      if bool_decide (f > 0) then
                        let v2 := v1 + float_trunc (SFmul 53 1024 (float64 f)
                                         (SFdiv 53 1024 (float64 unit) scale)) in
                        if bool_decide (v2 > two63) then inr (invalid_duration orig)
                        else inl (v2, s3)
                      else inl (v1, s3)
                end
        end
  end.

(** The loop; [None] when the fuel runs out. *)
Fixpoint parse_numbers (fuel : nat) (orig : string) (d : Z) (s : string) : option (result Z) :=
  match s with
  | EmptyString => Some (inl d)
  | String _ _ =>
      match fuel with
      | O => None
      | S fuel =>
          match parse_number orig s with
          | inr e => Some (inr e)
          | inl (v, s') =>
              if bool_decide (d + v > two63) then Some (inr (invalid_duration orig))
              else parse_numbers fuel orig (d + v) s'
          end
      end
  end.

Definition strip_sign (s : string) : bool * string :=
  match s with
  | String c s' =>
      if Ascii.eqb c "-"%char then (true, s')
      else if Ascii.eqb c "+"%char then (false, s') else (false, s)
  | EmptyString => (false, s)
  end.

Definition ParseDuration (orig : string) : result Duration :=
  let '(neg, s) := strip_sign orig in
  if bool_decide (s = "0") then inl 0
  else if bool_decide (s = "") then inr (invalid_duration orig)
  else
    match parse_numbers (String.length s) orig 0 s with
    | None => inr (invalid_duration orig)      (* not reached: parse_numbers_enough *)
    | Some (inr e) => inr e
    | Some (inl d) =>
        if neg then inl (- d)
        else if bool_decide (d > two63 - 1) then inr (invalid_duration orig)
        else inl d
    end.

Example duration_5m : ParseDuration "5m" = inl (5 * Minute).
Proof. vm_compute. reflexivity. Qed.
Example duration_mixed : ParseDuration "-1h15m30.918s" = inl (-4530918000000).
Proof. vm_compute. reflexivity. Qed.
Example duration_fraction : ParseDuration "1.5h" = inl (90 * Minute).
Proof. vm_compute. reflexivity. Qed.
Example duration_no_unit :
  ParseDuration "30" = inr (Errorf ("time: missing unit in duration " +:+ quote "30")).
Proof. vm_compute. reflexivity. Qed.
Example duration_too_long :
  ParseDuration "2562048h" = inr (invalid_duration "2562048h").
Proof. vm_compute. reflexivity. Qed.

(** ** The fuel is enough *)

Lemma leadingInt_rest x s y r :
  leadingInt x s = Some (y, r) -> (String.length r <= String.length s)%nat.
Proof.
  revert x. induction s as [|c s IH]; intros x H; cbn in H; [by injection H as _ <-|].
  destruct (is_digit c); [|by injection H as _ <-].
  repeat (case_bool_decide; [done|]). apply IH in H. cbn. lia.
Qed.

Lemma leadingFraction_rest x sc o s :
  (String.length (snd (leadingFraction x sc o s)) <= String.length s)%nat.
Proof.
  revert x sc o. induction s as [|c s IH]; intros x sc o; cbn; [done|].
  repeat case_match; cbn; try done; by etrans; [apply IH|lia].
Qed.

Lemma leadingUnit_rest s : s = fst (leadingUnit s) +:+ snd (leadingUnit s).
Proof.
  induction s as [|c s IH]; cbn; [done|]. destruct (_ || _); [done|].
  destruct (leadingUnit s) as [u r]. cbn in *. by rewrite string_app_cons, <- IH.
Qed.

Lemma tail_of_length s : (String.length (tail_of s) <= String.length s)%nat.
Proof. destruct s; cbn; lia. Qed.

(** A number takes at least one byte. *)
Lemma parse_number_rest orig s v r :
  parse_number orig s = inl (v, r) -> (String.length r < String.length s)%nat.
Proof.
  unfold parse_number. destruct s as [|c0 s0]; [done|]. set (s := String c0 s0).
  destruct (negb _); [done|].
  destruct (leadingInt 0 s) as [[x s1]|] eqn:Hi; [|done]. apply leadingInt_rest in Hi.
  assert (forall f sc s2 (post : bool),
    (if has_period s1 then
       let '(f, scale, s2) := leadingFraction 0 (float64 1) false (tail_of s1) in
       (f, scale, s2, negb (Nat.eqb (String.length (tail_of s1)) (String.length s2)))
     else (0, float64 1, s1, false)) = (f, sc, s2, post) ->
    (String.length s2 <= String.length s1)%nat) as Hf.
  { intros f sc s2 post. destruct (has_period s1); [|by intros [= _ _ <- _]].
    pose proof (leadingFraction_rest 0 (float64 1) false (tail_of s1)) as H.
    destruct (leadingFraction _ _ _ _) as [[f' sc'] s2']. intros [= _ _ <- _]. cbn in H.
    pose proof (tail_of_length s1). lia. }
  destruct (if has_period s1 then _ else _) as [[[f sc] s2] post].
  specialize (Hf _ _ _ _ eq_refl). destruct (negb _ && negb _); [done|].
  pose proof (leadingUnit_rest s2) as Hu. destruct (leadingUnit s2) as [u s3]. cbn in Hu.
  case_bool_decide as Hne; [done|]. destruct (unitMap u); [|done]. case_bool_decide; [done|].
  assert (String.length s3 < String.length s2)%nat as Hlt.
  { rewrite Hu, string_length_app. destruct u; [done|]. cbn. lia. }
  case_bool_decide; [case_bool_decide; [done|]|]; intros [= _ <-]; lia.
Qed.

Lemma parse_numbers_enough fuel orig d s :
  (String.length s <= fuel)%nat -> is_Some (parse_numbers fuel orig d s).
Proof.
  revert d s. induction fuel as [|fuel IH]; intros d [|c s] Hl; cbn in Hl; try (by eexists); [lia|].
  cbn [parse_numbers].
  destruct (parse_number orig (String c s)) as [[v s']|e] eqn:Hp; [|by eexists].
  case_bool_decide; [by eexists|]. apply parse_number_rest in Hp. cbn in Hp. apply IH. lia.
Qed.

(** ** The range of the result *)

Lemma leadingInt_nonneg x s y r : 0 <= x -> leadingInt x s = Some (y, r) -> 0 <= y.
Proof.
  revert x. induction s as [|c s IH]; intros x Hx H; cbn in H; [by injection H as <- _|].
  destruct (is_digit c) eqn:Hd; [|by injection H as <- _].
  repeat (case_bool_decide; [done|]). eapply IH; [|done].
  unfold is_digit in Hd. apply andb_true_iff in Hd as [Hd%Nat.leb_le _].
  unfold digit_val. lia.
Qed.

Lemma float_trunc_nonneg f : 0 <= float_trunc f.
Proof. destruct f as [| | |[] m e]; cbn; try lia. by apply Z.shiftl_nonneg. Qed.

Lemma unitMap_pos u n : unitMap u = Some n -> 0 < n.
Proof.
  unfold unitMap. repeat case_match; intros [= <-]; unfold Minute, Second; lia.
Qed.

Lemma parse_number_nonneg orig s v r : parse_number orig s = inl (v, r) -> 0 <= v.
Proof.
  unfold parse_number. destruct s as [|c0 s0]; [done|]. destruct (negb _); [done|].
  destruct (leadingInt _ _) as [[x s1]|] eqn:Hi; [|done]. apply leadingInt_nonneg in Hi; [|done].
  destruct (if has_period s1 then _ else _) as [[[f sc] s2] post].
  destruct (negb _ && negb _); [done|].
  destruct (leadingUnit s2) as [u s3]. case_bool_decide; [done|].
  destruct (unitMap u) as [n|] eqn:Hn; [|done]. apply unitMap_pos in Hn.
  case_bool_decide; [done|].
  match goal with |- context [float_trunc ?a] => pose proof (float_trunc_nonneg a) end.
  assert (0 <= x * n) by lia.
  repeat case_bool_decide; intros [= <- _]; try done; lia.
Qed.

Lemma parse_numbers_range fuel orig d s r :
  0 <= d <= two63 -> parse_numbers fuel orig d s = Some (inl r) -> 0 <= r <= two63.
Proof.
  revert d s. induction fuel as [|fuel IH]; intros d [|c s] Hd H; cbn [parse_numbers] in H; try done.
  1, 2: by injection H as <-.
  destruct (parse_number _ _) as [[v s']|e] eqn:Hp; [|done].
  apply parse_number_nonneg in Hp. case_bool_decide; [done|]. eapply IH; [|done]. lia.
Qed.

(** A duration that is accepted fits in 64 bits. *)
Lemma ParseDuration_range s d : ParseDuration s = inl d -> in_int64 d.
Proof.
  unfold ParseDuration, in_int64. destruct (strip_sign s) as [neg s'].
  case_bool_decide; [intros [= <-]; lia|]. case_bool_decide; [done|].
  destruct (parse_numbers _ _ _ _) as [[r|e]|] eqn:Hp; [|done..].
  apply parse_numbers_range in Hp; unfold two63 in *; [|lia].
  destruct neg; [intros [= <-]; lia|]. case_bool_decide; [done|]. intros [= <-]. lia.
Qed.
