(* ===== verification/Conditions.v ===== *)
(** * Conditions

    Both controllers keep a list of [metav1.Condition], find the entry of a
    type by its first occurrence and overwrite it in place.  [cond_of] is that
    entry; the lemmas say what an overwrite and an [append] do to it. *)

From S2P Require Import Prelude ApiTypes.

Definition has_type (ty : string) (c : Condition) : bool := bool_decide (c_Type c = ty).

Definition cond_of (ty : string) (l : list Condition) : option Condition :=
  List.find (has_type ty) l.

Definition cond_types (l : list Condition) : list string := map c_Type l.

Implicit Types (l : list Condition) (c d : Condition) (ty : string).

Lemma cond_of_type ty l c : cond_of ty l = Some c -> c_Type c = ty.
Proof. intros H. by apply find_some in H as [_ ?%bool_decide_eq_true]. Qed.

Lemma cond_of_None ty l : cond_of ty l = None <-> ty ∉ cond_types l.
Proof.
  unfold cond_of, cond_types. induction l as [|c l IH]; cbn.
  { split; [intros _ H; by apply not_elem_of_nil in H|done]. }
  unfold has_type at 1. case_bool_decide as H.
  - split; [done|]. intros Hn. destruct Hn. rewrite H. apply list_elem_of_here.
  - rewrite IH, not_elem_of_cons. split; [intros H'; by split; [congruence|]|by intros [_ ?]].
Qed.

(** The index the code works with finds the same entry. *)
Lemma find_index_cond ty l :
  match find_index (has_type ty) l with
  | Some i => exists c, l !! i = Some c /\ cond_of ty l = Some c
  | None => cond_of ty l = None
  end.
Proof.
  induction l as [|c l IH]; cbn; [done|]. unfold cond_of. cbn.
  destruct (has_type ty c) eqn:H; [by exists c|].
  destruct (find_index _ l) as [i|]; cbn; [|done].
  destruct IH as (d & Hd & Hc). by exists d.
Qed.

(** Overwriting the entry of a type. *)
Lemma cond_of_insert_eq ty l i d :
  find_index (has_type ty) l = Some i -> c_Type d = ty ->
  cond_of ty (<[i := d]> l) = Some d.
Proof.
  revert i. unfold cond_of. induction l as [|c l IH]; intros i Hi Hd; cbn in Hi; [done|].
  destruct (has_type ty c) eqn:Hc.
  - injection Hi as <-. cbn. unfold has_type. by rewrite bool_decide_true.
  - apply fmap_Some in Hi as (j & Hj & ->). cbn. rewrite Hc. by apply IH.
Qed.

Lemma cond_of_insert_ne ty l i c d :
  l !! i = Some c -> c_Type d = c_Type c -> ty <> c_Type c ->
  cond_of ty (<[i := d]> l) = cond_of ty l.
Proof.
  revert i. unfold cond_of. induction l as [|e l IH]; intros [|i] Hi Hd Hty; cbn in *; try done.
  - injection Hi as ->. unfold has_type. by rewrite Hd, bool_decide_false.
  - destruct (has_type ty e); [done|]. by apply IH.
Qed.

Lemma cond_types_insert l i c d :
  l !! i = Some c -> c_Type d = c_Type c -> cond_types (<[i := d]> l) = cond_types l.
Proof.
  revert i. induction l as [|e l IH]; intros [|i] Hi Hd; cbn in *; try done.
  - injection Hi as ->. by rewrite Hd.
  - f_equal. by apply IH.
Qed.

Lemma find_index_types ty l k :
  cond_types l = cond_types k -> find_index (has_type ty) l = find_index (has_type ty) k.
Proof.
  revert k. induction l as [|c l IH]; intros [|d k] H; cbn in *; try done.
  injection H as Hc H. unfold has_type in *. rewrite Hc. by rewrite (IH k H).
Qed.

(** Appending an entry of a new type. *)
Lemma cond_of_app_new ty l d :
  cond_of ty l = None -> c_Type d = ty ->
  cond_of ty (l ++ [d]) = Some d /\ find_index (has_type ty) (l ++ [d]) = Some (length l).
Proof.
  unfold cond_of. induction l as [|c l IH]; intros Hn Hd; cbn in *.
  { unfold has_type. by rewrite bool_decide_true. }
  destruct (has_type ty c); [done|]. destruct (IH Hn Hd) as [? ->]. done.
Qed.

Lemma cond_of_app_ne ty l d : c_Type d <> ty -> cond_of ty (l ++ [d]) = cond_of ty l.
Proof.
  unfold cond_of. intros Hd. induction l as [|c l IH]; cbn.
  - unfold has_type. by rewrite bool_decide_false.
  - destruct (has_type ty c); done.
Qed.

(** Every condition is the entry of its type when no type occurs twice. *)
Lemma cond_of_unique l c : NoDup (cond_types l) -> c ∈ l -> cond_of (c_Type c) l = Some c.
Proof.
  unfold cond_of. induction l as [|d l IH]; intros Hnd Hc; cbn in *.
  { by apply not_elem_of_nil in Hc. }
  apply NoDup_cons in Hnd as [Hd Hnd]. apply elem_of_cons in Hc as [->|Hc].
  - unfold has_type. by rewrite bool_decide_true.
  - unfold has_type at 1. rewrite bool_decide_false; [by apply IH|].
    intros Heq. apply Hd. rewrite Heq. apply list_elem_of_In, in_map. by apply list_elem_of_In.
Qed.

Lemma cond_of_elem ty l c : cond_of ty l = Some c -> c ∈ l.
Proof. intros H. apply find_some in H as [H _]. by apply list_elem_of_In. Qed.

(** ** One iteration of a loop over the steps *)

(** The entry after an iteration; its transition time is left open. *)
Definition cond_after (err : option GoError) (c c' : Condition) : Prop :=
  c_Type c' = c_Type c /\
  match err with
  | None => c_Status c' = ConditionTrue
  | Some e => c_Status c' = ConditionFalse /\ c_Message c' = err_text e
  end.

(** What one iteration does to the conditions, given how its step ended. *)
Definition cond_outcome (ty : string) (err : option GoError) (l l' : list Condition) : Prop :=
  (exists c, cond_of ty l' = Some c /\
     match err with
     | None => c_Status c = ConditionTrue
     | Some e => c_Status c = ConditionFalse /\ c_Message c = err_text e
     end) /\
  (forall ty', ty' <> ty -> cond_of ty' l' = cond_of ty' l) /\
  (cond_types l' = cond_types l \/
   ((ty ∉ cond_types l) /\ cond_types l' = cond_types l ++ [ty])).

Lemma insert_outcome i ty c c' err (l0 l : list Condition) :
  find_index (has_type ty) l = Some i -> l !! i = Some c -> cond_after err c c' ->
  (forall ty', ty' <> ty -> cond_of ty' l = cond_of ty' l0) ->
  (cond_types l = cond_types l0 \/
   ((ty ∉ cond_types l0) /\ cond_types l = cond_types l0 ++ [ty])) ->
  cond_outcome ty err l0 (<[i := c']> l).
Proof.
  intros Hi Hl [Hty Hc'] Hne Htys. pose proof (find_index_cond ty l) as Hg. rewrite Hi in Hg.
  destruct Hg as (d & Hd & Hg). rewrite Hl in Hd. injection Hd as <-.
  apply cond_of_type in Hg. split_and!.
  - exists c'. split; [|done]. apply cond_of_insert_eq; congruence.
  - intros ty' H. rewrite <- Hne by done. eapply cond_of_insert_ne; [done..|congruence].
  - by rewrite (cond_types_insert _ _ _ _ Hl Hty).
Qed.
