(* ===== verification/ImageName.v ===== *)
(** * Image names ([withRandomTag] and [renderNewImageName])

    How the reference of the image to commit is made from the reference of the
    container's image: [internal/controller/snapshotpod_controller.go], lines
    252 to 311.  The reference parser is [github.com/containers/image], a
    parameter of the model ([ImageRefLib.ImageRef]). *)

From S2P Require Import Prelude GoStrings World Lo Cluster Store ImageRefLib Fixtures.
From Stdlib Require Import Ascii.

(** ** Definitions *)

(** The loop [for k, v := range m { format = strings.ReplaceAll(...) }] on the
    entries of [m] in the order the loop visits them. *)
Definition expand_format (entries : list (string * string)) (format : string) : string :=
  foldl (fun f e => ReplaceAll f ("{" +:+ fst e +:+ "}") (snd e)) format entries.

Section ImageName.
Context {E : Type} {lib : Lo} {ir : ImageRef}.

Definition withRandomTag (tag : string) (appendSnappedSuffix : bool) : M E string :=
  if negb appendSnappedSuffix then mret tag
  else if Contains tag "snapped-" then mret tag
  else
    t ← now;
    u ← uuid_New_String;
    match take_bytes 8 (ReplaceAll u "-" "") with
    | None => panic "slice bounds out of range"
    | Some h =>
        let suffix := "snapped-" +:+ Itoa (time_Unix t) +:+ "-" +:+ h in
        if bool_decide (tag = "") || bool_decide (tag = "latest") then mret suffix
        else mret (tag +:+ "-" +:+ suffix)
    end.

(** The map [m] of [renderNewImageName] for a parsed reference. *)
Definition format_map (r : Named) : gmap string string :=
  let domain := Domain r in
  let p := Path r in
  let tag := match Tagged r with
             | Some t => t
             | None => match CanonicalHex r with Some h => h | None => "" end
             end in
  let lr := lo_Last (Split p "/") in
  {[ "domain" := domain; "repository" := p; "last_repository" := lr; "tag" := tag ]}.

Definition renderNewImageName (originImage format : string) (appendSnappedSuffix : bool)
    : M E (result string) :=
  match ParseReference ("//" +:+ originImage) with
  | inr err => mret (inr err)
  | inl r =>
      entries ← range_map (format_map r);
      match ParseReference ("//" +:+ expand_format entries format) with
      | inr err => mret (inr err)
      | inl ref =>
          newTag ← match Tagged ref with
                   | None => withRandomTag "" appendSnappedSuffix
                   | Some t => withRandomTag t appendSnappedSuffix
                   end;
          match WithTag ref newTag with
          | inr err => mret (inr err)
          | inl v => mret (inl (RefString v))
          end
      end
  end.
End ImageName.

(** ** Templates

    A well-formed image format is literal text without an opening brace and
    placeholders.  [print] is the format the user writes, [expand] replaces the
    placeholders by the values that [m] has for them. *)

Inductive seg := Lit (s : string) | Var (k : string).

Definition print_seg (x : seg) : string :=
  match x with Lit s => s | Var k => "{" +:+ k +:+ "}" end.

Fixpoint print (t : list seg) : string :=
  match t with [] => "" | x :: t' => print_seg x +:+ print t' end.

Definition seg_wf (x : seg) : Prop :=
  match x with
  | Lit s => byte_in "{" s = false
  | Var k => byte_in "{" k = false /\ byte_in "}" k = false
  end.

#[global] Instance seg_wf_dec x : Decision (seg_wf x).
Proof. destruct x; cbn; apply _. Defined.

Definition expand_with (value : string -> option string) (t : list seg) : string :=
  print (map (fun x => match x with
                       | Var k => match value k with Some v => Lit v | None => x end
                       | Lit _ => x
                       end) t).

Definition expand (m : gmap string string) : list seg -> string := expand_with (m !!.).

(** What the comment on [ImageRefFormat] says of the placeholders, read without
    the code. *)

(** What stands behind the last slash. *)
Fixpoint last_part (s : string) : string :=
  match s with
  | "" => ""
  | String _ s' => if byte_in "/" s then last_part s' else s
  end.

(** "domain - the registry domain; repository - the repository of origin image, the
    whole part behind the domain; last_repository - the last part; tag - the tag of
    origin image, if not set, will be latest, if use sha format the real sha value." *)
Definition documented_value {ir : ImageRef} (r : Named) (k : string) : option string :=
  match k with
  | "domain" => Some (Domain r)
  | "repository" => Some (Path r)
  | "last_repository" => Some (last_part (Path r))
  | "tag" => Some match CanonicalHex r, Tagged r with
                  | Some sha, _ => sha
                  | None, Some tag => tag
                  | None, None => "latest"
                  end
  | _ => None
  end.

Lemma last_part_Split s : last (Split s "/") = Some (last_part s).
Proof.
  assert (let '(p, r) := split_from "/" 0 s in
    last (p :: r) = Some (last_part s) /\
    (if byte_in "/" s then r <> [] else r = [] /\ p = s)) as H.
  { induction s as [|c s IH]; [done|].
    change (split_from "/" 0 (String c s)) with
      (if HasPrefix "/" (String c s)
       then let '(p, r) := split_from "/" 0 s in ("", p :: r)
       else let '(p, r) := split_from "/" 0 s in (String c p, r)).
    cbn [HasPrefix byte_in last_part]. destruct (split_from "/" 0 s) as [p r].
    rewrite andb_true_r. destruct IH as [Hl Hs]. destruct (Ascii.eqb "/" c); cbn [orb].
    - by split.
    - destruct (byte_in "/" s).
      + split; [|done]. by destruct r.
      + destruct Hs as [-> ->]. by split. }
  unfold Split. by destruct (split_from "/" 0 s) as [p r], H.
Qed.

(** One [ReplaceAll] as an operation on templates. *)
Definition subst1 (k v : string) (x : seg) : seg :=
  match x with
  | Var k' => if bool_decide (k' = k) then Lit v else x
  | Lit _ => x
  end.

Lemma subst1_wf k v t :
  byte_in "{" v = false -> Forall seg_wf t -> Forall seg_wf (map (subst1 k v) t).
Proof.
  intros Hv. induction 1 as [|x t Hx _ IH]; cbn; constructor; [|done].
  destruct x; cbn; [done|]. by case_bool_decide.
Qed.

(** A placeholder matches only the pattern of its own name. *)
Lemma HasPrefix_placeholder k k' t :
  byte_in "}" k = false -> byte_in "}" k' = false ->
  HasPrefix (k +:+ "}") (k' +:+ "}" +:+ t) = true -> k = k'.
Proof.
  revert k'. induction k as [|c k IH]; intros [|d k'] Hk Hk' H; sapp in H; [done|..].
  - apply andb_prop in H as [H _]. apply Ascii.eqb_eq in H as <-. done.
  - apply andb_prop in H as [H _]. apply Ascii.eqb_eq in H as ->. done.
  - cbn in Hk, Hk'. apply orb_false_elim in Hk as [_ Hk], Hk' as [_ Hk'].
    apply andb_prop in H as [H1 H2]. apply Ascii.eqb_eq in H1 as ->.
    f_equal. by apply IH.
Qed.

Lemma ReplaceAll_print k v t :
  byte_in "}" k = false -> Forall seg_wf t ->
  ReplaceAll (print t) ("{" +:+ k +:+ "}") v = print (map (subst1 k v) t).
Proof.
  intros Hk. induction 1 as [|x t Hx _ IH]; [done|]. cbn [print map].
  assert ("{" +:+ k +:+ "}" = String "{" (k +:+ "}")) as Hpat by reflexivity.
  destruct x as [s|k']; cbn [subst1].
  { cbn [print_seg]. rewrite Hpat, ReplaceAll_copy by done. by rewrite <- Hpat, IH. }
  destruct Hx as [Ho Hc]. case_bool_decide as Hkk.
  { subst k'. cbn [print_seg]. by rewrite ReplaceAll_match, IH. }
  cbn [print_seg]. rewrite !string_app_assoc, string_app_cons.
  rewrite ReplaceAll_cons.
  2: { rewrite Hpat. cbn [HasPrefix]. rewrite Ascii.eqb_refl. cbn.
       rewrite string_nil_app. apply not_true_iff_false. intros H.
       apply HasPrefix_placeholder in H; [by subst|done..]. }
  rewrite string_nil_app, Hpat, ReplaceAll_copy by done.
  rewrite (ReplaceAll_copy "{" _ _ "}") by done.
  by rewrite <- Hpat, IH.
Qed.

Lemma expand_format_print entries t :
  (forall k v, (k, v) ∈ entries -> byte_in "}" k = false /\ byte_in "{" v = false) ->
  Forall seg_wf t ->
  expand_format entries (print t) =
  print (foldl (fun t e => map (subst1 (fst e) (snd e)) t) t entries).
Proof.
  revert t. induction entries as [|[k v] entries IH]; intros t He Ht; [done|].
  unfold expand_format in *. cbn [foldl fst snd].
  destruct (He k v) as [Hk Hv]; [apply list_elem_of_here|].
  rewrite ReplaceAll_print by done. apply IH.
  - intros k' v' H. apply He. by apply list_elem_of_further.
  - by apply subst1_wf.
Qed.

Lemma foldl_subst1 (entries : list (string * string)) t :
  NoDup (map fst entries) ->
  foldl (fun t e => map (subst1 (fst e) (snd e)) t) t entries =
  map (fun x => match x with
                | Var k => match (list_to_map entries : gmap string string) !! k with
                           | Some v => Lit v | None => x end
                | Lit _ => x end) t.
Proof.
  revert t. induction entries as [|[k v] entries IH]; intros t Hnd; cbn.
  { rewrite <- (map_id t) at 1. apply map_ext. by intros []. }
  apply NoDup_cons in Hnd as [Hnin Hnd]. rewrite IH by done. rewrite map_map.
  apply map_ext. intros [s|k']; cbn; [done|]. case_bool_decide as Hk.
  - subst. by rewrite lookup_insert_eq.
  - by rewrite lookup_insert_ne.
Qed.

(** Whatever the order of the loop, a well-formed format is expanded as documented. *)
Lemma expand_format_spec (m : gmap string string) entries t :
  entries ≡ₚ map_to_list m ->
  map_Forall (fun k v => byte_in "}" k = false /\ byte_in "{" v = false) m ->
  Forall seg_wf t ->
  expand_format entries (print t) = expand m t.
Proof.
  intros Hp Hm Ht. rewrite expand_format_print; [|intros k v H|done].
  - rewrite foldl_subst1.
    2: { rewrite (Permutation_map fst Hp). apply NoDup_fst_map_to_list. }
    unfold expand, expand_with. f_equal. apply map_ext. intros [|k]; [done|].
    rewrite <- (list_to_map_proper (M := gmap string) (map_to_list m) entries).
    + by rewrite list_to_map_to_list.
    + apply NoDup_fst_map_to_list.
    + done.
  - apply Hm. apply elem_of_map_to_list. by rewrite <- Hp.
Qed.

(** ** Lemmas on tags *)

Lemma uuid_take8 u :
  uuid_form u ->
  exists a, take_bytes 8 (ReplaceAll u "-" "") = Some a /\ String.length a = 8%nat /\
    exists r, u = a +:+ r.
Proof.
  intros (a & r & -> & Ha & Hd). exists a. split_and!; [|done|by eexists].
  change "-" with (String "-" "") at 2. rewrite ReplaceAll_copy by done.
  rewrite <- Ha. apply take_bytes_app.
Qed.

Section Tags.
Context {E : Type} {lib : Lo} {ir : ImageRef}.

Lemma withRandomTag_off tag (w : World E) : withRandomTag tag false w = (Ret tag, w).
Proof. reflexivity. Qed.

Lemma withRandomTag_snapped tag b (w : World E) :
  Contains tag "snapped-" = true -> withRandomTag tag b w = (Ret tag, w).
Proof. intros H. unfold withRandomTag. destruct b; cbn; [|done]. by rewrite H. Qed.

(** The tag that the suffix is appended to. *)
Definition tag_base (tag : string) : string :=
  if bool_decide (tag = "") || bool_decide (tag = "latest") then "" else tag +:+ "-".

Lemma withRandomTag_fresh tag (w : World E) :
  Contains tag "snapped-" = false -> uuid_form (w_uuid w (w_uuid_i w)) ->
  exists h w', take_bytes 8 (w_uuid w (w_uuid_i w)) = Some h /\
    withRandomTag tag true w =
    (Ret (tag_base tag +:+ "snapped-" +:+ Itoa (time_Unix (w_clock w (w_clock_i w)))
          +:+ "-" +:+ h), w') /\ w_trace w' = w_trace w /\ w_ext w' = w_ext w /\
    w_env w' = w_env w.
Proof.
  intros Hc Hu. destruct (uuid_take8 _ Hu) as (h & Hh & Hl & r & Hr).
  exists h. eexists. split.
  { rewrite Hr, <- Hl. apply take_bytes_app. }
  split; [|shelve]. unfold withRandomTag, tag_base. cbn. rewrite Hc. cbn.
  unfold mbind, M_bind. cbn. rewrite Hh.
  destruct (bool_decide _ || bool_decide _).
  - reflexivity.
  - rewrite string_app_assoc. reflexivity.
  Unshelve. done.
Qed.

Lemma snapped_contains a b : Contains (a +:+ "snapped-" +:+ b) "snapped-" = true.
Proof. apply Contains_app_r, Contains_app_l. reflexivity. Qed.

Lemma withRandomTag_wp tag b (w : World E) :
  uuid_form (w_uuid w (w_uuid_i w)) ->
  wp (withRandomTag tag b) (fun t w' =>
        (if b then Contains t "snapped-" = true else t = tag) /\
        w_trace w' = w_trace w /\ w_ext w' = w_ext w /\ w_env w' = w_env w) w.
Proof.
  intros Hu. apply wp_run. destruct b; [|by exists tag, w].
  destruct (Contains tag "snapped-") eqn:Hc.
  - exists tag, w. by rewrite withRandomTag_snapped.
  - destruct (withRandomTag_fresh tag w Hc Hu) as (h & w' & _ & Hrun & ? & ? & ?).
    eexists _, w'. rewrite Hrun. split; [done|]. split; [|done].
    apply snapped_contains.
Qed.

Lemma total_withRandomTag tag b : total (E := E) (withRandomTag tag b).
Proof.
  intros w Hw. unfold withRandomTag.
  destruct b; [|done]. destruct (Contains tag "snapped-"); [done|].
  destruct (uuid_take8 _ (Hw (w_uuid_i w))) as (h & Hh & _).
  unfold wp, post, mbind, M_bind. cbn. rewrite Hh. by destruct (_ || _).
Qed.

Lemma emits_withRandomTag P tag b : emits (E := E) P (withRandomTag tag b).
Proof. unfold withRandomTag. emits. Qed.

Lemma emits_renderNewImageName P o f b : emits (E := E) P (renderNewImageName o f b).
Proof. unfold renderNewImageName. emits; apply emits_withRandomTag. Qed.

Lemma total_renderNewImageName o f b : total (E := E) (renderNewImageName o f b).
Proof. unfold renderNewImageName. total; apply total_withRandomTag. Qed.

Lemma format_map_chars s r :
  ParseReference s = inl r ->
  map_Forall (fun k v => byte_in "}" k = false /\ byte_in "{" v = false) (format_map r).
Proof.
  intros Hr. destruct (ParseReference_chars s r Hr) as (Hd & Hp & Ht & Hh).
  unfold format_map. repeat apply map_Forall_insert_2; try apply map_Forall_empty.
  all: split; [reflexivity|]; auto.
  - rewrite lo_Last_law. destruct (last (Split (Path r) "/")) as [x|] eqn:Hx; [|done].
    cbn. pose proof (byte_in_Split "{" (Path r) "/" ltac:(done) Hp) as HF.
    rewrite Forall_forall in HF. apply HF. by apply last_Some_elem_of.
  - destruct (Tagged r) as [t|]; [by apply Ht|].
    destruct (CanonicalHex r) as [h|]; [by apply Hh|done].
Qed.

(** The reference that the documentation of [ImageRefFormat] promises. *)
Definition documented_format (r : Named) (t : list seg) : string :=
  expand_with (documented_value r) t.

(** The map of the code has the documented values. *)
Lemma format_map_documented s r k :
  Contains s UnknownDigestSuffix = false -> ParseReference s = inl r ->
  format_map r !! k = documented_value r k.
Proof.
  intros Hs Hr. pose proof (ParseReference_form s r Hs Hr) as Hform. unfold format_map.
  assert (match Tagged r with
          | Some t => t
          | None => match CanonicalHex r with Some h => h | None => "" end
          end = match CanonicalHex r, Tagged r with
                | Some sha, _ => sha | None, Some tag => tag | None, None => "latest"
                end) as ->.
  { destruct (Tagged r) as [t|], (CanonicalHex r) as [h|]; try done.
    - destruct Hform as [Hf _]. by discriminate Hf.
    - destruct Hform as [_ Hf]. by destruct Hf. }
  rewrite lo_Last_law, last_part_Split. cbn [default].
  destruct (decide (k = "domain")) as [->|?]; [done|].
  destruct (decide (k = "repository")) as [->|?]; [done|].
  destruct (decide (k = "last_repository")) as [->|?]; [done|].
  destruct (decide (k = "tag")) as [->|?]; [done|].
  rewrite !lookup_insert_ne, lookup_singleton_ne by done.
  unfold documented_value. repeat case_match; congruence.
Qed.

Lemma render_entries s r t n :
  Contains s UnknownDigestSuffix = false -> ParseReference s = inl r -> Forall seg_wf t ->
  expand_format (permute n (map_to_list (format_map r))) (print t) = documented_format r t.
Proof.
  intros Hs Hr Ht. rewrite (expand_format_spec (format_map r));
    [|apply permute_Permutation|by eapply format_map_chars|done].
  unfold expand, documented_format, expand_with. f_equal. apply map_ext. intros [|k]; [done|].
  by rewrite (format_map_documented s).
Qed.
End Tags.

#[export] Hint Resolve emits_withRandomTag emits_renderNewImageName : effects.
#[export] Hint Resolve total_withRandomTag total_renderNewImageName : total.

(** ** Theorems *)

Section Theorems.
Context {E : Type} {lib : Lo} {ir : ImageRef}.

(** What follows the expansion of the format, for a tag that is known. *)
Definition retag (s : string) (f : string -> string) : result string :=
  match ParseReference ("//" +:+ s) with
  | inr err => inr err
  | inl ref =>
      match WithTag ref (f (default "" (Tagged ref))) with
      | inr err => inr err
      | inl v => inl (RefString v)
      end
  end.

(** [C29] Without the suffix, a well-formed format gives the documented image name: every
    placeholder is replaced by the value that the documentation gives it, whatever the
    order in which Go walks the map, and the tag of the result is the tag that was
    written.  The reference of the container's image is one with a tag or a digest,
    be it the tag latest that was left out, and not of an unknown digest. *)
Theorem renderNewImageName_plain origin r (t : list seg) (w : World E) :
  Contains ("//" +:+ origin) UnknownDigestSuffix = false ->
  ParseReference ("//" +:+ origin) = inl r -> Forall seg_wf t ->
  fst (renderNewImageName origin (print t) false w) =
  Ret (retag (documented_format r t) id).
Proof.
  intros Hs Hr Ht. unfold renderNewImageName, retag. rewrite Hr.
  unfold range_map, mbind, M_bind, choose, mret, M_ret. cbn beta iota zeta.
  rewrite (render_entries _ _ _ _ Hs Hr Ht).
  destruct (ParseReference ("//" +:+ documented_format r t)) as [ref|err]; [|done].
  destruct (Tagged ref) as [tag|]; cbn.
  - by destruct (WithTag ref tag).
  - by destruct (WithTag ref "").
Qed.

(** [C30] With the suffix, rendering returns (no panic), touches nothing outside, and an
    image it gives is a reference whose tag has the mark "snapped-". *)
Theorem renderNewImageName_suffix origin format (w : World E) :
  uuid_ok w ->
  wp (renderNewImageName origin format true) (fun res w' =>
    w_ext w' = w_ext w /\ w_env w' = w_env w /\ w_trace w' = w_trace w /\
    forall img, res = inl img ->
      exists v t, img = RefString v /\ Tagged v = Some t /\ Contains t "snapped-" = true) w.
Proof.
  intros Hu. unfold renderNewImageName.
  destruct (ParseReference _) as [r|err]; [|by apply wp_ret].
  apply wp_bind, wp_range_map. intros n w1 He1 Hv1 Hu1 Ht1.
  assert (uuid_ok w1) as Hu' by (intros k; rewrite Hu1; apply Hu).
  rewrite <- He1, <- Hv1, <- Ht1. destruct (ParseReference _) as [ref|err]; [|by apply wp_ret].
  apply wp_bind.
  apply wp_mono with (Q := fun t w' => Contains t "snapped-" = true /\
    w_trace w' = w_trace w1 /\ w_ext w' = w_ext w1 /\ w_env w' = w_env w1).
  - destruct (Tagged ref) as [t|]; apply (withRandomTag_wp _ true), Hu'.
  - intros t w' (Hc & Htr & Hex & Hen). destruct (WithTag ref t) as [v|err] eqn:Hw.
    + apply wp_ret. split_and!; [done..|]. intros img [= <-]. exists v, t.
      apply WithTag_law in Hw as [Ht _]. done.
    + by apply wp_ret.
Qed.

(** A tag that was given a suffix keeps it: rendering it again changes nothing. *)
Theorem withRandomTag_idempotent tag b (w w1 : World E) t :
  withRandomTag tag true w = (Ret t, w1) ->
  forall w2 : World E, withRandomTag t b w2 = (Ret t, w2).
Proof.
  intros H w2. apply withRandomTag_snapped. unfold withRandomTag in H. cbn [negb] in H.
  destruct (Contains tag "snapped-") eqn:Hc; [by injection H as <- _|].
  unfold mbind, M_bind, now, uuid_New_String in H. cbn in H.
  destruct (take_bytes 8 _); [|done].
  destruct (_ || _); injection H as <- _; [apply (snapped_contains "")|].
  rewrite <- string_app_assoc. apply snapped_contains.
Qed.

(** [C40] Two fresh suffixes of one tag are equal only if they were made in the same
    second from identifiers with the same first eight characters. *)
Theorem withRandomTag_unique tag (w1 w1' w2 w2' : World E) t1 t2 :
  Contains tag "snapped-" = false ->
  uuid_form (w_uuid w1 (w_uuid_i w1)) -> uuid_form (w_uuid w2 (w_uuid_i w2)) ->
  withRandomTag tag true w1 = (Ret t1, w1') -> withRandomTag tag true w2 = (Ret t2, w2') ->
  t1 = t2 ->
  take_bytes 8 (w_uuid w1 (w_uuid_i w1)) = take_bytes 8 (w_uuid w2 (w_uuid_i w2)) /\
  time_Unix (w_clock w1 (w_clock_i w1)) = time_Unix (w_clock w2 (w_clock_i w2)).
Proof.
  intros Hc Hu1 Hu2 H1 H2 Ht.
  destruct (withRandomTag_fresh tag w1 Hc Hu1) as (h1 & ? & Hh1 & Hr1 & _).
  destruct (withRandomTag_fresh tag w2 Hc Hu2) as (h2 & ? & Hh2 & Hr2 & _).
  rewrite H1 in Hr1. rewrite H2 in Hr2. injection Hr1 as Hr1 _. injection Hr2 as Hr2 _.
  rewrite Hr1, Hr2 in Ht. do 2 apply string_app_inj_l in Ht.
  apply take_bytes_Some in Hh1 as Hl1, Hh2 as Hl2. destruct Hl1 as [Hl1 _], Hl2 as [Hl2 _].
  assert (h1 = h2) as ->.
  { rewrite <- !string_app_assoc in Ht. eapply string_app_inj_len; [|exact Ht]. congruence. }
  split; [congruence|]. rewrite <- !string_app_assoc in Ht.
  do 2 apply string_app_inj_r in Ht. by apply Itoa_inj.
Qed.
End Theorems.

(** ** Concrete runs *)

Module Witnesses.
Import Fixtures.Std.

Definition w0 : World Store := fx_world [] [].
Definition fmt1 : list seg := [Lit "reg.io/test/"; Var "last_repository"; Lit ":"; Var "tag"].

Example fmt1_print : print fmt1 = "reg.io/test/{last_repository}:{tag}".
Proof. reflexivity. Qed.

Lemma renderNewImageName_plain_witness :
  fst (renderNewImageName "jupyter:v1" (print fmt1) false w0) = Ret (inl "reg.io/test/jupyter:v1").
Proof.
  rewrite (renderNewImageName_plain (ir := ref_std) "jupyter:v1"
             (mkStdRef "docker.io" "library/jupyter" (inl "v1")) fmt1 w0).
  - vm_compute. reflexivity.
  - reflexivity.
  - reflexivity.
  - apply (bool_decide_unpack (Forall seg_wf fmt1)). vm_compute. exact I.
Defined.

(** The example of the documentation: it says "docker.io/nginx", but the repository
    of a short name is the one in the library of docker.io. *)
Definition doc_format : string := "aihaobor.daocloud.io/{domain}/{repository}:{tag}-202405230101".

Example documentation_example :
  fst (renderNewImageName "nginx:1.30.1" doc_format false w0) =
  Ret (inl "aihaobor.daocloud.io/docker.io/library/nginx:1.30.1-202405230101").
Proof. vm_compute. reflexivity. Qed.

(** A reference of an unknown digest has no tag, and its placeholder becomes empty. *)
Example unknown_digest_tag :
  fst (renderNewImageName "nginx@@unknown-digest@@" "reg.io/{repository}:v{tag}" false w0) =
  Ret (inl "reg.io/library/nginx:v").
Proof. vm_compute. reflexivity. Qed.

(** Every identifier of this world has the form of a UUID. *)
Definition w_const : World Store :=
  mkWorld (w_ext w0) ∅ (w_clock w0) O (fun _ => std_uuid 0) O (fun _ => O) O [].
Lemma w_const_ok : uuid_ok w_const.
Proof. intros n. apply fx_uuid_0. Defined.

Lemma renderNewImageName_suffix_witness :
  wp (renderNewImageName "jupyter:v1" (print fmt1) true) (fun res w' =>
    w_ext w' = w_ext w_const /\ w_env w' = w_env w_const /\ w_trace w' = w_trace w_const /\
    forall img, res = inl img ->
      exists v t, img = RefString v /\ Tagged v = Some t /\ Contains t "snapped-" = true)
    w_const /\
  fst (renderNewImageName "jupyter:v1" (print fmt1) true w_const) =
  Ret (inl "reg.io/test/jupyter:v1-snapped-1704110400-00000000").
Proof.
  split; [apply (renderNewImageName_suffix "jupyter:v1"), w_const_ok|vm_compute; reflexivity].
Defined.

Lemma withRandomTag_idempotent_witness :
  withRandomTag "v1-snapped-1704110400-00000000" true w0 =
  (Ret "v1-snapped-1704110400-00000000", w0).
Proof.
  apply (withRandomTag_idempotent "v1" true w_const (snd (withRandomTag "v1" true w_const))).
  apply run_pair. vm_compute. reflexivity.
Defined.

Lemma withRandomTag_unique_witness :
  take_bytes 8 (w_uuid w_const 0) = take_bytes 8 (w_uuid w_const 0) /\
  time_Unix (w_clock w_const 0) = time_Unix (w_clock w_const 0).
Proof.
  apply (withRandomTag_unique "v1" w_const (snd (withRandomTag "v1" true w_const)) w_const
           (snd (withRandomTag "v1" true w_const))
           "v1-snapped-1704110400-00000000" "v1-snapped-1704110400-00000000").
  - reflexivity.
  - apply fx_uuid_0.
  - apply fx_uuid_0.
  - apply run_pair. vm_compute. reflexivity.
  - apply run_pair. vm_compute. reflexivity.
  - reflexivity.
Defined.

(** When the value of one placeholder completes another one, the result depends
    on the order in which Go walks the map: here the tag of the image is the
    word "repository". *)
Lemma expand_format_order_dependent :
  let m := [("repository", "library/nginx"); ("tag", "repository")] in
  expand_format m "reg.io/{{tag}}" = "reg.io/{repository}" /\
  expand_format (rev m) "reg.io/{{tag}}" = "reg.io/library/nginx".
Proof. vm_compute. by split. Qed.
End Witnesses.
