(* ===== verification/SnapshotPodController.v ===== *)
(** * The SnapshotPod controller ([internal/controller/snapshotpod_controller.go])

    The reconciler of the cluster-wide manager: it finds the target pod,
    creates one task per container for a new trigger round, copies the results
    of the tasks into the status, and keeps the conditions.  The [sp] pointer
    that Go mutates is threaded: a step takes the object and returns the
    changed one together with its error. *)

From S2P Require Import Prelude GoStrings ApiTypes World Lo Cluster Store ImageRefLib.
From S2P Require Import Fixtures Metrics Conditions ImageName.
From Stdlib Require Import Ascii.

(** The result of a reconcile, [ctrl.Result]. *)
Record CtrlResult := { RequeueAfter : Duration }.
Definition empty_result : CtrlResult := {| RequeueAfter := 0 |}.

(** [cmpConditionWithoutTime] *)
Definition cmpConditionWithoutTime (c1 c2 : Condition) : bool :=
  bool_decide (c_Status c1 = c_Status c2) && bool_decide (c_Message c1 = c_Message c2) &&
  bool_decide (c_Reason c1 = c_Reason c2) && bool_decide (c_Type c1 = c_Type c2).

Section Defs.
Context {E : Type} {lib : Lo} {ir : ImageRef} {kl : KubeLib} {kc : KubeClient E}.

Definition getPod (sp : SnapshotPod) : M E (result Pod) :=
  let target := sp_Target (sp_Spec sp) in
  if bool_decide (tp_Name target = "") && bool_decide (tp_Selector target = None)
  then mret (inr (Errorf "target pod name or selector is required"))
  else if bool_decide (tp_Name target <> "")
  then Get_Pod (Namespace (sp_meta sp), tp_Name target)
  else
    match tp_Selector target with
    | Some sel =>
        r ← List_Pods (Some (SelectorFromSet (Some sel))) (Namespace (sp_meta sp));
        match r with
        | inr err => mret (inr (Wrapf "failed to list pods: " err))
        | inl items =>
            match List.filter (fun p => bool_decide (pod_Phase p = PodRunning)) items with
            | [] => mret (inr (Errorf ("no running pod found with selector " +:+ fmt_map sel)))
            | [p] => mret (inl p)
            | runningPods =>
                let podNames := map (fun p => Name (pod_meta p)) runningPods in
                mret (inr (Errorf ("multiple running pods found with selector " +:+
                                   fmt_map sel +:+ ": " +:+ Join podNames ", ")))
            end
        end
    | None => mret (inr (Errorf "target selector not specified"))
    end.

Definition container_names (pod : Pod) : list string :=
  lo_Map (pod_Containers (pod_Spec pod)) (fun item _ => ctr_Name item).

Definition validate (sp : SnapshotPod) : M E (SnapshotPod * option GoError) :=
  if bool_decide (sp_LastTriggerRound (sp_Status sp) = sp_TriggerRound (sp_Spec sp))
  then mret (sp, None)
  else
    r ← getPod sp;
    match r with
    | inr err => mret (sp, Some err)
    | inl pod =>
        let containers := tp_Containers (sp_Target (sp_Spec sp)) in
        if bool_decide (length containers <> O) &&
           bool_decide (length (lo_Without containers (container_names pod)) <> O)
        then mret (sp, Some (Errorf ("containers " +:+ fmt_strings containers +:+ " not valid")))
        else mret (sp, None)
    end.

Definition snapshotPodOwner (sp : SnapshotPod) : OwnerReference :=
  NewControllerRef (sp_meta sp) (WithKind ApiGroupVersion "SnapshotPod").

(** [fmt.Sprintf("%s-%d-%s", sp.Name, sp.Spec.TriggerRound, c)] *)
Definition task_name (spName : string) (round : Z) (c : string) : string :=
  spName +:+ "-" +:+ Itoa round +:+ "-" +:+ c.

(** The object [spt] of one loop iteration. *)
Definition new_task (sp : SnapshotPod) (pod : Pod) (c : string) (cs : ContainerStatus)
    (newImage : string) : SnapshotPodTask :=
  let opts := sp_ImageSaveOptions (sp_Spec sp) in
  mkTask
    (mkMeta (task_name (Name (sp_meta sp)) (sp_TriggerRound (sp_Spec sp)) c)
            (Namespace (sp_meta sp)) "" ""
            (Some {[ SnapshotNameLabel := Name (sp_meta sp) ]})
            [snapshotPodOwner sp] 0 None)
    {| ts_NodeName := pod_NodeName (pod_Spec pod);
       ts_PodName := Name (pod_meta pod);
       ts_ContainerID := cs_ContainerID cs;
       ts_CommitOptions := sp_CommitOptions (sp_Spec sp);
       ts_OriginImage := cs_Image cs;
       ts_OriginRegistrySecretRef := "";
       ts_CommitImage := newImage;
       ts_RegistrySecretRef := iso_RegistrySecretRef opts;
       ts_MaxRetries := iso_MaxRetries opts;
       ts_RetryDelaySeconds := iso_RetryDelaySeconds opts |}
    empty_task_status.

(** [append] of one run, then the cut of a list that is longer than 20. *)
Definition append_run (r : SnapshotRunningStatus) (l : list SnapshotRunningStatus)
    : list SnapshotRunningStatus :=
  let l' := l ++ [r] in
  if bool_decide (20 < length l')%nat then last_n 5 l' else l'.

(** One iteration of the loop over the containers. *)
Definition create_task (pod : Pod) (c : string) (sp : SnapshotPod)
    : M E (SnapshotPod * option GoError) :=
  match lo_Filter (pod_ContainerStatuses pod)
          (fun item _ => bool_decide (cs_Name item = c)) with
  | [] =>
      mret (sp, Some (Errorf ("container status of " +:+ Namespace (pod_meta pod) +:+ "/" +:+
                              Name (pod_meta pod) +:+ "/" +:+ c +:+ " not found")))
  | cs :: _ =>
      if bool_decide (cs_ContainerID cs = "")
      then mret (sp, Some (Errorf ("container " +:+ c +:+ " not started")))
      else
        let opts := sp_ImageSaveOptions (sp_Spec sp) in
        let appendSnappedSuffix := default true (iso_AppendSnappedSuffix opts) in
        r ← renderNewImageName (cs_Image cs) (iso_ImageRefFormat opts) appendSnappedSuffix;
        match r with
        | inr err => mret (sp, Some err)
        | inl newImage =>
            '(spt, err) ← Create_Task (new_task sp pod c cs newImage);
            if match err with Some e => negb (IsAlreadyExists e) | None => false end
            then mret (sp, err)
            else
              t ← now;
              mret (set_Snapshots (append_run
                (mkRun (sp_TriggerRound (sp_Spec sp)) t (Name (t_meta spt))
                       (ts_CommitImage (t_Spec spt)) c SnapshotRunningResultCreated "" None)
                (sp_Snapshots (sp_Status sp))) sp, None)
        end
  end.

Fixpoint create_tasks (pod : Pod) (containers : list string) (sp : SnapshotPod)
    : M E (SnapshotPod * option GoError) :=
  match containers with
  | [] => mret (sp, None)
  | c :: containers' =>
      '(sp', err) ← create_task pod c sp;
      match err with
      | Some e => mret (sp', Some e)
      | None => create_tasks pod containers' sp'
      end
  end.

(** The containers a snapshot of [pod] covers. *)
Definition snapshot_containers (sp : SnapshotPod) (pod : Pod) : list string :=
  let containers := tp_Containers (sp_Target (sp_Spec sp)) in
  if bool_decide (length containers <> O) then containers else container_names pod.

(** A run of the current round is recorded in the status. *)
Definition round_recorded (sp : SnapshotPod) : bool :=
  lo_ContainsBy (sp_Snapshots (sp_Status sp))
    (fun item => bool_decide (run_TriggerRound item = sp_TriggerRound (sp_Spec sp))).

Definition reconcileTasks (sp : SnapshotPod) : M E (SnapshotPod * option GoError) :=
  if bool_decide (sp_LastTriggerRound (sp_Status sp) = sp_TriggerRound (sp_Spec sp))
  then mret (sp, None)
  else if round_recorded sp
  then mret (set_LastTriggerRound (sp_TriggerRound (sp_Spec sp)) sp, None)
  else
    r ← getPod sp;
    match r with
    | inr err => mret (sp, Some err)
    | inl pod => create_tasks pod (snapshot_containers sp pod) sp
    end.

(** The body of the loop over the recorded runs. *)
Definition update_run (sptMap : gmap string SnapshotPodTask) (s : SnapshotRunningStatus)
    : M E SnapshotRunningStatus :=
  if bool_decide (run_Result s = SnapshotRunningResultSuccess) ||
     bool_decide (run_Result s = SnapshotRunningResultFailed)
  then mret s
  else
    match sptMap !! run_TaskName s with
    | None =>
        mret (set_run_FailedReason "can not fetch task"
               (set_run_Result SnapshotRunningResultCreated s))
    | Some spt =>
        let phase := t_Phase (t_Status spt) in
        if bool_decide (phase = SnapshotPodTaskPhaseCompleted) then
          t ← now;
          mret (set_run_CompletedAt (Some t) (set_run_Result SnapshotRunningResultSuccess s))
        else if bool_decide (phase = SnapshotPodTaskPhaseFailed) then
          let msgs := map c_Message
            (List.filter (fun cond => negb (bool_decide (c_Status cond = ConditionTrue)))
                         (t_Conditions (t_Status spt))) in
          mret (set_run_FailedReason (Join msgs ", ")
                 (set_run_Result SnapshotRunningResultFailed s))
        else mret s
    end.

Fixpoint update_runs (sptMap : gmap string SnapshotPodTask) (l : list SnapshotRunningStatus)
    : M E (list SnapshotRunningStatus) :=
  match l with
  | [] => mret []
  | s :: l' =>
      s' ← update_run sptMap s;
      l'' ← update_runs sptMap l';
      mret (s' :: l'')
  end.

(** The tasks of a listing, by name. *)
Definition task_map (items : list SnapshotPodTask) : gmap string SnapshotPodTask :=
  lo_SliceToMap items (fun item => (Name (t_meta item), item)).

Definition reconcileTasksStatus (sp : SnapshotPod) : M E (SnapshotPod * option GoError) :=
  (* the error is dropped *)
  let '(selector, _) := LabelSelectorAsSelector {[ SnapshotNameLabel := Name (sp_meta sp) ]} in
  r ← List_Tasks selector "";
  match r with
  | inr err => mret (sp, Some err)
  | inl items =>
      l ← update_runs (task_map items) (sp_Snapshots (sp_Status sp));
      mret (set_Snapshots l sp, None)
  end.

(** ** The reconcile loop *)

Record rec := { typ : string; r : SnapshotPod -> M E (SnapshotPod * option GoError) }.

Definition recs : list rec :=
  [ {| typ := "Accept"; r := validate |};
    {| typ := "Tasks"; r := reconcileTasks |};
    {| typ := "TaskStatus"; r := reconcileTasksStatus |} ].

(** [&sp.Status.Conditions[i]] as an assignment target. *)
Definition update_cond (i : nat) (f : Condition -> Condition) (sp : SnapshotPod)
    : M E SnapshotPod :=
  match sp_Conditions (sp_Status sp) !! i with
  | None => panic "index out of range"
  | Some c => mret (set_Conditions (<[i := f c]> (sp_Conditions (sp_Status sp))) sp)
  end.

Definition get_cond (i : nat) (sp : SnapshotPod) : M E Condition :=
  match sp_Conditions (sp_Status sp) !! i with
  | None => panic "index out of range"
  | Some c => mret c
  end.

(** The index of the condition of type [ty], which is appended if it is missing. *)
Definition ensure_cond (ty : string) (sp : SnapshotPod) : M E (nat * SnapshotPod) :=
  match lo_FindIndexOf (sp_Conditions (sp_Status sp))
          (fun item => bool_decide (c_Type item = ty)) with
  | Some i => mret (i, sp)
  | None =>
      t ← now;
      let c := mkCondition ty ConditionUnknown t (ty +:+ "Ready") "" in
      mret (length (sp_Conditions (sp_Status sp)),
            set_Conditions (sp_Conditions (sp_Status sp) ++ [c]) sp)
  end.

(** What an iteration does with the outcome of its step. *)
Definition finish_rec (i : nat) (old : Condition) (sp : SnapshotPod) (err : option GoError)
    : M E (SnapshotPod * option GoError) :=
  match err with
  | Some e =>
      sp ← update_cond i (set_c_Status ConditionFalse) sp;
      sp ← update_cond i (set_c_Message (err_text e)) sp;
      mret (sp, Some e)
  | None =>
      sp ← update_cond i (set_c_Status ConditionTrue) sp;
      c ← get_cond i sp;
      if negb (cmpConditionWithoutTime old c) then
        t ← now;
        sp ← update_cond i (set_c_LastTransitionTime t) sp;
        mret (sp, None)
      else mret (sp, None)
  end.

(** One iteration of the loop over [recs]; an error means [break]. *)
Definition run_rec (x : rec) (sp : SnapshotPod) : M E (SnapshotPod * option GoError) :=
  '(i, sp) ← ensure_cond (typ x) sp;
  old ← get_cond i sp;
  '(sp, err) ← r x sp;
  finish_rec i old sp err.

(** The loop [for _, rec := range recs]. *)
Fixpoint run_recs (l : list rec) (sp : SnapshotPod) : M E SnapshotPod :=
  match l with
  | [] => mret sp
  | x :: l' =>
      '(sp, err) ← run_rec x sp;
      match err with
      | Some _ => mret sp
      | None => run_recs l' sp
      end
  end.

(** A run that has no final result. *)
Definition run_unfinished (item : SnapshotRunningStatus) : bool :=
  negb (bool_decide (run_Result item = SnapshotRunningResultSuccess) ||
        bool_decide (run_Result item = SnapshotRunningResultFailed)).

Definition needs_requeue (sp : SnapshotPod) : bool :=
  bool_decide (is_Some (lo_Find (sp_Snapshots (sp_Status sp)) run_unfinished)) ||
  lo_ContainsBy (sp_Conditions (sp_Status sp))
    (fun item => negb (bool_decide (c_Status item = ConditionTrue))).

Definition Reconcile (req : key) : M E (CtrlResult * option GoError) :=
  startTime ← now;
  g ← Get_SnapshotPod req;
  match g with
  | inr err =>
      RecordControllerError "snapshotpod" "get_instance_error" ;;
      d ← since startTime;
      RecordControllerReconcile "snapshotpod" ControllerResultError d ;;
      mret (empty_result, Some err)
  | inl sp =>
      if bool_decide (sp_TriggerRound (sp_Spec sp) <= 0) then mret (empty_result, None)
      else
        sp ← run_recs recs sp;
        '(sp, err) ← StatusUpdate_SnapshotPod sp;
        match err with
        | Some e => mret (empty_result, Some e)
        | None =>
            if needs_requeue sp then
              d ← since startTime;
              RecordControllerReconcile "snapshotpod" ControllerResultRequeue d ;;
              mret ({| RequeueAfter := Second * 15 |}, None)
            else
              d ← since startTime;
              RecordControllerReconcile "snapshotpod" ControllerResultSuccess d ;;
              mret (empty_result, None)
        end
  end.
End Defs.

(** ** Effects and totality *)

(** The steps write nothing but new tasks. *)
Definition task_create (e : Event) : Prop :=
  match e with EvTaskCreate _ _ => True | _ => False end.

#[export] Hint Extern 1 (task_create _) => exact I : effects.

Section Effects.
Context {E : Type} {lib : Lo} {ir : ImageRef} {kl : KubeLib} {kc : KubeClient E}.
Implicit Types sp : SnapshotPod.

Lemma emits_getPod P sp : emits P (getPod sp).
Proof. unfold getPod. emits. Qed.
Lemma total_getPod sp : total (getPod sp).
Proof. unfold getPod. total. Qed.

Hint Resolve emits_getPod : effects.
Hint Resolve total_getPod : total.

Lemma emits_validate P sp : emits P (validate sp).
Proof. unfold validate. emits. Qed.
Lemma total_validate sp : total (validate sp).
Proof. unfold validate. total. Qed.

Lemma emits_create_task pod c sp : emits task_create (create_task pod c sp).
Proof. unfold create_task. emits. Qed.
Lemma total_create_task pod c sp : total (create_task pod c sp).
Proof. unfold create_task. total. Qed.

Hint Resolve emits_create_task : effects.
Hint Resolve total_create_task : total.

Lemma emits_create_tasks pod l sp : emits task_create (create_tasks pod l sp).
Proof. revert sp. induction l as [|c l IH]; intros sp; cbn [create_tasks]; emits. Qed.
Lemma total_create_tasks pod l sp : total (create_tasks pod l sp).
Proof. revert sp. induction l as [|c l IH]; intros sp; cbn [create_tasks]; total. Qed.

Hint Resolve emits_create_tasks : effects.
Hint Resolve total_create_tasks : total.

Lemma emits_reconcileTasks sp : emits task_create (reconcileTasks sp).
Proof. unfold reconcileTasks. emits. Qed.
Lemma total_reconcileTasks sp : total (reconcileTasks sp).
Proof. unfold reconcileTasks. total. Qed.

Lemma emits_update_run P m s : emits (E := E) P (update_run m s).
Proof. unfold update_run. emits. Qed.
Lemma total_update_run m s : total (E := E) (update_run m s).
Proof. unfold update_run. total. Qed.

Hint Resolve emits_update_run : effects.
Hint Resolve total_update_run : total.

Lemma emits_update_runs P m l : emits (E := E) P (update_runs m l).
Proof. induction l; cbn [update_runs]; emits. Qed.
Lemma total_update_runs m l : total (E := E) (update_runs m l).
Proof. induction l; cbn [update_runs]; total. Qed.

Hint Resolve emits_update_runs : effects.
Hint Resolve total_update_runs : total.

Lemma emits_reconcileTasksStatus P sp : emits P (reconcileTasksStatus sp).
Proof. unfold reconcileTasksStatus. emits. Qed.
Lemma total_reconcileTasksStatus sp : total (reconcileTasksStatus sp).
Proof. unfold reconcileTasksStatus. total. Qed.
End Effects.

(** ** What a step leaves alone *)

(** The two objects differ at most in their runs and in the last trigger round. *)
Definition same_frame (sp sp' : SnapshotPod) : Prop :=
  sp_meta sp' = sp_meta sp /\ sp_Spec sp' = sp_Spec sp /\
  sp_Conditions (sp_Status sp') = sp_Conditions (sp_Status sp).

#[global] Instance same_frame_preorder : PreOrder same_frame.
Proof.
  split; unfold same_frame; [done|].
  intros a b c (-> & -> & ->) (-> & -> & ->). done.
Qed.

(** A new task of [sp]: beside it, named after its round, owned and labelled by it. *)
Definition own_task {kl : KubeLib} sp (t : SnapshotPodTask) : Prop :=
  (exists c, Name (t_meta t) = task_name (Name (sp_meta sp)) (sp_TriggerRound (sp_Spec sp)) c) /\
  Namespace (t_meta t) = Namespace (sp_meta sp) /\
  OwnerReferences (t_meta t) = [snapshotPodOwner sp] /\
  Labels (t_meta t) = Some {[ SnapshotNameLabel := Name (sp_meta sp) ]} /\
  t_Status t = empty_task_status.

(** What the controller may do for the object [sp] it has fetched: create tasks of
    it, write its status, and record metrics as they are declared. *)
Definition own_event {kl : KubeLib} sp (e : Event) : Prop :=
  match e with
  | EvTaskCreate t _ => own_task sp t
  | EvSpStatus sp' _ => sp_meta sp' = sp_meta sp /\ sp_Spec sp' = sp_Spec sp
  | _ => metric_ok e
  end.

Lemma new_task_own {kl : KubeLib} sp sp' pod c cs img :
  same_frame sp sp' -> own_task sp (new_task sp' pod c cs img).
Proof.
  intros (Hm & Hs & _). unfold own_task, new_task, snapshotPodOwner. rewrite Hm, Hs.
  split_and!; try done. by exists c.
Qed.

Lemma new_task_frame {kl : KubeLib} sp sp' pod c cs img :
  same_frame sp sp' -> new_task sp' pod c cs img = new_task sp pod c cs img.
Proof. intros (Hm & Hs & _). unfold new_task, snapshotPodOwner. by rewrite Hm, Hs. Qed.

(** ** The runs a pass over the containers records *)

Definition record_runs (l runs : list SnapshotRunningStatus) : list SnapshotRunningStatus :=
  foldl (fun l r => append_run r l) l runs.

Lemma append_run_length r l : (length l <= 20)%nat -> (length (append_run r l) <= 20)%nat.
Proof.
  intros Hl. unfold append_run. case_bool_decide as H; rewrite length_app in H; cbn in H.
  - rewrite length_last_n; rewrite ?length_app; cbn; lia.
  - rewrite length_app. cbn. lia.
Qed.

Lemma append_run_last r l : exists l', append_run r l = l' ++ [r] /\ l' `suffix_of` l.
Proof.
  unfold append_run. case_bool_decide as H; [|by exists l].
  rewrite last_n_snoc by (rewrite length_app in H; cbn in H; lia).
  eexists. split; [done|]. apply last_n_suffix.
Qed.

Lemma append_run_suffix r l : append_run r l `suffix_of` l ++ [r].
Proof.
  destruct (append_run_last r l) as (l' & -> & [k ->]).
  exists k. by rewrite app_assoc.
Qed.

Lemma record_runs_length l runs :
  (length l <= 20)%nat -> (length (record_runs l runs) <= 20)%nat.
Proof.
  revert l. induction runs as [|r runs IH]; intros l Hl; cbn; [done|].
  by apply IH, append_run_length.
Qed.

Lemma record_runs_suffix l runs : record_runs l runs `suffix_of` l ++ runs.
Proof.
  revert l. induction runs as [|r runs IH]; intros l; cbn.
  { by rewrite app_nil_r. }
  etrans; [apply IH|]. destruct (append_run_suffix r l) as [k Hk].
  exists k. rewrite app_assoc, <- Hk. by rewrite <- app_assoc.
Qed.

(** The newest run is always kept. *)
Lemma record_runs_last l runs r : last runs = Some r -> r ∈ record_runs l runs.
Proof.
  intros Hr. apply last_Some in Hr as [runs' ->]. unfold record_runs. rewrite foldl_app. cbn.
  destruct (append_run_last r (foldl (fun l r => append_run r l) l runs')) as (l' & -> & _).
  apply elem_of_app. right. apply list_elem_of_here.
Qed.

Section Specs.
Context {E : Type} {lib : Lo} {ir : ImageRef} {kl : KubeLib} {kc : KubeClient E}
        {laws : KubeClientLaws E}.
Implicit Types sp : SnapshotPod.

(** The write [e] and the recorded run that one container of the round gives. *)
Definition created sp (pod : Pod) (c : string) (e : Event) (run : SnapshotRunningStatus)
    : Prop :=
  exists cs img r,
    e = EvTaskCreate (new_task sp pod c cs img) r /\
    (r = None \/ exists err, r = Some err /\ IsAlreadyExists err = true) /\
    cs ∈ pod_ContainerStatuses pod /\ cs_Name cs = c /\ cs_ContainerID cs <> "" /\
    run_TriggerRound run = sp_TriggerRound (sp_Spec sp) /\
    run_TaskName run = task_name (Name (sp_meta sp)) (sp_TriggerRound (sp_Spec sp)) c /\
    run_ImageRef run = img /\ run_ContainerName run = c /\
    run_Result run = SnapshotRunningResultCreated.

Lemma created_frame sp sp' pod c e run :
  same_frame sp sp' -> created sp' pod c e run -> created sp pod c e run.
Proof.
  intros Hf (cs & img & r & H). exists cs, img, r. rewrite (new_task_frame sp sp') in H by done.
  destruct Hf as (Hm & Hs & _). by rewrite Hm, Hs in H.
Qed.

Lemma create_task_spec pod c sp w :
  wlp (create_task pod c sp) (fun '(sp', err) w' =>
    match err with
    | None => exists e run, w_trace w' = w_trace w ++ [e] /\ created sp pod c e run /\
                sp' = set_Snapshots (append_run run (sp_Snapshots (sp_Status sp))) sp
    | Some _ => sp' = sp /\ exists es, w_trace w' = w_trace w ++ es /\
                (es = [] \/ exists t r, es = [EvTaskCreate t r])
    end) w.
Proof using laws.
  unfold create_task. rewrite lo_Filter_law.
  destruct (List.filter _ _) as [|cs css] eqn:Hcs.
  { apply wlp_ret. split; [done|]. exists []. rewrite app_nil_r. eauto. }
  assert (cs ∈ pod_ContainerStatuses pod /\ cs_Name cs = c) as [Hin Hn].
  { assert (In cs (cs :: css)) as H by (by left). rewrite <- Hcs in H.
    apply filter_In in H as [H ?%bool_decide_eq_true]. by rewrite list_elem_of_In. }
  case_bool_decide as Hid.
  { apply wlp_ret. split; [done|]. exists []. rewrite app_nil_r. eauto. }
  apply wlp_bind. eapply wlp_mono; [apply silent_wlp, emits_renderNewImageName|].
  intros [img|err] w1 Ht1; cbn in Ht1.
  2: { apply wlp_ret. split; [done|]. exists []. rewrite app_nil_r. eauto. }
  apply wlp_bind, wp_wlp, wp_write. intros r e' w2 Hr _ _ Ht2. rewrite Ht1 in Ht2.
  destruct r as [spt|err]; cbn [result_err negb] in *.
  - apply wlp_bind, wp_wlp, wp_now. intros w3 _ _ _ Ht3. rewrite Ht2 in Ht3.
    apply wlp_ret. eexists _, _. split; [exact Ht3|]. split; [|done].
    apply kc_Create_Task_law in Hr as [Hk Hi]. unfold meta_key in Hk. injection Hk as _ Hk.
    exists cs, img, None. cbn. rewrite Hk, Hi. split_and!; try done. by left.
  - destruct (IsAlreadyExists err) eqn:He; cbn [negb].
    + apply wlp_bind, wp_wlp, wp_now. intros w3 _ _ _ Ht3. rewrite Ht2 in Ht3.
      apply wlp_ret. eexists _, _. split; [exact Ht3|]. split; [|done].
      exists cs, img, (Some err). cbn. split_and!; try done. right. by exists err.
    + apply wlp_ret. split; [done|]. eexists. split; [exact Ht2|]. right. by eexists _, _.
Qed.

Lemma set_Snapshots_frame l sp : same_frame sp (set_Snapshots l sp).
Proof. by split_and!. Qed.

Lemma created_round sp pod l es runs :
  Forall3 (created sp pod) l es runs ->
  Forall (fun r => run_TriggerRound r = sp_TriggerRound (sp_Spec sp)) runs.
Proof.
  induction 1 as [|c e r l es runs H _ IH]; constructor; [|done].
  destruct H as (cs & img & o & H). by destruct_and! H.
Qed.

(** A pass over the containers: some prefix of them is done, in order, each
    with one write and one recorded run; without an error it is all of them. *)
Lemma create_tasks_spec pod l sp w :
  wlp (create_tasks pod l sp) (fun '(sp', err) w' =>
    exists fin todo runs es tl,
      l = fin ++ todo /\ Forall3 (created sp pod) fin es runs /\
      w_trace w' = w_trace w ++ es ++ tl /\
      sp' = set_Snapshots (record_runs (sp_Snapshots (sp_Status sp)) runs) sp /\
      match err with
      | None => todo = [] /\ tl = []
      | Some _ => todo <> [] /\ (tl = [] \/ exists t r, tl = [EvTaskCreate t r])
      end) w.
Proof using laws.
  revert sp w. induction l as [|c l IH]; intros sp w; cbn [create_tasks].
  { apply wlp_ret. exists [], [], [], [], [].
    split_and!; [done|apply Forall3_nil|by rewrite ?app_nil_r|by destruct sp as [? ? []]|done|done]. }
  apply wlp_bind. eapply wlp_mono; [apply create_task_spec|].
  intros [sp1 [err|]] w1; cbn beta iota.
  - intros (-> & es & Ht & Hes). apply wlp_ret.
    exists [], (c :: l), [], [], es.
    split_and!; [done|apply Forall3_nil|by rewrite ?app_nil_r|by destruct sp as [? ? []]|done|done].
  - intros (e & run & Ht & Hc & ->). eapply wlp_mono; [apply IH|].
    intros [sp2 err] w2 (fin & todo & runs & es & tl & -> & HF & Ht2 & -> & Herr).
    exists (c :: fin), todo, (run :: runs), (e :: es), tl. split_and!; try done.
    + constructor; [done|]. eapply Forall3_impl; [exact HF|]. intros c' e' r'.
      apply created_frame. apply set_Snapshots_frame.
    + by rewrite Ht2, Ht, <- app_assoc.
Qed.

Lemma round_recorded_true sp :
  round_recorded sp = true <->
  exists r, r ∈ sp_Snapshots (sp_Status sp) /\
    run_TriggerRound r = sp_TriggerRound (sp_Spec sp).
Proof.
  unfold round_recorded. rewrite lo_ContainsBy_true.
  setoid_rewrite bool_decide_eq_true. done.
Qed.

Lemma reconcileTasks_run sp w pod w1 :
  sp_LastTriggerRound (sp_Status sp) <> sp_TriggerRound (sp_Spec sp) ->
  round_recorded sp = false -> getPod sp w = (Ret (inl pod), w1) ->
  reconcileTasks sp w = create_tasks pod (snapshot_containers sp pod) sp w1.
Proof.
  intros Hl Hr Hp. unfold reconcileTasks. rewrite bool_decide_false, Hr by done.
  by erewrite bind_run by exact Hp.
Qed.

Lemma getPod_trace sp w r w1 : getPod sp w = (r, w1) -> w_trace w1 = w_trace w.
Proof.
  intros H. destruct (emits_getPod (fun _ => False) sp w) as (_ & es & He & HF).
  rewrite H in He. cbn in He. rewrite He. destruct es; [by rewrite app_nil_r|].
  by apply Forall_inv in HF.
Qed.

(** A pass that recorded a run of the round leads to a pass that records the
    round as triggered and writes nothing. *)
Lemma recorded_pass sp (w : World E) :
  sp_LastTriggerRound (sp_Status sp) <> sp_TriggerRound (sp_Spec sp) ->
  round_recorded sp = true ->
  reconcileTasks sp w = (Ret (set_LastTriggerRound (sp_TriggerRound (sp_Spec sp)) sp, None), w).
Proof.
  intros Hl Hr. unfold reconcileTasks. by rewrite bool_decide_false, Hr by done.
Qed.

Lemma record_runs_recorded sp runs :
  runs <> [] ->
  Forall (fun r => run_TriggerRound r = sp_TriggerRound (sp_Spec sp)) runs ->
  round_recorded (set_Snapshots (record_runs (sp_Snapshots (sp_Status sp)) runs) sp) = true.
Proof.
  intros Hne HF. apply round_recorded_true.
  destruct (last runs) as [r|] eqn:Hr; [|by apply last_None in Hr].
  exists r. split; [by apply record_runs_last|]. cbn.
  rewrite Forall_forall in HF. apply HF. by apply last_Some_elem_of.
Qed.
End Specs.

(** ** The condition loop *)

(** The part of the object a step may change and the loop does not. *)
Definition core (sp : SnapshotPod) : ObjectMeta * SnapshotPodSpec * list SnapshotRunningStatus * Z :=
  (sp_meta sp, sp_Spec sp, sp_Snapshots (sp_Status sp), sp_LastTriggerRound (sp_Status sp)).

Definition conds (sp : SnapshotPod) : list Condition := sp_Conditions (sp_Status sp).

Section Loop.
Context {E : Type} {lib : Lo} {ir : ImageRef} {kl : KubeLib} {kc : KubeClient E}.
Implicit Types sp : SnapshotPod.

(** From [w] to [w'] only tasks of [sp] were created. *)
Definition creates_own sp (w w' : World E) : Prop :=
  exists es, w_trace w' = w_trace w ++ es /\
    Forall task_create es /\ Forall (own_event sp) es.

(** A step that leaves metadata, spec and conditions alone and writes nothing but
    new tasks of the object. *)
Definition frames (x : rec) : Prop :=
  forall sp (w : World E),
    wlp (r x sp) (fun '(sp', _) w' => same_frame sp sp' /\ creates_own sp w w') w.

Lemma validate_same sp (w : World E) : wlp (validate sp) (fun '(sp', _) _ => sp' = sp) w.
Proof.
  unfold validate. case_bool_decide; [by apply wlp_ret|].
  apply wlp_bind. eapply wlp_mono; [by apply silent_wlp, emits_getPod|].
  intros [pod|err] w1 _; [|by apply wlp_ret].
  destruct (_ && _); by apply wlp_ret.
Qed.

Lemma creates_none sp (w w' : World E) : w_trace w' = w_trace w -> creates_own sp w w'.
Proof. exists []. by rewrite app_nil_r. Qed.

Lemma creates_own_trans sp (w w1 w2 : World E) :
  creates_own sp w w1 -> creates_own sp w1 w2 -> creates_own sp w w2.
Proof.
  intros (es & Ht & Hc & Ho) (es' & Ht' & Hc' & Ho'). exists (es ++ es').
  rewrite Ht', Ht, app_assoc, !Forall_app. by split_and!.
Qed.

Lemma own_event_same sp sp' e :
  sp_meta sp' = sp_meta sp -> sp_Spec sp' = sp_Spec sp -> own_event sp' e -> own_event sp e.
Proof.
  intros Hm Hs. destruct e; cbn; unfold own_task, snapshotPodOwner; by rewrite ?Hm, ?Hs.
Qed.

Lemma creates_own_frame sp sp' (w w' : World E) :
  same_frame sp sp' -> creates_own sp' w w' -> creates_own sp w w'.
Proof.
  intros Hf (es & Ht & Hc & Ho). exists es. split_and!; [done..|].
  eapply Forall_impl; [exact Ho|]. intros e. destruct Hf as (Hm & Hs & _). by apply own_event_same.
Qed.

Lemma create_task_own pod c sp (w : World E) :
  wlp (create_task pod c sp) (fun '(sp', _) w' => same_frame sp sp' /\ creates_own sp w w') w.
Proof.
  unfold create_task. destruct (lo_Filter _ _).
  { apply wlp_ret. split; [done|]. by apply creates_none. }
  case_bool_decide; [apply wlp_ret; split; [done|]; by apply creates_none|].
  apply wlp_bind. eapply wlp_mono; [by apply silent_wlp, emits_renderNewImageName|].
  intros [img|err] w1 Ht1; [|apply wlp_ret; split; [done|]; by apply creates_none].
  apply wlp_bind, wp_wlp, wp_write. intros res e' w2 _ _ _ Ht2.
  assert (creates_own sp w w2) as Hc.
  { eexists. rewrite Ht2, Ht1. split; [done|]. split; repeat constructor; by apply new_task_own. }
  destruct res; cbn beta iota; wlp_go; (split; [done|]); try exact Hc;
    eapply creates_own_trans; [exact Hc|by apply creates_none|exact Hc|by apply creates_none].
Qed.

Lemma create_tasks_frame pod l sp (w : World E) :
  wlp (create_tasks pod l sp) (fun '(sp', _) w' => same_frame sp sp' /\ creates_own sp w w') w.
Proof.
  revert sp w. induction l as [|c l IH]; intros sp w; cbn [create_tasks].
  { apply wlp_ret. split; [done|]. by apply creates_none. }
  apply wlp_bind. eapply wlp_mono; [apply create_task_own|].
  intros [sp1 [e|]] w1 [Hf Hc]; [by apply wlp_ret|].
  eapply wlp_mono; [apply IH|]. intros [sp2 err] w2 [Hf2 Hc2]. split; [by etrans|].
  eapply creates_own_trans; [exact Hc|by eapply creates_own_frame].
Qed.

Lemma frames_validate : frames {| typ := "Accept"; r := validate |}.
Proof.
  intros sp w. cbn. eapply wlp_mono.
  { apply wlp_and; [apply validate_same|by apply silent_wlp, emits_validate]. }
  intros [sp' err] w' [-> Ht]. split; [done|]. by apply creates_none.
Qed.

Lemma frames_reconcileTasks : frames {| typ := "Tasks"; r := reconcileTasks |}.
Proof.
  intros sp w. cbn. unfold reconcileTasks.
  case_bool_decide; [apply wlp_ret; split; [done|]; by apply creates_none|].
  destruct (round_recorded sp); [apply wlp_ret; split; [done|]; by apply creates_none|].
  apply wlp_bind. eapply wlp_mono; [by apply silent_wlp, emits_getPod|].
  intros [pod|err] w1 Ht; [|apply wlp_ret; split; [done|]; by apply creates_none].
  eapply wlp_mono; [apply create_tasks_frame|]. intros [sp' err] w2 [Hf Hc]. split; [done|].
  eapply creates_own_trans; [by apply creates_none|exact Hc].
Qed.

Lemma frames_reconcileTasksStatus :
  frames {| typ := "TaskStatus"; r := reconcileTasksStatus |}.
Proof.
  intros sp w. cbn. unfold reconcileTasksStatus. destruct (LabelSelectorAsSelector _) as [sel selErr].
  apply wlp_bind, wlp_external.
  intros [items|err] w1 _ _ Ht; [|apply wlp_ret; split; [done|]; by apply creates_none].
  apply wlp_bind. eapply wlp_mono; [by apply silent_wlp, emits_update_runs|]. intros l w2 Ht2.
  apply wlp_ret. split; [done|]. apply creates_none. by rewrite Ht2.
Qed.

Lemma frames_recs : Forall frames recs.
Proof.
  unfold recs. repeat apply Forall_cons_2; [..|apply Forall_nil_2].
  - apply frames_validate.
  - apply frames_reconcileTasks.
  - apply frames_reconcileTasksStatus.
Qed.

Lemma recs_types : NoDup (map typ (recs (E := E))).
Proof. apply (bool_decide_unpack (NoDup ["Accept"; "Tasks"; "TaskStatus"])). exact I. Qed.

Lemma total_recs : Forall (fun x => forall sp : SnapshotPod, total (E := E) (r x sp)) recs.
Proof.
  unfold recs. repeat apply Forall_cons_2; [..|apply Forall_nil_2]; cbn; intros sp.
  - apply total_validate.
  - apply total_reconcileTasks.
  - apply total_reconcileTasksStatus.
Qed.

Lemma emits_recs : Forall (fun x => forall sp : SnapshotPod, emits (E := E) task_create (r x sp)) recs.
Proof.
  unfold recs. repeat apply Forall_cons_2; [..|apply Forall_nil_2]; cbn; intros sp.
  - apply emits_validate.
  - apply emits_reconcileTasks.
  - apply emits_reconcileTasksStatus.
Qed.

(** The entry of a type exists after [ensure_cond], at the index it returns. *)
Lemma ensure_cond_spec ty sp (w : World E) :
  wp (ensure_cond ty sp) (fun '(i, sp') w' =>
    w_ext w' = w_ext w /\
    w_trace w' = w_trace w /\ w_uuid w' = w_uuid w /\ core sp' = core sp /\
    find_index (has_type ty) (conds sp') = Some i /\
    (forall ty', ty' <> ty -> cond_of ty' (conds sp') = cond_of ty' (conds sp)) /\
    (cond_types (conds sp') = cond_types (conds sp) \/
     (ty ∉ cond_types (conds sp)) /\ cond_types (conds sp') = cond_types (conds sp) ++ [ty])) w.
Proof.
  unfold ensure_cond. rewrite lo_FindIndexOf_law. change (fun item => bool_decide (c_Type item = ty)) with (has_type ty).
  pose proof (find_index_cond ty (conds sp)) as Hc. unfold conds in *.
  destruct (find_index _ _) as [i|] eqn:Hi.
  { apply wp_ret. split_and!; try done. by left. }
  apply wp_bind, wp_now. intros w' He _ Hu Ht. apply wp_ret.
  split_and!; try done; cbn.
  - by apply cond_of_app_new.
  - intros ty' Hne. by apply cond_of_app_ne.
  - right. split; [by apply cond_of_None|]. unfold cond_types. by rewrite map_app.
Qed.

Lemma update_cond_run i c f sp (w : World E) :
  conds sp !! i = Some c ->
  update_cond i f sp w = (Ret (set_Conditions (<[i := f c]> (conds sp)) sp), w).
Proof. unfold conds, update_cond. by intros ->. Qed.

Lemma get_cond_run i c sp (w : World E) : conds sp !! i = Some c -> get_cond i sp w = (Ret c, w).
Proof. unfold conds, get_cond. by intros ->. Qed.

Lemma conds_set l sp : conds (set_Conditions l sp) = l.
Proof. done. Qed.

Lemma set_Conditions_twice l k sp : set_Conditions l (set_Conditions k sp) = set_Conditions l sp.
Proof. done. Qed.

Lemma finish_rec_spec i old c sp err (w : World E) :
  conds sp !! i = Some c ->
  exists c' w', finish_rec i old sp err w =
                  (Ret (set_Conditions (<[i := c']> (conds sp)) sp, err), w') /\
    w_ext w' = w_ext w /\ w_trace w' = w_trace w /\ w_uuid w' = w_uuid w /\ cond_after err c c'.
Proof.
  intros Hc. assert (i < length (conds sp))%nat as Hi by (by eapply lookup_lt_Some).
  unfold finish_rec. destruct err as [e|]; rewrite (bind_run _ _ _ _ _ (update_cond_run _ _ _ _ _ Hc)).
  - erewrite bind_run; [|apply update_cond_run; rewrite conds_set; by apply list_lookup_insert_eq].
    rewrite conds_set, set_Conditions_twice, list_insert_insert_eq.
    eexists _, w. by repeat split.
  - erewrite bind_run; [|apply get_cond_run; rewrite conds_set; by apply list_lookup_insert_eq].
    case_match; [|by eexists _, w].
    rewrite (bind_run now _ w _ _ eq_refl).
    erewrite bind_run; [|apply update_cond_run; rewrite conds_set; by apply list_lookup_insert_eq].
    rewrite conds_set, set_Conditions_twice, list_insert_insert_eq.
    by eexists _, _.
Qed.

Lemma run_rec_post x sp (w : World E) :
  frames x ->
  exists sp0 w0, w_ext w0 = w_ext w /\
    w_trace w0 = w_trace w /\ w_uuid w0 = w_uuid w /\ core sp0 = core sp /\
    match r x sp0 w0 with
    | (Panic s, w1) => run_rec x sp w = (Panic s, w1)
    | (Ret (sp1, err), w1) =>
        exists sp' w', run_rec x sp w = (Ret (sp', err), w') /\
          w_ext w' = w_ext w1 /\
          w_trace w' = w_trace w1 /\ w_uuid w' = w_uuid w1 /\ core sp' = core sp1 /\
          cond_outcome (typ x) err (conds sp) (conds sp')
    end.
Proof.
  intros Hfr. pose proof (ensure_cond_spec (typ x) sp w) as He.
  apply wp_run in He as ([i sp0] & w0 & He & Hx0 & Ht0 & Hu0 & Hc0 & Hi0 & Hne0 & Hty0).
  exists sp0, w0. split_and!; [done..|]. unfold run_rec. rewrite (bind_run _ _ _ _ _ He).
  pose proof (find_index_cond (typ x) (conds sp0)) as Hg. rewrite Hi0 in Hg.
  destruct Hg as (old & Hold & _). rewrite (bind_run _ _ _ _ _ (get_cond_run _ _ _ _ Hold)).
  specialize (Hfr sp0 w0). destruct (r x sp0 w0) as [[[sp1 err]|s] w1] eqn:Hr.
  2: { unfold mbind, M_bind. by rewrite Hr. }
  rewrite (bind_run _ _ _ _ _ Hr).
  unfold wlp, post in Hfr. rewrite Hr in Hfr. destruct Hfr as [(_ & _ & Hcs) _].
  change (conds sp1 = conds sp0) in Hcs. rewrite <- Hcs in *.
  destruct (finish_rec_spec i old old sp1 err w1 Hold) as (c' & w' & Hrun & Hx & Ht & Hu & Hc').
  rewrite Hrun. eexists _, w'. split_and!; [done..|]. rewrite conds_set.
  by eapply insert_outcome.
Qed.

(** Between two steps the loop touches the conditions and reads the clock: it writes
    nothing, and the rest of the object and the server stay as they are. *)
Definition resumes sp (w : World E) sp' (w' : World E) : Prop :=
  core sp' = core sp /\ w_ext w' = w_ext w /\ w_trace w' = w_trace w.

(** The steps of [l] are called in order, each on the object and the server that the
    one before left: the first [n] return no error; the next one, if [err] is an
    error, returns it, and the rest is not called. *)
Inductive executed : list rec -> SnapshotPod -> World E ->
    nat -> option GoError -> SnapshotPod -> World E -> Prop :=
| ex_end sp w :
    executed [] sp w 0 None sp w
| ex_failed x l sp w sp0 w0 sp1 w1 e sp' w' :
    resumes sp w sp0 w0 -> r x sp0 w0 = (Ret (sp1, Some e), w1) -> resumes sp1 w1 sp' w' ->
    executed (x :: l) sp w 0 (Some e) sp' w'
| ex_next x l sp w sp0 w0 sp1 w1 sp2 w2 n err sp' w' :
    resumes sp w sp0 w0 -> r x sp0 w0 = (Ret (sp1, None), w1) -> resumes sp1 w1 sp2 w2 ->
    executed l sp2 w2 n err sp' w' ->
    executed (x :: l) sp w (S n) err sp' w'.

Lemma run_rec_wlp x sp (w : World E) :
  frames x ->
  wlp (run_rec x sp) (fun '(sp', err) w' =>
    cond_outcome (typ x) err (conds sp) (conds sp') /\
    exists sp0 w0 sp1 w1, core sp0 = core sp /\ r x sp0 w0 = (Ret (sp1, err), w1) /\
      w_ext w0 = w_ext w /\ w_ext w' = w_ext w1 /\
      w_trace w0 = w_trace w /\ w_trace w' = w_trace w1 /\ core sp' = core sp1) w.
Proof.
  intros Hfr. destruct (run_rec_post x sp w Hfr) as (sp0 & w0 & Hx0 & Ht0 & _ & Hc0 & H).
  unfold wlp, post. destruct (r x sp0 w0) as [[[sp1 err]|s] w1] eqn:Hr.
  - destruct H as (sp' & w' & -> & Hx & Ht & _ & Hc & Ho). cbn. split; [done|].
    by exists sp0, w0, sp1, w1.
  - by rewrite H.
Qed.

(** How the loop ends: the first [n] steps succeeded, and step [n], if there
    is one, failed. *)
Definition loop_outcome (l : list (rec (E := E))) (n : nat) (err : option GoError)
    (cs cs' : list Condition) : Prop :=
  (forall j x, (j < n)%nat -> l !! j = Some x ->
     exists c, cond_of (typ x) cs' = Some c /\ c_Status c = ConditionTrue) /\
  match err with
  | None => n = length l
  | Some e => exists x c, l !! n = Some x /\ cond_of (typ x) cs' = Some c /\
                c_Status c = ConditionFalse /\ c_Message c = err_text e
  end /\
  (forall ty, ty ∉ map typ (take (S n) l) -> cond_of ty cs' = cond_of ty cs) /\
  (NoDup (cond_types cs) -> NoDup (cond_types cs')).

Lemma cond_outcome_NoDup ty err cs cs' :
  cond_outcome ty err cs cs' -> NoDup (cond_types cs) -> NoDup (cond_types cs').
Proof.
  intros (_ & _ & [->|[Hn ->]]) Hnd; [done|].
  apply NoDup_app. split_and!; [done| |apply NoDup_singleton].
  intros ty' Hin ->%list_elem_of_singleton. done.
Qed.

Lemma run_recs_outcome l sp (w : World E) :
  Forall frames l -> NoDup (map typ l) ->
  wlp (run_recs l sp) (fun sp' w' => exists n err,
    executed l sp w n err sp' w' /\ loop_outcome l n err (conds sp) (conds sp')) w.
Proof.
  revert sp w. induction l as [|x l IH]; intros sp w Hfr Hnd; cbn [run_recs].
  { apply wlp_ret. exists O, None. split; [constructor|]. split_and!; done. }
  apply Forall_cons in Hfr as [Hx Hfr]. cbn [map] in Hnd. apply NoDup_cons in Hnd as [Hn Hnd].
  apply wlp_bind. eapply wlp_mono; [by apply run_rec_wlp|].
  intros [sp1 [e|]] w1 (Ho & sp0 & w0 & sp0' & w0' & Hc0 & Hr & Hx0 & Hx1 & Htr0 & Htr1 & Hc1);
    cbn beta iota.
  - apply wlp_ret. exists O, (Some e). split; [by eapply ex_failed|]. pose proof (cond_outcome_NoDup _ _ _ _ Ho).
    destruct Ho as ((c & Hc & Hs & Hm) & Hne & _). split_and!; [lia|by exists x, c| |done].
    intros ty Hty. apply Hne. intros ->. apply Hty. apply list_elem_of_here.
  - eapply wlp_mono; [by apply IH|]. intros sp2 w2 (n & err & Hex & Hok & Herr & Hfrm & Hnd2).
    pose proof (cond_outcome_NoDup _ _ _ _ Ho).
    destruct Ho as ((c & Hc & Hs) & Hne & _).
    exists (S n), err. split; [by eapply ex_next|]. split_and!.
    + intros [|j] y Hj Hy; cbn in Hy.
      * injection Hy as <-. exists c. split; [|done]. rewrite Hfrm; [done|].
        intros Hin. apply Hn. apply list_elem_of_In in Hin. apply list_elem_of_In.
        apply in_map_iff in Hin as (y & <- & Hin). apply in_map.
        apply list_elem_of_In. apply list_elem_of_In in Hin.
        by eapply elem_of_take in Hin as (j & ? & _); eapply list_elem_of_lookup_2.
      * apply (Hok j); [lia|done].
    + destruct err as [e|]; [|by subst]. destruct Herr as (y & d & ? & ?). by exists y, d.
    + intros ty Hty. cbn [take map] in Hty. apply not_elem_of_cons in Hty as [Ht1 Ht2].
      rewrite Hfrm by done. by apply Hne.
    + auto.
Qed.

(** An invariant of the outside and of the object apart from its conditions that
    every step keeps. *)
Lemma run_recs_inv (P : E -> Prop) (I : _ -> Prop) l sp (w : World E) :
  Forall frames l ->
  Forall (fun x => forall sp (w : World E), P (w_ext w) -> I (core sp) ->
            wlp (r x sp) (fun '(sp', _) w' => P (w_ext w') /\ I (core sp')) w) l ->
  P (w_ext w) -> I (core sp) -> wlp (run_recs l sp) (fun sp' _ => I (core sp')) w.
Proof.
  revert sp w. induction l as [|x l IH]; intros sp w Hfr HI Hw Hsp; cbn [run_recs];
    [by apply wlp_ret|].
  apply Forall_cons in Hfr as [Hx Hfr], HI as [HIx HI].
  apply wlp_bind. eapply wlp_mono; [by apply run_rec_wlp|].
  intros [sp1 err] w1 (_ & sp0 & w0 & sp2 & w2 & Hc0 & Hr & Hx0 & Hx1 & _ & _ & Hc).
  assert (P (w_ext w1) /\ I (core sp1)) as [Hw1 H1].
  { rewrite Hc, Hx1. specialize (HIx sp0 w0). rewrite Hc0, Hx0 in HIx. specialize (HIx Hw Hsp).
    unfold wlp, post in HIx. by rewrite Hr in HIx. }
  destruct err; [by apply wlp_ret|]. by apply IH.
Qed.

(** The loop keeps metadata and spec and creates nothing but tasks of the object. *)
Lemma run_recs_own l sp (w : World E) :
  Forall frames l ->
  wlp (run_recs l sp) (fun sp' w' =>
    sp_meta sp' = sp_meta sp /\ sp_Spec sp' = sp_Spec sp /\ creates_own sp w w') w.
Proof.
  revert sp w. induction l as [|x l IH]; intros sp w Hfr; cbn [run_recs].
  { apply wlp_ret. split_and!; [done..|]. by apply creates_none. }
  apply Forall_cons in Hfr as [Hx Hfr]. apply wlp_bind. eapply wlp_mono; [by apply run_rec_wlp|].
  intros [sp1 err] w1 (_ & sp0 & w0 & sp2 & w2 & Hc0 & Hr & _ & _ & Ht0 & Ht1 & Hc1).
  specialize (Hx sp0 w0). unfold wlp, post in Hx. rewrite Hr in Hx.
  cbn in Hx. destruct Hx as [(Hm & Hs & _) Hown]. injection Hc0 as Hm0 Hs0 _ _. injection Hc1 as Hm1 Hs1 _ _.
  assert (sp_meta sp1 = sp_meta sp /\ sp_Spec sp1 = sp_Spec sp /\ creates_own sp w w1) as (Hm' & Hs' & Hc).
  { split_and!; [congruence..|]. destruct Hown as (es & Ht & Hes & Ho). exists es.
    rewrite Ht1, Ht, Ht0. split_and!; [done..|]. eapply Forall_impl; [exact Ho|]. intros e.
    apply own_event_same; congruence. }
  destruct err; [by apply wlp_ret|]. eapply wlp_mono; [by apply IH|].
  intros sp' w' (Hm2 & Hs2 & Hown2). split_and!; [congruence..|].
  eapply creates_own_trans; [exact Hc|]. destruct Hown2 as (es & Ht & Hes & Ho). exists es.
  split_and!; [done..|]. eapply Forall_impl; [exact Ho|]. intros e. by apply own_event_same.
Qed.

Lemma total_run_recs l sp :
  Forall frames l -> Forall (fun x => forall sp : SnapshotPod, total (E := E) (r x sp)) l ->
  total (run_recs l sp).
Proof.
  revert sp. induction l as [|x l IH]; intros sp Hfr Ht; cbn [run_recs]; [apply total_ret|].
  apply Forall_cons in Hfr as [Hx Hfr], Ht as [Htx Ht].
  apply total_bind; [|intros [sp1 [e|]]; [apply total_ret|by apply IH]].
  intros w Hw. destruct (run_rec_post x sp w Hx) as (sp0 & w0 & _ & _ & Hu0 & _ & H).
  assert (uuid_ok w0) as Hw0 by (intros n; rewrite Hu0; apply Hw).
  specialize (Htx sp0 w0 Hw0). unfold wp, post in *.
  destruct (r x sp0 w0) as [[[sp2 err]|s] w1]; [|done].
  destruct H as (sp' & w' & -> & _ & _ & Hu & _). cbn in *. congruence.
Qed.

Lemma emits_run_recs l sp :
  Forall (fun x => forall sp : SnapshotPod, emits (E := E) task_create (r x sp)) l ->
  emits (E := E) task_create (run_recs l sp).
Proof.
  assert (forall i f sp, emits (E := E) task_create (update_cond i f sp)) as Hu.
  { intros. unfold update_cond. emits. }
  assert (forall i sp, emits (E := E) task_create (get_cond i sp)) as Hg.
  { intros. unfold get_cond. emits. }
  revert sp. induction l as [|x l IH]; intros sp Hl; cbn [run_recs]; [apply emits_ret|].
  apply Forall_cons in Hl as [Hx Hl].
  unfold run_rec, finish_rec, ensure_cond. emits; auto.
Qed.
End Loop.

(** ** One reconcile *)

Section Reconcile.
Context {E : Type} {lib : Lo} {ir : ImageRef} {kl : KubeLib} {kc : KubeClient E}
        {laws : KubeClientLaws E}.
Implicit Types sp : SnapshotPod.

(** An object that asks for another reconcile: a run without a final result,
    or a condition that is not True. *)
Definition unsettled sp : Prop :=
  (exists x, x ∈ sp_Snapshots (sp_Status sp) /\ run_unfinished x = true) \/
  (exists c, c ∈ conds sp /\ c_Status c <> ConditionTrue).

Lemma needs_requeue_true sp : needs_requeue sp = true <-> unsettled sp.
Proof.
  unfold needs_requeue, unsettled. rewrite orb_true_iff, bool_decide_eq_true.
  rewrite lo_ContainsBy_true. f_equiv.
  - split.
    + intros [x Hx]. apply lo_Find_Some in Hx. by exists x.
    + intros (x & Hx & Hf). destruct (lo_Find _ _) eqn:Hn; [done|].
      rewrite lo_Find_None in Hn. by rewrite (Hn x Hx) in Hf.
  - setoid_rewrite negb_true_iff. by setoid_rewrite bool_decide_eq_false.
Qed.

(** The server's answer to a status update is as settled as what was sent. *)
Lemma unsettled_response sp sp' e e' :
  kc_StatusUpdate_SnapshotPod sp e = (inl sp', e') -> unsettled sp' <-> unsettled sp.
Proof using laws.
  intros H. apply kc_StatusUpdate_SnapshotPod_law in H as (_ & _ & _ & Hc & _ & Hr).
  unfold unsettled, conds. f_equiv.
  - set (f := fun res => negb (bool_decide (res = SnapshotRunningResultSuccess) ||
                               bool_decide (res = SnapshotRunningResultFailed))).
    assert (forall l : list SnapshotRunningStatus,
      (exists x, x ∈ l /\ run_unfinished x = true) <->
      (exists res, In res (map run_Result l) /\ f res = true)) as Hl.
    { intros l. setoid_rewrite list_elem_of_In. split.
      - intros (x & Hx & Hf). exists (run_Result x). split; [by apply in_map|done].
      - intros (res & Hin & Hf). apply in_map_iff in Hin as (x & <- & Hx). by exists x. }
    by rewrite !Hl, Hr.
  - clear Hr. induction Hc as [|c d l k Hcd Hlk IH].
    { split; intros (c & Hc & _); by apply not_elem_of_nil in Hc. }
    setoid_rewrite elem_of_cons. split; intros (x & [->|Hx] & Hs).
    + exists d. split; [by left|]. by rewrite <- Hcd.
    + destruct (proj1 IH) as (y & ? & ?); [by exists x|]. exists y. split; [by right|done].
    + exists c. split; [by left|]. by rewrite Hcd.
    + destruct (proj2 IH) as (y & ? & ?); [by exists x|]. exists y. split; [by right|done].
Qed.

(** From [w] to [w'] the status of an object that satisfies [Q] was written,
    with the result [err]: after the creation of tasks and before metrics. *)
Definition writes_status (w w' : World E) (err : option GoError) (Q : SnapshotPod -> Prop)
    : Prop :=
  exists sp' es ms,
    w_trace w' = w_trace w ++ es ++ EvSpStatus sp' err :: ms /\
    Forall task_create es /\ Forall metric_ok ms /\ Q sp'.

(** From [w] to [w'] nothing was done but for the object [sp]. *)
Definition shows_own sp (w w' : World E) : Prop :=
  exists es, w_trace w' = w_trace w ++ es /\ Forall (own_event sp) es.

Lemma metric_own sp e : metric_ok e -> own_event sp e.
Proof. by destruct e. Qed.

(** The shape of a reconcile of an object with a positive trigger round. *)
Lemma Reconcile_shape (Q : SnapshotPod -> Prop) req sp e1 (w : World E) :
  kc_Get_SnapshotPod req (w_ext w) = (inl sp, e1) ->
  0 < sp_TriggerRound (sp_Spec sp) ->
  (forall w1 : World E, w_ext w1 = e1 -> w_trace w1 = w_trace w ->
     wlp (run_recs recs sp) (fun sp' _ => Q sp') w1) ->
  wlp (Reconcile req) (fun '(res, err) w' => writes_status w w' err (fun sp' =>
    (Q sp' /\ sp_meta sp' = sp_meta sp /\ sp_Spec sp' = sp_Spec sp) /\
    (err = None -> RequeueAfter res = Second * 15 /\ unsettled sp' \/
                   RequeueAfter res = 0 /\ ~ unsettled sp')) /\ shows_own sp w w') w.
Proof using laws.
  intros Hget Hpos HQ. unfold Reconcile. apply wlp_bind, wp_wlp, wp_now.
  intros w1 He1 _ _ Ht1. apply wlp_bind, wlp_external. intros g w2 Hg _ Ht2.
  rewrite He1, Hget in Hg. injection Hg as -> He2. rewrite bool_decide_false by lia.
  apply wlp_bind. eapply wlp_mono.
  { apply wlp_and; [apply HQ; [done|by rewrite Ht2]|]. apply run_recs_own, frames_recs. }
  intros sp1 w3 (HQ1 & Hm & Hs & es & Ht3 & Hes & Hown). rewrite Ht2, Ht1 in Ht3.
  pose proof (conj HQ1 (conj Hm Hs)) as Hsp1.
  assert (forall err ms w', w_trace w' = w_trace w ++ es ++ EvSpStatus sp1 err :: ms ->
            Forall metric_ok ms -> shows_own sp w w') as Hshow.
  { intros err ms w' Ht Hms. eexists. split; [exact Ht|]. apply Forall_app. split; [done|].
    constructor; [done|]. eapply Forall_impl; [exact Hms|]. apply metric_own. }
  apply wlp_bind, wp_wlp, wp_write. intros r e' w4 Hr _ _ Ht4.
  rewrite Ht3, <- app_assoc in Ht4.
  destruct r as [sp2|err]; cbn beta iota in *.
  2: { apply wlp_ret. split; [exists sp1, es, []; by split_and!|]. by eapply Hshow. }
  assert (forall res d result, (RequeueAfter res = Second * 15 /\ unsettled sp1 \/
                       RequeueAfter res = 0 /\ ~ unsettled sp1) ->
    wlp (d ← since d; RecordControllerReconcile "snapshotpod" result d ;; mret (res, None))
      (fun '(res, err) w' => writes_status w w' err (fun sp' =>
        (Q sp' /\ sp_meta sp' = sp_meta sp /\ sp_Spec sp' = sp_Spec sp) /\
        (err = None -> RequeueAfter res = Second * 15 /\ unsettled sp' \/
                       RequeueAfter res = 0 /\ ~ unsettled sp')) /\ shows_own sp w w') w4) as Htail.
  { intros res d result Hres. apply wlp_bind. eapply wlp_mono; [apply silent_wlp, emits_since|].
    intros d' w5 Ht5. apply wlp_bind.
    eapply wlp_mono; [apply emits_wlp, RecordControllerReconcile_ok|].
    intros [] w6 (_ & ms & Ht6 & Hms). rewrite Ht5, Ht4, <- !app_assoc in Ht6. apply wlp_ret.
    split; [|by eapply Hshow]. exists sp1, es, ms. by split_and!. }
  pose proof (unsettled_response _ _ _ _ Hr) as Hu. pose proof (needs_requeue_true sp2) as Hn.
  destruct (needs_requeue sp2); apply Htail.
  - left. split; [done|]. by apply Hu, Hn.
  - right. split; [done|]. intros H. apply Hu, Hn in H. done.
Qed.

(** Whatever is read, only the object that comes out of the loop is written. *)
Lemma Reconcile_writes (Q : SnapshotPod -> Prop) req (w : World E) :
  (forall sp e1 (w1 : World E), kc_Get_SnapshotPod req (w_ext w) = (inl sp, e1) ->
     w_ext w1 = e1 -> wlp (run_recs recs sp) (fun sp' _ => Q sp') w1) ->
  wlp (Reconcile req) (fun _ w' => exists es, w_trace w' = w_trace w ++ es /\
    forall sp u, EvSpStatus sp u ∈ es -> Q sp) w.
Proof using laws.
  intros HQ. destruct (kc_Get_SnapshotPod req (w_ext w)) as [[sp|err] e1] eqn:Hg.
  - destruct (decide (0 < sp_TriggerRound (sp_Spec sp))) as [Hpos|Hpos].
    + eapply wlp_mono; [apply (Reconcile_shape Q req sp e1 w Hg Hpos); intros w1 ? _; by apply (HQ sp e1)|].
      intros [res err] w' [(sp' & es & ms & Ht & Hes & Hms & [Hq _] & _) _]. eexists. split; [exact Ht|].
      intros s u [Hin|[[= -> _]|Hin]%elem_of_cons]%elem_of_app; [|done|].
      * by eapply Forall_forall in Hes; [|exact Hin].
      * by eapply Forall_forall in Hms; [|exact Hin].
    + unfold Reconcile. apply wlp_bind, wp_wlp, wp_now. intros w1 He1 _ _ Ht1.
      apply wlp_bind, wlp_external. intros g w2 Hg2 _ Ht2. rewrite He1, Hg in Hg2.
      injection Hg2 as -> _. rewrite bool_decide_true by lia. apply wlp_ret.
      exists []. rewrite app_nil_r, Ht2. split; [done|]. by intros s u ?%not_elem_of_nil.
  - unfold Reconcile. apply wlp_bind, wp_wlp, wp_now. intros w1 He1 _ _ Ht1.
    apply wlp_bind, wlp_external. intros g w2 Hg2 _ Ht2. rewrite He1, Hg in Hg2.
    injection Hg2 as -> _. rewrite <- Ht1, <- Ht2.
    eapply wlp_mono; [eapply (emits_wlp metric_ok); emits|].
    intros res w' (_ & es & Ht & Hes). exists es. split; [done|]. intros s u Hin.
    by eapply Forall_forall in Hes; [|exact Hin].
Qed.
End Reconcile.

(** ** Theorems: choosing the target and validating it *)

Section Theorems.
Context {E : Type} {lib : Lo} {ir : ImageRef} {kl : KubeLib} {kc : KubeClient E}.

(** [C37] A target with a name is fetched by that name, whatever the selector;
    without a name the selector must be set, and the result is a pod exactly
    when one single listed pod is running.  Pods that match and are not running do
    not count: the documentation of the selector, by which several matching pods are
    an error, does not say so. *)
Theorem getPod_spec (sp : SnapshotPod) (w : World E) r w' :
  getPod sp w = (Ret r, w') ->
  let target := sp_Target (sp_Spec sp) in
  let ns := Namespace (sp_meta sp) in
  (tp_Name target <> "" -> (r, w_ext w') = kc_Get_Pod (ns, tp_Name target) (w_ext w)) /\
  (tp_Name target = "" ->
   match tp_Selector target with
   | None => r = inr (Errorf "target pod name or selector is required")
   | Some sel =>
       match fst (kc_List_Pods (Some (SelectorFromSet (Some sel))) ns (w_ext w)) with
       | inr err => r = inr (Wrapf "failed to list pods: " err)
       | inl items =>
           match List.filter (fun p => bool_decide (pod_Phase p = PodRunning)) items with
           | [p] => r = inl p
           | _ => exists e, r = inr e
           end
       end
   end).
Proof.
  intros Hrun target ns. unfold getPod in Hrun. fold target ns in Hrun. split.
  - intros Hn. rewrite (bool_decide_false (tp_Name target = "")) in Hrun by done.
    cbn [andb] in Hrun. rewrite bool_decide_true in Hrun by done.
    unfold Get_Pod, external in Hrun. destruct (kc_Get_Pod _ _). by injection Hrun as -> <-.
  - intros Hn. rewrite bool_decide_true in Hrun by done. cbn [andb] in Hrun.
    destruct (tp_Selector target) as [sel|]; cbn in Hrun; [|by injection Hrun as <- _].
    rewrite bool_decide_false in Hrun by tauto.
    unfold List_Pods, external, mbind, M_bind in Hrun.
    destruct (kc_List_Pods _ _ _) as [[items|err] e']; cbn in *.
    + destruct (List.filter _ _) as [|p [|q l]]; injection Hrun as <- _; eauto.
    + by injection Hrun as <- _.
Qed.

(** Validation accepts the object, unchanged, exactly when its round has
    been triggered already or its target pod is found and has every container
    the object names. *)
Theorem validate_sound (sp sp' : SnapshotPod) err (w w' : World E) :
  validate sp w = (Ret (sp', err), w') ->
  sp' = sp /\
  (err = None <->
   sp_LastTriggerRound (sp_Status sp) = sp_TriggerRound (sp_Spec sp) \/
   exists pod w1, getPod sp w = (Ret (inl pod), w1) /\
     forall c, c ∈ tp_Containers (sp_Target (sp_Spec sp)) ->
       c ∈ map ctr_Name (pod_Containers (pod_Spec pod))).
Proof.
  unfold validate. case_bool_decide as Hl.
  { intros [= <- <- _]. split; [done|]. split; [by left|done]. }
  destruct (getPod sp w) as [[[pod|e]|s] w1] eqn:Hp.
  2: { rewrite (bind_run _ _ _ _ _ Hp). intros [= <- <- _]. split; [done|].
       split; [done|]. intros [?|(pod & w2 & ? & _)]; done. }
  2: { unfold mbind, M_bind. by rewrite Hp. }
  rewrite (bind_run _ _ _ _ _ Hp). set (cs := tp_Containers _).
  unfold container_names. rewrite lo_Map_law, lo_Without_law.
  set (names := map ctr_Name _). intros Hrun. split; [by case_match; injection Hrun as <- _|].
  trans (forall c, c ∈ cs -> c ∈ names).
  2: { split; [intros H; right; by exists pod, w1|].
       intros [?|(pod' & w2 & [= <- _] & H)]; done. }
  destruct (List.filter _ cs) as [|c l] eqn:Hf.
  - rewrite andb_false_r in Hrun. injection Hrun as _ <- _. split; [|done]. intros _ c Hc.
    destruct (decide (c ∈ names)) as [|Hn]; [done|]. exfalso.
    assert (In c (List.filter (fun x => negb (bool_decide (x ∈ names))) cs)) as Hin.
    { apply filter_In. split; [by apply list_elem_of_In|]. by rewrite bool_decide_false. }
    by rewrite Hf in Hin.
  - assert (In c (c :: l)) as Hin by (by left). rewrite <- Hf in Hin.
    apply filter_In in Hin as [Hin Hn].
    apply negb_true_iff, bool_decide_eq_false in Hn.
    rewrite !bool_decide_true in Hrun; [|done|by destruct cs]. injection Hrun as _ <- _.
    split; [done|]. intros H. destruct Hn. apply H. by apply list_elem_of_In.
Qed.
End Theorems.

(** ** Theorems: the tasks of a round *)

Section TaskTheorems.
Context {E : Type} {lib : Lo} {ir : ImageRef} {kl : KubeLib} {kc : KubeClient E}
        {laws : KubeClientLaws E}.
Implicit Types sp : SnapshotPod.

(** [C4] In a round that is neither triggered nor recorded, the containers of the
    target pod are served in order: each one that is done had exactly one
    create request, for the task named after the object, the round and the
    container, and has one new CREATED run with that task's name and image.
    Without an error every container is done. *)
Theorem reconcileTasks_creates sp (w w1 : World E) pod :
  sp_LastTriggerRound (sp_Status sp) <> sp_TriggerRound (sp_Spec sp) ->
  round_recorded sp = false ->
  getPod sp w = (Ret (inl pod), w1) ->
  wlp (reconcileTasks sp) (fun '(sp', err) w' =>
    exists fin todo runs es tl,
      snapshot_containers sp pod = fin ++ todo /\
      Forall3 (created sp pod) fin es runs /\
      w_trace w' = w_trace w ++ es ++ tl /\
      sp' = set_Snapshots (record_runs (sp_Snapshots (sp_Status sp)) runs) sp /\
      match err with
      | None => todo = [] /\ tl = []
      | Some _ => todo <> [] /\ (tl = [] \/ exists t r, tl = [EvTaskCreate t r])
      end) w.
Proof using laws.
  intros Hl Hr Hp. pose proof (create_tasks_spec pod (snapshot_containers sp pod) sp w1) as H.
  rewrite (getPod_trace _ _ _ _ Hp) in H. unfold wlp, post in *.
  by rewrite (reconcileTasks_run _ _ _ _ Hl Hr Hp).
Qed.

(** [C5] One batch per round.  When a pass over the tasks has recorded any run,
    the next pass creates nothing in any world and records the round as
    triggered: after a complete pass the round is over, and so it is after a
    pass that failed half way. *)
Theorem reconcileTasks_settles sp sp' err (w w' : World E) :
  sp_LastTriggerRound (sp_Status sp) <> sp_TriggerRound (sp_Spec sp) ->
  round_recorded sp = false ->
  reconcileTasks sp w = (Ret (sp', err), w') ->
  sp_Snapshots (sp_Status sp') <> sp_Snapshots (sp_Status sp) ->
  forall w2 : World E,
    reconcileTasks sp' w2 =
    (Ret (set_LastTriggerRound (sp_TriggerRound (sp_Spec sp)) sp', None), w2).
Proof using laws.
  intros Hl Hr Hrun Hne w2. destruct (getPod sp w) as [[[pod|e]|s] w1] eqn:Hp.
  - pose proof (create_tasks_spec pod (snapshot_containers sp pod) sp w1) as H.
    rewrite (reconcileTasks_run _ _ _ _ Hl Hr Hp) in Hrun.
    unfold wlp, post in H. rewrite Hrun in H.
    destruct H as (fin & todo & runs & es & tl & _ & HF & _ & -> & _).
    apply (recorded_pass (set_Snapshots _ sp)); [done|].
    apply record_runs_recorded; [by intros ->|]. by eapply created_round.
  - unfold reconcileTasks in Hrun. rewrite bool_decide_false, Hr in Hrun by done.
    rewrite (bind_run _ _ _ _ _ Hp) in Hrun. by injection Hrun as <- _ _.
  - unfold reconcileTasks in Hrun. rewrite bool_decide_false, Hr in Hrun by done.
    unfold mbind, M_bind in Hrun. by rewrite Hp in Hrun.
Qed.

Lemma reconcileTasks_runs sp (w : World E) :
  (length (sp_Snapshots (sp_Status sp)) <= 20)%nat ->
  wlp (reconcileTasks sp) (fun '(sp', err) _ =>
    (length (sp_Snapshots (sp_Status sp')) <= 20)%nat /\
    exists runs, sp_Snapshots (sp_Status sp') `suffix_of` sp_Snapshots (sp_Status sp) ++ runs /\
      Forall (fun r => run_TriggerRound r = sp_TriggerRound (sp_Spec sp)) runs) w.
Proof using laws.
  intros Hlen. unfold reconcileTasks.
  assert (forall sp' : SnapshotPod, sp_Snapshots (sp_Status sp') = sp_Snapshots (sp_Status sp) ->
    (length (sp_Snapshots (sp_Status sp')) <= 20)%nat /\
    exists runs, sp_Snapshots (sp_Status sp') `suffix_of` sp_Snapshots (sp_Status sp) ++ runs /\
      Forall (fun r => run_TriggerRound r = sp_TriggerRound (sp_Spec sp)) runs) as Hsame.
  { intros sp' ->. split; [done|]. exists []. by rewrite app_nil_r. }
  case_bool_decide; [by apply wlp_ret, Hsame|].
  destruct (round_recorded sp); [by apply wlp_ret, Hsame|].
  apply wlp_bind. eapply wlp_mono; [apply silent_wlp, emits_getPod|].
  intros [pod|err] w1 _; [|by apply wlp_ret, Hsame].
  eapply wlp_mono; [apply create_tasks_spec|].
  intros [sp' err] w' (fin & todo & runs & es & tl & _ & HF & _ & -> & _). cbn. split.
  - by apply record_runs_length.
  - exists runs. split; [apply record_runs_suffix|]. by eapply created_round.
Qed.

(** The runs of a pass are old ones or new ones without a result. *)
Lemma reconcileTasks_old_or_new sp (w : World E) :
  wlp (reconcileTasks sp) (fun '(sp', err) _ => forall x, x ∈ sp_Snapshots (sp_Status sp') ->
    x ∈ sp_Snapshots (sp_Status sp) \/ run_Result x = SnapshotRunningResultCreated) w.
Proof using laws.
  unfold reconcileTasks. case_bool_decide; [by apply wlp_ret; left|].
  destruct (round_recorded sp); [by apply wlp_ret; left|].
  apply wlp_bind. eapply wlp_mono; [apply silent_wlp, emits_getPod|].
  intros [pod|err] w1 _; [|by apply wlp_ret; left].
  eapply wlp_mono; [apply create_tasks_spec|].
  intros [sp' err] w' (fin & todo & runs & es & tl & _ & HF & _ & -> & _) x Hx.
  apply elem_of_suffix with (l2 := sp_Snapshots (sp_Status sp) ++ runs) in Hx;
    [|apply record_runs_suffix].
  apply elem_of_app in Hx as [Hx|Hx]; [by left|right].
  clear -HF Hx. induction HF as [|c e y l es runs H _ IH]; [by apply not_elem_of_nil in Hx|].
  apply elem_of_cons in Hx as [->|Hx]; [|by apply IH].
  destruct H as (cs & img & o & H). by destruct_and! H.
Qed.

(** Appending to twenty runs keeps five, although the source says that the
    last 20 are kept. *)
Lemma append_run_cut r (l : list SnapshotRunningStatus) :
  length l = 20%nat -> append_run r l = last_n 4 l ++ [r].
Proof using.
  clear. intros Hl. unfold append_run. rewrite bool_decide_true.
  - rewrite last_n_snoc by (rewrite Hl; lia). done.
  - rewrite length_app, Hl. cbn. lia.
Qed.
End TaskTheorems.

(** Within one SnapshotPod the name of a task determines its round and its
    container. *)
Theorem task_name_inj (n : string) (r r' : Z) (c c' : string) :
  0 < r -> 0 < r' -> task_name n r c = task_name n r' c' -> r = r' /\ c = c'.
Proof.
  intros Hr Hr' H. unfold task_name in H. do 2 apply string_app_inj_l in H.
  apply (separator_inj "-"%char) in H as [Hi Hc]; [|by apply Itoa_no_dash; lia..].
  split; [by apply Itoa_inj|done].
Qed.

(** Two SnapshotPods of a namespace can ask for a task of the same name. *)
Lemma task_name_collision : task_name "nb" 1 "2-main" = task_name "nb-1" 2 "main".
Proof. reflexivity. Qed.

(** ** Theorems: the life of a run *)

(** The specification of one pass over a run, given the tasks by name. *)
Inductive run_step (tasks : gmap string SnapshotPodTask) :
    SnapshotRunningStatus -> SnapshotRunningStatus -> Prop :=
| step_final s :
    run_unfinished s = false -> run_step tasks s s
| step_missing s :
    run_unfinished s = true -> tasks !! run_TaskName s = None ->
    run_step tasks s (set_run_FailedReason "can not fetch task"
                       (set_run_Result SnapshotRunningResultCreated s))
| step_completed s spt t :
    run_unfinished s = true -> tasks !! run_TaskName s = Some spt ->
    t_Phase (t_Status spt) = SnapshotPodTaskPhaseCompleted ->
    run_step tasks s (set_run_CompletedAt (Some t) (set_run_Result SnapshotRunningResultSuccess s))
| step_failed s spt :
    run_unfinished s = true -> tasks !! run_TaskName s = Some spt ->
    t_Phase (t_Status spt) = SnapshotPodTaskPhaseFailed ->
    run_step tasks s
      (set_run_FailedReason
         (Join (map c_Message (List.filter
            (fun c => negb (bool_decide (c_Status c = ConditionTrue)))
            (t_Conditions (t_Status spt)))) ", ")
         (set_run_Result SnapshotRunningResultFailed s))
| step_waiting s spt :
    run_unfinished s = true -> tasks !! run_TaskName s = Some spt ->
    t_Phase (t_Status spt) <> SnapshotPodTaskPhaseCompleted ->
    t_Phase (t_Status spt) <> SnapshotPodTaskPhaseFailed ->
    run_step tasks s s.

(** One pass, whatever tasks it saw. *)
Definition any_run_step (s s' : SnapshotRunningStatus) : Prop := exists tasks, run_step tasks s s'.

(** What identifies a run. *)
Definition run_identity (s : SnapshotRunningStatus) : Z * Time * string * string * string :=
  (run_TriggerRound s, run_TriggerTime s, run_TaskName s, run_ImageRef s, run_ContainerName s).

Section RunTheorems.
Context {E : Type} {lib : Lo} {kl : KubeLib} {kc : KubeClient E}.

Lemma update_run_refines tasks s (w : World E) :
  wlp (update_run tasks s) (fun s' _ => run_step tasks s s') w.
Proof.
  unfold update_run. destruct (_ || _) eqn:Hf.
  { apply wlp_ret, step_final. unfold run_unfinished. by rewrite Hf. }
  assert (run_unfinished s = true) as Hu by (unfold run_unfinished; by rewrite Hf).
  clear Hf.
  destruct (tasks !! run_TaskName s) as [spt|] eqn:Ht; [|by apply wlp_ret, step_missing].
  case_bool_decide as Hc; [|case_bool_decide as Hfl].
  - apply wlp_bind, wp_wlp, wp_now. intros w1 _ _ _ _. apply wlp_ret. by eapply step_completed.
  - apply wlp_ret. by eapply step_failed.
  - apply wlp_ret. by eapply step_waiting.
Qed.

Lemma update_runs_refines tasks l (w : World E) :
  wlp (update_runs tasks l) (fun l' _ => Forall2 (run_step tasks) l l') w.
Proof.
  revert w. induction l as [|s l IH]; intros w; cbn [update_runs]; [by apply wlp_ret|].
  apply wlp_bind. eapply wlp_mono; [apply update_run_refines|]. intros s' w1 Hs.
  apply wlp_bind. eapply wlp_mono; [apply IH|]. intros l' w2 Hl. apply wlp_ret.
  by constructor.
Qed.

(** [C20] Copying the results of the tasks refines the specification [run_step]
    on every run, against the tasks that carry the object's name label, or every
    task if that name is no label value; only the runs of the object change, and on a
    failed listing nothing does. *)
Theorem reconcileTasksStatus_refines (sp : SnapshotPod) (w : World E) :
  let sel := fst (LabelSelectorAsSelector {[ SnapshotNameLabel := Name (sp_meta sp) ]}) in
  wlp (reconcileTasksStatus sp) (fun '(sp', err) w' =>
    match fst (kc_List_Tasks sel "" (w_ext w)) with
    | inr e => sp' = sp /\ err = Some e
    | inl items =>
        err = None /\
        Forall2 (run_step (task_map items)) (sp_Snapshots (sp_Status sp))
                (sp_Snapshots (sp_Status sp')) /\
        sp' = set_Snapshots (sp_Snapshots (sp_Status sp')) sp
    end /\ w_trace w' = w_trace w) w.
Proof.
  intros sel. unfold reconcileTasksStatus. subst sel.
  destruct (LabelSelectorAsSelector _) as [sel selErr]. cbn [fst]. apply wlp_bind, wlp_external.
  intros r w1 Hr _ Ht1. rewrite <- Hr. cbn [fst].
  destruct r as [items|e]; [|by apply wlp_ret]. apply wlp_bind.
  eapply wlp_mono.
  { apply wlp_and; [apply update_runs_refines|]. by apply silent_wlp, emits_update_runs. }
  intros l w2 [Hl Ht2]. apply wlp_ret. rewrite Ht2, Ht1. by split_and!.
Qed.

Lemma run_step_identity tasks s s' : run_step tasks s s' -> run_identity s' = run_identity s.
Proof. by destruct 1. Qed.

Lemma run_step_final tasks s s' : run_step tasks s s' -> run_unfinished s = false -> s' = s.
Proof. destruct 1; congruence. Qed.
End RunTheorems.

(** One execution of the loop body for a run, in some world. *)
Definition status_pass (s s' : SnapshotRunningStatus) : Prop :=
  exists (E : Type) (w w' : World E) tasks, update_run tasks s w = (Ret s', w').

Lemma status_pass_step s s' : status_pass s s' -> any_run_step s s'.
Proof.
  intros (E & w & w' & tasks & Hrun). exists tasks.
  pose proof (update_run_refines tasks s w) as H. unfold wlp, post in H. by rewrite Hrun in H.
Qed.

Lemma run_steps_lifecycle (s s' : SnapshotRunningStatus) :
  rtc any_run_step s s' ->
  run_identity s' = run_identity s /\
  (run_unfinished s = false -> s' = s) /\
  (run_unfinished s = true -> run_unfinished s' = false ->
   exists (tasks : gmap string SnapshotPodTask) spt, tasks !! run_TaskName s = Some spt /\
     (run_Result s' = SnapshotRunningResultSuccess /\
        t_Phase (t_Status spt) = SnapshotPodTaskPhaseCompleted \/
      run_Result s' = SnapshotRunningResultFailed /\
        t_Phase (t_Status spt) = SnapshotPodTaskPhaseFailed)).
Proof.
  induction 1 as [s|s s1 s' [tasks Hstep] Hrest (Hid & Hfin & Hreach)].
  { split_and!; [done|done|congruence]. }
  pose proof (run_step_identity _ _ _ Hstep) as Hid1. split_and!.
  - by rewrite Hid.
  - intros Hf. rewrite <- (run_step_final _ _ _ Hstep Hf). apply Hfin.
    by rewrite (run_step_final _ _ _ Hstep Hf).
  - intros Hu Hf. assert (run_TaskName s1 = run_TaskName s) as Hname.
    { unfold run_identity in Hid1. congruence. }
    destruct (run_unfinished s1) eqn:Hu1.
    { rewrite <- Hname. by apply Hreach. }
    rewrite (Hfin eq_refl) in *. exists tasks. inversion Hstep; subst; try congruence.
    + cbn in Hu1. done.
    + exists spt. split; [done|]. by left.
    + exists spt. split; [done|]. by right.
Qed.

(** [C19] Over any number of executions of the status loop a run keeps its identity;
      a final result never changes again, and a run reaches SUCCEED (or FAILED) only through a pass
      that saw the task of its name COMPLETED (or FAILED). *)
Theorem run_lifecycle (s s' : SnapshotRunningStatus) :
  rtc status_pass s s' ->
  run_identity s' = run_identity s /\
  (run_unfinished s = false -> s' = s) /\
  (run_unfinished s = true -> run_unfinished s' = false ->
   exists (tasks : gmap string SnapshotPodTask) spt, tasks !! run_TaskName s = Some spt /\
     (run_Result s' = SnapshotRunningResultSuccess /\
        t_Phase (t_Status spt) = SnapshotPodTaskPhaseCompleted \/
      run_Result s' = SnapshotRunningResultFailed /\
        t_Phase (t_Status spt) = SnapshotPodTaskPhaseFailed)).
Proof.
  intros H. apply run_steps_lifecycle. induction H as [|s s1 s' Hs _ IH]; [done|].
  eapply rtc_l; [by apply status_pass_step|done].
Qed.

(** ** Theorems: one reconcile *)

Section ReconcileTheorems.
Context {E : Type} {lib : Lo} {ir : ImageRef} {kl : KubeLib} {kc : KubeClient E}.

Lemma emits_StatusUpdate (P : Event -> Prop) (sp : SnapshotPod) :
  (forall r, P (EvSpStatus sp r)) -> emits P (StatusUpdate_SnapshotPod sp).
Proof. apply emits_write. Qed.

(** The kinds of events: tasks created, a status written, metrics recorded. *)
Definition sp_effect (e : Event) : Prop :=
  match e with
  | EvTaskCreate _ _ | EvSpStatus _ _ => True
  | _ => metric_ok e
  end.

Lemma total_Reconcile (req : key) : total (E := E) (Reconcile req).
Proof. unfold Reconcile. total; apply total_run_recs; [apply frames_recs|apply total_recs]. Qed.

Lemma emits_Reconcile (req : key) : emits (E := E) sp_effect (Reconcile req).
Proof.
  assert (forall A (m : M E A), emits metric_ok m -> emits sp_effect m) as Hm.
  { intros A m H. eapply emits_mono; [exact H|]. by intros []. }
  assert (forall A (m : M E A), emits task_create m -> emits sp_effect m) as Hc.
  { intros A m H. eapply emits_mono; [exact H|]. by intros []. }
  unfold Reconcile.
  emits; first [ apply Hm; solve [eauto with effects]
               | apply Hc, emits_run_recs, emits_recs | by apply emits_StatusUpdate ].
Qed.

(** An object whose trigger round is not positive is left alone. *)
Theorem Reconcile_ignored (req : key) sp e1 (w : World E) :
  kc_Get_SnapshotPod req (w_ext w) = (inl sp, e1) ->
  sp_TriggerRound (sp_Spec sp) <= 0 ->
  wp (Reconcile req) (fun '(res, err) w' =>
    res = empty_result /\ err = None /\ w_ext w' = e1 /\ w_trace w' = w_trace w) w.
Proof.
  intros Hget Hr. unfold Reconcile, Get_SnapshotPod, external, wp, post, mbind, M_bind, now.
  cbn. rewrite Hget. cbn. by rewrite bool_decide_true.
Qed.

Context {laws : KubeClientLaws E}.

(** [C27] A reconcile returns, and acts for the object that it fetched alone: it creates
    tasks in the namespace of that object, named after its round, owned by it and
    with its label; it writes the status of that object, with the metadata and the
    spec that were fetched; and it records metrics as they are declared.  Without an
    object, or with one whose round is not positive, it records metrics at most. *)
Theorem Reconcile_safe (req : key) (w : World E) :
  uuid_ok w ->
  wp (Reconcile req) (fun _ w' => exists es, w_trace w' = w_trace w ++ es /\
    Forall (fun e => match fst (kc_Get_SnapshotPod req (w_ext w)) with
                     | inl sp => if bool_decide (0 < sp_TriggerRound (sp_Spec sp))
                                 then own_event sp e else metric_ok e
                     | inr _ => metric_ok e
                     end) es) w.
Proof using laws.
  intros Hu. apply total_wlp_wp; [by apply total_Reconcile|done|].
  destruct (kc_Get_SnapshotPod req (w_ext w)) as [[sp|err] e1] eqn:Hg; cbn [fst].
  - case_bool_decide as Hpos.
    + eapply wlp_mono.
      { apply (Reconcile_shape (fun _ => True) req sp e1 w Hg Hpos). intros w1 _ _.
        unfold wlp, post. by destruct (fst _). }
      by intros [res err] w' [_ Hshow].
    + eapply wlp_mono; [eapply wp_wlp, Reconcile_ignored; [exact Hg|lia]|].
      intros [res err] w' (_ & _ & _ & ->). exists []. by rewrite app_nil_r.
  - unfold Reconcile. apply wlp_bind, wp_wlp, wp_now. intros w1 He1 _ _ Ht1.
    apply wlp_bind, wlp_external. intros g w2 Hg2 _ Ht2. rewrite He1, Hg in Hg2.
    injection Hg2 as -> _. rewrite <- Ht1, <- Ht2.
    eapply wlp_mono; [eapply (emits_wlp metric_ok); emits|]. by intros res w' [_ Hes].
Qed.

(** [C18] The conditions of the status a reconcile writes: the steps Accept, Tasks and
    TaskStatus are called in order on the object that was fetched, until one
    returns an error.  The conditions of those that returned none are True; the
    condition of the one that returned an error is False with the text of that
    error; the conditions of the steps behind it, which are not called, and of every
    other type are untouched; no type comes to occur twice. *)
Theorem Reconcile_conditions (req : key) sp e1 (w : World E) :
  kc_Get_SnapshotPod req (w_ext w) = (inl sp, e1) ->
  0 < sp_TriggerRound (sp_Spec sp) ->
  wlp (Reconcile req) (fun '(_, err) w' => writes_status w w' err (fun sp' =>
    exists n stepErr w1 w2, w_ext w1 = e1 /\ w_trace w1 = w_trace w /\
      executed recs sp w1 n stepErr sp' w2 /\
      loop_outcome (recs (E := E)) n stepErr (conds sp) (conds sp'))) w.
Proof using laws.
  intros Hget Hpos. eapply wlp_mono.
  { apply (Reconcile_shape (fun sp' => exists n stepErr w1 w2, w_ext w1 = e1 /\
      w_trace w1 = w_trace w /\ executed recs sp w1 n stepErr sp' w2 /\
      loop_outcome (recs (E := E)) n stepErr (conds sp) (conds sp')) _ _ _ _ Hget Hpos).
    intros w1 Hx Ht. eapply wlp_mono; [apply run_recs_outcome; [apply frames_recs|apply recs_types]|].
    intros sp' w2 (n & err & Hex & Ho). by exists n, err, w1, w2. }
  intros [res err] w' [(sp' & es & ms & Ht & Hes & Hms & [Ho _] & _) _]. by exists sp', es, ms.
Qed.

(** [C26] When the status update succeeds, the reconcile asks to be called again in
    15 seconds exactly when the status it wrote has a run without a final result or a
    condition that is not True; otherwise it asks for nothing. *)
Theorem Reconcile_requeue (req : key) sp e1 (w : World E) :
  kc_Get_SnapshotPod req (w_ext w) = (inl sp, e1) ->
  0 < sp_TriggerRound (sp_Spec sp) ->
  wlp (Reconcile req) (fun '(res, err) w' => writes_status w w' err (fun sp' =>
    err = None ->
    (RequeueAfter res = Second * 15 <-> unsettled sp') /\
    (RequeueAfter res = 0 <-> ~ unsettled sp'))) w.
Proof using laws.
  intros Hget Hpos. eapply wlp_mono.
  { apply (Reconcile_shape (fun _ => True) _ _ _ _ Hget Hpos). intros w1 _ _.
    unfold wlp, post. by destruct (fst _). }
  intros [res err] w' [(sp' & es & ms & Ht & Hes & Hms & _ & Hreq) _].
  exists sp', es, ms. split_and!; [done..|]. intros Herr.
  destruct (Hreq Herr) as [[-> ?]|[-> ?]]; unfold Second; split; split; done || lia || tauto.
Qed.

(** [C36] If the status that is read has at most 20 runs, so has the status that is
    written. *)
Theorem Reconcile_bound (req : key) sp e1 (w : World E) :
  kc_Get_SnapshotPod req (w_ext w) = (inl sp, e1) ->
  0 < sp_TriggerRound (sp_Spec sp) ->
  (length (sp_Snapshots (sp_Status sp)) <= 20)%nat ->
  wlp (Reconcile req) (fun '(_, err) w' => writes_status w w' err (fun sp' =>
    (length (sp_Snapshots (sp_Status sp')) <= 20)%nat)) w.
Proof using laws.
  intros Hget Hpos Hlen. eapply wlp_mono.
  { apply (Reconcile_shape (fun sp' => (length (sp_Snapshots (sp_Status sp')) <= 20)%nat)
             _ _ _ _ Hget Hpos). intros w1 _ _.
    apply (run_recs_inv (fun _ => True) (fun c => (length (snd (fst c)) <= 20)%nat));
      [apply frames_recs| |done..].
    unfold recs. repeat apply Forall_cons_2; [..|apply Forall_nil_2]; cbn; intros s w2 _ Hs.
    - eapply wlp_mono; [apply validate_same|]. by intros [s' err] w3 ->.
    - eapply wlp_mono; [by apply reconcileTasks_runs|]. by intros [s' err] w3 [? _].
    - unfold reconcileTasksStatus. destruct (LabelSelectorAsSelector _) as [sel selErr].
      apply wlp_bind, wlp_external.
      intros [items|err] w3 _ _ _; [|by apply wlp_ret]. apply wlp_bind.
      eapply wlp_mono; [apply update_runs_refines|]. intros l w4 Hl'. apply wlp_ret. cbn.
      by rewrite <- (Forall2_length _ _ _ Hl'). }
  intros [res err] w' [(sp' & es & ms & Ht & Hes & Hms & [Hl _] & _) _]. by exists sp', es, ms.
Qed.
End ReconcileTheorems.

(** ** Concrete runs *)

Module Witnesses.
Import Fixtures.Std.

Definition w0 : World Store := fx_world [fx_pod] [].

(** The SnapshotPod of the store, with another status or spec. *)
Definition with_sp (sp : SnapshotPod) : Store :=
  mkStore {[ fx_key := sp ]} ∅ [fx_pod] ∅ 1 [].
Definition sp_stale : SnapshotPod :=
  mkSp (sp_meta fx_sp) (fx_spec (fx_target "nb" []) 0 0) (sp_Status fx_sp).

Lemma getPod_spec_witness :
  getPod fx_sp w0 = (Ret (inl fx_pod), w0) /\
  (@inl Pod GoError fx_pod, w_ext w0) = kc_Get_Pod ("ns", "nb") (w_ext w0).
Proof.
  split; [reflexivity|]. apply (getPod_spec fx_sp w0 (inl fx_pod) w0); [reflexivity|done].
Defined.

(** Two pods match, and one of them is running: it is taken. *)
Definition labelled (n phase : string) : Pod :=
  {| pod_meta := mkMeta n "ns" "" "" (Some {[ "app" := "nb" ]}) [] 0 None;
     pod_Spec := pod_Spec fx_pod; pod_Phase := phase; pod_ContainerStatuses := [] |}.
Definition by_label : SnapshotPod :=
  mkSp (sp_meta fx_sp)
    (fx_spec {| tp_Name := ""; tp_Selector := Some {[ "app" := "nb" ]}; tp_Containers := [] |} 1 0)
    (sp_Status fx_sp).

Example pending_pod_ignored :
  let w := fx_world [labelled "nb-1" "Pending"; labelled "nb-2" PodRunning] [] in
  fst (kc_List_Pods (Some (SelectorFromSet (Some {[ "app" := "nb" ]}))) "ns" (w_ext w)) =
    inl [labelled "nb-1" "Pending"; labelled "nb-2" PodRunning] /\
  fst (getPod by_label w) = Ret (inl (labelled "nb-2" PodRunning)).
Proof. split; vm_compute; reflexivity. Qed.

Lemma validate_sound_witness :
  validate fx_sp w0 = (Ret (fx_sp, None), w0) /\ fx_sp = fx_sp /\
  (@None GoError = None <->
   sp_LastTriggerRound (sp_Status fx_sp) = sp_TriggerRound (sp_Spec fx_sp) \/
   exists pod w1, getPod fx_sp w0 = (Ret (inl pod), w1) /\
     forall c, c ∈ tp_Containers (sp_Target (sp_Spec fx_sp)) ->
       c ∈ map ctr_Name (pod_Containers (pod_Spec pod))).
Proof.
  split; [reflexivity|]. apply (validate_sound fx_sp fx_sp None w0 w0). reflexivity.
Defined.

Lemma reconcileTasks_creates_witness :
  wlp (reconcileTasks fx_sp) (fun '(sp', err) w' =>
    exists fin todo runs es tl,
      snapshot_containers fx_sp fx_pod = fin ++ todo /\
      Forall3 (created fx_sp fx_pod) fin es runs /\
      w_trace w' = w_trace w0 ++ es ++ tl /\
      sp' = set_Snapshots (record_runs (sp_Snapshots (sp_Status fx_sp)) runs) fx_sp /\
      match err with
      | None => todo = [] /\ tl = []
      | Some _ => todo <> [] /\ (tl = [] \/ exists t r, tl = [EvTaskCreate t r])
      end) w0 /\
  length (w_trace (snd (reconcileTasks fx_sp w0))) = 2%nat.
Proof.
  split; [|vm_compute; reflexivity].
  apply (reconcileTasks_creates fx_sp w0 w0 fx_pod); [done|reflexivity|reflexivity].
Defined.

(** A pass whose second container has not started, so that only the first is done. *)
Definition w_half : World Store := fx_world [fx_pod_with [fx_main; fx_side_waiting]] [].
Definition half : SnapshotPod :=
  match reconcileTasks fx_sp w_half with (Ret (sp, _), _) => sp | _ => fx_sp end.

Lemma half_run :
  reconcileTasks fx_sp w_half =
  (Ret (half, Some (Errorf "container side not started")), snd (reconcileTasks fx_sp w_half)).
Proof.
  apply run_pair. vm_compute. reflexivity.
Qed.

Lemma reconcileTasks_settles_witness :
  reconcileTasks half w0 = (Ret (set_LastTriggerRound 1 half, None), w0).
Proof.
  eapply (reconcileTasks_settles fx_sp half (Some (Errorf "container side not started")) w_half
            (snd (reconcileTasks fx_sp w_half))).
  - done.
  - reflexivity.
  - apply half_run.
  - vm_compute. discriminate.
Defined.

Lemma task_name_inj_witness : 1 = 1 /\ "main" = "main".
Proof. apply (task_name_inj "snap" 1 1 "main" "main"); [lia|lia|reflexivity]. Defined.

Definition run1 : SnapshotRunningStatus :=
  mkRun 1 fx_now "snap-1-main" "reg.io/test/jupyter:v1" "main" SnapshotRunningResultCreated
        "" None.
Definition task1 (phase : string) : SnapshotPodTask :=
  mkTask (fx_meta "ns" "snap-1-main")
         (t_Spec (new_task fx_sp fx_pod "main" fx_main "reg.io/test/jupyter:v1"))
         (mkTaskStatus [] phase 0 None).

Lemma run_lifecycle_witness :
  let run2 := set_run_CompletedAt (Some fx_now)
                (set_run_Result SnapshotRunningResultSuccess run1) in
  run_identity run2 = run_identity run1 /\
  (run_unfinished run1 = false -> run2 = run1) /\
  (run_unfinished run1 = true -> run_unfinished run2 = false ->
   exists (tasks : gmap string SnapshotPodTask) spt, tasks !! run_TaskName run1 = Some spt /\
     (run_Result run2 = SnapshotRunningResultSuccess /\
        t_Phase (t_Status spt) = SnapshotPodTaskPhaseCompleted \/
      run_Result run2 = SnapshotRunningResultFailed /\
        t_Phase (t_Status spt) = SnapshotPodTaskPhaseFailed)).
Proof.
  intros run2. apply (run_lifecycle run1 run2). apply rtc_once.
  exists Store, w0, (snd (update_run {[ "snap-1-main" := task1 SnapshotPodTaskPhaseCompleted ]} run1 w0)),
    {[ "snap-1-main" := task1 SnapshotPodTaskPhaseCompleted ]}.
  apply run_pair. vm_compute. reflexivity.
Defined.

Lemma Reconcile_ignored_witness :
  let w := set_ext (fun _ => with_sp sp_stale) w0 in
  wp (Reconcile fx_key) (fun '(res, err) w' =>
    res = empty_result /\ err = None /\ w_ext w' = with_sp sp_stale /\
    w_trace w' = w_trace w) w.
Proof.
  intros w. apply (Reconcile_ignored fx_key sp_stale (with_sp sp_stale) w).
  - vm_compute. reflexivity.
  - cbn. lia.
Defined.

Lemma Reconcile_conditions_witness :
  wlp (Reconcile fx_key) (fun '(_, err) w' => writes_status w0 w' err (fun sp' =>
    exists n stepErr w1 w2, w_ext w1 = w_ext w0 /\ w_trace w1 = w_trace w0 /\
      executed recs fx_sp w1 n stepErr sp' w2 /\
      loop_outcome (recs (E := Store)) n stepErr (conds fx_sp) (conds sp'))) w0.
Proof.
  apply (Reconcile_conditions fx_key fx_sp (w_ext w0) w0); [vm_compute; reflexivity|cbn; lia].
Defined.

Lemma Reconcile_requeue_witness :
  wlp (Reconcile fx_key) (fun '(res, err) w' => writes_status w0 w' err (fun sp' =>
    err = None ->
    (RequeueAfter res = Second * 15 <-> unsettled sp') /\
    (RequeueAfter res = 0 <-> ~ unsettled sp'))) w0.
Proof.
  apply (Reconcile_requeue fx_key fx_sp (w_ext w0) w0); [vm_compute; reflexivity|cbn; lia].
Defined.

Lemma Reconcile_bound_witness :
  wlp (Reconcile fx_key) (fun '(_, err) w' => writes_status w0 w' err (fun sp' =>
    (length (sp_Snapshots (sp_Status sp')) <= 20)%nat)) w0.
Proof.
  apply (Reconcile_bound fx_key fx_sp (w_ext w0) w0);
    [vm_compute; reflexivity|cbn; lia|cbn; lia].
Defined.

(** *** Behaviours the model shows *)

(** A world whose identifiers are all the same one. *)
Definition w_safe : World Store :=
  mkWorld (w_ext w0) ∅ (w_clock w0) O (fun _ => std_uuid 0) O (fun _ => O) O [].

Lemma Reconcile_safe_witness :
  uuid_ok w_safe /\
  wp (Reconcile fx_key) (fun _ w' => exists es, w_trace w' = w_trace w_safe ++ es /\
    Forall (fun e => match fst (kc_Get_SnapshotPod fx_key (w_ext w_safe)) with
                     | inl sp => if bool_decide (0 < sp_TriggerRound (sp_Spec sp))
                                 then own_event sp e else metric_ok e
                     | inr _ => metric_ok e
                     end) es) w_safe.
Proof.
  assert (uuid_ok w_safe) as Hu by (intros n; apply fx_uuid_0). split; [exact Hu|].
  exact (Reconcile_safe fx_key w_safe Hu).
Defined.

(** A container that has not started when the round is triggered is lost: the
    first reconcile creates the task of the other one and reports the error;
    when the container has started, the second reconcile takes the round as
    done.  Every condition is True and there is no task for [side]. *)
Definition lost_1 : World Store := snd (Reconcile fx_key w_half).
Definition lost_2 : World Store := snd (Reconcile fx_key (set_ext (set_pods [fx_pod]) lost_1)).

Lemma container_lost :
  match st_sps (w_ext lost_2) !! fx_key with
  | Some sp => sp_LastTriggerRound (sp_Status sp) = sp_TriggerRound (sp_Spec sp) /\
               map c_Status (conds sp) = [ConditionTrue; ConditionTrue; ConditionTrue]
  | None => False
  end /\
  st_tasks (w_ext lost_2) !! ("ns", "snap-1-main") <> None /\
  st_tasks (w_ext lost_2) !! ("ns", "snap-1-side") = None.
Proof. vm_compute. by split_and!. Qed.

(** A status update that fails after the tasks were created makes the next
    reconcile record an image no task commits: the image name is rendered
    anew, with another random tag, and AlreadyExists is taken as success. *)
Definition w_conflict : World Store :=
  fx_world [fx_pod] [None; None; None; None; None; None; Some conflict].
Definition conflict_2 : World Store := snd (Reconcile fx_key (snd (Reconcile fx_key w_conflict))).

Lemma image_mismatch :
  match st_sps (w_ext conflict_2) !! fx_key,
        st_tasks (w_ext conflict_2) !! ("ns", "snap-1-main") with
  | Some sp, Some t =>
      exists r, r ∈ sp_Snapshots (sp_Status sp) /\ run_TaskName r = Name (t_meta t) /\
        run_ImageRef r <> ts_CommitImage (t_Spec t)
  | _, _ => False
  end.
Proof.
  vm_compute. eexists. split; [apply list_elem_of_here|]. by split.
Qed.

(** Tasks are listed in every namespace and keyed by their bare name, so the
    task of another namespace can decide the result of a run. *)
Definition foreign_task : SnapshotPodTask :=
  mkTask (mkMeta "snap-1-main" "other" "uid-9" "rv9"
                 (Some {[ SnapshotNameLabel := "snap" ]}) [] 0 None)
         (t_Spec (task1 "")) (mkTaskStatus [] SnapshotPodTaskPhaseCompleted 0 None).
Definition w_foreign : World Store :=
  std_world fx_now
    (mkStore {[ fx_key := fx_sp ]} {[ ("other", "snap-1-main") := foreign_task ]}
             [fx_pod] ∅ 1 []).

Lemma foreign_task_counts :
  match reconcileTasksStatus (set_Snapshots [run1] fx_sp) w_foreign with
  | (Ret (sp', None), _) =>
      map run_Result (sp_Snapshots (sp_Status sp')) = [SnapshotRunningResultSuccess]
  | _ => False
  end.
Proof. vm_compute. reflexivity. Qed.

(** A name of more than 63 characters is no label value.  The error is dropped, every
    task is listed, and the task of another object, with another label, decides. *)
Definition long_name : string := "s23456789-123456789-123456789-123456789-123456789-123456789-1234".
Definition other_task : SnapshotPodTask :=
  mkTask (mkMeta "snap-1-main" "other" "uid-9" "rv9"
                 (Some {[ SnapshotNameLabel := "another" ]}) [] 0 None)
         (t_Spec (task1 "")) (mkTaskStatus [] SnapshotPodTaskPhaseCompleted 0 None).

Example every_task_listed :
  let listed (name : string) :=
    kc_List_Tasks (fst (LabelSelectorAsSelector {[ SnapshotNameLabel := name ]})) ""
      (mkStore ∅ {[ ("other", "snap-1-main") := other_task ]} [] ∅ 1 []) in
  fst (listed long_name) = inl [other_task] /\ fst (listed "snap") = inl [].
Proof. split; vm_compute; reflexivity. Qed.

(** A condition that becomes False keeps its old transition time. *)
Definition true_cond : Condition := mkCondition "Accept" ConditionTrue 5 "AcceptReady" "".

Lemma transition_time_kept :
  match run_rec {| typ := "Accept"; r := validate |} (set_Conditions [true_cond] fx_sp)
                (fx_world [] []) with
  | (Ret (sp', Some _), _) =>
      map (fun c => (c_Status c, c_LastTransitionTime c)) (conds sp') = [(ConditionFalse, 5)]
  | _ => False
  end.
Proof. vm_compute. reflexivity. Qed.

(** A missing SnapshotPod is reported as an error, so the request is retried
    for as long as the object stays away. *)
Lemma missing_object_is_an_error :
  fst (Reconcile ("ns", "gone") w0) = Ret (empty_result, Some not_found).
Proof. vm_compute. reflexivity. Qed.
End Witnesses.
