(* ===== verification/Runtime.v ===== *)
(** * Container runtimes ([internal/controller/runtime])

    Both runtimes drive a command-line client ([docker], [nerdctl]) by running
    it as a child process.  What the operating system and the container engine
    do is outside: [Sys E] has the operations of packages [os] and [os/exec]
    that the code uses, [Engine E] the calls of the containerd client library,
    [Semver] the version library.  Every child process, change of the
    environment and change of the file system is an event of the trace.

    [Runtime E] is the Go interface, [RuntimeOk] what the task controller
    relies on of an implementation; [docker_ok] and [containerd_ok] show that
    both implementations provide it. *)

From S2P Require Import Prelude GoStrings ApiTypes World Cluster Store Fixtures GoTime Trace.

(** A context is its timeout, if [context.WithTimeout] gave it one. *)
Abbreviation Ctx := (option Z) (only parsing).

Record Runtime (E : Type) := {
  rt_Commit : Ctx -> string -> string -> bool -> string -> string -> M E (option GoError);
  rt_ImageExists : Ctx -> string -> M E bool;
  rt_Pull : Ctx -> string -> option Auth -> list string -> M E (option GoError);
  rt_Push : Ctx -> string -> option Auth -> M E (option GoError)
}.
Arguments rt_Commit {E}. Arguments rt_ImageExists {E}.
Arguments rt_Pull {E}. Arguments rt_Push {E}.

(** ** The outside *)

(** Packages [os] and [os/exec]. *)
Class Sys (E : Type) := {
  (* context, command, arguments, standard input, environment; standard output and error *)
  sys_exec : Ctx -> string -> list string -> option string -> gmap string string ->
             E -> (string * option GoError) * E;
  sys_MkdirTemp : string -> string -> E -> result string * E;
  sys_WriteFile : string -> string -> E -> option GoError * E;
  sys_RemoveAll : string -> E -> E
}.

(** [github.com/Masterminds/semver]; [MustParse] panics on a text that is no version. *)
Class Semver := {
  Version : Type;
  semver_Parse : string -> option Version;
  LessThan : Version -> Version -> bool;
  GreaterThanEqual : Version -> Version -> bool;
  (* "GreaterThanEqual tests if one version is greater or equal than another one",
     "LessThan tests if one version is less than another one" *)
  GreaterThanEqual_law v1 v2 : GreaterThanEqual v1 v2 = negb (LessThan v1 v2)
}.

(** The containerd client ([clientutil], [infoutil], [defaults], [types]). *)
Class Engine `{!Semver} (E : Type) := {
  Client : Type;
  DefaultAddress : string;
  Zstd : string;
  CancelFunc : Type;                 (* [context.CancelFunc] *)
  (* the client, with the function that cancels the context it comes with *)
  NewClient : string -> string -> E -> result (Client * CancelFunc) * E;
  ServerSemVer : Client -> E -> result Version * E;
  call_cancel : CancelFunc -> E -> E
}.

(** ** Definitions *)

Section Os.
Context {E : Type} {sys : Sys E}.

(** A deferred call: it runs when the body has returned or panicked. *)
Definition deferred {A} (cleanup : M E ()) (body : M E A) : M E A := fun w =>
  let '(o, w1) := body w in
  match cleanup w1 with
  | (Ret _, w2) => (o, w2)
  | (Panic s, w2) => (Panic s, w2)
  end.

Definition os_Setenv (k v : string) : M E () :=
  env ← getenv; putenv (<[k := v]> env) ;; emit (EvFs (FsSetenv k v)).
Definition os_Unsetenv (k : string) : M E () :=
  env ← getenv; putenv (delete k env) ;; emit (EvFs (FsUnsetenv k)).
Definition os_MkdirTemp (dir pattern : string) : M E (result string) :=
  r ← external (sys_MkdirTemp dir pattern);
  match r with
  | inl tmp => emit (EvFs (FsMkdirTemp tmp)) ;; mret r
  | inr _ => mret r
  end.
Definition os_WriteFile (path content : string) : M E (option GoError) :=
  r ← external (sys_WriteFile path content);
  emit (EvFs (FsWriteFile path content)) ;; mret r.
Definition os_RemoveAll (path : string) : M E () :=
  external (fun e => (tt, sys_RemoveAll path e)) ;; emit (EvFs (FsRemoveAll path)).

(** [exec.CommandContext(ctx, cmd, args...)] and [Run]: the child inherits the
    environment of the process. *)
Definition run_command (ctx : Ctx) (cmd : string) (args : list string) (stdin : option string)
    : M E (string * option GoError) :=
  env ← getenv;
  r ← external (sys_exec ctx cmd args stdin env);
  emit (EvExec cmd args env (snd r)) ;;
  mret r.
End Os.

(** ** docker_compatible.go *)

Record dockerCompatibleRuntime := {
  dockerCompatibleCommand : string;
  globalArgs : list string
}.

Section Docker.
Context {E : Type} {sys : Sys E}.
Implicit Types d : dockerCompatibleRuntime.

Definition execCommandPOut d (ctx : Ctx) (args : list string) (stdin : option string)
    : M E (string * option GoError) :=
  run_command ctx (dockerCompatibleCommand d) (globalArgs d ++ args) stdin.

Definition execCommand d (ctx : Ctx) (args : list string) (stdin : option string)
    : M E (option GoError) :=
  r ← run_command ctx (dockerCompatibleCommand d) (globalArgs d ++ args) stdin;
  mret (snd r).

Definition requireLogin d (ctx : Ctx) (auth : option Auth) : M E (option GoError) :=
  match auth with
  | None => mret None
  | Some a =>
      err ← execCommand d ctx ["login"; Registry a] None;
      match err with
      | Some e =>
          mret (Some (Errorf ("login '" +:+ Registry a +:+ "': " +:+ err_text e)))
      | None => mret None
      end
  end.

Definition withLoginContextCommands d (ctx : Ctx) (auth : option Auth) (args : list string)
    (stdin : option string) : M E (option GoError) :=
  match auth with
  | None => execCommand d ctx args stdin
  | Some a =>
      r ← os_MkdirTemp "" ".docker-config-*";
      match r with
      | inr err => mret (Some err)
      | inl tmp =>
          deferred (os_RemoveAll tmp) (
            os_Setenv "DOCKER_CONFIG" tmp ;;
            deferred (os_Unsetenv "DOCKER_CONFIG") (
              err ← os_WriteFile (tmp +:+ "/config.json") (ConfigJSON a);
              match err with
              | Some _ => mret err
              | None =>
                  err ← requireLogin d ctx auth;
                  match err with
                  | Some _ => mret err
                  | None =>
                      err ← execCommand d ctx args stdin;
                      match err with
                      | Some e => mret (Some (Errorf ("after login: " +:+ err_text e)))
                      | None => mret None
                      end
                  end
              end))
      end
  end.

(** The argument vector of [docker commit]. *)
Definition docker_commit_args (containerID image : string) (pause : bool)
    (message author : string) : list string :=
  let args := ["commit"; "--pause=" +:+ fmt_bool pause] in
  let args := if bool_decide (message <> "") then args ++ ["--message"; message] else args in
  let args := if bool_decide (author <> "") then args ++ ["--author"; author] else args in
  args ++ [containerID; image].

Definition docker_Commit d (ctx : Ctx) (containerID image : string) (pause : bool)
    (message author : string) : M E (option GoError) :=
  err ← execCommand d ctx (docker_commit_args containerID image pause message author) None;
  match err with
  | Some e => mret (Some (Errorf ("commit image: " +:+ err_text e)))
  | None => mret None
  end.

Definition docker_ImageExists d (ctx : Ctx) (image : string) : M E bool :=
  err ← execCommand d ctx ["image"; "inspect"; image] None;
  mret (bool_decide (err = None)).

Definition docker_Pull d (ctx : Ctx) (image : string) (auth : option Auth) (args : list string)
    : M E (option GoError) :=
  withLoginContextCommands d ctx auth (["pull"; image] ++ args) None.

Definition docker_Push d (ctx : Ctx) (image : string) (auth : option Auth)
    : M E (option GoError) :=
  withLoginContextCommands d ctx auth ["push"; image] None.

Definition docker_Runtime d : Runtime E :=
  {| rt_Commit := docker_Commit d; rt_ImageExists := docker_ImageExists d;
     rt_Pull := docker_Pull d; rt_Push := docker_Push d |}.

Definition NewDockerCompatibleRuntime (cmd : string) (gargs : list string) : Runtime E :=
  docker_Runtime {| dockerCompatibleCommand := cmd; globalArgs := gargs |}.
End Docker.

(** ** containerd_compatible.go *)

(** The embedded [dockerCompatibleRuntime] gives the promoted methods. *)
Record containerdCompatibleRuntime := {
  ctd_docker : dockerCompatibleRuntime;
  IsNerdctlVersionSufficient : bool;
  IsContainerdVersionSufficient : bool
}.

Definition MinNerdctlVersion : string := "2.1.3".
Definition MinContainerdVersion : string := "2.0.0".

Definition parseVersion (str : string) : string := TrimPrefix str "nerdctl version ".

Section Containerd.
Context {E : Type} {sys : Sys E} {sv : Semver} {eng : Engine E}.
Implicit Types c : containerdCompatibleRuntime.

Definition containerd_commit_args c (containerID image : string) (pause : bool)
    (message author : string) : list string :=
  let args := ["commit"; containerID; image; "--pause=" +:+ fmt_bool pause] in
  let args := if bool_decide (message <> "") then args ++ ["--message"; message] else args in
  let args := if bool_decide (author <> "") then args ++ ["--author"; author] else args in
  if IsNerdctlVersionSufficient c && IsContainerdVersionSufficient c
  then args ++ ["--compression"; Zstd] else args.

Definition containerd_Commit c (ctx : Ctx) (containerID image : string) (pause : bool)
    (message author : string) : M E (option GoError) :=
  execCommand (ctd_docker c) ctx
    (containerd_commit_args c containerID image pause message author) None.

Definition containerd_Runtime c : Runtime E :=
  {| rt_Commit := containerd_Commit c;
     rt_ImageExists := docker_ImageExists (ctd_docker c);
     rt_Pull := docker_Pull (ctd_docker c);
     rt_Push := docker_Push (ctd_docker c) |}.

(** [semver.MustParse] *)
Definition MustParse (s : string) : M E Version :=
  match semver_Parse s with Some v => mret v | None => panic "Invalid Semantic Version" end.

Definition NewContainerdCompatibleRuntime (cmd : string) (gargs : list string)
    : M E (result containerdCompatibleRuntime) :=
  let dc := {| dockerCompatibleCommand := cmd; globalArgs := gargs |} in
  '(out, err) ← execCommandPOut dc None ["-v"] None;
  match err with
  | Some e => mret (inr e)
  | None =>
      v ← MustParse (parseVersion (TrimSpace out));
      vmin ← MustParse MinNerdctlVersion;
      let nerdctlVersion := GreaterThanEqual v vmin in
      r ← external (NewClient "k8s.io" DefaultAddress);
      match r with
      | inr e => mret (inr e)
      | inl (client, cancel) =>
          deferred (external (fun e => (tt, call_cancel cancel e))) (
            r ← external (ServerSemVer client);
            match r with
            | inr e => mret (inr e)
            | inl sver =>
                cmin ← MustParse MinContainerdVersion;
                let containerdVersion := negb (LessThan sver cmin) in
                mret (inl {| ctd_docker := dc;
                             IsNerdctlVersionSufficient := nerdctlVersion;
                             IsContainerdVersionSufficient := containerdVersion |})
            end)
      end
  end.
End Containerd.

(** ** What a client relies on *)

(** The operations of a runtime return, and do nothing but run commands and
    prepare their environment. *)
Class RuntimeOk {E : Type} (rt : Runtime E) : Prop := {
  rt_Commit_emits ctx cid img p m a : emits engine_event (rt_Commit rt ctx cid img p m a);
  rt_ImageExists_emits ctx img : emits engine_event (rt_ImageExists rt ctx img);
  rt_Pull_emits ctx img auth args : emits engine_event (rt_Pull rt ctx img auth args);
  rt_Push_emits ctx img auth : emits engine_event (rt_Push rt ctx img auth);
  rt_Commit_total ctx cid img p m a : total (rt_Commit rt ctx cid img p m a);
  rt_ImageExists_total ctx img : total (rt_ImageExists rt ctx img);
  rt_Pull_total ctx img auth args : total (rt_Pull rt ctx img auth args);
  rt_Push_total ctx img auth : total (rt_Push rt ctx img auth)
}.

#[export] Hint Resolve rt_Commit_emits rt_ImageExists_emits rt_Pull_emits rt_Push_emits : effects.
#[export] Hint Resolve rt_Commit_total rt_ImageExists_total rt_Pull_total rt_Push_total : total.

Section Ok.
Context {E : Type} {sys : Sys E} {sv : Semver} {eng : Engine E}.

Lemma emits_deferred {A} P (c : M E ()) (b : M E A) :
  emits P c -> emits P b -> emits P (deferred c b).
Proof.
  intros Hc Hb w. unfold deferred. destruct (Hb w) as (Hu & es & Hes & HP).
  destruct (b w) as [o w1]. cbn in *. destruct (Hc w1) as (Hu' & es' & Hes' & HP').
  destruct (c w1) as [[[]|s] w2]; cbn in *; (split; [congruence|]);
    exists (es ++ es'); rewrite Hes', Hes, app_assoc; (split; [done|]); by apply Forall_app.
Qed.

Lemma tame_deferred {A} Q (c : M E ()) (b : M E A) : tame Q c -> tame Q b -> tame Q (deferred c b).
Proof.
  intros Hc Hb w. unfold post, deferred. specialize (Hb w). unfold post in Hb.
  destruct (b w) as [o w1]. cbn in *. destruct Hb as (He & Hu & HQ).
  destruct (Hc w1) as (He' & Hu' & HQ'). unfold post in *.
  destruct (c w1) as [[[]|s] w2]; cbn in *; (split_and!; [congruence..|done]).
Qed.

(** The constructor panics only on a version that cannot be parsed. *)
Lemma tame_NewContainerd cmd gargs :
  tame (fun msg => msg = "Invalid Semantic Version") (NewContainerdCompatibleRuntime (E := E) cmd gargs).
Proof.
  unfold NewContainerdCompatibleRuntime, execCommandPOut, run_command, MustParse.
  tame; apply tame_deferred; tame.
Qed.

Lemma keeps_deferred {A} P (c : M E ()) (b : M E A) :
  keeps P c -> keeps P b -> keeps P (deferred c b).
Proof.
  intros Hc Hb w Hw. specialize (Hb w Hw). unfold deferred. destruct (b w) as [o w1].
  specialize (Hc w1 Hb). destruct (c w1) as [[?|s] w2]; exact Hc.
Qed.

Lemma total_deferred {A} (c : M E ()) (b : M E A) :
  total c -> total b -> total (deferred c b).
Proof.
  intros Hc Hb w Hw. specialize (Hb w Hw). apply wp_run in Hb as (a & w1 & Hb & Hu).
  assert (uuid_ok w1) as Hw1 by (intros n; rewrite Hu; apply Hw).
  specialize (Hc w1 Hw1). apply wp_run in Hc as ([] & w2 & Hc & Hu').
  unfold wp, post, deferred. rewrite Hb, Hc. cbn. congruence.
Qed.

Lemma emits_os_MkdirTemp dir pat : emits engine_event (os_MkdirTemp dir pat).
Proof. unfold os_MkdirTemp. emits. Qed.
Lemma emits_os_WriteFile p c : emits engine_event (os_WriteFile p c).
Proof. unfold os_WriteFile. emits. Qed.
Lemma emits_os_RemoveAll p : emits engine_event (os_RemoveAll p).
Proof. unfold os_RemoveAll. emits. Qed.
Lemma emits_os_Setenv k v : emits (E := E) engine_event (os_Setenv k v).
Proof. unfold os_Setenv. emits. Qed.
Lemma emits_os_Unsetenv k : emits (E := E) engine_event (os_Unsetenv k).
Proof. unfold os_Unsetenv. emits. Qed.
Lemma emits_run_command ctx c a i : emits engine_event (run_command ctx c a i).
Proof. unfold run_command. emits. Qed.

Hint Resolve emits_os_MkdirTemp emits_os_WriteFile emits_os_RemoveAll emits_os_Setenv
  emits_os_Unsetenv emits_run_command emits_deferred : effects.

Lemma total_run_command ctx c a i : total (run_command ctx c a i).
Proof. unfold run_command. total. Qed.

Lemma emits_execCommand d ctx a i : emits engine_event (execCommand d ctx a i).
Proof. unfold execCommand. emits. Qed.
Lemma total_execCommand d ctx a i : total (execCommand d ctx a i).
Proof. unfold execCommand. total; apply total_run_command. Qed.

Hint Resolve emits_execCommand : effects.
Hint Resolve total_execCommand : total.

Lemma emits_requireLogin d ctx auth : emits engine_event (requireLogin d ctx auth).
Proof. unfold requireLogin. emits. Qed.
Lemma total_requireLogin d ctx auth : total (requireLogin d ctx auth).
Proof. unfold requireLogin. total. Qed.

Hint Resolve emits_requireLogin : effects.
Hint Resolve total_requireLogin : total.

Lemma emits_withLogin d ctx auth args stdin :
  emits engine_event (withLoginContextCommands d ctx auth args stdin).
Proof.
  unfold withLoginContextCommands. destruct auth as [a|]; [|emits].
  emits; repeat (apply emits_deferred; emits).
Qed.

Lemma total_withLogin d ctx auth args stdin :
  total (withLoginContextCommands d ctx auth args stdin).
Proof.
  unfold withLoginContextCommands, os_MkdirTemp. destruct auth as [a|]; [|total].
  total; apply total_deferred; unfold os_RemoveAll, os_Setenv; total;
    apply total_deferred; unfold os_Unsetenv, os_WriteFile; total.
Qed.

Hint Resolve emits_withLogin : effects.
Hint Resolve total_withLogin : total.

#[export] Instance docker_ok d : RuntimeOk (docker_Runtime d).
Proof.
  split; intros; cbn; unfold docker_Commit, docker_ImageExists, docker_Pull, docker_Push;
    first [total; fail | emits].
Qed.

#[export] Instance containerd_ok c : RuntimeOk (containerd_Runtime c).
Proof.
  split; intros; cbn; unfold containerd_Commit, docker_ImageExists, docker_Pull, docker_Push;
    first [total; fail | emits].
Qed.
End Ok.

(** ** Theorems: commands that need a login *)

(** The events around a private client configuration in the directory [tmp]. *)
Definition login_open (tmp : string) (a : Auth) : list Event :=
  [EvFs (FsMkdirTemp tmp); EvFs (FsSetenv "DOCKER_CONFIG" tmp);
   EvFs (FsWriteFile (tmp +:+ "/config.json") (ConfigJSON a))].
Definition login_close (tmp : string) : list Event :=
  [EvFs (FsUnsetenv "DOCKER_CONFIG"); EvFs (FsRemoveAll tmp)].

(** The specification of one command that needs a login: the events, the error
    and the environment it leaves. *)
Inductive login_session (d : dockerCompatibleRuntime) (a : Auth) (args : list string)
    (env : gmap string string) : list Event -> option GoError -> gmap string string -> Prop :=
| session_no_directory e :
    login_session d a args env [] (Some e) env
| session_no_config tmp e :
    login_session d a args env (login_open tmp a ++ login_close tmp) (Some e)
      (delete "DOCKER_CONFIG" env)
| session_refused tmp e :
    login_session d a args env
      (login_open tmp a ++
       [EvExec (dockerCompatibleCommand d) (globalArgs d ++ ["login"; Registry a])
          (<["DOCKER_CONFIG" := tmp]> env) (Some e)] ++ login_close tmp)
      (Some (Errorf ("login '" +:+ Registry a +:+ "': " +:+ err_text e)))
      (delete "DOCKER_CONFIG" env)
| session_run tmp r :
    login_session d a args env
      (login_open tmp a ++
       [EvExec (dockerCompatibleCommand d) (globalArgs d ++ ["login"; Registry a])
          (<["DOCKER_CONFIG" := tmp]> env) None;
        EvExec (dockerCompatibleCommand d) (globalArgs d ++ args)
          (<["DOCKER_CONFIG" := tmp]> env) r] ++ login_close tmp)
      ((fun e => Errorf ("after login: " +:+ err_text e)) <$> r)
      (delete "DOCKER_CONFIG" env).

Section Theorems.
Context {E : Type} {sys : Sys E} {sv : Semver} {eng : Engine E}.

(** [m] runs one command with the arguments [args] behind those of [d], in a login
    session if there are credentials. *)
Definition login_run (d : dockerCompatibleRuntime) (auth : option Auth) (args : list string)
    (m : M E (option GoError)) (w : World E) : Prop :=
  wp m (fun r w' => exists es, w_trace w' = w_trace w ++ es /\
    match auth with
    | Some a => login_session d a args (w_env w) es r (w_env w')
    | None => es = [EvExec (dockerCompatibleCommand d) (globalArgs d ++ args) (w_env w) r] /\
              w_env w' = w_env w
    end) w.

Lemma withLogin_run (d : dockerCompatibleRuntime) ctx (auth : option Auth) args stdin
    (w : World E) :
  login_run d auth args (withLoginContextCommands d ctx auth args stdin) w.
Proof.
  unfold login_run. destruct auth as [a|].
  2: { unfold withLoginContextCommands, execCommand, run_command, wp, post, mbind, M_bind,
         external, getenv. cbn. destruct (sys_exec _ _ _ _ _ _) as [[o r] e]. cbn. eauto. }
  unfold withLoginContextCommands, os_MkdirTemp, requireLogin, execCommand, run_command,
    os_WriteFile, os_Setenv, os_Unsetenv, os_RemoveAll, deferred, wp, post, mbind, M_bind,
    external, getenv, putenv, emit, mret, M_ret. cbn.
  destruct (sys_MkdirTemp _ _ _) as [[tmp|e] e1]; cbn.
  2: { exists []. rewrite app_nil_r. split; [done|]. constructor. }
  destruct (sys_WriteFile _ _ _) as [[e|] e2]; cbn.
  { rewrite delete_insert_eq, <- !app_assoc. eexists. split; [done|]. apply session_no_config. }
  destruct (sys_exec _ _ _ _ _ _) as [[o [e|]] e3]; cbn.
  { rewrite delete_insert_eq, <- !app_assoc. eexists. split; [done|]. apply session_refused. }
  destruct (sys_exec _ _ _ _ _ _) as [[o' r] e4]; cbn.
  destruct r as [e|]; cbn; rewrite delete_insert_eq, <- !app_assoc;
    (eexists; split; [done|]); [apply (session_run _ _ _ _ tmp (Some e))
                               |apply (session_run _ _ _ _ tmp None)].
Qed.

(** [C10] A push or pull with credentials is a login session: the credentials are
    written to a fresh directory, both commands see that directory as
    [DOCKER_CONFIG], the command runs only after a login that succeeded, and
    on every path the variable is unset and then the directory removed.
    Without credentials the command alone runs. *)
Theorem withLogin_session (d : dockerCompatibleRuntime) ctx (auth : option Auth) args stdin
    (w : World E) :
  wp (withLoginContextCommands d ctx auth args stdin) (fun r w' =>
    exists es, w_trace w' = w_trace w ++ es /\
      match auth with
      | Some a => login_session d a args (w_env w) es r (w_env w')
      | None => es = [EvExec (dockerCompatibleCommand d) (globalArgs d ++ args) (w_env w) r] /\
                w_env w' = w_env w
      end) w.
Proof.
  apply withLogin_run.
Qed.

(** The optional flags, written as in a specification. *)
Definition commit_flags (message author : string) : list string :=
  (if bool_decide (message <> "") then ["--message"; message] else []) ++
  (if bool_decide (author <> "") then ["--author"; author] else []).

Lemma docker_commit_args_eq cid img p m a :
  docker_commit_args cid img p m a =
  ["commit"; "--pause=" +:+ fmt_bool p] ++ commit_flags m a ++ [cid; img].
Proof. unfold docker_commit_args, commit_flags. by repeat case_bool_decide. Qed.

Lemma containerd_commit_args_eq c cid img p m a :
  containerd_commit_args c cid img p m a =
  ["commit"; cid; img; "--pause=" +:+ fmt_bool p] ++ commit_flags m a ++
  (if IsNerdctlVersionSufficient c && IsContainerdVersionSufficient c
   then ["--compression"; Zstd] else []).
Proof.
  unfold containerd_commit_args, commit_flags.
  destruct (_ && _); repeat case_bool_decide; cbn; done.
Qed.

Lemma fmt_bool_inj p p' : fmt_bool p = fmt_bool p' -> p = p'.
Proof. by destruct p, p'. Qed.

(** The flags determine the message and the author, whatever follows. *)
Lemma commit_flags_inj m a m' a' l l' :
  length l = length l' -> commit_flags m a ++ l = commit_flags m' a' ++ l' ->
  m = m' /\ a = a' /\ l = l'.
Proof.
  unfold commit_flags. intros Hl.
  repeat match goal with |- context [bool_decide (?x <> "")] =>
    destruct (decide (x = "")) as [->|?];
      [rewrite (bool_decide_false ("" <> "")) by tauto
      |rewrite (bool_decide_true (x <> "")) by done] end;
  cbn; intros H; try (apply (f_equal length) in H as Hn; cbn in Hn; lia);
  simplify_eq; try done.
Qed.

(** [C33] The argument vector of a commit loses nothing: it determines the
    container, the image, the pause flag, the message and the author, for
    docker and for nerdctl. *)
Theorem commit_args_inj (c : containerdCompatibleRuntime)
    cid img p m a cid' img' p' m' a' :
  docker_commit_args cid img p m a = docker_commit_args cid' img' p' m' a' \/
  containerd_commit_args c cid img p m a = containerd_commit_args c cid' img' p' m' a' ->
  cid = cid' /\ img = img' /\ p = p' /\ m = m' /\ a = a'.
Proof.
  rewrite !docker_commit_args_eq, !containerd_commit_args_eq. intros [H|H].
  - injection H as Hp H. apply commit_flags_inj in H as (-> & -> & H); [|done].
    apply fmt_bool_inj in Hp. by simplify_eq.
  - injection H as -> -> Hp H. apply commit_flags_inj in H as (-> & -> & _); [|done].
    by apply fmt_bool_inj in Hp.
Qed.

(** A commit is one command.  docker gets the options before the container
    and wraps the error; nerdctl gets the options after it, asks for zstd
    compression exactly when both versions are sufficient, and returns the
    error as it is. *)
Theorem Commit_command (d : dockerCompatibleRuntime) (c : containerdCompatibleRuntime)
    ctx cid img p m a (w : World E) :
  wp (rt_Commit (docker_Runtime d) ctx cid img p m a) (fun r w' =>
    exists err, w_trace w' = w_trace w ++
      [EvExec (dockerCompatibleCommand d)
         (globalArgs d ++ ["commit"; "--pause=" +:+ fmt_bool p] ++ commit_flags m a ++ [cid; img])
         (w_env w) err] /\
      r = (fun e => Errorf ("commit image: " +:+ err_text e)) <$> err) w /\
  wp (rt_Commit (containerd_Runtime c) ctx cid img p m a) (fun r w' =>
    w_trace w' = w_trace w ++
      [EvExec (dockerCompatibleCommand (ctd_docker c))
         (globalArgs (ctd_docker c) ++ ["commit"; cid; img; "--pause=" +:+ fmt_bool p] ++
          commit_flags m a ++
          (if IsNerdctlVersionSufficient c && IsContainerdVersionSufficient c
           then ["--compression"; Zstd] else []))
         (w_env w) r]) w.
Proof.
  cbn [rt_Commit docker_Runtime containerd_Runtime].
  unfold docker_Commit, containerd_Commit, execCommand, run_command.
  rewrite docker_commit_args_eq, containerd_commit_args_eq.
  unfold wp, post, mbind, M_bind, external, getenv, emit. cbn. split.
  - destruct (sys_exec _ _ _ _ _ _) as [[o [e|]] e']; cbn; eauto.
  - by destruct (sys_exec _ _ _ _ _ _) as [[o r] e'].
Qed.

(** ** What a runtime drives *)

(** Every operation of [rt] is one command [cmd] with the global arguments [gargs]:
    the commit of the container into the image, the inspection of the image, the pull
    and the push of it, the last two in a login session if there are credentials. *)
Record drives (cmd : string) (gargs : list string) (rt : Runtime E) : Prop := {
  drives_Commit ctx cid img pause message author :
    exists rest, cid ∈ rest /\ img ∈ rest /\ ("--pause=" +:+ fmt_bool pause) ∈ rest /\
      forall w : World E, wp (rt_Commit rt ctx cid img pause message author) (fun r w' =>
        exists err, w_trace w' = w_trace w ++ [EvExec cmd (gargs ++ "commit" :: rest) (w_env w) err] /\
          (r = None <-> err = None)) w;
  drives_ImageExists ctx img (w : World E) :
    wp (rt_ImageExists rt ctx img) (fun r w' =>
      exists err, w_trace w' = w_trace w ++
        [EvExec cmd (gargs ++ ["image"; "inspect"; img]) (w_env w) err] /\
        (r = true <-> err = None)) w;
  drives_Pull ctx img auth args (w : World E) :
    login_run {| dockerCompatibleCommand := cmd; globalArgs := gargs |} auth
      (["pull"; img] ++ args) (rt_Pull rt ctx img auth args) w;
  drives_Push ctx img auth (w : World E) :
    login_run {| dockerCompatibleCommand := cmd; globalArgs := gargs |} auth
      ["push"; img] (rt_Push rt ctx img auth) w
}.

Lemma ImageExists_run d ctx img (w : World E) :
  wp (docker_ImageExists d ctx img) (fun r w' =>
    exists err, w_trace w' = w_trace w ++
      [EvExec (dockerCompatibleCommand d) (globalArgs d ++ ["image"; "inspect"; img]) (w_env w) err] /\
      (r = true <-> err = None)) w.
Proof.
  unfold docker_ImageExists, execCommand, run_command, wp, post, mbind, M_bind, external, getenv, emit.
  cbn. destruct (sys_exec _ _ _ _ _ _) as [[o r] e]. cbn. exists r. split; [done|].
  apply bool_decide_eq_true.
Qed.

Lemma docker_drives cmd gargs : drives cmd gargs (NewDockerCompatibleRuntime cmd gargs).
Proof.
  set (d := {| dockerCompatibleCommand := cmd; globalArgs := gargs |}).
  split; intros; [|by apply (ImageExists_run d)|by apply (withLogin_run d)..].
  eexists (_ :: commit_flags message author ++ [cid; img]). rewrite !elem_of_cons, !elem_of_app.
  split_and!; [right; right; apply list_elem_of_here| |by left|].
  { right; right. apply list_elem_of_further, list_elem_of_here. }
  intros w. unfold NewDockerCompatibleRuntime. cbn [rt_Commit docker_Runtime].
  unfold docker_Commit, execCommand, run_command. rewrite docker_commit_args_eq.
  unfold wp, post, mbind, M_bind, external, getenv, emit. cbn.
  destruct (sys_exec _ _ _ _ _ _) as [[o [e|]] e']; cbn; (eexists; split; [done|]); done.
Qed.

Lemma containerd_drives c :
  drives (dockerCompatibleCommand (ctd_docker c)) (globalArgs (ctd_docker c)) (containerd_Runtime c).
Proof.
  set (d := ctd_docker c). assert (d = {| dockerCompatibleCommand := dockerCompatibleCommand d;
                                          globalArgs := globalArgs d |}) as Hd by (by destruct d).
  split; intros; [|by apply (ImageExists_run d)|rewrite <- Hd; by apply (withLogin_run d)..].
  eexists (cid :: img :: _ :: commit_flags message author ++ _). rewrite !elem_of_cons.
  split_and!; [by left|right; by left|right; right; by left|].
  intros w. cbn [rt_Commit containerd_Runtime]. unfold containerd_Commit, execCommand, run_command.
  rewrite containerd_commit_args_eq. unfold wp, post, mbind, M_bind, external, getenv, emit. cbn.
  destruct (sys_exec _ _ _ _ _ _) as [[o r] e']; cbn. by eexists.
Qed.

(** The creation of a containerd runtime, as the outcome and the outside it leaves:
    the version of the command, then a client, then the version of the server.  Once
    there is a client, its context is cancelled on every path. *)
Inductive ctd_created (cmd : string) (gargs : list string) (env : gmap string string) (e : E) :
    outcome (result containerdCompatibleRuntime) -> E -> Prop :=
| ctd_no_command out err e0 :
    sys_exec None cmd (gargs ++ ["-v"]) None env e = ((out, Some err), e0) ->
    ctd_created cmd gargs env e (Ret (inr err)) e0
| ctd_bad_version out e0 :
    sys_exec None cmd (gargs ++ ["-v"]) None env e = ((out, None), e0) ->
    semver_Parse (parseVersion (TrimSpace out)) = None \/ semver_Parse "2.1.3" = None ->
    ctd_created cmd gargs env e (Panic "Invalid Semantic Version") e0
| ctd_no_client out e0 err e1 :
    sys_exec None cmd (gargs ++ ["-v"]) None env e = ((out, None), e0) ->
    NewClient "k8s.io" DefaultAddress e0 = (inr err, e1) ->
    ctd_created cmd gargs env e (Ret (inr err)) e1
| ctd_no_server out e0 client cancel e1 err e2 :
    sys_exec None cmd (gargs ++ ["-v"]) None env e = ((out, None), e0) ->
    NewClient "k8s.io" DefaultAddress e0 = (inl (client, cancel), e1) ->
    ServerSemVer client e1 = (inr err, e2) ->
    ctd_created cmd gargs env e (Ret (inr err)) (call_cancel cancel e2)
| ctd_bad_minimum out e0 client cancel e1 sver e2 :
    sys_exec None cmd (gargs ++ ["-v"]) None env e = ((out, None), e0) ->
    NewClient "k8s.io" DefaultAddress e0 = (inl (client, cancel), e1) ->
    ServerSemVer client e1 = (inl sver, e2) -> semver_Parse "2.0.0" = None ->
    ctd_created cmd gargs env e (Panic "Invalid Semantic Version") (call_cancel cancel e2)
| ctd_made out e0 client cancel e1 sver e2 v vmin cmin :
    sys_exec None cmd (gargs ++ ["-v"]) None env e = ((out, None), e0) ->
    semver_Parse (parseVersion (TrimSpace out)) = Some v -> semver_Parse "2.1.3" = Some vmin ->
    NewClient "k8s.io" DefaultAddress e0 = (inl (client, cancel), e1) ->
    ServerSemVer client e1 = (inl sver, e2) -> semver_Parse "2.0.0" = Some cmin ->
    ctd_created cmd gargs env e
      (Ret (inl {| ctd_docker := {| dockerCompatibleCommand := cmd; globalArgs := gargs |};
                   IsNerdctlVersionSufficient := negb (LessThan v vmin);
                   IsContainerdVersionSufficient := negb (LessThan sver cmin) |}))
      (call_cancel cancel e2).

Lemma NewContainerd_docker cmd gargs (w : World E) :
  wlp (NewContainerdCompatibleRuntime cmd gargs) (fun r _ =>
    match r with
    | inl c => ctd_docker c = {| dockerCompatibleCommand := cmd; globalArgs := gargs |}
    | inr _ => True
    end) w.
Proof.
  unfold NewContainerdCompatibleRuntime, wlp, post, deferred, execCommandPOut, run_command, MustParse.
  unfold mbind, M_bind, external, getenv, emit, panic, mret, M_ret. cbn.
  repeat (case_match; cbn in *; simplify_eq; try done).
Qed.

(** [C35] The creation of a containerd runtime, on every path: a failing query is
    returned as its error, a version that is none is a panic, and a runtime that is
    made compresses exactly when nerdctl is at least 2.1.3 and containerd at least
    2.0.0.  The context that came with the client is cancelled whatever the query of
    the server answers; the client itself is not closed. *)
Theorem NewContainerdCompatibleRuntime_spec (cmd : string) gargs (w : World E) :
  let '(o, w') := NewContainerdCompatibleRuntime cmd gargs w in
  ctd_created cmd gargs (w_env w) (w_ext w) o (w_ext w') /\ w_env w' = w_env w.
Proof.
  unfold NewContainerdCompatibleRuntime, execCommandPOut, run_command, MustParse, deferred.
  unfold mbind, M_bind, external, getenv, emit, panic, mret, M_ret. cbn.
  destruct (sys_exec _ _ _ _ _ _) as [[out [e|]] e0] eqn:Hx; cbn.
  { split; [by eapply ctd_no_command|done]. }
  destruct (semver_Parse (parseVersion _)) as [v|] eqn:Hv; cbn.
  2: { split; [eapply ctd_bad_version; [exact Hx|by left]|done]. }
  destruct (semver_Parse MinNerdctlVersion) as [vmin|] eqn:Hm; cbn.
  2: { split; [eapply ctd_bad_version; [exact Hx|by right]|done]. }
  destruct (NewClient _ _ _) as [[[client cancel]|e] e1] eqn:Hc; cbn.
  2: { split; [by eapply ctd_no_client|done]. }
  destruct (ServerSemVer _ _) as [[sver|e] e2] eqn:Hs; cbn.
  2: { split; [by eapply ctd_no_server|done]. }
  destruct (semver_Parse MinContainerdVersion) as [cmin|] eqn:Hcm; cbn.
  2: { split; [by eapply ctd_bad_minimum|done]. }
  rewrite GreaterThanEqual_law. split; [by eapply ctd_made|done].
Qed.
End Theorems.

(** ** A concrete machine

    Commands on the store of [Store.v]: they succeed unless the fault script of
    the store says otherwise. *)

Definition std_exec (args : list string) (s : Store) : (string * option GoError) * Store :=
  match request (fun s => (inl tt, s)) s with
  | (inl _, s') => (if bool_decide (last args = Some "-v") then "nerdctl version 2.1.3" else "",
                    None, s')
  | (inr e, s') => ("", Some e, s')
  end.

Definition sys_std : Sys Store := {|
  sys_exec _ _ args _ _ := std_exec args;
  sys_MkdirTemp _ _ := request (fun s => (inl "/tmp/.docker-config-1", s));
  sys_WriteFile _ _ s := let '(r, s') := request (fun s => (inl tt, s)) s in (result_err r, s');
  sys_RemoveAll _ s := s
|}.

Definition std_version (s : string) : option (list Z) :=
  match Split s "." with
  | [a; b; c] =>
      match leadingInt 0 a, leadingInt 0 b, leadingInt 0 c with
      | Some (x, ""), Some (y, ""), Some (z, "") => Some [x; y; z]
      | _, _, _ => None
      end
  | _ => None
  end.

Fixpoint version_ltb (l k : list Z) : bool :=
  match l, k with
  | x :: l, y :: k => Z.ltb x y || (Z.eqb x y && version_ltb l k)
  | [], _ :: _ => true
  | _, [] => false
  end.

#[program] Definition semver_std : Semver := {|
  Version := list Z;
  semver_Parse := std_version;
  LessThan := version_ltb;
  GreaterThanEqual v1 v2 := negb (version_ltb v1 v2)
|}.
Solve All Obligations with done.

Definition engine_std : @Engine semver_std Store := {|
  Client := unit : Type;
  DefaultAddress := "/run/containerd/containerd.sock";
  Zstd := "zstd";
  CancelFunc := unit : Type;
  NewClient _ _ := request (fun s => (inl (tt, tt), s));
  ServerSemVer _ := request (fun s => (inl [1; 7; 0] : result (@Version semver_std), s));
  call_cancel _ s := s
|}.

Module StdSys.
#[export] Existing Instance sys_std.
#[export] Existing Instance semver_std.
#[export] Existing Instance engine_std.
End StdSys.

Definition nerdctl (c : bool) : containerdCompatibleRuntime :=
  {| ctd_docker := {| dockerCompatibleCommand := "nerdctl";
                      globalArgs := ["--debug"; "-n"; "k8s.io"] |};
     IsNerdctlVersionSufficient := true; IsContainerdVersionSufficient := c |}.

Module RuntimeWitnesses.
Import Fixtures.Std StdSys.

Lemma commit_args_inj_witness :
  "c1" = "c1" /\ "img" = "img" /\ true = true /\ "" = "" /\ "me" = "me".
Proof.
  apply (commit_args_inj (nerdctl true) "c1" "img" true "" "me" "c1" "img" true "" "me").
  left. reflexivity.
Defined.

(** containerd 1.7 does not compress, whatever nerdctl is. *)
Example old_containerd :
  fst (NewContainerdCompatibleRuntime "nerdctl" ["--debug"; "-n"; "k8s.io"] (fx_world [] [])) =
  Ret (inl (nerdctl false)).
Proof. vm_compute. reflexivity. Qed.

(** A value of [DOCKER_CONFIG] that the process had before is lost. *)
Example docker_config_lost :
  let w := mkWorld (fx_store [] []) {[ "DOCKER_CONFIG" := "/root/.docker" ]} (fun _ => 0) O
                   std_uuid O (fun _ => O) O [] in
  w_env (snd (rt_Push (containerd_Runtime (nerdctl true)) None "img"
                (Some {| Registry := "reg.io"; ConfigJSON := "{}" |}) w)) = ∅.
Proof. vm_compute. reflexivity. Qed.
End RuntimeWitnesses.
