(* ===== verification/TaskController.v ===== *)
(** * The task controller ([internal/controller/snapshotpodtask_controller.go])

    The reconciler that runs on every node: it takes the tasks of its node
    through accept, commit and push, writes the status after every step, counts
    the passes that failed and gives up after [MaxRetries] of them.  The [spt]
    pointer that Go mutates is threaded.  A call through the [Runtime]
    interface leaves an [EvRuntime] event behind its own effects. *)

From S2P Require Import Prelude GoStrings ApiTypes World Lo Cluster Store ImageRefLib.
From S2P Require Import Fixtures Trace Metrics GoTime Conditions ImageName SnapshotPodController Runtime.
From Stdlib Require Import Ascii.

Definition dockerRuntime : string := "docker".
Definition containerdRuntime : string := "containerd".
Definition defaultCommitTimeout : string := "5m".

Record SnapshotPodTaskReconciler (E : Type) := {
  NodeName : string;
  runtimeMap : gmap string (Runtime E)
}.
Arguments NodeName {E}. Arguments runtimeMap {E}.

(** How an iteration of the loop over the steps ends. *)
Inductive loop_out :=
| Continue                 (* on to the next step *)
| Break (lastError : GoError)
| Return (err : GoError).  (* out of [Reconcile] *)

Inductive task_rec := RecAccept | RecCommit | RecPush.

#[global] Instance task_rec_eq_dec : EqDecision task_rec.
Proof. solve_decision. Defined.

(** [rec.typ] *)
Definition task_typ (x : task_rec) : string :=
  match x with RecAccept => "Accept" | RecCommit => "Commit" | RecPush => "Push" end.

Definition task_recs : list task_rec := [RecAccept; RecCommit; RecPush].

Section Defs.
Context {E : Type} {lib : Lo} {ir : ImageRef} {kl : KubeLib} {kc : KubeClient E}.
Implicit Types r : SnapshotPodTaskReconciler E.

(** ** Calls through the interface *)

Definition call_Commit (rt : Runtime E) (ctx : Ctx) (cid image : string) (pause : bool)
    (message author : string) : M E (option GoError) :=
  err ← rt_Commit rt ctx cid image pause message author;
  emit (EvRuntime (RtCommit ctx cid image pause message author) err) ;; mret err.
Definition call_ImageExists (rt : Runtime E) (ctx : Ctx) (image : string) : M E bool :=
  b ← rt_ImageExists rt ctx image;
  emit (EvRuntime (RtImageExists image b) None) ;; mret b.
Definition call_Pull (rt : Runtime E) (ctx : Ctx) (image : string) (auth : option Auth)
    (args : list string) : M E (option GoError) :=
  err ← rt_Pull rt ctx image auth args;
  emit (EvRuntime (RtPull image auth args) err) ;; mret err.
Definition call_Push (rt : Runtime E) (ctx : Ctx) (image : string) (auth : option Auth)
    : M E (option GoError) :=
  err ← rt_Push rt ctx image auth;
  emit (EvRuntime (RtPush image auth) err) ;; mret err.

(** ** The steps *)

Definition getRuntimeAndContainerID r (containerID : string)
    : M E (result (string * Runtime E * string)) :=
  match Split containerID "://" !! 0%nat with
  | None => panic "index out of range [0]"
  | Some rtName =>
      match runtimeMap r !! rtName with
      | None =>
          n ← choose;       (* the order of the keys is unspecified *)
          mret (inr (Errorf ("unsupported for runtime: " +:+ rtName +:+
                             ", current supported list: " +:+
                             fmt_strings (permute n (lo_Keys (runtimeMap r))))))
      | Some rt =>
          match Split containerID "://" !! 1%nat with
          | None => panic "index out of range [1]"
          | Some cid => mret (inl (rtName, rt, cid))
          end
      end
  end.

Definition getImageAuthWithSecret (namespace sec image : string) : M E (result (option Auth)) :=
  if bool_decide (sec = "") then mret (inl None)
  else
    g ← Get_Secret (namespace, sec);
    match g with
    | inr err => mret (inr err)
    | inl secret =>
        match ParseReference ("//" +:+ image) with
        | inr err => mret (inr err)
        | inl ref =>
            mret (inl (Some {| Registry := Domain ref;
                               ConfigJSON := map_get (Some (sec_Data secret))
                                               ".dockerconfigjson" |}))
        end
    end.

Definition getSnapshotName (spt : SnapshotPodTask) : string :=
  let snapshotName := map_get (Labels (t_meta spt)) SnapshotNameLabel in
  if bool_decide (snapshotName = "") then "unknown" else snapshotName.

(** The measurement at each exit of [reconcilePushImage], then the [return]. *)
Definition push_exit (startTime : Time) (result registry : string) (spt : SnapshotPodTask)
    (err : option GoError) : M E (option GoError) :=
  d ← since startTime;
  RecordImagePush result registry (Namespace (t_meta spt)) (getSnapshotName spt) d ;;
  mret err.

Definition reconcilePushImage r (spt : SnapshotPodTask) : M E (option GoError) :=
  startTime ← now;
  let ns := Namespace (t_meta spt) in
  g ← getRuntimeAndContainerID r (ts_ContainerID (t_Spec spt));
  match g with
  | inr err => push_exit startTime ImagePushResultFailed "unknown" spt (Some err)
  | inl (rtName, rt, _) =>
      ok ← call_ImageExists rt None (ts_CommitImage (t_Spec spt));
      if negb ok
      then push_exit startTime ImagePushResultFailed "unknown" spt
             (Some (Errorf ("image " +:+ ts_CommitImage (t_Spec spt) +:+ " not exists")))
      else
        auth ← getImageAuthWithSecret ns (ts_RegistrySecretRef (t_Spec spt))
                                      (ts_CommitImage (t_Spec spt));
        match auth with
        | inr err => push_exit startTime ImagePushResultFailed "unknown" spt (Some err)
        | inl auth =>
            (if bool_decide (rtName = containerdRuntime) then
               a ← getImageAuthWithSecret ns (ts_OriginRegistrySecretRef (t_Spec spt))
                                          (ts_OriginImage (t_Spec spt));
               let a := match a with inl a => a | inr _ => None end in
               call_Pull rt None (ts_OriginImage (t_Spec spt)) a ["--unpack=false"] ;;
               mret tt
             else mret tt) ;;
            let registry :=
              match ParseReference ("//" +:+ ts_CommitImage (t_Spec spt)) with
              | inl ref => Domain ref
              | inr _ => "unknown"
              end in
            err ← call_Push rt None (ts_CommitImage (t_Spec spt)) auth;
            match err with
            | Some _ => push_exit startTime ImagePushResultFailed registry spt err
            | None => push_exit startTime ImagePushResultSuccess registry spt None
            end
        end
  end.

Definition reconcileCommit r (spt : SnapshotPodTask) : M E (option GoError) :=
  g ← getRuntimeAndContainerID r (ts_ContainerID (t_Spec spt));
  match g with
  | inr err => mret (Some err)
  | inl (_, rt, cid) =>
      let opts := ts_CommitOptions (t_Spec spt) in
      let timeout := if bool_decide (0 < String.length (co_Timeout opts))%nat
                     then co_Timeout opts else defaultCommitTimeout in
      match ParseDuration timeout with
      | inr err => mret (Some err)
      | inl d =>
          call_Commit rt (Some d) cid (ts_CommitImage (t_Spec spt)) (co_PauseContainer opts)
                      (co_Message opts) (co_Author opts)
      end
  end.

Definition reconcileAccept r (spt : SnapshotPodTask) : M E (option GoError) := mret None.

(** [rec.r] *)
Definition task_r r (x : task_rec) : SnapshotPodTask -> M E (option GoError) :=
  match x with
  | RecAccept => reconcileAccept r
  | RecCommit => reconcileCommit r
  | RecPush => reconcilePushImage r
  end.

(** ** One iteration of the loop *)

Definition task_update_cond (i : nat) (f : Condition -> Condition) (spt : SnapshotPodTask)
    : M E SnapshotPodTask :=
  match t_Conditions (t_Status spt) !! i with
  | None => panic "index out of range"
  | Some c => mret (set_t_Conditions (<[i := f c]> (t_Conditions (t_Status spt))) spt)
  end.

Definition task_get_cond (i : nat) (spt : SnapshotPodTask) : M E Condition :=
  match t_Conditions (t_Status spt) !! i with
  | None => panic "index out of range"
  | Some c => mret c
  end.

Definition task_ensure_cond (ty : string) (spt : SnapshotPodTask) : M E (nat * SnapshotPodTask) :=
  match lo_FindIndexOf (t_Conditions (t_Status spt))
          (fun item => bool_decide (c_Type item = ty)) with
  | Some i => mret (i, spt)
  | None =>
      t ← now;
      let c := mkCondition ty ConditionUnknown t (ty +:+ "Ready") "" in
      mret (length (t_Conditions (t_Status spt)),
            set_t_Conditions (t_Conditions (t_Status spt) ++ [c]) spt)
  end.

(** What an iteration does with the outcome of its step. *)
Definition task_finish_rec (i : nat) (old : Condition) (spt : SnapshotPodTask)
    (err : option GoError) : M E (SnapshotPodTask * loop_out) :=
  match err with
  | Some e =>
      spt ← task_update_cond i (set_c_Status ConditionFalse) spt;
      spt ← task_update_cond i (set_c_Message (err_text e)) spt;
      '(spt, updateErr) ← StatusUpdate_Task spt;
      match updateErr with
      | Some e' => mret (spt, Return e')
      | None => mret (spt, Break e)
      end
  | None =>
      spt ← task_update_cond i (set_c_Status ConditionTrue) spt;
      spt ← task_update_cond i (set_c_Message "") spt;
      c ← task_get_cond i spt;
      spt ← (if negb (cmpConditionWithoutTime old c) || time_IsZero (c_LastTransitionTime c) then
               t ← now;
               task_update_cond i (set_c_LastTransitionTime t) spt
             else mret spt);
      '(spt, updateErr) ← StatusUpdate_Task spt;
      match updateErr with
      | Some e' => mret (spt, Return e')
      | None => mret (spt, Continue)
      end
  end.

Definition task_run_rec r (x : task_rec) (spt : SnapshotPodTask)
    : M E (SnapshotPodTask * loop_out) :=
  '(i, spt) ← task_ensure_cond (task_typ x) spt;
  old ← task_get_cond i spt;
  if bool_decide (c_Status old = ConditionTrue) then mret (spt, Continue)
  else
    err ← task_r r x spt;
    task_finish_rec i old spt err.

(** The loop [for _, rec := range recs]. *)
Fixpoint task_run_recs r (l : list task_rec) (spt : SnapshotPodTask)
    : M E (SnapshotPodTask * loop_out) :=
  match l with
  | [] => mret (spt, Continue)
  | x :: l' =>
      '(spt, out) ← task_run_rec r x spt;
      match out with
      | Continue => task_run_recs r l' spt
      | _ => mret (spt, out)
      end
  end.

(** ** The phase *)

(** The predicate of [SomeBy]: the clock is read only when no step failed. *)
Definition overdue (lastError : option GoError) (item : Condition) : M E bool :=
  if bool_decide (c_Status item = ConditionTrue) then mret false
  else
    match lastError with
    | Some _ => mret true
    | None =>
        n ← now; mret (time_Before (time_Add (c_LastTransitionTime item) (Minute * 10)) n)
    end.

Definition max_retries (spt : SnapshotPodTask) : Z :=
  if bool_decide (ts_MaxRetries (t_Spec spt) = 0) then 3 else ts_MaxRetries (t_Spec spt).

Definition count_retry (snapshotName : string) (spt : SnapshotPodTask) : M E SnapshotPodTask :=
  let spt := set_t_RetryCount (int32_succ (t_RetryCount (t_Status spt))) spt in
  t ← now;
  let spt := set_t_LastRetryTime (Some t) spt in
  RecordSnapshotTaskRetry (Namespace (t_meta spt)) snapshotName (Name (t_meta spt)) ;;
  if bool_decide (t_RetryCount (t_Status spt) >= max_retries spt) then
    let spt := set_t_Phase SnapshotPodTaskPhaseFailed spt in
    RecordTaskFailed (Namespace (t_meta spt)) snapshotName (Name (t_meta spt)) ;;
    mret spt
  else mret spt.

(** The [switch] that updates the phase. *)
Definition update_phase (lastError : option GoError) (snapshotName : string)
    (spt : SnapshotPodTask) : M E SnapshotPodTask :=
  if lo_EveryBy (t_Conditions (t_Status spt))
       (fun item => bool_decide (c_Status item = ConditionTrue))
  then mret (set_t_Phase SnapshotPodTaskPhaseCompleted spt)
  else
    b ← lo_SomeBy (t_Conditions (t_Status spt)) (overdue lastError);
    if (b : bool) then count_retry snapshotName spt
    else mret (set_t_Phase SnapshotPodTaskPhaseCreated spt).

Definition terminal (spt : SnapshotPodTask) : bool :=
  bool_decide (t_Phase (t_Status spt) = SnapshotPodTaskPhaseCompleted) ||
  bool_decide (t_Phase (t_Status spt) = SnapshotPodTaskPhaseFailed).

(** The measurement of a task that has reached its end. *)
Definition report_terminal (snapshotName : string) (spt : SnapshotPodTask) : M E () :=
  if terminal spt then
    let status :=
      if bool_decide (t_Phase (t_Status spt) = SnapshotPodTaskPhaseCompleted)
      then SnapshotTaskStatusSuccess
      else if bool_decide (t_Phase (t_Status spt) = SnapshotPodTaskPhaseFailed)
      then SnapshotTaskStatusFailed else "" in
    duration ← (if negb (time_IsZero (CreationTimestamp (t_meta spt)))
                then since (CreationTimestamp (t_meta spt)) else mret 0);
    RecordSnapshotTask status (Namespace (t_meta spt)) snapshotName duration
  else mret tt.

Definition retry_delay (spt : SnapshotPodTask) : Duration :=
  if bool_decide (ts_RetryDelaySeconds (t_Spec spt) > 0)
  then Second * ts_RetryDelaySeconds (t_Spec spt) else Second * 30.

(** From the end of the loop to the end of [Reconcile]. *)
Definition task_conclude (startTime : Time) (lastError : option GoError) (spt : SnapshotPodTask)
    : M E (CtrlResult * option GoError) :=
  let snapshotName := getSnapshotName spt in
  spt ← update_phase lastError snapshotName spt;
  '(spt, err) ← StatusUpdate_Task spt;
  match err with
  | Some e => mret (empty_result, Some e)
  | None =>
      report_terminal snapshotName spt ;;
      if terminal spt then
        d ← since startTime;
        RecordControllerReconcile "snapshotpodtask" ControllerResultSuccess d ;;
        mret (empty_result, None)
      else
        d ← since startTime;
        RecordControllerReconcile "snapshotpodtask" ControllerResultRequeue d ;;
        mret ({| RequeueAfter := retry_delay spt |}, None)
  end.

(** A negative retry count is taken as zero. *)
Definition reset_retries (spt : SnapshotPodTask) : SnapshotPodTask :=
  if bool_decide (t_RetryCount (t_Status spt) < 0) then set_t_RetryCount 0 spt else spt.

Definition Reconcile r (req : key) : M E (CtrlResult * option GoError) :=
  startTime ← now;
  g ← Get_Task req;
  match g with
  | inr err =>
      if IsNotFound err then mret (empty_result, None)
      else
        RecordControllerError "snapshotpodtask" "get_instance_error" ;;
        d ← since startTime;
        RecordControllerReconcile "snapshotpodtask" ControllerResultError d ;;
        mret (empty_result, Some err)
  | inl spt =>
      if bool_decide (ts_NodeName (t_Spec spt) <> NodeName r) then mret (empty_result, None)
      else if terminal spt then mret (empty_result, None)
      else
        '(spt, out) ← task_run_recs r task_recs (reset_retries spt);
        match out with
        | Return e => mret (empty_result, Some e)
        | Break e => task_conclude startTime (Some e) spt
        | Continue => task_conclude startTime None spt
        end
  end.

(** [SetupWithManager], up to the registration with the manager. *)
Definition setup_runtimeMap {sys : Sys E} {sv : Semver} {eng : Engine E}
    : M E (result (gmap string (Runtime E))) :=
  c ← NewContainerdCompatibleRuntime "nerdctl" ["--debug"; "-n"; "k8s.io"];
  match c with
  | inr err => mret (inr (Wrapf "failed to create containerd compatible runtime: " err))
  | inl containerdCompatibleRuntime =>
      mret (inl (<[dockerRuntime := NewDockerCompatibleRuntime "docker" ["--debug"]]>
                 {[ containerdRuntime := containerd_Runtime containerdCompatibleRuntime ]}))
  end.
End Defs.

(** ** Theorems: container identifiers *)

Section Theorems.
Context {E : Type} {lib : Lo}.
Variable r : SnapshotPodTaskReconciler E.

(** [C34] A container identifier [runtime://id] is taken apart into the runtime of
    that name and the identifier, and the name of no runtime is an error.  The
    function panics exactly when the whole identifier, without a separator, is
    the name of a runtime. *)
Theorem getRuntimeAndContainerID_spec (id : string) (w : World E) :
  (forall name cid, byte_in ":"%char name = false -> Contains cid "://" = false ->
     id = name +:+ "://" +:+ cid ->
     match runtimeMap r !! name with
     | Some rt => fst (getRuntimeAndContainerID r id w) = Ret (inl (name, rt, cid))
     | None => exists err, fst (getRuntimeAndContainerID r id w) = Ret (inr err)
     end) /\
  ((exists msg, fst (getRuntimeAndContainerID r id w) = Panic msg) <->
   is_Some (runtimeMap r !! id) /\ Contains id "://" = false).
Proof using Type.
  unfold getRuntimeAndContainerID. split.
  - intros name cid Hn Hc ->.
    assert (Split (name +:+ "://" +:+ cid) "://" = [name; cid]) as ->.
    { rewrite Split_sep_app; [by rewrite (Split_none cid)|done| |].
      - by apply Split_none, byte_in_Contains.
      - intros a b. by apply byte_in_prefix. }
    cbn. destruct (runtimeMap r !! name); [done|]. by eexists.
  - destruct (Split id "://") as [|n l] eqn:Hs.
    { by destruct (Split_head id "://") as [x Hx]; [|rewrite Hs in Hx]. }
    cbn. rewrite <- (Split_single_iff id "://") by done.
    destruct l as [|c l]; cbn.
    + assert (n = id) as ->.
      { destruct (Split_head_tail id "://" n []) as [[_ ?]|(? & ? & ? & _)]; done. }
      destruct (runtimeMap r !! id) as [rt|]; cbn.
      * split; [|by eexists]. intros _. split; [by eexists|by exists id].
      * split; [by intros [msg ?]|by intros [[? ?] _]].
    + destruct (runtimeMap r !! n) as [rt|]; cbn;
        (split; [by intros [msg ?]|intros [_ [p Hp]]; congruence]).
Qed.
End Theorems.
