(* ===== verification/TaskSpec.v ===== *)
(** * The specification of the task controller

    What one pass of [TaskController.Reconcile] may show: [push_events] and
    [commit_events] for the steps, [loop_spec] for the loop over the steps, a
    relation on the task and the visible events.  The lemmas show that the code
    refines it, in any world and with any runtime that is [RuntimeOk]; the
    theorems of [TaskTheorems] follow from the relation alone. *)

From S2P Require Import Prelude GoStrings ApiTypes World Lo Cluster ImageRefLib.
From S2P Require Import Trace Metrics GoTime Conditions ImageName SnapshotPodController Runtime TaskController.
From Stdlib Require Import Floats.SpecFloat.

(** ** Container identifiers: [runtime://id] *)

Definition runtime_name (containerID : string) : string :=
  default "" (Split containerID "://" !! 0%nat).

Section Ids.
Context {E : Type}.
Implicit Types r : SnapshotPodTaskReconciler E.

(** The index [1] exists, or is not read. *)
Definition id_ok r (containerID : string) : Prop :=
  runtimeMap r !! runtime_name containerID = None \/ Contains containerID "://" = true.

Definition runtimes_ok r : Prop := map_Forall (fun _ rt => RuntimeOk rt) (runtimeMap r).

(** The runtime and the container that an identifier names. *)
Definition resolve r (containerID : string) : option (Runtime E * string) :=
  rt ← runtimeMap r !! runtime_name containerID;
  cid ← Split containerID "://" !! 1%nat;
  Some (rt, cid).
End Ids.

(** ** The visible events of the steps *)

Definition push_metrics (spt : SnapshotPodTask) (result registry : string) (s : spec_float)
    : list Event :=
  [EvMetric ImageMetrics_PushTotal
     [result; registry; Namespace (t_meta spt); getSnapshotName spt] Inc;
   EvMetric ImageMetrics_PushDuration
     [registry; Namespace (t_meta spt); getSnapshotName spt] (Observe s)].

Definition registry_label {ir : ImageRef} (image : string) : string :=
  match ParseReference ("//" +:+ image) with inl ref => Domain ref | inr _ => "unknown" end.

Definition push_result (err : option GoError) : string :=
  match err with Some _ => ImagePushResultFailed | None => ImagePushResultSuccess end.

Section Steps.
Context {E : Type} {lib : Lo} {ir : ImageRef} {kl : KubeLib} {kc : KubeClient E}.
Implicit Types r : SnapshotPodTaskReconciler E.
Implicit Types spt t : SnapshotPodTask.

(** The credentials for [image] with the secret [sec] of the namespace: none
    without a secret; else the registry of the image and the Docker configuration
    of the secret, as the server answered in some state. *)
Inductive auth_read (ns sec image : string) : result (option Auth) -> Prop :=
| auth_none :
    sec = "" -> auth_read ns sec image (inl None)
| auth_no_secret e err :
    sec <> "" -> fst (kc_Get_Secret (ns, sec) e) = inr err -> auth_read ns sec image (inr err)
| auth_no_reference e secret err :
    sec <> "" -> fst (kc_Get_Secret (ns, sec) e) = inl secret ->
    ParseReference ("//" +:+ image) = inr err -> auth_read ns sec image (inr err)
| auth_given e secret ref :
    sec <> "" -> fst (kc_Get_Secret (ns, sec) e) = inl secret ->
    ParseReference ("//" +:+ image) = inl ref ->
    auth_read ns sec image
      (inl (Some {| Registry := Domain ref;
                    ConfigJSON := default "" (sec_Data secret !! ".dockerconfigjson") |})).

(** The pull that a containerd node makes before a push: of the original image,
    with its own credentials if they can be read. *)
Definition pull_events spt (pull : list Event) : Prop :=
  if bool_decide (runtime_name (ts_ContainerID (t_Spec spt)) = containerdRuntime)
  then exists g e,
    auth_read (Namespace (t_meta spt)) (ts_OriginRegistrySecretRef (t_Spec spt))
      (ts_OriginImage (t_Spec spt)) g /\
    pull = [EvRuntime (RtPull (ts_OriginImage (t_Spec spt))
                         match g with inl a => a | inr _ => None end ["--unpack=false"]) e]
  else pull = [].

(** A push: the image must exist and the credentials of the task be readable;
    containerd first pulls the original image, whatever comes of it; the push is
    made with these credentials; one measurement. *)
Inductive push_events r spt : list Event -> option GoError -> Prop :=
| push_unsupported e s :
    resolve r (ts_ContainerID (t_Spec spt)) = None ->
    push_events r spt (push_metrics spt ImagePushResultFailed "unknown" s) (Some e)
| push_no_image s :
    is_Some (resolve r (ts_ContainerID (t_Spec spt))) ->
    push_events r spt
      (EvRuntime (RtImageExists (ts_CommitImage (t_Spec spt)) false) None ::
       push_metrics spt ImagePushResultFailed "unknown" s)
      (Some (Errorf ("image " +:+ ts_CommitImage (t_Spec spt) +:+ " not exists")))
| push_no_auth e s :
    is_Some (resolve r (ts_ContainerID (t_Spec spt))) ->
    auth_read (Namespace (t_meta spt)) (ts_RegistrySecretRef (t_Spec spt))
      (ts_CommitImage (t_Spec spt)) (inr e) ->
    push_events r spt
      (EvRuntime (RtImageExists (ts_CommitImage (t_Spec spt)) true) None ::
       push_metrics spt ImagePushResultFailed "unknown" s) (Some e)
| push_tried auth pull err s :
    is_Some (resolve r (ts_ContainerID (t_Spec spt))) ->
    auth_read (Namespace (t_meta spt)) (ts_RegistrySecretRef (t_Spec spt))
      (ts_CommitImage (t_Spec spt)) (inl auth) ->
    pull_events spt pull ->
    push_events r spt
      (EvRuntime (RtImageExists (ts_CommitImage (t_Spec spt)) true) None :: pull ++
       EvRuntime (RtPush (ts_CommitImage (t_Spec spt)) auth) err ::
       push_metrics spt (push_result err) (registry_label (ts_CommitImage (t_Spec spt))) s) err.

(** The time a commit may take. *)
Definition commit_timeout spt : result Duration :=
  let t := co_Timeout (ts_CommitOptions (t_Spec spt)) in
  ParseDuration (if bool_decide (t = "") then defaultCommitTimeout else t).

(** The container that a task names. *)
Definition task_container spt : option string :=
  Split (ts_ContainerID (t_Spec spt)) "://" !! 1%nat.

(** The commit that a task asks for: of its container, into its image, within its
    time and with its options; none if the container or the time cannot be read. *)
Definition commit_call spt : option RtCall :=
  cid ← task_container spt;
  match commit_timeout spt with
  | inr _ => None
  | inl d =>
      let opts := ts_CommitOptions (t_Spec spt) in
      Some (RtCommit (Some d) cid (ts_CommitImage (t_Spec spt)) (co_PauseContainer opts)
                     (co_Message opts) (co_Author opts))
  end.

(** A commit: one call, the one that the task asks for, unless the container or
    the timeout cannot be read or no runtime of the node runs the container. *)
Inductive commit_events r spt : list Event -> option GoError -> Prop :=
| commit_unsupported e :
    resolve r (ts_ContainerID (t_Spec spt)) = None ->
    commit_events r spt [] (Some e)
| commit_bad_timeout e :
    commit_timeout spt = inr e ->
    commit_events r spt [] (Some e)
| commit_tried c err :
    is_Some (resolve r (ts_ContainerID (t_Spec spt))) ->
    commit_call spt = Some c ->
    commit_events r spt [EvRuntime c err] err.

Lemma commit_call_spec spt t : t_Spec t = t_Spec spt -> commit_call t = commit_call spt.
Proof using Type. unfold commit_call, task_container, commit_timeout. by intros ->. Qed.

Lemma commit_call_RtCommit spt c :
  commit_call spt = Some c -> match c with RtCommit _ _ _ _ _ _ => True | _ => False end.
Proof using Type.
  unfold commit_call. destruct (task_container spt); cbn; [|done].
  destruct (commit_timeout spt); [|done]. by intros [= <-].
Qed.

Definition step_events r (x : task_rec) spt (es : list Event) (err : option GoError) : Prop :=
  match x with
  | RecAccept => es = [] /\ err = None
  | RecCommit => commit_events r spt es err
  | RecPush => push_events r spt es err
  end.

Lemma does_call {A} (m : M E A) (ev : A -> Event) w :
  total m -> emits engine_event m -> uuid_ok w -> (forall a, engine_eventb (ev a) = false) ->
  does (a ← m; emit (ev a) ;; mret a) (fun a es => es = [ev a]) w.
Proof.
  intros Ht He Hw Hev. eapply does_bind; [by apply (does_engine m (fun _ es => es = []))|].
  intros a es w1 -> Hu. eapply does_bind; [by apply does_event|].
  intros _ es w2 -> _. by apply does_ret.
Qed.

Lemma does_getRuntime r id (w : World E) :
  id_ok r id ->
  does (getRuntimeAndContainerID r id) (fun g es => es = [] /\
    match resolve r id with
    | Some (rt, cid) => runtimeMap r !! runtime_name id = Some rt /\
                        g = inl (runtime_name id, rt, cid)
    | None => exists e, g = inr e
    end) w.
Proof.
  intros Hid. unfold getRuntimeAndContainerID, resolve.
  destruct (Split_head id "://") as [n Hn]; [done|].
  assert (runtime_name id = n) as Hr by (unfold runtime_name; by rewrite Hn).
  rewrite Hn, <- Hr. destruct (runtimeMap r !! runtime_name id) as [rt|] eqn:Hrt; cbn.
  - destruct Hid as [Hid|Hid]; [congruence|].
    destruct (Split id "://" !! 1%nat) as [cid|] eqn:Hc; [by apply does_ret|].
    exfalso. assert (Split id "://" = [n]) as Hs.
    { destruct (Split id "://") as [|x [|y l]]; cbn in *; congruence. }
    assert (Contains id "://" = false); [|congruence].
    apply Split_single_iff; [done|]. by exists n.
  - eapply does_bind; [by apply (does_choose (fun _ es => es = []))|].
    intros k es w1 -> _. apply does_ret. eauto.
Qed.

Lemma total_getImageAuth ns sec img : total (getImageAuthWithSecret ns sec img).
Proof. unfold getImageAuthWithSecret. total. Qed.
Lemma emits_getImageAuth P ns sec img : emits P (getImageAuthWithSecret ns sec img).
Proof. unfold getImageAuthWithSecret. emits. Qed.

Lemma does_getImageAuth ns sec img (w : World E) :
  does (getImageAuthWithSecret ns sec img) (fun g es => es = [] /\ auth_read ns sec img g) w.
Proof.
  unfold getImageAuthWithSecret. case_bool_decide as Hs.
  { apply does_ret. split; [done|]. by apply auth_none. }
  unfold Get_Secret. apply does_external_bind. intros w1 _.
  match goal with |- does (match ?g with _ => _ end) _ _ => destruct g as [secret|err] eqn:Hg end.
  2: { apply (does_ret (inr err)). split; [done|]. by eapply auth_no_secret. }
  destruct (ParseReference _) as [ref|err] eqn:Hp.
  - apply (does_ret (inl (Some _))). split; [done|]. by eapply auth_given.
  - apply (does_ret (inr err)). split; [done|]. by eapply auth_no_reference.
Qed.

Lemma does_RecordImagePush result registry ns n d (w : World E) :
  does (RecordImagePush result registry ns n d) (fun _ es => es =
    [EvMetric ImageMetrics_PushTotal [result; registry; ns; n] Inc;
     EvMetric ImageMetrics_PushDuration [registry; ns; n] (Observe (Seconds d))]) w.
Proof.
  unfold RecordImagePush, with_labels.
  eapply does_bind; [by apply does_event|].
  intros _ es w1 -> _. by apply does_emit.
Qed.

Lemma does_push_exit start result registry spt err (w : World E) :
  does (push_exit start result registry spt err)
    (fun err' es => err' = err /\ exists s, es = push_metrics spt result registry s) w.
Proof.
  unfold push_exit. does_quiet does_since.
  eapply does_bind; [apply does_RecordImagePush|]. intros _ es w1 -> _.
  apply does_ret. split; [done|]. eexists. by rewrite app_nil_r.
Qed.
End Steps.

Section Refinement.
Context {E : Type} {lib : Lo} {ir : ImageRef} {kl : KubeLib} {kc : KubeClient E}.
Implicit Types spt t : SnapshotPodTask.
Variable r : SnapshotPodTaskReconciler E.
Hypothesis Hrts : runtimes_ok r.

Lemma resolve_ok id rt cid : resolve r id = Some (rt, cid) -> RuntimeOk rt.
Proof using Hrts.
  unfold resolve. destruct (runtimeMap r !! _) as [rt'|] eqn:H; cbn; [|done].
  destruct (_ !! 1%nat); cbn; [|done]. intros [= <- _]. exact (Hrts _ _ H).
Qed.

Lemma resolve_container id rt cid :
  resolve r id = Some (rt, cid) -> Split id "://" !! 1%nat = Some cid.
Proof using Type.
  unfold resolve. destruct (runtimeMap r !! _) as [rt'|]; cbn; [|done].
  destruct (_ !! 1%nat); cbn; [|done]. by intros [= _ <-].
Qed.

Lemma reconcileCommit_events spt (w : World E) :
  id_ok r (ts_ContainerID (t_Spec spt)) -> uuid_ok w ->
  does (reconcileCommit r spt) (fun err es => commit_events r spt es err) w.
Proof using Hrts.
  intros Hid Hw. unfold reconcileCommit. eapply does_bind; [by apply does_getRuntime|].
  intros g es w1 [-> Hg] Hu. apply (uuid_ok_eq w w1) in Hw; [|done]. cbn [app].
  destruct (resolve r _) as [[rt cid]|] eqn:Hr.
  2: { destruct Hg as [e ->]. by apply does_ret, commit_unsupported. }
  destruct Hg as [_ ->]. set (opts := ts_CommitOptions (t_Spec spt)).
  assert (ParseDuration (if bool_decide (0 < String.length (co_Timeout opts))%nat
            then co_Timeout opts else defaultCommitTimeout) = commit_timeout spt) as ->.
  { unfold commit_timeout. fold opts. destruct (co_Timeout opts); [done|].
    by rewrite bool_decide_true by (cbn; lia). }
  destruct (commit_timeout spt) as [d|e] eqn:Hd; [|by apply does_ret, commit_bad_timeout].
  pose proof (resolve_ok _ _ _ Hr). unfold call_Commit.
  eapply does_mono; [apply does_call; eauto with total effects|].
  intros err es ->. apply commit_tried; [by eexists|].
  unfold commit_call. apply resolve_container in Hr. unfold task_container. rewrite Hr. cbn.
  by rewrite Hd.
Qed.

Lemma does_pull spt rt name (w : World E) :
  RuntimeOk rt -> uuid_ok w ->
  does (if bool_decide (name = containerdRuntime) then
          a ← getImageAuthWithSecret (Namespace (t_meta spt))
                (ts_OriginRegistrySecretRef (t_Spec spt)) (ts_OriginImage (t_Spec spt));
          let a := match a with inl a => a | inr _ => None end in
          call_Pull rt None (ts_OriginImage (t_Spec spt)) a ["--unpack=false"] ;;
          mret tt
        else mret tt)
    (fun _ pull => name = runtime_name (ts_ContainerID (t_Spec spt)) -> pull_events spt pull) w.
Proof using Type.
  intros Hrt Hw. unfold pull_events. case_bool_decide as Hn.
  2: { apply does_ret. intros <-. by rewrite bool_decide_false. }
  eapply does_bind; [apply does_getImageAuth|]. intros a es w1 [-> Ha] Hu.
  apply (uuid_ok_eq w w1) in Hw; [|done]. cbn [app]. set (auth := match a with inl _ => _ | _ => _ end).
  eapply does_bind.
  { unfold call_Pull. apply does_call; eauto with total effects. }
  intros err es w2 -> _. apply does_ret. intros <-. rewrite bool_decide_true by done.
  by exists a, err.
Qed.

Lemma reconcilePushImage_events spt (w : World E) :
  id_ok r (ts_ContainerID (t_Spec spt)) -> uuid_ok w ->
  does (reconcilePushImage r spt) (fun err es => push_events r spt es err) w.
Proof using Hrts.
  intros Hid Hw. unfold reconcilePushImage. does_quiet does_now. rename a into t0.
  apply (uuid_ok_eq w w') in Hw; [|done]. clear dependent w. rename w' into w.
  eapply does_bind; [by apply does_getRuntime|]. intros g es w1 [-> Hg] Hu1.
  apply (uuid_ok_eq w w1) in Hw; [|done]. cbn [app].
  destruct (resolve r _) as [[rt cid]|] eqn:Hr.
  2: { destruct Hg as [e ->]. eapply does_mono; [apply does_push_exit|].
       intros err es [-> [s ->]]. by apply push_unsupported. }
  destruct Hg as [_ ->]. pose proof (resolve_ok _ _ _ Hr).
  assert (is_Some (resolve r (ts_ContainerID (t_Spec spt)))) as Hsome by by eexists.
  eapply does_bind.
  { unfold call_ImageExists. apply does_call; eauto with total effects. }
  intros ok es w2 -> Hu2. apply (uuid_ok_eq w1 w2) in Hw; [|done].
  destruct ok; cbn [negb].
  2: { eapply does_mono; [apply does_push_exit|]. intros err es [-> [s ->]]. by apply push_no_image. }
  eapply does_bind; [apply does_getImageAuth|]. intros auth es w3 [-> Hsec] Hu3.
  apply (uuid_ok_eq w2 w3) in Hw; [|done]. destruct auth as [auth|e].
  2: { eapply does_mono; [apply does_push_exit|]. intros err es [-> [s ->]].
       by apply push_no_auth. }
  eapply does_bind; [by apply does_pull|]. intros [] pull w4 Hpull Hu4.
  apply (uuid_ok_eq w3 w4) in Hw; [|done]. fold (registry_label (ts_CommitImage (t_Spec spt))).
  eapply does_bind.
  { unfold call_Push. apply does_call; eauto with total effects. }
  intros err es w5 -> Hu5.
  destruct err as [e|]; (eapply does_mono; [apply does_push_exit|]; intros err es [-> [s ->]]; cbn).
  - by apply (push_tried r spt auth pull (Some e) s); auto.
  - by apply (push_tried r spt auth pull None s); auto.
Qed.

Lemma task_r_events x spt (w : World E) :
  id_ok r (ts_ContainerID (t_Spec spt)) -> uuid_ok w ->
  does (task_r r x spt) (fun err es => step_events r x spt es err) w.
Proof using Hrts.
  intros Hid Hw. destruct x; cbn [task_r step_events].
  - by apply does_ret.
  - by apply reconcileCommit_events.
  - by apply reconcilePushImage_events.
Qed.
End Refinement.

(** ** The loop over the steps *)

Definition tconds (t : SnapshotPodTask) : list Condition := t_Conditions (t_Status t).

(** The condition of a step is True. *)
Definition finished (x : task_rec) (t : SnapshotPodTask) : bool :=
  match cond_of (task_typ x) (tconds t) with
  | Some c => bool_decide (c_Status c = ConditionTrue)
  | None => false
  end.

(** The object after a step ended with [err], as it is sent to the server. *)
Definition attempted (x : task_rec) (err : option GoError) (spt t : SnapshotPodTask) : Prop :=
  t = set_t_Conditions (tconds t) spt /\
  cond_outcome (task_typ x) err (tconds spt) (tconds t).

(** What the server's response has in common with the object that was sent. *)
Definition answered (t t' : SnapshotPodTask) : Prop :=
  meta_key (t_meta t') = meta_key (t_meta t) /\ Labels (t_meta t') = Labels (t_meta t) /\
  t_Spec t' = t_Spec t /\ t_Status t' ≡ t_Status t.

#[global] Instance answered_preorder : PreOrder answered.
Proof.
  split; unfold answered; [done|].
  intros a b c (? & ? & ? & ?) (? & ? & ? & ?). split_and!; [congruence..|by etrans].
Qed.

(** The object after a status update that the server answered with [u]. *)
Definition reply (t : SnapshotPodTask) (u : option GoError) (t' : SnapshotPodTask) : Prop :=
  match u with None => answered t t' | Some _ => t' = t end.

Inductive loop_spec {E : Type} {ir : ImageRef} {kl : KubeLib} {kc : KubeClient E} (r : SnapshotPodTaskReconciler E) :
    list task_rec -> SnapshotPodTask -> list Event -> SnapshotPodTask -> loop_out -> Prop :=
| loop_end spt :
    loop_spec r [] spt [] spt Continue
| loop_skip x l spt es spt' out :
    finished x spt = true ->
    loop_spec r l spt es spt' out -> loop_spec r (x :: l) spt es spt' out
| loop_refused x l spt es err t e :
    finished x spt = false ->
    step_events r x spt es err -> attempted x err spt t ->
    loop_spec r (x :: l) spt (es ++ [EvTaskStatus t (Some e)]) t (Return e)
| loop_failed x l spt es e t spt' :
    finished x spt = false ->
    step_events r x spt es (Some e) -> attempted x (Some e) spt t -> answered t spt' ->
    loop_spec r (x :: l) spt (es ++ [EvTaskStatus t None]) spt' (Break e)
| loop_next x l spt es t spt1 es' spt' out :
    finished x spt = false ->
    step_events r x spt es None -> attempted x None spt t -> answered t spt1 ->
    loop_spec r l spt1 es' spt' out ->
    loop_spec r (x :: l) spt (es ++ [EvTaskStatus t None] ++ es') spt' out.

Section LoopRefinement.
Context {E : Type} {lib : Lo} {ir : ImageRef} {kl : KubeLib} {kc : KubeClient E}
        {laws : KubeClientLaws E}.
Implicit Types spt t : SnapshotPodTask.

Lemma does_StatusUpdate_Task t (w : World E) :
  does (StatusUpdate_Task t) (fun '(t', u) es => es = [EvTaskStatus t u] /\ reply t u t') w.
Proof using laws.
  apply does_write; [done|]. intros [t'|e] e' H; cbn; [|done].
  apply kc_StatusUpdate_Task_law in H. done.
Qed.

Lemma does_task_ensure_cond ty spt (w : World E) :
  does (task_ensure_cond ty spt) (fun '(i, spt') es => es = [] /\
    spt' = set_t_Conditions (tconds spt') spt /\
    find_index (has_type ty) (tconds spt') = Some i /\
    (forall ty', ty' <> ty -> cond_of ty' (tconds spt') = cond_of ty' (tconds spt)) /\
    (cond_types (tconds spt') = cond_types (tconds spt) \/
     (ty ∉ cond_types (tconds spt)) /\
     cond_types (tconds spt') = cond_types (tconds spt) ++ [ty]) /\
    match cond_of ty (tconds spt) with
    | Some c => spt' = spt
    | None => exists c, cond_of ty (tconds spt') = Some c /\ c_Status c = ConditionUnknown
    end) w.
Proof using Type.
  unfold task_ensure_cond. rewrite lo_FindIndexOf_law.
  change (fun item => bool_decide (c_Type item = ty)) with (has_type ty).
  pose proof (find_index_cond ty (tconds spt)) as Hc. unfold tconds in *.
  destruct (find_index _ _) as [i|] eqn:Hi.
  { destruct Hc as (c & _ & ->). apply does_ret. split_and!; try done; [|by left].
    by destruct spt as [m s []]. }
  does_quiet does_now. apply does_ret. rewrite Hc.
  split_and!; try done; cbn.
  - by apply cond_of_app_new.
  - intros ty' Hne. by apply cond_of_app_ne.
  - right. split; [by apply cond_of_None|]. unfold cond_types. by rewrite map_app.
  - eexists. split; [by apply cond_of_app_new|done].
Qed.

Lemma task_update_cond_run i c f spt (w : World E) :
  tconds spt !! i = Some c ->
  task_update_cond i f spt w = (Ret (set_t_Conditions (<[i := f c]> (tconds spt)) spt), w).
Proof using Type. unfold tconds, task_update_cond. by intros ->. Qed.

Lemma task_get_cond_run i c spt (w : World E) :
  tconds spt !! i = Some c -> task_get_cond i spt w = (Ret c, w).
Proof using Type. unfold tconds, task_get_cond. by intros ->. Qed.

Lemma tconds_set l spt : tconds (set_t_Conditions l spt) = l.
Proof using Type. done. Qed.

Lemma set_t_Conditions_twice l k spt :
  set_t_Conditions l (set_t_Conditions k spt) = set_t_Conditions l spt.
Proof using Type. done. Qed.

Lemma does_run {A} (m : M E A) a S (w : World E) :
  m w = (Ret a, w) -> S a [] -> does m S w.
Proof using Type.
  intros Hm HS. unfold does, wp, post. rewrite Hm. cbn. split; [done|].
  exists []. by rewrite app_nil_r.
Qed.

(** Overwriting one entry, and writing the object. *)
Lemma does_update_then {B} i c f spt (k : SnapshotPodTask -> M E B) S (w : World E) :
  tconds spt !! i = Some c ->
  does (k (set_t_Conditions (<[i := f c]> (tconds spt)) spt)) S w ->
  does (spt ← task_update_cond i f spt; k spt) S w.
Proof using Type.
  intros Hc Hk. unfold does, wp, post. erewrite bind_run; [|by apply task_update_cond_run].
  exact Hk.
Qed.

Lemma insert_at i (c : Condition) (l : list Condition) d :
  l !! i = Some c -> <[i := d]> l !! i = Some d.
Proof using Type. intros Hc. apply list_lookup_insert_eq. by eapply lookup_lt_Some. Qed.

(** The outcome of a step, recorded and written. *)
Definition finish_out (err u : option GoError) (out : loop_out) : Prop :=
  match u, err with
  | Some e, _ => out = Return e
  | None, Some e => out = Break e
  | None, None => out = Continue
  end.

Lemma does_task_finish_rec i old c spt err (w : World E) :
  tconds spt !! i = Some c ->
  does (task_finish_rec i old spt err) (fun '(spt', out) es =>
    exists c' u, cond_after err c c' /\
      let t := set_t_Conditions (<[i := c']> (tconds spt)) spt in
      es = [EvTaskStatus t u] /\ reply t u spt' /\ finish_out err u out) w.
Proof using laws.
  intros Hc. unfold task_finish_rec. destruct err as [e|].
  - eapply does_update_then; [done|]. eapply does_update_then; [by apply (insert_at _ c)|].
    rewrite tconds_set, set_t_Conditions_twice, list_insert_insert_eq.
    eapply does_bind; [apply does_StatusUpdate_Task|]. intros [spt' u] es w1 [-> Hr] _.
    destruct u as [e'|]; apply does_ret; eexists _, _; (split; [|by split_and!]); done.
  - eapply does_update_then; [done|]. eapply does_update_then; [by apply (insert_at _ c)|].
    rewrite tconds_set, set_t_Conditions_twice, list_insert_insert_eq.
    set (c1 := set_c_Message "" (set_c_Status ConditionTrue c)).
    eapply does_bind with (S1 := fun c2 es => c2 = c1 /\ es = []).
    { eapply does_run; [|done]. apply task_get_cond_run. rewrite tconds_set.
      by apply (insert_at _ c). }
    intros c2 es w1 [-> ->] Hu. cbn [app].
    eapply does_bind with (S1 := fun spt' es => es = [] /\
      exists c', cond_after None c c' /\ spt' = set_t_Conditions (<[i := c']> (tconds spt)) spt).
    { case_match; [|by apply does_ret; split; [|by exists c1]].
      does_quiet does_now. eapply does_run.
      - apply task_update_cond_run. rewrite tconds_set. by apply (insert_at _ c).
      - rewrite tconds_set, set_t_Conditions_twice, list_insert_insert_eq.
        split; [done|]. by exists (set_c_LastTransitionTime a c1). }
    intros spt1 es1 w2 (-> & c' & Hc' & ->) _. cbn [app].
    eapply does_bind; [apply does_StatusUpdate_Task|]. intros [spt' u] es2 w3 [-> Hr] _.
    destruct u as [e'|]; apply does_ret; exists c'; eexists; (split; [|by split_and!]); done.
Qed.
End LoopRefinement.

Section Loop.
Context {E : Type} {lib : Lo} {ir : ImageRef} {kl : KubeLib} {kc : KubeClient E}
        {laws : KubeClientLaws E}.
Implicit Types spt t : SnapshotPodTask.
Variable r : SnapshotPodTaskReconciler E.
Hypothesis Hrts : runtimes_ok r.

(** A step looks at the metadata and the spec only. *)
Lemma step_events_conditions x l spt es err :
  step_events r x (set_t_Conditions l spt) es err -> step_events r x spt es err.
Proof using Type.
  destruct x; cbn [step_events]; [done|..].
  - destruct 1; [by apply commit_unsupported|by apply commit_bad_timeout|].
    by apply commit_tried.
  - destruct 1; change (push_metrics (set_t_Conditions l spt)) with (push_metrics spt);
      cbn [t_Spec t_meta set_t_Conditions set_t_Status] in *.
    + by apply push_unsupported.
    + by apply push_no_image.
    + by apply push_no_auth.
    + by apply push_tried.
Qed.

(** What an iteration shows, before the loop goes on. *)
Inductive iter_spec (x : task_rec) spt : list Event -> SnapshotPodTask -> loop_out -> Prop :=
| iter_skip : finished x spt = true -> iter_spec x spt [] spt Continue
| iter_step es err t u spt' out :
    finished x spt = false ->
    step_events r x spt es err -> attempted x err spt t -> reply t u spt' ->
    finish_out err u out ->
    iter_spec x spt (es ++ [EvTaskStatus t u]) spt' out.

Lemma task_run_rec_refines x spt (w : World E) :
  id_ok r (ts_ContainerID (t_Spec spt)) -> uuid_ok w ->
  does (task_run_rec r x spt) (fun '(spt', out) es => iter_spec x spt es spt' out) w.
Proof using Hrts laws.
  intros Hid Hw. unfold task_run_rec. eapply does_bind; [apply does_task_ensure_cond|].
  intros [i spt1] es w1 (-> & Hs1 & Hi & Hne & Hty & Hcond) Hu. cbn [app].
  apply (uuid_ok_eq w w1) in Hw; [|done].
  pose proof (find_index_cond (task_typ x) (tconds spt1)) as Hx. rewrite Hi in Hx.
  destruct Hx as (c & Hc & Hof).
  assert (finished x spt = bool_decide (c_Status c = ConditionTrue)) as Hfin.
  { unfold finished. destruct (cond_of (task_typ x) (tconds spt)) as [c0|] eqn:H0.
    - rewrite Hcond, H0 in Hof. by injection Hof as ->.
    - destruct Hcond as (c' & Hc' & Hst). rewrite Hof in Hc'. injection Hc' as <-.
      by rewrite Hst. }
  eapply does_bind with (S1 := fun old es => old = c /\ es = []).
  { eapply does_run; [|done]. by apply task_get_cond_run. }
  intros old es w2 [-> ->] Hu2. cbn [app]. apply (uuid_ok_eq w1 w2) in Hw; [|done].
  rewrite <- Hfin. destruct (finished x spt) eqn:Hf.
  { apply does_ret. destruct (cond_of (task_typ x) (tconds spt)) as [c0|] eqn:H0.
    - rewrite Hcond. by apply iter_skip.
    - unfold finished in Hf. by rewrite H0 in Hf. }
  eapply does_bind; [apply task_r_events; [done| |done]; by rewrite Hs1|].
  intros err es w3 Hes Hu3. eapply does_mono; [by apply does_task_finish_rec|].
  intros [spt' out] es' (c' & u & Hc' & -> & Hr & Hout).
  eapply (iter_step _ _ _ err _ u); [done| | |exact Hr|done].
  - rewrite Hs1 in Hes. by eapply step_events_conditions.
  - split; [|rewrite tconds_set; by eapply insert_outcome].
    rewrite tconds_set. generalize (<[i:=c']> (tconds spt1)). intros k. by rewrite Hs1.
Qed.

Lemma task_run_recs_refines l spt (w : World E) :
  id_ok r (ts_ContainerID (t_Spec spt)) -> uuid_ok w ->
  does (task_run_recs r l spt) (fun '(spt', out) es => loop_spec r l spt es spt' out) w.
Proof using Hrts laws.
  revert spt w. induction l as [|x l IH]; intros spt w Hid Hw; cbn [task_run_recs].
  { apply does_ret. constructor. }
  eapply does_bind; [by apply task_run_rec_refines|]. intros [spt1 out] es w1 Hit Hu.
  apply (uuid_ok_eq w w1) in Hw; [|done].
  destruct Hit as [Hf|es err t u spt1 out Hf Hes Hat Hr Hout].
  { eapply does_mono; [by apply IH|]. intros [spt' out] es Hl. by apply loop_skip. }
  unfold finish_out in Hout. destruct u as [e|].
  { cbn in Hr. subst out spt1. apply does_ret. rewrite app_nil_r. by eapply loop_refused. }
  cbn in Hr. destruct err as [e|]; subst out.
  { apply does_ret. rewrite app_nil_r. by eapply loop_failed. }
  eapply does_mono.
  { apply IH; [|done]. destruct Hr as (_ & _ & -> & _). by destruct Hat as [-> _]. }
  intros [spt' out] es' Hl. rewrite <- app_assoc. by eapply loop_next.
Qed.
End Loop.

(** ** The end of a pass *)

Definition all_true (t : SnapshotPodTask) : bool :=
  forallb (fun c => bool_decide (c_Status c = ConditionTrue)) (tconds t).

(** The object with one more failed pass. *)
Definition counted (n : Time) (spt : SnapshotPodTask) : SnapshotPodTask :=
  let t := set_t_LastRetryTime (Some n)
             (set_t_RetryCount (int32_succ (t_RetryCount (t_Status spt))) spt) in
  if bool_decide (t_RetryCount (t_Status t) >= max_retries t)
  then set_t_Phase SnapshotPodTaskPhaseFailed t else t.

Definition task_labels (spt : SnapshotPodTask) : list string :=
  [Namespace (t_meta spt); getSnapshotName spt; Name (t_meta spt)].

Definition retry_metrics (spt : SnapshotPodTask) : list Event :=
  EvMetric SnapshotTaskMetrics_Retries (task_labels spt) Inc ::
  (if bool_decide (int32_succ (t_RetryCount (t_Status spt)) >= max_retries spt)
   then [EvMetric SnapshotTaskFailed (task_labels spt) Inc] else []).

(** The phase after the loop, which ended with [lastError]. *)
Inductive phase_spec (lastError : option GoError) (spt : SnapshotPodTask) :
    list Event -> SnapshotPodTask -> Prop :=
| phase_completed :
    all_true spt = true ->
    phase_spec lastError spt [] (set_t_Phase SnapshotPodTaskPhaseCompleted spt)
| phase_retry n :
    all_true spt = false ->
    phase_spec lastError spt (retry_metrics spt) (counted n spt)
| phase_created :
    all_true spt = false -> lastError = None ->
    phase_spec lastError spt [] (set_t_Phase SnapshotPodTaskPhaseCreated spt).

Definition end_status (t : SnapshotPodTask) : string :=
  if bool_decide (t_Phase (t_Status t) = SnapshotPodTaskPhaseCompleted)
  then SnapshotTaskStatusSuccess else SnapshotTaskStatusFailed.

Definition task_metrics (spt : SnapshotPodTask) (status : string) (s : spec_float) : list Event :=
  let labels := [status; Namespace (t_meta spt); getSnapshotName spt] in
  [EvMetric SnapshotTaskMetrics_Total labels Inc;
   EvMetric SnapshotTaskMetrics_Duration labels (Observe s)].

Definition reconcile_metrics (result : string) (s : spec_float) : list Event :=
  [EvMetric ControllerMetrics_ReconcileTotal ["snapshotpodtask"; result] Inc;
   EvMetric ControllerMetrics_ReconcileDuration ["snapshotpodtask"] (Observe s)].

(** The final write, the measurements and the result. *)
Inductive end_spec (lastError : option GoError) (spt : SnapshotPodTask) :
    list Event -> CtrlResult * option GoError -> Prop :=
| end_refused es t e :
    phase_spec lastError spt es t ->
    end_spec lastError spt (es ++ [EvTaskStatus t (Some e)]) (empty_result, Some e)
| end_terminal es t s1 s2 :
    phase_spec lastError spt es t -> terminal t = true ->
    end_spec lastError spt
      (es ++ EvTaskStatus t None :: task_metrics spt (end_status t) s1 ++
       reconcile_metrics ControllerResultSuccess s2) (empty_result, None)
| end_requeue es t s :
    phase_spec lastError spt es t -> terminal t = false ->
    end_spec lastError spt
      (es ++ EvTaskStatus t None :: reconcile_metrics ControllerResultRequeue s)
      ({| RequeueAfter := retry_delay spt |}, None).

(** One pass over a task of this node that has not reached its end. *)
Inductive pass_spec {E : Type} {ir : ImageRef} {kl : KubeLib} {kc : KubeClient E} (r : SnapshotPodTaskReconciler E)
    (spt : SnapshotPodTask) : list Event -> CtrlResult * option GoError -> Prop :=
| pass_aborted es spt' e :
    loop_spec r task_recs (reset_retries spt) es spt' (Return e) ->
    pass_spec r spt es (empty_result, Some e)
| pass_failed es spt' e es' res :
    loop_spec r task_recs (reset_retries spt) es spt' (Break e) ->
    end_spec (Some e) spt' es' res -> pass_spec r spt (es ++ es') res
| pass_clean es spt' es' res :
    loop_spec r task_recs (reset_retries spt) es spt' Continue ->
    end_spec None spt' es' res -> pass_spec r spt (es ++ es') res.

Section End.
Context {E : Type} {lib : Lo} {ir : ImageRef} {kl : KubeLib} {kc : KubeClient E}
        {laws : KubeClientLaws E}.
Implicit Types spt t : SnapshotPodTask.

Lemma does_overdue lastError c (w : World E) :
  does (overdue lastError c) (fun b es => es = [] /\
    (if bool_decide (c_Status c = ConditionTrue) then b = false
     else lastError <> None -> b = true)) w.
Proof using Type.
  unfold overdue. case_bool_decide; [by apply does_ret|].
  destruct lastError as [e|]; [by apply does_ret|].
  does_quiet does_now. by apply does_ret.
Qed.

Lemma does_some_overdue lastError l (w : World E) :
  does (some_by l (overdue lastError)) (fun b es => es = [] /\
    (lastError <> None -> forallb (fun c => bool_decide (c_Status c = ConditionTrue)) l = false ->
     b = true)) w.
Proof using Type.
  revert w. induction l as [|c l IH]; intros w; cbn [some_by forallb]; [by apply does_ret|].
  eapply does_bind; [apply does_overdue|]. intros b es w1 [-> Hb] _. cbn [app].
  destruct b.
  { by apply does_ret. }
  eapply does_mono; [apply IH|]. intros b es [-> Hl]. split; [done|].
  case_bool_decide; cbn [andb]; [done|]. intros He. by specialize (Hb He).
Qed.

Lemma does_count_retry spt (w : World E) :
  does (count_retry (getSnapshotName spt) spt) (fun t es =>
    es = retry_metrics spt /\ exists n, t = counted n spt) w.
Proof using Type.
  unfold count_retry. does_quiet does_now. rename a into n.
  eapply does_bind; [by apply does_event|]. intros _ es w1 -> _.
  unfold retry_metrics, counted, max_retries. cbn [t_Spec t_Status t_RetryCount set_t_LastRetryTime
    set_t_RetryCount set_t_Status].
  case_bool_decide.
  - eapply does_bind; [by apply does_event|]. intros _ es w2 -> _. apply does_ret.
    split; [done|]. by exists n.
  - apply does_ret. split; [done|]. by exists n.
Qed.

Lemma does_update_phase lastError spt (w : World E) :
  does (update_phase lastError (getSnapshotName spt) spt)
    (fun t es => phase_spec lastError spt es t) w.
Proof using Type.
  unfold update_phase. rewrite lo_EveryBy_law. fold (tconds spt).
  change (forallb _ (tconds spt)) with (all_true spt).
  destruct (all_true spt) eqn:Hall; [by apply does_ret, phase_completed|].
  eapply does_bind.
  { unfold does, wp, post. rewrite lo_SomeBy_law. apply does_some_overdue. }
  intros b es w1 [-> Hb] _. cbn [app]. destruct b.
  - eapply does_mono; [apply does_count_retry|]. intros t es [-> [n ->]]. by apply phase_retry.
  - apply does_ret, phase_created; [done|]. destruct lastError; [|done].
    by specialize (Hb ltac:(done) Hall).
Qed.

Lemma does_report snap t (w : World E) :
  terminal t = true ->
  does (report_terminal snap t) (fun _ es => exists s,
    es = [EvMetric SnapshotTaskMetrics_Total [end_status t; Namespace (t_meta t); snap] Inc;
          EvMetric SnapshotTaskMetrics_Duration [end_status t; Namespace (t_meta t); snap]
            (Observe s)]) w.
Proof using Type.
  intros Ht. unfold report_terminal. rewrite Ht.
  eapply does_bind with (S1 := fun _ es => es = []).
  { destruct (negb _); [by apply does_since|by apply does_ret]. }
  intros d es w1 -> _. cbn [app].
  assert ((if bool_decide (t_Phase (t_Status t) = SnapshotPodTaskPhaseCompleted)
           then SnapshotTaskStatusSuccess
           else if bool_decide (t_Phase (t_Status t) = SnapshotPodTaskPhaseFailed)
           then SnapshotTaskStatusFailed else "") = end_status t) as ->.
  { unfold terminal in Ht. unfold end_status.
    destruct (bool_decide (_ = SnapshotPodTaskPhaseCompleted)); [done|]. cbn in Ht. by rewrite Ht. }
  unfold RecordSnapshotTask, with_labels. eapply does_bind; [by apply does_event|].
  intros _ es w2 -> _. apply does_emit; [done|]. by eexists.
Qed.

Lemma does_reconcile_metrics result d (w : World E) :
  does (RecordControllerReconcile "snapshotpodtask" result d)
    (fun _ es => es = reconcile_metrics result (Seconds d)) w.
Proof using Type.
  unfold RecordControllerReconcile, with_labels. eapply does_bind; [by apply does_event|].
  intros _ es w2 -> _. by apply does_emit.
Qed.

Lemma phase_frame lastError spt es t :
  phase_spec lastError spt es t ->
  t_meta t = t_meta spt /\ t_Spec t = t_Spec spt.
Proof using Type. destruct 1; try done. unfold counted. by case_bool_decide. Qed.

Lemma terminal_answered t t' : answered t t' -> terminal t' = terminal t /\ end_status t' = end_status t.
Proof using Type.
  intros (_ & _ & _ & _ & Hp & _). unfold terminal, end_status. by rewrite Hp.
Qed.

Lemma task_conclude_refines start lastError spt (w : World E) :
  does (task_conclude start lastError spt) (fun res es => end_spec lastError spt es res) w.
Proof using laws.
  unfold task_conclude. eapply does_bind; [apply does_update_phase|]. intros t es w1 Hph _.
  eapply does_bind; [apply does_StatusUpdate_Task|]. intros [t' u] es1 w2 [-> Hr] _.
  destruct u as [e|]; cbn in Hr.
  { apply does_ret. rewrite app_nil_r. by apply end_refused. }
  pose proof (terminal_answered _ _ Hr) as [Htm Hst].
  pose proof (phase_frame _ _ _ _ Hph) as [Hm Hs].
  assert (Namespace (t_meta t') = Namespace (t_meta spt)) as Hns.
  { destruct Hr as (Hk & _). unfold meta_key in Hk. rewrite Hm in Hk. by injection Hk. }
  destruct (terminal t') eqn:Ht'.
  - eapply does_bind; [by apply does_report|]. intros _ es2 w3 [s ->] _.
    does_quiet does_since. eapply does_bind; [apply does_reconcile_metrics|].
    intros _ es2 w4 -> _. apply does_ret. rewrite Hst, Hns, app_nil_r. 
    by apply (end_terminal lastError spt es t s).
  - eapply does_bind with (S1 := fun _ es => es = []).
    { unfold report_terminal. rewrite Ht'. by apply does_ret. }
    intros _ es2 w3 -> _. cbn [app].
    does_quiet does_since. eapply does_bind; [apply does_reconcile_metrics|].
    intros _ es2 w4 -> _. apply does_ret. rewrite app_nil_r.
    assert (retry_delay t' = retry_delay spt) as ->.
    { destruct Hr as (_ & _ & Hs' & _). unfold retry_delay. by rewrite Hs', Hs. }
    by apply end_requeue.
Qed.

Variable r : SnapshotPodTaskReconciler E.
Hypothesis Hrts : runtimes_ok r.

(** A task that this node works on. *)
Definition mine r0 spt : bool :=
  bool_decide (ts_NodeName (t_Spec spt) = NodeName (E := E) r0) && negb (terminal spt).

Definition reconcile_spec r0 (g : result SnapshotPodTask) (es : list Event)
    (res : CtrlResult * option GoError) : Prop :=
  match g with
  | inr err =>
      if IsNotFound err then es = [] /\ res = (empty_result, None)
      else exists s, es = EvMetric ControllerMetrics_ErrorsTotal
                            ["snapshotpodtask"; "get_instance_error"] Inc ::
                          reconcile_metrics ControllerResultError s /\
                     res = (empty_result, Some err)
  | inl spt =>
      if mine r0 spt then pass_spec r0 spt es res
      else es = [] /\ res = (empty_result, None)
  end.

(** The runtime of the container can be read off the task that is fetched. *)
Definition fetch_ok r0 (g : result SnapshotPodTask) : Prop :=
  match g with
  | inl spt => mine r0 spt = true -> id_ok r0 (ts_ContainerID (t_Spec spt))
  | inr _ => True
  end.

Lemma reset_retries_meta spt : t_meta (reset_retries spt) = t_meta spt.
Proof using Type. unfold reset_retries. by case_bool_decide. Qed.
Lemma reset_retries_spec spt : t_Spec (reset_retries spt) = t_Spec spt.
Proof using Type. unfold reset_retries. by case_bool_decide. Qed.

Lemma Reconcile_does req (w : World E) :
  uuid_ok w -> fetch_ok r (fst (kc_Get_Task req (w_ext w))) ->
  does (Reconcile r req) (fun res es =>
    reconcile_spec r (fst (kc_Get_Task req (w_ext w))) es res) w.
Proof using Hrts laws.
  intros Hw. generalize (eq_refl (fst (kc_Get_Task req (w_ext w)))).
  generalize (fst (kc_Get_Task req (w_ext w))) at 2 3 4. intros g Hg Hok.
  unfold Reconcile. apply does_now_bind. intros start w1 He Hu1. unfold Get_Task.
  apply does_external_bind. intros w2 Hu2. rewrite He.
  match type of Hg with ?x = _ => match goal with |- does (match ?y with _ => _ end) _ _ =>
    change y with x end end.
  rewrite Hg.
  assert (uuid_ok w2) as Hw2 by (intros n; rewrite Hu2, Hu1; apply Hw).
  destruct g as [spt|err]; cbn [reconcile_spec fetch_ok] in *.
  2: { destruct (IsNotFound err); [by apply does_ret|]. unfold RecordControllerError, with_labels.
       eapply does_bind; [by apply does_event|]. intros _ es w3 -> _.
       does_quiet does_since. eapply does_bind; [apply does_reconcile_metrics|].
       intros _ es w4 -> _. apply does_ret. rewrite app_nil_r. by eexists. }
  unfold mine in *. destruct (terminal spt); rewrite ?andb_false_r, ?andb_true_r in *.
  { destruct (bool_decide _); by apply does_ret. }
  destruct (decide (ts_NodeName (t_Spec spt) = NodeName r)) as [Hn|Hn].
  2: { rewrite (bool_decide_true (_ <> _)), (bool_decide_false (_ = _)) by done.
       by apply does_ret. }
  rewrite (bool_decide_false (_ <> _)), (bool_decide_true (_ = _)) by tauto.
  rewrite (bool_decide_true (_ = _)) in Hok by done.
  eapply does_bind.
  { apply task_run_recs_refines; [done| |done]. rewrite reset_retries_spec. by apply Hok. }
  intros [spt' out] es w3 Hl _. destruct out as [|e|e].
  - eapply does_mono; [apply task_conclude_refines|]. intros res es' He'. by eapply pass_clean.
  - eapply does_mono; [apply task_conclude_refines|]. intros res es' He'. by eapply pass_failed.
  - apply does_ret. rewrite app_nil_r. by eapply pass_aborted.
Qed.
End End.

(** ** Theorems: the code implements the specification *)

Section Theorems.
Context {E : Type} {lib : Lo} {ir : ImageRef} {kl : KubeLib} {kc : KubeClient E}
        {laws : KubeClientLaws E}.
Implicit Types spt t : SnapshotPodTask.
Variable r : SnapshotPodTaskReconciler E.

(** [C8] The controller implements its specification: whatever the world, the
    order of maps and the answers of server and runtimes, a pass returns, and
    its visible events and result are those [reconcile_spec] allows for the
    object that was fetched. *)
Theorem Reconcile_refines req (w : World E) :
  runtimes_ok r -> uuid_ok w -> fetch_ok r (fst (kc_Get_Task req (w_ext w))) ->
  wp (Reconcile r req) (fun res w' =>
    exists es, w_trace w' = w_trace w ++ es /\
      reconcile_spec r (fst (kc_Get_Task req (w_ext w))) (visible es) res) w.
Proof using laws.
  intros Hrts Hw Hok. eapply wp_mono; [by apply Reconcile_does|]. by intros res w' (_ & ?).
Qed.

Lemma Reconcile_ignores req spt (w : World E) :
  fst (kc_Get_Task req (w_ext w)) = inl spt -> mine r spt = false ->
  exists w', Reconcile r req w = (Ret (empty_result, None), w') /\
    w_trace w' = w_trace w /\ w_env w' = w_env w /\
    w_ext w' = snd (kc_Get_Task req (w_ext w)).
Proof using Type.
  intros Hg Hm. unfold Reconcile, Get_Task, external, now, mbind, M_bind. cbn.
  destruct (kc_Get_Task req (w_ext w)) as [g e]. cbn in *. subst g. unfold mine in Hm.
  destruct (decide (ts_NodeName (t_Spec spt) = NodeName r)) as [Hn|Hn].
  - rewrite bool_decide_false by tauto. rewrite bool_decide_true in Hm by done.
    destruct (terminal spt); [|done]. by eexists.
  - rewrite bool_decide_true by done. by eexists.
Qed.

(** A task of another node and a task that has reached its end are left
    alone: one read, no effect, no requeue. *)
Theorem Reconcile_absorbing req spt (w : World E) :
  fst (kc_Get_Task req (w_ext w)) = inl spt -> mine r spt = false ->
  exists w', Reconcile r req w = (Ret (empty_result, None), w') /\
    w_trace w' = w_trace w /\ w_env w' = w_env w /\
    w_ext w' = snd (kc_Get_Task req (w_ext w)).
Proof using Type. apply Reconcile_ignores. Qed.

(** [C22] A push implements [push_events]: it looks for the image first, then reads
    the credentials from the secret that the task names, pulls the original image for
    containerd with credentials of its own, pushes the image with those of the task,
    and records exactly one measurement, which says success exactly when there is no
    error.  When the credentials cannot be read, nothing is pushed. *)
Theorem reconcilePushImage_refines spt (w : World E) :
  runtimes_ok r -> uuid_ok w -> id_ok r (ts_ContainerID (t_Spec spt)) ->
  wp (reconcilePushImage r spt) (fun err w' =>
    exists es, w_trace w' = w_trace w ++ es /\ push_events r spt (visible es) err) w.
Proof using Type.
  intros Hrts Hw Hid. eapply wp_mono; [by apply reconcilePushImage_events|].
  by intros err w' (_ & ?).
Qed.

(** [C23] A commit implements [commit_events]: at most one call, with the container
    of the identifier and the options of the task.  Its timeout is the text of
    the options as a duration of 64 bits, and five minutes when there is none. *)
Theorem reconcileCommit_refines spt (w : World E) :
  runtimes_ok r -> uuid_ok w -> id_ok r (ts_ContainerID (t_Spec spt)) ->
  wp (reconcileCommit r spt) (fun err w' =>
    exists es, w_trace w' = w_trace w ++ es /\ commit_events r spt (visible es) err) w /\
  (forall d, commit_timeout spt = inl d -> in_int64 d) /\
  (co_Timeout (ts_CommitOptions (t_Spec spt)) = "" -> commit_timeout spt = inl (5 * Minute)).
Proof using Type.
  intros Hrts Hw Hid. split; [|split].
  - eapply wp_mono; [by apply reconcileCommit_events|]. by intros err w' (_ & ?).
  - intros d Hd. by eapply ParseDuration_range.
  - intros Ht. unfold commit_timeout. rewrite Ht. apply duration_5m.
Qed.
End Theorems.

Section Setup.
Context {E : Type} {lib : Lo} {sys : Sys E} {sv : Semver} {eng : Engine E}.

Lemma runtimes_map_ok c name :
  runtimes_ok {| NodeName := name;
    runtimeMap := <[dockerRuntime := NewDockerCompatibleRuntime (E := E) "docker" ["--debug"]]>
      {[ containerdRuntime := containerd_Runtime c ]} |}.
Proof using Type.
  intros k rt. cbn. intros [[_ <-]|[_ [_ <-]%lookup_singleton_Some]]%lookup_insert_Some.
  - apply docker_ok.
  - apply containerd_ok.
Qed.

(** Setting up the runtimes leaves the process alone and gives well-behaved
    runtimes. *)
Lemma setup_runtimeMap_post (w : World E) :
  post setup_runtimeMap (fun o w' => w_env w' = w_env w /\ w_uuid w' = w_uuid w /\
    match o with
    | Ret (inl m) => forall name, runtimes_ok {| NodeName := name; runtimeMap := m |}
    | Ret (inr _) => True
    | Panic msg => msg = "Invalid Semantic Version"
    end) w.
Proof using Type.
  unfold setup_runtimeMap. apply post_bind.
  pose proof (tame_NewContainerd "nerdctl" ["--debug"; "-n"; "k8s.io"] w) as Ht. unfold post in *.
  destruct (NewContainerdCompatibleRuntime _ _ _) as [[[c|e]|s] w']; cbn in *; [|done..].
  destruct Ht as (He & Hu & _). split_and!; [done..|]. intros name. apply runtimes_map_ok.
Qed.

End Setup.
