(* ===== verification/TaskTheorems.v ===== *)
(** * Theorems about the task controller

    Consequences of the specification of [TaskSpec]: which steps run in which
    order, that finished work is not repeated, how the phase follows from the
    conditions, and that a task reaches an end. *)

From S2P Require Import Prelude GoStrings ApiTypes World Lo Cluster Store ImageRefLib Fixtures.
From S2P Require Import Trace Metrics GoTime Conditions ImageName SnapshotPodController Runtime TaskController TaskSpec.
From Stdlib Require Import Ascii Floats.SpecFloat.

(** In [es] every push of the task's image comes after a commit that was recorded:
    the task's own commit, successful, and, at once after it, an accepted write
    with the condition Commit; or the condition is in [spt] already. *)
Definition pushes_after_commit (spt : SnapshotPodTask) (es : list Event) : Prop :=
  forall pre img au u post, es = pre ++ EvRuntime (RtPush img au) u :: post ->
    img = ts_CommitImage (t_Spec spt) /\
    (finished RecCommit spt = true \/
     exists a c t b, commit_call spt = Some c /\
       pre = a ++ [EvRuntime c None; EvTaskStatus t None] ++ b /\
       finished RecCommit t = true).

(** The phase [t] shows agrees with its conditions and its counters. *)
Definition honest_phase (t : SnapshotPodTask) : Prop :=
  (t_Phase (t_Status t) = SnapshotPodTaskPhaseCompleted -> forall x, finished x t = true) /\
  (t_Phase (t_Status t) = SnapshotPodTaskPhaseFailed -> max_retries t <= t_RetryCount (t_Status t)).

(** ** Facts about the loop *)

Lemma cond_of_equiv ty (l k : list Condition) :
  l ≡ k ->
  match cond_of ty l, cond_of ty k with
  | Some c, Some d => c ≡ d
  | None, None => True
  | _, _ => False
  end.
Proof.
  unfold cond_of. induction 1 as [|c d l k Hc _ IH]; cbn; [done|].
  assert (has_type ty c = has_type ty d) as -> by (destruct Hc as [Ht _]; unfold has_type; by rewrite Ht).
  by destruct (has_type ty d).
Qed.

Lemma finished_answered x t t' : answered t t' -> finished x t' = finished x t.
Proof.
  intros (_ & _ & _ & Hst & _). unfold finished, tconds.
  pose proof (cond_of_equiv (task_typ x) _ _ Hst) as H.
  destruct (cond_of _ (t_Conditions (t_Status t'))) as [c|], (cond_of _ _) as [d|]; cbn in H; try done.
  by destruct H as (_ & -> & _).
Qed.

Lemma task_typ_inj x y : task_typ x = task_typ y -> x = y.
Proof. by destruct x, y. Qed.

Lemma finished_attempted_ne x y err spt t :
  attempted x err spt t -> y <> x -> finished y t = finished y spt.
Proof.
  intros [_ (_ & Hne & _)] Hxy. unfold finished. rewrite Hne; [done|].
  intros H. by apply task_typ_inj in H.
Qed.

Lemma finished_attempted x spt t : attempted x None spt t -> finished x t = true.
Proof.
  intros [_ ((c & Hc & Hs) & _)]. unfold finished. rewrite Hc. by rewrite Hs.
Qed.

(** No step loses the mark of another, and a step with a mark does not run. *)
Lemma finished_attempted_keep x y err spt t :
  attempted x err spt t -> finished x spt = false -> finished y spt = true ->
  finished y t = true.
Proof.
  intros Ha Hx Hy. rewrite (finished_attempted_ne x y err spt t); [done|done|].
  intros ->. congruence.
Qed.

Lemma attempted_frame x err spt t :
  attempted x err spt t ->
  t_meta t = t_meta spt /\ t_Spec t = t_Spec spt /\
  t_Phase (t_Status t) = t_Phase (t_Status spt) /\
  t_RetryCount (t_Status t) = t_RetryCount (t_Status spt).
Proof. intros [-> _]. done. Qed.

(** What the loop leaves alone. *)
Definition task_frame (t t' : SnapshotPodTask) : Prop :=
  meta_key (t_meta t') = meta_key (t_meta t) /\ Labels (t_meta t') = Labels (t_meta t) /\
  t_Spec t' = t_Spec t /\
  t_Phase (t_Status t') = t_Phase (t_Status t) /\
  t_RetryCount (t_Status t') = t_RetryCount (t_Status t).

#[global] Instance task_frame_preorder : PreOrder task_frame.
Proof.
  split; unfold task_frame; [done|].
  intros a b c (? & ? & ? & ? & ?) (? & ? & ? & ? & ?). split_and!; congruence.
Qed.

Lemma answered_frame t t' : answered t t' -> task_frame t t'.
Proof. intros (? & ? & ? & _ & ? & ?). by split_and!. Qed.

Lemma attempted_task_frame x err spt t : attempted x err spt t -> task_frame spt t.
Proof.
  intros H. apply attempted_frame in H as (Hm & ? & ? & ?). split_and!; by rewrite ?Hm.
Qed.

(** The conditions of a task that only this controller writes. *)
Definition own_conditions (t : SnapshotPodTask) : Prop :=
  NoDup (cond_types (tconds t)) /\
  forall ty, ty ∈ cond_types (tconds t) -> exists x, ty = task_typ x.

Lemma cond_types_equiv (l k : list Condition) : l ≡ k -> cond_types l = cond_types k.
Proof. unfold cond_types. induction 1 as [|c d l k Hc _ IH]; cbn; [done|]. by rewrite Hc, IH. Qed.

Lemma own_answered t t' : answered t t' -> own_conditions t -> own_conditions t'.
Proof.
  intros (_ & _ & _ & Hst & _). unfold own_conditions, tconds.
  by rewrite (cond_types_equiv _ _ Hst).
Qed.

Lemma own_attempted x err spt t : attempted x err spt t -> own_conditions spt -> own_conditions t.
Proof.
  intros [_ (_ & _ & Hty)] [Hnd Hin]. unfold own_conditions.
  destruct Hty as [->|[Hn ->]]; [done|]. split.
  - apply NoDup_app. split_and!; [done| |by apply NoDup_singleton].
    intros ty Hty Hty'. apply list_elem_of_singleton in Hty' as ->. done.
  - intros ty [?|Hty]%elem_of_app; [by apply Hin|].
    apply list_elem_of_singleton in Hty as ->. by exists x.
Qed.

Section Loop.
Context {E : Type} {ir : ImageRef} {kl : KubeLib} {kc : KubeClient E}.
Variable r : SnapshotPodTaskReconciler E.
Implicit Types spt t : SnapshotPodTask.

Lemma loop_frame l spt es spt' out : loop_spec r l spt es spt' out -> task_frame spt spt'.
Proof using Type.
  induction 1 as [| |x l spt es err t e _ _ Ha|x l spt es e t spt' _ _ Ha Hr
    |x l spt es t spt1 es' spt' out _ _ Ha Hr _ IH]; try done.
  - by eapply attempted_task_frame.
  - etrans; [by eapply attempted_task_frame|by apply answered_frame].
  - etrans; [by eapply attempted_task_frame|]. etrans; [by apply answered_frame|done].
Qed.

Lemma loop_own l spt es spt' out :
  loop_spec r l spt es spt' out -> own_conditions spt -> own_conditions spt'.
Proof using Type.
  induction 1 as [| |x l spt es err t e _ _ Ha|x l spt es e t spt' _ _ Ha Hr
    |x l spt es t spt1 es' spt' out _ _ Ha Hr _ IH]; try done; intros Hown.
  - by eapply own_attempted.
  - eapply own_answered; [done|]. by eapply own_attempted.
  - apply IH. eapply own_answered; [done|]. by eapply own_attempted.
Qed.

(** Without an error every step of the list is finished. *)
Lemma loop_keeps l spt es spt' out x :
  loop_spec r l spt es spt' out -> finished x spt = true -> finished x spt' = true.
Proof using Type.
  induction 1 as [| |y l spt es err t e Hf _ Ha|y l spt es e t spt' Hf _ Ha Hr
    |y l spt es t spt1 es' spt' out Hf _ Ha Hr _ IH]; try done; intros Hx.
  - by eapply finished_attempted_keep.
  - rewrite (finished_answered _ _ _ Hr). by eapply finished_attempted_keep.
  - apply IH. rewrite (finished_answered _ _ _ Hr). by eapply finished_attempted_keep.
Qed.

Lemma loop_Continue l spt es spt' :
  loop_spec r l spt es spt' Continue -> forall x, x ∈ l -> finished x spt' = true.
Proof using Type.
  intros H. remember Continue as out eqn:Ho. revert Ho.
  induction H as [|y l spt es spt' out Hf Hl IH| | |y l spt es t spt1 es' spt' out Hf _ Ha Hr Hl IH];
    intros Ho z Hx; try done; try subst out.
  - by apply not_elem_of_nil in Hx.
  - apply elem_of_cons in Hx as [->|Hx]; [by eapply loop_keeps|by apply IH].
  - apply elem_of_cons in Hx as [->|Hx]; [|by apply IH].
    eapply loop_keeps; [done|]. rewrite (finished_answered _ _ _ Hr). by eapply finished_attempted.
Qed.

Lemma loop_Break l spt es spt' e :
  loop_spec r l spt es spt' (Break e) ->
  exists x c, x ∈ l /\ cond_of (task_typ x) (tconds spt') = Some c /\
    c_Status c = ConditionFalse /\ c_Message c = err_text e.
Proof using Type.
  intros H. remember (Break e) as out eqn:Ho. revert Ho.
  induction H as [|y l spt es spt' out Hf Hl IH| |y l spt es e' t spt' Hf _ Ha Hr
    |y l spt es t spt1 es' spt' out Hf _ Ha Hr Hl IH]; intros Ho; try done.
  - destruct (IH Ho) as (x & c & Hx & ?). exists x, c. split; [|done].
    by apply list_elem_of_further.
  - injection Ho as ->. destruct Ha as [_ ((c & Hc & Hs & Hm) & _)].
    destruct Hr as (_ & _ & _ & Hst & _).
    pose proof (cond_of_equiv (task_typ y) _ _ Hst) as Heq. unfold tconds in *. rewrite Hc in Heq.
    destruct (cond_of _ (t_Conditions (t_Status spt'))) as [d|] eqn:Hd; cbn in Heq; [|done].
    exists y, d. split; [apply list_elem_of_here|].
    destruct Heq as (_ & -> & _ & ->). done.
  - destruct (IH Ho) as (x & c & Hx & ?). exists x, c. split; [|done].
    by apply list_elem_of_further.
Qed.

(** ** Which calls the steps make *)

Definition is_commit (e : Event) : bool :=
  match e with EvRuntime (RtCommit _ _ _ _ _ _) _ => true | _ => false end.
Definition is_push (e : Event) : bool :=
  match e with EvRuntime (RtPush _ _) _ => true | _ => false end.

(** The call of a step that changes the outside. *)
Definition is_call (x : task_rec) (e : Event) : bool :=
  match x with RecAccept => false | RecCommit => is_commit e | RecPush => is_push e end.

(** The events a step may show. *)
Definition of_step (x : task_rec) (e : Event) : bool :=
  match x, e with
  | RecCommit, EvRuntime (RtCommit _ _ _ _ _ _) _ => true
  | RecPush, (EvRuntime (RtImageExists _ _) _ | EvRuntime (RtPull _ _ _) _ |
              EvRuntime (RtPush _ _) _ | EvMetric _ _ _) => true
  | _, _ => false
  end.

Lemma step_kind x spt es err e : step_events r x spt es err -> e ∈ es -> of_step x e = true.
Proof using Type.
  destruct x; cbn [step_events].
  - intros [-> _] He. by apply not_elem_of_nil in He.
  - destruct 1 as [| |c err _ Hc]; intros He; try by apply not_elem_of_nil in He.
    apply list_elem_of_singleton in He as ->. apply commit_call_RtCommit in Hc. by destruct c.
  - assert (forall res reg s, e ∈ push_metrics spt res reg s -> of_step RecPush e = true) as Hm.
    { intros res reg s. unfold push_metrics. rewrite !elem_of_cons.
      intros [->|[->|He]]; [done..|]. by apply not_elem_of_nil in He. }
    destruct 1 as [e' s _|s _|e' s _ _|au pull err s _ _ Hp]; rewrite ?elem_of_cons, ?elem_of_app, ?elem_of_cons.
    1-3: try (intros [-> |He]; [done|]); by eapply Hm.
    intros [->|[He|[->|He]]]; [done| |done|by eapply Hm].
    unfold pull_events in Hp. case_bool_decide; [|subst pull; by apply not_elem_of_nil in He].
    destruct Hp as (g & e' & _ & ->). by apply list_elem_of_singleton in He as ->.
Qed.

Lemma step_calls x y spt es err e :
  step_events r x spt es err -> y <> x -> e ∈ es -> is_call y e = false.
Proof using Type.
  intros Hs Hy He. pose proof (step_kind _ _ _ _ _ Hs He) as Hk.
  destruct x, y, e as [| | | |[] ?| | |]; done.
Qed.

Lemma step_no_status x spt es err t u : step_events r x spt es err -> ~ EvTaskStatus t u ∈ es.
Proof using Type.
  intros Hs He. pose proof (step_kind _ _ _ _ _ Hs He) as Hk. by destruct x.
Qed.

Lemma elem_of_status_last e (es : list Event) t u :
  e ∈ es ++ [EvTaskStatus t u] -> e ∈ es \/ e = EvTaskStatus t u.
Proof using Type. intros [?|H]%elem_of_app; [by left|]. right. by apply list_elem_of_singleton in H. Qed.

(** A finished step makes no call. *)
Lemma loop_no_call l spt es spt' out x e :
  loop_spec r l spt es spt' out -> finished x spt = true -> e ∈ es -> is_call x e = false.
Proof using Type.
  induction 1 as [|y l spt es spt' out Hf Hl IH|y l spt es err t u Hf Hs Ha
    |y l spt es e' t spt' Hf Hs Ha Hr|y l spt es t spt1 es' spt' out Hf Hs Ha Hr Hl IH];
    intros Hx He; try by apply not_elem_of_nil in He.
  - by apply IH.
  - apply elem_of_status_last in He as [He| ->]; [|by destruct x].
    eapply step_calls; [exact Hs| |exact He]. intros ->. congruence.
  - apply elem_of_status_last in He as [He| ->]; [|by destruct x].
    eapply step_calls; [exact Hs| |exact He]. intros ->. congruence.
  - apply elem_of_app in He as [He|He].
    { eapply step_calls; [exact Hs| |exact He]. intros ->. congruence. }
    apply elem_of_cons in He as [->|He]; [by destruct x|]. apply IH; [|done].
    rewrite (finished_answered _ _ _ Hr). by eapply finished_attempted_keep.
Qed.

(** Every object the loop writes has the marks of the object it started from. *)
Lemma loop_writes l spt es spt' out x t u :
  loop_spec r l spt es spt' out -> finished x spt = true -> EvTaskStatus t u ∈ es ->
  finished x t = true.
Proof using Type.
  induction 1 as [|y l spt es spt' out Hf Hl IH|y l spt es err t' u' Hf Hs Ha
    |y l spt es e' t' spt' Hf Hs Ha Hr|y l spt es t' spt1 es' spt' out Hf Hs Ha Hr Hl IH];
    intros Hx He; try by apply not_elem_of_nil in He.
  - by apply IH.
  - apply elem_of_status_last in He as [He|[= -> _]]; [by eapply step_no_status in Hs|].
    by eapply finished_attempted_keep.
  - apply elem_of_status_last in He as [He|[= -> _]]; [by eapply step_no_status in Hs|].
    by eapply finished_attempted_keep.
  - apply elem_of_app in He as [He|He]; [by eapply step_no_status in Hs|].
    apply elem_of_cons in He as [[= -> _]|He]; [by eapply finished_attempted_keep|].
    apply IH; [|done]. rewrite (finished_answered _ _ _ Hr). by eapply finished_attempted_keep.
Qed.
End Loop.

(** ** Facts about the end of a pass *)

Definition is_metric (e : Event) : bool := match e with EvMetric _ _ _ => true | _ => false end.

Lemma phase_metric lastError spt es t e :
  phase_spec lastError spt es t -> e ∈ es -> is_metric e = true.
Proof.
  assert (e ∈ retry_metrics spt -> is_metric e = true) as Hr.
  { unfold retry_metrics. rewrite elem_of_cons. intros [->|He]; [done|].
    case_bool_decide; [by apply list_elem_of_singleton in He as ->|by apply not_elem_of_nil in He]. }
  destruct 1; [by intros ?%not_elem_of_nil|done|by intros ?%not_elem_of_nil].
Qed.

Lemma metrics_metric spt st s res s' e :
  e ∈ task_metrics spt st s \/ e ∈ reconcile_metrics res s' -> is_metric e = true.
Proof.
  unfold task_metrics, reconcile_metrics. rewrite !elem_of_cons.
  intros [[->|[->|H]]|[->|[->|H]]]; try done; by apply not_elem_of_nil in H.
Qed.

(** The end of a pass is one write between measurements. *)
Lemma end_inv lastError spt es res :
  end_spec lastError spt es res ->
  exists es1 t u es2, es = es1 ++ EvTaskStatus t u :: es2 /\
    phase_spec lastError spt es1 t /\
    (forall e, e ∈ es1 ++ es2 -> is_metric e = true) /\ snd res = u /\
    (u = None -> fst res = if terminal t then empty_result
                           else {| RequeueAfter := retry_delay spt |}).
Proof.
  destruct 1 as [es t e Hp|es t s1 s2 Hp Ht|es t s Hp Ht];
    (eexists es, t, _, _; split; [reflexivity|]; split; [exact Hp|]; split; [|split; [done|]]).
  - rewrite app_nil_r. intros e'. by eapply phase_metric.
  - done.
  - intros e [He|He]%elem_of_app; [by eapply phase_metric|].
    apply elem_of_app in He. by eapply metrics_metric.
  - by rewrite Ht.
  - intros e [He|He]%elem_of_app; [by eapply phase_metric|].
    eapply (metrics_metric spt "" s). by right.
  - by rewrite Ht.
Qed.

Lemma metric_no_status (es : list Event) t u :
  (forall e, e ∈ es -> is_metric e = true) -> ~ EvTaskStatus t u ∈ es.
Proof. intros H He. by apply H in He. Qed.

(** The conditions of the three steps and no others. *)
Lemma own_all_true t :
  own_conditions t -> (forall x, finished x t = true) -> all_true t = true.
Proof.
  intros [Hnd Hin] Hf. unfold all_true. apply forallb_forall. intros c Hc.
  apply list_elem_of_In in Hc. destruct (Hin (c_Type c)) as [x Hx].
  { unfold cond_types. by apply list_elem_of_In, in_map, list_elem_of_In. }
  specialize (Hf x). unfold finished in Hf. rewrite <- Hx in Hf.
  by rewrite (cond_of_unique _ _ Hnd Hc) in Hf.
Qed.

Lemma not_all_true t x c :
  cond_of (task_typ x) (tconds t) = Some c -> c_Status c = ConditionFalse -> all_true t = false.
Proof.
  intros Hc Hs. unfold all_true. apply not_true_iff_false. rewrite forallb_forall. intros H.
  apply cond_of_elem, list_elem_of_In, H, bool_decide_eq_true in Hc. by rewrite Hs in Hc.
Qed.

(** ** Bounded retries *)

(** How many more passes a task can have. *)
Definition attempts_left (t : SnapshotPodTask) : Z :=
  if terminal t then 0 else Z.max 1 (max_retries t - Z.max 0 (t_RetryCount (t_Status t))).

Definition counters_ok (t : SnapshotPodTask) : Prop :=
  in_int32 (ts_MaxRetries (t_Spec t)) /\ in_int32 (t_RetryCount (t_Status t)) /\
  t_RetryCount (t_Status t) < int32_max.

Lemma reset_retries_count spt :
  t_RetryCount (t_Status (reset_retries spt)) = Z.max 0 (t_RetryCount (t_Status spt)).
Proof. unfold reset_retries. case_bool_decide; cbn; lia. Qed.

Lemma counted_fields n t :
  t_meta (counted n t) = t_meta t /\ t_Spec (counted n t) = t_Spec t /\
  tconds (counted n t) = tconds t /\
  t_RetryCount (t_Status (counted n t)) = int32_succ (t_RetryCount (t_Status t)) /\
  terminal (counted n t) =
    bool_decide (int32_succ (t_RetryCount (t_Status t)) >= max_retries t) || terminal t.
Proof.
  unfold counted.
  change (max_retries (set_t_LastRetryTime _ _)) with (max_retries t). cbn [t_RetryCount t_Status
    set_t_LastRetryTime set_t_RetryCount set_t_Status].
  case_bool_decide as H; (split_and!; done).
Qed.

Lemma max_retries_bound t : in_int32 (ts_MaxRetries (t_Spec t)) -> max_retries t <= int32_max.
Proof. unfold max_retries, in_int32, int32_max. case_bool_decide; lia. Qed.

(** One more failed pass: the task ends or has one pass less. *)
Lemma counted_left n (spt spt' : SnapshotPodTask) :
  counters_ok spt -> terminal spt = false ->
  t_Spec spt' = t_Spec spt -> terminal spt' = false ->
  t_RetryCount (t_Status spt') = Z.max 0 (t_RetryCount (t_Status spt)) ->
  0 <= attempts_left (counted n spt') < attempts_left spt /\
  (terminal (counted n spt') = true <-> attempts_left (counted n spt') = 0) /\
  (terminal (counted n spt') = false -> counters_ok (counted n spt')).
Proof.
  intros (Hm & Hc & Hlt) Hts Hs Hts' Hrc. set (rc := Z.max 0 _) in *.
  assert (max_retries spt' = max_retries spt) as Hmr by (unfold max_retries; by rewrite Hs).
  pose proof (max_retries_bound _ Hm) as Hmb.
  assert (int32_succ rc = rc + 1) as Hsucc.
  { apply int32_succ_lt; subst rc; unfold in_int32, int32_min, int32_max in *; lia. }
  destruct (counted_fields n spt') as (_ & Hs2 & _ & Hrc2 & Ht2).
  rewrite Hrc, Hsucc, Hmr, Hts', orb_false_r in *.
  unfold attempts_left, counters_ok. rewrite Hts, Ht2, Hrc2, Hs2, Hs. fold rc.
  replace (max_retries (counted n spt')) with (max_retries spt)
    by (unfold max_retries; by rewrite Hs2, Hs).
  unfold in_int32, int32_min, int32_max in *. subst rc.
  case_bool_decide; repeat split; intros; try done; first [lia|exfalso; lia].
Qed.

(** ** What came before a push *)

Section Push.
Context {E : Type} {ir : ImageRef} {kl : KubeLib} {kc : KubeClient E}.
Variable r : SnapshotPodTaskReconciler E.
Implicit Types spt t : SnapshotPodTask.

(** The events of a step that succeeded and of the write that recorded it. *)
Definition recorded (x : task_rec) spt (pre : list Event) : Prop :=
  exists a spt0 es t b, pre = a ++ es ++ EvTaskStatus t None :: b /\
    step_events r x spt0 es None /\ attempted x None spt0 t /\ task_frame spt spt0.

Lemma loop_before_push l1 l2 spt es spt' out pre img au u post x :
  loop_spec r (l1 ++ RecPush :: l2) spt es spt' out -> (RecPush ∉ l1) ->
  es = pre ++ EvRuntime (RtPush img au) u :: post -> x ∈ l1 ->
  finished x spt = true \/ recorded x spt pre.
Proof using Type.
  revert spt es pre. induction l1 as [|y l1 IH]; intros spt es pre Hl Hn Hes Hx.
  { by apply not_elem_of_nil in Hx. }
  apply not_elem_of_cons in Hn as [Hy Hn]. cbn [app] in Hl.
  assert (forall es0 err, step_events r y spt es0 err -> EvRuntime (RtPush img au) u ∉ es0) as Hno.
  { intros es0 err Hs Hin. assert (RecPush <> y) as Hy' by done.
    by pose proof (step_calls r y RecPush spt es0 err _ Hs Hy' Hin). }
  inversion Hl as [|? ? ? ? ? ? Hf Hl'|? ? ? es0 err t e Hf Hs Ha|? ? ? es0 e t ? Hf Hs Ha Hr
    |? ? ? es0 t spt1 es' ? ? Hf Hs Ha Hr Hl']; subst; clear Hl.
  - apply elem_of_cons in Hx as [->|Hx]; [by left|by eapply IH].
  - match goal with H : _ ++ _ = pre ++ _ :: post |- _ =>
      apply app_split_r in H as (k & -> & Hk); [|by eapply Hno] end.
    destruct k as [|? [|]]; done.
  - match goal with H : _ ++ _ = pre ++ _ :: post |- _ =>
      apply app_split_r in H as (k & -> & Hk); [|by eapply Hno] end.
    destruct k as [|? [|]]; done.
  - match goal with H : _ ++ _ = pre ++ _ :: post |- _ =>
      apply app_split_r in H as (k & -> & Hk); [|by eapply Hno] end.
    destruct k as [|e k]; [done|]. cbn in Hk. injection Hk as <- Hk.
    apply elem_of_cons in Hx as [->|Hx].
    { right. by exists [], spt, es0, t, k. }
    destruct (IH _ _ _ Hl' Hn Hk Hx) as [Hfx|(a & spt0 & es1 & t1 & b & -> & ? & ? & Hfr)].
    + rewrite (finished_answered _ _ _ Hr) in Hfx.
      destruct (decide (x = y)) as [->|Hne].
      * right. by exists [], spt, es0, t, k.
      * left. by rewrite (finished_attempted_ne _ _ _ _ _ Ha Hne) in Hfx.
    + right. exists (es0 ++ EvTaskStatus t None :: a), spt0, es1, t1, b. split_and!; try done.
      { by rewrite <- app_assoc. }
      etrans; [by eapply attempted_task_frame|]. etrans; [by apply answered_frame|done].
Qed.

Lemma loop_push_image l spt es spt' out img au u :
  loop_spec r l spt es spt' out -> EvRuntime (RtPush img au) u ∈ es ->
  img = ts_CommitImage (t_Spec spt).
Proof using Type.
  assert (forall x spt es err, step_events r x spt es err -> EvRuntime (RtPush img au) u ∈ es ->
    img = ts_CommitImage (t_Spec spt)) as Hstep.
  { clear. intros x spt es err Hs He. pose proof (step_kind r _ _ _ _ _ Hs He) as Hk.
    destruct x; try done. cbn in Hs.
    assert (forall l : list Event, (forall e, e ∈ l -> is_metric e = true) ->
              EvRuntime (RtPush img au) u ∉ l) as Hm by (intros l Hl Hin; by apply Hl in Hin).
    assert (forall res reg s, EvRuntime (RtPush img au) u ∉ push_metrics spt res reg s) as Hpm.
    { intros res reg s. apply Hm. intros e. unfold push_metrics. rewrite !elem_of_cons.
      intros [->|[->|H]]; [done..|by apply not_elem_of_nil in H]. }
    destruct Hs as [e' s _|s _|e' s _ _|au' pull err s _ _ Hp]; [by apply Hpm in He|..];
      (apply elem_of_cons in He as [?|He]; [done|]); [by apply Hpm in He..|].
    apply elem_of_app in He as [He|He].
    { unfold pull_events in Hp. case_bool_decide; [|subst pull; by apply not_elem_of_nil in He].
      destruct Hp as (g & e' & _ & ->). by apply list_elem_of_singleton in He. }
    apply elem_of_cons in He as [[= -> _ _]|He]; [done|by apply Hpm in He]. }
  induction 1 as [|y l spt es spt' out Hf Hl IH|y l spt es err t u' Hf Hs Ha
    |y l spt es e' t spt' Hf Hs Ha Hr|y l spt es t spt1 es' spt' out Hf Hs Ha Hr Hl IH]; intros He.
  - by apply not_elem_of_nil in He.
  - by apply IH.
  - apply elem_of_status_last in He as [He|?]; [by eapply Hstep|done].
  - apply elem_of_status_last in He as [He|?]; [by eapply Hstep|done].
  - apply elem_of_app in He as [He|He]; [by eapply Hstep|].
    apply elem_of_cons in He as [?|He]; [done|]. rewrite (IH He).
    destruct Hr as (_ & _ & -> & _). by apply attempted_frame in Ha as (_ & -> & _).
Qed.
End Push.

(** ** Theorems: one pass *)

Section Reconcile.
Context {E : Type} {lib : Lo} {ir : ImageRef} {kl : KubeLib} {kc : KubeClient E}
        {laws : KubeClientLaws E}.
Implicit Types spt t : SnapshotPodTask.
Variable r : SnapshotPodTaskReconciler E.

(** A pass starts from the object that is fetched. *)
Lemma Reconcile_pass req spt (w : World E) :
  runtimes_ok r -> uuid_ok w -> fst (kc_Get_Task req (w_ext w)) = inl spt ->
  mine r spt = true -> id_ok r (ts_ContainerID (t_Spec spt)) ->
  does (Reconcile r req) (fun res es => pass_spec r spt es res) w.
Proof using laws.
  intros Hrts Hw Hg Hm Hid. eapply does_mono.
  - apply Reconcile_does; [done..|]. rewrite Hg. by intros _.
  - intros res es. rewrite Hg. cbn [reconcile_spec]. by rewrite Hm.
Qed.

(** The object after the loop, and the write that ends the pass. *)
Lemma pass_inv spt es res :
  pass_spec r spt es res ->
  exists es1 spt' out, loop_spec r task_recs (reset_retries spt) es1 spt' out /\
    match out with
    | Return e => es = es1 /\ res = (empty_result, Some e)
    | Break e => exists es2, es = es1 ++ es2 /\ end_spec (Some e) spt' es2 res
    | Continue => exists es2, es = es1 ++ es2 /\ end_spec None spt' es2 res
    end.
Proof using Type.
  destruct 1 as [es spt' e Hl|es spt' e es' res Hl He|es spt' es' res Hl He];
    (eexists _, _, _; split; [exact Hl|]); [done|by exists es'..].
Qed.

Lemma finished_reset x spt : finished x (reset_retries spt) = finished x spt.
Proof using Type. unfold reset_retries. by case_bool_decide. Qed.

Lemma own_reset spt : own_conditions (reset_retries spt) <-> own_conditions spt.
Proof using Type. unfold reset_retries. by case_bool_decide. Qed.

Lemma phase_conds lastError spt es t : phase_spec lastError spt es t -> tconds t = tconds spt.
Proof using Type. destruct 1; try done. by destruct (counted_fields n spt) as (_ & _ & ? & _). Qed.

Lemma finished_phase lastError spt es t x :
  phase_spec lastError spt es t -> finished x t = finished x spt.
Proof using Type. intros H. unfold finished. by rewrite (phase_conds _ _ _ _ H). Qed.

Lemma end_no_push lastError spt es res img au u :
  end_spec lastError spt es res -> EvRuntime (RtPush img au) u ∉ es.
Proof using Type.
  intros H He. apply end_inv in H as (es1 & t & u' & es2 & -> & _ & Hm & _).
  apply elem_of_app in He as [He|He]; [|apply elem_of_cons in He as [?|He]; [done|]];
    by (specialize (Hm (EvRuntime (RtPush img au) u)); rewrite elem_of_app in Hm;
        discriminate Hm; auto).
Qed.

(** [C3] An image is pushed only after its commit has been recorded.  Before a
    push in the trace stands the successful commit of that image, followed at
    once by a status update with the condition Commit that the server accepted;
    or the condition was there when the pass began. *)
Theorem push_after_commit req spt (w : World E) :
  runtimes_ok r -> uuid_ok w -> fst (kc_Get_Task req (w_ext w)) = inl spt ->
  id_ok r (ts_ContainerID (t_Spec spt)) ->
  wp (Reconcile r req) (fun _ w' =>
    exists es, w_trace w' = w_trace w ++ es /\ pushes_after_commit spt (visible es)) w.
Proof using laws.
  intros Hrts Hw Hg Hid. destruct (mine r spt) eqn:Hm.
  2: { destruct (Reconcile_ignores r req spt w Hg Hm) as (w' & Hrun & Ht & _).
       unfold wp, post. rewrite Hrun. exists []. rewrite app_nil_r. split; [done|].
       intros [|? ?] img au u post; done. }
  eapply wp_mono; [by apply Reconcile_pass|]. intros res w' (_ & es & Ht & Hp).
  exists es. split; [done|]. intros pre img au u post Hes.
  apply pass_inv in Hp as (es1 & spt' & out & Hl & Hout).
  assert (exists k, es1 = pre ++ EvRuntime (RtPush img au) u :: k) as (k & Hk).
  { destruct out; [destruct Hout as (es2 & Heq & He)|destruct Hout as (es2 & Heq & He)|].
    1, 2: rewrite Heq in Hes; apply app_split_l in Hes as (k & ? & _); [by exists k|];
      by eapply end_no_push.
    destruct Hout as [<- _]. by exists post. }
  assert (img = ts_CommitImage (t_Spec spt)) as ->.
  { rewrite <- (reset_retries_spec spt). eapply loop_push_image; [exact Hl|].
    rewrite Hk. apply elem_of_app. right. apply list_elem_of_here. }
  split; [done|].
  assert (finished RecCommit (reset_retries spt) = true \/
          recorded r RecCommit (reset_retries spt) pre)
    as [Hf|(a & spt0 & es0 & t & b & -> & Hs & Ha & Hfr)].
  { eapply (loop_before_push r [RecAccept; RecCommit] []); [exact Hl| |exact Hk|].
    - by intros [?|[?|?%not_elem_of_nil]%elem_of_cons]%elem_of_cons.
    - apply list_elem_of_further, list_elem_of_here. }
  - left. by rewrite finished_reset in Hf.
  - right. cbn [step_events] in Hs. destruct Hfr as (_ & _ & Hsp & _).
    rewrite reset_retries_spec in Hsp. inversion Hs as [| |c err Hc]; subst.
    exists a, c, t, b. rewrite <- (commit_call_spec _ _ Hsp). split_and!; [done..|].
    by eapply finished_attempted.
Qed.

Lemma end_writes lastError spt es res t u :
  end_spec lastError spt es res -> EvTaskStatus t u ∈ es ->
  exists es', phase_spec lastError spt es' t.
Proof using Type.
  intros H He. apply end_inv in H as (es1 & t' & u' & es2 & -> & Hp & Hm & _).
  exists es1. apply elem_of_app in He as [He|He]; [|apply elem_of_cons in He as [[= -> _]|He]].
  - specialize (Hm (EvTaskStatus t u)). rewrite elem_of_app in Hm. discriminate Hm; auto.
  - done.
  - specialize (Hm (EvTaskStatus t u)). rewrite elem_of_app in Hm. discriminate Hm; auto.
Qed.

Lemma end_no_call lastError spt es res x e :
  end_spec lastError spt es res -> e ∈ es -> is_call x e = false.
Proof using Type.
  intros H He. apply end_inv in H as (es1 & t' & u' & es2 & -> & _ & Hm & _).
  assert (is_metric e = true \/ e = EvTaskStatus t' u') as [Hk|Hk].
  { apply elem_of_app in He as [He|He]; [|apply elem_of_cons in He as [->|He]];
      [left; apply Hm, elem_of_app; auto|by right|left; apply Hm, elem_of_app; auto]. }
  - by destruct x, e.
  - subst e. by destruct x.
Qed.

(** [C17] Finished work is neither repeated nor forgotten: when the condition of a
    step is True, a pass makes no call of that step, and every object it writes
    has the condition still True. *)
Theorem finished_once req spt x (w : World E) :
  runtimes_ok r -> uuid_ok w -> fst (kc_Get_Task req (w_ext w)) = inl spt ->
  mine r spt = true -> id_ok r (ts_ContainerID (t_Spec spt)) -> finished x spt = true ->
  wp (Reconcile r req) (fun _ w' =>
    exists es, w_trace w' = w_trace w ++ es /\
    (forall e, e ∈ visible es -> is_call x e = false) /\
    (forall t u, EvTaskStatus t u ∈ visible es -> finished x t = true)) w.
Proof using laws.
  intros Hrts Hw Hg Hm Hid Hx. eapply wp_mono; [by apply Reconcile_pass|].
  intros res w' (_ & es & Ht & Hp). exists es. split; [done|].
  apply pass_inv in Hp as (es1 & spt' & out & Hl & Hout).
  rewrite <- finished_reset in Hx. pose proof (loop_keeps _ _ _ _ _ _ _ Hl Hx) as Hx'.
  assert (forall le es2, visible es = es1 ++ es2 /\ end_spec le spt' es2 res ->
    (forall e, e ∈ visible es -> is_call x e = false) /\
    (forall t u, EvTaskStatus t u ∈ visible es -> finished x t = true)) as Hend.
  { intros le es2 [-> He]. split.
    - intros e [Hin|Hin]%elem_of_app; [by eapply loop_no_call|by eapply end_no_call].
    - intros t u [Hin|Hin]%elem_of_app; [by eapply loop_writes|].
      eapply end_writes in Hin as [es' Hph]; [|done].
      by rewrite (finished_phase _ _ _ _ _ Hph). }
  destruct out; [by destruct Hout as (es2 & ?); eapply Hend..|].
  destruct Hout as [-> _]. split; intros; [by eapply loop_no_call|by eapply loop_writes].
Qed.

(** The phases of the writes of the loop are those of the object. *)
Lemma loop_write_phase l spt0 es spt' out t u :
  loop_spec r l spt0 es spt' out -> EvTaskStatus t u ∈ es -> task_frame spt0 t.
Proof using Type.
  induction 1 as [|y l spt es spt' out Hf Hl IH|y l spt es err t' u' Hf Hs Ha
    |y l spt es e' t' spt' Hf Hs Ha Hr|y l spt es t' spt1 es' spt' out Hf Hs Ha Hr Hl IH];
    intros He; try by apply not_elem_of_nil in He.
  - by apply IH.
  - apply elem_of_status_last in He as [He|[= -> _]]; [by eapply step_no_status in Hs|].
    by eapply attempted_task_frame.
  - apply elem_of_status_last in He as [He|[= -> _]]; [by eapply step_no_status in Hs|].
    by eapply attempted_task_frame.
  - apply elem_of_app in He as [He|He]; [by eapply step_no_status in Hs|].
    apply elem_of_cons in He as [[= -> _]|He]; [by eapply attempted_task_frame|].
    etrans; [by eapply attempted_task_frame|]. etrans; [by apply answered_frame|by apply IH].
Qed.

Lemma task_frame_terminal t t' : task_frame t t' -> terminal t' = terminal t.
Proof using Type. intros (_ & _ & _ & Hp & _). unfold terminal. by rewrite Hp. Qed.

Lemma terminal_reset spt : terminal (reset_retries spt) = terminal spt.
Proof using Type. unfold reset_retries. by case_bool_decide. Qed.

(** After the loop every step is finished exactly when no step failed. *)
Lemma loop_all_finished spt0 es spt' out :
  loop_spec r task_recs spt0 es spt' out ->
  match out with
  | Continue => forall x, finished x spt' = true
  | Break e => all_true spt' = false
  | Return _ => True
  end.
Proof using Type.
  intros Hl. destruct out as [|e|]; [| |done].
  - intros x. eapply loop_Continue; [done|]. destruct x; unfold task_recs;
      rewrite !elem_of_cons; tauto.
  - apply loop_Break in Hl as (x & c & _ & Hc & Hs & _). by eapply not_all_true.
Qed.

(** Every write of a pass has an honest phase. *)
Lemma pass_honest spt es res t u :
  pass_spec r spt es res -> terminal spt = false -> EvTaskStatus t u ∈ es -> honest_phase t.
Proof using Type.
  intros Hp Hnt Hin. unfold honest_phase.
  apply pass_inv in Hp as (es1 & spt' & out & Hl & Hout).
  rewrite <- terminal_reset in Hnt.
  pose proof (loop_all_finished _ _ _ _ Hl) as Hall.
  pose proof (task_frame_terminal _ _ (loop_frame _ _ _ _ _ _ Hl)) as Hnt'.
  assert (forall t, terminal t = false ->
    t_Phase (t_Status t) <> SnapshotPodTaskPhaseCompleted /\
    t_Phase (t_Status t) <> SnapshotPodTaskPhaseFailed) as Hopen.
  { intros s. unfold terminal. by rewrite orb_false_iff, !bool_decide_eq_false. }
  assert (EvTaskStatus t u ∈ es1 \/ exists le es2, end_spec le spt' es2 res /\
            EvTaskStatus t u ∈ es2 /\ (le = None -> out = Continue) /\
            (all_true spt' = true -> out = Continue)) as [Hin'|(le & es2 & He & Hin' & _ & Hc)].
  { destruct out; [destruct Hout as (es2 & Heq & He)|destruct Hout as (es2 & Heq & He)|].
    1, 2: rewrite Heq in Hin; apply elem_of_app in Hin as [?|?]; [by left|right].
    - by exists None, es2.
    - exists (Some lastError), es2. split_and!; try done. intros Htrue. by rewrite Htrue in Hall.
    - destruct Hout as [<- _]. by left. }
  { pose proof (task_frame_terminal _ _ (loop_write_phase _ _ _ _ _ _ _ Hl Hin')) as Hop.
    rewrite Hnt in Hop. destruct (Hopen _ Hop) as [Hc Hf].
    split; [by intros ?%Hc|by intros ?%Hf]. }
  eapply end_writes in He as [es' Hph]; [|exact Hin'].
  rewrite Hnt in Hnt'. destruct Hph as [Ha|n Ha|Ha _].
  - split; [|done]. intros _ x. specialize (Hc Ha). subst out. exact (Hall x).
  - destruct (counted_fields n spt') as (_ & Hs & _ & Hrc & Htc).
    assert (max_retries (counted n spt') = max_retries spt') as ->
      by (unfold max_retries; by rewrite Hs).
    rewrite Hrc. clear Hrc Htc Hs. unfold counted.
    change (max_retries (set_t_LastRetryTime _ _)) with (max_retries spt').
    change (t_RetryCount (t_Status (set_t_LastRetryTime _ _)))
      with (int32_succ (t_RetryCount (t_Status spt'))).
    case_bool_decide as Hge; [split; [done|intros _; lia]|].
    destruct (Hopen _ Hnt') as [Hcc Hff]. split; [by intros ?%Hcc|by intros ?%Hff].
  - done.
Qed.

Lemma mine_open spt : mine r spt = true -> terminal spt = false.
Proof using Type. unfold mine. intros [_ Hm]%andb_true_iff. by apply negb_true_iff. Qed.

(** [C13] The phase is honest.  No write of a pass says COMPLETED unless accept,
    commit and push all have their condition True in the same object, and none
    says FAILED unless the retries are used up. *)
Theorem phase_honest req spt (w : World E) :
  runtimes_ok r -> uuid_ok w -> fst (kc_Get_Task req (w_ext w)) = inl spt ->
  mine r spt = true -> id_ok r (ts_ContainerID (t_Spec spt)) ->
  wp (Reconcile r req) (fun _ w' =>
    exists es, w_trace w' = w_trace w ++ es /\
    forall t u, EvTaskStatus t u ∈ visible es -> honest_phase t) w.
Proof using laws.
  intros Hrts Hw Hg Hm Hid. eapply wp_mono; [by apply Reconcile_pass|].
  intros res w' (_ & es & Ht & Hp). exists es. split; [done|]. intros t u Hin.
  eapply pass_honest; [done|by apply mine_open|done].
Qed.
End Reconcile.

(** ** Theorems: a task reaches an end *)

(** The status updates of a trace, in order. *)
Definition status_write (e : Event) : option (SnapshotPodTask * option GoError) :=
  match e with EvTaskStatus t u => Some (t, u) | _ => None end.
Definition writes (es : list Event) : list (SnapshotPodTask * option GoError) :=
  omap status_write es.

Lemma writes_metrics es : (forall e, e ∈ es -> is_metric e = true) -> writes es = [].
Proof.
  induction es as [|e es IH]; intros H; [done|].
  pose proof (H e (list_elem_of_here _ _)) as He. unfold writes. cbn. destruct e; try done.
  apply IH. intros e' He'. by apply H, list_elem_of_further.
Qed.

Lemma writes_last es es1 t u es2 :
  (forall e, e ∈ es1 ++ es2 -> is_metric e = true) ->
  last (writes (es ++ es1 ++ EvTaskStatus t u :: es2)) = Some (t, u).
Proof.
  intros H. unfold writes. rewrite app_assoc, omap_app. cbn.
  change (omap status_write es2) with (writes es2). rewrite (writes_metrics es2).
  - by rewrite last_snoc.
  - intros e He. apply H, elem_of_app. by right.
Qed.

Lemma retry_delay_pos t : 0 < retry_delay t.
Proof. unfold retry_delay, Second. case_bool_decide; lia. Qed.

Lemma open_left t : terminal t = false -> 1 <= attempts_left t.
Proof. intros H. unfold attempts_left. rewrite H. lia. Qed.

Section Termination.
Context {E : Type} {lib : Lo} {ir : ImageRef} {kl : KubeLib} {kc : KubeClient E}
        {laws : KubeClientLaws E}.
Implicit Types spt t : SnapshotPodTask.
Variable r : SnapshotPodTaskReconciler E.

Definition progress spt (res : CtrlResult) t : Prop :=
  own_conditions t /\ t_Spec t = t_Spec spt /\
  0 <= attempts_left t < attempts_left spt /\
  (terminal t = true <-> attempts_left t = 0) /\
  (terminal t = false -> counters_ok t) /\
  (terminal t = true <-> RequeueAfter res = 0) /\
  (t_Phase (t_Status t) = SnapshotPodTaskPhaseCompleted <-> forall x, finished x t = true).

Lemma phase_progress lastError spt spt' es t res :
  phase_spec lastError spt' es t ->
  counters_ok spt -> terminal spt = false ->
  own_conditions spt' -> t_Spec spt' = t_Spec spt -> terminal spt' = false ->
  t_RetryCount (t_Status spt') = Z.max 0 (t_RetryCount (t_Status spt)) ->
  match lastError with
  | None => forall x, finished x spt' = true
  | Some _ => all_true spt' = false
  end ->
  fst res = (if terminal t then empty_result else {| RequeueAfter := retry_delay spt' |}) ->
  progress spt (fst (A := CtrlResult) (B := option GoError) res) t.
Proof using Type.
  intros Hph Hc Hts Hown Hs Hts' Hrc Hout ->.
  assert (terminal t = true <->
    RequeueAfter (if terminal t then empty_result
                  else {| RequeueAfter := retry_delay spt' |}) = 0) as Hq.
  { pose proof (retry_delay_pos spt'). destruct (terminal t); cbn; [done|].
    split; [done|lia]. }
  pose proof (open_left _ Hts) as Hleft.
  destruct Hph as [Ha|n Ha|Ha ->].
  - destruct lastError; [congruence|]. unfold progress, attempts_left at 1 2 4.
    change (terminal (set_t_Phase _ spt')) with true in *.
    split_and!; try done; lia.
  - destruct (counted_fields n spt') as (_ & Hs2 & Hcd & _ & _).
    destruct (counted_left n spt spt' Hc Hts Hs Hts' Hrc) as (Hlt & Hz & Hc').
    unfold progress. split_and!; try done; try lia.
    + unfold own_conditions. by rewrite Hcd.
    + congruence.
    + assert (forall x, finished x (counted n spt') = finished x spt') as Hf.
      { intros x. unfold finished. by rewrite Hcd. }
      assert (~ forall x, finished x spt' = true) as Hno.
      { intros Hx. apply (own_all_true _ Hown) in Hx. congruence. }
      split; intros H; exfalso.
      * unfold terminal in Hts'. apply orb_false_iff in Hts' as [Hts'%bool_decide_eq_false _].
        unfold counted in H. destruct (bool_decide _) in H; done.
      * apply Hno. intros x. by rewrite <- Hf.
  - apply (own_all_true _ Hown) in Hout. congruence.
Qed.

Lemma pass_progress spt es res :
  pass_spec r spt es res -> mine r spt = true -> own_conditions spt -> counters_ok spt ->
  snd res = None ->
  exists t, last (writes es) = Some (t, None) /\ progress spt (fst res) t.
Proof using Type.
  intros Hp Hm Hown Hc Hres. apply pass_inv in Hp as (es1 & spt' & out & Hl & Hout).
  assert (terminal spt = false) as Hts.
  { unfold mine in Hm. apply andb_true_iff in Hm as [_ Hm]. by apply negb_true_iff. }
  pose proof (loop_all_finished _ _ _ _ _ Hl) as Hall.
  pose proof (loop_frame _ _ _ _ _ _ Hl) as Hfr.
  pose proof (task_frame_terminal _ _ Hfr) as Hts'. rewrite terminal_reset, Hts in Hts'.
  destruct Hfr as (_ & _ & Hs & _ & Hrc).
  rewrite reset_retries_spec in Hs. rewrite reset_retries_count in Hrc.
  rewrite <- own_reset in Hown. apply (loop_own _ _ _ _ _ _ Hl) in Hown.
  assert (forall le es2, es = es1 ++ es2 -> end_spec le spt' es2 res ->
    match le with None => forall x, finished x spt' = true | Some _ => all_true spt' = false end ->
    exists t, last (writes es) = Some (t, None) /\ progress spt (fst res) t) as Hend.
  { intros le es2 -> He Hle. apply end_inv in He as (es3 & t & u & es4 & -> & Hph & Hm' & Hu & Hq).
    rewrite Hres in Hu. subst u. exists t. split; [by apply writes_last|].
    eapply phase_progress; try done. by apply Hq. }
  destruct out as [|e|e].
  - destruct Hout as (es2 & ? & ?). by eapply (Hend None).
  - destruct Hout as (es2 & ? & ?). by eapply (Hend (Some e)).
  - by destruct Hout as [_ ->].
Qed.

(** Every pass without an API error gets somewhere.  Its last write, which
    the server accepted, uses up at least one of the attempts that are left; it
    says COMPLETED exactly when every step is finished, and the pass asks to be
    called again exactly when the task has not reached its end. *)
Theorem pass_makes_progress req spt (w : World E) :
  runtimes_ok r -> uuid_ok w -> fst (kc_Get_Task req (w_ext w)) = inl spt ->
  mine r spt = true -> id_ok r (ts_ContainerID (t_Spec spt)) ->
  own_conditions spt -> counters_ok spt ->
  wp (Reconcile r req) (fun '(res, err) w' => err = None ->
    exists es t, w_trace w' = w_trace w ++ es /\ last (writes (visible es)) = Some (t, None) /\
      0 <= attempts_left t < attempts_left spt /\
      (terminal t = true <-> attempts_left t = 0) /\
      (terminal t = true <-> RequeueAfter res = 0) /\
      (t_Phase (t_Status t) = SnapshotPodTaskPhaseCompleted <-> forall x, finished x t = true)) w.
Proof using laws.
  intros Hrts Hw Hg Hm Hid Hown Hc. eapply wp_mono; [by apply Reconcile_pass|].
  intros [res err] w' (_ & es & Ht & Hp) Herr.
  destruct (pass_progress _ _ _ Hp Hm Hown Hc Herr) as (t & Hl & _ & _ & H1 & H2 & _ & H3 & H4).
  exists es, t. exact (conj Ht (conj Hl (conj H1 (conj H2 (conj H3 H4))))).
Qed.

(** ** A pass without trouble *)

(** Nothing went wrong in the event: the image is there, commits, pushes and
    writes succeed.  Whether the pull of the original image succeeds is not asked. *)
Definition trouble_free (e : Event) : bool :=
  match e with
  | EvTaskStatus _ (Some _) | EvRuntime (RtCommit _ _ _ _ _ _) (Some _)
  | EvRuntime (RtPush _ _) (Some _) | EvRuntime (RtImageExists _ false) _ => false
  | EvMetric ImageMetrics_PushTotal (res :: _) _ => negb (bool_decide (res = ImagePushResultFailed))
  | _ => true
  end.

Definition feasible spt : Prop :=
  is_Some (resolve r (ts_ContainerID (t_Spec spt))) /\ exists d, commit_timeout spt = inl d.

Lemma feasible_spec spt spt' : t_Spec spt' = t_Spec spt -> feasible spt -> feasible spt'.
Proof using Type. unfold feasible, commit_timeout. by intros ->. Qed.

Lemma step_trouble_free x spt es err :
  step_events r x spt es err -> feasible spt -> (forall e, e ∈ es -> trouble_free e = true) ->
  err = None.
Proof using Type.
  intros Hs [[rc Hr] [d Hd]] Hes.
  assert (forall e, In e es -> trouble_free e = true) as Hin by (intros e ?%list_elem_of_In; auto).
  clear Hes. destruct x; cbn [step_events] in Hs; [by destruct Hs| |].
  - destruct Hs as [e He|e He|c err _ Hc]; [congruence..|].
    specialize (Hin _ (or_introl eq_refl)). apply commit_call_RtCommit in Hc.
    by destruct c, err.
  - destruct Hs as [e s He|s _|e s _ _|auth pull err s _ _ _]; [congruence| | |].
    + by specialize (Hin _ (or_introl eq_refl)).
    + specialize (Hin _ (or_intror (or_introl eq_refl))). done.
    + destruct err as [e|]; [|done].
      specialize (Hin (EvRuntime (RtPush (ts_CommitImage (t_Spec spt)) auth) (Some e))).
      discriminate Hin. right. apply in_app_iff. right. by left.
Qed.

Lemma loop_trouble_free l spt es spt' out :
  loop_spec r l spt es spt' out -> feasible spt -> (forall e, e ∈ es -> trouble_free e = true) ->
  out = Continue.
Proof using Type.
  induction 1 as [|y l spt es spt' out Hf Hl IH|y l spt es err t e Hf Hs Ha
    |y l spt es e t spt' Hf Hs Ha Hr|y l spt es t spt1 es' spt' out Hf Hs Ha Hr Hl IH];
    intros Hok Hes; [done|by apply IH|..].
  - specialize (Hes (EvTaskStatus t (Some e))). rewrite elem_of_app in Hes.
    discriminate Hes. right. apply list_elem_of_here.
  - eapply step_trouble_free in Hs; [done..|]. intros e' He'. apply Hes, elem_of_app. by left.
  - apply IH.
    + eapply feasible_spec; [|exact Hok]. destruct Hr as (_ & _ & -> & _).
      by apply attempted_frame in Ha as (_ & -> & _).
    + intros e' He'. apply Hes. rewrite !elem_of_app. auto.
Qed.

(** [C24] A pass in which nothing goes wrong does the whole task: when the runtime of
    the container is known and the timeout can be read, and every commit, push,
    image check and status update of the pass succeeds, then the last write
    says COMPLETED, and the pass returns without an error or a requeue. *)
Theorem clean_pass_completes req spt (w : World E) :
  runtimes_ok r -> uuid_ok w -> fst (kc_Get_Task req (w_ext w)) = inl spt ->
  mine r spt = true -> id_ok r (ts_ContainerID (t_Spec spt)) ->
  own_conditions spt -> feasible spt ->
  wp (Reconcile r req) (fun '(res, err) w' =>
    exists es, w_trace w' = w_trace w ++ es /\
      ((forall e, e ∈ visible es -> trouble_free e = true) ->
       res = empty_result /\ err = None /\
       exists t, last (writes (visible es)) = Some (t, None) /\
         t_Phase (t_Status t) = SnapshotPodTaskPhaseCompleted)) w.
Proof using laws.
  intros Hrts Hw Hg Hm Hid Hown Hok. eapply wp_mono; [by apply Reconcile_pass|].
  intros [res err] w' (_ & es & Ht & Hp). exists es. split; [done|]. intros Hes.
  apply pass_inv in Hp as (es1 & spt' & out & Hl & Hout).
  assert (out = Continue) as ->.
  { eapply loop_trouble_free; [exact Hl|by eapply feasible_spec, Hok; apply reset_retries_spec|].
    intros e He. apply Hes. destruct out; [destruct Hout as (? & -> & _)..|by destruct Hout as [-> _]];
      apply elem_of_app; by left. }
  destruct Hout as (es2 & Heq & He). rewrite Heq in *.
  pose proof (loop_all_finished _ _ _ _ _ Hl) as Hall. cbn in Hall.
  apply own_reset, (loop_own _ _ _ _ _ _ Hl) in Hown. apply (own_all_true _ Hown) in Hall.
  apply end_inv in He as (es3 & t & u & es4 & -> & Hph & Hm' & Hu & Hq).
  inversion Hph as [_ Hes3 Ht'|n Hn|Hn]; subst; [|congruence..].
  destruct err as [e|].
  - specialize (Hes (EvTaskStatus (set_t_Phase SnapshotPodTaskPhaseCompleted spt') (Some e))).
    discriminate Hes. apply elem_of_app. right. apply elem_of_app. right.
    apply list_elem_of_here.
  - cbn in *. specialize (Hq eq_refl). cbn in Hq. split_and!; [by rewrite Hq|done|].
    eexists. split; [by apply (writes_last es1 [])|done].
Qed.

(** A pass without an API error from the object [t] that leaves [t'] in the
    server. *)
Definition next_pass t t' : Prop :=
  mine r t = true /\ id_ok r (ts_ContainerID (t_Spec t)) /\
  exists req (w w' : World E) res es s,
    uuid_ok w /\ fst (kc_Get_Task req (w_ext w)) = inl t /\
    Reconcile r req w = (Ret (res, None), w') /\ w_trace w' = w_trace w ++ es /\
    last (writes (visible es)) = Some (s, None) /\ answered s t'.

Lemma attempts_left_answered t t' : answered t t' -> attempts_left t' = attempts_left t.
Proof using Type.
  intros H. pose proof (terminal_answered _ _ H) as [Ht _].
  destruct H as (_ & _ & Hs & _ & _ & Hrc). unfold attempts_left, max_retries.
  by rewrite Ht, Hs, Hrc.
Qed.

Lemma next_pass_left t t' :
  runtimes_ok r -> next_pass t t' -> own_conditions t -> counters_ok t ->
  0 <= attempts_left t' < attempts_left t /\ own_conditions t' /\
  (terminal t' = false -> counters_ok t').
Proof using laws.
  intros Hrts (Hm & Hid & req & w & w' & res & es & s & Hw & Hg & Hrun & Ht & Hl & Ha) Hown Hc.
  pose proof (Reconcile_pass _ _ _ _ Hrts Hw Hg Hm Hid) as Hp.
  unfold does, wp, post in Hp. rewrite Hrun in Hp. destruct Hp as (_ & es' & Ht' & Hp).
  cbn [snd] in Ht'. rewrite Ht in Ht'. apply app_inv_head in Ht' as <-.
  destruct (pass_progress _ _ _ Hp Hm Hown Hc eq_refl) as (t1 & Hl' & Hown' & _ & H1 & _ & H3 & _).
  cbn [fst] in Hp. rewrite Hl in Hl'. injection Hl' as <-.
  rewrite (attempts_left_answered _ _ Ha). split; [done|]. split; [by eapply own_answered|].
  destruct (terminal_answered _ _ Ha) as [-> _].
  destruct Ha as (_ & _ & Hs & _ & _ & Hrc). unfold counters_ok. by rewrite Hs, Hrc.
Qed.

(** [C7] A task reaches an end: from any object of this controller with its
    counters in range, at most [attempts_left] passes without an API error can
    follow one another; then the task is terminal. *)
Theorem passes_bounded n t t' :
  runtimes_ok r -> own_conditions t -> counters_ok t ->
  nsteps next_pass n t t' -> Z.of_nat n <= attempts_left t.
Proof using laws.
  intros Hrts Hown Hc H. revert Hown Hc.
  induction H as [t|n t t1 t2 Hs Hn IH]; intros Hown Hc.
  { unfold attempts_left. destruct (terminal t); lia. }
  destruct (next_pass_left _ _ Hrts Hs Hown Hc) as (Hlt & Hown1 & Hc1).
  destruct (terminal t1) eqn:Ht1.
  - inversion Hn as [|m ? t3 ? Hs']; subst; [lia|]. exfalso.
    destruct Hs' as [Hm _]. unfold mine in Hm. by rewrite Ht1, andb_false_r in Hm.
  - specialize (IH Hown1 (Hc1 eq_refl)). lia.
Qed.
End Termination.

(** ** Concrete runs *)

Module TaskWitnesses.
Import Fixtures.Std StdSys.

Definition r0 : SnapshotPodTaskReconciler Store :=
  {| NodeName := "node-1";
     runtimeMap := <[dockerRuntime := NewDockerCompatibleRuntime "docker" ["--debug"]]>
                     {[ containerdRuntime := containerd_Runtime (nerdctl true) ]} |}.

Definition task_key : key := ("ns", "snap-1-main").
Definition task_with (conds : list Condition) (phase : string) (retries : Z) : SnapshotPodTask :=
  mkTask (mkMeta "snap-1-main" "ns" "uid-2" "rv0"
            (Some {[ SnapshotNameLabel := "snap" ]}) [] fx_now None)
         (t_Spec (new_task fx_sp fx_pod "main" fx_main "reg.io/test/jupyter:v1"))
         (mkTaskStatus conds phase retries None).
Definition task0 : SnapshotPodTask := task_with [] "" 0.

Definition secrets : gmap key Secret :=
  {[ ("ns", "registry-secret") := {| sec_Data := {[ ".dockerconfigjson" := "{}" ]} |} ]}.

(** A world whose server keeps the task, with the fates of the next requests. *)
Definition world_of (t : SnapshotPodTask) (faults : list (option GoError)) : World Store :=
  mkWorld (mkStore ∅ {[ task_key := t ]} [] secrets 1 faults) ∅
          (fun n => fx_now + Z.of_nat n * Second) O (fun _ => std_uuid 0) O (fun _ => O) O [].

Lemma world_uuid t f : uuid_ok (world_of t f).
Proof. intros n. apply fx_uuid_0. Defined.

Lemma r0_runtimes : runtimes_ok r0.
Proof.
  intros k rt. unfold r0. cbn. intros [[_ <-]|[_ [_ <-]%lookup_singleton_Some]]%lookup_insert_Some.
  - apply docker_ok.
  - apply containerd_ok.
Defined.

Lemma r0_id : id_ok r0 (ts_ContainerID (t_Spec task0)).
Proof. right. reflexivity. Defined.

Definition w1 : World Store := world_of task0 [].

(** The task goes through in one pass: three steps and the final write. *)
Example one_pass :
  fst (Reconcile r0 task_key w1) = Ret (empty_result, None) /\
  map (fun '(t, u) => (map c_Type (tconds t), t_Phase (t_Status t), u))
      (writes (visible (w_trace (snd (Reconcile r0 task_key w1))))) =
  [(["Accept"], "", None); (["Accept"; "Commit"], "", None);
   (["Accept"; "Commit"; "Push"], "", None);
   (["Accept"; "Commit"; "Push"], SnapshotPodTaskPhaseCompleted, None)].
Proof. vm_compute. split; reflexivity. Qed.

Lemma Reconcile_refines_witness :
  wp (Reconcile r0 task_key) (fun res w' =>
    exists es, w_trace w' = w_trace w1 ++ es /\
      reconcile_spec r0 (fst (kc_Get_Task task_key (w_ext w1))) (visible es) res) w1 /\
  fst (kc_Get_Task task_key (w_ext w1)) = inl task0.
Proof.
  split; [|reflexivity]. apply (Reconcile_refines r0 task_key w1); [apply r0_runtimes|apply world_uuid|].
  change (fetch_ok r0 (inl task0)). intros _. apply r0_id.
Defined.

Definition done_task : SnapshotPodTask := task_with [] SnapshotPodTaskPhaseCompleted 0.

Lemma Reconcile_absorbing_witness :
  mine r0 done_task = false /\
  exists w', Reconcile r0 task_key (world_of done_task []) = (Ret (empty_result, None), w') /\
    w_trace w' = [] /\ w_env w' = ∅ /\
    w_ext w' = snd (kc_Get_Task task_key (w_ext (world_of done_task []))).
Proof.
  split; [reflexivity|].
  apply (Reconcile_absorbing r0 task_key done_task (world_of done_task [])); reflexivity.
Defined.

Lemma push_after_commit_witness :
  wp (Reconcile r0 task_key) (fun _ w' =>
    exists es, w_trace w' = w_trace w1 ++ es /\ pushes_after_commit task0 (visible es)) w1 /\
  existsb is_push (w_trace (snd (Reconcile r0 task_key w1))) = true.
Proof.
  split; [|vm_compute; reflexivity].
  apply (push_after_commit r0 task_key task0 w1);
    [apply r0_runtimes|apply world_uuid|reflexivity|apply r0_id].
Defined.

Definition cond_true (ty : string) : Condition := mkCondition ty ConditionTrue fx_now "" "".
Definition committed_task : SnapshotPodTask :=
  task_with [cond_true "Accept"; cond_true "Commit"] "" 1.
Definition w2 : World Store := world_of committed_task [].

Lemma finished_once_witness :
  wp (Reconcile r0 task_key) (fun _ w' =>
    exists es, w_trace w' = w_trace w2 ++ es /\
    (forall e, e ∈ visible es -> is_call RecCommit e = false) /\
    (forall t u, EvTaskStatus t u ∈ visible es -> finished RecCommit t = true)) w2.
Proof.
  apply (finished_once r0 task_key committed_task RecCommit w2);
    [apply r0_runtimes|apply world_uuid|reflexivity|reflexivity|apply r0_id|reflexivity].
Defined.

Lemma phase_honest_witness :
  wp (Reconcile r0 task_key) (fun _ w' =>
    exists es, w_trace w' = w_trace w1 ++ es /\
    forall t u, EvTaskStatus t u ∈ visible es -> honest_phase t) w1.
Proof.
  apply (phase_honest r0 task_key task0 w1);
    [apply r0_runtimes|apply world_uuid|reflexivity|reflexivity|apply r0_id].
Defined.

Lemma own0 : own_conditions task0.
Proof. split; [constructor|]. by intros ty ?%not_elem_of_nil. Defined.

Lemma counters0 : counters_ok task0.
Proof. unfold counters_ok, in_int32, int32_min, int32_max. cbn. lia. Defined.

Lemma pass_makes_progress_witness :
  wp (Reconcile r0 task_key) (fun '(res, err) w' => err = None ->
    exists es t, w_trace w' = w_trace w1 ++ es /\ last (writes (visible es)) = Some (t, None) /\
      0 <= attempts_left t < attempts_left task0 /\
      (terminal t = true <-> attempts_left t = 0) /\
      (terminal t = true <-> RequeueAfter res = 0) /\
      (t_Phase (t_Status t) = SnapshotPodTaskPhaseCompleted <-> forall x, finished x t = true)) w1.
Proof.
  apply (pass_makes_progress r0 task_key task0 w1);
    [apply r0_runtimes|apply world_uuid|reflexivity|reflexivity|apply r0_id|apply own0|apply counters0].
Defined.

Lemma feasible0 : feasible r0 task0.
Proof. split; [eexists; reflexivity|]. exists (5 * Minute). vm_compute. reflexivity. Defined.

Lemma clean_pass_completes_witness :
  wp (Reconcile r0 task_key) (fun '(res, err) w' =>
    exists es, w_trace w' = w_trace w1 ++ es /\
      ((forall e, e ∈ visible es -> trouble_free e = true) ->
       res = empty_result /\ err = None /\
       exists t, last (writes (visible es)) = Some (t, None) /\
         t_Phase (t_Status t) = SnapshotPodTaskPhaseCompleted)) w1 /\
  forallb trouble_free (visible (w_trace (snd (Reconcile r0 task_key w1)))) = true.
Proof.
  split; [|vm_compute; reflexivity]. apply (clean_pass_completes r0 task_key task0 w1);
    [apply r0_runtimes|apply world_uuid|reflexivity|reflexivity|apply r0_id|apply own0|apply feasible0].
Defined.

(** A pass whose commit fails: the fetch and the write succeed, the command does not. *)
Definition w3 : World Store := world_of task0 [None; None; Some (Errorf "exit status 1")].
Definition after3 : World Store := snd (Reconcile r0 task_key w3).
Definition failed_once : SnapshotPodTask :=
  default task0 (fst <$> last (writes (visible (w_trace after3)))).

Example failed_once_state :
  (t_Phase (t_Status failed_once), t_RetryCount (t_Status failed_once), attempts_left failed_once) =
  ("", 1, 2).
Proof. vm_compute. reflexivity. Qed.

Lemma failed_step : next_pass r0 task0 failed_once.
Proof.
  split; [reflexivity|]. split; [apply r0_id|].
  exists task_key, w3, after3, {| RequeueAfter := 30 * Second |}, (w_trace after3), failed_once.
  split; [apply world_uuid|]. split; [reflexivity|].
  split; [unfold after3; apply run_pair; vm_compute; reflexivity|].
  split; [exact eq_refl|]. split; [vm_compute; reflexivity|]. by split_and!.
Defined.

Lemma passes_bounded_witness : Z.of_nat 1 <= attempts_left task0.
Proof.
  apply (passes_bounded r0 1 task0 failed_once);
    [apply r0_runtimes|apply own0|apply counters0|apply nsteps_once, failed_step].
Defined.

Lemma reconcilePushImage_refines_witness :
  wp (reconcilePushImage r0 task0) (fun err w' =>
    exists es, w_trace w' = w_trace w1 ++ es /\ push_events r0 task0 (visible es) err) w1.
Proof.
  apply (reconcilePushImage_refines r0 task0 w1); [apply r0_runtimes|apply world_uuid|apply r0_id].
Defined.

Lemma reconcileCommit_refines_witness :
  wp (reconcileCommit r0 task0) (fun err w' =>
    exists es, w_trace w' = w_trace w1 ++ es /\ commit_events r0 task0 (visible es) err) w1 /\
  (forall d, commit_timeout task0 = inl d -> in_int64 d) /\
  (co_Timeout (ts_CommitOptions (t_Spec task0)) = "" -> commit_timeout task0 = inl (5 * Minute)).
Proof.
  apply (reconcileCommit_refines r0 task0 w1); [apply r0_runtimes|apply world_uuid|apply r0_id].
Defined.
End TaskWitnesses.
