(* ===== verification/Queue.v ===== *)
(** * The work queue of the task controller

    controller-runtime calls [Reconcile] again for a task when the call returned
    an error or asked for it.  [drive] is that loop for one task.  The server is
    seen from the task through the interface [TaskServer]: it holds one object
    under the key, and gives at most so much trouble in the requests to come,
    where trouble is a request it refuses or a read out of a stale cache.  The
    theorem is that the loop ends: the passes use up either one of the attempts
    of the task or some of the trouble, because a pass never conflicts with its
    own writes. *)

From S2P Require Import Prelude GoStrings ApiTypes World Lo Cluster Store ImageRefLib Fixtures.
From S2P Require Import Trace Metrics GoTime Conditions ImageName SnapshotPodController Runtime TaskController TaskSpec.
From S2P Require Import TaskTheorems.

(** ** The interface *)

(** [t'] is a version of [t] from before a status update, and from before the
    task ended. *)
Definition stale (t' t : SnapshotPodTask) : Prop :=
  meta_key (t_meta t') = meta_key (t_meta t) /\ t_meta t' <> t_meta t /\
  t_Spec t' = t_Spec t /\ terminal t' = false.

(** [holds k t n e]: the server holds [t] under the key [k], nobody else writes
    it, and [n] bounds the trouble that is left. *)
Class TaskServer (E : Type) `{KubeClient E} := {
  holds : key -> SnapshotPodTask -> nat -> E -> Prop;
  holds_key k t n e : holds k t n e -> meta_key (t_meta t) = k;
  holds_Get_Task k t n e r e' :
    holds k t n e -> kc_Get_Task k e = (r, e') ->
    match r with
    | inl t' => (t' = t /\ holds k t n e') \/
                (stale t' t /\ exists m, (m < n)%nat /\ holds k t m e')
    | inr err => IsNotFound err = false /\ exists m, (m < n)%nat /\ holds k t m e'
    end;
  (* the resource version is checked: "If an update is attempted with an old
     version, the server rejects it" *)
  holds_StatusUpdate_Task k t n e s r e' :
    holds k t n e -> meta_key (t_meta s) = k -> t_Spec s = t_Spec t ->
    kc_StatusUpdate_Task s e = (r, e') ->
    match r with
    | inl s' => t_meta s = t_meta t /\ holds k s' n e'
    | inr _ => exists m, (m <= n)%nat /\ (t_meta s = t_meta t -> (m < n)%nat) /\ holds k t m e'
    end;
  holds_Get_Secret k t n sec e : holds k t n e -> holds k t n (snd (kc_Get_Secret sec e))
}.

(** ** Code that does not touch the task *)

Section Calm.
Context {E : Type} {kl : KubeLib} {kc : KubeClient E} {ts : TaskServer E}.

(** [m] writes no status and leaves what the server holds. *)
Definition calm {A} (m : M E A) : Prop :=
  emits (fun e => status_write e = None) m /\ forall k t n, keeps (holds k t n) m.

(** The commands of a runtime run outside the API server. *)
Class RuntimeCalm (rt : Runtime E) : Prop := {
  rt_Commit_keeps k t n ctx cid img p m a : keeps (holds k t n) (rt_Commit rt ctx cid img p m a);
  rt_ImageExists_keeps k t n ctx img : keeps (holds k t n) (rt_ImageExists rt ctx img);
  rt_Pull_keeps k t n ctx img auth args : keeps (holds k t n) (rt_Pull rt ctx img auth args);
  rt_Push_keeps k t n ctx img auth : keeps (holds k t n) (rt_Push rt ctx img auth)
}.

(** The machine and the API server are different systems. *)
Class SysCalm {sys : Sys E} : Prop := {
  sys_exec_holds k t n ctx cmd args stdin env e :
    holds k t n e -> holds k t n (snd (sys_exec ctx cmd args stdin env e));
  sys_MkdirTemp_holds k t n a b e : holds k t n e -> holds k t n (snd (sys_MkdirTemp a b e));
  sys_WriteFile_holds k t n a b e : holds k t n e -> holds k t n (snd (sys_WriteFile a b e));
  sys_RemoveAll_holds k t n a e : holds k t n e -> holds k t n (sys_RemoveAll a e)
}.

Lemma calm_bind {A B} (m : M E A) (f : A -> M E B) :
  calm m -> (forall a, calm (f a)) -> calm (m ≫= f).
Proof.
  intros [Hm Hm'] Hf. split.
  - apply emits_bind; [done|]. intros a. apply Hf.
  - intros k t n. apply keeps_bind; [done|]. intros a. apply Hf.
Qed.

Lemma calm_ext {A} (m m' : M E A) : (forall w, m w = m' w) -> calm m' -> calm m.
Proof.
  intros Heq [Hm Hm']. split; [|intros k t n]; intros w; rewrite Heq; [apply Hm|apply Hm'].
Qed.

Lemma calm_ret {A} (a : A) : calm (mret a).
Proof. split; [apply emits_ret|]. intros. apply keeps_ret. Qed.
Lemma calm_panic {A} s : calm (A := A) (panic s).
Proof. split; [apply emits_panic|]. intros. apply keeps_panic. Qed.
Lemma calm_now : calm now.
Proof. split; [apply emits_now|]. intros. apply keeps_now. Qed.
Lemma calm_since t : calm (since t).
Proof. split; [apply emits_since|]. intros. apply keeps_since. Qed.
Lemma calm_choose : calm choose.
Proof. split; [apply emits_choose|]. intros. apply keeps_choose. Qed.
Lemma calm_emit e : status_write e = None -> calm (emit e).
Proof. intros He. split; [by apply emits_emit|]. intros. apply keeps_emit. Qed.
Lemma calm_Get_Secret k : calm (Get_Secret k).
Proof.
  split; [apply emits_external|]. intros k' t n. apply keeps_external.
  intros e. apply holds_Get_Secret.
Qed.
Lemma calm_engine {A} (m : M E A) :
  emits engine_event m -> (forall k t n, keeps (holds k t n) m) -> calm m.
Proof. intros Hm ?. split; [|done]. eapply emits_mono; [done|]. by intros []. Qed.

(** What a run of calm code leaves. *)
Lemma calm_wlp {A} (m : M E A) w :
  calm m -> wlp m (fun _ w' =>
    (exists es, w_trace w' = w_trace w ++ es /\ writes es = []) /\
    forall k t n, holds k t n (w_ext w) -> holds k t n (w_ext w')) w.
Proof.
  intros [Hm Hk]. unfold wlp, post. destruct (fst (m w)); [|done]. split.
  - destruct (Hm w) as (_ & es & Hes & HP). exists es. split; [done|]. unfold writes.
    clear Hes. induction HP as [|e es He _ IH]; [done|]. cbn. by rewrite He.
  - intros k t n. apply Hk.
Qed.
End Calm.

Create HintDb calm discriminated.
#[export] Hint Resolve calm_ret calm_panic calm_now calm_since calm_choose calm_Get_Secret : calm.
#[export] Hint Extern 1 (calm (emit _)) => by apply calm_emit : calm.

(** Prove [calm m] by following the structure of [m]. *)
Ltac calm_step :=
  match goal with
  | |- calm (_ ≫= _) => apply calm_bind; [|intros ?]
  | |- calm (match ?x with _ => _ end) => destruct x eqn:?
  | |- calm _ => solve [eauto with calm]
  end.
Ltac calm := repeat (cbn beta zeta; calm_step).

(** ** The runtimes *)

Section Runtimes.
Context {E : Type} {kl : KubeLib} {kc : KubeClient E} {ts : TaskServer E}
        {sys : Sys E} {sv : Semver} {eng : Engine E} {sc : SysCalm}.

Lemma keeps_run_command k t n ctx cmd args stdin :
  keeps (holds k t n) (run_command ctx cmd args stdin).
Proof using sc.
  unfold run_command. keeps. apply keeps_external. intros e. apply sys_exec_holds.
Qed.
Hint Resolve keeps_run_command : keeps.

Lemma keeps_withLogin k t n d ctx auth args stdin :
  keeps (holds k t n) (withLoginContextCommands d ctx auth args stdin).
Proof using sc.
  unfold withLoginContextCommands, requireLogin, execCommand, os_MkdirTemp. keeps.
  { apply keeps_external. intros e. apply sys_MkdirTemp_holds. }
  apply keeps_deferred.
  { unfold os_RemoveAll. keeps. apply keeps_external. intros e. apply sys_RemoveAll_holds. }
  unfold os_Setenv. keeps. apply keeps_deferred; [unfold os_Unsetenv; keeps|].
  unfold os_WriteFile. keeps. apply keeps_external. intros e. apply sys_WriteFile_holds.
Qed.
Hint Resolve keeps_withLogin : keeps.

#[export] Instance docker_calm d : RuntimeCalm (docker_Runtime d).
Proof using sc.
  split; intros; cbn; unfold docker_Commit, docker_ImageExists, docker_Pull, docker_Push,
    execCommand; keeps.
Qed.

#[export] Instance containerd_calm c : RuntimeCalm (containerd_Runtime c).
Proof using sc.
  split; intros; cbn; unfold containerd_Commit, docker_ImageExists, docker_Pull, docker_Push,
    execCommand; keeps.
Qed.
End Runtimes.

(** ** The object that a pass carries

    [Reconcile] threads the object of the task through its steps.  Whatever [J]
    says of the object and the world, it holds at the end if calm code, changes
    of the status and the status updates keep it. *)

Section Thread.
Context {E : Type} {lib : Lo} {ir : ImageRef} {kl : KubeLib} {kc : KubeClient E}
        {ts : TaskServer E}.
Implicit Types spt t : SnapshotPodTask.
Variable r : SnapshotPodTaskReconciler E.

Definition runtimes_calm : Prop := map_Forall (fun _ rt => RuntimeCalm rt) (runtimeMap r).

Hypothesis Hrts : runtimes_ok r.
Hypothesis Hcalm : runtimes_calm.
Variable J : SnapshotPodTask -> World E -> Prop.
Hypothesis J_calm : forall A (m : M E A) spt w,
  calm m -> J spt w -> wlp m (fun _ w' => J spt w') w.
Hypothesis J_status : forall spt s w, J spt w -> J (set_t_Status s spt) w.
Hypothesis J_update : forall spt w,
  J spt w -> wlp (StatusUpdate_Task spt) (fun '(spt', _) w' => J spt' w') w.

(** A program that returns the object with something else. *)
Definition threads {A} (m : M E (SnapshotPodTask * A)) (w : World E) : Prop :=
  wlp m (fun '(spt, _) w' => J spt w') w.

Lemma J_bind {A B} (m : M E A) (f : A -> M E B) Q spt w :
  calm m -> J spt w -> (forall a w', J spt w' -> wlp (f a) Q w') -> wlp (m ≫= f) Q w.
Proof using J_calm.
  intros Hm HJ Hf. apply wlp_bind. eapply wlp_mono; [by apply J_calm|]. cbn. auto.
Qed.

Lemma calm_getRuntime id : calm (getRuntimeAndContainerID r id).
Proof using Type. unfold getRuntimeAndContainerID. calm. Qed.

Lemma calm_auth ns sec image : calm (getImageAuthWithSecret ns sec image).
Proof using Type. unfold getImageAuthWithSecret. calm. Qed.

Lemma calm_push_exit start res reg spt err : calm (push_exit start res reg spt err).
Proof using Type. unfold push_exit, RecordImagePush, with_labels. calm. Qed.

(** The runtime that is found is one of the map. *)
Lemma getRuntime_found id w :
  wlp (getRuntimeAndContainerID r id) (fun g _ =>
    match g with inl (_, rt, _) => RuntimeOk rt /\ RuntimeCalm rt | inr _ => True end) w.
Proof using Hrts Hcalm.
  unfold getRuntimeAndContainerID. destruct (Split id "://" !! 0%nat) as [name|]; [|done].
  destruct (runtimeMap r !! name) as [rt|] eqn:Hn; [|done].
  destruct (Split id "://" !! 1%nat); [|done]. apply wlp_ret.
  split; [by eapply Hrts|by eapply Hcalm].
Qed.

Lemma J_getRuntime {B} id (f : result (string * Runtime E * string) -> M E B) Q spt w :
  J spt w ->
  (forall g w', J spt w' ->
     match g with inl (_, rt, _) => RuntimeOk rt /\ RuntimeCalm rt | inr _ => True end ->
     wlp (f g) Q w') ->
  wlp (getRuntimeAndContainerID r id ≫= f) Q w.
Proof using Hrts Hcalm J_calm.
  intros HJ Hf. apply wlp_bind.
  eapply wlp_mono; [apply wlp_and; [apply J_calm; [apply calm_getRuntime|exact HJ]|apply getRuntime_found]|].
  intros g w' [? ?]. by apply Hf.
Qed.

Lemma J_reconcilePushImage spt w :
  J spt w -> wlp (reconcilePushImage r spt) (fun _ w' => J spt w') w.
Proof using Hrts Hcalm J_calm.
  intros HJ. unfold reconcilePushImage. eapply J_bind; [apply calm_now|done|]. clear w HJ.
  intros start w HJ. eapply J_getRuntime; [done|]. clear w HJ. intros [[[rtName rt] c]|err] w HJ Hrt.
  2: { apply J_calm; [apply calm_push_exit|done]. }
  destruct Hrt as [Hok Hc]. apply J_calm; [|done].
  pose proof calm_auth. pose proof calm_push_exit.
  assert (forall image, calm (call_ImageExists rt None image)) as He.
  { intros image. unfold call_ImageExists. calm. apply calm_engine; [apply Hok|intros; apply Hc]. }
  assert (forall image a args, calm (call_Pull rt None image a args)) as Hl.
  { intros image a args. unfold call_Pull. calm. apply calm_engine; [apply Hok|intros; apply Hc]. }
  assert (forall image a, calm (call_Push rt None image a)) as Hp.
  { intros image a. unfold call_Push. calm. apply calm_engine; [apply Hok|intros; apply Hc]. }
  calm.
Qed.

Lemma J_reconcileCommit spt w :
  J spt w -> wlp (reconcileCommit r spt) (fun _ w' => J spt w') w.
Proof using Hrts Hcalm J_calm.
  intros HJ. unfold reconcileCommit. eapply J_getRuntime; [done|]. clear w HJ.
  intros [[[rtName rt] c]|err] w HJ Hrt; [|by apply wlp_ret].
  destruct Hrt as [Hok Hc]. apply J_calm; [|done]. calm. unfold call_Commit. calm.
  apply calm_engine; [apply Hok|intros; apply Hc].
Qed.

Lemma J_task_r x spt w : J spt w -> wlp (task_r r x spt) (fun _ w' => J spt w') w.
Proof using Hrts Hcalm J_calm.
  intros HJ. destruct x; [by apply wlp_ret|by apply J_reconcileCommit|by apply J_reconcilePushImage].
Qed.

(** *** The loop and the end of a pass *)

Lemma J_conditions l spt w : J spt w -> J (set_t_Conditions l spt) w.
Proof using J_status. intros HJ. apply (J_status _ _ _ HJ). Qed.

Lemma J_update_cond {B} i g (f : SnapshotPodTask -> M E B) Q spt w :
  J spt w -> (forall spt', J spt' w -> wlp (f spt') Q w) ->
  wlp (task_update_cond i g spt ≫= f) Q w.
Proof using J_status.
  intros HJ Hf. apply wlp_bind. unfold task_update_cond. destruct (_ !! i); [|done].
  apply wlp_ret, Hf. by apply J_conditions.
Qed.

Lemma J_get_cond {B} i (f : Condition -> M E B) Q spt w :
  (forall c, wlp (f c) Q w) -> wlp (task_get_cond i spt ≫= f) Q w.
Proof using Type.
  intros Hf. apply wlp_bind. unfold task_get_cond.
  destruct (_ !! i); [apply wlp_ret, Hf|done].
Qed.

Lemma J_recorded spt w (f : SnapshotPodTask * option GoError -> M E (SnapshotPodTask * loop_out)) :
  J spt w ->
  (forall p w', J (fst p) w' -> threads (f p) w') ->
  threads (StatusUpdate_Task spt ≫= f) w.
Proof using J_update.
  intros HJ Hf. apply wlp_bind. eapply wlp_mono; [by apply J_update|]. intros [spt' u] w' HJ'.
  by apply (Hf (spt', u)).
Qed.

Lemma threads_finish_rec i old spt err w :
  J spt w -> threads (task_finish_rec i old spt err) w.
Proof using J_calm J_status J_update.
  intros HJ. assert (forall spt w o, J spt w -> threads
    ('(spt, updateErr) ← StatusUpdate_Task spt;
     match updateErr with Some e' => mret (spt, Return e') | None => mret (spt, o) end) w) as Hw.
  { clear spt w HJ. intros spt w o HJ. apply J_recorded; [done|].
    intros [spt' [e|]] w' HJ'; by apply wlp_ret. }
  unfold task_finish_rec. destruct err as [e|].
  - do 2 (apply (J_update_cond _ _ _ _ spt); [done|]; clear spt HJ; intros spt HJ). by apply Hw.
  - do 2 (apply (J_update_cond _ _ _ _ spt); [done|]; clear spt HJ; intros spt HJ).
    apply J_get_cond. intros c. destruct (negb _ || _).
    + apply wlp_bind. eapply (J_bind _ _ _ spt); [apply calm_now|done|]. clear w HJ. intros n w HJ.
      unfold task_update_cond. destruct (_ !! i); [|done]. apply wlp_ret, Hw. by apply J_conditions.
    + apply wlp_bind, wlp_ret. by apply Hw.
Qed.

Lemma threads_run_rec x spt w : J spt w -> threads (task_run_rec r x spt) w.
Proof using Hrts Hcalm J_calm J_status J_update.
  intros HJ. unfold task_run_rec. apply wlp_bind.
  apply (wlp_mono _ (fun '(_, spt') w' => J spt' w')).
  { unfold task_ensure_cond. destruct (lo_FindIndexOf _ _); [by apply wlp_ret|].
    eapply J_bind; [apply calm_now|done|]. intros n w' HJ'. apply wlp_ret. by apply J_conditions. }
  clear spt w HJ. intros [i spt] w HJ. apply J_get_cond. intros old.
  destruct (bool_decide _); [by apply wlp_ret|].
  apply wlp_bind. eapply wlp_mono; [by apply J_task_r|]. intros err w' HJ'.
  by apply threads_finish_rec.
Qed.

Lemma threads_run_recs l spt w : J spt w -> threads (task_run_recs r l spt) w.
Proof using Hrts Hcalm J_calm J_status J_update.
  revert spt w. induction l as [|x l IH]; intros spt w HJ; [by apply wlp_ret|].
  cbn [task_run_recs]. apply wlp_bind. eapply wlp_mono; [by apply threads_run_rec|].
  intros [spt' []] w' HJ'; [by apply IH|by apply wlp_ret..].
Qed.

Lemma J_update_phase lastError name spt w :
  J spt w -> wlp (update_phase lastError name spt) (fun spt' w' => J spt' w') w.
Proof using J_calm J_status.
  intros HJ. assert (forall ph, J (set_t_Phase ph spt) w) as Hph by (intros; by apply J_status).
  unfold update_phase. destruct (lo_EveryBy _ _); [by apply wlp_ret|].
  assert (forall l, calm (lo_SomeBy l (overdue lastError))) as Hsome.
  { intros l. apply (calm_ext _ (some_by l (overdue lastError))); [intros w'; apply lo_SomeBy_law|].
    assert (forall c, calm (overdue lastError c)) by (intros c; unfold overdue; calm).
    induction l as [|c l IH]; cbn [some_by]; calm. }
  eapply J_bind; [by apply Hsome|exact HJ|]. clear w HJ Hph. intros [] w HJ.
  2: { apply wlp_ret. by apply J_status. }
  unfold count_retry. set (spt1 := set_t_RetryCount _ spt).
  assert (J spt1 w) as HJ1 by by apply J_status. clearbody spt1. clear HJ.
  eapply J_bind; [apply calm_now|exact HJ1|]. clear w HJ1. intros n w HJ1.
  set (spt2 := set_t_LastRetryTime _ spt1).
  assert (J spt2 w) as HJ2 by by apply J_status. clearbody spt2. clear HJ1.
  eapply J_bind; [unfold RecordSnapshotTaskRetry, with_labels; calm|exact HJ2|].
  clear w HJ2. intros _ w HJ2. case_bool_decide; [|by apply wlp_ret].
  assert (J (set_t_Phase SnapshotPodTaskPhaseFailed spt2) w) as HJ3 by by apply J_status.
  eapply J_bind; [unfold RecordTaskFailed, with_labels; calm|exact HJ3|].
  intros _ w' HJ'. by apply wlp_ret.
Qed.

Lemma J_conclude start lastError spt w :
  J spt w -> wlp (task_conclude start lastError spt) (fun _ w' => exists spt', J spt' w') w.
Proof using J_calm J_status J_update.
  intros HJ. unfold task_conclude. apply wlp_bind. eapply wlp_mono; [by apply J_update_phase|].
  clear HJ w. intros spt1 w HJ. apply wlp_bind. eapply wlp_mono; [by apply J_update|].
  clear HJ w. intros [spt2 [e|]] w HJ; [apply wlp_ret; by exists spt2|].
  assert (forall res d, calm (RecordControllerReconcile (E := E) "snapshotpodtask" res d)) as Hm.
  { intros res d. unfold RecordControllerReconcile, with_labels. calm. }
  eapply wlp_mono; [eapply J_calm; [|exact HJ]|intros; by exists spt2].
  unfold report_terminal, RecordSnapshotTask, with_labels. calm.
Qed.

(** What the pass is about: the object that is fetched, or [t] if none is. *)
Lemma Reconcile_threads req t w :
  (forall w1, w_trace w1 = w_trace w -> w_ext w1 = snd (kc_Get_Task req (w_ext w)) ->
     J (match fst (kc_Get_Task req (w_ext w)) with inl spt => spt | inr _ => t end) w1) ->
  wlp (Reconcile r req) (fun _ w' => exists spt', J spt' w') w.
Proof using Hrts Hcalm J_calm J_status J_update.
  intros HJ. unfold Reconcile. apply wlp_bind, wp_wlp, wp_now. intros w0 He _ _ Ht.
  apply wlp_bind. unfold Get_Task. apply wlp_external. intros g w1 Hg _ Ht1.
  rewrite He in Hg. rewrite <- Hg in HJ. cbn [fst snd] in HJ.
  specialize (HJ w1 ltac:(congruence) eq_refl).
  destruct g as [spt|err].
  2: { eapply wlp_mono; [eapply J_calm; [|exact HJ]|intros; by exists t].
       unfold RecordControllerError, RecordControllerReconcile, with_labels. calm. }
  destruct (bool_decide _); [apply wlp_ret; by exists spt|].
  destruct (terminal spt); [apply wlp_ret; by exists spt|].
  assert (J (reset_retries spt) w1) as HJ'.
  { unfold reset_retries. case_bool_decide; [|done]. by apply J_status. }
  apply wlp_bind. eapply wlp_mono; [by apply threads_run_recs|].
  intros [spt' []] w' HJ2; [by apply J_conclude..|]. apply wlp_ret. by exists spt'.
Qed.
End Thread.

(** ** The writes of a pass *)

(** The objects of the status updates that were accepted, and the number of
    those that were refused. *)
Definition accepted (es : list Event) : list SnapshotPodTask :=
  omap (fun '(t, u) => match u with None => Some t | Some _ => None end) (writes es).
Definition refused (es : list Event) : nat := length (omap snd (writes es)).

Lemma writes_app es es' : writes (es ++ es') = writes es ++ writes es'.
Proof. apply omap_app. Qed.

Lemma writes_visible es : writes (visible es) = writes es.
Proof.
  induction es as [|e es IH]; [done|]. unfold visible, writes in *. cbn.
  destruct e; cbn; by rewrite IH.
Qed.

Lemma elem_of_writes t u es : (t, u) ∈ writes es <-> EvTaskStatus t u ∈ es.
Proof.
  unfold writes. rewrite list_elem_of_omap. split.
  - intros (e & He & Hw). destruct e; try done. cbn in Hw. by injection Hw as -> ->.
  - intros H. by exists (EvTaskStatus t u).
Qed.

Lemma elem_of_accepted t es : t ∈ accepted es <-> EvTaskStatus t None ∈ es.
Proof.
  unfold accepted. rewrite list_elem_of_omap, <- elem_of_writes. split.
  - intros ([s [e|]] & H & [= ->]). done.
  - intros H. by exists (t, None).
Qed.

Lemma refused_pos t e es : EvTaskStatus t (Some e) ∈ es -> (1 <= refused es)%nat.
Proof.
  rewrite <- elem_of_writes. intros H. unfold refused.
  assert (e ∈ omap snd (writes es)) as He by (apply list_elem_of_omap; by exists (t, Some e)).
  destruct (omap snd (writes es)); [by apply not_elem_of_nil in He|cbn; lia].
Qed.

Lemma last_accepted es t : last (writes es) = Some (t, None) -> last (accepted es) = Some t.
Proof.
  intros [l Hl]%last_Some. unfold accepted. rewrite Hl, omap_app. cbn. by rewrite last_snoc.
Qed.

Section Writes.
Context {E : Type} {ir : ImageRef} {kl : KubeLib} {kc : KubeClient E}.
Variable r : SnapshotPodTaskReconciler E.
Implicit Types spt t : SnapshotPodTask.

Lemma loop_write_own l spt0 es spt' out t u :
  loop_spec r l spt0 es spt' out -> EvTaskStatus t u ∈ es -> own_conditions spt0 -> own_conditions t.
Proof using Type.
  induction 1 as [|y l spt es spt' out Hf Hl IH|y l spt es err t' u' Hf Hs Ha
    |y l spt es e' t' spt' Hf Hs Ha Hr|y l spt es t' spt1 es' spt' out Hf Hs Ha Hr Hl IH];
    intros He Hown; try by apply not_elem_of_nil in He.
  - by apply IH.
  - apply elem_of_status_last in He as [He|[= -> _]]; [by eapply step_no_status in Hs|].
    by eapply own_attempted.
  - apply elem_of_status_last in He as [He|[= -> _]]; [by eapply step_no_status in Hs|].
    by eapply own_attempted.
  - apply elem_of_app in He as [He|He]; [by eapply step_no_status in Hs|].
    apply elem_of_cons in He as [[= -> _]|He]; [by eapply own_attempted|].
    apply IH; [done|]. eapply own_answered; [done|]. by eapply own_attempted.
Qed.

Lemma loop_Return l spt es spt' e :
  loop_spec r l spt es spt' (Return e) -> exists t, EvTaskStatus t (Some e) ∈ es.
Proof using Type.
  intros H. remember (Return e) as out eqn:Ho. revert Ho.
  induction H as [| |x l spt es err t u| |x l spt es t spt1 es' spt' out Hf Hs Ha Hr Hl IH];
    intros Ho; try done; [by apply IHloop_spec|..].
  - injection Ho as ->. exists t. apply elem_of_app. right. apply list_elem_of_here.
  - destruct (IH Ho) as [s Hin]. exists s. rewrite !elem_of_app. by right; right.
Qed.

(** A pass without an error ends with an accepted write. *)
Lemma pass_accepted spt es res :
  pass_spec r spt es res -> snd res = None -> exists t, last (writes es) = Some (t, None).
Proof using Type.
  intros Hp Hres. apply pass_inv in Hp as (es1 & spt' & out & Hl & Hout).
  assert (forall le es2, es = es1 ++ es2 -> end_spec le spt' es2 res ->
    exists t, last (writes es) = Some (t, None)) as Hend.
  { intros le es2 -> He. apply end_inv in He as (es3 & t & u & es4 & -> & _ & Hm & Hu & _).
    rewrite Hres in Hu. subst u. exists t. by apply writes_last. }
  destruct out as [|e|e].
  - destruct Hout as (es2 & ? & ?). by eapply Hend.
  - destruct Hout as (es2 & ? & ?). by eapply Hend.
  - by destruct Hout as [_ ->].
Qed.

(** A pass with an error had a write refused; those before it left the phase and
    the counter alone. *)
Lemma pass_error spt es res e :
  pass_spec r spt es res -> snd res = Some e ->
  (1 <= refused es)%nat /\
  forall t, t ∈ accepted es ->
    task_frame (reset_retries spt) t /\ (own_conditions spt -> own_conditions t).
Proof using Type.
  intros Hp Hres. apply pass_inv in Hp as (es1 & spt' & out & Hl & Hout).
  assert (forall t, EvTaskStatus t None ∈ es1 ->
    task_frame (reset_retries spt) t /\ (own_conditions spt -> own_conditions t)) as Hes1.
  { intros t Ht. split; [by eapply loop_write_phase|]. intros Hown%own_reset.
    by eapply loop_write_own. }
  assert (forall le es2, es = es1 ++ es2 -> end_spec le spt' es2 res ->
    (1 <= refused es)%nat /\ forall t, EvTaskStatus t None ∈ es -> EvTaskStatus t None ∈ es1) as Hend.
  { intros le es2 -> He. apply end_inv in He as (es3 & s & u & es4 & -> & _ & Hm & Hu & _).
    rewrite Hres in Hu. subst u. split.
    - eapply refused_pos. rewrite !elem_of_app. right. right. apply list_elem_of_here.
    - intros t. rewrite !elem_of_app, elem_of_cons. intros [Ht|[Ht|[Ht|Ht]]]; [done| |done|].
      all: specialize (Hm (EvTaskStatus t None)); rewrite elem_of_app in Hm; discriminate Hm; auto. }
  destruct out as [|e'|e'].
  - destruct Hout as (es2 & H1 & H2). destruct (Hend _ _ H1 H2) as [? Hsub]. split; [done|].
    intros t Ht%elem_of_accepted. by apply Hes1, Hsub.
  - destruct Hout as (es2 & H1 & H2). destruct (Hend _ _ H1 H2) as [? Hsub]. split; [done|].
    intros t Ht%elem_of_accepted. by apply Hes1, Hsub.
  - destruct Hout as [-> ->]. apply loop_Return in Hl as [t Ht]. split; [by eapply refused_pos|].
    intros s Hs%elem_of_accepted. by apply Hes1.
Qed.

Lemma pass_requeue spt es res : pass_spec r spt es res -> 0 <= RequeueAfter (fst res).
Proof using Type.
  assert (forall le spt' es, end_spec le spt' es res -> 0 <= RequeueAfter (fst res)) as He.
  { intros le spt' es'. destruct 1; cbn; [lia..|]. pose proof (retry_delay_pos spt'). lia. }
  destruct 1; cbn; [lia|by eapply He..].
Qed.

(** What the loop leaves of the measure. *)
Lemma frame_left spt t :
  task_frame (reset_retries spt) t -> terminal spt = false -> counters_ok spt ->
  terminal t = false /\ counters_ok t /\ attempts_left t = attempts_left spt.
Proof using Type.
  intros Hfr Hts (Hm & Hc & Hlt). pose proof (task_frame_terminal _ _ Hfr) as Ht.
  rewrite terminal_reset, Hts in Ht. destruct Hfr as (_ & _ & Hs & _ & Hrc).
  rewrite reset_retries_spec in Hs. rewrite reset_retries_count in Hrc. split; [done|].
  unfold counters_ok, attempts_left, max_retries. rewrite Ht, Hts, Hs, Hrc.
  unfold in_int32, int32_min, int32_max in *. split; [split_and!; try done; lia|].
  lia.
Qed.
End Writes.

(** ** The server during a pass *)

Section Pass.
Context {E : Type} {lib : Lo} {ir : ImageRef} {kl : KubeLib} {kc : KubeClient E}
        {laws : KubeClientLaws E} {ts : TaskServer E}.
Implicit Types spt t : SnapshotPodTask.

(** After the writes in [es] to a server that held [t], it holds [old]. *)
Definition settled t (es : list Event) (old : SnapshotPodTask) : Prop :=
  match last (accepted es) with Some s => answered s old | None => old = t end.

(** The pass carries the version that the server holds: each refusal has cost
    some of the trouble [n]. *)
Definition in_step (k : key) t (n : nat) (w0 : World E) spt (w : World E) : Prop :=
  exists es old m, w_trace w = w_trace w0 ++ es /\ holds k old m (w_ext w) /\
    t_meta spt = t_meta old /\ t_Spec spt = t_Spec old /\ settled t es old /\
    (m + refused es <= n)%nat.

(** The pass carries a stale version: the server accepts nothing. *)
Definition out_of_step (k : key) t (n : nat) (w0 : World E) spt (w : World E) : Prop :=
  exists es m, w_trace w = w_trace w0 ++ es /\ holds k t m (w_ext w) /\
    meta_key (t_meta spt) = k /\ t_meta spt <> t_meta t /\ t_Spec spt = t_Spec t /\
    accepted es = [] /\ (m <= n)%nat.

Lemma accepted_quiet es es' : writes es' = [] -> accepted (es ++ es') = accepted es.
Proof using Type. intros H. unfold accepted. by rewrite writes_app, H, app_nil_r. Qed.
Lemma refused_quiet es es' : writes es' = [] -> refused (es ++ es') = refused es.
Proof using Type. intros H. unfold refused. by rewrite writes_app, H, app_nil_r. Qed.

Lemma in_step_calm k t n w0 A (m : M E A) spt w :
  calm m -> in_step k t n w0 spt w -> wlp m (fun _ w' => in_step k t n w0 spt w') w.
Proof using Type.
  intros Hm (es & old & p & Ht & Hh & Hmeta & Hspec & Hset & Hn).
  eapply wlp_mono; [by apply calm_wlp|]. intros _ w' [(es' & Ht' & Hw) Hk].
  exists (es ++ es'), old, p. unfold settled. rewrite Ht', Ht, app_assoc.
  rewrite accepted_quiet, refused_quiet by done. split_and!; eauto.
Qed.

Lemma out_of_step_calm k t n w0 A (m : M E A) spt w :
  calm m -> out_of_step k t n w0 spt w -> wlp m (fun _ w' => out_of_step k t n w0 spt w') w.
Proof using Type.
  intros Hm (es & p & Ht & Hh & Hrest & Hn & Hs & Ha & Hp).
  eapply wlp_mono; [by apply calm_wlp|]. intros _ w' [(es' & Ht' & Hw) Hk].
  exists (es ++ es'), p. rewrite Ht', Ht, app_assoc, accepted_quiet by done. split_and!; eauto.
Qed.

Lemma accepted_snoc es t u :
  accepted (es ++ [EvTaskStatus t u]) = accepted es ++ (if u is None then [t] else []).
Proof using Type. unfold accepted. rewrite writes_app, omap_app. by destruct u. Qed.
Lemma refused_snoc es t u :
  refused (es ++ [EvTaskStatus t u]) = (refused es + if u is None then 0 else 1)%nat.
Proof using Type. unfold refused. rewrite writes_app, omap_app, length_app. by destruct u. Qed.

Lemma in_step_update k t n w0 spt w :
  in_step k t n w0 spt w ->
  wlp (StatusUpdate_Task spt) (fun '(spt', _) w' => in_step k t n w0 spt' w') w.
Proof using laws.
  intros (es & old & m & Ht & Hh & Hmeta & Hspec & Hset & Hn).
  apply wp_wlp, wp_write. intros res e' w' Hr He _ Ht'.
  pose proof (holds_key _ _ _ _ Hh) as Hkey. rewrite <- Hmeta in Hkey.
  pose proof (holds_StatusUpdate_Task _ _ _ _ _ _ _ Hh Hkey Hspec Hr) as Hlaw.
  destruct res as [s|err]; cbn in Ht' |- *; unfold in_step, settled; rewrite Ht', Ht, He.
  - destruct Hlaw as [_ Hh']. exists (es ++ [EvTaskStatus spt None]), s, m.
    apply kc_StatusUpdate_Task_law in Hr. rewrite accepted_snoc, refused_snoc, last_snoc, app_assoc.
    split_and!; try done. lia.
  - destruct Hlaw as (p & _ & Hlt & Hh'). exists (es ++ [EvTaskStatus spt (Some err)]), old, p.
    specialize (Hlt Hmeta). rewrite accepted_snoc, refused_snoc, app_nil_r, app_assoc.
    split_and!; try done. lia.
Qed.

Lemma out_of_step_update k t n w0 spt w :
  out_of_step k t n w0 spt w ->
  wlp (StatusUpdate_Task spt) (fun '(spt', _) w' => out_of_step k t n w0 spt' w') w.
Proof using Type.
  intros (es & m & Ht & Hh & Hkey & Hne & Hspec & Ha & Hn).
  apply wp_wlp, wp_write. intros res e' w' Hr He _ Ht'.
  pose proof (holds_StatusUpdate_Task _ _ _ _ _ _ _ Hh Hkey Hspec Hr) as Hlaw.
  destruct res as [s|err]; [by destruct Hlaw|]. destruct Hlaw as (p & Hle & _ & Hh').
  exists (es ++ [EvTaskStatus spt (Some err)]), p.
  rewrite Ht', Ht, app_assoc, accepted_snoc, Ha, He. split_and!; try done. lia.
Qed.

Variable r : SnapshotPodTaskReconciler E.
Hypothesis Hrts : runtimes_ok r.
Hypothesis Hcalm : runtimes_calm r.

(** The server after a pass over the version it holds, or after a failed read. *)
Lemma pass_in_step k t n m (w : World E) :
  holds k t m (snd (kc_Get_Task k (w_ext w))) -> (m <= n)%nat ->
  match fst (kc_Get_Task k (w_ext w)) with inl spt => spt = t | inr _ => True end ->
  wlp (Reconcile r k) (fun _ w' => exists spt', in_step k t n w spt' w') w.
Proof using Hrts Hcalm laws.
  intros Hh Hm Hg. apply (Reconcile_threads r Hrts Hcalm (in_step k t n w)) with (t := t).
  - intros A m' spt w'. apply in_step_calm.
  - done.
  - intros spt w'. apply in_step_update.
  - intros w1 Ht He. exists [], t, m. rewrite Ht, He, app_nil_r. cbn.
    destruct (fst _) as [spt|]; subst; split_and!; try done; lia.
Qed.

(** The server after a pass over a stale version. *)
Lemma pass_out_of_step k t n (w : World E) spt :
  holds k t n (snd (kc_Get_Task k (w_ext w))) ->
  fst (kc_Get_Task k (w_ext w)) = inl spt -> stale spt t ->
  wlp (Reconcile r k) (fun _ w' => exists spt', out_of_step k t n w spt' w') w.
Proof using Hrts Hcalm.
  intros Hh Hg (Hkey & Hne & Hs & _).
  apply (Reconcile_threads r Hrts Hcalm (out_of_step k t n w)) with (t := t).
  - intros A m' s w'. apply out_of_step_calm.
  - done.
  - intros s w'. apply out_of_step_update.
  - intros w1 Ht He. exists [], n. rewrite Hg, Ht, He, app_nil_r.
    rewrite Hkey. split_and!; try done. by eapply holds_key.
Qed.
End Pass.

(** ** The queue *)

Section Queue.
Context {E : Type} {lib : Lo} {ir : ImageRef} {kl : KubeLib} {kc : KubeClient E}
        {laws : KubeClientLaws E} {ts : TaskServer E}.
Implicit Types spt t : SnapshotPodTask.
Variable r : SnapshotPodTaskReconciler E.

(** controller-runtime: "If the returned error is non-nil, the Result is ignored
    and the request will be requeued using exponential backoff"; a positive
    [RequeueAfter] requeues it after that time; otherwise it is done. *)
Definition requeued (res : CtrlResult * option GoError) : bool :=
  match snd res with Some _ => true | None => bool_decide (0 < RequeueAfter (fst res)) end.

(** At most [fuel] calls for the task [req]; whether the last one was final. *)
Fixpoint drive (fuel : nat) (req : key) : M E bool :=
  match fuel with
  | O => mret false
  | S fuel =>
      res ← Reconcile r req;
      if requeued res then drive fuel req else mret true
  end.

(** A task of this node that is not at its end. *)
Definition pending t : Prop :=
  mine r t = true /\ id_ok r (ts_ContainerID (t_Spec t)) /\ own_conditions t /\ counters_ok t.

(** A task as the SnapshotPod controller creates it is pending on its node. *)
Lemma created_pending t :
  t_Status t = empty_task_status -> ts_NodeName (t_Spec t) = NodeName r ->
  id_ok r (ts_ContainerID (t_Spec t)) -> in_int32 (ts_MaxRetries (t_Spec t)) ->
  pending t /\ attempts_left t = Z.max 1 (max_retries t).
Proof using Type.
  intros Hst Hn Hid Hm.
  assert (terminal t = false) as Ht by (unfold terminal; by rewrite Hst).
  unfold pending, mine, own_conditions, tconds, counters_ok, attempts_left.
  rewrite Ht, Hst, Hn, bool_decide_true by done. cbn. split; [|f_equal; lia].
  split_and!; try done; [by apply NoDup_nil_2|by intros ty ?%not_elem_of_nil].
Qed.

(** What a pass does to a pending task, with [n] troubles ahead. *)
Definition advanced t (n : nat) (res : CtrlResult * option GoError) t' (m : nat) : Prop :=
  t_Spec t' = t_Spec t /\
  if requeued res
  then pending t' /\ attempts_left t' + Z.of_nat m < attempts_left t + Z.of_nat n
  else terminal t' = true /\
       (t_Phase (t_Status t') = SnapshotPodTaskPhaseCompleted <-> forall x, finished x t' = true).

Lemma mine_spec t t' : mine r t = true -> t_Spec t' = t_Spec t -> terminal t' = false -> mine r t' = true.
Proof using Type.
  unfold mine. intros [Hn _]%andb_true_iff -> ->. by rewrite Hn.
Qed.

Lemma completed_answered t t' :
  answered t t' ->
  (t_Phase (t_Status t) = SnapshotPodTaskPhaseCompleted <-> forall x, finished x t = true) ->
  (t_Phase (t_Status t') = SnapshotPodTaskPhaseCompleted <-> forall x, finished x t' = true).
Proof using Type.
  intros Ha Hc. pose proof Ha as (_ & _ & _ & _ & -> & _). rewrite Hc.
  split; intros H x; specialize (H x); by rewrite (finished_answered x _ _ Ha) in *.
Qed.

(** The trace of a pass in step says where the task is. *)
Lemma in_step_advanced t n es res old m :
  pass_spec r t es res -> pending t -> settled t es old -> (m + refused es <= n)%nat ->
  advanced t n res old m.
Proof using Type.
  intros Hp (Hm & Hid & Hown & Hc) Hset Hn.
  assert (terminal t = false) as Hts by by eapply mine_open.
  unfold advanced, requeued. destruct (snd res) as [e|] eqn:Hres.
  - destruct (pass_error _ _ _ _ _ Hp Hres) as [Hr Hacc].
    assert (t_Spec old = t_Spec t /\ terminal old = false /\ own_conditions old /\
            counters_ok old /\ attempts_left old = attempts_left t) as (Hs & Ho & Hown' & Hc' & Hl).
    { unfold settled in Hset. destruct (last (accepted es)) as [s|] eqn:Hlast; [|by subst].
      apply last_Some_elem_of, Hacc in Hlast as [Hfr Hown']. apply Hown' in Hown.
      assert (task_frame (reset_retries t) old) as Hfr'
        by (etrans; [exact Hfr|by apply answered_frame]).
      pose proof (frame_left _ _ Hfr' Hts Hc) as (? & ? & ?).
      destruct Hfr' as (_ & _ & Hs & _). rewrite reset_retries_spec in Hs.
      split_and!; try done. by eapply own_answered. }
    unfold pending. rewrite Hs. split_and!; try done; [by eapply mine_spec|lia].
  - destruct (pass_progress _ _ _ _ Hp Hm Hown Hc Hres)
      as (s & Hl & Hown' & Hs & Hlt & Hz & Hc' & Hq & Hph).
    unfold settled in Hset. rewrite (last_accepted _ _ Hl) in Hset.
    pose proof (terminal_answered _ _ Hset) as [Hts' _].
    pose proof (attempts_left_answered _ _ Hset) as Hl'.
    pose proof Hset as (_ & _ & Hs' & _ & _ & Hrc).
    pose proof (pass_requeue _ _ _ _ Hp) as Hpos.
    split; [congruence|]. case_bool_decide as Hd.
    + assert (terminal s = false) as Hopen.
      { destruct (terminal s); [|done]. destruct Hq as [Hq _]. rewrite Hq in Hd by done. lia. }
      rewrite Hopen in Hts'. split; [|lia]. unfold pending. rewrite Hs', Hs. split_and!; try done.
      * eapply mine_spec; [done|congruence|done].
      * by eapply own_answered.
      * unfold counters_ok in *. rewrite Hs', Hrc. by apply Hc'.
    + split; [|by eapply completed_answered]. rewrite Hts'. apply Hq. lia.
Qed.

Hypothesis Hrts : runtimes_ok r.
Hypothesis Hcalm : runtimes_calm r.

(** A pass over a stale version, or one whose read failed, costs trouble. *)
Lemma troubled t n m res t' :
  pending t -> requeued res = true -> t' = t -> (m < n)%nat -> advanced t n res t' m.
Proof using Type.
  intros Hp Hr -> Hlt. unfold advanced. rewrite Hr. split_and!; try apply Hp; [done|lia].
Qed.

(** One call for a pending task. *)
Lemma pass_advances k t n (w : World E) :
  uuid_ok w -> holds k t n (w_ext w) -> pending t ->
  wp (Reconcile r k) (fun res w' => w_uuid w' = w_uuid w /\
    exists t' m, holds k t' m (w_ext w') /\ advanced t n res t' m) w.
Proof using Hrts Hcalm laws.
  intros Hw Hh Hp. pose proof Hp as (Hm & Hid & _ & _).
  destruct (kc_Get_Task k (w_ext w)) as [g e'] eqn:Hg.
  pose proof (holds_Get_Task _ _ _ _ _ _ Hh Hg) as Hlaw.
  assert (does (Reconcile r k) (fun res es => reconcile_spec r g es res) w) as Hd.
  { replace g with (fst (kc_Get_Task k (w_ext w))) by by rewrite Hg. apply Reconcile_does; try done.
    rewrite Hg. destruct g as [t'|]; [|done]. intros _.
    destruct Hlaw as [[-> _]|[(_ & _ & -> & _) _]]; done. }
  apply (f_equal snd) in Hg as He. apply (f_equal fst) in Hg. cbn in Hg, He. rewrite <- He in Hlaw.
  destruct g as [t'|err]; [destruct Hlaw as [[-> Hh']|[Hst (m & Hlt & Hh')]]|].
  - assert (wlp (Reconcile r k) (fun _ w' => exists s, in_step k t n w s w') w) as Hs.
    { eapply pass_in_step; [done|done|exact Hh'|done|by rewrite Hg]. }
    eapply wp_mono; [apply (wp_and_wlp _ _ _ _ Hd Hs)|]. cbn [reconcile_spec]. rewrite Hm.
    intros res w' [(Hu & es & Ht & Hps) (s & es' & old & m & Ht' & Hh2 & _ & _ & Hset & Hn)].
    rewrite Ht in Ht'. apply app_inv_head in Ht' as <-. split; [done|]. exists old, m.
    split; [done|]. eapply in_step_advanced; try done.
    + unfold settled, accepted in *. by rewrite writes_visible.
    + unfold refused in *. by rewrite writes_visible.
  - pose proof (pass_out_of_step r Hrts Hcalm k t m w t' Hh' Hg Hst) as Hs.
    eapply wp_mono; [apply (wp_and_wlp _ _ _ _ Hd Hs)|]. cbn [reconcile_spec].
    destruct Hst as (_ & _ & Hspec & Hts). rewrite (mine_spec _ _ Hm Hspec Hts).
    intros res w' [(Hu & es & Ht & Hps) (s & es' & p & Ht' & Hh2 & _ & _ & _ & Ha & Hn)].
    rewrite Ht in Ht'. apply app_inv_head in Ht' as <-. split; [done|]. exists t, p.
    split; [done|]. apply troubled; [done| |done|lia]. unfold requeued.
    destruct (snd res) eqn:Hres; [done|]. exfalso.
    destruct (pass_accepted _ _ _ _ Hps Hres) as [x Hx]. rewrite writes_visible in Hx.
    apply last_accepted in Hx. by rewrite Ha in Hx.
  - destruct Hlaw as (Hnf & m & Hlt & Hh').
    assert (wlp (Reconcile r k) (fun _ w' => exists s, in_step k t m w s w') w) as Hs.
    { eapply pass_in_step; [done|done|exact Hh'|done|by rewrite Hg]. }
    eapply wp_mono; [apply (wp_and_wlp _ _ _ _ Hd Hs)|]. cbn [reconcile_spec]. rewrite Hnf.
    intros res w' [(Hu & es & Ht & (x & Hes & ->)) (s & es' & old & p & Ht' & Hh2 & _ & _ & Hset & Hn)].
    rewrite Ht in Ht'. apply app_inv_head in Ht' as <-. split; [done|]. exists old, p.
    split; [done|]. apply troubled; [done|done| |lia].
    unfold settled, accepted in Hset. rewrite <- writes_visible, Hes in Hset. exact Hset.
Qed.

(** [C6] The queue drains.  Let the server hold a pending task, with at most [n]
    refused requests or stale reads to come and no other writer.  Then
    [attempts_left] plus [n] calls of [Reconcile] are enough: the last one does
    not ask for another, and the server then holds the task, of the same
    specification, at its end, COMPLETED exactly when every step is finished. *)
Theorem queue_drains k t n (w : World E) :
  uuid_ok w -> holds k t n (w_ext w) -> pending t ->
  wp (drive (Z.to_nat (attempts_left t) + n) k) (fun b w' => b = true /\
    exists t' m, holds k t' m (w_ext w') /\ t_Spec t' = t_Spec t /\ terminal t' = true /\
      (t_Phase (t_Status t') = SnapshotPodTaskPhaseCompleted <-> forall x, finished x t' = true)) w.
Proof using Hrts Hcalm laws.
  remember (Z.to_nat (attempts_left t) + n)%nat as fuel eqn:Hf.
  assert (attempts_left t + Z.of_nat n <= Z.of_nat fuel) as Hfuel by lia. clear Hf.
  revert t n w Hfuel. induction fuel as [|fuel IH]; intros t n w Hfuel Hw Hh Hp.
  { pose proof Hp as (Hm & _). apply mine_open, open_left in Hm. lia. }
  cbn [drive]. apply wp_bind. eapply wp_mono; [by apply pass_advances|].
  intros res w' (Hu & t' & m & Hh' & Hs & Hadv). destruct (requeued res).
  - destruct Hadv as [Hp' Hlt]. eapply wp_mono.
    + apply (IH t' m w'); [lia|intros i; rewrite Hu; apply Hw|done|done].
    + intros b w2 (-> & t2 & m2 & Hh2 & Hs2 & Hend). split; [done|]. exists t2, m2.
      rewrite Hs2. exact (conj Hh2 (conj Hs Hend)).
  - apply wp_ret. split; [done|]. exists t', m. exact (conj Hh' (conj Hs Hadv)).
Qed.
End Queue.

(** ** A concrete queue *)

Module QueueWitnesses.
Import Fixtures.Std StdSys TaskWitnesses.

(** The concrete server: its script of faults is its trouble, and no fault says
    that the task is gone. *)
Definition honest_fault (f : option GoError) : bool :=
  match f with Some e => negb (IsNotFound e) | None => true end.

Definition holds_std (k : key) (t : SnapshotPodTask) (n : nat) (s : Store) : Prop :=
  meta_key (t_meta t) = k /\ st_tasks s !! k = Some t /\
  forallb honest_fault (st_faults s) = true /\ (length (omap id (st_faults s)) <= n)%nat.

(** A request that works on the tasks as [f] does, or is refused. *)
Lemma request_inv {A} (f : Store -> result A * Store) k t n s r s' :
  holds_std k t n s -> request f s = (r, s') ->
  (exists e m, r = inr e /\ IsNotFound e = false /\ (m < n)%nat /\ holds_std k t m s') \/
  (exists s0, holds_std k t n s0 /\ f s0 = (r, s')).
Proof.
  intros (Hk & Ht & Hf & Hn) Hr. unfold request in Hr.
  destruct (st_faults s) as [|[e|] fs] eqn:Hs; [right; exists s|left|right]; cbn in *.
  - split; [|done]. unfold holds_std. by rewrite Hs.
  - apply andb_true_iff in Hf as [He%negb_true_iff Hf]. injection Hr as <- <-.
    exists e, (length (omap id fs)). by split_and!.
  - exists (with_faults fs s). by split_and!.
Qed.

#[export, program] Instance server_std : TaskServer Store := {| holds := holds_std |}.
Next Obligation. by intros k t n e (? & _). Qed.
Next Obligation.
  intros k t n e r e' Hh Hr. cbn in Hr.
  apply (request_inv _ _ _ _ _ _ _ Hh) in Hr as [(err & m & -> & ? & ? & ?)|(s0 & Hs0 & [= <- <-])].
  - split; [done|]. by exists m.
  - pose proof Hs0 as (_ & Ht & _). unfold lookup_or_404. rewrite Ht. by left.
Qed.
Next Obligation.
  intros k t n e s r e' Hh Hk Hs Hr. cbn in Hr.
  apply (request_inv _ _ _ _ _ _ _ Hh) in Hr as [(err & m & -> & _ & ? & ?)|(s0 & Hs0 & Hf)].
  - exists m. split_and!; [lia|done..].
  - pose proof Hs0 as (Hk0 & Ht & Hf0 & Hn). unfold store_status_task in Hf. rewrite Hk, Ht in Hf.
    rewrite (bool_decide_true (t_Spec t = t_Spec s)), andb_true_r in Hf by done.
    case_bool_decide as Hm; injection Hf as <- <-.
    + split; [done|]. split_and!; try done. cbn. by rewrite lookup_insert_eq.
    + exists n. split_and!; [lia|by intros ?|done].
Qed.
Next Obligation.
  intros k t n sec e Hh. cbn. destruct (request _ e) as [r e'] eqn:Hr.
  apply (request_inv _ _ _ _ _ _ _ Hh) in Hr as [(err & m & -> & _ & Hlt & Hk & Ht & Hf & Hn)
    |(s0 & Hs0 & [= <- <-])]; [|done].
  split_and!; try done. cbn. lia.
Qed.

#[export] Instance sys_std_calm : SysCalm (sys := sys_std).
Proof.
  assert (forall A (f : Store -> result A * Store) k t n s, (forall s, snd (f s) = s) ->
    holds_std k t n s -> holds_std k t n (snd (request f s))) as Hreq.
  { intros A f k t n s Hf Hh. destruct (request f s) as [r s'] eqn:Hr.
    apply (request_inv _ _ _ _ _ _ _ Hh) in Hr as [(err & m & -> & _ & Hlt & Hk & Ht & Hfs & Hn)
      |(s0 & Hs0 & Heq)].
    - split_and!; try done. cbn. lia.
    - apply (f_equal snd) in Heq. rewrite Hf in Heq. cbn in *. by subst. }
  split.
  - intros k t n ctx cmd args stdin env e Hh. cbn. unfold std_exec.
    apply (Hreq _ (fun s => (inl tt, s))) in Hh; [|done]. by destruct (request _ e) as [[?|?] ?].
  - intros k t n a b e. by apply Hreq.
  - intros k t n a b e Hh. cbn. apply (Hreq _ (fun s => (inl tt, s))) in Hh; [|done].
    by destruct (request _ e).
  - done.
Qed.

Lemma r0_calm : runtimes_calm r0.
Proof.
  intros k rt. unfold r0. cbn. intros [[_ <-]|[_ [_ <-]%lookup_singleton_Some]]%lookup_insert_Some.
  - apply docker_calm.
  - apply containerd_calm.
Defined.

(** The third request, a status update, is refused and so is a later command: the
    task is done after three passes. *)
Definition refusing : World Store :=
  world_of task0 [None; None; Some conflict; None; None; None; Some (Errorf "exit status 1")].

Example three_passes :
  fst (drive r0 2 task_key refusing) = Ret false /\
  fst (drive r0 3 task_key refusing) = Ret true /\
  t_Phase (t_Status (default task0 (st_tasks (w_ext (snd (drive r0 3 task_key refusing))) !! task_key)))
    = SnapshotPodTaskPhaseCompleted.
Proof. vm_compute. by split_and!. Qed.

Lemma queue_drains_witness :
  wp (drive r0 (Z.to_nat (attempts_left task0) + 2) task_key) (fun b w' => b = true /\
    exists t' m, holds task_key t' m (w_ext w') /\ t_Spec t' = t_Spec task0 /\ terminal t' = true /\
      (t_Phase (t_Status t') = SnapshotPodTaskPhaseCompleted <-> forall x, finished x t' = true))
    refusing.
Proof.
  apply (queue_drains r0 r0_runtimes r0_calm task_key task0 2 refusing).
  - apply world_uuid.
  - split; [reflexivity|]. split; [reflexivity|]. split; [reflexivity|]. vm_compute. lia.
  - split; [reflexivity|]. split; [apply r0_id|]. split; [apply own0|apply counters0].
Defined.
End QueueWitnesses.
