(* ===== verification/Webhook.v ===== *)
(** * The pod webhook ([internal/webhooks/pod.go])

    A mutating admission handler.  When a pod is deleted it starts a new
    snapshot round of the SnapshotPod that targets it; when a pod is created it
    replaces the images of its containers by snapshots.

    Decoding the raw object of a request into a pod is a parameter ([PodJson]).
    The range loop over the patch map and the unstable sort of the runs see an
    order the world chooses. *)

From S2P Require Import Prelude GoStrings ApiTypes World Lo Cluster Store Fixtures.
From Stdlib Require Import Ascii.

(** ** admissionv1 and jsonpatch *)

Record GroupVersionResource := { gvr_Group : string; gvr_Version : string; gvr_Resource : string }.

#[global] Instance GroupVersionResource_eq_dec : EqDecision GroupVersionResource.
Proof. solve_decision. Defined.

Definition OperationCreate : string := "CREATE".
Definition OperationDelete : string := "DELETE".

Record Request := {
  req_UID : string;
  req_Resource : GroupVersionResource;
  req_Operation : string;
  req_Object : string;      (* Object.Raw *)
  req_OldObject : string    (* OldObject.Raw *)
}.

(** The values the patches carry: an image, one [LocalObjectReference], a list of them. *)
Inductive PatchValue :=
| VString (s : string)
| VRef (name : string)
| VRefs (names : list string).

Record PatchOp := { op_Operation : string; op_Path : string; op_Value : PatchValue }.

(** [admission.Allowed], [admission.Errored], and a response with patches. *)
Inductive Response :=
| Allowed (message : string)
| Errored (code : Z) (err : GoError)
| Patched (uid : string) (patches : list PatchOp).

(** [json.Unmarshal] into a [corev1.Pod]. *)
Class PodJson := json_Unmarshal_Pod : string -> result Pod.

(** ** Definitions *)

Record imageConfig := { image : string; pullSecret : string }.

#[global] Instance imageConfig_eq_dec : EqDecision imageConfig.
Proof. solve_decision. Defined.

Section Defs.
Context {E : Type} {lib : Lo} {kl : KubeLib} {kc : KubeClient E} {pj : PodJson}.

(** The closure of [lo.Find] in both handlers. *)
Definition targets (pod : Pod) (item : SnapshotPod) : bool :=
  let target := sp_Target (sp_Spec item) in
  if bool_decide (tp_Name target <> "")
  then bool_decide (tp_Name target = Name (pod_meta pod))
  else
    match tp_Selector target, Labels (pod_meta pod) with
    | Some sel, Some labels =>
        lo_EveryBy (lo_Entries sel)
          (fun entry => bool_decide (map_get (Some labels) (fst entry) = snd entry))
    | _, _ => false
    end.

Definition handlePodUpdate (ns : string) (pod : Pod) : M E (Z * option GoError) :=
  l ← List_SnapshotPods None ns;
  match l with
  | inr err => mret (0, Some err)
  | inl items =>
      match lo_Find items (targets pod) with
      | None => mret (0, None)
      | Some sp =>
          if negb (aso_AutoSaveOnTermination (sp_AutoSaveOptions (sp_Spec sp)))
          then mret (0, None)
          else
            let sp := set_Spec (set_TriggerRound (int32_succ (sp_TriggerRound (sp_Spec sp)))
                                  (sp_Spec sp)) sp in
            '(sp, err) ← Update_SnapshotPod sp;
            mret (sp_TriggerRound (sp_Spec sp), err)
      end
  end.

Definition image_config (sp : SnapshotPod) (item : SnapshotRunningStatus) : imageConfig :=
  {| image := run_ImageRef item;
     pullSecret := iso_RegistrySecretRef (sp_ImageSaveOptions (sp_Spec sp)) |}.

(** The case [RecoveryRound > 0]: the runs of that round. *)
Definition recover_round (sp : SnapshotPod) : gmap string imageConfig :=
  lo_ForEach
    (lo_Filter (sp_Snapshots (sp_Status sp))
       (fun item _ => bool_decide (run_TriggerRound item = sp_RecoveryRound (sp_Spec sp))))
    (fun out item => <[run_ContainerName item := image_config sp item]> out) ∅.

(** The case [RecoveryRound == 0]: per container, the first run that succeeded in
    the sorted list. *)
Definition newer (a b : SnapshotRunningStatus) : bool :=
  bool_decide (run_TriggerRound a > run_TriggerRound b).

Definition recover_latest (sp : SnapshotPod) (sorted : list SnapshotRunningStatus)
    : gmap string imageConfig :=
  lo_ForEach sorted
    (fun out item =>
       match out !! run_ContainerName item with
       | Some _ => out
       | None =>
           if bool_decide (run_Result item = SnapshotRunningResultSuccess)
           then <[run_ContainerName item := image_config sp item]> out else out
       end) ∅.

Definition handlePodCreate (pod : Pod) : M E (gmap string imageConfig * bool) :=
  l ← List_SnapshotPods None (Namespace (pod_meta pod));
  match l with
  | inr _ => mret (∅, false)
  | inl items =>
      match lo_Find items (targets pod) with
      | None => mret (∅, false)
      | Some sp =>
          if bool_decide (sp_RecoveryRound (sp_Spec sp) > 0) then
            let out := recover_round sp in
            mret (out, Nat.ltb 0 (size out))
          else if bool_decide (sp_RecoveryRound (sp_Spec sp) = 0) then
            sorted ← sort_slice newer (sp_Snapshots (sp_Status sp));
            let out := recover_latest sp sorted in
            mret (out, Nat.ltb 0 (size out))
          else mret (∅, false)
      end
  end.

(** The operations for one container of the pod and one entry of the patch map. *)
Definition container_patches (secrets : list string) (i : nat) (ic : imageConfig)
    : list PatchOp :=
  {| op_Operation := "replace";
     op_Path := "/spec/containers/" +:+ Itoa (Z.of_nat i) +:+ "/image";
     op_Value := VString (image ic) |} ::
  (if bool_decide (pullSecret ic <> "") && negb (lo_Contains secrets (pullSecret ic)) then
     if bool_decide (length secrets = 0%nat)
     then [{| op_Operation := "add"; op_Path := "/spec/imagePullSecrets";
              op_Value := VRefs [pullSecret ic] |}]
     else [{| op_Operation := "add"; op_Path := "/spec/imagePullSecrets/-";
              op_Value := VRef (pullSecret ic) |}]
   else []).

(** The inner loop, over the containers from index [i] on. *)
Fixpoint entry_patches (secrets : list string) (name : string) (ic : imageConfig) (i : nat)
    (containers : list Container) : list PatchOp :=
  match containers with
  | [] => []
  | c :: l =>
      (if bool_decide (ctr_Name c = name) then container_patches secrets i ic else []) ++
      entry_patches secrets name ic (S i) l
  end.

(** The outer loop, over the entries of the map in the order of this run. *)
Definition patch_ops (pod : Pod) (entries : list (string * imageConfig)) : list PatchOp :=
  mjoin (map (fun e => entry_patches (pod_ImagePullSecrets (pod_Spec pod)) (fst e) (snd e) 0
                         (pod_Containers (pod_Spec pod))) entries).

Definition podGVR : GroupVersionResource :=
  {| gvr_Group := ""; gvr_Version := "v1"; gvr_Resource := "pods" |}.

Definition Handle (request : Request) : M E Response :=
  if bool_decide (req_Resource request <> podGVR) then mret (Allowed "not pod")
  else if bool_decide (req_Operation request = OperationDelete) then
    match json_Unmarshal_Pod (req_OldObject request) with
    | inr err => mret (Errored 500 err)
    | inl pod =>
        if negb (timeptr_IsZero (DeletionTimestamp (pod_meta pod)))
        then mret (Allowed "already handled")
        else
          '(round, _) ← handlePodUpdate (Namespace (pod_meta pod)) pod;
          mret (Allowed ("new round: " +:+ Itoa round))
    end
  else if bool_decide (req_Operation request = OperationCreate) then
    match json_Unmarshal_Pod (req_Object request) with
    | inr err => mret (Errored 500 err)
    | inl pod =>
        '(patchMap, needPatch) ← handlePodCreate pod;
        if negb needPatch then mret (Allowed "no need to patch")
        else
          entries ← range_map patchMap;
          mret (Patched (req_UID request) (patch_ops pod entries))
    end
  else mret (Allowed "allowed").
End Defs.

(** ** What the patches mean

    The effect of the operations on the containers and the pull secrets of the
    pod, after RFC 6902: "replace" needs an existing target, "add" to an object
    member sets it, "add" to the index "-" of an array appends to it, and an
    absent (empty) array has no indices. *)

Definition pod_view : Type := list Container * list string.

Definition image_path (i : nat) : string :=
  "/spec/containers/" +:+ Itoa (Z.of_nat i) +:+ "/image".

Definition set_image (img : string) (c : Container) : Container :=
  {| ctr_Name := ctr_Name c; ctr_Image := img |}.

Definition apply_op (op : PatchOp) (v : pod_view) : option pod_view :=
  let '(cs, secrets) := v in
  if bool_decide (op_Operation op = "replace") then
    i ← find_index (fun i => bool_decide (op_Path op = image_path i)) (seq 0 (length cs));
    match op_Value op with
    | VString img => Some (alter (set_image img) i cs, secrets)
    | _ => None
    end
  else if bool_decide (op_Operation op = "add") then
    match op_Value op with
    | VRefs names =>
        if bool_decide (op_Path op = "/spec/imagePullSecrets") then Some (cs, names) else None
    | VRef name =>
        if bool_decide (op_Path op = "/spec/imagePullSecrets/-") && negb (Nat.eqb (length secrets) 0)
        then Some (cs, secrets ++ [name]) else None
    | VString _ => None
    end
  else None.

Fixpoint apply_ops (ops : list PatchOp) (v : pod_view) : option pod_view :=
  match ops with
  | [] => Some v
  | op :: ops => v' ← apply_op op v; apply_ops ops v'
  end.

(** The containers with the images of the map. *)
Definition recovered (m : gmap string imageConfig) (c : Container) : Container :=
  match m !! ctr_Name c with Some ic => set_image (image ic) c | None => c end.

(** The pull secrets when [n] containers are replaced. *)
Definition secrets_after (secrets : list string) (s : string) (n : nat) : list string :=
  if bool_decide (s = "") || bool_decide (s ∈ secrets) || Nat.eqb n 0 then secrets
  else if Nat.eqb (length secrets) 0 then [s] else secrets ++ replicate n s.

Lemma apply_ops_app ops ops' v :
  apply_ops (ops ++ ops') v = (v' ← apply_ops ops v; apply_ops ops' v').
Proof.
  revert v. induction ops as [|op ops IH]; intros v; cbn; [done|].
  destruct (apply_op op v); cbn; [apply IH|done].
Qed.

Lemma image_path_inj i j : image_path i = image_path j -> i = j.
Proof.
  unfold image_path. intros H. apply string_app_inj_l, string_app_inj_r, Itoa_inj in H. lia.
Qed.

Lemma find_image_path i n :
  (i < n)%nat -> find_index (fun j => bool_decide (image_path i = image_path j)) (seq 0 n) = Some i.
Proof.
  intros Hi. destruct (find_index _ _) as [k|] eqn:Hf.
  - apply find_index_Some in Hf as (j & Hj & Heq%bool_decide_eq_true & _).
    apply lookup_seq in Hj as [-> _]. apply image_path_inj in Heq. by subst.
  - exfalso. rewrite find_index_None in Hf. specialize (Hf i).
    rewrite bool_decide_true in Hf by done. discriminate Hf. apply elem_of_seq. lia.
Qed.

Section Patches.
Context {lib : Lo}.
Variable secrets : list string.
Variable s : string.

(** One step of the pull secrets. *)
Definition push_secret (sec : list string) : list string :=
  if bool_decide (s = "") || bool_decide (s ∈ secrets) then sec
  else if Nat.eqb (length secrets) 0 then [s] else sec ++ [s].

Lemma apply_container_patches pre c suf sec (ic : imageConfig) :
  pullSecret ic = s -> (length secrets <> 0 -> length sec <> 0)%nat ->
  apply_ops (container_patches secrets (length pre) ic) (pre ++ c :: suf, sec) =
  Some (pre ++ set_image (image ic) c :: suf, push_secret sec).
Proof.
  intros Hs Hsec. unfold container_patches, push_secret. cbn [apply_ops].
  unfold apply_op at 1. cbn [op_Operation op_Path op_Value].
  fold (image_path (length pre)).
  change (bool_decide ("replace" = "replace")) with true. cbv iota.
  rewrite find_image_path by (rewrite length_app; cbn; lia). cbn [mbind option_bind].
  rewrite alter_app_r_alt, Nat.sub_diag by lia. cbn [alter list_alter].
  rewrite lo_Contains_law, Hs.
  destruct (decide (s = "")) as [H1|H1]; [|].
  { rewrite (bool_decide_true (s = "")), (bool_decide_false (s <> "")) by tauto. done. }
  rewrite (bool_decide_false (s = "")), (bool_decide_true (s <> "")) by done.
  case_bool_decide as H2; [done|]. cbn [negb andb orb].
  destruct (decide (length secrets = 0%nat)) as [H3|H3].
  - rewrite (bool_decide_true (length secrets = _)), H3 by done. done.
  - rewrite (bool_decide_false (length secrets = _)) by done.
    rewrite (proj2 (Nat.eqb_neq _ _) H3). cbn [apply_ops]. unfold apply_op.
    cbn [op_Operation op_Path op_Value]. rewrite bool_decide_false, !bool_decide_true by done.
    by rewrite (proj2 (Nat.eqb_neq _ _) (Hsec H3)).
Qed.

Lemma push_secret_length sec :
  (length secrets <> 0 -> length sec <> 0)%nat ->
  (length secrets <> 0 -> length (push_secret sec) <> 0)%nat.
Proof using Type.
  unfold push_secret. intros H Hs. destruct (_ || _); [by apply H|].
  destruct (Nat.eqb _ 0); [done|]. rewrite length_app. cbn. lia.
Qed.

Definition apply_entry (e : string * imageConfig) (c : Container) : Container :=
  if bool_decide (ctr_Name c = fst e) then set_image (image (snd e)) c else c.

Definition named (k : string) (c : Container) : bool := bool_decide (ctr_Name c = k).
Definition count_named (k : string) (l : list Container) : nat := length (List.filter (named k) l).

Lemma apply_entry_patches k ic pre suf cs sec :
  pullSecret ic = s -> map ctr_Name cs = map ctr_Name suf ->
  (length secrets <> 0 -> length sec <> 0)%nat ->
  apply_ops (entry_patches secrets k ic (length pre) suf) (pre ++ cs, sec) =
  Some (pre ++ map (apply_entry (k, ic)) cs, Nat.iter (count_named k suf) push_secret sec).
Proof using Type.
  intros Hs. revert pre cs sec. induction suf as [|c suf IH]; intros pre [|c' cs] sec Hn Hsec;
    try done.
  injection Hn as Hc Hn. cbn [entry_patches map]. rewrite apply_ops_app.
  unfold count_named, apply_entry at 1. cbn [List.filter fst snd]. unfold named at 1.
  rewrite Hc. replace (S (length pre)) with (length (pre ++ [c']))
    by (rewrite length_app; cbn; lia).
  assert (forall (x : Container) l, pre ++ x :: l = (pre ++ [x]) ++ l) as Hcons
    by (intros; by rewrite <- app_assoc).
  case_bool_decide as Hk.
  - rewrite apply_container_patches by done. cbn [mbind option_bind].
    replace (length (pre ++ [c'])) with (length (pre ++ [set_image (image ic) c']))
      by (rewrite !length_app; done).
    rewrite (Hcons _ cs), IH by (try done; by apply push_secret_length).
    cbn [length]. rewrite Nat.iter_succ_r. by rewrite <- app_assoc.
  - cbn [apply_ops mbind option_bind]. rewrite (Hcons _ cs), IH by done. by rewrite <- app_assoc.
Qed.

Lemma iter_push_length n sec :
  (length secrets <> 0 -> length sec <> 0)%nat ->
  (length secrets <> 0 -> length (Nat.iter n push_secret sec) <> 0)%nat.
Proof using Type.
  intros H. induction n as [|n IH]; [done|]. cbn [Nat.iter]. by apply push_secret_length.
Qed.

Lemma apply_entry_names e cs : map ctr_Name (map (apply_entry e) cs) = map ctr_Name cs.
Proof using Type.
  rewrite map_map. apply map_ext. intros c. unfold apply_entry. by case_bool_decide.
Qed.

Definition apply_entries (entries : list (string * imageConfig)) (c : Container) : Container :=
  foldl (fun c e => apply_entry e c) c entries.
Definition count_entries (entries : list (string * imageConfig)) (l : list Container) : nat :=
  foldr (fun e n => n + count_named (fst e) l)%nat O entries.

Lemma apply_patch_ops pod entries cs sec :
  pod_ImagePullSecrets (pod_Spec pod) = secrets ->
  (forall e, e ∈ entries -> pullSecret (snd e) = s) ->
  map ctr_Name cs = map ctr_Name (pod_Containers (pod_Spec pod)) ->
  (length secrets <> 0 -> length sec <> 0)%nat ->
  apply_ops (patch_ops pod entries) (cs, sec) =
  Some (map (apply_entries entries) cs,
        Nat.iter (count_entries entries (pod_Containers (pod_Spec pod))) push_secret sec).
Proof using Type.
  intros Hp. revert cs sec. induction entries as [|[k ic] entries IH]; intros cs sec Hs Hn Hsec.
  { cbn. unfold apply_entries. cbn. by rewrite map_id. }
  unfold patch_ops in *. cbn [map mjoin list_join fst snd]. rewrite apply_ops_app, Hp.
  pose proof (apply_entry_patches k ic [] (pod_Containers (pod_Spec pod)) cs sec
                (Hs (k, ic) (list_elem_of_here _ _)) Hn Hsec) as H1.
  cbn [length app] in H1. rewrite H1. clear H1.
  cbn [mbind option_bind app]. rewrite Hp in IH. rewrite IH.
  - rewrite map_map. cbn [count_entries foldr fst]. fold (count_entries entries).
    by rewrite Nat.iter_add.
  - intros e He. by apply Hs, list_elem_of_further.
  - by rewrite apply_entry_names.
  - by apply iter_push_length.
Qed.

Lemma iter_push_secrets n : Nat.iter n push_secret secrets = secrets_after secrets s n.
Proof using Type.
  unfold secrets_after. destruct (bool_decide (s = "") || bool_decide (s ∈ secrets)) eqn:Hb; cbn [orb].
  { induction n as [|n IH]; [done|]. rewrite Nat.iter_succ, IH. unfold push_secret.
    by rewrite Hb. }
  destruct n as [|n]; [done|]. cbn [Nat.eqb].
  destruct (Nat.eqb (length secrets) 0) eqn:H0.
  - rewrite Nat.iter_succ. unfold push_secret at 1. by rewrite Hb, H0.
  - assert (forall k, Nat.iter k push_secret secrets = secrets ++ replicate k s) as ->; [|done].
    induction k as [|k IH]; [by rewrite app_nil_r|]. rewrite Nat.iter_succ, IH.
    unfold push_secret. rewrite Hb, H0, <- app_assoc. f_equal. by rewrite <- replicate_cons_app.
Qed.
End Patches.

Lemma apply_entries_other entries c :
  (ctr_Name c ∉ map fst entries) -> apply_entries entries c = c.
Proof.
  unfold apply_entries. revert c. induction entries as [|e entries IH]; intros c Hn; cbn; [done|].
  apply not_elem_of_cons in Hn as [He Hn]. unfold apply_entry at 2.
  rewrite bool_decide_false by done. by apply IH.
Qed.

Lemma apply_entries_lookup entries c :
  NoDup (map fst entries) -> apply_entries entries c = recovered (list_to_map entries) c.
Proof.
  induction entries as [|[k ic] entries IH]; intros Hnd; cbn in *.
  { unfold recovered. by rewrite lookup_empty. }
  apply NoDup_cons in Hnd as [Hk Hnd]. unfold apply_entries, recovered. cbn.
  unfold apply_entry at 2. cbn [fst snd]. case_bool_decide as Hc.
  - rewrite <- Hc, lookup_insert_eq. fold (apply_entries entries (set_image (image ic) c)).
    apply apply_entries_other. cbn. by rewrite Hc.
  - rewrite lookup_insert_ne by done. by apply IH.
Qed.

Lemma count_entries_dom entries l :
  NoDup (map fst entries) ->
  count_entries entries l =
  length (List.filter (fun c => bool_decide (ctr_Name c ∈ map fst entries)) l).
Proof.
  intros Hnd. induction entries as [|[k ic] entries IH]; cbn [count_entries foldr map fst] in *.
  { induction l as [|c l IHl]; [done|]. cbn. by rewrite bool_decide_false by apply not_elem_of_nil. }
  apply NoDup_cons in Hnd as [Hk Hnd]. fold (count_entries entries l). rewrite IH by done.
  clear IH. unfold count_named. induction l as [|c l IHl]; [done|]. cbn [List.filter].
  unfold named at 1. destruct (decide (ctr_Name c = k)) as [Hc|Hc].
  - rewrite (bool_decide_true (ctr_Name c = k)) by done.
    rewrite (bool_decide_false (ctr_Name c ∈ map fst entries)) by (by rewrite Hc).
    rewrite bool_decide_true by (rewrite Hc; apply list_elem_of_here). cbn [length]. lia.
  - rewrite (bool_decide_false (ctr_Name c = k)) by done.
    destruct (decide (ctr_Name c ∈ map fst entries)) as [Hin|Hin].
    + rewrite (bool_decide_true (ctr_Name c ∈ map fst entries)) by done.
      rewrite bool_decide_true by (by apply list_elem_of_further). cbn [length]. lia.
    + rewrite (bool_decide_false (ctr_Name c ∈ map fst entries)) by done.
      rewrite bool_decide_false; [done|]. by apply not_elem_of_cons.
Qed.

(** The operations of the webhook, for any order of the map. *)
Lemma patch_ops_apply {lib : Lo} (pod : Pod) (m : gmap string imageConfig) entries s :
  entries ≡ₚ map_to_list m -> map_Forall (fun _ ic => pullSecret ic = s) m ->
  apply_ops (patch_ops pod entries)
    (pod_Containers (pod_Spec pod), pod_ImagePullSecrets (pod_Spec pod)) =
  Some (map (recovered m) (pod_Containers (pod_Spec pod)),
        secrets_after (pod_ImagePullSecrets (pod_Spec pod)) s
          (length (List.filter (fun c => bool_decide (is_Some (m !! ctr_Name c)))
                               (pod_Containers (pod_Spec pod))))).
Proof.
  intros Hp Hs. assert (NoDup (map fst entries)) as Hnd.
  { change (map fst entries) with (entries.*1). rewrite Hp. apply NoDup_fst_map_to_list. }
  assert (list_to_map entries = m) as Hm.
  { rewrite <- (list_to_map_to_list m). by apply list_to_map_proper. }
  erewrite (apply_patch_ops _ s); [|done| |done|done].
  2: { intros [k ic] He. rewrite Hp in He. apply elem_of_map_to_list in He. by apply (Hs k). }
  rewrite iter_push_secrets, count_entries_dom by done. f_equal. f_equal.
  - apply map_ext. intros c. by rewrite apply_entries_lookup, Hm.
  - f_equal. f_equal. apply filter_ext. intros c. apply bool_decide_ext. rewrite <- Hm.
    change (map fst entries) with (entries.*1). split.
    + intros Hin. destruct (list_to_map (M := gmap string imageConfig) entries !! ctr_Name c) eqn:E; [done|].
      by apply not_elem_of_list_to_map in E.
    + intros [ic Hic]. apply elem_of_list_to_map_2 in Hic. apply list_elem_of_fmap. by exists (ctr_Name c, ic).
Qed.

(** ** Which snapshots are recovered *)

Section Recovery.
Context {lib : Lo}.
Implicit Types sp : SnapshotPod.
Implicit Types run : SnapshotRunningStatus.

Definition succeeded (c : string) run : bool :=
  bool_decide (run_ContainerName run = c) &&
  bool_decide (run_Result run = SnapshotRunningResultSuccess).

(** Per container the images that [RecoveryRound] asks for: those of the round it
    names (the last one listed), or those of the last round that succeeded. *)
Definition recovery_spec sp (m : gmap string imageConfig) : Prop :=
  let runs := sp_Snapshots (sp_Status sp) in
  let round := sp_RecoveryRound (sp_Spec sp) in
  if bool_decide (round > 0) then
    forall c, m !! c = image_config sp <$>
      List.find (fun run => bool_decide (run_ContainerName run = c) &&
                            bool_decide (run_TriggerRound run = round)) (rev runs)
  else
    round = 0 /\ forall c,
    match m !! c with
    | Some ic => exists run, run ∈ runs /\ succeeded c run = true /\ ic = image_config sp run /\
        forall run', run' ∈ runs -> succeeded c run' = true ->
          run_TriggerRound run' <= run_TriggerRound run
    | None => forall run, run ∈ runs -> succeeded c run = false
    end.

Lemma find_filter {A} (f g : A -> bool) l :
  List.find f (List.filter g l) = List.find (fun x => f x && g x) l.
Proof using Type.
  induction l as [|x l IH]; cbn; [done|]. destruct (g x) eqn:Hg; cbn; rewrite ?IH.
  - by rewrite andb_true_r.
  - by rewrite andb_false_r.
Qed.

Lemma rev_filter {A} (g : A -> bool) l : rev (List.filter g l) = List.filter g (rev l).
Proof using Type.
  induction l as [|x l IH]; cbn; [done|]. rewrite List.filter_app. cbn.
  destruct (g x); cbn; rewrite IH; [done|by rewrite app_nil_r].
Qed.

Lemma insert_all_lookup sp (l : list SnapshotRunningStatus) c :
  foldl (fun out item => <[run_ContainerName item := image_config sp item]> out)
        (∅ : gmap string imageConfig) l !! c =
  image_config sp <$> List.find (fun run => bool_decide (run_ContainerName run = c)) (rev l).
Proof using Type.
  induction l as [|run l IH] using rev_ind; cbn; [by rewrite lookup_empty|].
  rewrite foldl_app, rev_app_distr. cbn. case_bool_decide as H.
  - rewrite <- H. by rewrite lookup_insert_eq.
  - by rewrite lookup_insert_ne.
Qed.

Lemma recover_round_lookup sp c :
  recover_round sp !! c = image_config sp <$>
    List.find (fun run => bool_decide (run_ContainerName run = c) &&
                          bool_decide (run_TriggerRound run = sp_RecoveryRound (sp_Spec sp)))
              (rev (sp_Snapshots (sp_Status sp))).
Proof using Type.
  unfold recover_round. rewrite lo_ForEach_law, lo_Filter_law, insert_all_lookup.
  by rewrite rev_filter, find_filter.
Qed.

(** What the loop keeps for a container is the first success in the list. *)
Lemma recover_latest_lookup sp l c :
  recover_latest sp l !! c = image_config sp <$> List.find (succeeded c) l.
Proof using Type.
  unfold recover_latest. rewrite lo_ForEach_law.
  match goal with |- foldl ?f _ _ !! _ = _ => set (step := f) end.
  assert (forall (m : gmap string imageConfig), foldl step m l !! c =
    match m !! c with Some ic => Some ic | None => image_config sp <$> List.find (succeeded c) l end) as H.
  { induction l as [|run l IH]; intros m; cbn [foldl List.find]; [by destruct (m !! c)|].
    rewrite IH. unfold step at 1. unfold succeeded at 2.
    destruct (decide (run_ContainerName run = c)) as [<-|Hne].
    - rewrite (bool_decide_true (run_ContainerName run = _)) by done. cbn [andb].
      destruct (m !! run_ContainerName run) as [ic|] eqn:Hm; [by rewrite Hm|].
      case_bool_decide; [by rewrite lookup_insert_eq|by rewrite Hm].
    - rewrite (bool_decide_false (run_ContainerName run = c)) by done. cbn [andb].
      destruct (m !! run_ContainerName run); [done|].
      case_bool_decide; [by rewrite lookup_insert_ne|done]. }
  by rewrite H, lookup_empty.
Qed.

(** The sort: a permutation in which no run stands before a newer one. *)
Definition newest_first : list SnapshotRunningStatus -> Prop :=
  StronglySorted (fun a b => run_TriggerRound b <= run_TriggerRound a).

Definition sort_insert run : list SnapshotRunningStatus -> list SnapshotRunningStatus :=
  fix ins l := match l with
  | [] => [run]
  | y :: l' => if newer y run then y :: ins l' else run :: l
  end.

Lemma sort_insert_perm run l : sort_insert run l ≡ₚ run :: l.
Proof using Type.
  induction l as [|y l IH]; cbn; [done|]. destruct (newer y run); [|done].
  rewrite IH. by constructor.
Qed.

Lemma sort_insert_sorted run l : newest_first l -> newest_first (sort_insert run l).
Proof using Type.
  induction 1 as [|y l Hl IH HF]; cbn.
  { by repeat constructor. }
  unfold newer. case_bool_decide as Hy.
  - constructor; [done|]. rewrite sort_insert_perm. constructor; [lia|done].
  - constructor; [by constructor|]. constructor; [lia|].
    eapply Forall_impl; [done|]. cbn. lia.
Qed.

Lemma sort_slice_sorted {E} l (w : World E) :
  wp (sort_slice newer l) (fun l' w' => l' ≡ₚ l /\ newest_first l' /\
    w_ext w' = w_ext w /\ w_trace w' = w_trace w) w.
Proof using Type.
  pose (k := permute (w_seed w (w_seed_i w)) l).
  assert (fst (sort_slice newer l w) = Ret (foldr sort_insert [] k)) as Hrun by reflexivity.
  unfold wp, post. rewrite Hrun. cbn [snd]. clear Hrun.
  assert (k ≡ₚ l) as Hk by apply permute_Permutation. clearbody k.
  split; [|split; [|done]].
  - rewrite <- Hk. clear Hk. induction k as [|x k IH]; [done|]. cbn. by rewrite sort_insert_perm, IH.
  - clear Hk. induction k as [|x k IH]; cbn; [constructor|by apply sort_insert_sorted].
Qed.

Lemma find_sorted (f : SnapshotRunningStatus -> bool) l run :
  newest_first l -> List.find f l = Some run ->
  forall run', run' ∈ l -> f run' = true -> run_TriggerRound run' <= run_TriggerRound run.
Proof using Type.
  induction 1 as [|y l Hl IH HF]; cbn; [done|]. destruct (f y) eqn:Hy.
  - intros [= ->] run' [->|Hin]%elem_of_cons _; [done|].
    rewrite Forall_forall in HF. by apply HF.
  - intros Hf run' [->|Hin]%elem_of_cons Hr; [congruence|by apply IH].
Qed.

Lemma recover_latest_spec sp l c :
  l ≡ₚ sp_Snapshots (sp_Status sp) -> newest_first l ->
  match recover_latest sp l !! c with
  | Some ic => exists run, run ∈ sp_Snapshots (sp_Status sp) /\ succeeded c run = true /\
      ic = image_config sp run /\
      forall run', run' ∈ sp_Snapshots (sp_Status sp) -> succeeded c run' = true ->
        run_TriggerRound run' <= run_TriggerRound run
  | None => forall run, run ∈ sp_Snapshots (sp_Status sp) -> succeeded c run = false
  end.
Proof using Type.
  intros Hp Hs. rewrite recover_latest_lookup. destruct (List.find _ l) as [run|] eqn:Hf; cbn.
  - pose proof (find_sorted _ _ _ Hs Hf) as Hmax. apply find_some in Hf as [Hin Hr].
    exists run. apply list_elem_of_In in Hin. rewrite <- Hp. split_and!; try done.
    intros run' Hin'. apply Hmax. by rewrite Hp.
  - intros run Hin. eapply find_none; [exact Hf|]. apply list_elem_of_In. by rewrite Hp.
Qed.

(** Every entry has the pull secret of the object. *)
Lemma recovery_secret sp m :
  recovery_spec sp m ->
  map_Forall (fun _ ic => pullSecret ic = iso_RegistrySecretRef (sp_ImageSaveOptions (sp_Spec sp))) m.
Proof using Type.
  unfold recovery_spec. intros H c ic Hc. case_bool_decide.
  - rewrite H in Hc. by apply fmap_Some in Hc as (run & _ & ->).
  - destruct H as [_ H]. specialize (H c). rewrite Hc in H.
    by destruct H as (run & _ & _ & -> & _).
Qed.

Context {E : Type} {kl : KubeLib} {kc : KubeClient E}.

Lemma handlePodCreate_spec pod (w : World E) :
  wp (handlePodCreate pod) (fun '(m, needPatch) w' => w_trace w' = w_trace w /\
    (needPatch = true -> m <> ∅ /\ exists items sp,
       fst (kc_List_SnapshotPods None (Namespace (pod_meta pod)) (w_ext w)) = inl items /\
       lo_Find items (targets pod) = Some sp /\ recovery_spec sp m)) w.
Proof using Type.
  unfold handlePodCreate, List_SnapshotPods. apply wp_bind.
  unfold wp at 1, post, external. destruct (kc_List_SnapshotPods _ _ _) as [[items|err] e]; cbn; [|done].
  destruct (lo_Find items (targets pod)) as [sp|] eqn:Hf; [|done].
  assert (forall m : gmap string imageConfig, Nat.ltb 0 (size m) = true -> m <> ∅) as Hsz.
  { intros m Hm ->. by rewrite map_size_empty in Hm. }
  unfold recovery_spec. case_bool_decide as Hr.
  { split; [done|]. intros Hn%Hsz. split; [done|]. exists items, sp. split_and!; try done.
    rewrite bool_decide_true by done. intros c. apply recover_round_lookup. }
  case_bool_decide as H0; [|done]. apply wp_bind.
  eapply wp_mono; [apply sort_slice_sorted|]. intros l w1 (Hp & Hs & _ & Ht). apply wp_ret.
  split; [done|]. intros Hn%Hsz. split; [done|]. exists items, sp. split_and!; try done.
  rewrite bool_decide_false by done. split; [done|]. intros c. by apply recover_latest_spec.
Qed.
End Recovery.

(** ** Theorems *)

(** What a request carries, once it is decoded. *)
Definition pod_request (request : Request) (op : string) : Prop :=
  req_Resource request = podGVR /\ req_Operation request = op.

Section Theorems.
Context {E : Type} {lib : Lo} {kl : KubeLib} {kc : KubeClient E} {pj : PodJson}.

(** Where the selector of the webhook is not the one of Kubernetes: an empty selector
    and a pod whose labels are nil, or an empty value for a label the pod does
    not have. *)
Definition selectors_differ (labels : option (gmap string string)) (sel : gmap string string) : Prop :=
  match labels with
  | None => sel = ∅
  | Some l => exists k, sel !! k = Some "" /\ l !! k = None
  end.

(** [C39] The webhook and the controller agree on which pods a SnapshotPod without a
    target name selects, but in two cases.  An empty selector selects a pod with nil
    labels for the controller and not for the webhook.  A selector that asks for an
    empty value of a label the pod does not have never selects it for the controller,
    and for the webhook it does when its other entries fit.  A target name decides
    alone, and without a name and a selector the webhook selects nothing. *)
Theorem targets_agree (pod : Pod) (item : SnapshotPod) :
  let target := sp_Target (sp_Spec item) in
  let labels := Labels (pod_meta pod) in
  (tp_Name target <> "" -> targets pod item = bool_decide (tp_Name target = Name (pod_meta pod))) /\
  (tp_Name target = "" -> tp_Selector target = None -> targets pod item = false) /\
  (forall sel, tp_Name target = "" -> tp_Selector target = Some sel ->
     let selected := Matches (SelectorFromSet (Some sel)) (default ∅ labels) in
     (~ selectors_differ labels sel -> targets pod item = selected) /\
     (selectors_differ labels sel ->
        match labels with
        | None => targets pod item = false /\ selected = true
        | Some l => selected = false /\
            (targets pod item = true <-> map_Forall (fun k v => default "" (l !! k) = v) sel)
        end)).
Proof using Type.
  intros target labels. unfold targets. fold target labels. split; [|split].
  - intros Hn. by rewrite bool_decide_true.
  - intros Hn Hs. by rewrite bool_decide_false, Hs by tauto.
  - intros sel Hn Hs. set (selected := Matches _ _).
    rewrite bool_decide_false by tauto. rewrite Hs.
    assert (selected = true <-> map_Forall (fun k v => default ∅ labels !! k = Some v) sel) as Hsel
      by apply SelectorFromSet_law.
    destruct labels as [l|]; cbn [selectors_differ default] in *.
    + split.
      * intros Hd. apply eq_true_iff_eq. rewrite lo_EveryBy_Entries, Hsel.
        split; intros H k v Hk; specialize (H k v Hk); cbn in *.
        -- apply bool_decide_eq_true in H. destruct (l !! k) eqn:Hl; cbn in H; [by subst|].
           destruct Hd. exists k. by subst v.
        -- apply bool_decide_eq_true. by rewrite H.
      * intros (k & Hk & Hl). split.
        -- apply not_true_is_false. rewrite Hsel. intros H. specialize (H k "" Hk). cbn in H. congruence.
        -- rewrite lo_EveryBy_Entries. split; intros H k' v Hk'; specialize (H k' v Hk'); cbn in *.
           ++ by apply bool_decide_eq_true in H.
           ++ by apply bool_decide_eq_true.
    + split.
      * intros Hne. symmetry. apply not_true_is_false. rewrite Hsel. intros H. apply Hne.
        apply map_empty. intros k. destruct (sel !! k) as [v|] eqn:Hk; [|done].
        specialize (H k v Hk). cbn in H. by rewrite lookup_empty in H.
      * intros ->. split; [done|]. apply Hsel. apply map_Forall_empty.
Qed.

(** [C9] A pod that is created gets its snapshots back.  The patches, applied to
    the pod, give every container the image that [RecoveryRound] asks for, leave
    the other containers alone and make the pull secret available; they are
    for the first SnapshotPod that targets the pod, and nothing is written. *)
Theorem Handle_create (request : Request) (pod : Pod) (w : World E) :
  pod_request request OperationCreate -> json_Unmarshal_Pod (req_Object request) = inl pod ->
  wp (Handle request) (fun resp w' => w_trace w' = w_trace w /\
    match resp with
    | Patched uid ops => uid = req_UID request /\ exists items sp m,
        fst (kc_List_SnapshotPods None (Namespace (pod_meta pod)) (w_ext w)) = inl items /\
        lo_Find items (targets pod) = Some sp /\ m <> ∅ /\ recovery_spec sp m /\
        apply_ops ops (pod_Containers (pod_Spec pod), pod_ImagePullSecrets (pod_Spec pod)) =
        Some (map (recovered m) (pod_Containers (pod_Spec pod)),
              secrets_after (pod_ImagePullSecrets (pod_Spec pod))
                (iso_RegistrySecretRef (sp_ImageSaveOptions (sp_Spec sp)))
                (length (List.filter (fun c => bool_decide (is_Some (m !! ctr_Name c)))
                                     (pod_Containers (pod_Spec pod)))))
    | Allowed _ => True
    | Errored _ _ => False
    end) w.
Proof using Type.
  intros [Hr Ho] Hj. unfold Handle. rewrite bool_decide_false by tauto.
  rewrite Ho, bool_decide_false, bool_decide_true, Hj by done.
  apply wp_bind. eapply wp_mono; [apply handlePodCreate_spec|].
  intros [m need] w1 [Ht Hm]. destruct need; [|by apply wp_ret]. cbn [negb].
  destruct (Hm eq_refl) as (Hne & items & sp & Hl & Hf & Hspec).
  apply wp_bind, wp_range_map. intros n w2 _ _ _ Ht2. apply wp_ret. rewrite Ht2, Ht.
  split; [done|]. split; [done|]. exists items, sp, m. split_and!; try done.
  apply patch_ops_apply; [by apply permute_Permutation|by apply recovery_secret].
Qed.

(** [C21] A deletion starts one new round: when the pod is not being deleted yet and
    the first SnapshotPod of the listing that targets it saves on termination, the
    handler sends one update, that object with the next trigger round and nothing else
    changed.  The next round is the one of an int32: behind the largest comes
    the smallest ([round_wraps]).  In every other case, such as a first SnapshotPod
    that does not save on termination, or a listing that fails, it sends nothing.
    The deletion is allowed, whatever the server answers. *)
Theorem Handle_delete (request : Request) (pod : Pod) (w : World E) :
  pod_request request OperationDelete -> json_Unmarshal_Pod (req_OldObject request) = inl pod ->
  wp (Handle request) (fun resp w' => (exists msg, resp = Allowed msg) /\
    match
      (if timeptr_IsZero (DeletionTimestamp (pod_meta pod))
       then match fst (kc_List_SnapshotPods None (Namespace (pod_meta pod)) (w_ext w)) with
            | inl items => lo_Find items (targets pod)
            | inr _ => None
            end
       else None)
    with
    | Some sp =>
        if aso_AutoSaveOnTermination (sp_AutoSaveOptions (sp_Spec sp))
        then exists u, w_trace w' = w_trace w ++
          [EvSpUpdate (set_Spec (set_TriggerRound (int32_succ (sp_TriggerRound (sp_Spec sp)))
                                   (sp_Spec sp)) sp) u]
        else w_trace w' = w_trace w
    | None => w_trace w' = w_trace w
    end) w.
Proof using Type.
  intros [Hr Ho] Hj. unfold Handle. rewrite bool_decide_false by tauto.
  rewrite Ho, bool_decide_true, Hj by done.
  destruct (timeptr_IsZero _); cbn [negb]; [|apply wp_ret; eauto].
  apply wp_bind. unfold handlePodUpdate, List_SnapshotPods. apply wp_bind.
  unfold wp at 1, post, external. destruct (kc_List_SnapshotPods _ _ _) as [[items|err] e]; cbn.
  2: { split; [by eexists|done]. }
  destruct (lo_Find items (targets pod)) as [sp|]; [|split; [by eexists|done]].
  destruct (aso_AutoSaveOnTermination _); cbn [negb]; [|split; [by eexists|done]].
  apply wp_bind, wp_write. intros r e' w' _ _ _ Ht.
  destruct r; apply wp_ret, wp_ret; (split; [by eexists|by eexists]).
Qed.

Definition webhook_event (e : Event) : Prop :=
  match e with EvSpUpdate _ _ => True | _ => False end.

Lemma emits_Update_SnapshotPod sp : emits (E := E) webhook_event (Update_SnapshotPod sp).
Proof using Type. by apply emits_write. Qed.

Lemma emits_handlePodUpdate ns pod : emits (E := E) webhook_event (handlePodUpdate ns pod).
Proof using Type. unfold handlePodUpdate. emits. apply emits_Update_SnapshotPod. Qed.

Lemma emits_Handle (request : Request) : emits (E := E) webhook_event (Handle request).
Proof using Type.
  unfold Handle, handlePodCreate. emits. apply emits_handlePodUpdate.
Qed.

(** [C38] The webhook never stands in the way: a request is refused only when its
    object cannot be decoded, and nothing is written unless it is the deletion
    of a pod. *)
Theorem Handle_permits (request : Request) (w : World E) :
  wp (Handle request) (fun resp w' =>
    (forall code err, resp = Errored code err ->
       code = 500 /\ req_Resource request = podGVR /\
       (json_Unmarshal_Pod (req_Object request) = inr err \/
        json_Unmarshal_Pod (req_OldObject request) = inr err)) /\
    (~ pod_request request OperationDelete -> w_trace w' = w_trace w)) w.
Proof using Type.
  unfold Handle, pod_request. case_bool_decide as Hr; [by apply wp_ret|].
  case_bool_decide as Hd.
  - destruct (json_Unmarshal_Pod (req_OldObject request)) as [pod|err] eqn:Hj.
    2: { apply wp_ret. split; [|done]. intros code err' [= <- <-]. split_and!; try done. by right. }
    destruct (negb _); [by apply wp_ret|]. apply wp_bind.
    unfold handlePodUpdate, List_SnapshotPods. apply wp_bind.
    unfold wp at 1, post, external. destruct (kc_List_SnapshotPods _ _ _) as [[items|err] e]; cbn.
    2: { split; [done|]. intros H. by destruct H. }
    destruct (lo_Find items (targets pod)) as [sp|]; [|split; [done|]; intros H; by destruct H].
    destruct (negb _); [split; [done|]; intros H; by destruct H|].
    apply wp_bind, wp_write. intros res e' w' _ _ _ Ht.
    destruct res; apply wp_ret, wp_ret; (split; [done|intros H; by destruct H]).
  - case_bool_decide as Hc; [|by apply wp_ret].
    destruct (json_Unmarshal_Pod (req_Object request)) as [pod|err] eqn:Hj.
    2: { apply wp_ret. split; [|done]. intros code err' [= <- <-]. split_and!; try done. by left. }
    apply wp_bind. eapply wp_mono; [apply handlePodCreate_spec|].
    intros [m need] w1 [Ht _]. destruct need; [|by apply wp_ret].
    apply wp_bind, wp_range_map. intros n w2 _ _ _ Ht2. apply wp_ret. split; [done|congruence].
Qed.
End Theorems.

(** ** Concrete runs *)

Module WebhookWitnesses.
Import Fixtures.Std.

(** The only object there is. *)
Definition json_pod (pod : Pod) : PodJson := fun raw =>
  if bool_decide (raw = "pod") then inl pod else inr (Errorf "invalid character").

Definition request_of (op : string) : Request :=
  {| req_UID := "uid-9"; req_Resource := podGVR; req_Operation := op;
     req_Object := "pod"; req_OldObject := "pod" |}.

Definition run_of (round : Z) (c img res : string) : SnapshotRunningStatus :=
  mkRun round fx_now "task" img c res "" None.

Definition sp_runs (recovery : Z) : SnapshotPod :=
  mkSp (fx_meta "ns" "snap") (fx_spec (fx_target "nb" []) 3 recovery)
    (mkSpStatus [run_of 1 "main" "reg.io/main:1" SnapshotRunningResultSuccess;
                 run_of 1 "side" "reg.io/side:1" SnapshotRunningResultSuccess;
                 run_of 2 "main" "reg.io/main:2" SnapshotRunningResultSuccess;
                 run_of 3 "main" "reg.io/main:3" SnapshotRunningResultFailed] [] 3).

Definition w_sp (sp : SnapshotPod) : World Store :=
  std_world fx_now (mkStore {[ fx_key := sp ]} ∅ [] ∅ 1 []).

#[local] Instance fx_json : PodJson := json_pod fx_pod.

Lemma Handle_create_witness :
  let w := w_sp (sp_runs 0) in
  wp (Handle (request_of OperationCreate)) (fun resp w' => w_trace w' = w_trace w /\
    match resp with
    | Patched uid ops => uid = "uid-9" /\ exists items sp m,
        fst (kc_List_SnapshotPods None "ns" (w_ext w)) = inl items /\
        lo_Find items (targets fx_pod) = Some sp /\ m <> ∅ /\ recovery_spec sp m /\
        apply_ops ops (pod_Containers (pod_Spec fx_pod), pod_ImagePullSecrets (pod_Spec fx_pod)) =
        Some (map (recovered m) (pod_Containers (pod_Spec fx_pod)),
              secrets_after (pod_ImagePullSecrets (pod_Spec fx_pod))
                (iso_RegistrySecretRef (sp_ImageSaveOptions (sp_Spec sp)))
                (length (List.filter (fun c => bool_decide (is_Some (m !! ctr_Name c)))
                                     (pod_Containers (pod_Spec fx_pod)))))
    | Allowed _ => True
    | Errored _ _ => False
    end) w.
Proof.
  intros w. apply (Handle_create (request_of OperationCreate) fx_pod w); [by split|reflexivity].
Defined.

(** The newest success per container; the failed round 3 is passed over. *)
Example latest_images :
  (match fst (Handle (request_of OperationCreate) (w_sp (sp_runs 0))) with
   | Ret (Patched _ ops) => fst <$> apply_ops ops (pod_Containers (pod_Spec fx_pod), [])
   | _ => None
   end) = Some [ {| ctr_Name := "main"; ctr_Image := "reg.io/main:2" |};
                 {| ctr_Name := "side"; ctr_Image := "reg.io/side:1" |} ].
Proof. vm_compute. reflexivity. Qed.

(** A round that is named is recovered even when its run has failed. *)
Example failed_round_recovered :
  recover_round (sp_runs 3) !! "main" =
  Some {| image := "reg.io/main:3"; pullSecret := "registry-secret" |}.
Proof. vm_compute. reflexivity. Qed.

(** With pull secrets in the pod, the new one is added once per container. *)
Example duplicate_secret :
  secrets_after ["other"] "registry-secret" 2 = ["other"; "registry-secret"; "registry-secret"].
Proof. reflexivity. Qed.

Lemma Handle_delete_witness :
  let w := w_sp (sp_runs 0) in
  wp (Handle (request_of OperationDelete)) (fun resp w' => (exists msg, resp = Allowed msg) /\
    match
      (if timeptr_IsZero (DeletionTimestamp (pod_meta fx_pod))
       then match fst (kc_List_SnapshotPods None (Namespace (pod_meta fx_pod)) (w_ext w)) with
            | inl items => lo_Find items (targets fx_pod)
            | inr _ => None
            end
       else None)
    with
    | Some sp =>
        if aso_AutoSaveOnTermination (sp_AutoSaveOptions (sp_Spec sp))
        then exists u, w_trace w' = w_trace w ++
          [EvSpUpdate (set_Spec (set_TriggerRound (int32_succ (sp_TriggerRound (sp_Spec sp)))
                                   (sp_Spec sp)) sp) u]
        else w_trace w' = w_trace w
    | None => w_trace w' = w_trace w
    end) w.
Proof.
  intros w. apply (Handle_delete (request_of OperationDelete) fx_pod w); [by split|reflexivity].
Defined.

(** The update is refused by the server, and the deletion goes on as if a round
    had been started. *)
Example lost_round :
  fst (Handle (request_of OperationDelete)
         (std_world fx_now (mkStore {[ fx_key := sp_runs 0 ]} ∅ [] ∅ 1 [None; Some conflict]))) =
  Ret (Allowed "new round: 4").
Proof. vm_compute. reflexivity. Qed.

(** The two matchers differ on a selector with an empty value. *)
Example empty_value_differs :
  let sel := {[ "app" := "" ]} : gmap string string in
  let labels := {[ "tier" := "web" ]} : gmap string string in
  let pod := {| pod_meta := mkMeta "nb" "ns" "" "" (Some labels) [] 0 None;
                pod_Spec := pod_Spec fx_pod; pod_Phase := PodRunning;
                pod_ContainerStatuses := [] |} in
  let sp := mkSp (fx_meta "ns" "snap")
              (fx_spec {| tp_Name := ""; tp_Selector := Some sel; tp_Containers := [] |} 1 0)
              (mkSpStatus [] [] 0) in
  targets pod sp = true /\ Matches (SelectorFromSet (Some sel)) labels = false.
Proof. vm_compute. split; reflexivity. Qed.

(** An empty selector selects everything for the controller, and a pod without
    labels it does not select for the webhook. *)
Example empty_selector_differs :
  let pod := {| pod_meta := mkMeta "nb" "ns" "" "" None [] 0 None;
                pod_Spec := pod_Spec fx_pod; pod_Phase := PodRunning;
                pod_ContainerStatuses := [] |} in
  let sp := mkSp (fx_meta "ns" "snap")
              (fx_spec {| tp_Name := ""; tp_Selector := Some ∅; tp_Containers := [] |} 1 0)
              (mkSpStatus [] [] 0) in
  targets pod sp = false /\ Matches (SelectorFromSet (Some ∅)) ∅ = true.
Proof. vm_compute. split; reflexivity. Qed.

(** The trigger round wraps around: the next round after the largest is negative. *)
Example round_wraps : int32_succ int32_max = int32_min.
Proof. reflexivity. Qed.
End WebhookWitnesses.
