(* ===== verification/Collector.v ===== *)
(** * The metrics collector ([internal/metrics/collector.go])

    Every thirty seconds it sets two gauge vectors from what the API server
    lists: the active runs of each SnapshotPod, and the tasks of each node by
    status.  The counts are float64 values that hold integers; [float_incr] and
    [float_of_int] write out what binary64 does with integers past 2^53. *)

From S2P Require Import Prelude GoStrings ApiTypes World Lo Cluster Store Fixtures Metrics.

Definition two53 : Z := 9007199254740992.

(** [x++] on a float64 that holds a non-negative integer: past 2^53 the sum is
    rounded back. *)
Definition float_incr (x : Z) : Z := if bool_decide (x < two53) then x + 1 else x.

(** [float64(n)] of a non-negative int: 53 significant bits, ties to even. *)
Definition float_of_int (n : Z) : Z :=
  if bool_decide (n < two53) then n
  else
    let k := Z.log2 n - 52 in
    let q := Z.shiftr n k in
    let r := n - Z.shiftl q k in
    let half := Z.shiftl 1 (k - 1) in
    let up := bool_decide (r > half) || (bool_decide (r = half) && Z.odd q) in
    Z.shiftl (if up then q + 1 else q) k.

Lemma float_incr_exact x : x < two53 -> float_incr x = x + 1.
Proof. intros H. unfold float_incr. by rewrite bool_decide_true. Qed.

Lemma float_of_int_exact x : x < two53 -> float_of_int x = x.
Proof. intros H. unfold float_of_int. by rewrite bool_decide_true. Qed.

(** Node name to status to count. *)
Abbreviation counts := (gmap string (gmap string Z)) (only parsing).

Section Collector.
Context {E : Type} {lib : Lo} {kl : KubeLib} {kc : KubeClient E}.

Definition run_active (item : SnapshotRunningStatus) : bool :=
  bool_decide (run_Result item = SnapshotRunningResultCreated) ||
  bool_decide (run_Result item = SnapshotRunningResultRunning).

Definition active_count (sp : SnapshotPod) : Z :=
  float_of_int (Z.of_nat (length (lo_Filter (sp_Snapshots (sp_Status sp))
                                    (fun item _ => run_active item)))).

Fixpoint set_active (items : list SnapshotPod) : M E () :=
  match items with
  | [] => mret tt
  | sp :: items =>
      SetActiveSnapshotTasks (Namespace (sp_meta sp)) (Name (sp_meta sp)) (active_count sp) ;;
      set_active items
  end.

Definition collectSnapshotPodMetrics : M E (option GoError) :=
  with_labels SnapshotTaskMetrics_Active [] ResetVec ;;
  l ← List_SnapshotPods None "";
  match l with
  | inr err => mret (Some err)
  | inl items => set_active items ;; mret None
  end.

(** The [switch] on the phase. *)
Definition task_status (phase : string) : string :=
  if bool_decide (phase = SnapshotPodTaskPhaseCompleted) then SnapshotTaskStatusSuccess
  else if bool_decide (phase = SnapshotPodTaskPhaseFailed) then SnapshotTaskStatusFailed
  else if bool_decide (phase = SnapshotPodTaskPhaseCreated) then SnapshotTaskStatusCreated
  else if bool_decide (phase = "") then SnapshotTaskStatusCreated else phase.

(** One iteration of the counting loop; a missing entry reads as zero. *)
Definition count_task (m : counts) (spt : SnapshotPodTask) : counts :=
  let nodeName := ts_NodeName (t_Spec spt) in
  let status := task_status (t_Phase (t_Status spt)) in
  let inner := default ∅ (m !! nodeName) in
  <[nodeName := <[status := float_incr (default 0 (inner !! status))]> inner]> m.

Definition nodeStatusCounts (items : list SnapshotPodTask) : counts := foldl count_task ∅ items.

Fixpoint set_statuses (nodeName : string) (l : list (string * Z)) : M E () :=
  match l with
  | [] => mret tt
  | (status, count) :: l =>
      SetSnapshotTasksByNode nodeName status count ;; set_statuses nodeName l
  end.

Fixpoint set_nodes (l : list (string * gmap string Z)) : M E () :=
  match l with
  | [] => mret tt
  | (nodeName, statusCounts) :: l =>
      entries ← range_map statusCounts;
      set_statuses nodeName entries ;; set_nodes l
  end.

Definition collectSnapshotPodTaskMetrics : M E (option GoError) :=
  with_labels SnapshotTaskMetrics_ByNode [] ResetVec ;;
  l ← List_Tasks None "";
  match l with
  | inr err => mret (Some err)
  | inl items =>
      entries ← range_map (nodeStatusCounts items);
      set_nodes entries ;; mret None
  end.

Definition collectMetrics : M E (option GoError) :=
  err ← collectSnapshotPodMetrics;
  match err with
  | Some e => mret (Some e)
  | None =>
      err ← collectSnapshotPodTaskMetrics;
      match err with
      | Some e => mret (Some e)
      | None => mret None
      end
  end.

(** What the [select] of [Start] receives. *)
Inductive signal := Tick | Done.

(** [Start]: an error of a collection is only logged. *)
Fixpoint Start (signals : list signal) : M E () :=
  match signals with
  | [] | Done :: _ => mret tt
  | Tick :: signals => collectMetrics ;; Start signals
  end.
End Collector.

(** A collection records measurements and nothing else. *)
Section CollectorEffects.
Context {E : Type} {lib : Lo} {kl : KubeLib} {kc : KubeClient E}.

Lemma emits_set_active items : emits (E := E) metric_ok (set_active items).
Proof. induction items; cbn [set_active]; unfold SetActiveSnapshotTasks; emits. Qed.

Lemma emits_set_statuses n l : emits (E := E) metric_ok (set_statuses n l).
Proof.
  induction l as [|[s c] l IH]; cbn [set_statuses]; unfold SetSnapshotTasksByNode; emits.
Qed.

Lemma emits_set_nodes l : emits (E := E) metric_ok (set_nodes l).
Proof.
  pose proof emits_set_statuses. induction l as [|[n m] l IH]; cbn [set_nodes]; emits.
Qed.

Lemma emits_collectMetrics : emits (E := E) metric_ok collectMetrics.
Proof.
  pose proof emits_set_active. pose proof emits_set_nodes.
  unfold collectMetrics, collectSnapshotPodMetrics, collectSnapshotPodTaskMetrics, List_SnapshotPods,
    List_Tasks. emits.
Qed.

Lemma tame_set_active Q items : tame (E := E) Q (set_active items).
Proof. induction items; cbn [set_active]; unfold SetActiveSnapshotTasks, with_labels; tame. Qed.

Lemma tame_set_statuses Q n l : tame (E := E) Q (set_statuses n l).
Proof.
  induction l as [|[s c] l IH]; cbn [set_statuses];
    unfold SetSnapshotTasksByNode, with_labels; tame.
Qed.

Lemma tame_set_nodes Q l : tame (E := E) Q (set_nodes l).
Proof.
  pose proof tame_set_statuses. induction l as [|[n m] l IH]; cbn [set_nodes]; tame.
Qed.

(** It never panics. *)
Lemma tame_collectMetrics Q : tame (E := E) Q collectMetrics.
Proof.
  pose proof tame_set_active. pose proof tame_set_nodes.
  unfold collectMetrics, collectSnapshotPodMetrics, collectSnapshotPodTaskMetrics, List_SnapshotPods,
    List_Tasks, with_labels. tame.
Qed.
End CollectorEffects.

(** ** The counts *)

Definition node_status (spt : SnapshotPodTask) : string * string :=
  (ts_NodeName (t_Spec spt), task_status (t_Phase (t_Status spt))).

(** How many tasks have this node and this status. *)
Definition tally (ns : string * string) (items : list SnapshotPodTask) : Z :=
  Z.of_nat (length (List.filter (fun t => bool_decide (node_status t = ns)) items)).

Definition read_count (m : counts) (ns : string * string) : option Z :=
  inner ← m !! fst ns; inner !! snd ns.

Lemma count_task_read m t ns :
  read_count (count_task m t) ns =
  if bool_decide (node_status t = ns) then Some (float_incr (default 0 (read_count m ns)))
  else read_count m ns.
Proof.
  destruct ns as [n s]. unfold read_count, count_task, node_status. cbn [fst snd].
  cbv zeta. generalize (ts_NodeName (t_Spec t)) (task_status (t_Phase (t_Status t))). intros n' s'.
  destruct (decide (n' = n)) as [->|Hn].
  - rewrite lookup_insert_eq. cbn [mbind option_bind].
    destruct (decide (s' = s)) as [->|Hs].
    + rewrite lookup_insert_eq, bool_decide_true by done. do 2 f_equal.
      destruct (m !! n); cbn; [done|by rewrite lookup_empty].
    + rewrite lookup_insert_ne, bool_decide_false by congruence.
      destruct (m !! n); cbn; [done|by rewrite lookup_empty].
  - rewrite lookup_insert_ne, bool_decide_false by congruence. done.
Qed.

Lemma nodeStatusCounts_read items ns :
  Z.of_nat (length items) <= two53 ->
  read_count (nodeStatusCounts items) ns =
  if bool_decide (0 < tally ns items) then Some (tally ns items) else None.
Proof.
  induction items as [|t items IH] using rev_ind; intros Hl.
  { unfold read_count, nodeStatusCounts. cbn. by rewrite lookup_empty. }
  rewrite length_app in Hl. cbn in Hl. unfold nodeStatusCounts. rewrite foldl_app. cbn [foldl].
  fold (nodeStatusCounts items). rewrite count_task_read, IH by lia.
  assert (tally ns (items ++ [t]) =
          tally ns items + if bool_decide (node_status t = ns) then 1 else 0) as ->.
  { unfold tally. rewrite List.filter_app, length_app, Nat2Z.inj_add. cbn [List.filter].
    destruct (decide (node_status t = ns));
      [rewrite !bool_decide_true by done|rewrite !bool_decide_false by done]; cbn [length]; lia. }
  assert (0 <= tally ns items <= Z.of_nat (length items)) as Hb.
  { unfold tally. pose proof (List.filter_length_le
      (fun t => bool_decide (node_status t = ns)) items). lia. }
  destruct (decide (node_status t = ns)).
  - rewrite !(bool_decide_true (node_status t = ns)) by done.
    rewrite (bool_decide_true (0 < tally ns items + 1)) by lia.
    case_bool_decide; cbn [default]; rewrite float_incr_exact by (unfold two53 in *; cbn; lia);
      f_equal; cbn; lia.
  - rewrite !(bool_decide_false (node_status t = ns)) by done. by rewrite Z.add_0_r.
Qed.

(** Every inner map of the counts has an entry. *)
Lemma nodeStatusCounts_inner items n inner :
  nodeStatusCounts items !! n = Some inner -> inner <> ∅.
Proof.
  revert inner. induction items as [|t items IH] using rev_ind; intros inner.
  { unfold nodeStatusCounts. cbn. by rewrite lookup_empty. }
  unfold nodeStatusCounts. rewrite foldl_app. cbn [foldl]. fold (nodeStatusCounts items).
  unfold count_task. intros [[_ <-]|[_ H]]%lookup_insert_Some; [apply insert_non_empty|by apply IH].
Qed.

(** ** What a collection shows *)

(** The measurements of a list of entries. *)
Definition gauge (node : string) (e : string * Z) : Event :=
  EvMetric SnapshotTaskMetrics_ByNode [node; fst e] (SetTo (snd e)).

Section Theorems.
Context {E : Type} {lib : Lo} {kl : KubeLib} {kc : KubeClient E}.

Lemma set_statuses_wp n l (w : World E) :
  wp (set_statuses n l) (fun _ w' => w_ext w' = w_ext w /\
    w_trace w' = w_trace w ++ map (gauge n) l) w.
Proof using Type.
  revert w. induction l as [|[s c] l IH]; intros w; cbn [set_statuses map].
  { apply wp_ret. by rewrite app_nil_r. }
  apply wp_bind. unfold SetSnapshotTasksByNode, with_labels. apply emit_wp.
  intros w1 He _ Ht. eapply wp_mono; [apply IH|]. intros _ w2 [He2 ->].
  rewrite Ht, He2, He, <- app_assoc. done.
Qed.

Lemma set_nodes_wp l (w : World E) :
  wp (set_nodes l) (fun _ w' => w_ext w' = w_ext w /\
    exists ls, Forall2 (fun (p : string * gmap string Z) es =>
                 exists k, k ≡ₚ map_to_list (snd p) /\ es = map (gauge (fst p)) k) l ls /\
      w_trace w' = w_trace w ++ mjoin ls) w.
Proof using Type.
  revert w. induction l as [|[n m] l IH]; intros w; cbn [set_nodes].
  { apply wp_ret. split; [done|]. exists []. rewrite app_nil_r. by split. }
  apply wp_bind, wp_range_map. intros k w1 He1 _ _ Ht1. apply wp_bind.
  eapply wp_mono; [apply set_statuses_wp|]. intros _ w2 [He2 Ht2].
  eapply wp_mono; [apply IH|]. intros _ w3 (He3 & ls & HF & Ht3).
  split; [congruence|]. eexists (_ :: ls). split.
  { constructor; [|exact HF]. eexists. split; [apply permute_Permutation|done]. }
  cbn. by rewrite Ht3, Ht2, Ht1, <- app_assoc.
Qed.

(** The labels and values of a list of gauges. *)
Definition gauges_of (m : counts) (es : list Event) : Prop :=
  forall e, e ∈ es <-> exists node status c,
    read_count m (node, status) = Some c /\ e = gauge node (status, c).

Lemma set_nodes_gauges (m : counts) l ls :
  l ≡ₚ map_to_list m ->
  Forall2 (fun (p : string * gmap string Z) es =>
    exists k, k ≡ₚ map_to_list (snd p) /\ es = map (gauge (fst p)) k) l ls ->
  gauges_of m (mjoin ls).
Proof using Type.
  intros Hp HF e. rewrite list_elem_of_join. split.
  - intros (es & He & Hes). apply list_elem_of_lookup in Hes as [i Hi].
    destruct (Forall2_lookup_r _ _ _ _ _ HF Hi) as ([n inner] & Hl & k & Hk & ->).
    apply list_elem_of_fmap in He as ([s c] & -> & Hin). rewrite Hk in Hin.
    apply elem_of_map_to_list in Hin. apply list_elem_of_lookup_2 in Hl.
    rewrite Hp in Hl. apply elem_of_map_to_list in Hl. cbn in *.
    exists n, s, c. split; [|done]. unfold read_count. cbn. by rewrite Hl.
  - intros (n & s & c & Hr & ->). unfold read_count in Hr. cbn in Hr.
    destruct (m !! n) as [inner|] eqn:Hn; [|done]. cbn in Hr.
    apply elem_of_map_to_list in Hn. rewrite <- Hp in Hn.
    apply list_elem_of_lookup in Hn as [i Hi].
    destruct (Forall2_lookup_l _ _ _ _ _ HF Hi) as (es & Hl & k & Hk & ->).
    exists (map (gauge n) k). split; [|by eapply list_elem_of_lookup_2].
    apply list_elem_of_fmap. exists (s, c). split; [done|]. rewrite Hk.
    by apply elem_of_map_to_list.
Qed.

(** The events of one collection of the tasks. *)
Lemma collect_tasks_wp (w : World E) :
  wp collectSnapshotPodTaskMetrics (fun err w' =>
    exists es, w_trace w' = w_trace w ++ EvMetric SnapshotTaskMetrics_ByNode [] ResetVec :: es /\
    match fst (kc_List_Tasks None "" (w_ext w)) with
    | inr e => err = Some e /\ es = []
    | inl items => err = None /\
        (Z.of_nat (length items) <= two53 ->
         forall e, e ∈ es <-> exists ns, 0 < tally ns items /\
           e = EvMetric SnapshotTaskMetrics_ByNode [fst ns; snd ns] (SetTo (tally ns items)))
    end) w.
Proof using Type.
  unfold collectSnapshotPodTaskMetrics. apply wp_bind. unfold with_labels. apply emit_wp.
  intros w1 He1 _ Ht1. apply wp_bind. unfold List_Tasks, wp at 1, post, external.
  rewrite He1. destruct (kc_List_Tasks _ _ _) as [[items|e] e']; cbn [fst snd].
  2: { apply wp_ret. exists []. by rewrite Ht1. }
  apply wp_bind, wp_range_map. intros k w2 _ _ _ Ht2. cbn in Ht2.
  apply wp_bind. eapply wp_mono; [apply set_nodes_wp|].
  intros _ w3 (_ & ls & HF & Ht3). apply wp_ret. exists (mjoin ls).
  split; [by rewrite Ht3, Ht2, Ht1, <- app_assoc|]. split; [done|]. intros Hlen e.
  rewrite (set_nodes_gauges _ _ _ (permute_Permutation _ _) HF e). split.
  - intros (n & s & c & Hr & ->). rewrite nodeStatusCounts_read in Hr by done.
    exists (n, s). case_bool_decide; [|done]. by injection Hr as <-.
  - intros ([n s] & Hlt & ->). exists n, s, (tally (n, s) items). split; [|done].
    rewrite nodeStatusCounts_read by done. by rewrite bool_decide_true.
Qed.

(** [C28] The task gauges tell the truth: a collection resets the vector and then
    sets, for every node and status that some listed task has, the number of
    the tasks with them, and nothing else; when the list fails the vector stays
    empty and the error is returned. *)
Theorem collectSnapshotPodTaskMetrics_exact (w : World E) :
  wp collectSnapshotPodTaskMetrics (fun err w' =>
    exists es, w_trace w' = w_trace w ++ EvMetric SnapshotTaskMetrics_ByNode [] ResetVec :: es /\
    match fst (kc_List_Tasks None "" (w_ext w)) with
    | inr e => err = Some e /\ es = []
    | inl items => err = None /\
        (Z.of_nat (length items) <= two53 ->
         forall e, e ∈ es <-> exists ns, 0 < tally ns items /\
           e = EvMetric SnapshotTaskMetrics_ByNode [fst ns; snd ns] (SetTo (tally ns items)))
    end) w.
Proof using Type. apply collect_tasks_wp. Qed.

Lemma set_active_wp items (w : World E) :
  wp (set_active items) (fun _ w' => w_ext w' = w_ext w /\
    w_trace w' = w_trace w ++ map (fun sp => EvMetric SnapshotTaskMetrics_Active
      [Namespace (sp_meta sp); Name (sp_meta sp)] (SetTo (active_count sp))) items) w.
Proof using Type.
  revert w. induction items as [|sp items IH]; intros w; cbn [set_active map].
  { apply wp_ret. by rewrite app_nil_r. }
  apply wp_bind. unfold SetActiveSnapshotTasks, with_labels. apply emit_wp.
  intros w1 He _ Ht. eapply wp_mono; [apply IH|]. intros _ w2 [He2 ->].
  rewrite Ht, He2, He, <- app_assoc. done.
Qed.

(** The run gauges tell the truth: one value per listed SnapshotPod, in the
    order of the list, which is the number of its runs that are CREATED or
    RUNNING; a failed list leaves the vector empty. *)
Theorem collectSnapshotPodMetrics_exact (w : World E) :
  wp collectSnapshotPodMetrics (fun err w' =>
    exists es, w_trace w' = w_trace w ++ EvMetric SnapshotTaskMetrics_Active [] ResetVec :: es /\
    match fst (kc_List_SnapshotPods None "" (w_ext w)) with
    | inr e => err = Some e /\ es = []
    | inl items => err = None /\
        Forall2 (fun sp e =>
          Z.of_nat (length (sp_Snapshots (sp_Status sp))) < two53 ->
          e = EvMetric SnapshotTaskMetrics_Active [Namespace (sp_meta sp); Name (sp_meta sp)]
                (SetTo (Z.of_nat (length (List.filter run_active (sp_Snapshots (sp_Status sp)))))))
          items es
    end) w.
Proof using Type.
  unfold collectSnapshotPodMetrics. apply wp_bind. unfold with_labels. apply emit_wp.
  intros w1 He1 _ Ht1. apply wp_bind. unfold List_SnapshotPods, wp at 1, post, external.
  rewrite He1. destruct (kc_List_SnapshotPods _ _ _) as [[items|e] e']; cbn [fst snd].
  2: { apply wp_ret. exists []. by rewrite Ht1. }
  apply wp_bind. eapply wp_mono; [apply set_active_wp|]. intros _ w2 [_ Ht2]. apply wp_ret.
  eexists. split; [cbn in Ht2; by rewrite Ht2, Ht1, <- app_assoc|]. split; [done|].
  apply Forall2_fmap_r, Forall_Forall2_diag, Forall_true. intros sp Hl.
  unfold active_count. rewrite lo_Filter_law. f_equal. f_equal. apply float_of_int_exact.
  pose proof (List.filter_length_le run_active (sp_Snapshots (sp_Status sp))). lia.
Qed.
End Theorems.

(** An outage leaves the gauges empty until a later collection. *)
Example outage :
  map (fun e => match e with EvMetric v _ o => (v, o) | _ => (SnapshotTaskFailed, Inc) end)
    (w_trace (snd (collectMetrics (lib := lo_std) (kl := kube_std) (kc := client_std)
                     (fx_world [] [Some (Errorf "timeout")])))) =
  [(SnapshotTaskMetrics_Active, ResetVec)].
Proof. vm_compute. reflexivity. Qed.
