(* ===== verification/System.v ===== *)
(** * The programs together

    [history]: what the trace of the whole cluster can look like, when the task
    controllers of any number of nodes, the SnapshotPod controller and the
    webhook run against one API server.  A pass may start from any object the
    server has accepted, however stale, so a history stands for passes
    that overlap, too, listed in the order of their reads.  The theorems are
    the promise to the user: what the status of a task, and then the status of
    a SnapshotPod, calls done has been done. *)

From S2P Require Import Prelude GoStrings ApiTypes World Lo Cluster Store ImageRefLib Fixtures.
From S2P Require Import Trace Metrics GoTime Conditions ImageName SnapshotPodController Runtime.
From S2P Require Import TaskController TaskSpec TaskTheorems Webhook Collector.

(** ** What stands behind the status of a task *)

(** [t'] is the task [t], whatever its status. *)
Definition same_task (t t' : SnapshotPodTask) : Prop :=
  meta_key (t_meta t') = meta_key (t_meta t) /\ Labels (t_meta t') = Labels (t_meta t) /\
  t_Spec t' = t_Spec t.

Lemma answered_same t t' : answered t t' -> same_task t t'.
Proof. by intros (? & ? & ? & _). Qed.

Lemma meta_same t t' : t_meta t' = t_meta t -> t_Spec t' = t_Spec t -> same_task t t'.
Proof. intros Hm Hs. unfold same_task. by rewrite Hm. Qed.

Lemma attempted_same x err spt t : attempted x err spt t -> same_task spt t.
Proof. intros (? & ? & _)%attempted_frame. by apply meta_same. Qed.

(** The container of [t] has been committed to the image of [t]: the commit that
    [t] asks for, of its container and with its options, has succeeded. *)
Definition committed (H : list Event) (t : SnapshotPodTask) : Prop :=
  exists c, commit_call t = Some c /\ EvRuntime c None ∈ H.

Lemma committed_app H H' t t' :
  same_task t t' -> committed H t -> committed (H ++ H') t'.
Proof.
  intros (_ & _ & Hs) (c & Hc & Hin). exists c. rewrite (commit_call_spec _ _ Hs).
  split; [done|]. apply elem_of_app. by left.
Qed.

Lemma committed_same H t t' : same_task t t' -> committed H t -> committed H t'.
Proof. intros Hs Hc. rewrite <- (app_nil_r H). by eapply committed_app. Qed.

Section Pushed.
Context {E : Type} {ir : ImageRef} {kl : KubeLib} {kc : KubeClient E}.

(** The image of [t] has been pushed after it was committed: with the credentials
    of [t], and counted as a push of the SnapshotPod of [t]. *)
Definition pushed (H : list Event) (t : SnapshotPodTask) : Prop :=
  exists pre au s post,
    H = pre ++ EvRuntime (RtPush (ts_CommitImage (t_Spec t)) au) None ::
        push_metrics t ImagePushResultSuccess (registry_label (ts_CommitImage (t_Spec t))) s ++ post /\
    auth_read (Namespace (t_meta t)) (ts_RegistrySecretRef (t_Spec t))
      (ts_CommitImage (t_Spec t)) (inl au) /\
    committed pre t.

(** The conditions of [t] are backed by [H]. *)
Definition justified (H : list Event) (t : SnapshotPodTask) : Prop :=
  (finished RecCommit t = true -> committed H t) /\
  (finished RecPush t = true -> pushed H t).

Lemma pushed_app H H' t t' : same_task t t' -> pushed H t -> pushed (H ++ H') t'.
Proof using Type.
  intros Hs (pre & au & s & post & -> & Hau & Hc). exists pre, au, s, (post ++ H').
  pose proof Hs as ([= Hns Hn] & Hl & Hsp). unfold push_metrics, getSnapshotName.
  rewrite Hsp, Hl, Hns. split_and!; [|done|by eapply committed_same].
  by rewrite <- !app_assoc.
Qed.

(** More events, and an object with the same conditions. *)
Lemma justified_app H H' t t' :
  same_task t t' -> (forall x, finished x t' = finished x t) ->
  justified H t -> justified (H ++ H') t'.
Proof using Type.
  intros Hs Hf [Hc Hp]. split; rewrite Hf; intros Hx.
  - by eapply committed_app, Hc.
  - by eapply pushed_app, Hp.
Qed.

Lemma justified_same H t t' :
  same_task t t' -> (forall x, finished x t' = finished x t) ->
  justified H t -> justified H t'.
Proof using Type. intros Hs Hf Hj. rewrite <- (app_nil_r H). by apply (justified_app H [] t). Qed.
End Pushed.

Section Pass.
Context {E : Type} {ir : ImageRef} {kl : KubeLib} {kc : KubeClient E}.
Variable r : SnapshotPodTaskReconciler E.
Implicit Types spt t : SnapshotPodTask.

Lemma step_commits spt es H :
  step_events r RecCommit spt es None -> committed (H ++ es) spt.
Proof using Type.
  cbn. inversion 1; subst. eexists. split; [done|]. apply elem_of_app. right.
  apply list_elem_of_here.
Qed.

Lemma step_pushes spt es H :
  step_events r RecPush spt es None -> committed H spt -> pushed (H ++ es) spt.
Proof using Type.
  cbn. intros Hs Hc. inversion Hs as [| | |au pull err s Hsome Hau Hp]; subst.
  eexists (H ++ EvRuntime (RtImageExists _ true) None :: pull), au, s, []. split_and!; [|done|].
  { rewrite app_nil_r, <- app_assoc. by cbn. }
  by eapply committed_app.
Qed.

Lemma finished_failed x e spt t : attempted x (Some e) spt t -> finished x t = false.
Proof using Type.
  intros [_ ((c & Hc & Hs & _) & _)]. unfold finished. rewrite Hc. by rewrite Hs.
Qed.

(** One step: what it marks as done it has done. *)
Lemma step_justified H x err spt es t :
  justified H spt -> (x = RecPush -> finished RecCommit spt = true) ->
  step_events r x spt es err -> attempted x err spt t -> justified (H ++ es) t.
Proof using Type.
  intros [Hc Hp] Hx Hs Ha. pose proof (attempted_same _ _ _ _ Ha) as Hsp.
  assert (forall y, finished y t = true -> (y = x /\ err = None) \/ finished y spt = true) as Hf.
  { intros y Hy. destruct (decide (y = x)) as [->|Hne].
    - left. split; [done|]. destruct err as [e|]; [|done].
      by rewrite (finished_failed _ _ _ _ Ha) in Hy.
    - right. by rewrite <- (finished_attempted_ne _ _ _ _ _ Ha Hne). }
  split; intros Hy; apply Hf in Hy as [[<- ->]|Hy].
  - by eapply committed_same, step_commits.
  - by eapply committed_app, Hc.
  - eapply (pushed_app _ []) in Hsp; [rewrite app_nil_r in Hsp; exact Hsp|].
    by apply step_pushes, Hc, Hx.
  - by eapply pushed_app, Hp.
Qed.

(** The commit comes before the push. *)
Lemma commit_first l1 l : task_recs = l1 ++ RecPush :: l -> RecCommit ∈ l1.
Proof using Type.
  destruct l1 as [|a [|b l1]]; cbn; intros [=]; subst.
  apply list_elem_of_further, list_elem_of_here.
Qed.

(** A write of a task is justified by what happened before it. *)
Definition task_write_ok (H : list Event) (e : Event) : Prop :=
  match e with EvTaskStatus t _ => justified H t | _ => True end.

Lemma along_step H x spt es err t u :
  step_events r x spt es err -> justified (H ++ es) t ->
  along task_write_ok H (es ++ [EvTaskStatus t u]).
Proof using Type.
  intros Hs Hj. apply along_app. split; [|by split].
  apply along_all. intros H' e He. destruct e as [|t' u'| | | | | |]; try exact I.
  exfalso. by eapply step_no_status in He; [|exact Hs].
Qed.

Lemma loop_justified l1 l spt es spt' out H :
  loop_spec r l spt es spt' out -> task_recs = l1 ++ l ->
  (forall x, x ∈ l1 -> finished x spt = true) -> justified H spt ->
  justified (H ++ es) spt' /\ along task_write_ok H es.
Proof using Type.
  intros Hl. revert l1 H.
  induction Hl as [spt|x l spt es spt' out Hf Hl IH|x l spt es err t e Hf Hs Ha
    |x l spt es e t spt' Hf Hs Ha Hr|x l spt es t spt1 es' spt' out Hf Hs Ha Hr Hl IH];
    intros l1 H Hrec Hdone Hj.
  1: by rewrite app_nil_r.
  1: { apply (IH (l1 ++ [x])); [by rewrite <- app_assoc| |done].
       intros y [Hy|Hy]%elem_of_app; [by apply Hdone|]. by apply list_elem_of_singleton in Hy as ->. }
  all: assert (x = RecPush -> finished RecCommit spt = true) as Hx
         by (intros ->; by eapply Hdone, commit_first).
  all: pose proof (step_justified H x _ spt es t Hj Hx Hs Ha) as Ht.
  - split; [|by eapply along_step]. rewrite app_assoc. by apply (justified_app _ _ t).
  - split; [|by eapply along_step]. rewrite app_assoc.
    by eapply justified_app; [by apply answered_same|intros y; by apply finished_answered|].
  - destruct (IH (l1 ++ [x]) (H ++ es ++ [EvTaskStatus t None])) as [Hj' Hall'].
    + by rewrite <- app_assoc.
    + intros y Hy. rewrite (finished_answered _ _ _ Hr).
      apply elem_of_app in Hy as [Hy|Hy].
      * eapply finished_attempted_keep; [done..|by apply Hdone].
      * apply list_elem_of_singleton in Hy as ->. by eapply finished_attempted.
    + rewrite app_assoc. by eapply justified_app; [by apply answered_same|intros y; by apply finished_answered|].
    + rewrite (app_assoc es), (app_assoc H). split; [done|]. apply along_app.
      split; [by eapply along_step|done].
Qed.

(** A pass: every object it writes is justified by what happened before the write. *)
Lemma pass_justified spt es res H :
  pass_spec r spt es res -> justified H spt -> along task_write_ok H es.
Proof using Type.
  intros Hp Hj. apply pass_inv in Hp as (es1 & spt' & out & Hl & Hout).
  destruct (loop_justified [] _ _ _ _ _ H Hl eq_refl) as [Hj' Hall].
  { by intros x ?%not_elem_of_nil. }
  { eapply justified_same; [apply meta_same; [apply reset_retries_meta|apply reset_retries_spec]|intros x; apply finished_reset|done]. }
  assert ((exists le es2, es = es1 ++ es2 /\ end_spec le spt' es2 res) \/ es = es1)
    as [(le & es2 & -> & He)| ->]; [|clear Hl|done].
  { destruct out; [destruct Hout as (es2 & ? & ?); left..|]; [by eexists _, _..|].
    right. by destruct Hout. }
  apply along_app. split; [done|]. apply end_inv in He as (ms & t & u & ms' & -> & Hph & Hm & _).
  assert (forall l H', (forall e, e ∈ l -> is_metric e = true) -> along task_write_ok H' l) as Hmet.
  { intros l H' Hml. apply along_all. intros H0 e He. specialize (Hml e He). by destruct e. }
  apply along_app. split; [|split].
  - apply Hmet. intros e He. apply Hm, elem_of_app. by left.
  - eapply justified_app; [|intros x; by eapply finished_phase|exact Hj'].
    apply phase_frame in Hph as [? ?]. by apply meta_same.
  - apply Hmet. intros e He. apply Hm, elem_of_app. by right.
Qed.

Lemma loop_no_sp_status l spt es spt' out sp u :
  loop_spec r l spt es spt' out -> EvSpStatus sp u ∉ es.
Proof using Type.
  assert (forall x spt es err, step_events r x spt es err -> EvSpStatus sp u ∉ es) as Hstep.
  { intros x spt0 es0 err Hs Hin. pose proof (step_kind r _ _ _ _ _ Hs Hin) as Hk. by destruct x. }
  induction 1 as [|y l spt es spt' out Hf Hl IH|y l spt es err t e Hf Hs Ha
    |y l spt es e t spt' Hf Hs Ha Hr|y l spt es t spt1 es' spt' out Hf Hs Ha Hr Hl IH];
    rewrite ?elem_of_app, ?elem_of_cons; intros Hin.
  - by apply not_elem_of_nil in Hin.
  - by apply IH.
  - destruct Hin as [Hin|[?|?%not_elem_of_nil]]; [by eapply Hstep|done..].
  - destruct Hin as [Hin|[?|?%not_elem_of_nil]]; [by eapply Hstep|done..].
  - destruct Hin as [Hin|[[?|?%not_elem_of_nil]|?]]; [by eapply Hstep|done..].
Qed.

Lemma pass_no_sp_status spt es res sp u : pass_spec r spt es res -> EvSpStatus sp u ∉ es.
Proof using Type.
  intros (es1 & spt' & out & Hl & Hout)%pass_inv Hin. pose proof (loop_no_sp_status _ _ _ _ _ sp u Hl).
  assert ((exists le es2, es = es1 ++ es2 /\ end_spec le spt' es2 res) \/ es = es1)
    as [(le & es2 & -> & He)| ->]; [|clear Hl|done].
  { destruct out; [destruct Hout as (es2 & ? & ?); left..|]; [by eexists _, _..|].
    right. by destruct Hout. }
  apply elem_of_app in Hin as [?|Hin]; [done|].
  apply end_inv in He as (ms & t & u' & ms' & -> & _ & Hm & _).
  specialize (Hm (EvSpStatus sp u)). rewrite elem_of_app in Hm.
  apply elem_of_app in Hin as [Hin|[?|Hin]%elem_of_cons]; [|done|]; discriminate Hm; auto.
Qed.
End Pass.

(** ** What stands behind the status of a SnapshotPod *)

Section Promised.
Context {E : Type} {ir : ImageRef} {kl : KubeLib} {kc : KubeClient E}.

(** A run that is called a success: the server has accepted a task of its name as
    COMPLETED, and the image of the task has been committed and pushed. *)
Definition promised (H : list Event) (x : SnapshotRunningStatus) : Prop :=
  run_Result x = SnapshotRunningResultSuccess ->
  exists t, EvTaskStatus t None ∈ H /\ Name (t_meta t) = run_TaskName x /\
    t_Phase (t_Status t) = SnapshotPodTaskPhaseCompleted /\ pushed H t.

(** What the events [H] must hold for [e] to be written after them. *)
Definition event_ok (H : list Event) (e : Event) : Prop :=
  match e with
  | EvTaskStatus t _ => justified H t /\ honest_phase t
  | EvSpStatus sp _ => Forall (promised H) (sp_Snapshots (sp_Status sp))
  | _ => True
  end.

(** A task the server can hand out after the events [H]: one without a status, as
    it was created, or the answer to a status update it accepted. *)
Definition stored (H : list Event) (t : SnapshotPodTask) : Prop :=
  t_Status t = empty_task_status \/ exists t0, EvTaskStatus t0 None ∈ H /\ answered t0 t.

(** The same for a SnapshotPod, as far as the names and results of its runs go;
    everything else may have been edited. *)
Definition runs_of (sp : SnapshotPod) : list (string * string) :=
  map (fun x => (run_TaskName x, run_Result x)) (sp_Snapshots (sp_Status sp)).

Definition sp_stored (H : list Event) (sp : SnapshotPod) : Prop :=
  runs_of sp = [] \/ exists sp0, EvSpStatus sp0 None ∈ H /\ runs_of sp = runs_of sp0.

Lemma promised_app H k x : promised H x -> promised (H ++ k) x.
Proof using Type.
  intros Hp Hr. destruct (Hp Hr) as (t & Hin & Hn & Hc & Hpu). exists t. split_and!; try done.
  - apply elem_of_app. by left.
  - by eapply pushed_app.
Qed.

Lemma event_ok_app H k e : event_ok H e -> event_ok (H ++ k) e.
Proof using Type.
  destruct e as [|t u|sp u| | | | |]; cbn; try done.
  - intros [Hj Hh]. split; [|done]. by apply (justified_app H k t).
  - intros Hf. eapply Forall_impl; [exact Hf|]. intros x. apply promised_app.
Qed.

Lemma backed_in H e : along event_ok [] H -> e ∈ H -> event_ok H e.
Proof using Type.
  intros Hb Hin. destruct (along_in _ _ _ Hb Hin) as (pre & post & -> & He). by apply event_ok_app.
Qed.

Lemma stored_justified H t : along event_ok [] H -> stored H t -> justified H t.
Proof using Type.
  intros Hb [Hs|(t0 & Hin & Ha)].
  - unfold justified, finished, tconds. rewrite Hs. by split.
  - eapply justified_same; [by apply answered_same|intros x; by apply finished_answered|].
    by apply (backed_in _ _ Hb) in Hin as [? _].
Qed.

Lemma sp_stored_promised H sp :
  along event_ok [] H -> sp_stored H sp -> Forall (promised H) (sp_Snapshots (sp_Status sp)).
Proof using Type.
  assert (forall sp, Forall (promised H) (sp_Snapshots (sp_Status sp)) <->
    forall n res, (n, res) ∈ runs_of sp -> res = SnapshotRunningResultSuccess ->
      exists t, EvTaskStatus t None ∈ H /\ Name (t_meta t) = n /\
        t_Phase (t_Status t) = SnapshotPodTaskPhaseCompleted /\ pushed H t) as Heq.
  { intros s. unfold runs_of. setoid_rewrite list_elem_of_fmap. rewrite Forall_forall. split.
    - intros Hf n res (x & [= -> ->] & Hx). by apply Hf.
    - intros Hf x Hx. unfold promised. apply Hf. by exists x. }
  intros Hb [Hs|(sp0 & Hin & Hs)]; apply Heq; rewrite Hs.
  - by intros n res ?%not_elem_of_nil.
  - apply Heq. by apply (backed_in _ _ Hb) in Hin.
Qed.

(** A stored task that is COMPLETED has been accepted as such. *)
Lemma completed_accepted H t :
  along event_ok [] H -> stored H t -> t_Phase (t_Status t) = SnapshotPodTaskPhaseCompleted ->
  exists t0, EvTaskStatus t0 None ∈ H /\ Name (t_meta t0) = Name (t_meta t) /\
    t_Phase (t_Status t0) = SnapshotPodTaskPhaseCompleted /\ pushed H t0.
Proof using Type.
  intros Hb [Hs|(t0 & Hin & Ha)] Hc; [by rewrite Hs in Hc|]. exists t0.
  destruct Ha as (Hk & _ & _ & _ & Hp & _). unfold meta_key in Hk. injection Hk as _ Hn.
  rewrite Hp in Hc. split_and!; try done.
  apply (backed_in _ _ Hb) in Hin as [[_ Hpu] [Hall _]]. by apply Hpu, Hall.
Qed.
End Promised.

(** ** Measurements *)

(** Every measurement fits its declaration. *)
Definition typed_event (e : Event) : Prop :=
  match e with EvMetric _ _ _ => metric_ok e | _ => True end.

Section Typed.
Context {E : Type} {ir : ImageRef} {kl : KubeLib} {kc : KubeClient E}.
Variable r : SnapshotPodTaskReconciler E.

Lemma push_metrics_typed spt res reg s : Forall typed_event (push_metrics spt res reg s).
Proof using Type. repeat constructor. Qed.

Lemma step_typed x spt es err : step_events r x spt es err -> Forall typed_event es.
Proof using Type.
  destruct x; cbn [step_events].
  - by intros [-> _].
  - destruct 1; by repeat constructor.
  - destruct 1 as [| | |au pull err s _ _ Hp]; repeat constructor. apply Forall_app. split.
    + unfold pull_events in Hp. case_bool_decide; [|by subst].
      destruct Hp as (g & e & _ & ->). by repeat constructor.
    + constructor; [done|apply push_metrics_typed].
Qed.

Lemma loop_typed l spt es spt' out : loop_spec r l spt es spt' out -> Forall typed_event es.
Proof using Type.
  induction 1; rewrite ?Forall_app; split_and?; try done; try (by repeat constructor);
    by eapply step_typed.
Qed.

Lemma end_typed le spt es res : end_spec le spt es res -> Forall typed_event es.
Proof using Type.
  assert (forall es t, phase_spec le spt es t -> Forall typed_event es) as Hph.
  { intros es0 t [|n|]; [done| |done]. unfold retry_metrics. constructor; [done|].
    case_bool_decide; by repeat constructor. }
  destruct 1 as [es t e Hp|es t s1 s2 Hp Ht|es t s Hp Ht]; apply Forall_app;
    (split; [by eapply Hph|]); by repeat constructor.
Qed.

Lemma pass_typed spt es res : pass_spec r spt es res -> Forall typed_event es.
Proof using Type.
  destruct 1; rewrite ?Forall_app; eauto using loop_typed, end_typed.
Qed.
End Typed.

(** ** The server during a pass of the SnapshotPod controller *)

Section Serves.
Context {E : Type} {lib : Lo} {ir : ImageRef} {kl : KubeLib} {kc : KubeClient E}
        {laws : KubeClientLaws E}.

(** While [P] holds, listings show tasks that are stored after [H], and the
    requests of the controller keep [P]. *)
Record serves (H : list Event) (P : E -> Prop) : Prop := {
  serves_list s ns e items :
    P e -> fst (kc_List_Tasks s ns e) = inl items -> Forall (stored H) items;
  serves_Get_SnapshotPod k e : P e -> P (snd (kc_Get_SnapshotPod k e));
  serves_Get_Pod k e : P e -> P (snd (kc_Get_Pod k e));
  serves_List_Pods s ns e : P e -> P (snd (kc_List_Pods s ns e));
  serves_List_Tasks s ns e : P e -> P (snd (kc_List_Tasks s ns e));
  serves_Create_Task t e : P e -> P (snd (kc_Create_Task t e))
}.

Variable H : list Event.
Variable P : E -> Prop.
Hypothesis Hs : serves H P.

Lemma keeps_getPod sp : keeps P (getPod sp).
Proof using Hs.
  unfold getPod, Get_Pod, List_Pods.
  keeps; apply keeps_external; intros e; [by apply (serves_Get_Pod _ _ Hs)|by apply (serves_List_Pods _ _ Hs)].
Qed.

Lemma keeps_validate sp : keeps P (validate sp).
Proof using Hs. pose proof keeps_getPod. unfold validate. keeps. Qed.

Lemma keeps_renderNewImageName a b c : keeps P (renderNewImageName a b c).
Proof using Type. unfold renderNewImageName, withRandomTag. keeps. Qed.

Lemma keeps_create_tasks pod l sp : keeps P (create_tasks pod l sp).
Proof using Hs.
  pose proof keeps_renderNewImageName.
  assert (forall t, keeps P (Create_Task t)) as Hc.
  { intros t. unfold Create_Task, write. keeps. apply keeps_external. intros e. by apply (serves_Create_Task _ _ Hs). }
  revert sp. induction l as [|c l IH]; intros sp; cbn [create_tasks]; unfold create_task; keeps; auto.
Qed.

Lemma keeps_reconcileTasks sp : keeps P (reconcileTasks sp).
Proof using Hs. pose proof keeps_getPod. pose proof keeps_create_tasks. unfold reconcileTasks. keeps. Qed.

Lemma keeps_update_runs m l : keeps P (update_runs m l).
Proof using Type. induction l; cbn [update_runs]; unfold update_run; keeps. Qed.

Lemma keeps_reconcileTasksStatus sp : keeps P (reconcileTasksStatus sp).
Proof using Hs.
  pose proof keeps_update_runs. unfold reconcileTasksStatus, List_Tasks.
  keeps; apply keeps_external; intros e; by apply (serves_List_Tasks _ _ Hs).
Qed.

Hypothesis Hb : along event_ok [] H.

Lemma task_map_elem (items : list SnapshotPodTask) n t :
  task_map items !! n = Some t -> t ∈ items /\ Name (t_meta t) = n.
Proof using Type.
  unfold task_map. rewrite lo_SliceToMap_lookup. intros (t' & Ht & ->)%fmap_Some.
  apply find_some in Ht as [Hin Hn%bool_decide_eq_true]. cbn in *. split; [|done].
  by apply list_elem_of_In, in_rev.
Qed.

Lemma reconcileTasksStatus_promised sp (w : World E) :
  P (w_ext w) -> Forall (promised H) (sp_Snapshots (sp_Status sp)) ->
  wlp (reconcileTasksStatus sp) (fun '(sp', _) _ =>
    Forall (promised H) (sp_Snapshots (sp_Status sp'))) w.
Proof using Hs Hb.
  intros Hw Hsp. unfold reconcileTasksStatus. destruct (LabelSelectorAsSelector _) as [sel selErr].
  apply wlp_bind, wlp_external.
  intros g w1 Hg _ _. destruct g as [items|err]; [|by apply wlp_ret].
  eapply (f_equal fst) in Hg. cbn [fst] in Hg. symmetry in Hg.
  apply (serves_list _ _ Hs) in Hg; [|done].
  apply wlp_bind. eapply wlp_mono; [apply update_runs_refines|].
  intros l w2 Hl. apply wlp_ret. cbn.
  revert Hsp. induction Hl as [|x y l k Hxy _ IH]; intros Hsp; [done|].
  apply Forall_cons in Hsp as [Hx Hsp]. constructor; [|by apply IH].
  destruct Hxy as [x _|x _ _|x t c _ Ht Hc|x t _ _ _|x t _ _ _ _]; try done.
  intros _. apply task_map_elem in Ht as [Hin Hn].
  eapply Forall_forall in Hg; [|exact Hin].
  destruct (completed_accepted _ _ Hb Hg Hc) as (t0 & ? & Hn0 & ? & ?).
  exists t0. split_and!; try done. cbn. congruence.
Qed.

(** A pass over a stored object writes only promised successes. *)
Lemma snapshot_pass_promised req (w : World E) :
  P (w_ext w) -> (forall sp, fst (kc_Get_SnapshotPod req (w_ext w)) = inl sp -> sp_stored H sp) ->
  wlp (SnapshotPodController.Reconcile req) (fun _ w' => exists es, w_trace w' = w_trace w ++ es /\
    forall sp u, EvSpStatus sp u ∈ es -> Forall (promised H) (sp_Snapshots (sp_Status sp))) w.
Proof using Hs Hb laws.
  intros Hw Hg. apply (Reconcile_writes (fun sp => Forall (promised H) (sp_Snapshots (sp_Status sp)))).
  intros sp e1 w1 Hget He1. rewrite Hget in Hg. specialize (Hg sp eq_refl).
  assert (P (w_ext w1)) as Hw1.
  { rewrite He1. change e1 with (snd (@inl SnapshotPod GoError sp, e1)). rewrite <- Hget.
    by apply (serves_Get_SnapshotPod _ _ Hs). }
  apply (run_recs_inv P (fun c => Forall (promised H) (snd (fst c)))); [apply frames_recs| |done|].
  2: by apply sp_stored_promised.
  unfold recs. repeat apply Forall_cons_2; [..|apply Forall_nil_2]; cbn; intros s w2 Hw2 Hp.
  - eapply wlp_mono; [apply wlp_and; [apply keeps_wlp; [apply keeps_validate|done]|apply validate_same]|].
    by intros [s' err] w3 [? ->].
  - eapply wlp_mono; [apply wlp_and;
      [apply keeps_wlp; [apply keeps_reconcileTasks|done]|apply reconcileTasks_old_or_new]|].
    intros [s' err] w3 [? Hnew]. split; [done|]. cbn. apply Forall_forall. intros x Hx.
    apply Hnew in Hx as [Hx|Hx]; [by eapply Forall_forall in Hp; [|exact Hx]|].
    intros Hr. by rewrite Hx in Hr.
  - eapply wlp_mono; [apply wlp_and;
      [apply keeps_wlp; [apply keeps_reconcileTasksStatus|done]
      |by apply reconcileTasksStatus_promised]|].
    by intros [s' err] w3.
Qed.
End Serves.

(** ** Histories of the cluster *)

Section History.
Context {E : Type} {lib : Lo} {ir : ImageRef} {kl : KubeLib} {kc : KubeClient E}
        {laws : KubeClientLaws E} {pj : PodJson}.

(** The visible events of a run of [m] in [w], which may end in a panic. *)
Definition shows {A} (m : M E A) (w : World E) (es : list Event) : Prop :=
  uuid_ok w /\ exists es', w_trace (snd (m w)) = w_trace w ++ es' /\ es = visible es'.

(** The next activity after [H]: a pass of the task controller of some node, of
    the SnapshotPod controller, a request to the webhook, or a collection of the
    metrics.  The activities
    share nothing but the server, so each has a world of its own. *)
Inductive activity (H : list Event) : list Event -> Prop :=
| task_activity (r : SnapshotPodTaskReconciler E) req w es :
    runtimes_ok r ->
    (forall t, fst (kc_Get_Task req (w_ext w)) = inl t ->
       stored H t /\ id_ok r (ts_ContainerID (t_Spec t))) ->
    shows (TaskController.Reconcile r req) w es -> activity H es
| snapshot_activity P req w es :
    serves H P -> P (w_ext w) ->
    (forall sp, fst (kc_Get_SnapshotPod req (w_ext w)) = inl sp -> sp_stored H sp) ->
    shows (SnapshotPodController.Reconcile req) w es -> activity H es
| admission_activity request w es :
    shows (Handle request) w es -> activity H es
| collector_activity w es :
    shows collectMetrics w es -> activity H es.

Inductive history : list Event -> Prop :=
| history_start : history []
| history_next H es : history H -> activity H es -> history (H ++ es).

Lemma shows_does {A} (m : M E A) S w es : does m S w -> shows m w es -> exists a, S a es.
Proof using Type.
  intros Hd [_ (es' & Ht & ->)]. unfold does, wp, post in Hd.
  destruct (m w) as [[a|msg] w']; cbn in *; [|done].
  destruct Hd as (_ & es & Ht' & HS). exists a. rewrite Ht in Ht'.
  by apply app_inv_head in Ht' as ->.
Qed.

Lemma elem_of_visible e es : e ∈ visible es -> e ∈ es.
Proof using Type. unfold visible. rewrite !list_elem_of_In. by intros [? _]%List.filter_In. Qed.

Lemma shows_emits {A} P (m : M E A) w es : emits P m -> shows m w es -> forall e, e ∈ es -> P e.
Proof using Type.
  intros Hm [_ (es' & Ht & ->)] e He%elem_of_visible. destruct (Hm w) as (_ & es & Ht' & HP).
  rewrite Ht in Ht'. apply app_inv_head in Ht' as ->. by eapply Forall_forall in HP.
Qed.

Lemma task_pass_ok H r req (w : World E) es :
  along event_ok [] H -> runtimes_ok r ->
  (forall t, fst (kc_Get_Task req (w_ext w)) = inl t ->
     stored H t /\ id_ok r (ts_ContainerID (t_Spec t))) ->
  shows (TaskController.Reconcile r req) w es -> along event_ok H es.
Proof using laws.
  intros Hb Hrts Hst Hsh. eapply shows_does in Hsh as [res Hsp]; cycle 1.
  { apply Reconcile_does; [done|by apply Hsh|].
    destruct (fst (kc_Get_Task req (w_ext w))) as [spt|err]; [|done]. intros _. by apply Hst. }
  destruct (fst (kc_Get_Task req (w_ext w))) as [spt|err]; cbn in Hsp.
  - destruct (Hst spt eq_refl) as [Hst' _].
    destruct (mine r spt) eqn:Hm; [|by destruct Hsp as [-> _]].
    assert (along (fun _ e => match e with EvTaskStatus t _ => honest_phase t | EvSpStatus _ _ => False | _ => True end) H es) as Hh.
    { apply along_all. intros k e He. destruct e as [|t u|sp u| | | | |]; try exact I.
      - eapply pass_honest; [done|by eapply mine_open|done].
      - by eapply pass_no_sp_status. }
    eapply along_impl; [|apply along_and; [by eapply pass_justified; [|apply stored_justified]|exact Hh]].
    intros H' e _ [Hj Hp]. by destruct e.
  - apply along_all. intros k e He. assert (is_metric e = true); [|by destruct e].
    destruct (IsNotFound err); [destruct Hsp as [-> _]; by apply not_elem_of_nil in He|].
    destruct Hsp as (s & -> & _). unfold reconcile_metrics in He.
    rewrite !elem_of_cons in He. by destruct He as [->|[->|[->|?%not_elem_of_nil]]].
Qed.

Lemma activity_ok H es : along event_ok [] H -> activity H es -> along event_ok H es.
Proof using laws.
  intros Hb Ha. destruct Ha as [r req w es Hrts Hst Hsh|P req w es Hs HP Hg Hsh|request w es Hsh|w es Hsh].
  - by eapply task_pass_ok.
  - pose proof (shows_emits _ _ _ _ (emits_Reconcile req) Hsh) as He.
    pose proof (snapshot_pass_promised H P Hs Hb req w HP Hg) as Hp.
    apply along_all. intros k e Hin. specialize (He e Hin). destruct e as [|t u|sp u| | | | |]; try done.
    cbn. destruct Hsh as [Hu (es' & Ht & ->)]. pose proof (total_Reconcile req w Hu) as Htot.
    unfold wlp, wp, post in *. destruct (SnapshotPodController.Reconcile req w) as [[[res err]|s] w']; [|done].
    cbn in *. destruct Hp as (es & Ht' & Hp). rewrite Ht in Ht'. apply app_inv_head in Ht' as ->.
    eapply Forall_impl; [by eapply Hp, elem_of_visible|]. intros x. apply promised_app.
  - apply along_all. intros k e Hin.
    pose proof (shows_emits _ _ _ _ (emits_Handle request) Hsh e Hin) as He. by destruct e.
  - apply along_all. intros k e Hin.
    pose proof (shows_emits _ _ _ _ emits_collectMetrics Hsh e Hin) as He. by destruct e.
Qed.

Lemma history_ok H : history H -> along event_ok [] H.
Proof using laws.
  induction 1 as [|H es _ IH Ha]; [done|]. apply along_app. split; [done|]. by apply activity_ok.
Qed.

Lemma task_pass_typed H r req (w : World E) es :
  runtimes_ok r ->
  (forall t, fst (kc_Get_Task req (w_ext w)) = inl t ->
     stored H t /\ id_ok r (ts_ContainerID (t_Spec t))) ->
  shows (TaskController.Reconcile r req) w es -> Forall typed_event es.
Proof using laws.
  intros Hrts Hst Hsh. eapply shows_does in Hsh as [res Hsp]; cycle 1.
  { apply Reconcile_does; [done|by apply Hsh|].
    destruct (fst (kc_Get_Task req (w_ext w))) as [spt|err]; [|done]. intros _. by apply Hst. }
  destruct (fst (kc_Get_Task req (w_ext w))) as [spt|err]; cbn in Hsp.
  - destruct (mine r spt); [by eapply pass_typed|by destruct Hsp as [-> _]].
  - destruct (IsNotFound err); [by destruct Hsp as [-> _]|].
    destruct Hsp as (s & -> & _). by repeat constructor.
Qed.

(** [C12] Measurements are well typed: in every history of the cluster, each
    measurement uses a method that its vector has, with one value for each of
    the labels it is declared with, so that no recording ever panics. *)
Theorem measurements_typed H v labels o :
  history H -> EvMetric v labels o ∈ H ->
  has_method (vec_type v) o = true /\
  length labels = match o with ResetVec => O | _ => length (label_names v) end.
Proof using laws.
  intros Hh Hin. assert (Forall typed_event H) as HF; [|by eapply Forall_forall in HF; [|exact Hin]].
  clear Hin. induction Hh as [|H es _ IH Ha]; [done|]. apply Forall_app. split; [done|].
  destruct Ha as [r req w es Hrts Hst Hsh|P req w es Hs HP Hg Hsh|request w es Hsh|w es Hsh].
  - by eapply task_pass_typed.
  - apply Forall_forall. intros e He.
    pose proof (shows_emits _ _ _ _ (emits_Reconcile req) Hsh e He) as Hok. by destruct e.
  - apply Forall_forall. intros e He.
    pose proof (shows_emits _ _ _ _ (emits_Handle request) Hsh e He) as Hok. by destruct e.
  - apply Forall_forall. intros e He.
    pose proof (shows_emits _ _ _ _ emits_collectMetrics Hsh e He) as Hok. by destruct e.
Qed.

(** [C2] What the status of a task says has been done: in every history of the
    cluster, before a task is written with the condition Commit the container that
    it names has been committed to its image, with its options and within its
    time; before one with the condition Push is written the image has been pushed
    with the credentials it names, after the commit; and only a task with all
    three conditions is written COMPLETED. *)
Theorem completed_is_pushed pre t u post :
  history (pre ++ EvTaskStatus t u :: post) ->
  (finished RecCommit t = true -> committed pre t) /\
  (finished RecPush t = true -> pushed pre t) /\
  (t_Phase (t_Status t) = SnapshotPodTaskPhaseCompleted -> pushed pre t).
Proof using laws.
  intros Hh%history_ok. apply along_at in Hh as [[Hc Hp] [Hall _]]. split_and!; auto.
Qed.

(** [C1] The promise to the user: in every history of the cluster, when the status of
    a SnapshotPod is written with a run that SUCCEEDED, then before it the
    server has accepted a task with the name of the run as COMPLETED, the
    container that this task names has been committed to the image of the task,
    and after that the image has been pushed with the credentials of the task. *)
Theorem succeeded_is_pushed pre sp u post x :
  history (pre ++ EvSpStatus sp u :: post) ->
  x ∈ sp_Snapshots (sp_Status sp) -> run_Result x = SnapshotRunningResultSuccess ->
  exists t, EvTaskStatus t None ∈ pre /\ Name (t_meta t) = run_TaskName x /\
    t_Phase (t_Status t) = SnapshotPodTaskPhaseCompleted /\ pushed pre t.
Proof using laws.
  intros Hh%history_ok Hx. apply along_at in Hh. cbn in Hh.
  eapply Forall_forall in Hh; [|exact Hx]. exact Hh.
Qed.
End History.

(** ** A history *)

Module SystemWitnesses.
Import Fixtures.Std StdSys TaskWitnesses.

(** The concrete server serves what its map of tasks holds. *)
Definition tasks_stored (H : list Event) (s : Store) : Prop :=
  map_Forall (fun _ t => stored H t) (st_tasks s).

Lemma request_keeps {A} (P : Store -> Prop) (f : Store -> result A * Store) s :
  (forall l s, P s -> P (with_faults l s)) -> (forall s, P s -> P (snd (f s))) ->
  P s -> P (snd (request f s)).
Proof.
  intros Hl Hf Hs. unfold request. destruct (st_faults s) as [|[e|] fs]; cbn; auto.
Qed.

Lemma serves_std H : serves H (tasks_stored H).
Proof.
  assert (forall l s, tasks_stored H s -> tasks_stored H (with_faults l s)) as Hl by done.
  split.
  - intros s ns e items Hs. cbn. unfold request.
    assert (forall s0, tasks_stored H s0 -> Forall (stored H)
      (List.filter (fun t => in_ns ns (t_meta t) && selected s (t_meta t))
         (map snd (map_to_list (st_tasks s0))))) as Hf.
    { intros s0 Hs0. apply Forall_forall. intros t Ht.
      apply list_elem_of_In, filter_In in Ht as [Ht _].
      apply in_map_iff in Ht as ([k t'] & <- & Ht).
      apply list_elem_of_In, elem_of_map_to_list in Ht. by eapply Hs0. }
    destruct (st_faults e) as [|[er|] fs]; cbn; intros [= <-]; by apply Hf.
  - intros k e. by apply request_keeps.
  - intros k e. by apply request_keeps.
  - intros s ns e. by apply request_keeps.
  - intros s ns e. by apply request_keeps.
  - intros t e. apply request_keeps; [done|]. intros s Hs. unfold store_create_task.
    destruct (_ !! _); [done|]. cbn. apply map_Forall_insert_2; [by left|done].
Qed.

(** Decidable forms, for objects that are computed. *)
Definition storedb (H : list Event) (t : SnapshotPodTask) : bool :=
  bool_decide (t_Status t = empty_task_status) ||
  existsb (fun e => match e with
    | EvTaskStatus t0 None =>
        bool_decide (meta_key (t_meta t) = meta_key (t_meta t0)) &&
        bool_decide (Labels (t_meta t) = Labels (t_meta t0)) &&
        bool_decide (t_Spec t = t_Spec t0) && bool_decide (t_Status t = t_Status t0)
    | _ => false
    end) H.

Lemma storedb_stored H t : storedb H t = true -> stored H t.
Proof.
  unfold storedb. intros [Hs%bool_decide_eq_true|(e & Hin & He)%existsb_exists]%orb_true_iff.
  - by left.
  - right. destruct e as [|t0 [u|]| | | | | |]; try done. exists t0. split; [by apply list_elem_of_In|].
    rewrite !andb_true_iff, !bool_decide_eq_true in He. destruct He as [[[Hk Hl] Hs] Hst].
    split_and!; try done; by rewrite Hst.
Qed.

Lemma tasks_storedb H s :
  forallb (fun '(_, t) => storedb H t) (map_to_list (st_tasks s)) = true -> tasks_stored H s.
Proof.
  rewrite forallb_forall. intros Hf. unfold tasks_stored. apply map_Forall_to_list, Forall_forall.
  intros [k t] Hin. apply storedb_stored. by apply (Hf (k, t)), list_elem_of_In.
Qed.

Definition sp_storedb (H : list Event) (sp : SnapshotPod) : bool :=
  bool_decide (runs_of sp = []) ||
  existsb (fun e => match e with
    | EvSpStatus sp0 None => bool_decide (runs_of sp = runs_of sp0) | _ => false end) H.

Lemma sp_storedb_stored H sp : sp_storedb H sp = true -> sp_stored H sp.
Proof.
  unfold sp_storedb. intros [Hs%bool_decide_eq_true|(e & Hin & He)%existsb_exists]%orb_true_iff.
  - by left.
  - right. destruct e as [| |sp0 [u|]| | | | |]; try done. exists sp0.
    apply bool_decide_eq_true in He. split; [by apply list_elem_of_In|done].
Qed.

(** One round: the SnapshotPod controller creates the task, the task controller
    of the node carries it out, the SnapshotPod controller copies the result. *)
Definition sp_one : SnapshotPod :=
  mkSp (fx_meta "ns" "snap") (fx_spec (fx_target "nb" ["main"]) 1 0) (mkSpStatus [] [] 0).
Definition world_a : World Store :=
  mkWorld (mkStore {[ fx_key := sp_one ]} ∅ [fx_pod] secrets 1 []) ∅
          (fun n => fx_now + Z.of_nat n * Second) O (fun _ => std_uuid 0) O (fun _ => O) O [].
Definition world_b : World Store := snd (SnapshotPodController.Reconcile fx_key world_a).
Definition world_c : World Store := snd (TaskController.Reconcile r0 task_key world_b).
Definition world_d : World Store := snd (SnapshotPodController.Reconcile fx_key world_c).
Definition added (w w' : World Store) : list Event :=
  visible (skipn (length (w_trace w)) (w_trace w')).
Definition es1 : list Event := added world_a world_b.
Definition es2 : list Event := added world_b world_c.
Definition es3 : list Event := added world_c world_d.

#[local] Instance wit_json : PodJson := WebhookWitnesses.json_pod fx_pod.

Lemma shows_added {A} (m : M Store A) (w : World Store) :
  uuid_ok w ->
  w_trace (snd (m w)) = w_trace w ++ skipn (length (w_trace w)) (w_trace (snd (m w))) ->
  shows m w (added w (snd (m w))).
Proof. intros Hu Ht. split; [done|]. by eexists. Qed.

Lemma uuid_same (w : World Store) : w_uuid w = (fun _ => std_uuid 0) -> uuid_ok w.
Proof. intros Hw n. rewrite Hw. apply fx_uuid_0. Qed.

Lemma history_1 : history es1.
Proof.
  apply (history_next [] es1); [constructor|].
  apply (snapshot_activity _ (tasks_stored []) fx_key world_a).
  - apply serves_std.
  - apply map_Forall_empty.
  - intros sp [= <-]. by left.
  - change es1 with (added world_a (snd (SnapshotPodController.Reconcile fx_key world_a))).
    apply shows_added; [by apply uuid_same|vm_compute; reflexivity].
Qed.

Definition or_else {A} (x : result A) (a : A) : A := match x with inl b => b | inr _ => a end.
Definition task_b : SnapshotPodTask := or_else (fst (kc_Get_Task task_key (w_ext world_b))) task0.
Definition sp_c : SnapshotPod := or_else (fst (kc_Get_SnapshotPod fx_key (w_ext world_c))) sp_one.

Lemma history_2 : history (es1 ++ es2).
Proof.
  apply history_next; [apply history_1|]. apply (task_activity _ r0 task_key world_b).
  - apply r0_runtimes.
  - intros t Ht. assert (fst (kc_Get_Task task_key (w_ext world_b)) = inl task_b) as Hb
      by (vm_compute; reflexivity).
    rewrite Hb in Ht. apply (inj inl) in Ht as <-. split.
    + apply storedb_stored. vm_compute. reflexivity.
    + right. vm_compute. reflexivity.
  - change es2 with (added world_b (snd (TaskController.Reconcile r0 task_key world_b))).
    apply shows_added; [apply uuid_same; vm_compute; reflexivity|vm_compute; reflexivity].
Qed.

Lemma history_3 : history ((es1 ++ es2) ++ es3).
Proof.
  apply history_next; [apply history_2|].
  apply (snapshot_activity _ (tasks_stored (es1 ++ es2)) fx_key world_c).
  - apply serves_std.
  - apply tasks_storedb. vm_compute. reflexivity.
  - intros sp Hsp. assert (fst (kc_Get_SnapshotPod fx_key (w_ext world_c)) = inl sp_c) as Hc
      by (vm_compute; reflexivity).
    rewrite Hc in Hsp. apply (inj inl) in Hsp as <-. apply sp_storedb_stored. vm_compute. reflexivity.
  - change es3 with (added world_c (snd (SnapshotPodController.Reconcile fx_key world_c))).
    apply shows_added; [apply uuid_same; vm_compute; reflexivity|vm_compute; reflexivity].
Qed.

Definition sp_d : SnapshotPod := match es3 with EvSpStatus sp _ :: _ => sp | _ => sp_one end.
Definition run_d : SnapshotRunningStatus :=
  match sp_Snapshots (sp_Status sp_d) with x :: _ => x | [] => WebhookWitnesses.run_of 0 "" "" "" end.

Lemma succeeded_is_pushed_witness :
  exists t, EvTaskStatus t None ∈ es1 ++ es2 /\ Name (t_meta t) = run_TaskName run_d /\
    t_Phase (t_Status t) = SnapshotPodTaskPhaseCompleted /\ pushed (es1 ++ es2) t.
Proof.
  apply (succeeded_is_pushed (es1 ++ es2) sp_d None (tl es3) run_d).
  - assert (EvSpStatus sp_d None :: tl es3 = es3) as -> by (vm_compute; reflexivity).
    apply history_3.
  - assert (sp_Snapshots (sp_Status sp_d) = [run_d]) as -> by (vm_compute; reflexivity).
    apply list_elem_of_here.
  - vm_compute. reflexivity.
Defined.

Lemma measurements_typed_witness :
  has_method (vec_type ImageMetrics_PushTotal) Inc = true /\
  length ["success"; "reg.io"; "ns"; "snap"] = length (label_names ImageMetrics_PushTotal).
Proof.
  apply (measurements_typed (es1 ++ es2) ImageMetrics_PushTotal ["success"; "reg.io"; "ns"; "snap"] Inc).
  - apply history_2.
  - apply elem_of_app. right. eapply list_elem_of_lookup_2 with (i := 6%nat). vm_compute. reflexivity.
Defined.

(** The last write of the task. *)
Definition task_d : SnapshotPodTask :=
  match nth 9 es2 (EvFs (FsMkdirTemp "")) with EvTaskStatus t _ => t | _ => task0 end.

Lemma completed_is_pushed_witness :
  (finished RecCommit task_d = true -> committed (es1 ++ take 9 es2) task_d) /\
  (finished RecPush task_d = true -> pushed (es1 ++ take 9 es2) task_d) /\
  (t_Phase (t_Status task_d) = SnapshotPodTaskPhaseCompleted -> pushed (es1 ++ take 9 es2) task_d).
Proof.
  apply (completed_is_pushed (es1 ++ take 9 es2) task_d None (skipn 10 es2)).
  assert ((es1 ++ take 9 es2) ++ EvTaskStatus task_d None :: skipn 10 es2 = es1 ++ es2) as ->
    by (vm_compute; reflexivity).
  apply history_2.
Defined.
End SystemWitnesses.
