(* ===== verification/Main.v ===== *)
(** * The program ([cmd/main.go])

    One binary for both roles: with [SNAP_TASK_NODE_NAME] set it is the agent of
    a node and runs the task controller; without, it is the cluster-wide part
    and runs the SnapshotPod controller, the certificate rotation and the
    webhook.  Both run the metrics collector.  [boot] is the whole process, from
    the registration of the metrics and the types to [mgr.Start], with its other
    goroutines: the handler of the signals, the collector, and the one that waits
    for the certificates.

    What controller-runtime and cert-controller do is the class [Platform]: one
    operation per call, with the error it returns.  The flags of the libraries
    are the class [LibFlags].  The Prometheus client is [Promauto]. *)

From S2P Require Import Prelude GoStrings ApiTypes World Lo Cluster Store Fixtures Metrics.
From S2P Require Import MetricRegistry Runtime TaskController TaskSpec Collector GoFlag Process.

#[local] Set Warnings "-clear-no-such-hyp".

(** ** Options *)

(** The field of [tls.Config] the program sets. *)
Record tls_Config := { NextProtos : list string }.

Record WebhookServerOptions := {
  ws_TLSOpts : list (tls_Config -> tls_Config);
  ws_CertDir : string
}.

Record ManagerOptions := {
  mo_BindAddress : string;
  mo_SecureServing : bool;
  mo_TLSOpts : list (tls_Config -> tls_Config);
  mo_WebhookServer : WebhookServerOptions;
  mo_HealthProbeBindAddress : string;
  mo_LeaderElection : bool;
  mo_LeaderElectionID : string
}.

(** [rotator.CertRotator], with one mutating webhook. *)
Record CertRotator := {
  cr_SecretKey : string * string;
  cr_CertDir : string;
  cr_RequireLeaderElection : bool;
  cr_CAName : string;
  cr_CAOrganization : string;
  cr_DNSName : string;
  cr_MutatingWebhook : string;
  cr_FieldOwner : string
}.

(** The variables of the program's own flags. *)
Record Flags := {
  metricsAddr : string;
  probeAddr : string;
  enableLeaderElection : bool;
  secureMetrics : bool;
  enableHTTP2 : bool;
  systemWideDockerConfigPath : string;
  certDir : string
}.

Definition set_metricsAddr v f := Build_Flags v (probeAddr f) (enableLeaderElection f)
  (secureMetrics f) (enableHTTP2 f) (systemWideDockerConfigPath f) (certDir f).
Definition set_probeAddr v f := Build_Flags (metricsAddr f) v (enableLeaderElection f)
  (secureMetrics f) (enableHTTP2 f) (systemWideDockerConfigPath f) (certDir f).
Definition set_enableLeaderElection v f := Build_Flags (metricsAddr f) (probeAddr f) v
  (secureMetrics f) (enableHTTP2 f) (systemWideDockerConfigPath f) (certDir f).
Definition set_secureMetrics v f := Build_Flags (metricsAddr f) (probeAddr f)
  (enableLeaderElection f) v (enableHTTP2 f) (systemWideDockerConfigPath f) (certDir f).
Definition set_enableHTTP2 v f := Build_Flags (metricsAddr f) (probeAddr f)
  (enableLeaderElection f) (secureMetrics f) v (systemWideDockerConfigPath f) (certDir f).
Definition set_systemWideDockerConfigPath v f := Build_Flags (metricsAddr f) (probeAddr f)
  (enableLeaderElection f) (secureMetrics f) (enableHTTP2 f) v (certDir f).
Definition set_certDir v f := Build_Flags (metricsAddr f) (probeAddr f)
  (enableLeaderElection f) (secureMetrics f) (enableHTTP2 f) (systemWideDockerConfigPath f) v.

(** The defaults the flags are declared with. *)
Definition default_flags : Flags :=
  {| metricsAddr := ":8080"; probeAddr := ":8081"; enableLeaderElection := false;
     secureMetrics := false; enableHTTP2 := false; systemWideDockerConfigPath := "";
     certDir := "" |}.

Definition main_flags : list (Flag Flags) :=
  [StringVar set_metricsAddr "metrics-bind-address";
   StringVar set_probeAddr "health-probe-bind-address";
   BoolVar set_enableLeaderElection "leader-elect";
   BoolVar set_secureMetrics "metrics-secure";
   BoolVar set_enableHTTP2 "enable-http2";
   StringVar set_systemWideDockerConfigPath "system-wide-docker-config-path";
   StringVar set_certDir "cert-dir"].

(** ** The libraries *)

(** Flags that the libraries define, over variables of their own: on import, and
    in [zap.Options.BindFlags]. *)
Class LibFlags := {
  LibOpts : Type;
  lib_opts : LibOpts;
  import_flags : list (Flag LibOpts);
  BindFlags : list (Flag LibOpts)
}.

(** The reconcilers the program registers. *)
Inductive Controller (E : Type) :=
| ForSnapshotPodTask (r : SnapshotPodTaskReconciler E)
| ForSnapshotPod.
Arguments ForSnapshotPodTask {E}. Arguments ForSnapshotPod {E}.

(** controller-runtime and cert-controller. *)
Class Platform `{!Promauto} (E : Type) := {
  (* [crmetrics.Registry] *)
  pf_Registry : E -> Registry;
  pf_set_Registry : Registry -> E -> E;
  pf_clientgo_AddToScheme : E -> option GoError * E;
  pf_AddToScheme : GroupVersion -> list string -> E -> option GoError * E;
  pf_GetConfig : E -> option GoError * E;
  pf_NewManager : ManagerOptions -> E -> option GoError * E;
  pf_ReadFile : string -> E -> result string * E;
  pf_Complete : Controller E -> E -> option GoError * E;
  pf_AddRotator : CertRotator -> E -> option GoError * E;
  (* the channel [IsReady] is closed *)
  pf_ready : E -> bool * E;
  (* [Register] on the webhook server, which returns nothing, and [Complete] *)
  pf_Register : string -> E -> E;
  pf_Complete_webhook : E -> option GoError * E;
  (* "SetupSignalHandler registers for SIGTERM and SIGINT. A context is returned
     which is canceled on one of these signals. If a second signal is caught, the
     program is terminated with exit code 1."  Whether it has been caught: *)
  pf_SetupSignalHandler : E -> E;
  pf_second_signal : E -> bool * E;
  (* what the [select] of the collector receives next: [Done] when the context
     is cancelled *)
  pf_signal : E -> signal * E;
  pf_AddHealthzCheck : string -> E -> option GoError * E;
  pf_AddReadyzCheck : string -> E -> option GoError * E;
  (* [mgr.Start] returns when the manager has stopped, be it that the context was
     cancelled *)
  pf_Start : E -> option GoError * E
}.

(** The calls of the process. *)
Inductive Action (E : Type) :=
| RegisterMetrics
| AddClientgoToScheme
| AddToScheme (gv : GroupVersion) (objects : list string)
| GetConfig
| NewManager (o : ManagerOptions)
| ReadFile (path : string)
| WriteFile (path content : string)
| SetupRuntimes
| Complete (c : Controller E)
| AddRotator (c : CertRotator)
| CompleteWebhook (path : string)
| SetupSignalHandler
| SecondSignal                                       (* caught by the handler *)
| AddHealthzCheck (name : string)
| AddReadyzCheck (name : string)
| StartManager.
Arguments RegisterMetrics {E}. Arguments AddClientgoToScheme {E}. Arguments AddToScheme {E}. Arguments GetConfig {E}.
Arguments NewManager {E}. Arguments ReadFile {E}. Arguments WriteFile {E}.
Arguments SetupRuntimes {E}. Arguments Complete {E}. Arguments AddRotator {E}.
Arguments CompleteWebhook {E}. Arguments SetupSignalHandler {E}. Arguments SecondSignal {E}.
Arguments AddHealthzCheck {E}. Arguments AddReadyzCheck {E}.
Arguments StartManager {E}.

(** ** The program *)

(** What the [init] functions of the two files of types register, and
    [SchemeBuilder] after both have run. *)
Definition SnapshotPod_types : list string := ["SnapshotPod"; "SnapshotPodList"].
Definition SnapshotPodTask_types : list string := ["SnapshotPodTask"; "SnapshotPodTaskList"].
Definition SchemeBuilder : list string := SnapshotPod_types ++ SnapshotPodTask_types.

(** [disableHTTP2] *)
Definition disableHTTP2 (c : tls_Config) : tls_Config := {| NextProtos := ["http/1.1"] |}.

Definition tlsOpts (f : Flags) : list (tls_Config -> tls_Config) :=
  if negb (enableHTTP2 f) then [disableHTTP2] else [].

Definition manager_options (f : Flags) : ManagerOptions :=
  {| mo_BindAddress := metricsAddr f; mo_SecureServing := secureMetrics f;
     mo_TLSOpts := tlsOpts f;
     mo_WebhookServer := {| ws_TLSOpts := tlsOpts f; ws_CertDir := certDir f |};
     mo_HealthProbeBindAddress := probeAddr f;
     mo_LeaderElection := enableLeaderElection f;
     mo_LeaderElectionID := "bb519aed.baizeai.io" |}.

Definition env_get (env : gmap string string) (k : string) : string := default "" (env !! k).

(** The rotator in namespace [ns]. *)
Definition cert_rotator (f : Flags) (ns secret service webhook : string) : CertRotator :=
  {| cr_SecretKey := (ns, secret); cr_CertDir := certDir f;
     cr_RequireLeaderElection := false; cr_CAName := "Webhook";
     cr_CAOrganization := "SnapshotPod"; cr_DNSName := service +:+ "." +:+ ns +:+ ".svc";
     cr_MutatingWebhook := webhook; cr_FieldOwner := "SnapshotPod" |}.

Section Main.
Context {E : Type} {lib : Lo} {kl : KubeLib} {kc : KubeClient E}
        {sys : Sys E} {sv : Semver} {eng : Engine E} {lf : LibFlags}
        {pa : Promauto} {pf : Platform E}.

Abbreviation Pr := (@P E (Action E)).
#[local] Open Scope proc_scope.

Definition os_Getenv (k : string) : M E string := env ← getenv; mret (env_get env k).

(** [utilruntime.Must], and [if err != nil] with [panic] or [os.Exit(1)]. *)
Definition panic_on (err : option GoError) : Pr () :=
  match err with Some e => go_panic (err_text e) | None => pret tt end.
Definition exit_on (err : option GoError) : Pr () :=
  match err with Some _ => exit 1 | None => pret tt end.

(** The package variables of [metrics]. *)
Definition register_metrics (e : E) : option GoError * E :=
  match metrics_init (pf_Registry e) with
  | inl r => (None, pf_set_Registry r e)
  | inr err => (Some err, e)
  end.

(** Package initialisation: the variables of the imported packages, then the
    [init] functions. *)
Definition init : Pr () :=
  err ⇐ call RegisterMetrics (external register_metrics);
  panic_on err ;+
  err ⇐ call AddClientgoToScheme (external pf_clientgo_AddToScheme);
  panic_on err ;+
  err ⇐ call (AddToScheme ApiGroupVersion SchemeBuilder)
             (external (pf_AddToScheme ApiGroupVersion SchemeBuilder));
  panic_on err.

(** The command line: the flags of imported packages, of [main], of zap. *)
Definition command_line : list (Flag (Flags * LibOpts)) :=
  map (lift_flag snd (fun l g => (fst g, l))) import_flags ++
  map (lift_flag fst (fun f g => (f, snd g))) main_flags ++
  map (lift_flag snd (fun l g => (fst g, l))) BindFlags.

(** Two definitions of one flag make [flag.Var] panic. *)
Definition flags_distinct : bool := bool_decide (NoDup (map flag_name command_line)).

Definition parse_flags (args : list string) : parsed (Flags * LibOpts) :=
  Parse command_line args (default_flags, lib_opts).

(** [SetupWithManager] of the two reconcilers. *)
Definition Task_SetupWithManager (nodeName : string) : Pr (option GoError) :=
  rts ⇐ call_result SetupRuntimes setup_runtimeMap;
  match rts with
  | inr err => pret (Some err)
  | inl rts =>
      let c := ForSnapshotPodTask {| NodeName := nodeName; runtimeMap := rts |} in
      call (Complete c) (external (pf_Complete c))
  end.

Definition SnapshotPod_SetupWithManager : Pr (option GoError) :=
  call (Complete ForSnapshotPod) (external (pf_Complete ForSnapshotPod)).

Definition SetupWebhookWithManager : Pr (option GoError) :=
  code (external (fun e => (tt, pf_Register "/mutate-v1-pod" e))) ;+
  call (CompleteWebhook "/mutate-v1-pod") (external pf_Complete_webhook).

(** The Docker configuration of the node: [os.UserHomeDir] is [$HOME], and empty
    if that is not set. *)
Definition install_docker_config (f : Flags) : Pr () :=
  if bool_decide (systemWideDockerConfigPath f <> "") then
    h ⇐ code (os_Getenv "HOME");
    bs ⇐ call_result (ReadFile (systemWideDockerConfigPath f))
                     (external (pf_ReadFile (systemWideDockerConfigPath f)));
    match bs with
    | inr err => go_panic (err_text err)
    | inl bs =>
        let path := Join_path [h; ".docker"; "config.json"] in
        err ⇐ call (WriteFile path bs) (os_WriteFile path bs);
        panic_on err
    end
  else pret tt.

Definition agent (f : Flags) (nn : string) : Pr () :=
  install_docker_config f ;+
  err ⇐ Task_SetupWithManager nn;
  exit_on err.

(** The goroutine that waits for the certificates. *)
Definition serve_webhook : Pr () :=
  receive (external pf_ready) ;+
  err ⇐ SetupWebhookWithManager;
  exit_on err.

Definition cluster_part (f : Flags) : Pr () :=
  err ⇐ SnapshotPod_SetupWithManager;
  exit_on err ;+
  envNS ⇐ code (os_Getenv "POD_NAMESPACE");
  if bool_decide (envNS <> "") then
    secret ⇐ code (os_Getenv "TLS_SECRET_NAME");
    service ⇐ code (os_Getenv "MUTATE_WEBHOOK_SVC_NAME");
    webhook ⇐ code (os_Getenv "MUTATE_WEBHOOK_NAME");
    let c := cert_rotator f envNS secret service webhook in
    err ⇐ call (AddRotator c) (external (pf_AddRotator c));
    panic_on err ;+
    spawn serve_webhook
  else go_panic "env POD_NAMESPACE must specified".

(** One iteration of the collector's [for]. *)
Definition collector_iteration : M E bool :=
  s ← external pf_signal;
  match s with
  | Tick => collectMetrics ;; mret true
  | Done => mret false
  end.

(** The handler that [ctrl.SetupSignalHandler] starts.  The first signal shows in
    the answers of the platform: the context is cancelled. *)
Definition signal_handler : Pr () :=
  receive (external pf_second_signal) ;+
  _ ⇐ call SecondSignal (mret None);
  exit 1.

Definition setup_signal_handler : Pr () :=
  _ ⇐ call SetupSignalHandler (external (fun e => (None, pf_SetupSignalHandler e)));
  spawn signal_handler.

(** The end of [main]: the signals, the collector, the checks, the manager. *)
Definition serve : Pr () :=
  setup_signal_handler ;+
  spawn (loop collector_iteration) ;+
  err ⇐ call (AddHealthzCheck "healthz") (external (pf_AddHealthzCheck "healthz"));
  exit_on err ;+
  err ⇐ call (AddReadyzCheck "readyz") (external (pf_AddReadyzCheck "readyz"));
  exit_on err ;+
  err ⇐ call StartManager (external pf_Start);
  exit_on err.

Definition main (args : list string) : Pr () :=
  if negb flags_distinct then go_panic "flag redefined" else
  match parse_flags args with
  | HelpRequested => exit 0
  | ParseError _ => exit 2
  | Parsed (f, _) _ =>
      err ⇐ call GetConfig (external pf_GetConfig);
      exit_on err ;+
      err ⇐ call (NewManager (manager_options f)) (external (pf_NewManager (manager_options f)));
      exit_on err ;+
      nn ⇐ code (os_Getenv "SNAP_TASK_NODE_NAME");
      (if bool_decide (nn <> "") then agent f nn else cluster_part f) ;+
      serve
  end.

(** The process: package initialisation, then [main]. *)
Definition boot (args : list string) : Pr () := init ;+ main args.

(** ** The specification of a start

    What must have been done before each call, in a process with the environment
    [env] and the arguments [args], and why it may end. *)

Section Spec.
Variable env : gmap string string.
Variable args : list string.
Implicit Types K : list (@entry (Action E)).

(** [a] was called and returned no error; some call returned one. *)
Definition done K (a : Action E) : Prop := mkEntry a None ∈ K.
Definition some_failed K : Prop := exists a e, mkEntry a (Some e) ∈ K.

Definition node_name : string := env_get env "SNAP_TASK_NODE_NAME".
Definition namespace : string := env_get env "POD_NAMESPACE".

Definition flags_are (f : Flags) : Prop := exists l rest, parse_flags args = Parsed (f, l) rest.

Definition docker_config_path : string := Join_path [env_get env "HOME"; ".docker"; "config.json"].

(** The setup of the role of the process is complete. *)
Definition role_ready K : Prop :=
  if bool_decide (node_name <> "")
  then exists r, done K (Complete (ForSnapshotPodTask r))
  else exists c, done K (AddRotator c).

Definition guard K (a : Action E) : Prop :=
  match a with
  | RegisterMetrics => True
  | AddClientgoToScheme => done K RegisterMetrics
  | AddToScheme gv objects =>
      done K AddClientgoToScheme /\ gv = ApiGroupVersion /\ objects = SchemeBuilder
  | GetConfig => done K (AddToScheme ApiGroupVersion SchemeBuilder)
  | NewManager o => done K GetConfig /\ exists f, flags_are f /\ o = manager_options f
  | ReadFile path =>
      (exists o, done K (NewManager o)) /\ node_name <> "" /\
      exists f, flags_are f /\ path = systemWideDockerConfigPath f
  | WriteFile path _ =>
      (exists p, done K (ReadFile p)) /\ node_name <> "" /\ path = docker_config_path
  | SetupRuntimes =>
      (exists o, done K (NewManager o)) /\ node_name <> "" /\
      exists f, flags_are f /\
        (systemWideDockerConfigPath f <> "" -> exists bs, done K (WriteFile docker_config_path bs))
  | Complete (ForSnapshotPodTask r) =>
      done K SetupRuntimes /\ node_name <> "" /\ NodeName r = node_name /\ runtimes_ok r
  | Complete ForSnapshotPod => (exists o, done K (NewManager o)) /\ node_name = ""
  | AddRotator c =>
      done K (Complete ForSnapshotPod) /\ node_name = "" /\ namespace <> "" /\
      exists f, flags_are f /\
        c = cert_rotator f namespace (env_get env "TLS_SECRET_NAME")
              (env_get env "MUTATE_WEBHOOK_SVC_NAME") (env_get env "MUTATE_WEBHOOK_NAME")
  | CompleteWebhook _ => (exists c, done K (AddRotator c)) /\ node_name = ""
  | SetupSignalHandler => role_ready K
  | SecondSignal => done K SetupSignalHandler
  | AddHealthzCheck name => done K SetupSignalHandler /\ role_ready K /\ name = "healthz"
  | AddReadyzCheck name => done K (AddHealthzCheck "healthz") /\ name = "readyz"
  | StartManager => done K (AddReadyzCheck "readyz")
  end.

(** Why the process may end. *)
Definition reason K (e : ending) : Prop :=
  match e with
  | Exited 0 => parse_flags args = HelpRequested \/ done K StartManager
  | Exited 1 => some_failed K \/ done K SecondSignal
  | Exited 2 => exists err, parse_flags args = ParseError err
  | Exited _ => False
  | Crashed msg =>
      some_failed K \/ (node_name = "" /\ namespace = "") \/
      (node_name <> "" /\ msg = "Invalid Semantic Version") \/ flags_distinct = false
  end.

Lemma guard_mono K K' a : K ⊆ K' -> guard K a -> guard K' a.
Proof using Type.
  intros HK0. unfold guard, role_ready, done. pose proof HK0 as HK. unfold subseteq, list_subseteq in HK.
  destruct a as [| | | | | | | |[r|]| | | | |name|name|]; try case_bool_decide; clear HK0; naive_solver.
Qed.

Lemma reason_mono K K' e : K ⊆ K' -> reason K e -> reason K' e.
Proof using Type.
  intros HK0. unfold reason, some_failed, done. pose proof HK0 as HK.
  unfold subseteq, list_subseteq in HK. clear HK0.
  destruct e as [[|[[]|[]|]|]|msg]; naive_solver.
Qed.

(** ** Every start follows the specification *)

Abbreviation Safe := (safe (fun w => w_env w = env) guard reason).

Lemma safe_call_tame main K a (m : M E (option GoError)) (k : option GoError -> proc) :
  guard K a -> tame (fun _ => False) m ->
  (forall err, Safe main (K ++ [mkEntry a err]) (k err)) -> Safe main K (call a m k).
Proof using Type.
  intros Hg Hm Hk. split; [done|]. intros w Hw. specialize (Hm w). unfold post in *.
  destruct (m w) as [[err|msg] w']; cbn in *; [|by destruct Hm as (_ & _ & [])].
  split; [by destruct Hm as [-> _]|apply Hk].
Qed.

(** A call whose error ends the process, in one of two ways. *)
Lemma safe_or_panic main K a m (k : () -> proc) :
  guard K a -> tame (fun _ => False) m -> Safe main (K ++ [mkEntry a None]) (k tt) ->
  Safe main K (call a m (fun err => panic_on err k)).
Proof using Type.
  intros Hg Hm Hk. apply safe_call_tame; [done..|]. intros [e|]; [|exact Hk].
  left. exists a, e. apply elem_of_app. right. apply list_elem_of_here.
Qed.

Lemma safe_or_exit main K a m (k : () -> proc) :
  guard K a -> tame (fun _ => False) m -> Safe main (K ++ [mkEntry a None]) (k tt) ->
  Safe main K (call a m (fun err => exit_on err k)).
Proof using Type.
  intros Hg Hm Hk. apply safe_call_tame; [done..|]. intros [e|]; [|exact Hk]. left.
  exists a, e. apply elem_of_app. right. apply list_elem_of_here.
Qed.

Lemma safe_getenv main K key (k : string -> proc) :
  Safe main K (k (env_get env key)) -> Safe main K (code (os_Getenv key) k).
Proof using Type. intros Hk w Hw. unfold post, os_Getenv, getenv, mbind, M_bind. cbn. by rewrite Hw. Qed.

Lemma safe_external {A} main K (f : E -> A * E) (k : A -> proc) :
  (forall a, Safe main K (k a)) -> Safe main K (code (external f) k).
Proof using Type.
  intros Hk w Hw. unfold post, external. destruct (f (w_ext w)) as [a e]. split; [exact Hw|apply Hk].
Qed.

Lemma done_here K a : done (K ++ [mkEntry a None]) a.
Proof using Type. apply elem_of_app. right. apply list_elem_of_here. Qed.
Lemma done_app K a e : done K a -> done (K ++ [e]) a.
Proof using Type. intros Ha. apply elem_of_app. by left. Qed.
Hint Resolve done_here done_app : core.

Lemma safe_install f K k :
  flags_are f -> (exists o, done K (NewManager o)) -> node_name <> "" ->
  (forall K', K ⊆ K' ->
     (systemWideDockerConfigPath f <> "" -> exists bs, done K' (WriteFile docker_config_path bs)) ->
     Safe true K' (k tt)) ->
  Safe true K (install_docker_config f k).
Proof using Type.
  intros Hf Hm Hn Hk. unfold install_docker_config. case_bool_decide as Hp;
    [|apply Hk; [reflexivity|intros Hq; destruct (Hq Hp)]].
  apply safe_getenv. split; [by cbn; eauto 6|]. intros w Hw. unfold post, external.
  destruct (pf_ReadFile _ _) as [[bs|e] w']; (split; [exact Hw|]).
  - apply safe_or_panic; [cbn; eauto| |].
    + unfold os_WriteFile. tame.
    + apply Hk; [|by eauto]. intros x Hx. do 2 (apply elem_of_app; left). exact Hx.
  - left. eexists _, e. apply elem_of_app. right. apply list_elem_of_here.
Qed.

Lemma safe_agent f K k :
  flags_are f -> (exists o, done K (NewManager o)) -> node_name <> "" ->
  (forall K', role_ready K' -> Safe true K' (k tt)) -> Safe true K (agent f node_name k).
Proof using Type.
  intros Hf [o Hm] Hn Hk. apply safe_install; [by eauto..|]. intros K' HK Hw.
  assert (done K' (NewManager o)) as Hm' by (by apply HK). split; [by cbn; eauto 7|]. intros w Hw'.
  pose proof (setup_runtimeMap_post w) as Hs. unfold post in *.
  destruct (setup_runtimeMap w) as [[[rts|e]|msg] w']; destruct Hs as (He & _ & Hs).
  - split; [congruence|]. apply safe_or_exit; [|apply tame_external|].
    + by cbn; eauto.
    + apply Hk. unfold role_ready. rewrite bool_decide_true by done. eauto.
  - split; [congruence|]. left. eexists _, e. apply elem_of_app. right. apply list_elem_of_here.
  - right; right; left. by split.
Qed.

Lemma safe_serve_webhook K :
  (exists c, done K (AddRotator c)) -> node_name = "" -> Safe false K (serve_webhook (fun _ => PDone)).
Proof using Type.
  intros Hc Hn. split.
  - intros w Hw. unfold post, external, mbind, M_bind.
    destruct (pf_ready (w_ext w)) as [b e]. by destruct b.
  - apply safe_external. intros _. by apply safe_or_exit; [|apply tame_external|].
Qed.

Lemma safe_cluster_part f K k :
  flags_are f -> (exists o, done K (NewManager o)) -> node_name = "" ->
  (forall K', role_ready K' -> Safe true K' (k tt)) -> Safe true K (cluster_part f k).
Proof using Type.
  intros Hf Hm Hn Hk. apply safe_or_exit; [by split|apply tame_external|].
  apply safe_getenv. case_bool_decide as Hns.
  - do 3 apply safe_getenv. apply safe_or_panic; [by cbn; eauto 6|apply tame_external|].
    split; [apply safe_serve_webhook; [by eauto|done]|]. apply Hk.
    unfold role_ready. rewrite bool_decide_false by (intros ?; done). eauto.
  - right; left. by split.
Qed.

Lemma tame_collector : tame (fun _ => False) collector_iteration.
Proof using Type. pose proof tame_collectMetrics. unfold collector_iteration. tame. Qed.

Lemma safe_collector K : Safe false K (loop collector_iteration (fun _ => PDone)).
Proof using Type.
  split; [|done]. intros w Hw. pose proof (tame_collector w) as Ht. unfold post in *.
  destruct (collector_iteration w) as [[b|msg] w']; cbn in *; [|by destruct Ht as (_ & _ & [])].
  by destruct Ht as [-> _].
Qed.

Lemma safe_receive main K (f : E -> bool * E) (k : () -> proc) :
  Safe main K (k tt) -> Safe main K (receive (external f) k).
Proof using Type.
  intros Hk. split; [|exact Hk]. intros w Hw. unfold post, external, mbind, M_bind.
  by destruct (f (w_ext w)) as [b e].
Qed.

Lemma safe_signal_handler K :
  done K SetupSignalHandler -> Safe false K (signal_handler (fun _ => PDone)).
Proof using Type.
  intros Hs. apply safe_receive. split; [done|]. intros w Hw. split; [exact Hw|].
  right. apply done_here.
Qed.

Lemma role_ready_app K e : role_ready K -> role_ready (K ++ [e]).
Proof using Type. unfold role_ready. case_bool_decide; intros [x Hx]; exists x; by apply done_app. Qed.

Lemma safe_serve K : role_ready K -> Safe true K (serve (fun _ => PDone)).
Proof using Type.
  intros Hr. split; [done|]. intros w Hw. split; [exact Hw|]. cbn [result_err].
  split; [apply safe_signal_handler, done_here|]. split; [apply safe_collector|].
  apply safe_or_exit; [by split_and!; [|apply role_ready_app|]|apply tame_external|].
  apply safe_or_exit; [by cbn; eauto|apply tame_external|].
  apply safe_or_exit; [by cbn; eauto|apply tame_external|]. right. eauto.
Qed.

Lemma safe_main K :
  done K (AddToScheme ApiGroupVersion SchemeBuilder) -> Safe true K (main args (fun _ => PDone)).
Proof using Type.
  intros Hs. unfold main. destruct flags_distinct eqn:Hd; [cbn [negb]|by right; right; right].
  destruct (parse_flags args) as [[f l] rest| |e] eqn:Hp; [|by left|by exists e].
  assert (flags_are f) as Hf by (by eexists _, _).
  apply safe_or_exit; [done|apply tame_external|].
  apply safe_or_exit; [by cbn; eauto|apply tame_external|]. apply safe_getenv.
  unfold pbind at 1. case_bool_decide as Hn.
  - apply safe_agent; [done|eexists; apply done_here|done|apply safe_serve].
  - apply safe_cluster_part; [done|eexists; apply done_here|done|apply safe_serve].
Qed.

Lemma safe_boot : Safe true [] (boot args (fun _ => PDone)).
Proof using Type.
  apply safe_or_panic; [done|apply tame_external|].
  apply safe_or_panic; [apply (done_here [])|apply tame_external|].
  apply safe_or_panic; [by split; [apply done_here|]|apply tame_external|].
  apply safe_main, done_here.
Qed.

End Spec.

(** ** Theorems *)

Lemma boot_runs args w schedule :
  safe_state (fun w' => w_env w' = w_env w) (guard (w_env w) args) (reason (w_env w) args)
    (run schedule (start (boot args) w)).
Proof using Type.
  apply safe_run; [apply guard_mono|apply reason_mono|done|apply safe_boot].
Qed.

Lemma boot_guarded args w schedule a e :
  mkEntry a e ∈ calls (run schedule (start (boot args) w)) ->
  exists H, H ⊆ calls (run schedule (start (boot args) w)) /\ guard (w_env w) args H a.
Proof using Type.
  intros Hin. destruct (boot_runs args w schedule) as [Hg _].
  destruct (along_in _ _ _ Hg Hin) as (pre & post & Heq & Ha). exists pre. split; [|exact Ha].
  rewrite Heq. apply list_subseteq_app_l. reflexivity.
Qed.

(** [C14] The order of a start: in every interleaving of the goroutines, each call is
    made only after the calls it depends on have succeeded, with the options the
    command line and the environment give.  The
    metrics are registered first of all.  An agent registers a reconciler of
    its own node, with runtimes that the theorems on the task controller hold
    for; the webhook is served only after the certificates are taken care of;
    the checks are made after the signals have their handler, and the manager
    starts only when the role is set up and both checks are there. *)
Theorem startup_order args w schedule :
  along (fun H e => guard (w_env w) args H (action e)) []
    (calls (run schedule (start (boot args) w))).
Proof using Type. apply boot_runs. Qed.

(** [C16] Why a process ends: code 0 stands for a call for help or a manager that
    stopped in order, 1 for a call that failed or a second signal that the handler
    caught, 2 for a bad command line, and a panic for a failed call, be it the
    registration of the metrics, a missing namespace, a version that cannot be
    parsed, or two flags of one name. *)
Theorem exit_explained args w schedule e :
  p_end (run schedule (start (boot args) w)) = Some e ->
  reason (w_env w) args (calls (run schedule (start (boot args) w))) e.
Proof using Type.
  intros He. destruct (boot_runs args w schedule) as [_ Hs]. by rewrite He in Hs.
Qed.

(** One process has one role. *)
Theorem one_role args w schedule a e :
  mkEntry a e ∈ calls (run schedule (start (boot args) w)) ->
  match a with
  | ReadFile _ | WriteFile _ _ | SetupRuntimes => node_name (w_env w) <> ""
  | Complete (ForSnapshotPodTask r) => node_name (w_env w) <> "" /\ NodeName r = node_name (w_env w)
  | Complete ForSnapshotPod | AddRotator _ | CompleteWebhook _ => node_name (w_env w) = ""
  | _ => True
  end.
Proof using Type.
  intros Hin. apply boot_guarded in Hin as (H & _ & Hg).
  destruct a as [| | | | | | | |[r|]| | | | | | |]; cbn in Hg; try done; naive_solver.
Qed.

(** Without a namespace the cluster-wide part never starts its manager. *)
Theorem no_namespace_no_start args w schedule :
  node_name (w_env w) = "" -> namespace (w_env w) = "" ->
  forall e, mkEntry StartManager e ∉ calls (run schedule (start (boot args) w)).
Proof using Type.
  intros Hn Hns e Hin. apply boot_guarded in Hin as (H & HH & Hg%HH).
  apply boot_guarded in Hg as (H1 & HH1 & [Hg%HH1 _]).
  apply boot_guarded in Hg as (H2 & HH2 & (_ & Hg & _)). unfold role_ready in Hg.
  rewrite bool_decide_false in Hg by (by intros []). destruct Hg as [c Hg%HH2].
  apply boot_guarded in Hg as (H3 & _ & Hg). cbn in Hg. by destruct Hg as (_ & _ & [] & _).
Qed.

(** *** A start without trouble *)

(** No call fails, the names of the metrics are free, and no second signal comes. *)
Record reliable : Prop := {
  ok_Registry e v : vec_name v ∉ reg_names (pf_Registry e);
  ok_no_signal e : fst (pf_second_signal e) = false;
  ok_clientgo e : fst (pf_clientgo_AddToScheme e) = None;
  ok_AddToScheme gv l e : fst (pf_AddToScheme gv l e) = None;
  ok_GetConfig e : fst (pf_GetConfig e) = None;
  ok_NewManager o e : fst (pf_NewManager o e) = None;
  ok_ReadFile p e : exists bs, fst (pf_ReadFile p e) = inl bs;
  ok_WriteFile p c e : fst (sys_WriteFile p c e) = None;
  ok_runtimes w : exists rts, fst (setup_runtimeMap w) = Ret (inl rts);
  ok_Complete c e : fst (pf_Complete c e) = None;
  ok_AddRotator c e : fst (pf_AddRotator c e) = None;
  ok_Complete_webhook e : fst (pf_Complete_webhook e) = None;
  ok_AddHealthzCheck n e : fst (pf_AddHealthzCheck n e) = None;
  ok_AddReadyzCheck n e : fst (pf_AddReadyzCheck n e) = None;
  ok_Start e : fst (pf_Start e) = None
}.

Section Reliable.
Variable env : gmap string string.
Hypothesis Hok : reliable.

Abbreviation Inv := (fun w : World E => w_env w = env).
Abbreviation Ends := (ends (Action := Action E) Inv).
Abbreviation Harmless := (harmless (Action := Action E) Inv).

Lemma wp_ok (f : E -> option GoError * E) (Q : option GoError -> World E -> Prop) w :
  (forall e, fst (f e) = None) -> Inv w -> (forall w', Inv w' -> Q None w') -> wp (external f) Q w.
Proof using Type.
  intros Hf Hw HQ. specialize (Hf (w_ext w)). unfold wp, post, external.
  destruct (f (w_ext w)) as [r e]. cbn in *. subst r. by apply HQ.
Qed.

Lemma ends_call n a f (k : option GoError -> proc) :
  (forall e, fst (f e) = None) -> Ends n (k None) -> Ends (S n) (call a (external f) k).
Proof using Type. intros Hf Hk w Hw. by apply wp_ok. Qed.

Lemma ends_getenv n key (k : string -> proc) :
  Ends n (k (env_get env key)) -> Ends (S n) (code (os_Getenv key) k).
Proof using Type.
  intros Hk w Hw. unfold os_Getenv, getenv, wp, post, mbind, M_bind. cbn. by rewrite Hw.
Qed.

Lemma harmless_webhook : Harmless (serve_webhook (fun _ => PDone)).
Proof using Hok.
  intros w Hw. unfold external, wp, post, mbind, M_bind.
  destruct (pf_ready (w_ext w)) as [b e]. split; [exact Hw|]. intros _ w1 Hw1.
  unfold wp, post, external. split; [exact Hw1|]. intros w2 Hw2.
  by apply wp_ok; [apply ok_Complete_webhook|done|].
Qed.

(** The handler waits for ever. *)
Lemma harmless_signal_handler : Harmless (signal_handler (fun _ => PDone)).
Proof using Hok.
  intros w Hw. unfold external, wp, post, mbind, M_bind.
  pose proof (ok_no_signal Hok (w_ext w)) as Hs.
  destruct (pf_second_signal (w_ext w)) as [b e]. cbn in Hs. subst b. by split; [exact Hw|].
Qed.

Lemma ok_register_metrics e : fst (register_metrics e) = None.
Proof using Hok.
  unfold register_metrics. destruct (metrics_init_ok (pf_Registry e)) as (r & -> & _); [|done].
  intros v. apply ok_Registry, Hok.
Qed.

Lemma harmless_collector : Harmless (loop collector_iteration (fun _ => PDone)).
Proof using Type.
  intros w Hw. pose proof (tame_collector w) as Ht. unfold wp, post in *.
  destruct (collector_iteration w) as [[b|msg] w']; cbn in *; [|by destruct Ht as (_ & _ & [])].
  by destruct Ht as [-> _].
Qed.

Lemma ends_install n f k : Ends n (k tt) -> Ends (3 + n) (install_docker_config f k).
Proof using Hok.
  intros Hk. unfold install_docker_config. case_bool_decide; [|eapply ends_mono; [exact Hk|lia]].
  apply ends_getenv. intros w Hw. destruct (ok_ReadFile Hok (systemWideDockerConfigPath f) (w_ext w)) as [bs Hbs].
  unfold wp, post, external. destruct (pf_ReadFile _ _) as [r e]. cbn in Hbs. subst r.
  split; [exact Hw|]. intros w1 Hw1. unfold os_WriteFile.
  apply wp_bind, wp_ok; [apply ok_WriteFile, Hok|done|]. intros w2 Hw2. by split.
Qed.

Lemma ends_agent n f k : Ends n (k tt) -> Ends (5 + n) (agent f (node_name env) k).
Proof using Hok.
  intros Hk. apply (ends_install (2 + n)). intros w Hw. pose proof (setup_runtimeMap_post w) as Hs.
  destruct (ok_runtimes Hok w) as [rts Hr]. unfold wp, post in *.
  destruct (setup_runtimeMap w) as [o w']. cbn in Hr. subst o. destruct Hs as (He & _).
  split; [congruence|]. apply ends_call; [apply ok_Complete, Hok|done].
Qed.

Lemma ends_cluster_part n f k :
  namespace env <> "" -> Ends n (k tt) -> Ends (7 + n) (cluster_part f k).
Proof using Hok.
  intros Hns Hk. apply ends_call; [apply ok_Complete, Hok|]. apply ends_getenv.
  fold (namespace env). rewrite bool_decide_true by done. do 3 apply ends_getenv.
  cbv beta zeta delta [pbind]. apply ends_call; [apply ok_AddRotator, Hok|]. by split; [apply harmless_webhook|].
Qed.

Lemma ends_serve : Ends 7 (serve (fun _ => PDone)).
Proof using Hok.
  apply ends_call; [done|]. split; [apply harmless_signal_handler|].
  split; [apply harmless_collector|]. apply ends_call; [apply ok_AddHealthzCheck, Hok|].
  apply ends_call; [apply ok_AddReadyzCheck, Hok|].
  by apply ends_call; [apply ok_Start, Hok|].
Qed.

Lemma ends_boot args f l rest :
  flags_distinct = true -> parse_flags args = Parsed (f, l) rest ->
  (node_name env = "" -> namespace env <> "") -> Ends 20 (boot args (fun _ => PDone)).
Proof using Hok.
  intros Hd Hp Hns. apply ends_call; [apply ok_register_metrics|].
  apply ends_call; [apply ok_clientgo, Hok|].
  apply ends_call; [apply ok_AddToScheme, Hok|].
  change (Ends 17 (main args (fun _ => PDone))). unfold main. rewrite Hd, Hp. cbn [negb].
  apply ends_call; [apply ok_GetConfig, Hok|]. apply ends_call; [apply ok_NewManager, Hok|].
  apply ends_getenv.
  unfold pbind at 1. fold (node_name env). case_bool_decide as Hn.
  - eapply ends_mono; [apply (ends_agent 7), ends_serve|lia].
  - apply (ends_cluster_part 7); [by apply Hns|apply ends_serve].
Qed.
End Reliable.

(** [C15] A start without trouble: when no call fails, no second signal comes, the
    names of the metrics are free, the flags are well formed and the cluster-wide
    part has a namespace, then however the goroutines interleave, after twenty
    turns of its own [main] has started the manager and, the manager having
    stopped, the process has ended with code 0. *)
Theorem start_completes args w schedule f l rest :
  reliable -> flags_distinct = true -> parse_flags args = Parsed (f, l) rest ->
  (node_name (w_env w) = "" -> namespace (w_env w) <> "") -> (20 <= turns schedule)%nat ->
  let s := run schedule (start (boot args) w) in
  p_end s = Some (Exited 0) /\ done (calls s) StartManager.
Proof using Type.
  intros Hok Hd Hp Hns Hn s.
  assert (p_end s = Some (Exited 0)) as He by (by eapply ends_run; [|eapply ends_boot|]).
  split; [done|]. destruct (boot_runs args w schedule) as [_ Hs]. fold s in Hs. rewrite He in Hs.
  destruct Hs as [Hh|Hs]; [congruence|exact Hs].
Qed.

(** *** Options *)

(** The command line for given values of the flags. *)
Definition render (f : Flags) : list string :=
  [flag_arg "metrics-bind-address" (metricsAddr f);
   flag_arg "health-probe-bind-address" (probeAddr f);
   flag_arg "leader-elect" (fmt_bool (enableLeaderElection f));
   flag_arg "metrics-secure" (fmt_bool (secureMetrics f));
   flag_arg "enable-http2" (fmt_bool (enableHTTP2 f));
   flag_arg "system-wide-docker-config-path" (systemWideDockerConfigPath f);
   flag_arg "cert-dir" (certDir f)].

Lemma find_flag_elem {F} (fs : list (Flag F)) fl :
  NoDup (map flag_name fs) -> fl ∈ fs -> find_flag fs (flag_name fl) = Some fl.
Proof using Type.
  induction fs as [|a fs IH]; [by intros _ ?%not_elem_of_nil|]. cbn [map].
  intros [Ha Hn]%NoDup_cons Hin. unfold find_flag. cbn [List.find].
  case_bool_decide as Heq.
  - apply elem_of_cons in Hin as [->|Hin]; [done|]. destruct Ha. rewrite Heq.
    by apply list_elem_of_fmap_2.
  - apply elem_of_cons in Hin as [->|Hin]; [done|]. by apply IH.
Qed.

(** One of [main]'s flags on the command line. *)
Lemma parse_main_flag fl v f f' l args :
  flags_distinct = true -> fl ∈ main_flags -> flag_name_ok (flag_name fl) = true ->
  flag_Set fl v f = inl f' ->
  Parse command_line (flag_arg (flag_name fl) v :: args) (f, l) = Parse command_line args (f', l).
Proof using Type.
  intros Hd%bool_decide_eq_true Hin Hn Hs.
  set (fl' := lift_flag fst (fun (f : Flags) (g : Flags * LibOpts) => (f, snd g)) fl).
  apply (Parse_arg _ fl'); [done| |].
  - change (flag_name fl) with (flag_name fl'). apply find_flag_elem; [done|].
    unfold command_line. rewrite !elem_of_app. right; left. by apply list_elem_of_fmap_2.
  - cbn. by rewrite Hs.
Qed.

Lemma parse_main_string set name v f l args :
  flags_distinct = true -> StringVar set name ∈ main_flags -> flag_name_ok name = true ->
  Parse command_line (flag_arg name v :: args) (f, l) = Parse command_line args (set v f, l).
Proof using Type. intros Hd Hin Hn. by apply (parse_main_flag (StringVar set name)). Qed.

Lemma parse_main_bool set name b f l args :
  flags_distinct = true -> BoolVar set name ∈ main_flags -> flag_name_ok name = true ->
  Parse command_line (flag_arg name (fmt_bool b) :: args) (f, l) =
  Parse command_line args (set b f, l).
Proof using Type.
  intros Hd Hin Hn. apply (parse_main_flag (BoolVar set name)); [done..|].
  cbn. by rewrite ParseBool_fmt.
Qed.

(** [C32] Every setting of the flags can be given on the command line: parsing the
    rendered values gives them back, whatever text they hold. *)
Theorem flags_roundtrip f :
  flags_distinct = true -> parse_flags (render f) = Parsed (f, lib_opts) [].
Proof using Type.
  intros Hd. unfold parse_flags, render.
  rewrite (parse_main_string set_metricsAddr), (parse_main_string set_probeAddr),
    (parse_main_bool set_enableLeaderElection), (parse_main_bool set_secureMetrics),
    (parse_main_bool set_enableHTTP2), (parse_main_string set_systemWideDockerConfigPath),
    (parse_main_string set_certDir) by (done || by repeat constructor). by destruct f.
Qed.

Definition configured (opts : list (tls_Config -> tls_Config)) (c : tls_Config) : tls_Config :=
  foldl (fun c opt => opt c) c opts.

(** [C31] HTTP/2 is off unless asked for: the manager is made with TLS options
    that leave HTTP/1.1 as the only protocol of the metrics and the webhook
    server, and with the flag they leave the configuration as it is. *)
Theorem http2_off args w schedule o e :
  mkEntry (NewManager o) e ∈ calls (run schedule (start (boot args) w)) ->
  exists f, flags_are args f /\ forall c,
    let protocols := if enableHTTP2 f then NextProtos c else ["http/1.1"] in
    NextProtos (configured (mo_TLSOpts o) c) = protocols /\
    NextProtos (configured (ws_TLSOpts (mo_WebhookServer o)) c) = protocols.
Proof using Type.
  intros (H & _ & (_ & f & Hf & ->))%boot_guarded. exists f. split; [done|].
  intros c. cbn. unfold tlsOpts. by destruct (enableHTTP2 f).
Qed.
End Main.

(** ** Concrete starts *)

Module MainWitnesses.
Import Fixtures.Std.
#[export] Existing Instance semver_std.
#[export] Existing Instance promauto_std.

(** A node on which everything works, and a platform without failures. *)
#[export] Instance sys_ok : Sys Store := {|
  sys_exec _ _ _ _ _ s := (("nerdctl version 2.1.4", None), s);
  sys_MkdirTemp _ _ s := (inl "/tmp/.docker-config-1", s);
  sys_WriteFile _ _ s := (None, s);
  sys_RemoveAll _ s := s
|}.
#[export] Instance engine_ok : Engine Store := {|
  Client := unit : Type;
  DefaultAddress := "/run/containerd/containerd.sock";
  Zstd := "zstd";
  CancelFunc := unit : Type;
  NewClient _ _ s := (inl (tt, tt), s);
  ServerSemVer _ s := (inl [2; 0; 1], s);
  call_cancel _ s := s
|}.

Definition platform_std (signalled : bool) : Platform Store := {|
  pf_Registry _ := ["go_goroutines"] : @Registry promauto_std;
  pf_set_Registry _ s := s;
  pf_SetupSignalHandler s := s;
  pf_second_signal s := (signalled, s);
  pf_clientgo_AddToScheme s := (None, s);
  pf_AddToScheme _ _ s := (None, s);
  pf_GetConfig s := (None, s);
  pf_NewManager _ s := (None, s);
  pf_ReadFile _ s := (inl "{}", s);
  pf_Complete _ s := (None, s);
  pf_AddRotator _ s := (None, s);
  pf_ready s := (true, s);
  pf_Register _ s := s;
  pf_Complete_webhook s := (None, s);
  pf_signal s := (Tick, s);
  pf_AddHealthzCheck _ s := (None, s);
  pf_AddReadyzCheck _ s := (None, s);
  pf_Start s := (None, s)
|}.
#[export] Instance platform_ok : Platform Store := platform_std false.

(** The flags of the libraries, over the path of the kubeconfig and zap's mode. *)
#[export] Instance flags_std : LibFlags := {|
  LibOpts := string * bool;
  lib_opts := ("", true);
  import_flags := [StringVar (fun v o => (v, snd o)) "kubeconfig"];
  BindFlags := [BoolVar (fun b o => (fst o, b)) "zap-devel"]
|}.

Definition with_env (env : gmap string string) : World Store :=
  let w := fx_world [] [] in
  mkWorld (w_ext w) env (w_clock w) (w_clock_i w) (w_uuid w) (w_uuid_i w) (w_seed w) (w_seed_i w) [].

(** As the chart of the repository deploys the two roles. *)
Definition cluster_env : gmap string string :=
  {["POD_NAMESPACE" := "kube-snapshot"; "TLS_SECRET_NAME" := "tls";
    "MUTATE_WEBHOOK_NAME" := "hook"; "MUTATE_WEBHOOK_SVC_NAME" := "svc"]}.
Definition cluster_args : list string := ["--leader-elect=true"; "--cert-dir=/certs"].
Definition agent_env : gmap string string :=
  {["SNAP_TASK_NODE_NAME" := "node-1"; "HOME" := "/root"]}.
Definition agent_args : list string :=
  ["--leader-elect=false";
   "--system-wide-docker-config-path=/root/.docker/system-wide/config.json"].

Lemma platform_reliable : reliable (E := Store).
Proof.
  split; try done.
  { intros [] v [Hv|Hv%not_elem_of_nil]%elem_of_cons; [|done].
    destruct v; revert Hv; vm_compute; discriminate. }
  { by eexists. }
  intros w. unfold setup_runtimeMap, mbind, M_bind.
  assert (fst (NewContainerdCompatibleRuntime "nerdctl" ["--debug"; "-n"; "k8s.io"] w) =
    Ret (inl (nerdctl true))) as Hc by (vm_compute; reflexivity).
  destruct (NewContainerdCompatibleRuntime _ _ w) as [o w']. cbn [fst] in Hc. subst o. by eexists.
Qed.

(** What is called, without the reconciler itself, which holds functions. *)
Definition call_name (a : Action Store) : string :=
  match a with
  | RegisterMetrics => "metrics" | AddClientgoToScheme => "clientgo" | AddToScheme _ _ => "scheme" | GetConfig => "config"
  | NewManager o => "manager " +:+ mo_BindAddress o
  | ReadFile p => "read " +:+ p | WriteFile p _ => "write " +:+ p
  | SetupRuntimes => "runtimes"
  | Complete (ForSnapshotPodTask r) => "tasks of " +:+ NodeName r
  | Complete ForSnapshotPod => "snapshots"
  | AddRotator c => "rotator " +:+ cr_DNSName c
  | CompleteWebhook p => "webhook " +:+ p
  | SetupSignalHandler => "signals" | SecondSignal => "second signal"
  | AddHealthzCheck n => n | AddReadyzCheck n => n
  | StartManager => "start"
  end.

Definition called (schedule : list nat) (args : list string) (env : gmap string string) : list string :=
  map (fun e => call_name (action e)) (calls (run schedule (start (boot args) (with_env env)))).

Example agent_start : called (repeat O 20) agent_args agent_env =
  ["metrics"; "clientgo"; "scheme"; "config"; "manager :8080"; "read /root/.docker/system-wide/config.json";
   "write /root/.docker/config.json"; "runtimes"; "tasks of node-1"; "signals"; "healthz"; "readyz"; "start"].
Proof. vm_compute. reflexivity. Qed.

(** Two interleavings of [main] with the goroutine of the webhook. *)
Example cluster_start :
  called (repeat O 13 ++ [1%nat; 1%nat; 1%nat] ++ repeat O 7) cluster_args cluster_env =
  ["metrics"; "clientgo"; "scheme"; "config"; "manager :8080"; "snapshots";
   "rotator svc.kube-snapshot.svc"; "webhook /mutate-v1-pod"; "signals"; "healthz"; "readyz"; "start"] /\
  called (repeat O 19 ++ [1%nat; 1%nat; 1%nat; O]) cluster_args cluster_env =
  ["metrics"; "clientgo"; "scheme"; "config"; "manager :8080"; "snapshots";
   "rotator svc.kube-snapshot.svc"; "signals"; "healthz"; "readyz"; "start"; "webhook /mutate-v1-pod"].
Proof. split; vm_compute; reflexivity. Qed.

(** A second signal ends the process, whatever [main] is about to do. *)
Example second_signal :
  let s := run (repeat O 15 ++ [2%nat; 2%nat; 2%nat; O; O])
             (start (boot (pf := platform_std true) cluster_args) (with_env cluster_env)) in
  p_end s = Some (Exited 1) /\
  map (fun e => call_name (action e)) (skipn 7 (calls s)) = ["signals"; "second signal"].
Proof. split; vm_compute; reflexivity. Qed.

(** The kustomize configuration of the repository sets no [POD_NAMESPACE]: its
    process panics at every start. *)
Definition kustomize_args : list string := ["--leader-elect"; "--health-probe-bind-address=:8081"].

Lemma exit_explained_witness :
  reason (w_env (with_env ∅)) kustomize_args
    (calls (run (repeat O 30) (start (boot kustomize_args) (with_env ∅))))
    (Crashed "env POD_NAMESPACE must specified").
Proof.
  apply (exit_explained kustomize_args (with_env ∅) (repeat O 30)). vm_compute. reflexivity.
Defined.

Lemma start_completes_witness :
  let s := run (repeat O 20) (start (boot cluster_args) (with_env cluster_env)) in
  p_end s = Some (Exited 0) /\ done (calls s) StartManager.
Proof.
  apply (start_completes cluster_args (with_env cluster_env) (repeat O 20)
    (set_certDir "/certs" (set_enableLeaderElection true default_flags)) (lib_opts : LibOpts) []).
  - exact platform_reliable.
  - vm_compute. reflexivity.
  - vm_compute. reflexivity.
  - vm_compute. discriminate.
  - vm_compute. lia.
Defined.

Lemma flags_roundtrip_witness :
  parse_flags (render (set_certDir "a=b --x" (set_enableHTTP2 true default_flags))) =
  Parsed (set_certDir "a=b --x" (set_enableHTTP2 true default_flags), lib_opts) [].
Proof. apply flags_roundtrip. vm_compute. reflexivity. Defined.

Lemma http2_off_witness :
  exists f, flags_are agent_args f /\ forall c,
    let protocols := if enableHTTP2 f then NextProtos c else ["http/1.1"] in
    NextProtos (configured (mo_TLSOpts (manager_options default_flags)) c) = protocols /\
    NextProtos (configured (ws_TLSOpts (mo_WebhookServer (manager_options default_flags))) c) = protocols.
Proof.
  pose (f := set_systemWideDockerConfigPath "/root/.docker/system-wide/config.json" default_flags).
  apply (http2_off agent_args (with_env agent_env) (repeat O 20) (manager_options f) None).
  eapply list_elem_of_lookup_2 with (i := 4%nat). vm_compute. reflexivity.
Defined.
End MainWitnesses.
